(* ===== verification/_CoqProject ===== *)
-Q . S2P
Prelude.v
LabGob.v
GoStrings.v
GoRunes.v
RaftLog.v
Persister.v
RaftNode.v
RaftNet.v
RaftNodeFacts.v
RaftElection.v
RaftMatching.v
RaftPanicFree.v
RaftScenarios.v
RaftDelivery.v
RaftAlias.v
RaftSnapshots.v
RaftService.v
Dedup.v
Retry.v
KVStore.v
KVServer.v
KVFacts.v
KVReplies.v
KVCluster.v
KVClient.v
ShardConfig.v
ShardMaps.v
ShardBalance.v
ShardTheorems.v
ShardServer.v
ShardClient.v
ShardKVClient.v
ShardOriginal.v
ShardOriginalServer.v
MRCoordinator.v
MRFacts.v
MRWorker.v
MRGroup.v
MRNames.v
MRHandlers.v
MRJob.v
MRApps.v
MRTestApps.v
MRCrash.v
MRPrograms.v
MRConcurrent.v
MRConcurrentFacts.v
MRConcurrentJob.v
MRRace.v
MRMain.v
Bitset.v
Porcupine.v
PorcupineList.v
PorcupineSpec.v
PorcupineHeap.v
PorcupineCheck.v
PorcupineTheorems.v
PorcupinePartial.v
PorcupineParallel.v
PorcupineOps.v
PorcupineChecks.v
KvModel.v
KvLocality.v
PorcupineVerdicts.v
PorcupineViz.v
PorcupineVizFacts.v
LabRpc.v
LabRpcFacts.v
RaftTester.v
RaftTesterFacts.v
RaftTesterChecks.v
RaftTesterStart.v
RaftTesterOne.v
ServiceTester.v
ServiceTesterFacts.v
ServiceTesterEnd.v
ShardKVTester.v
ShardKVTesterFacts.v
LabGobCheck.v
LabGobFacts.v
