(* ===== verification/Prelude.v ===== *)
(** * Verification of the 6.824 labs: MapReduce, Raft, a replicated store, a shard controller

    The repository (Go, under src/src) holds several programs and the tools that
    test them:

    - raft: a Raft peer (election, log replication, log compaction,
      persistence) on which the two services below run;
    - kvraft: a replicated key/value store with snapshots, and its clerk;
    - shardctrler, shardctrler_original: the replicated configuration of a
      sharded store, and an earlier version of it; shardkv: the clerk of that
      store (its server is a skeleton);
    - mr, main, mrapps: a MapReduce coordinator and worker with their programs,
      the sequential program they are compared with, and applications;
    - labrpc, labgob: the simulated network and the encoding all of them use;
    - porcupine, models: the linearizability checker of the tests and its
      key/value model.

    A service hands commands to its Raft peer ([Start]); the peers replicate
    their logs over labrpc and deliver committed commands to the service
    through the apply channel; clerks retry over the servers until one of them
    answers.  The tests record the histories of the clerks and hand them to
    porcupine.

    ** The files

    Prelude: Go's partial operations as the [outcome] monad, slices indexed by
    Go integers, automation, the iteration order of maps ([MapOrder]).
    LabGob: streams of encoded values ([GobStream]).

    Raft (src/src/raft).  RaftLog: raft_log.go, the compacted log.  Persister:
    persister.go.  RaftNode: every critical section of raft.go,
    raft_election.go, raft_replication.go, raft_compaction.go,
    raft_persistence.go and raft_application.go as a function on the record
    [Raft].  RaftNet: several peers, messages that are delayed, dropped,
    duplicated and reordered, crashes and restarts, as a step relation; a request
    may be encoded with other entries than it was created with ([EEncode]).
    RaftNodeFacts, RaftElection, RaftMatching, RaftPanicFree: invariants by
    induction on the steps (and that terms never decrease).  RaftScenarios: concrete runs.  RaftAlias: the arrays
    behind the logs, which the requests under way share, so that the entries of
    [EEncode] are what the arrays hold.  RaftDelivery: what the
    services receive, in which order; RaftSnapshots: every snapshot a peer keeps,
    sends or delivers was made by a service.  RaftService: what a service may rely
    on ([RaftService]), implemented by [Raft].

    Replicated services.  Dedup: the table of the last request of each client,
    shared by both services.  Retry: the loop of a clerk, shared by all clerks.
    KVStore, KVServer, KVClient: src/src/kvraft; KVFacts, KVReplies: its
    theorems; KVCluster: the replicas, their handlers and the peers of RaftNet run
    together.  ShardConfig: shardctrler/state_machine.go and common.go;
    ShardMaps, ShardBalance, ShardTheorems: its theorems; ShardServer,
    ShardClient: server.go and client.go; ShardKVClient: shardkv/client.go;
    ShardOriginal, ShardOriginalServer: shardctrler_original.

    MapReduce.  GoStrings, GoRunes: the string functions used.  MRCoordinator:
    mr/coordinator.go and rpc.go; MRFacts: its theorems.  MRWorker: mr/worker.go
    and main/mrsequential.go over a file system; MRGroup, MRNames, MRHandlers:
    lemmas; MRJob: coordinator, workers and files together; MRApps, MRTestApps:
    mrapps; MRCrash: jobs whose workers exit inside a task, as crash.go makes
    them.  MRPrograms: the handlers of the worker as trees of file operations,
    equal to those of MRWorker when they run alone; MRConcurrent,
    MRConcurrentFacts, MRConcurrentJob: workers whose operations interleave and
    which may be killed between any two of them; MRRace: concrete runs, and
    what their word counts and indexes contain.  MRMain:
    the calls to the coordinator, main/mrcoordinator.go and main/mrworker.go, and
    the time at which an idle worker returns.

    Tools.  Bitset, Porcupine: porcupine/bitset.go, model.go and checker.go, the
    linked list in a heap of nodes; PorcupineList, PorcupineSpec, PorcupineHeap,
    PorcupineCheck, PorcupineTheorems: the search decides linearizability;
    PorcupineParallel: checkParallel and porcupine.go; PorcupineOps,
    PorcupineChecks: timed operations and the entry points; KvModel,
    KvLocality: models/kv.go; PorcupineVerdicts: what the checker answers;
    PorcupinePartial: the partial linearizations it reports; PorcupineViz,
    PorcupineVizFacts: the data that visualization.go computes from them.
    LabRpc, LabRpcFacts: labrpc/labrpc.go.  LabGobCheck, LabGobFacts: the checks of
    labgob/labgob.go.

    Testers.  RaftTester: the links, appliers, snapshots and checks of
    raft/config.go; RaftTesterFacts,
    RaftTesterChecks: what the checks decide; RaftTesterStart: starting and
    crashing peers, and the cluster of RaftNet that a tester represents;
    RaftTesterOne: one, wait, statistics and cleanup, with what the tester sees
    at each poll as a parameter.
    ServiceTester, ServiceTesterFacts: kvraft/config.go, which
    shardctrler/config.go repeats, over the interface [TestedServer];
    ServiceTesterEnd: the rest of both files and shardctrler_original/config.go.
     ShardKVTester,
    ShardKVTesterFacts: shardkv/config.go and server.go.

    ** What the theorems show

    Raft: at most one leader per term, no critical section but
    Snapshot panics, a restarted peer has what it had persisted; Log Matching as
    long as no peer overwrites array cells that one of its requests still has
    to be encoded from, and a run in which one does and Log Matching fails; and, by
    runs of the model, that an old AppendEntries can truncate acknowledged entries, so
    that committed commands are lost, Snapshot can panic and replication can
    stop.  A service receives commands and snapshots without gaps, unless a
    snapshot is installed while another one is being delivered: then it can be
    lost.
    kvraft: replicas execute each write once and in log order, snapshots are
    those of a prefix, a waiting handler gets the result at its index, which
    may be that of another client's command.  Peers and replicas together: as
    long as the peers deliver the commands of one log and no snapshot is
    installed while another one is being delivered, every replica holds the
    replay of a prefix of it, through crashes, restarts and snapshots of others.
    shardctrler: Join and Leave terminate, balance and move only what they
    must; replicas agree whatever the order of their maps; clerks return; the
    original version hangs.
    mr: a finished job of workers whose file operations interleave and which
    may be killed has computed what the sequential program computes, and word count
    counts and the indexer indexes, if a reduce task is given out again only after its
    worker died without reporting and map tasks are not reported after the map
    phase.  A worker on its own finishes; a late report blocks a job and keys
    with white space lose output.  Workers that exit late in a reduce
    task that another worker has completed spoil its output; a worker that is merely slow replaces a complete output by a
    partial one for a while.  Workers that wait return before the task of a dead
    worker can be given out again.
    porcupine: checkSingle decides linearizability of one partition; checking
    a key/value history by key decides linearizability with respect to the
    store; a timeout never makes a definite answer wrong; an empty history
    blocks the checker.  The partial linearizations it reports are longest for
    each operation, and the visualization shows exactly these, with the states
    they pass through.
    labrpc: requests are dispatched at most once, the sections of their handlers
    run in order between those of others, a call that returns true delivers
    the reply of its handler, a killed server answers nothing, calls return.
    bitset: 64-bit words implement finite sets.
    labgob: each lower-case field of a type in use is reported once, and the
    check of a variable before decoding warns or panics.
    testers: a new test is the initial cluster of RaftNet, restarting a server
    is its crash step, exactly connected servers reach each other, the checks
    of logs and leaders report exactly what they say, one returns an index only
    after an agreement, and a partition isolates the leader in a minority.  The
    tester of shardkv restarts a server with its persisted state, and works for
    exactly three servers per group.

    ** Fuel

    Loops that need not end take fuel, and theorems say how much is enough.
    [balanceFuel] (200) is enough for the balancing loop of Join on ten shards
    (join_balances); the back-off loop of AppendEntries needs the length of
    the log; the loops over groups of keys need one pass per pair; the clerks
    return within one turn over the servers after some server settles; for
    [checkLoop] the theorems give a bound from which on the result does not
    change.  Where a loop really does not end (original_replica_hangs,
    original_clerk_join_never_returns) the lemma is about every fuel.

    ** Parameters

    Code outside the repository is a parameter with its documented behaviour:
    [GobStream] and [Codec] (encoding/gob), [KeySort] and [TimeSort]
    (sort.Slice and sort.Sort leave the order of equal elements open, as does
    [LengthSort]), [GoFormat] (the verb %v),
    [Letters] and [Uppers] (the tables of unicode.IsLetter and IsUpper),
    [MapOrder] and [rangeKeys] (the order in which a loop visits a map),
    the growth of slices (RaftAlias), clocks, random numbers and schedulers as arguments or as the choices of a
    step relation. The map and reduce functions are arguments of the worker.
    net/rpc, plugin and encoding/json answer as arguments say. In the theorems
    on interleaved workers the text of a time contains a space, as
    time.Time.String writes it.
    Each has an instance.

    ** Not modelled

    The test files; debug printing, random names and seeds; the page of
    porcupine/visualization.go (780 lines of HTML and JavaScript in a string
    constant); the programs of main that call packages which are not in the
    repository (diskvd, lockc, lockd, pbc, pbd, viewd). Real time: timers of Raft
    and of the services may fire at any moment. Torn reads: the sends of
    applicationTicker read the fields of a snapshot without the lock, and the model
    reads them at one moment; encoders read the cells of a log one by one
    (RaftAlias), each cell at one moment. Memory and disk do not run out.
    That the commands peers deliver agree is a hypothesis of KVCluster: the code
    does not guarantee it (reordered_append_loses_commit). *)


From stdpp Require Export base tactics list gmap sets option numbers strings sorting pretty.
From Stdlib Require Export ZArith Lia.
From Corelib Require Export ssreflect.

(** ** Go's partial operations

    A Go operation that may panic (slice indexing, [panic], a failed type
    assertion) returns an [outcome].  Sequencing is the monadic bind of stdpp,
    so a handler reads top to bottom like the source. *)

Inductive outcome (A : Type) : Type :=
| Ret (a : A)
| Panic (msg : string).
Arguments Ret {A} _.
Arguments Panic {A} _.

#[export] Instance outcome_ret : MRet outcome := fun A a => Ret a.

#[export] Instance outcome_bind : MBind outcome := fun A B f m =>
  match m with Ret a => f a | Panic e => Panic e end.

#[export] Instance outcome_fmap : FMap outcome := fun A B f m =>
  match m with Ret a => Ret (f a) | Panic e => Panic e end.

(** [is_ret m] holds when the computation did not panic. *)
Definition is_ret {A} (m : outcome A) : Prop :=
  match m with Ret _ => True | Panic _ => False end.

Lemma outcome_bind_ret {A B} (m : outcome A) (f : A -> outcome B) b :
  m ≫= f = Ret b <-> exists a, m = Ret a /\ f a = Ret b.
Proof.
  destruct m as [a|e]; simpl; split; intros H.
  - eauto.
  - destruct H as (a' & [= ->] & H); exact H.
  - discriminate.
  - destruct H as (a' & H & _); discriminate.
Qed.

Lemma outcome_fmap_ret {A B} (m : outcome A) (f : A -> B) b :
  f <$> m = Ret b <-> exists a, m = Ret a /\ b = f a.
Proof.
  destruct m as [a|e]; unfold fmap, outcome_fmap; split; intros H.
  - injection H as <-; eauto.
  - destruct H as (a' & [= ->] & ->); reflexivity.
  - discriminate.
  - destruct H as (a' & H & _); discriminate.
Qed.

Lemma is_ret_spec {A} (m : outcome A) : is_ret m <-> exists a, m = Ret a.
Proof.
  destruct m; simpl; split; intros H; eauto.
  - contradiction.
  - destruct H; discriminate.
Qed.

(** Decompose hypotheses [m ≫= f = Ret b] into their steps. *)
Ltac inv_ret :=
  repeat match goal with
  | H : _ ≫= _ = Ret _ |- _ =>
      let a := fresh "v" in let H1 := fresh "Hm" in let H2 := fresh "Hk" in
      apply outcome_bind_ret in H as (a & H1 & H2)
  | H : _ <$> _ = Ret _ |- _ =>
      let a := fresh "v" in let H1 := fresh "Hm" in let H2 := fresh "Hk" in
      apply outcome_fmap_ret in H as (a & H1 & H2)
  | H : Ret _ = Ret _ |- _ => injection H as H; try discriminate H; subst
  | H : mret _ = Ret _ |- _ => injection H as H; subst
  | H : Panic _ = Ret _ |- _ => discriminate H
  end.

(** ** Go slices indexed by Go integers *)

Definition len {A} (l : list A) : Z := Z.of_nat (length l).

Definition index_error : string := "index out of range".

(** [l[i]] *)
Definition slice_get {A} (l : list A) (i : Z) : outcome A :=
  if bool_decide (0 <= i)%Z then
    match l !! Z.to_nat i with Some x => Ret x | None => Panic index_error end
  else Panic index_error.

(** [l[i] = x] *)
Definition slice_set {A} (l : list A) (i : Z) (x : A) : outcome (list A) :=
  if bool_decide (0 <= i < len l)%Z then Ret (<[Z.to_nat i := x]> l)
  else Panic index_error.

(** [l[i:]] *)
Definition slice_from {A} (l : list A) (i : Z) : outcome (list A) :=
  if bool_decide (0 <= i <= len l)%Z then Ret (drop (Z.to_nat i) l)
  else Panic index_error.

(** [l[:i]], for an upper bound within the length of [l] *)
Definition slice_to {A} (l : list A) (i : Z) : outcome (list A) :=
  if bool_decide (0 <= i <= len l)%Z then Ret (take (Z.to_nat i) l)
  else Panic index_error.

(** [sort.Ints] *)
Definition sort_Ints (l : list Z) : list Z := merge_sort Z.le l.

Create HintDb golib.
Create Rewrite HintDb golib.

Lemma len_nonneg {A} (l : list A) : (0 <= len l)%Z.
Proof. unfold len; lia. Qed.
#[export] Hint Resolve len_nonneg : golib.

Lemma len_app {A} (l k : list A) : len (l ++ k) = (len l + len k)%Z.
Proof. unfold len. rewrite length_app. lia. Qed.

Lemma len_cons {A} (x : A) l : len (x :: l) = (1 + len l)%Z.
Proof. unfold len. simpl. lia. Qed.

Lemma len_nil {A} : len (@nil A) = 0%Z.
Proof. reflexivity. Qed.

Lemma len_insert {A} (l : list A) i x : len (<[i := x]> l) = len l.
Proof. unfold len. by rewrite length_insert. Qed.

Lemma len_take {A} (l : list A) i :
  (0 <= i <= len l)%Z -> len (take (Z.to_nat i) l) = i.
Proof. unfold len. rewrite length_take. lia. Qed.

Lemma len_drop {A} (l : list A) i :
  (0 <= i <= len l)%Z -> len (drop (Z.to_nat i) l) = (len l - i)%Z.
Proof. unfold len. rewrite length_drop. lia. Qed.

#[export] Hint Rewrite @len_app @len_cons @len_nil @len_insert : golib.

Lemma slice_get_ret {A} (l : list A) i x :
  slice_get l i = Ret x <-> (0 <= i)%Z /\ l !! Z.to_nat i = Some x.
Proof.
  unfold slice_get. case_bool_decide; [|naive_solver].
  destruct (l !! Z.to_nat i); naive_solver.
Qed.

Lemma slice_get_in_range {A} (l : list A) i :
  (0 <= i < len l)%Z -> exists x, slice_get l i = Ret x.
Proof.
  intros Hi. destruct (lookup_lt_is_Some_2 l (Z.to_nat i)) as [x Hx].
  { unfold len in Hi; lia. }
  exists x. apply slice_get_ret. split; [lia|done].
Qed.

Lemma slice_get_bounds {A} (l : list A) i x :
  slice_get l i = Ret x -> (0 <= i < len l)%Z.
Proof.
  intros [? H%lookup_lt_Some]%slice_get_ret. unfold len. lia.
Qed.

Lemma slice_set_ret {A} (l : list A) i x l' :
  slice_set l i x = Ret l' <-> (0 <= i < len l)%Z /\ l' = <[Z.to_nat i := x]> l.
Proof. unfold slice_set. case_bool_decide; naive_solver. Qed.

Lemma slice_get_nat {A} (l : list A) (j : Z) x : (0 <= j)%Z -> slice_get l j = Ret x <-> l !! Z.to_nat j = Some x.
Proof. intros Hj. rewrite slice_get_ret. naive_solver. Qed.

Lemma slice_get_some {A} (l : list A) (i : Z) x : (0 <= i)%Z -> l !! Z.to_nat i = Some x -> slice_get l i = Ret x.
Proof. intros Hi. by apply slice_get_nat. Qed.

Lemma slice_set_nat {A} (l : list A) (i : Z) x : (0 <= i < Z.of_nat (length l))%Z -> slice_set l i x = Ret (<[Z.to_nat i := x]> l).
Proof. intros Hi. by apply slice_set_ret. Qed.

Lemma slice_set_length {A} (l : list A) i x l' :
  slice_set l i x = Ret l' -> length l' = length l.
Proof. intros [_ ->]%slice_set_ret. apply length_insert. Qed.

Lemma slice_from_ret {A} (l : list A) i l' :
  slice_from l i = Ret l' <-> (0 <= i <= len l)%Z /\ l' = drop (Z.to_nat i) l.
Proof. unfold slice_from. case_bool_decide; naive_solver. Qed.

Lemma slice_to_ret {A} (l : list A) i l' :
  slice_to l i = Ret l' <-> (0 <= i <= len l)%Z /\ l' = take (Z.to_nat i) l.
Proof. unfold slice_to. case_bool_decide; naive_solver. Qed.

Lemma sort_Ints_sorted l : Sorted Z.le (sort_Ints l).
Proof. apply Sorted_merge_sort. intros x y. lia. Qed.

Lemma sort_Ints_perm l : sort_Ints l ≡ₚ l.
Proof. apply merge_sort_Permutation. Qed.

(** ** Counting loops

    [for_range n f s] is [for i := 0; i < n; i++ { s = f(i, s) }]. *)

Fixpoint for_from {S} (k : nat) (i : Z) (f : Z -> S -> outcome S) (s : S) : outcome S :=
  match k with
  | O => Ret s
  | S k' => s' ← f i s; for_from k' (i + 1)%Z f s'
  end.

Definition for_range {S} (n : nat) (f : Z -> S -> outcome S) (s : S) : outcome S :=
  for_from n 0%Z f s.

(** The loop rule: [I i s] holds before iteration [i]. *)
Lemma for_from_inv {S} (I : Z -> S -> Prop) f k i (s : S) :
  I i s ->
  (forall j s, (i <= j < i + Z.of_nat k)%Z -> I j s ->
     exists s', f j s = Ret s' /\ I (j + 1)%Z s') ->
  exists s', for_from k i f s = Ret s' /\ I (i + Z.of_nat k)%Z s'.
Proof.
  revert i s. induction k as [|k IH]; intros i s HI Hstep; simpl.
  - exists s. by rewrite Z.add_0_r.
  - destruct (Hstep i s) as (s1 & -> & HI1); [lia|done|]. simpl.
    destruct (IH (i + 1)%Z s1) as (s2 & -> & HI2); [done| |].
    { intros j s' Hj. apply Hstep. lia. }
    exists s2. split; [done|]. replace (i + _)%Z with (i + 1 + Z.of_nat k)%Z by lia. done.
Qed.

Lemma for_range_inv {S} (I : Z -> S -> Prop) f n (s : S) :
  I 0%Z s ->
  (forall j s, (0 <= j < Z.of_nat n)%Z -> I j s ->
     exists s', f j s = Ret s' /\ I (j + 1)%Z s') ->
  exists s', for_range n f s = Ret s' /\ I (Z.of_nat n) s'.
Proof. apply (for_from_inv I f n 0%Z s). Qed.

(** The partial rule, for a loop known to have returned. *)
Lemma for_from_post {S} (I : Z -> S -> Prop) f k i (s s' : S) :
  for_from k i f s = Ret s' ->
  I i s ->
  (forall j s s', (i <= j < i + Z.of_nat k)%Z -> I j s -> f j s = Ret s' -> I (j + 1)%Z s') ->
  I (i + Z.of_nat k)%Z s'.
Proof.
  revert i s. induction k as [|k IH]; intros i s Hf HI Hstep; simpl in Hf.
  - inv_ret. by rewrite Z.add_0_r.
  - inv_ret. replace (i + Z.of_nat (Datatypes.S k))%Z with (i + 1 + Z.of_nat k)%Z by lia.
    eapply IH; [exact Hk| |].
    + eapply Hstep; [|exact HI|exact Hm]. lia.
    + intros j s1 s2 Hj. apply Hstep. lia.
Qed.

Lemma for_range_post {S} (I : Z -> S -> Prop) f n (s s' : S) :
  for_range n f s = Ret s' ->
  I 0%Z s ->
  (forall j s s', (0 <= j < Z.of_nat n)%Z -> I j s -> f j s = Ret s' -> I (j + 1)%Z s') ->
  I (Z.of_nat n) s'.
Proof. intros. by eapply (for_from_post I f n 0%Z s s'). Qed.

(** ** Machine integers *)

(** The signed integer of [bits] bits that [x] wraps around to. *)
Definition wrap (bits x : Z) : Z := ((x + 2 ^ (bits - 1)) `mod` 2 ^ bits - 2 ^ (bits - 1))%Z.

(** ** Go maps

    [for k, v := range m] visits a map in an unspecified order, which may differ
    between two loops: a [MapOrder] chooses it. *)

Class MapOrder := {
  range {V : Type} : gmap Z V -> list (Z * V);
  range_perm {V : Type} (m : gmap Z V) : range m ≡ₚ map_to_list m;
}.

#[export] Program Instance sorted_order : MapOrder := {| range V m := map_to_list m |}.
Next Obligation. done. Qed.

(** The opposite order. *)
Program Definition reverse_order : MapOrder := {| range V m := reverse (map_to_list m) |}.
Next Obligation. intros. apply reverse_Permutation. Qed.

(** ** Filters that keep everything or nothing *)

Lemma filter_none {A} (P : A -> Prop) `{forall a, Decision (P a)} (l : list A) : Forall (fun a => ~ P a) l -> filter P l = [].
Proof. induction 1; [done|]. by rewrite filter_cons_False. Qed.

Lemma filter_all {A} (P : A -> Prop) `{forall a, Decision (P a)} (l : list A) : Forall P l -> filter P l = l.
Proof. induction 1 as [|x l Hx _ IH]; [done|]. by rewrite filter_cons_True // IH. Qed.
