(* ===== verification/LabGob.v ===== *)
(** * LabGob: the value streams of src/src/labgob/labgob.go

    [LabEncoder] and [LabDecoder] wrap a [gob] encoder and decoder around a
    byte buffer.  A gob stream is a self-describing sequence of values: type
    definitions are sent once per stream, so a stream is not the
    concatenation of the encodings of its values, and it is modelled as a
    whole.  [GobStream V] is what the program relies on: a decoder opened on
    the bytes of a stream returns the values in the order in which they were
    encoded.  [countable_gob] is a concrete instance. *)

From S2P Require Import Prelude.
From Stdlib Require Import Strings.Byte.

Notation bytes := (list Byte.byte).

#[export] Instance byte_eq_decision : EqDecision Byte.byte.
Proof. solve_decision. Defined.

Class GobStream (V : Type) := {
  stream_bytes : list V -> bytes;
  stream_values : bytes -> list V;
  stream_roundtrip vs : stream_values (stream_bytes vs) = vs;
  stream_nonempty vs : vs <> [] -> stream_bytes vs <> [];
}.

Section codec.
  Context {V : Type} `{!GobStream V}.

(** A [LabEncoder] is determined by the values written to it so far. *)
Definition LabEncoder := list V.

Definition NewEncoder : LabEncoder := [].

Definition Encode (e : LabEncoder) (v : V) : LabEncoder := e ++ [v].

(** [w.Bytes()] of the buffer under the encoder *)
Definition Bytes (e : LabEncoder) : bytes := stream_bytes e.

(** A [LabDecoder] holds the values not yet read. *)
Definition LabDecoder := list V.

Definition NewDecoder (b : bytes) : LabDecoder := stream_values b.

(** [d.Decode(&x)]: [sel] selects the values of the static type of [x]; the
      result is the decoded value, or [None] for a non-nil error (the end of
      the stream, or a value of another type). *)
Definition Decode {A} (sel : V -> option A) (d : LabDecoder) : option A * LabDecoder :=
    match d with
    | [] => (None, [])
    | v :: d' => (sel v, d')
    end.
End codec.
Arguments LabEncoder V : clear implicits.
Arguments LabDecoder V : clear implicits.

(** ** A concrete stream format *)

Fixpoint pos_bytes (p : positive) : bytes :=
  match p with
  | xH => [x01]
  | xO q => x00 :: pos_bytes q
  | xI q => x01 :: pos_bytes q
  end.

Fixpoint bytes_pos (b : bytes) : positive :=
  match b with
  | [] => xH
  | [_] => xH
  | x00 :: b' => xO (bytes_pos b')
  | _ :: b' => xI (bytes_pos b')
  end.

Lemma pos_bytes_nonempty p : pos_bytes p <> [].
Proof. by destruct p. Qed.

Lemma bytes_pos_bytes p : bytes_pos (pos_bytes p) = p.
Proof.
  induction p as [p IH|p IH|]; simpl; [| |done];
    destruct (pos_bytes p) eqn:E; try (by apply pos_bytes_nonempty in E);
    by rewrite IH.
Qed.

#[export] Program Instance countable_gob {V} `{Countable V} : GobStream V := {|
  stream_bytes vs := pos_bytes (encode vs);
  stream_values b := default [] (decode (bytes_pos b));
|}.
Next Obligation. intros. simpl. by rewrite bytes_pos_bytes decode_encode. Qed.
Next Obligation. intros. simpl. apply pos_bytes_nonempty. Qed.
