(* ===== verification/GoStrings.v ===== *)
(** * GoStrings: the string functions the MapReduce code uses

    Go strings are byte strings; [string] is a list of bytes too.  The
    functions of [strings], [path/filepath] and [bufio] are written out with
    their behaviour on arbitrary bytes, UTF-8 white space included. *)

From S2P Require Import Prelude.
From Stdlib Require Import Ascii OrderedTypeEx.
Local Open Scope string_scope.

(** ** Characters *)

Definition byte_of (c : ascii) : N := N_of_ascii c.

Definition is_digit (c : ascii) : bool := (48 <=? byte_of c)%N && (byte_of c <=? 57)%N.

Fixpoint all_chars (p : ascii -> bool) (s : string) : bool :=
  match s with
  | EmptyString => true
  | String c s => p c && all_chars p s
  end.

Lemma app_cons c (s t : string) : String c s +:+ t = String c (s +:+ t).
Proof. done. Qed.

Lemma app_assoc_str (s t u : string) : (s +:+ t) +:+ u = s +:+ t +:+ u.
Proof. induction s as [|c s IH]; [done|]. by rewrite !app_cons IH. Qed.

Lemma app_empty_r (s : string) : s +:+ "" = s.
Proof. induction s as [|c s IH]; [done|]. by rewrite app_cons IH. Qed.

Lemma all_chars_app p s t : all_chars p (s +:+ t) = all_chars p s && all_chars p t.
Proof. induction s as [|c s IH]; [done|]. rewrite app_cons /= IH. by rewrite andb_assoc. Qed.

Lemma all_chars_impl (p q : ascii -> bool) s :
  (forall c, p c = true -> q c = true) -> all_chars p s = true -> all_chars q s = true.
Proof.
  intros Hpq. induction s as [|c s IH]; simpl; [done|].
  intros [H1 H2]%andb_true_iff. by rewrite (Hpq _ H1) IH.
Qed.

(** Decimal numbers, [%d]. *)
Lemma pretty_N_go_digits n s :
  all_chars is_digit s = true -> all_chars is_digit (pretty_N_go n s) = true.
Proof.
  revert s. induction (N.lt_wf_0 n) as [n _ IH]. intros s Hs.
  destruct (decide (0 < n)%N) as [Hn|Hn].
  - rewrite pretty_N_go_step; [done|]. apply IH; [by apply N.div_lt|]. simpl. rewrite Hs andb_true_r.
    assert (n `mod` 10 < 10)%N as Hm by (apply N.mod_lt; done).
    destruct (n `mod` 10)%N as [|p]; [done|]. do 10 (destruct p as [p|p|]; try done; try lia).
  - assert (n = 0%N) as -> by lia. by rewrite pretty_N_go_0.
Qed.

Lemma pretty_nonneg_digits (z : Z) : (0 <= z)%Z -> all_chars is_digit (pretty z) = true.
Proof.
  intros Hz. unfold pretty, pretty_Z. destruct z as [|p|p]; [done| |lia].
  unfold pretty, pretty_positive, pretty, pretty_N. destruct (decide _); [done|]. by apply pretty_N_go_digits.
Qed.

Lemma pretty_Z_chars (z : Z) : all_chars (fun c => is_digit c || Ascii.eqb c "-") (pretty z) = true.
Proof.
  destruct (decide (0 <= z)%Z) as [Hz|Hz].
  - eapply all_chars_impl; [|by apply pretty_nonneg_digits]. intros c ->. done.
  - destruct z as [|p|p]; [lia|lia|]. change (pretty (Z.neg p)) with (String "-" (pretty (Z.pos p))).
    simpl. eapply all_chars_impl; [|by apply pretty_nonneg_digits]. intros c ->. done.
Qed.

(** A separator ends a string without it. *)
Lemma chars_app_inj (p : ascii -> bool) (s t u v : string) c :
  p c = false -> all_chars p s = true -> all_chars p t = true ->
  s +:+ String c u = t +:+ String c v -> s = t /\ u = v.
Proof.
  intros Hc. revert t. induction s as [|x s IH]; intros [|y t] Hs Ht; rewrite ?app_cons; simpl in *.
  - by intros [= ->].
  - intros [= -> _]. by rewrite Hc in Ht.
  - intros [= -> _]. by rewrite Hc in Hs.
  - apply andb_true_iff in Hs as [_ Hs], Ht as [_ Ht]. intros [= -> [-> ->]%IH]; done.
Qed.

(** A separator that is not a digit ends a number. *)
Lemma digits_app_inj (s t u v : string) c :
  is_digit c = false -> all_chars is_digit s = true -> all_chars is_digit t = true ->
  s +:+ String c u = t +:+ String c v -> s = t /\ u = v.
Proof. apply chars_app_inj. Qed.

(** ** [strings.TrimSuffix] and [path/filepath] *)

Fixpoint TrimSuffix (s suffix : string) : string :=
  if bool_decide (s = suffix) then "" else
  match s with
  | EmptyString => ""
  | String c s => String c (TrimSuffix s suffix)
  end.

Definition no_slash : string -> bool := all_chars (fun c => negb (Ascii.eqb c "/")).

(** The suffix from the last dot of the last element of the path. *)
Fixpoint Ext (path : string) : string :=
  match path with
  | EmptyString => ""
  | String c path =>
      let e := Ext path in
      if bool_decide (e <> "") then e
      else if Ascii.eqb c "." && no_slash path then String c path else ""
  end.

Fixpoint strip_slashes (path : string) : string :=
  match path with
  | EmptyString => ""
  | String c path =>
      let r := strip_slashes path in
      if bool_decide (r = "") && Ascii.eqb c "/" then "" else String c r
  end.

Fixpoint last_element (path : string) : string :=
  match path with
  | EmptyString => ""
  | String c rest =>
      if no_slash path then path else last_element rest
  end.

Definition Base (path : string) : string :=
  if bool_decide (path = "") then "." else
  let e := last_element (strip_slashes path) in
  if bool_decide (e = "") then "/" else e.

Lemma length_app_str (s t : string) : String.length (s +:+ t) = (String.length s + String.length t)%nat.
Proof. induction s as [|c s IH]; [done|]. rewrite app_cons /= IH. done. Qed.

Lemma TrimSuffix_app s suffix : TrimSuffix (s +:+ suffix) suffix = s.
Proof.
  induction s as [|c s IH]; simpl.
  - destruct suffix; simpl; [done|]. by rewrite bool_decide_true.
  - rewrite bool_decide_false; [|by rewrite IH]. intros H%(f_equal String.length).
    rewrite /= length_app_str in H. lia.
Qed.

Lemma Ext_no_dot s : all_chars (fun c => negb (Ascii.eqb c ".")) s = true -> Ext s = "".
Proof.
  induction s as [|c s IH]; simpl; [done|]. intros [Hc Hs]%andb_true_iff.
  rewrite (IH Hs) /=. apply negb_true_iff in Hc. by rewrite Hc.
Qed.

Lemma Ext_app s e :
  all_chars (fun c => negb (Ascii.eqb c ".")) e = true -> no_slash e = true ->
  Ext (s +:+ String "." e) = String "." e.
Proof.
  intros Hd Hs. induction s as [|c s IH]; simpl.
  - by rewrite (Ext_no_dot e Hd) Hs.
  - by rewrite IH.
Qed.

(** ** [strings.Fields] *)

(** The width of the white space character at the start of [s], 0 if there is
    none: the ASCII spaces, U+0085, U+00A0, U+1680, U+2000 to U+200A, U+2028,
    U+2029, U+202F, U+205F and U+3000 in UTF-8.  Their first bytes never
    continue another character, so this agrees with decoding from the left. *)
Definition ascii_space (b : N) : bool := ((9 <=? b) && (b <=? 13) || (b =? 32))%N.

Definition space2 (b1 b2 : N) : bool := ((b1 =? 0xC2) && ((b2 =? 0x85) || (b2 =? 0xA0)))%N.

Definition space3 (b1 b2 b3 : N) : bool :=
  ((b1 =? 0xE1) && (b2 =? 0x9A) && (b3 =? 0x80) ||
   (b1 =? 0xE2) && (b2 =? 0x80) &&
     ((0x80 <=? b3) && (b3 <=? 0x8A) || (b3 =? 0xA8) || (b3 =? 0xA9) || (b3 =? 0xAF)) ||
   (b1 =? 0xE2) && (b2 =? 0x81) && (b3 =? 0x9F) ||
   (b1 =? 0xE3) && (b2 =? 0x80) && (b3 =? 0x80))%N.

Definition space_at (s : string) : nat :=
  match s with
  | EmptyString => 0
  | String c1 s1 =>
      if ascii_space (byte_of c1) then 1 else
      match s1 with
      | EmptyString => 0
      | String c2 s2 =>
          if space2 (byte_of c1) (byte_of c2) then 2 else
          match s2 with
          | EmptyString => 0
          | String c3 _ => if space3 (byte_of c1) (byte_of c2) (byte_of c3) then 3 else 0
          end
      end
  end.

Definition flush (cur : string) : list string := if bool_decide (cur = "") then [] else [cur].

Fixpoint fields_loop (skip : nat) (cur s : string) : list string :=
  match s with
  | EmptyString => flush cur
  | String c rest =>
      match skip with
      | Datatypes.S k => fields_loop k cur rest
      | O =>
          match space_at s with
          | O => fields_loop 0 (cur +:+ String c "") rest
          | Datatypes.S k => (flush cur ++ fields_loop k "" rest)%list
          end
      end
  end.

Definition Fields (s : string) : list string := fields_loop 0 "" s.

(** No white space character starts anywhere in [s]. *)
Fixpoint no_space (s : string) : bool :=
  match s with
  | EmptyString => true
  | String _ rest => bool_decide (space_at s = 0) && no_space rest
  end.

Lemma space3_2 b1 b3 : space3 b1 32 b3 = false.
Proof. unfold space3. simpl. by rewrite !andb_false_r. Qed.

Lemma space3_3 b1 b2 : space3 b1 b2 32 = false.
Proof. unfold space3. simpl. by rewrite !andb_false_r. Qed.

Lemma space2_2 b1 : space2 b1 32 = false.
Proof. unfold space2. simpl. by rewrite andb_false_r. Qed.

(** A blank after a word does not complete a character of the word. *)
Lemma space_at_blank c s t :
  space_at (String c s) = 0 -> space_at (String c s +:+ String " " t) = 0.
Proof.
  rewrite app_cons. unfold space_at. destruct (ascii_space (byte_of c)); [done|]. intros H.
  change (byte_of " ") with 32%N. destruct s as [|c2 [|c3 s]]; rewrite ?app_cons; simpl.
  - change (byte_of " ") with 32%N. rewrite space2_2. destruct t; [done|]. by rewrite space3_2.
  - simpl in H. change (byte_of " ") with 32%N. rewrite space3_3. destruct (space2 _ _); done.
  - done.
Qed.

Lemma fields_word cur s :
  no_space s = true -> fields_loop 0 cur s = flush (cur +:+ s).
Proof.
  revert cur. induction s as [|c s IH]; intros cur H; [simpl; by rewrite app_empty_r|].
  cbn [no_space] in H. apply andb_true_iff in H as [Hc%bool_decide_eq_true Hs].
  cbn [fields_loop]. rewrite Hc IH //. by rewrite app_assoc_str.
Qed.

Lemma fields_blank cur s t :
  no_space s = true -> fields_loop 0 cur (s +:+ String " " t) = (flush (cur +:+ s) ++ fields_loop 0 "" t)%list.
Proof.
  revert cur. induction s as [|c s IH]; intros cur H; [simpl; by rewrite app_empty_r|].
  cbn [no_space] in H. apply andb_true_iff in H as [Hc%bool_decide_eq_true Hs].
  apply (space_at_blank _ _ t) in Hc. rewrite app_cons. rewrite app_cons in Hc. cbn [fields_loop]. rewrite Hc IH //.
  by rewrite app_assoc_str.
Qed.

Lemma Fields_pair k v :
  no_space k = true -> no_space v = true -> k <> "" -> v <> "" -> Fields (k +:+ String " " v) = [k; v].
Proof.
  intros Hk Hv Hk0 Hv0. unfold Fields. rewrite fields_blank // fields_word // /flush /= !bool_decide_false //.
Qed.

(** ** [bufio.Scanner] with [ScanLines] *)

Definition LF : ascii := "010".
Definition CR : ascii := "013".

Definition MaxScanTokenSize : nat := 64 * 1024.

(** The lines of the input, the last one possibly without its newline. *)
Fixpoint raw_lines (cur s : string) : list string :=
  match s with
  | EmptyString => flush cur
  | String c s => if Ascii.eqb c LF then cur :: raw_lines "" s else raw_lines (cur +:+ String c "") s
  end.

Fixpoint dropCR (s : string) : string :=
  match s with
  | EmptyString => ""
  | String c rest => if Ascii.eqb c CR && bool_decide (rest = "") then "" else String c (dropCR rest)
  end.

Fixpoint take_while {A} (p : A -> bool) (l : list A) : list A :=
  match l with
  | [] => []
  | x :: l => if p x then x :: take_while p l else []
  end.

(** What [for sc.Scan() { sc.Text() }] yields: it stops at the first line that
    does not fit the buffer. *)
Definition scanLines (s : string) : list string :=
  dropCR <$> take_while (fun l => String.length l <? MaxScanTokenSize)%nat (raw_lines "" s).

Definition concat_str (l : list string) : string := foldr (fun a b => a +:+ b) "" l.

Lemma concat_str_app l k : concat_str (l ++ k)%list = concat_str l +:+ concat_str k.
Proof. induction l as [|a l IH]; [done|]. simpl. rewrite IH. by rewrite app_assoc_str. Qed.

Lemma raw_lines_line cur s t :
  all_chars (fun c => negb (Ascii.eqb c LF)) s = true ->
  raw_lines cur (s +:+ String LF t) = (cur +:+ s) :: raw_lines "" t.
Proof.
  revert cur. induction s as [|c s IH]; intros cur H; simpl; [by rewrite app_empty_r|].
  simpl in H. apply andb_true_iff in H as [Hc%negb_true_iff Hs]. rewrite Hc IH //. by rewrite app_assoc_str.
Qed.

Lemma dropCR_id s : all_chars (fun c => negb (Ascii.eqb c CR)) s = true -> dropCR s = s.
Proof.
  induction s as [|c s IH]; simpl; [done|]. intros [Hc%negb_true_iff Hs]%andb_true_iff. by rewrite Hc IH.
Qed.

(** A line [Scan] reads back as it was written. *)
Definition plain_line (l : string) : bool :=
  all_chars (fun c => negb (Ascii.eqb c LF)) l && all_chars (fun c => negb (Ascii.eqb c CR)) l &&
  (String.length l <? MaxScanTokenSize)%nat.

Lemma scanLines_concat (ls : list string) :
  Forall (fun l => plain_line l = true) ls ->
  scanLines (concat_str ((fun l => l +:+ String LF "") <$> ls)) = ls.
Proof.
  unfold scanLines. induction 1 as [|l ls Hl _ IH]; [done|].
  unfold plain_line in Hl. apply andb_true_iff in Hl as [[Hlf Hcr]%andb_true_iff Hlen].
  rewrite fmap_cons. cbn [concat_str foldr]. rewrite app_assoc_str app_cons raw_lines_line //.
  change ("" +:+ l) with l. cbn [take_while]. rewrite Hlen fmap_cons dropCR_id //. f_equal. exact IH.
Qed.

(** A word has no line break. *)
Lemma no_space_char (p : ascii -> bool) s :
  (forall c, p c = false -> ascii_space (byte_of c) = true) -> no_space s = true -> all_chars p s = true.
Proof.
  intros Hp. induction s as [|c s IH]; [done|]. cbn [no_space all_chars].
  intros [Hc%bool_decide_eq_true Hs]%andb_true_iff. rewrite (IH Hs) andb_true_r.
  destruct (p c) eqn:E; [done|]. apply Hp in E. unfold space_at in Hc. by rewrite E in Hc.
Qed.

Lemma no_space_not_char c s :
  ascii_space (byte_of c) = true -> no_space s = true -> all_chars (fun x => negb (Ascii.eqb x c)) s = true.
Proof.
  intros Hc. apply no_space_char. intros x Hx%negb_false_iff%Ascii.eqb_eq. by subst.
Qed.

(** A pair printed as [%s %s\n] and read back by [Scan] and [Fields]. *)
Lemma plain_pair k v :
  no_space k = true -> no_space v = true ->
  (String.length k + String.length v + 1 < MaxScanTokenSize)%nat -> plain_line (k +:+ String " " v) = true.
Proof.
  intros Hk Hv Hlen. unfold plain_line. rewrite !all_chars_app /= !no_space_not_char //.
  rewrite length_app_str. simpl. apply Nat.ltb_lt. unfold MaxScanTokenSize in *. lia.
Qed.

(** ** [sort.Strings] and [strings.Join] *)

Definition string_le (a b : string) : Prop := String.leb a b = true.

#[export] Instance string_le_dec : RelDecision string_le.
Proof. intros a b. unfold string_le. apply _. Defined.

Definition sort_Strings (l : list string) : list string := merge_sort string_le l.

Lemma ltb_iff (a b : string) : String.ltb a b = true <-> String_as_OT.lt a b.
Proof.
  rewrite -String_as_OT.cmp_lt. unfold String.ltb. change (String_as_OT.cmp a b) with (String.compare a b).
  destruct (String.compare a b); naive_solver.
Qed.

Lemma string_le_iff a b : string_le a b <-> String.ltb b a = false.
Proof.
  unfold string_le, String.leb, String.ltb. rewrite (String.compare_antisym a b). by destruct (String.compare b a).
Qed.

#[export] Instance string_le_total : Total string_le.
Proof. intros a b. exact (String.leb_total a b). Qed.

#[export] Instance string_le_antisymm : AntiSymm (=) string_le.
Proof. intros a b. exact (String.leb_antisym a b). Qed.

#[export] Instance string_le_trans : Transitive string_le.
Proof.
  intros a b c Hab Hbc. destruct (decide (a = b)) as [->|Hne]; [done|]. destruct (decide (b = c)) as [->|Hne']; [done|].
  assert (forall x y, string_le x y -> x <> y -> String_as_OT.lt x y) as Hlt.
  { intros x y Hle Hxy. apply ltb_iff. destruct (String.ltb x y) eqn:E; [done|]. destruct Hxy.
    apply string_le_antisymm; [done|]. by apply string_le_iff. }
  apply string_le_iff. destruct (String.ltb c a) eqn:E; [|done]. exfalso. apply ltb_iff in E.
  pose proof (String_as_OT.lt_trans _ _ _ (Hlt a b Hab Hne) (Hlt b c Hbc Hne')) as Hac.
  pose proof (String_as_OT.lt_trans _ _ _ Hac E) as Haa. exact (String_as_OT.lt_not_eq _ _ Haa eq_refl).
Qed.

Lemma sort_Strings_perm l k : l ≡ₚ k -> sort_Strings l = sort_Strings k.
Proof.
  intros Hp. unfold sort_Strings. apply (Sorted_unique string_le).
  - apply Sorted_merge_sort, _.
  - apply Sorted_merge_sort, _.
  - by rewrite !merge_sort_Permutation.
Qed.

#[export] Instance sort_Strings_proper : Proper ((≡ₚ) ==> (=)) sort_Strings.
Proof. intros l k. apply sort_Strings_perm. Qed.

Fixpoint strings_Join (l : list string) (sep : string) : string :=
  match l with
  | [] => ""
  | [a] => a
  | a :: l => a +:+ sep +:+ strings_Join l sep
  end.
