(* ===== verification/GoRunes.v ===== *)
(** * GoRunes: UTF-8 and [strings.FieldsFunc]

    Ranging over a Go string decodes UTF-8 from the left; an invalid byte is
    the rune U+FFFD of width 1.  [FieldsFunc] cuts a string at the runes its
    argument accepts.  [unicode.IsLetter] is a table: a [Letters] is one that
    is right about U+FFFD and about white space. *)

From S2P Require Import Prelude GoStrings.
From Stdlib Require Import Ascii.
Local Open Scope string_scope.

(** ** Decoding *)

Definition RuneError : N := 0xFFFD.

Definition cont (b : N) : bool := ((0x80 <=? b) && (b <=? 0xBF))%N.
Definition between (lo hi b : N) : bool := ((lo <=? b) && (b <=? hi))%N.

(** The second byte a first byte admits. *)
Definition second3 (b1 b2 : N) : bool :=
  if (b1 =? 0xE0)%N then between 0xA0 0xBF b2 else if (b1 =? 0xED)%N then between 0x80 0x9F b2 else cont b2.
Definition second4 (b1 b2 : N) : bool :=
  if (b1 =? 0xF0)%N then between 0x90 0xBF b2 else if (b1 =? 0xF4)%N then between 0x80 0x8F b2 else cont b2.

(** The bytes at the start of [s], 0 after its end: 0 is never a continuation. *)
Definition byte_at (s : string) (i : nat) : N := from_option byte_of 0%N (String.get i s).

Definition low6 (b : N) : N := N.land b 0x3F.

(** [utf8.DecodeRuneInString] for a non-empty string: the rune and its width. *)
Definition decodeBytes (b1 b2 b3 b4 : N) : N * nat :=
  (if b1 <? 0x80 then (b1, 1%nat)
   else if between 0xC2 0xDF b1 && cont b2 then (N.lor (N.shiftl (N.land b1 0x1F) 6) (low6 b2), 2%nat)
   else if between 0xE0 0xEF b1 && second3 b1 b2 && cont b3 then
     (N.lor (N.lor (N.shiftl (N.land b1 0x0F) 12) (N.shiftl (low6 b2) 6)) (low6 b3), 3%nat)
   else if between 0xF0 0xF4 b1 && second4 b1 b2 && cont b3 && cont b4 then
     (N.lor (N.lor (N.lor (N.shiftl (N.land b1 0x07) 18) (N.shiftl (low6 b2) 12)) (N.shiftl (low6 b3) 6)) (low6 b4), 4%nat)
   else (RuneError, 1%nat))%N.

Definition DecodeRune (s : string) : N * nat := decodeBytes (byte_at s 0) (byte_at s 1) (byte_at s 2) (byte_at s 3).

(** ** [strings.FieldsFunc] *)

Section fields_func.
Context (f : N -> bool).

(** [skip] bytes remain of the current rune; they belong to a field if [keep]. *)
Fixpoint fieldsFunc (skip : nat) (keep : bool) (cur s : string) : list string :=
  match s with
  | EmptyString => flush cur
  | String c rest =>
      match skip with
      | Datatypes.S k => fieldsFunc k keep (if keep then cur +:+ String c "" else cur) rest
      | O =>
          let '(r, width) := DecodeRune s in
          if f r then (flush cur ++ fieldsFunc (width - 1) false "" rest)%list
          else fieldsFunc (width - 1) true (cur +:+ String c "") rest
      end
  end.

Definition FieldsFunc (s : string) : list string := fieldsFunc 0 false "" s.
End fields_func.

(** ** Letters *)

(** [unicode.IsSpace] *)
Definition IsSpace (r : N) : bool :=
  (between 9 13 r || (r =? 0x20) || (r =? 0x85) || (r =? 0xA0) || (r =? 0x1680) || between 0x2000 0x200A r ||
   (r =? 0x2028) || (r =? 0x2029) || (r =? 0x202F) || (r =? 0x205F) || (r =? 0x3000))%N.

(** [unicode.IsLetter]: category L, which has neither white space nor U+FFFD. *)
Class Letters := {
  IsLetter : N -> bool;
  letter_not_space r : IsSpace r = true -> IsLetter r = false;
  letter_not_error : IsLetter RuneError = false;
}.

Definition latin1_letter (r : N) : bool :=
  (between 65 90 r || between 97 122 r || (r =? 0xAA) || (r =? 0xB5) || (r =? 0xBA) ||
   between 0xC0 0xD6 r || between 0xD8 0xF6 r || between 0xF8 0xFF r)%N.

(** The table restricted to Latin-1. *)
#[export] Program Instance latin1 : Letters := {| IsLetter := latin1_letter |}.
Next Obligation.
  intros r. unfold IsSpace, latin1_letter, between. rewrite !orb_true_iff !andb_true_iff !orb_false_iff !andb_false_iff.
  rewrite !N.leb_le !N.leb_gt !N.eqb_eq !N.eqb_neq. lia.
Qed.
Next Obligation. done. Qed.

Example words_of_line : FieldsFunc (fun r => negb (IsLetter r)) "The End; the_end." = ["The"; "End"; "the"; "end"].
Proof. vm_compute. reflexivity. Qed.

(** ** Fields of letters have no white space *)

Lemma cont_iff b : cont b = true <-> (0x80 <= b <= 0xBF)%N.
Proof. unfold cont. by rewrite andb_true_iff !N.leb_le. Qed.

Lemma between_iff lo hi b : between lo hi b = true <-> (lo <= b <= hi)%N.
Proof. unfold between. by rewrite andb_true_iff !N.leb_le. Qed.

Lemma decode_space b1 b2 b3 b4 :
  ascii_space b1 = true \/ space2 b1 b2 = true \/ space3 b1 b2 b3 = true -> IsSpace (decodeBytes b1 b2 b3 b4).1 = true.
Proof.
  intros H. unfold ascii_space, space2, space3 in H.
  rewrite ?orb_true_iff ?andb_true_iff ?orb_true_iff ?andb_true_iff ?N.leb_le ?N.eqb_eq in H.
  destruct H as [H|[[-> [->| ->]]|H]]; [|done..|].
  - unfold decodeBytes. assert (b1 <? 0x80 = true)%N as -> by (apply N.ltb_lt; lia). simpl. unfold IsSpace.
    rewrite !orb_true_iff !between_iff !N.eqb_eq. lia.
  - repeat match goal with
    | H : _ \/ _ |- _ => destruct H as [H|H]
    | H : (_ /\ _) /\ _ |- _ => destruct H as [[-> ->] H]
    end; subst; try done.
    assert (b3 ∈ (N.add 0x80 ∘ N.of_nat <$> seq 0 11)) as Hin.
    { apply list_elem_of_fmap. exists (N.to_nat (b3 - 0x80)). rewrite elem_of_seq. cbn. lia. }
    clear H. revert b3 Hin. apply Forall_forall. repeat constructor.
Qed.

Lemma byte_at_0 c s : byte_at (String c s) 0 = byte_of c.
Proof. done. Qed.

Lemma byte_at_S c s i : byte_at (String c s) (S i) = byte_at s i.
Proof. done. Qed.

Lemma space_is_space s : space_at s <> 0 -> IsSpace (DecodeRune s).1 = true.
Proof.
  intros H. unfold DecodeRune. apply decode_space. destruct s as [|c1 s1]; [done|]. rewrite byte_at_0 !byte_at_S.
  unfold space_at in H. destruct (ascii_space (byte_of c1)); [auto|]. right. destruct s1 as [|c2 s2]; [done|].
  rewrite byte_at_0 !byte_at_S. destruct (space2 _ _); [auto|]. right. destruct s2 as [|c3 s3]; [done|].
  rewrite byte_at_0. by destruct (space3 _ _ _).
Qed.

Lemma cont_not_space s : cont (byte_at s 0) = true -> space_at s = 0.
Proof.
  destruct s as [|c s]; [done|]. rewrite byte_at_0 cont_iff. intros Hc. unfold space_at.
  assert (ascii_space (byte_of c) = false) as ->.
  { unfold ascii_space. rewrite orb_false_iff andb_false_iff !N.leb_gt N.eqb_neq. lia. }
  assert (forall x, (0xC0 <= x)%N -> (byte_of c =? x)%N = false) as Hne by (intros; apply N.eqb_neq; lia).
  destruct s as [|c2 s]; [done|]. unfold space2. rewrite (Hne 0xC2%N ltac:(lia)).
  destruct s as [|c3 s]; [done|]. unfold space3. by rewrite (Hne 0xE1%N ltac:(lia)) !(Hne 0xE2%N ltac:(lia)) (Hne 0xE3%N ltac:(lia)).
Qed.

Lemma decode_cont b1 b2 b3 b4 :
  (decodeBytes b1 b2 b3 b4).1 <> RuneError ->
  let w := (decodeBytes b1 b2 b3 b4).2 in
  (1 < w -> cont b2 = true) /\ (2 < w -> cont b3 = true) /\ (3 < w -> cont b4 = true) /\ 1 <= w <= 4.
Proof.
  unfold decodeBytes. cbv zeta. destruct (b1 <? 0x80)%N; [simpl; lia|].
  destruct (between 0xC2 0xDF b1 && cont b2) eqn:E2; [apply andb_true_iff in E2 as [_ E2]; cbn [fst snd]; intros _; split_and!; [done|lia..]|].
  destruct (between 0xE0 0xEF b1 && second3 b1 b2 && cont b3) eqn:E3.
  { apply andb_true_iff in E3 as [[_ H2]%andb_true_iff H3]. cbn [fst snd]. intros _. split_and!; [intros _|done|lia..].
    revert H2. unfold second3. rewrite cont_iff.
    destruct (b1 =? 0xE0)%N; [|destruct (b1 =? 0xED)%N]; rewrite ?between_iff ?cont_iff; lia. }
  destruct (between 0xF0 0xF4 b1 && second4 b1 b2 && cont b3 && cont b4) eqn:E4; [|done].
  apply andb_true_iff in E4 as [[[_ H2]%andb_true_iff H3]%andb_true_iff H4]. cbn [fst snd]. intros _. split_and!; [intros _|done|done|lia..].
  revert H2. unfold second4. rewrite cont_iff.
  destruct (b1 =? 0xF0)%N; [|destruct (b1 =? 0xF4)%N]; rewrite ?between_iff ?cont_iff; lia.
Qed.

(** The next [k] bytes continue a rune. *)
Definition conts (k : nat) (s : string) : Prop := forall i, i < k -> cont (byte_at s i) = true.

Lemma conts_next k c s : conts (S k) (String c s) -> cont (byte_of c) = true /\ conts k s.
Proof. intros H. split; [apply (H 0); lia|]. intros i Hi. apply (H (S i)). lia. Qed.

(** No white space starts in [p] when [s] follows it. *)
Fixpoint space_free (p s : string) : Prop :=
  match p with
  | EmptyString => True
  | String _ p' => space_at (p +:+ s) = 0 /\ space_free p' s
  end.

Lemma space_free_snoc p c s : space_free p (String c s) -> space_at (String c s) = 0 -> space_free (p +:+ String c "") s.
Proof.
  intros Hp Hs. induction p as [|d p IH]; [by split|]. destruct Hp as [Hd Hp]. rewrite app_cons. split; [|by apply IH].
  rewrite app_cons app_assoc_str. exact Hd.
Qed.

Lemma space_at_app s t : space_at s <> 0 -> space_at (s +:+ t) = space_at s.
Proof.
  destruct s as [|c1 s1]; [done|]. rewrite app_cons. unfold space_at. destruct (ascii_space (byte_of c1)); [done|].
  destruct s1 as [|c2 s2]; [done|]. rewrite app_cons. destruct (space2 _ _); [done|].
  destruct s2 as [|c3 s3]; [done|]. by rewrite app_cons.
Qed.

Lemma space_free_no_space p s : space_free p s -> no_space p = true.
Proof.
  induction p as [|c p IH]; [done|]. intros [Hc Hp]. cbn [no_space]. rewrite (IH Hp) andb_true_r.
  apply bool_decide_eq_true. destruct (decide (space_at (String c p) = 0)) as [|Hne]; [done|].
  rewrite (space_at_app _ _ Hne) in Hc. done.
Qed.

Definition word (w : string) : Prop := no_space w = true /\ w <> "".

Lemma flush_words p s : space_free p s -> Forall word (flush p).
Proof.
  intros Hp. unfold flush. case_bool_decide as He; [constructor|]. repeat constructor; [exact (space_free_no_space _ _ Hp)|done].
Qed.

Section words.
Context `{!Letters} (f : N -> bool).
Hypothesis Hf : forall r, f r = false -> IsLetter r = true.

Lemma letter_decoded s : f (DecodeRune s).1 = false -> space_at s = 0 /\ (DecodeRune s).1 <> RuneError.
Proof.
  intros Hl%Hf. split.
  - destruct (decide (space_at s = 0)) as [|Hne]; [done|]. apply space_is_space, letter_not_space in Hne. congruence.
  - intros E. rewrite E letter_not_error in Hl. done.
Qed.

Lemma fieldsFunc_words s skip keep cur :
  space_free cur s -> (keep = true -> conts skip s) -> (keep = false -> cur = "") -> Forall word (fieldsFunc f skip keep cur s).
Proof.
  revert skip keep cur. induction s as [|c s IH]; intros skip keep cur Hc Hk He; cbn [fieldsFunc].
  { exact (flush_words cur "" Hc). }
  destruct skip as [|k].
  - destruct (DecodeRune (String c s)) as [r w] eqn:E. pose proof (letter_decoded (String c s)) as Hl. rewrite E in Hl.
    cbn in Hl. destruct (f r).
    + apply Forall_app. split; [exact (flush_words _ _ Hc)|]. by apply IH.
    + destruct (Hl eq_refl) as [Hs Hr]. apply IH; [by apply space_free_snoc|intros _|done].
      pose proof (decode_cont (byte_at (String c s) 0) (byte_at (String c s) 1) (byte_at (String c s) 2) (byte_at (String c s) 3)) as Hd.
      fold (DecodeRune (String c s)) in Hd. rewrite E in Hd. destruct (Hd Hr) as (H2 & H3 & H4 & Hw). cbn [fst snd] in H2, H3, H4, Hw.
      rewrite !byte_at_S in H2 H3 H4. intros i Hi. destruct i as [|[|[|i]]]; [apply H2|apply H3|apply H4|]; lia.
  - destruct keep.
    + destruct (conts_next _ _ _ (Hk eq_refl)) as [Hcc Hks]. apply IH; [|done|done].
      apply space_free_snoc; [done|]. by apply cont_not_space.
    + rewrite (He eq_refl). by apply IH.
Qed.

Lemma FieldsFunc_words s : Forall word (FieldsFunc f s).
Proof. by apply fieldsFunc_words. Qed.
End words.
