(* ===== verification/RaftLog.v ===== *)
(** * RaftLog: the compacted log of src/src/raft/raft_log.go

    A [RaftLog] keeps the suffix of the replicated log that starts at
    [snapLastIdx]; position 0 of [tailLog] is a dummy entry that carries
    the term of the last snapshotted entry.  The operations take logical
    indices and panic, like the source, when an index is outside
    [snapLastIdx .. size - 1].

    Here a log is the sequence of its entries.  In the source it is a slice:
    [tail] returns a part of the same array, and [append] and [appendFrom] write
    into that array while its capacity suffices.  RaftAlias.v adds the arrays.

    [lookup_log] is the logical view of a log; every operation is
    characterised by its effect on that view and on [size]. *)

From S2P Require Import Prelude LabGob.
Local Open Scope Z_scope.

Section raft_log.
Context {Cmd : Type}.

Record LogEntry := mkLogEntry {
  Term : Z;
  CommandValid : bool;
  Command : option Cmd; (* [None] is the nil interface value *)
}.

(** [LogEntry{Term: t}] *)
Definition dummyEntry (t : Z) : LogEntry := mkLogEntry t false None.

Record RaftLog := mkRaftLog {
  snapLastIdx : Z;
  snapLastTerm : Z;
  snapshot : bytes;
  tailLog : list LogEntry;
}.

(** The values a Raft peer writes to its persistent stream. *)
Inductive gobval :=
| GInt (z : Z)
| GLog (l : list LogEntry).

Definition as_int (v : gobval) : option Z :=
  match v with GInt z => Some z | _ => None end.

Definition as_log (v : gobval) : option (list LogEntry) :=
  match v with GLog l => Some l | _ => None end.

Definition NewLog (lastIdx lastTerm : Z) (snap : bytes) (entries : list LogEntry) : RaftLog :=
  mkRaftLog lastIdx lastTerm snap (([] ++ [dummyEntry lastTerm]) ++ entries).

(** [rl.readPersist(d)]: fields are assigned as they are decoded; [false] is a
    non-nil error, after which the fields read so far stay assigned. *)
Definition readPersistLog (rl : RaftLog) (d : LabDecoder gobval) : bool * RaftLog * LabDecoder gobval :=
  match Decode as_int d with
  | (None, d) => (false, rl, d)
  | (Some lastIdx, d) =>
      let rl := mkRaftLog lastIdx (snapLastTerm rl) (snapshot rl) (tailLog rl) in
      match Decode as_int d with
      | (None, d) => (false, rl, d)
      | (Some lastTerm, d) =>
          let rl := mkRaftLog (snapLastIdx rl) lastTerm (snapshot rl) (tailLog rl) in
          match Decode as_log d with
          | (None, d) => (false, rl, d)
          | (Some log, d) =>
              (true, mkRaftLog (snapLastIdx rl) (snapLastTerm rl) (snapshot rl) log, d)
          end
      end
  end.

Definition persistLog (rl : RaftLog) (e : LabEncoder gobval) : LabEncoder gobval :=
  let e := Encode e (GInt (snapLastIdx rl)) in
  let e := Encode e (GInt (snapLastTerm rl)) in
  Encode e (GLog (tailLog rl)).

Definition log_size (rl : RaftLog) : Z := snapLastIdx rl + len (tailLog rl).

Definition idx (rl : RaftLog) (logicIdx : Z) : outcome Z :=
  if bool_decide (logicIdx < snapLastIdx rl) || bool_decide (logicIdx >= log_size rl)
  then Panic "logicIdx out of range"
  else Ret (logicIdx - snapLastIdx rl).

Definition at_ (rl : RaftLog) (logicIdx : Z) : outcome LogEntry :=
  i ← idx rl logicIdx; slice_get (tailLog rl) i.

(** [fmt.Sprintf("[%d, %d]T%d", a, b, t)] *)
Definition show_run (a b t : Z) : string :=
  "[" +:+ pretty a +:+ ", " +:+ pretty b +:+ "]T" +:+ pretty t.

(** The loop of [String]: [i] is the position of the head of [es]. *)
Fixpoint string_loop (es : list LogEntry) (i : Z) (terms : string) (prevTerm prevStart : Z)
    : string * Z * Z :=
  match es with
  | [] => (terms, prevTerm, prevStart)
  | e :: es' =>
      if bool_decide (Term e <> prevTerm)
      then string_loop es' (i + 1) (terms +:+ " " +:+ show_run prevStart (i - 1) prevTerm) (Term e) i
      else string_loop es' (i + 1) terms prevTerm prevStart
  end.

Definition log_String (rl : RaftLog) : string :=
  let '(terms, prevTerm, prevStart) :=
    string_loop (tailLog rl) 0 "" (snapLastTerm rl) (snapLastIdx rl) in
  terms +:+ show_run prevStart (len (tailLog rl) - 1) prevTerm.

Definition log_last (rl : RaftLog) : outcome (Z * Z) :=
  e ← slice_get (tailLog rl) (len (tailLog rl) - 1);
  Ret (log_size rl - 1, Term e).

Definition log_tail (rl : RaftLog) (startIdx : Z) : outcome (list LogEntry) :=
  if bool_decide (startIdx >= log_size rl) then Ret []
  else i ← idx rl startIdx; slice_from (tailLog rl) i.

Definition log_append (rl : RaftLog) (e : LogEntry) : RaftLog :=
  mkRaftLog (snapLastIdx rl) (snapLastTerm rl) (snapshot rl) (tailLog rl ++ [e]).

Definition appendFrom (rl : RaftLog) (prevIdx : Z) (entries : list LogEntry) : outcome RaftLog :=
  i ← idx rl prevIdx;
  l ← slice_to (tailLog rl) (i + 1);
  Ret (mkRaftLog (snapLastIdx rl) (snapLastTerm rl) (snapshot rl) (l ++ entries)).

(** [Str] *)
Definition log_Str (rl : RaftLog) : outcome string :=
  '(lastIdx, lastTerm) ← log_last rl;
  Ret ("[" +:+ pretty (snapLastIdx rl) +:+ "]T" +:+ pretty (snapLastTerm rl) +:+
       "~[" +:+ pretty lastIdx +:+ "]T" +:+ pretty lastTerm).

Definition doSnapshot (rl : RaftLog) (index : Z) (snap : bytes) : outcome RaftLog :=
  i ← idx rl index;
  e ← slice_get (tailLog rl) i;
  rest ← slice_from (tailLog rl) (i + 1);
  let rl := mkRaftLog index (Term e) snap (tailLog rl) in
  let newLog := [] ++ [dummyEntry (snapLastTerm rl)] in
  let newLog := newLog ++ rest in
  Ret (mkRaftLog (snapLastIdx rl) (snapLastTerm rl) (snapshot rl) newLog).

Definition log_installSnapshot (rl : RaftLog) (index term : Z) (snap : bytes) : RaftLog :=
  let newLog := [] ++ [dummyEntry term] in
  mkRaftLog index term snap newLog.

(** ** The logical view *)

Definition lookup_log (rl : RaftLog) (i : Z) : option LogEntry :=
  if bool_decide (snapLastIdx rl <= i) then tailLog rl !! Z.to_nat (i - snapLastIdx rl) else None.

Definition term_at (rl : RaftLog) (i : Z) : option Z := Term <$> lookup_log rl i.

(** Well-formedness: the dummy entry is present and carries the term of the
    snapshot. *)
Definition log_wf (rl : RaftLog) : Prop :=
  0 <= snapLastIdx rl /\ Term <$> head (tailLog rl) = Some (snapLastTerm rl).

#[export] Instance log_wf_dec rl : Decision (log_wf rl).
Proof. unfold log_wf. apply _. Defined.

Implicit Types (rl : RaftLog) (e : LogEntry) (es : list LogEntry).

Lemma log_wf_size rl : log_wf rl -> 0 <= snapLastIdx rl < log_size rl.
Proof.
  intros [? H]. unfold log_size. destruct (tailLog rl); [done|].
  rewrite len_cons. pose proof (len_nonneg l0). lia.
Qed.

Lemma lookup_log_is_Some rl i :
  is_Some (lookup_log rl i) <-> snapLastIdx rl <= i < log_size rl.
Proof.
  unfold lookup_log, log_size, len. case_bool_decide.
  - rewrite lookup_lt_is_Some. lia.
  - split; [by intros []|lia].
Qed.

Lemma lookup_log_range rl i e :
  lookup_log rl i = Some e -> snapLastIdx rl <= i < log_size rl.
Proof. intros H. apply lookup_log_is_Some. eauto. Qed.

Lemma idx_ret rl i k :
  idx rl i = Ret k <-> (snapLastIdx rl <= i < log_size rl /\ k = i - snapLastIdx rl).
Proof.
  unfold idx. repeat case_bool_decide; simpl; split; intros Hx; try done; try lia.
  - inv_ret. lia.
  - destruct Hx as [_ ->]. done.
Qed.

Lemma at_ret rl i e : at_ rl i = Ret e <-> lookup_log rl i = Some e.
Proof.
  unfold at_. rewrite outcome_bind_ret. split.
  - intros (k & [? ->]%idx_ret & [_ Hk]%slice_get_ret).
    unfold lookup_log. rewrite bool_decide_true; [lia|done].
  - intros H. pose proof (lookup_log_range _ _ _ H) as Hr.
    exists (i - snapLastIdx rl). rewrite idx_ret slice_get_ret.
    unfold lookup_log in H. rewrite bool_decide_true in H; [lia|].
    split_and!; try lia; done.
Qed.

Lemma at_in_range rl i :
  snapLastIdx rl <= i < log_size rl -> exists e, at_ rl i = Ret e.
Proof.
  intros [e He]%lookup_log_is_Some. exists e. by apply at_ret.
Qed.

Lemma lookup_log_append rl e i :
  log_wf rl ->
  lookup_log (log_append rl e) i =
  if bool_decide (i = log_size rl) then Some e else lookup_log rl i.
Proof.
  intros Hwf%log_wf_size. unfold lookup_log, log_append, log_size in *. simpl.
  unfold len in *. repeat case_bool_decide; try lia; try done.
  - subst. rewrite lookup_app_r; [lia|].
    replace (Z.to_nat _ - length _)%nat with 0%nat by lia. done.
  - destruct (decide (Z.to_nat (i - snapLastIdx rl) < length (tailLog rl))%nat).
    + rewrite lookup_app_l //.
    + rewrite (lookup_ge_None_2 (tailLog rl)); [lia|].
      apply lookup_ge_None_2. rewrite length_app. simpl. lia.
Qed.

Lemma size_append rl e : log_size (log_append rl e) = log_size rl + 1.
Proof. unfold log_size, log_append. simpl. rewrite len_app len_cons len_nil. lia. Qed.

Lemma append_wf rl e : log_wf rl -> log_wf (log_append rl e).
Proof. intros [? H]. split; simpl; [done|]. by destruct (tailLog rl). Qed.

Lemma appendFrom_total rl p es :
  snapLastIdx rl <= p < log_size rl -> exists rl', appendFrom rl p es = Ret rl'.
Proof.
  intros H. unfold appendFrom.
  rewrite (proj2 (idx_ret rl p _) (conj H eq_refl)). simpl.
  unfold slice_to. rewrite bool_decide_true; [unfold log_size in H; lia|].
  simpl. eauto.
Qed.

Lemma appendFrom_tail rl p es rl' :
  appendFrom rl p es = Ret rl' ->
  snapLastIdx rl <= p < log_size rl /\
  rl' = mkRaftLog (snapLastIdx rl) (snapLastTerm rl) (snapshot rl)
          (take (Z.to_nat (p - snapLastIdx rl + 1)) (tailLog rl) ++ es).
Proof.
  unfold appendFrom. intros H. inv_ret.
  apply idx_ret in Hm as [? ->]. apply slice_to_ret in Hm0 as [_ ->]. done.
Qed.

Lemma size_appendFrom rl p es rl' :
  appendFrom rl p es = Ret rl' -> log_size rl' = p + 1 + len es.
Proof.
  intros [? ->]%appendFrom_tail. unfold log_size in *. simpl.
  rewrite len_app len_take; lia.
Qed.

Lemma appendFrom_wf rl p es rl' :
  log_wf rl -> appendFrom rl p es = Ret rl' -> log_wf rl'.
Proof.
  unfold log_wf. intros [? Hh] [? ->]%appendFrom_tail. simpl. split; [done|].
  replace (Z.to_nat (p - snapLastIdx rl + 1)) with (S (Z.to_nat (p - snapLastIdx rl))) by lia.
  by destruct (tailLog rl).
Qed.

Lemma doSnapshot_total rl k s :
  snapLastIdx rl <= k < log_size rl -> exists rl', doSnapshot rl k s = Ret rl'.
Proof.
  intros H. unfold doSnapshot.
  rewrite (proj2 (idx_ret rl k _) (conj H eq_refl)). simpl.
  destruct (slice_get_in_range (tailLog rl) (k - snapLastIdx rl)) as [e ->].
  { unfold log_size in H; lia. }
  simpl. unfold slice_from. rewrite bool_decide_true; [unfold log_size in H; lia|].
  simpl. eauto.
Qed.

Lemma doSnapshot_tail rl k s rl' :
  doSnapshot rl k s = Ret rl' ->
  exists e, lookup_log rl k = Some e /\
  rl' = mkRaftLog k (Term e) s
          (dummyEntry (Term e) :: drop (Z.to_nat (k - snapLastIdx rl + 1)) (tailLog rl)).
Proof.
  unfold doSnapshot. intros H. inv_ret.
  apply idx_ret in Hm as [? ->]. apply slice_get_ret in Hm0 as [_ He].
  apply slice_from_ret in Hm1 as [_ ->]. exists v0. split; [|done].
  unfold lookup_log. rewrite bool_decide_true; [lia|done].
Qed.

Lemma size_doSnapshot rl k s rl' :
  doSnapshot rl k s = Ret rl' -> log_size rl' = log_size rl.
Proof.
  intros (e & Hr%lookup_log_range & ->)%doSnapshot_tail. unfold log_size in *. simpl.
  rewrite len_cons len_drop; lia.
Qed.

Lemma doSnapshot_wf rl k s rl' :
  log_wf rl -> doSnapshot rl k s = Ret rl' -> log_wf rl'.
Proof.
  intros Hwf (e & Hr%lookup_log_range & ->)%doSnapshot_tail.
  split; simpl; [|done]. destruct Hwf. lia.
Qed.

Lemma log_last_ret rl :
  log_wf rl ->
  exists e, lookup_log rl (log_size rl - 1) = Some e /\
            log_last rl = Ret (log_size rl - 1, Term e).
Proof.
  intros Hwf. apply log_wf_size in Hwf.
  destruct (at_in_range rl (log_size rl - 1)) as [e He]; [lia|].
  exists e. apply at_ret in He as He'. split; [done|].
  unfold at_ in He. inv_ret. apply idx_ret in Hm as [_ ->].
  unfold log_last. unfold log_size in *.
  replace (len (tailLog rl) - 1) with (snapLastIdx rl + len (tailLog rl) - 1 - snapLastIdx rl) by lia.
  rewrite Hk. done.
Qed.

Lemma log_tail_ret rl start :
  snapLastIdx rl <= start ->
  log_tail rl start = Ret (drop (Z.to_nat (start - snapLastIdx rl)) (tailLog rl)).
Proof.
  intros H. unfold log_tail. case_bool_decide.
  - rewrite drop_ge //. unfold log_size, len in *. lia.
  - rewrite (proj2 (idx_ret rl start _) (conj (conj H _) eq_refl)); [lia|]. simpl.
    unfold slice_from. rewrite bool_decide_true //. unfold log_size in *. lia.
Qed.
End raft_log.

Arguments LogEntry Cmd : clear implicits.
Arguments RaftLog Cmd : clear implicits.
Arguments gobval Cmd : clear implicits.

(** ** Decidable equality and a concrete stream format for log values *)

#[export] Instance LogEntry_eq_dec {Cmd} `{EqDecision Cmd} : EqDecision (LogEntry Cmd).
Proof. solve_decision. Defined.

#[export] Instance RaftLog_eq_dec {Cmd} `{EqDecision Cmd} : EqDecision (RaftLog Cmd).
Proof. solve_decision. Defined.

#[export] Instance gobval_eq_dec {Cmd} `{EqDecision Cmd} : EqDecision (gobval Cmd).
Proof. solve_decision. Defined.

#[export] Instance LogEntry_countable {Cmd} `{Countable Cmd} : Countable (LogEntry Cmd).
Proof.
  refine (inj_countable'
    (fun e => (Term e, CommandValid e, Command e))
    (fun '(t, v, c) => mkLogEntry t v c) _).
  by intros [].
Defined.

#[export] Instance gobval_countable {Cmd} `{Countable Cmd} : Countable (gobval Cmd).
Proof.
  refine (inj_countable'
    (fun v => match v with GInt z => inl z | GLog l => inr l end)
    (fun x => match x with inl z => GInt z | inr l => GLog l end) _).
  by intros [].
Defined.
