(* ===== verification/Persister.v ===== *)
(** * Persister: stable storage, src/src/raft/persister.go

    A [Persister] outlives the Raft instance that writes to it: a restarted
    instance reads the state that the crashed one saved last.  The mutex makes
    every method atomic; [clone] copies, so a byte slice is a value. *)

From S2P Require Import Prelude LabGob.
Local Open Scope Z_scope.

Record Persister := mkPersister {
  raftstate : bytes;
  ps_snapshot : bytes;
}.

Definition MakePersister : Persister := mkPersister [] [].

Definition clone (orig : bytes) : bytes := orig.

Definition Copy (ps : Persister) : Persister :=
  mkPersister (raftstate ps) (ps_snapshot ps).

Definition ReadRaftState (ps : Persister) : bytes := clone (raftstate ps).

Definition RaftStateSize (ps : Persister) : Z := len (raftstate ps).

Definition Save (ps : Persister) (state snap : bytes) : Persister :=
  mkPersister (clone state) (clone snap).

Definition ReadSnapshot (ps : Persister) : bytes := clone (ps_snapshot ps).

Definition SnapshotSize (ps : Persister) : Z := len (ps_snapshot ps).
