(* ===== verification/RaftNode.v ===== *)
(** * RaftNode: one Raft peer, src/src/raft/raft*.go

    The record [Raft] is the struct of raft.go; every definition below is one
    critical section of the source (the code between [rf.mu.Lock()] and the
    unlock), so an interleaving of these definitions is an interleaving of the
    program.  A function that issues an RPC in the middle is split at the call:
    the part before builds the arguments, the part after handles the reply.

    [time.Now()] and [rand.Int63()] are inputs, in a [Clock].  Terms, indices
    and durations (in nanoseconds) are unbounded integers: an overflow of a Go
    [int] would need 2^63 elections or log entries. *)

From S2P Require Import Prelude LabGob RaftLog Persister.
Local Open Scope Z_scope.

Definition InvalidTerm : Z := 0.
Definition InvalidIndex : Z := 0.

Inductive Role := Follower | Candidate | Leader.

#[export] Instance Role_eq_dec : EqDecision Role.
Proof. solve_decision. Defined.

Definition Millisecond : Z := 1000000.
Definition electionTimeoutLowerBound : Z := 250 * Millisecond.
Definition electionTimeoutUpperBound : Z := 400 * Millisecond.
Definition replicationInterval : Z := 30 * Millisecond.

(** What a critical section reads from the environment. *)
Record Clock := mkClock { now : Z; rnd : Z }.

(** ** RPC messages, raft_rpc.go *)

Record RequestVoteArgs := mkRequestVoteArgs {
  rv_Term : Z;
  CandidateId : Z;
  LastLogIndex : Z;
  LastLogTerm : Z;
}.

Record RequestVoteReply := mkRequestVoteReply {
  rvr_Term : Z;
  VoteGranted : bool;
}.

Record AppendEntriesArgs {Cmd : Type} := mkAppendEntriesArgs {
  ae_Term : Z;
  ae_LeaderId : Z;
  PrevLogIndex : Z;
  PrevLogTerm : Z;
  Entries : list (LogEntry Cmd);
  LeaderCommit : Z;
}.
Arguments AppendEntriesArgs Cmd : clear implicits.

Record AppendEntriesReply := mkAppendEntriesReply {
  aer_Term : Z;
  Success : bool;
}.

Record InstallSnapshotArgs := mkInstallSnapshotArgs {
  is_Term : Z;
  is_LeaderId : Z;
  LastIncludedIndex : Z;
  LastIncludedTerm : Z;
  is_Snapshot : bytes;
}.

Record InstallSnapshotReply := mkInstallSnapshotReply { isr_Term : Z }.

Record ApplyMsg {Cmd : Type} := mkApplyMsg {
  am_CommandValid : bool;
  am_Command : option Cmd;
  CommandIndex : Z;
  SnapshotValid : bool;
  am_Snapshot : bytes;
  SnapshotTerm : Z;
  SnapshotIndex : Z;
}.
Arguments ApplyMsg Cmd : clear implicits.

(** The program counter of the goroutine [applicationTicker]. *)
Inductive Applier {Cmd : Type} :=
| ApLock                              (* before [rf.mu.Lock(); rf.applyCond.Wait()] *)
| ApWait                              (* parked in [Wait] *)
| ApWoken                             (* signalled, about to take the lock *)
| ApSend (entries : list (LogEntry Cmd)) (* lock released, entries to deliver *)
| ApSendSnap                          (* lock released, snapshot to deliver *)
| ApDone (n : Z)                      (* [n] entries delivered, about to lock *)
| ApDoneSnap.                         (* snapshot delivered, about to lock *)
Arguments Applier Cmd : clear implicits.

(** ** The struct [Raft], raft.go *)

Record Raft {Cmd : Type} := mkRaft {
  peers : nat;                (* [len(rf.peers)] *)
  me : Z;
  persister : Persister;
  dead : Z;
  role : Role;
  currentTerm : Z;
  votedFor : Z;
  electionStart : Z;
  electionTimeout : Z;
  log : RaftLog Cmd;
  nextIndex : list Z;
  matchIndex : list Z;
  commitIndex : Z;
  lastApplied : Z;
  snapPending : bool;
  applier : Applier Cmd;      (* the goroutine waiting on [rf.applyCond] *)
}.
Arguments Raft Cmd : clear implicits.

Section setters.
Context {Cmd : Type}.
Implicit Types rf : Raft Cmd.

Definition set_persister rf v := mkRaft Cmd (peers rf) (me rf) v (dead rf) (role rf)
  (currentTerm rf) (votedFor rf) (electionStart rf) (electionTimeout rf) (log rf)
  (nextIndex rf) (matchIndex rf) (commitIndex rf) (lastApplied rf) (snapPending rf) (applier rf).
Definition set_dead rf v := mkRaft Cmd (peers rf) (me rf) (persister rf) v (role rf)
  (currentTerm rf) (votedFor rf) (electionStart rf) (electionTimeout rf) (log rf)
  (nextIndex rf) (matchIndex rf) (commitIndex rf) (lastApplied rf) (snapPending rf) (applier rf).
Definition set_role rf v := mkRaft Cmd (peers rf) (me rf) (persister rf) (dead rf) v
  (currentTerm rf) (votedFor rf) (electionStart rf) (electionTimeout rf) (log rf)
  (nextIndex rf) (matchIndex rf) (commitIndex rf) (lastApplied rf) (snapPending rf) (applier rf).
Definition set_currentTerm rf v := mkRaft Cmd (peers rf) (me rf) (persister rf) (dead rf) (role rf)
  v (votedFor rf) (electionStart rf) (electionTimeout rf) (log rf)
  (nextIndex rf) (matchIndex rf) (commitIndex rf) (lastApplied rf) (snapPending rf) (applier rf).
Definition set_votedFor rf v := mkRaft Cmd (peers rf) (me rf) (persister rf) (dead rf) (role rf)
  (currentTerm rf) v (electionStart rf) (electionTimeout rf) (log rf)
  (nextIndex rf) (matchIndex rf) (commitIndex rf) (lastApplied rf) (snapPending rf) (applier rf).
Definition set_timer rf start timeout := mkRaft Cmd (peers rf) (me rf) (persister rf) (dead rf)
  (role rf) (currentTerm rf) (votedFor rf) start timeout (log rf)
  (nextIndex rf) (matchIndex rf) (commitIndex rf) (lastApplied rf) (snapPending rf) (applier rf).
Definition set_log rf v := mkRaft Cmd (peers rf) (me rf) (persister rf) (dead rf) (role rf)
  (currentTerm rf) (votedFor rf) (electionStart rf) (electionTimeout rf) v
  (nextIndex rf) (matchIndex rf) (commitIndex rf) (lastApplied rf) (snapPending rf) (applier rf).
Definition set_nextIndex rf v := mkRaft Cmd (peers rf) (me rf) (persister rf) (dead rf) (role rf)
  (currentTerm rf) (votedFor rf) (electionStart rf) (electionTimeout rf) (log rf)
  v (matchIndex rf) (commitIndex rf) (lastApplied rf) (snapPending rf) (applier rf).
Definition set_matchIndex rf v := mkRaft Cmd (peers rf) (me rf) (persister rf) (dead rf) (role rf)
  (currentTerm rf) (votedFor rf) (electionStart rf) (electionTimeout rf) (log rf)
  (nextIndex rf) v (commitIndex rf) (lastApplied rf) (snapPending rf) (applier rf).
Definition set_commitIndex rf v := mkRaft Cmd (peers rf) (me rf) (persister rf) (dead rf) (role rf)
  (currentTerm rf) (votedFor rf) (electionStart rf) (electionTimeout rf) (log rf)
  (nextIndex rf) (matchIndex rf) v (lastApplied rf) (snapPending rf) (applier rf).
Definition set_lastApplied rf v := mkRaft Cmd (peers rf) (me rf) (persister rf) (dead rf) (role rf)
  (currentTerm rf) (votedFor rf) (electionStart rf) (electionTimeout rf) (log rf)
  (nextIndex rf) (matchIndex rf) (commitIndex rf) v (snapPending rf) (applier rf).
Definition set_snapPending rf v := mkRaft Cmd (peers rf) (me rf) (persister rf) (dead rf) (role rf)
  (currentTerm rf) (votedFor rf) (electionStart rf) (electionTimeout rf) (log rf)
  (nextIndex rf) (matchIndex rf) (commitIndex rf) (lastApplied rf) v (applier rf).
Definition set_applier rf v := mkRaft Cmd (peers rf) (me rf) (persister rf) (dead rf) (role rf)
  (currentTerm rf) (votedFor rf) (electionStart rf) (electionTimeout rf) (log rf)
  (nextIndex rf) (matchIndex rf) (commitIndex rf) (lastApplied rf) (snapPending rf) v.
End setters.

Section node.
Context {Cmd : Type} `{!GobStream (gobval Cmd)}.
Implicit Types rf : Raft Cmd.

(** ** Persistence, raft_persistence.go *)

Definition persistLocked rf : Raft Cmd :=
  let e := NewEncoder in
  let e := Encode e (GInt (currentTerm rf)) in
  let e := Encode e (GInt (votedFor rf)) in
  let e := persistLog (log rf) e in
  let state := Bytes e in
  set_persister rf (Save (persister rf) state (snapshot (log rf))).

Definition readPersist rf (data : bytes) : Raft Cmd :=
  if bool_decide (len data < 1) then rf else
  let d := NewDecoder data in
  match Decode as_int d with
  | (None, _) => rf
  | (Some term, d) =>
    let rf := set_currentTerm rf term in
    match Decode as_int d with
    | (None, _) => rf
    | (Some vote, d) =>
      let rf := set_votedFor rf vote in
      match readPersistLog (log rf) d with
      | (false, rl, _) => set_log rf rl
      | (true, rl, _) =>
        let rf := set_log rf (mkRaftLog (snapLastIdx rl) (snapLastTerm rl)
                                (ReadSnapshot (persister rf)) (tailLog rl)) in
        if bool_decide (snapLastIdx (log rf) > commitIndex rf) then
          set_lastApplied (set_commitIndex rf (snapLastIdx (log rf))) (snapLastIdx (log rf))
        else rf
      end
    end
  end.

(** ** Timers, raft_election.go *)

Definition resetElectionTimerLocked (c : Clock) rf : Raft Cmd :=
  let randRange := electionTimeoutUpperBound - electionTimeoutLowerBound in
  set_timer rf (now c) (electionTimeoutLowerBound + Z.rem (rnd c) randRange).

Definition isElectionTimeout (t : Z) rf : bool :=
  bool_decide (t - electionStart rf > electionTimeout rf).

(** [rf.applyCond.Signal()]: wakes the applier if it is parked in [Wait]; a
    signal sent while it is elsewhere is lost. *)
Definition Signal rf : Raft Cmd :=
  match applier rf with ApWait => set_applier rf ApWoken | _ => rf end.

(** ** Role transitions, raft.go *)

Definition becomeFollowerLocked (c : Clock) rf (term : Z) : Raft Cmd :=
  if bool_decide (currentTerm rf > term) then rf else
  let shouldPersist := bool_decide (currentTerm rf <> term) in
  let rf := if bool_decide (term > currentTerm rf) then set_votedFor rf (-1) else rf in
  let rf := set_role rf Follower in
  let rf := set_currentTerm rf term in
  let rf := if shouldPersist then persistLocked rf else rf in
  resetElectionTimerLocked c rf.

Definition becomeCandidateLocked (c : Clock) rf : Raft Cmd :=
  if bool_decide (role rf = Leader) then rf else
  let rf := set_role rf Candidate in
  let rf := set_currentTerm rf (currentTerm rf + 1) in
  let rf := set_votedFor rf (me rf) in
  let rf := persistLocked rf in
  resetElectionTimerLocked c rf.

Definition becomeLeaderLocked (c : Clock) rf : outcome (Raft Cmd) :=
  if bool_decide (role rf <> Candidate) then Ret rf else
  let rf := set_role rf Leader in
  rf ← for_range (peers rf) (fun peer rf =>
         ni ← slice_set (nextIndex rf) peer (log_size (log rf));
         let rf := set_nextIndex rf ni in
         mi ← slice_set (matchIndex rf) peer 0;
         Ret (set_matchIndex rf mi)) rf;
  Ret (resetElectionTimerLocked c rf).

Definition contextLostLocked rf (r : Role) (term : Z) : bool :=
  bool_decide (role rf <> r) || bool_decide (currentTerm rf <> term).

Definition GetState rf : Z * bool := (currentTerm rf, bool_decide (role rf = Leader)).

Definition GetRaftStateSize rf : Z := RaftStateSize (persister rf).

Definition Start rf (command : option Cmd) : (Z * Z * bool) * Raft Cmd :=
  if bool_decide (role rf <> Leader) then ((0, 0, false), rf) else
  let rf := set_log rf (log_append (log rf) (mkLogEntry (currentTerm rf) true command)) in
  let rf := persistLocked rf in
  ((log_size (log rf) - 1, currentTerm rf, true), rf).

Definition Kill rf : Raft Cmd := set_dead rf 1.

Definition killed rf : bool := bool_decide (dead rf = 1).

(** [Make]: the two goroutines it starts are the applier and the election
    ticker. *)
Definition Make (npeers : nat) (id : Z) (ps : Persister) : Raft Cmd :=
  let rf := mkRaft Cmd npeers id ps 0 Follower 0 (-1) 0 0
              (NewLog InvalidIndex InvalidTerm [] [])
              (replicate npeers 0) (replicate npeers 0) 0 0 false ApLock in
  readPersist rf (ReadRaftState ps).

(** ** Elections, raft_election.go *)

Definition isMoreUptoDateLocked rf (candidateIndex candidateTerm : Z) : outcome bool :=
  '(lastIndex, lastTerm) ← log_last (log rf);
  if bool_decide (lastTerm <> candidateTerm)
  then Ret (bool_decide (lastTerm > candidateTerm))
  else Ret (bool_decide (lastIndex > candidateIndex)).

(** One iteration of [electionTicker]: the result tells for which term a
    goroutine [startElection] is started, if any. *)
Definition electionTick (c1 c2 : Clock) rf : Raft Cmd * option Z :=
  if bool_decide (role rf <> Leader) && isElectionTimeout (now c1) rf then
    let rf := becomeCandidateLocked c1 rf in
    let rf := resetElectionTimerLocked c2 rf in
    (rf, Some (currentTerm rf))
  else (rf, None).

(** [startElection(term)] up to the [go askVoteFromPeer(peer, args)]
    statements: the vote counter and the calls, or [None] when the context is
    lost. *)
Definition startElection rf (term : Z) : outcome (option (Z * list (Z * RequestVoteArgs))) :=
  if contextLostLocked rf Candidate term then Ret None else
  '(lastIdx, lastTerm) ← log_last (log rf);
  r ← for_range (peers rf) (fun peer '(votes, calls) =>
        if bool_decide (peer = me rf) then Ret (votes + 1, calls)
        else
          let args := mkRequestVoteArgs (currentTerm rf) (me rf) lastIdx lastTerm in
          Ret (votes, calls ++ [(peer, args)])) (0, []);
  Ret (Some r).

(** [askVoteFromPeer] after the call returned [ok]: the new value of the
    shared counter [votes], and whether [replicationTicker(term)] is
    started. *)
Definition handleVoteReply (c : Clock) rf (term votes : Z) (reply : RequestVoteReply)
    : outcome (Raft Cmd * Z * bool) :=
  if bool_decide (rvr_Term reply > currentTerm rf) then
    Ret (becomeFollowerLocked c rf (rvr_Term reply), votes, false)
  else if contextLostLocked rf Candidate term then Ret (rf, votes, false)
  else if VoteGranted reply then
    let votes := votes + 1 in
    if bool_decide (votes > Z.of_nat (peers rf) / 2) then
      rf ← becomeLeaderLocked c rf; Ret (rf, votes, true)
    else Ret (rf, votes, false)
  else Ret (rf, votes, false).

Definition RequestVote (c : Clock) rf (args : RequestVoteArgs)
    : outcome (RequestVoteReply * Raft Cmd) :=
  let reply := mkRequestVoteReply (currentTerm rf) false in
  if bool_decide (rv_Term args < currentTerm rf) then Ret (reply, rf) else
  let rf := if bool_decide (rv_Term args > currentTerm rf)
            then becomeFollowerLocked c rf (rv_Term args) else rf in
  if bool_decide (votedFor rf <> -1) && bool_decide (votedFor rf <> CandidateId args)
  then Ret (reply, rf) else
  newer ← isMoreUptoDateLocked rf (LastLogIndex args) (LastLogTerm args);
  if newer : bool then Ret (reply, rf) else
  let reply := mkRequestVoteReply (rvr_Term reply) true in
  let rf := set_votedFor rf (CandidateId args) in
  let rf := persistLocked rf in
  Ret (reply, resetElectionTimerLocked c rf).

(** ** Replication, raft_replication.go *)

Definition AppendEntries (c : Clock) rf (args : AppendEntriesArgs Cmd)
    : outcome (AppendEntriesReply * Raft Cmd) :=
  let reply := mkAppendEntriesReply (currentTerm rf) false in
  if bool_decide (ae_Term args < currentTerm rf) then Ret (reply, rf) else
  let rf := if bool_decide (ae_Term args >= currentTerm rf)
            then becomeFollowerLocked c rf (ae_Term args) else rf in
  if bool_decide (PrevLogIndex args >= log_size (log rf)) then Ret (reply, rf) else
  if bool_decide (PrevLogIndex args < snapLastIdx (log rf)) then Ret (reply, rf) else
  e ← at_ (log rf) (PrevLogIndex args);
  if bool_decide (Term e <> PrevLogTerm args) then Ret (reply, rf) else
  rl ← appendFrom (log rf) (PrevLogIndex args) (Entries args);
  let rf := set_log rf rl in
  let rf := persistLocked rf in
  let reply := mkAppendEntriesReply (aer_Term reply) true in
  let rf := if bool_decide (LeaderCommit args > commitIndex rf)
            then Signal (set_commitIndex rf (LeaderCommit args)) else rf in
  Ret (reply, resetElectionTimerLocked c rf).

(** [make([]int, n)] followed by [copy(dst, src)] *)
Definition copy_ints (n : nat) (src : list Z) : list Z :=
  take n src ++ replicate (n - length src) 0.

Definition getMajorityIndexLocked rf : outcome Z :=
  let tempIndexes := copy_ints (peers rf) (matchIndex rf) in
  let tempIndexes := sort_Ints tempIndexes in
  let majorityIdx := Z.quot (Z.of_nat (peers rf) - 1) 2 in
  slice_get tempIndexes majorityIdx.

(** [for idx >= snapLastIdx && at(idx).Term == term { idx-- }]; [fuel] bounds
    the number of iterations, and [Z.to_nat (idx - snapLastIdx + 2)] is always
    enough. *)
Fixpoint backoff (fuel : nat) (rl : RaftLog Cmd) (term idx : Z) : outcome Z :=
  match fuel with
  | O => Panic "out of fuel"
  | S fuel =>
      if bool_decide (idx >= snapLastIdx rl) then
        e ← at_ rl idx;
        if bool_decide (Term e = term) then backoff fuel rl term (idx - 1) else Ret idx
      else Ret idx
  end.

(** [replicateToPeer] after the call returned [ok] *)
Definition handleAppendReply (c : Clock) rf (peer term : Z) (args : AppendEntriesArgs Cmd)
    (reply : AppendEntriesReply) : outcome (Raft Cmd) :=
  if bool_decide (aer_Term reply > currentTerm rf) then
    Ret (becomeFollowerLocked c rf (aer_Term reply))
  else if contextLostLocked rf Leader term then Ret rf
  else if negb (Success reply) then
    n ← slice_get (nextIndex rf) peer;
    let i := n - 1 in
    if bool_decide (i < snapLastIdx (log rf)) then
      ni ← slice_set (nextIndex rf) peer (snapLastIdx (log rf) + 1);
      Ret (set_nextIndex rf ni)
    else
      e ← at_ (log rf) i;
      let t := Term e in
      i ← backoff (Z.to_nat (i - snapLastIdx (log rf) + 2)) (log rf) t i;
      ni ← slice_set (nextIndex rf) peer (i + 1);
      let rf := set_nextIndex rf ni in
      n ← slice_get (nextIndex rf) peer;
      let nextPrevIdx := n - 1 in
      _ ← (if bool_decide (nextPrevIdx >= snapLastIdx (log rf))
           then e ← at_ (log rf) nextPrevIdx; Ret (Term e) else Ret InvalidTerm);
      Ret rf
  else
    mi ← slice_set (matchIndex rf) peer (PrevLogIndex args + len (Entries args));
    let rf := set_matchIndex rf mi in
    m ← slice_get (matchIndex rf) peer;
    ni ← slice_set (nextIndex rf) peer (m + 1);
    let rf := set_nextIndex rf ni in
    majorityMatched ← getMajorityIndexLocked rf;
    if bool_decide (majorityMatched > commitIndex rf) then
      e ← at_ (log rf) majorityMatched;
      if bool_decide (Term e = currentTerm rf)
      then Ret (Signal (set_commitIndex rf majorityMatched)) else Ret rf
    else Ret rf.

(** The calls [startReplication] issues. *)
Inductive ReplCall :=
| CallAppend (peer : Z) (args : AppendEntriesArgs Cmd)
| CallInstall (peer : Z) (args : InstallSnapshotArgs).

(** [startReplication(term)]: [None] when it returns [false].  The entries of a
    request are those that [log.tail] returns; the slice shares the array of
    the log until [Call] has encoded it (the event [EEncode] of RaftNet.v, and
    RaftAlias.v). *)
Definition startReplication rf (term : Z) : outcome (option (Raft Cmd * list ReplCall)) :=
  if contextLostLocked rf Leader term then Ret None else
  r ← for_range (peers rf) (fun peer '(rf, calls) =>
    if bool_decide (peer = me rf) then
      mi ← slice_set (matchIndex rf) peer (log_size (log rf) - 1);
      let rf := set_matchIndex rf mi in
      ni ← slice_set (nextIndex rf) peer (log_size (log rf));
      Ret (set_nextIndex rf ni, calls)
    else
      n ← slice_get (nextIndex rf) peer;
      let prevIdx := n - 1 in
      if bool_decide (prevIdx < snapLastIdx (log rf)) then
        let args := mkInstallSnapshotArgs (currentTerm rf) (me rf) (snapLastIdx (log rf))
                      (snapLastTerm (log rf)) (snapshot (log rf)) in
        Ret (rf, calls ++ [CallInstall peer args])
      else
        e ← at_ (log rf) prevIdx;
        entries ← log_tail (log rf) (prevIdx + 1);
        let args := mkAppendEntriesArgs Cmd (currentTerm rf) (me rf) prevIdx (Term e)
                      entries (commitIndex rf) in
        Ret (rf, calls ++ [CallAppend peer args])) (rf, []);
  Ret (Some r).

(** ** Compaction, raft_compaction.go *)

Definition Snapshot rf (index : Z) (snap : bytes) : outcome (Raft Cmd) :=
  if bool_decide (index > commitIndex rf) then Ret rf else
  if bool_decide (index <= snapLastIdx (log rf)) then Ret rf else
  rl ← doSnapshot (log rf) index snap;
  Ret (persistLocked (set_log rf rl)).

Definition InstallSnapshot (c : Clock) rf (args : InstallSnapshotArgs)
    : InstallSnapshotReply * Raft Cmd :=
  let reply := mkInstallSnapshotReply (currentTerm rf) in
  if bool_decide (is_Term args < currentTerm rf) then (reply, rf) else
  let rf := if bool_decide (is_Term args >= currentTerm rf)
            then becomeFollowerLocked c rf (is_Term args) else rf in
  if bool_decide (snapLastIdx (log rf) >= LastIncludedIndex args) then (reply, rf) else
  let rf := set_log rf (log_installSnapshot (log rf) (LastIncludedIndex args)
                          (LastIncludedTerm args) (is_Snapshot args)) in
  let rf := persistLocked rf in
  let rf := set_snapPending rf true in
  (reply, Signal rf).

(** [installOnPeer] after the call returned [ok] *)
Definition handleInstallReply (c : Clock) rf (peer term : Z) (args : InstallSnapshotArgs)
    (reply : InstallSnapshotReply) : outcome (Raft Cmd) :=
  if bool_decide (isr_Term reply > currentTerm rf) then
    Ret (becomeFollowerLocked c rf (isr_Term reply))
  else if contextLostLocked rf Leader term then Ret rf
  else
    m ← slice_get (matchIndex rf) peer;
    if bool_decide (LastIncludedIndex args > m) then
      mi ← slice_set (matchIndex rf) peer (LastIncludedIndex args);
      let rf := set_matchIndex rf mi in
      m ← slice_get (matchIndex rf) peer;
      ni ← slice_set (nextIndex rf) peer (m + 1);
      Ret (set_nextIndex rf ni)
    else Ret rf.

(** ** Application, raft_application.go *)

(** [for i := start; i <= end; i++ { entries = append(entries, rf.log.at(i)) }] *)
Definition collect (rl : RaftLog Cmd) (start end_ : Z) : outcome (list (LogEntry Cmd)) :=
  for_from (Z.to_nat (end_ - start + 1)) start
    (fun i entries => e ← at_ rl i; Ret (entries ++ [e])) [].

(** The goroutine takes the lock and parks in [Wait], which releases it. *)
Definition applyWait rf : Raft Cmd :=
  match applier rf with ApLock => set_applier rf ApWait | _ => rf end.

(** The section from the return of [Wait] to the unlock. *)
Definition applyCollect rf : outcome (Raft Cmd) :=
  match applier rf with
  | ApWoken =>
    if snapPending rf then Ret (set_applier rf ApSendSnap) else
    let rf := if bool_decide (lastApplied rf < snapLastIdx (log rf))
              then set_lastApplied rf (snapLastIdx (log rf)) else rf in
    let start := lastApplied rf + 1 in
    let end_ := commitIndex rf in
    let end_ := if bool_decide (end_ >= log_size (log rf)) then log_size (log rf) - 1 else end_ in
    entries ← collect (log rf) start end_;
    Ret (set_applier rf (ApSend entries))
  | _ => Ret rf
  end.

(** The sends on [applyCh], outside the lock.  The source reads the three fields
    of the snapshot here one after the other, without the lock; they are read at
    one moment in the model, so an [InstallSnapshot] between two of the reads is
    not covered. *)
Definition applyDeliver rf : list (ApplyMsg Cmd) * Raft Cmd :=
  match applier rf with
  | ApSend entries =>
      (imap (fun i e => mkApplyMsg Cmd (CommandValid e) (Command e)
               (lastApplied rf + 1 + Z.of_nat i) false [] 0 0) entries,
       set_applier rf (ApDone (len entries)))
  | ApSendSnap =>
      ([mkApplyMsg Cmd false None 0 true (snapshot (log rf))
          (snapLastTerm (log rf)) (snapLastIdx (log rf))],
       set_applier rf ApDoneSnap)
  | _ => ([], rf)
  end.

(** The last section, after which the loop starts over. *)
Definition applyFinish rf : Raft Cmd :=
  match applier rf with
  | ApDone n => set_applier (set_lastApplied rf (lastApplied rf + n)) ApLock
  | ApDoneSnap =>
      let rf := set_lastApplied rf (snapLastIdx (log rf)) in
      let rf := if bool_decide (commitIndex rf < lastApplied rf)
                then set_commitIndex rf (lastApplied rf) else rf in
      set_applier (set_snapPending rf false) ApLock
  | _ => rf
  end.
End node.
Arguments ReplCall Cmd : clear implicits.
