(* ===== verification/RaftNet.v ===== *)
(** * RaftNet: a cluster of Raft peers and the goroutines between them

    The state of a cluster is the list of peers, the goroutines that are
    running, the RPCs in flight and the messages delivered to the services.
    One [Event] is one critical section of one goroutine, executed by [step];
    a schedule is a list of events, so delays, reordering, lost requests, lost
    replies and crashes are choices of the schedule.

    [log.tail] returns a slice of the array that holds the log, and [Call] encodes
    the arguments of [AppendEntries] in a goroutine of its own, without the lock:
    what is sent is what the array holds then.  [EEncode] is the event that a
    request is encoded with other entries than those at its creation (the
    length of a slice does not change); without it the request was encoded at
    once.  Here the entries are arbitrary; RaftAlias.v follows the arrays and
    says which they are.

    labrpc delivers a request at most once and hands at most one reply to the
    goroutine that waits in [Call]; a call can fail ([ok = false]) whether or
    not its request is executed later.  A crash discards the volatile state
    and the goroutines of a peer; the next instance is made from the persister
    (src/src/raft/config.go, [crash1] and [start1]). *)

From S2P Require Import Prelude LabGob RaftLog Persister RaftNode.
Local Open Scope Z_scope.

(** Goroutines that are not blocked in an RPC. *)
Inductive Goroutine :=
| GStartElection (i : nat) (term : Z)      (* [go rf.startElection(term)] *)
| GReplicationTicker (i : nat) (term : Z)  (* [go rf.replicationTicker(term)] *)
| GExit.

(** The body of an RPC with its reply, once the handler has run. *)
Inductive CallBody {Cmd : Type} :=
| VoteCall (election : nat) (args : RequestVoteArgs) (reply : option RequestVoteReply)
| AppendCall (args : AppendEntriesArgs Cmd) (reply : option AppendEntriesReply)
| InstallCall (args : InstallSnapshotArgs) (reply : option InstallSnapshotReply).
Arguments CallBody Cmd : clear implicits.

(** A goroutine in [peers[to].Call(...)]: [askVoteFromPeer], [replicateToPeer]
    or [installOnPeer], started with [term] in its closure. *)
Record RPC {Cmd : Type} := mkRPC {
  from : nat;
  to : nat;
  cterm : Z;
  body : CallBody Cmd;
  pending : bool;  (* the request can still be executed *)
  live : bool;     (* the caller is waiting *)
}.
Arguments RPC Cmd : clear implicits.

Record Cluster {Cmd : Type} := mkCluster {
  nodes : list (Raft Cmd);
  goroutines : list Goroutine;
  calls : list (RPC Cmd);
  elections : list Z;  (* the [votes] variable of each [startElection] *)
  delivered : list (nat * ApplyMsg Cmd);
}.
Arguments Cluster Cmd : clear implicits.

Inductive Event {Cmd : Type} :=
| EElectionTick (i : nat) (c1 c2 : Clock)
| EStartElection (k : nat)
| EReplicate (k : nat)
| EEncode (k : nat) (entries : list (LogEntry Cmd))
| EDeliver (k : nat) (c : Clock)
| EReply (k : nat) (c : Clock)
| EFail (k : nat)
| EStart (i : nat) (command : option Cmd)
| ESnapshot (i : nat) (index : Z) (snap : bytes)
| EApplyWait (i : nat)
| EApplyCollect (i : nat)
| EApplyDeliver (i : nat)
| EApplyFinish (i : nat)
| ECrash (i : nat).
Arguments Event Cmd : clear implicits.

Section net.
Context {Cmd : Type} `{!GobStream (gobval Cmd)}.
Implicit Types (s : Cluster Cmd) (e : Event Cmd).

Definition set_nodes s v := mkCluster Cmd v (goroutines s) (calls s) (elections s) (delivered s).
Definition set_goroutines s v := mkCluster Cmd (nodes s) v (calls s) (elections s) (delivered s).
Definition set_calls s v := mkCluster Cmd (nodes s) (goroutines s) v (elections s) (delivered s).
Definition set_elections s v := mkCluster Cmd (nodes s) (goroutines s) (calls s) v (delivered s).
Definition set_delivered s v := mkCluster Cmd (nodes s) (goroutines s) (calls s) (elections s) v.

Definition put_node s (i : nat) (rf : Raft Cmd) := set_nodes s (<[i := rf]> (nodes s)).

Definition spawn s (g : Goroutine) := set_goroutines s (goroutines s ++ [g]).

Definition exit s (k : nat) := set_goroutines s (<[k := GExit]> (goroutines s)).

(** [with_node s i f]: nothing happens when there is no peer [i]. *)
Definition with_node s (i : nat) (f : Raft Cmd -> outcome (Cluster Cmd)) : outcome (Cluster Cmd) :=
  match nodes s !! i with Some rf => f rf | None => Ret s end.

Definition set_body (r : RPC Cmd) b p :=
  mkRPC Cmd (from r) (to r) (cterm r) b p (live r).

Definition retire (r : RPC Cmd) :=
  mkRPC Cmd (from r) (to r) (cterm r) (body r) (pending r) false.

Definition set_Entries (args : AppendEntriesArgs Cmd) entries : AppendEntriesArgs Cmd :=
  mkAppendEntriesArgs Cmd (ae_Term args) (ae_LeaderId args) (PrevLogIndex args) (PrevLogTerm args) entries (LeaderCommit args).

(** [Call] encodes the arguments: the request has not been executed and its
    caller has not been answered. *)
Definition encode_as (r : RPC Cmd) (entries : list (LogEntry Cmd)) : RPC Cmd :=
  match body r with
  | AppendCall args None =>
      if pending r && live r && bool_decide (length entries = length (Entries args))
      then set_body r (AppendCall (set_Entries args entries) None) true else r
  | _ => r
  end.

(** [go askVoteFromPeer(peer, args)] *)
Definition vote_rpc (i : nat) (term : Z) (el : nat) (pc : Z * RequestVoteArgs) : RPC Cmd :=
  mkRPC Cmd i (Z.to_nat pc.1) term (VoteCall el pc.2 None) true true.

(** [go replicateToPeer(peer, args)] and [go rf.installOnPeer(peer, term, args)] *)
Definition repl_rpc (i : nat) (term : Z) (rc : ReplCall Cmd) : RPC Cmd :=
  match rc with
  | CallAppend peer args => mkRPC Cmd i (Z.to_nat peer) term (AppendCall args None) true true
  | CallInstall peer args => mkRPC Cmd i (Z.to_nat peer) term (InstallCall args None) true true
  end.

(** The handler of the destination runs on the request of call [k]. *)
Definition deliver s (k : nat) (r : RPC Cmd) (c : Clock) : outcome (Cluster Cmd) :=
  with_node s (to r) (fun rf =>
    match body r with
    | VoteCall el args _ =>
        '(reply, rf) ← RequestVote c rf args;
        Ret (set_calls (put_node s (to r) rf)
               (<[k := set_body r (VoteCall el args (Some reply)) false]> (calls s)))
    | AppendCall args _ =>
        '(reply, rf) ← AppendEntries c rf args;
        Ret (set_calls (put_node s (to r) rf)
               (<[k := set_body r (AppendCall args (Some reply)) false]> (calls s)))
    | InstallCall args _ =>
        let '(reply, rf) := InstallSnapshot c rf args in
        Ret (set_calls (put_node s (to r) rf)
               (<[k := set_body r (InstallCall args (Some reply)) false]> (calls s)))
    end).

(** The caller of call [k] receives the reply and handles it. *)
Definition receive s (k : nat) (r : RPC Cmd) (c : Clock) : outcome (Cluster Cmd) :=
  let s := set_calls s (<[k := retire r]> (calls s)) in
  with_node s (from r) (fun rf =>
    match body r with
    | VoteCall el args (Some reply) =>
        match elections s !! el with
        | None => Ret s
        | Some votes =>
            '(rf, votes, won) ← handleVoteReply c rf (cterm r) votes reply;
            let s := put_node s (from r) rf in
            let s := set_elections s (<[el := votes]> (elections s)) in
            Ret (if won : bool then spawn s (GReplicationTicker (from r) (cterm r)) else s)
        end
    | AppendCall args (Some reply) =>
        rf ← handleAppendReply c rf (Z.of_nat (to r)) (cterm r) args reply;
        Ret (put_node s (from r) rf)
    | InstallCall args (Some reply) =>
        rf ← handleInstallReply c rf (Z.of_nat (to r)) (cterm r) args reply;
        Ret (put_node s (from r) rf)
    | _ => Ret s
    end).

(** A reply is there for the caller. *)
Definition replied (b : CallBody Cmd) : bool :=
  match b with
  | VoteCall _ _ (Some _) | AppendCall _ (Some _) | InstallCall _ (Some _) => true
  | _ => false
  end.

Definition owner (g : Goroutine) : option nat :=
  match g with
  | GStartElection i _ | GReplicationTicker i _ => Some i
  | GExit => None
  end.

(** The goroutines of peer [i] are gone. *)
Definition kill_goroutine (i : nat) (g : Goroutine) : Goroutine :=
  if bool_decide (owner g = Some i) then GExit else g.

Definition kill_rpc (i : nat) (r : RPC Cmd) : RPC Cmd :=
  if bool_decide (from r = i) then retire r else r.

(** Encoding changes the entries of an [AppendEntries] request and nothing else. *)
Lemma encode_as_spec r entries :
  encode_as r entries = r \/
  exists args, body r = AppendCall args None /\ length entries = length (Entries args) /\
    encode_as r entries = set_body r (AppendCall (set_Entries args entries) None) (pending r).
Proof.
  unfold encode_as. destruct (body r) as [|args [|]|] eqn:Hb; auto. destruct (pending r) eqn:Hp; auto. destruct (live r); auto.
  case_bool_decide; auto. right. by exists args.
Qed.

Definition step e s : outcome (Cluster Cmd) :=
  match e with
  | EElectionTick i c1 c2 => with_node s i (fun rf =>
      let '(rf, started) := electionTick c1 c2 rf in
      let s := put_node s i rf in
      Ret (match started with Some t => spawn s (GStartElection i t) | None => s end))
  | EStartElection k =>
      match goroutines s !! k with
      | Some (GStartElection i term) => with_node s i (fun rf =>
          r ← startElection rf term;
          let s := exit s k in
          Ret (match r with
               | None => s
               | Some (votes, cs) =>
                   let el := length (elections s) in
                   let s := set_elections s (elections s ++ [votes]) in
                   set_calls s (calls s ++ (vote_rpc i term el <$> cs))
               end))
      | _ => Ret s
      end
  | EReplicate k =>
      match goroutines s !! k with
      | Some (GReplicationTicker i term) => with_node s i (fun rf =>
          r ← startReplication rf term;
          Ret (match r with
               | None => exit s k
               | Some (rf, cs) =>
                   let s := put_node s i rf in
                   set_calls s (calls s ++ (repl_rpc i term <$> cs))
               end))
      | _ => Ret s
      end
  | EEncode k entries =>
      match calls s !! k with
      | Some r => Ret (set_calls s (<[k := encode_as r entries]> (calls s)))
      | None => Ret s
      end
  | EDeliver k c =>
      match calls s !! k with
      | Some r => if pending r then deliver s k r c else Ret s
      | None => Ret s
      end
  | EReply k c =>
      match calls s !! k with
      | Some r => if live r && replied (body r) then receive s k r c else Ret s
      | None => Ret s
      end
  | EFail k =>
      match calls s !! k with
      | Some r => Ret (set_calls s (<[k := retire r]> (calls s)))
      | None => Ret s
      end
  | EStart i command => with_node s i (fun rf =>
      let '(_, rf) := Start rf command in Ret (put_node s i rf))
  | ESnapshot i index snap => with_node s i (fun rf =>
      rf ← Snapshot rf index snap; Ret (put_node s i rf))
  | EApplyWait i => with_node s i (fun rf => Ret (put_node s i (applyWait rf)))
  | EApplyCollect i => with_node s i (fun rf => rf ← applyCollect rf; Ret (put_node s i rf))
  | EApplyDeliver i => with_node s i (fun rf =>
      let '(ms, rf) := applyDeliver rf in
      let s := put_node s i rf in
      Ret (set_delivered s (delivered s ++ (pair i <$> ms))))
  | EApplyFinish i => with_node s i (fun rf => Ret (put_node s i (applyFinish rf)))
  | ECrash i => with_node s i (fun rf =>
      let s := put_node s i (Make (peers rf) (me rf) (Copy (persister rf))) in
      let s := set_goroutines s (kill_goroutine i <$> goroutines s) in
      Ret (set_calls s (kill_rpc i <$> calls s)))
  end.

(** A schedule. *)
Fixpoint run (es : list (Event Cmd)) s : outcome (Cluster Cmd) :=
  match es with
  | [] => Ret s
  | e :: es => s ← step e s; run es s
  end.

Definition init (n : nat) : Cluster Cmd :=
  mkCluster Cmd ((fun i => Make n (Z.of_nat i) MakePersister) <$> seq 0 n) [] [] [] [].

Definition step_rel s s' : Prop := exists e, step e s = Ret s'.

Definition reachable (n : nat) s : Prop := rtc step_rel (init n) s.

Lemma run_app es1 es2 s : run (es1 ++ es2) s = s' ← run es1 s; run es2 s'.
Proof.
  revert s. induction es1 as [|e es1 IH]; intros s; [done|]. simpl.
  destruct (step e s); simpl; [apply IH|done].
Qed.

Lemma run_rtc es s s' : run es s = Ret s' -> rtc step_rel s s'.
Proof.
  revert s. induction es as [|e es IH]; intros s H; simpl in H; inv_ret; [apply rtc_refl|].
  eapply rtc_l; [exists e; exact Hm|by apply IH].
Qed.

Lemma run_reachable n es s : run es (init n) = Ret s -> reachable n s.
Proof. apply run_rtc. Qed.
End net.
