(* ===== verification/RaftNodeFacts.v ===== *)
(** * RaftNodeFacts: what each critical section of a peer does to its state

    [durable rf] says that stable storage is in step with the volatile state:
    an instance made from the persister of [rf] has its term, vote and log.
    [quiet rf rf'] is the summary of the sections that neither cast a vote nor
    start or win an election; [RequestVote], [electionTick] and
    [becomeLeaderLocked] have their own specifications. *)

From S2P Require Import Prelude LabGob RaftLog Persister RaftNode.
Local Open Scope Z_scope.

Section facts.
Context {Cmd : Type} `{!GobStream (gobval Cmd)}.
Implicit Types rf : Raft Cmd.

Definition durable rf : Prop :=
  let rf0 := Make (peers rf) (me rf) (persister rf) in
  currentTerm rf0 = currentTerm rf /\ votedFor rf0 = votedFor rf /\ log rf0 = log rf.

Lemma durable_ext rf rf' :
  peers rf' = peers rf -> me rf' = me rf -> persister rf' = persister rf ->
  currentTerm rf' = currentTerm rf -> votedFor rf' = votedFor rf -> log rf' = log rf ->
  durable rf -> durable rf'.
Proof. unfold durable. by intros -> -> -> -> -> ->. Qed.

Lemma persisted_nonempty (e : list (gobval Cmd)) :
  e <> [] -> bool_decide (len (Bytes e) < 1) = false.
Proof.
  intros He. apply bool_decide_false. unfold Bytes, len.
  pose proof (stream_nonempty e He). destruct (stream_bytes e); simpl; [done|lia].
Qed.

(** Reading back what [persistLocked] wrote. *)
Lemma readPersist_persisted rf0 rf :
  persister rf0 = persister (persistLocked rf) ->
  let rf' := readPersist rf0 (ReadRaftState (persister rf0)) in
  currentTerm rf' = currentTerm rf /\ votedFor rf' = votedFor rf /\ log rf' = log rf.
Proof.
  intros Hp. unfold readPersist. rewrite Hp.
  unfold ReadRaftState, clone, Save. simpl.
  rewrite persisted_nonempty; [done|].
  unfold NewDecoder, Bytes. rewrite stream_roundtrip. simpl.
  assert (ReadSnapshot (persister rf0) = snapshot (log rf)) as -> by by rewrite Hp.
  by destruct (log rf); case_bool_decide.
Qed.

Lemma persist_durable rf : durable (persistLocked rf).
Proof.
  unfold durable, Make.
  match goal with |- context [readPersist ?r _] =>
    exact (readPersist_persisted r rf eq_refl) end.
Qed.

Lemma readPersist_frame rf data :
  let rf' := readPersist rf data in
  peers rf' = peers rf /\ me rf' = me rf /\ persister rf' = persister rf /\ role rf' = role rf
  /\ nextIndex rf' = nextIndex rf /\ matchIndex rf' = matchIndex rf /\ applier rf' = applier rf.
Proof.
  unfold readPersist. case_bool_decide; [done|].
  repeat (case_match; simpl; try done).
Qed.

Lemma Make_frame n i ps :
  let rf : Raft Cmd := Make n i ps in
  peers rf = n /\ me rf = i /\ persister rf = ps /\ role rf = Follower
  /\ nextIndex rf = replicate n 0 /\ matchIndex rf = replicate n 0 /\ applier rf = ApLock.
Proof. unfold Make. apply readPersist_frame. Qed.

Lemma Make_durable n i ps : durable (Make n i ps : Raft Cmd).
Proof.
  unfold durable. destruct (Make_frame n i ps) as (-> & -> & -> & _). done.
Qed.

Record quiet rf rf' : Prop := {
  q_peers : peers rf' = peers rf;
  q_me : me rf' = me rf;
  q_durable : durable rf -> durable rf';
  q_vote : (currentTerm rf' = currentTerm rf /\ votedFor rf' = votedFor rf)
           \/ (currentTerm rf < currentTerm rf' /\ votedFor rf' = -1);
  q_role : (role rf' = role rf /\ currentTerm rf' = currentTerm rf) \/ role rf' = Follower;
  q_next : length (nextIndex rf') = length (nextIndex rf);
  q_match : length (matchIndex rf') = length (matchIndex rf);
}.

Lemma quiet_refl rf : quiet rf rf.
Proof. constructor; auto. Qed.

Lemma quiet_trans rf1 rf2 rf3 : quiet rf1 rf2 -> quiet rf2 rf3 -> quiet rf1 rf3.
Proof.
  intros [P1 M1 D1 V1 R1 ? ?] [P2 M2 D2 V2 R2 ? ?]. constructor; try congruence; auto.
  - destruct V1 as [[? ?]|[? ?]], V2 as [[? ?]|[? ?]].
    + left; split; congruence.
    + right; split; [lia|done].
    + right; split; [lia|congruence].
    + right; split; [lia|done].
  - destruct R2 as [[? ?]|?]; [|by right]. destruct R1 as [[? ?]|?].
    + left; split; congruence.
    + right; congruence.
Qed.

(** A section that leaves term, vote and role alone and either keeps the
    persisted fields or ends with [persistLocked]. *)
Lemma quiet_same rf rf' :
  peers rf' = peers rf -> me rf' = me rf ->
  currentTerm rf' = currentTerm rf -> votedFor rf' = votedFor rf -> role rf' = role rf ->
  length (nextIndex rf') = length (nextIndex rf) ->
  length (matchIndex rf') = length (matchIndex rf) ->
  (durable rf -> durable rf') -> quiet rf rf'.
Proof. intros. constructor; auto. Qed.

Lemma quiet_volatile rf rf' :
  peers rf' = peers rf -> me rf' = me rf -> persister rf' = persister rf ->
  currentTerm rf' = currentTerm rf -> votedFor rf' = votedFor rf -> role rf' = role rf ->
  log rf' = log rf ->
  length (nextIndex rf') = length (nextIndex rf) ->
  length (matchIndex rf') = length (matchIndex rf) -> quiet rf rf'.
Proof. intros. apply quiet_same; auto. by apply durable_ext. Qed.

Lemma quiet_persist rf rf' :
  peers rf' = peers rf -> me rf' = me rf ->
  currentTerm rf' = currentTerm rf -> votedFor rf' = votedFor rf -> role rf' = role rf ->
  length (nextIndex rf') = length (nextIndex rf) ->
  length (matchIndex rf') = length (matchIndex rf) ->
  quiet rf (persistLocked rf').
Proof. intros. apply quiet_same; auto. intros _. apply persist_durable. Qed.

Lemma quiet_reset c rf : quiet rf (resetElectionTimerLocked c rf).
Proof. by apply quiet_volatile. Qed.

Lemma quiet_signal rf : quiet rf (Signal rf).
Proof. unfold Signal. destruct (applier rf); by apply quiet_volatile. Qed.

Hint Resolve quiet_refl quiet_reset quiet_signal : quiet.

Lemma becomeFollower_spec c rf t :
  currentTerm rf <= t ->
  let rf' := becomeFollowerLocked c rf t in
  quiet rf rf' /\ currentTerm rf' = t /\ role rf' = Follower /\ log rf' = log rf
  /\ commitIndex rf' = commitIndex rf /\ lastApplied rf' = lastApplied rf
  /\ nextIndex rf' = nextIndex rf /\ matchIndex rf' = matchIndex rf
  /\ applier rf' = applier rf /\ snapPending rf' = snapPending rf.
Proof.
  intros Ht. unfold becomeFollowerLocked.
  repeat case_bool_decide; try lia; simpl; split_and!; try done.
  - constructor; simpl; auto; [|right; split; [lia|done]].
    intros _. eapply durable_ext; [..|apply persist_durable]; done.
  - constructor; simpl; auto. by apply durable_ext.
Qed.

Lemma becomeFollower_quiet c rf t : quiet rf (becomeFollowerLocked c rf t).
Proof.
  destruct (decide (currentTerm rf <= t)) as [H|H]; [by apply becomeFollower_spec|].
  unfold becomeFollowerLocked. rewrite bool_decide_true; [lia|]. apply quiet_refl.
Qed.
Hint Resolve becomeFollower_quiet : quiet.

Lemma quiet_set_matchIndex rf v :
  length v = length (matchIndex rf) -> quiet rf (set_matchIndex rf v).
Proof. intros. by apply quiet_volatile. Qed.
Lemma quiet_set_nextIndex rf v :
  length v = length (nextIndex rf) -> quiet rf (set_nextIndex rf v).
Proof. intros. by apply quiet_volatile. Qed.
Lemma quiet_set_commitIndex rf v : quiet rf (set_commitIndex rf v).
Proof. by apply quiet_volatile. Qed.
Hint Resolve quiet_set_matchIndex quiet_set_nextIndex quiet_set_commitIndex slice_set_length : quiet.

(** Peel the last update off a [quiet] goal. *)
Ltac quiet_chain :=
  repeat match goal with
  | |- quiet ?a ?a => apply quiet_refl
  | |- quiet _ (becomeFollowerLocked _ _ _) => apply becomeFollower_quiet
  | |- quiet _ (Signal _) => eapply quiet_trans; [|apply quiet_signal]
  | |- quiet _ (resetElectionTimerLocked _ _) => eapply quiet_trans; [|apply quiet_reset]
  | |- quiet _ (set_commitIndex _ _) => eapply quiet_trans; [|apply quiet_set_commitIndex]
  | |- quiet _ (set_nextIndex _ _) =>
      eapply quiet_trans; [|apply quiet_set_nextIndex; by eauto using slice_set_length]
  | |- quiet _ (set_matchIndex _ _) =>
      eapply quiet_trans; [|apply quiet_set_matchIndex; by eauto using slice_set_length]
  | |- quiet _ (persistLocked _) => by apply quiet_persist
  end.

Lemma AppendEntries_quiet c rf args reply rf' :
  AppendEntries c rf args = Ret (reply, rf') -> quiet rf rf'.
Proof.
  unfold AppendEntries. intros H.
  destruct (decide (ae_Term args < currentTerm rf)) as [Hlt|Hge].
  { rewrite bool_decide_true // in H. inv_ret. auto with quiet. }
  rewrite bool_decide_false // (bool_decide_true (ae_Term args >= _)) in H; [lia|].
  pose proof (becomeFollower_quiet c rf (ae_Term args)) as Hq.
  set (rf1 := becomeFollowerLocked c rf (ae_Term args)) in *. clearbody rf1.
  eapply quiet_trans; [exact Hq|].
  repeat (case_bool_decide || inv_ret); quiet_chain.
Qed.

Lemma InstallSnapshot_quiet c rf args reply rf' :
  InstallSnapshot c rf args = (reply, rf') -> quiet rf rf'.
Proof.
  unfold InstallSnapshot. intros H.
  destruct (decide (is_Term args < currentTerm rf)) as [Hlt|Hge].
  { rewrite bool_decide_true // in H. simplify_eq. auto with quiet. }
  rewrite bool_decide_false // (bool_decide_true (is_Term args >= _)) in H; [lia|].
  pose proof (becomeFollower_quiet c rf (is_Term args)) as Hq.
  set (rf1 := becomeFollowerLocked c rf (is_Term args)) in *. clearbody rf1.
  case_bool_decide; injection H as <- <-; [done|].
  eapply quiet_trans; [exact Hq|].
  eapply quiet_trans; [|apply quiet_signal].
  eapply quiet_trans; [eapply (quiet_persist _ (set_log rf1 _)); done|].
  by apply quiet_volatile.
Qed.

Lemma handleAppendReply_quiet c rf peer term args reply rf' :
  handleAppendReply c rf peer term args reply = Ret rf' -> quiet rf rf'.
Proof.
  unfold handleAppendReply. intros H.
  repeat (case_bool_decide || case_match || inv_ret); quiet_chain.
Qed.

Lemma handleInstallReply_quiet c rf peer term args reply rf' :
  handleInstallReply c rf peer term args reply = Ret rf' -> quiet rf rf'.
Proof.
  unfold handleInstallReply. intros H.
  repeat (case_bool_decide || case_match || inv_ret); quiet_chain.
Qed.

Lemma startReplication_quiet rf term rf' cs :
  startReplication rf term = Ret (Some (rf', cs)) -> quiet rf rf'.
Proof.
  unfold startReplication. intros H. case_match; inv_ret.
  apply (for_range_post (fun _ p => quiet rf p.1)) in Hm; [done|apply quiet_refl|].
  intros j [rf1 cs1] [rf2 cs2] _ Hq Hb. simpl in *.
  eapply quiet_trans; [exact Hq|].
  repeat (case_bool_decide || inv_ret); simplify_eq; quiet_chain.
Qed.

Lemma Start_quiet rf cmd r rf' : Start rf cmd = (r, rf') -> quiet rf rf'.
Proof.
  unfold Start. intros H. case_bool_decide; simplify_eq; [auto with quiet|].
  by apply quiet_persist.
Qed.

Lemma Snapshot_quiet rf index snap rf' : Snapshot rf index snap = Ret rf' -> quiet rf rf'.
Proof.
  unfold Snapshot. intros H. repeat (case_bool_decide || inv_ret); auto with quiet.
  by apply quiet_persist.
Qed.

Lemma applyWait_quiet rf : quiet rf (applyWait rf).
Proof. unfold applyWait. destruct (applier rf); by apply quiet_volatile. Qed.

Lemma applyCollect_quiet rf rf' : applyCollect rf = Ret rf' -> quiet rf rf'.
Proof.
  unfold applyCollect. intros H.
  repeat (case_match || inv_ret); by apply quiet_volatile.
Qed.

Lemma applyDeliver_quiet rf ms rf' : applyDeliver rf = (ms, rf') -> quiet rf rf'.
Proof.
  unfold applyDeliver. intros H. destruct (applier rf); simplify_eq; by apply quiet_volatile.
Qed.

Lemma applyFinish_quiet rf : quiet rf (applyFinish rf).
Proof.
  unfold applyFinish. destruct (applier rf); try by apply quiet_volatile.
  case_bool_decide; by apply quiet_volatile.
Qed.

(** ** The sections that take part in elections *)

Lemma contextLost_false rf r t :
  contextLostLocked rf r t = false -> role rf = r /\ currentTerm rf = t.
Proof.
  unfold contextLostLocked. intros [H1 H2]%orb_false_iff.
  apply bool_decide_eq_false in H1, H2. split; [by apply dec_stable|lia].
Qed.

Lemma contextLost_ok rf r t :
  role rf = r -> currentTerm rf = t -> contextLostLocked rf r t = false.
Proof.
  intros <- <-. unfold contextLostLocked. by rewrite !bool_decide_false; [intros []..|].
Qed.

Lemma electionTick_spec c1 c2 rf rf' o :
  electionTick c1 c2 rf = (rf', o) ->
  (o = None /\ rf' = rf) \/
  (o = Some (currentTerm rf + 1) /\ role rf <> Leader /\ role rf' = Candidate /\
   currentTerm rf' = currentTerm rf + 1 /\ votedFor rf' = me rf /\ durable rf' /\
   peers rf' = peers rf /\ me rf' = me rf /\ log rf' = log rf /\
   nextIndex rf' = nextIndex rf /\ matchIndex rf' = matchIndex rf).
Proof.
  unfold electionTick. case_bool_decide; simpl; [|intros [= <- <-]; by left].
  case_match; intros Hx; simplify_eq; [right|by left].
  unfold becomeCandidateLocked. rewrite bool_decide_false //. simpl. split_and!; try done.
  eapply durable_ext; [..|apply persist_durable]; done.
Qed.

Lemma isMoreUptoDate_total rf i t :
  log_wf (log rf) -> exists b, isMoreUptoDateLocked rf i t = Ret b.
Proof.
  intros Hwf. unfold isMoreUptoDateLocked.
  destruct (log_last_ret (log rf) Hwf) as (e & _ & ->). simpl.
  case_bool_decide; eauto.
Qed.

Lemma RequestVote_spec c rf args reply rf' :
  RequestVote c rf args = Ret (reply, rf') ->
  exists rf1, quiet rf rf1 /\ log rf1 = log rf /\ log rf' = log rf /\
    nextIndex rf' = nextIndex rf /\ matchIndex rf' = matchIndex rf /\
    commitIndex rf' = commitIndex rf /\
    ((VoteGranted reply = false /\ rf' = rf1) \/
     (VoteGranted reply = true /\ currentTerm rf1 = rv_Term args /\
      (votedFor rf1 = -1 \/ votedFor rf1 = CandidateId args) /\
      votedFor rf' = CandidateId args /\ currentTerm rf' = currentTerm rf1 /\
      role rf' = role rf1 /\ peers rf' = peers rf1 /\ me rf' = me rf1 /\ durable rf')).
Proof.
  unfold RequestVote. intros H.
  destruct (decide (rv_Term args < currentTerm rf)) as [Hlt|Hge].
  { rewrite bool_decide_true // in H. inv_ret. exists rf'. auto 10 using quiet_refl. }
  rewrite (bool_decide_false (rv_Term args < _)) // in H.
  set (rf1 := if bool_decide (rv_Term args > currentTerm rf) then _ else rf) in H.
  assert (quiet rf rf1 /\ currentTerm rf1 = rv_Term args /\ log rf1 = log rf /\
          nextIndex rf1 = nextIndex rf /\ matchIndex rf1 = matchIndex rf /\
          commitIndex rf1 = commitIndex rf) as (Hq & Ht & Hl & Hn & Hm & Hc).
  { clear H. unfold rf1. case_bool_decide.
    - destruct (becomeFollower_spec c rf (rv_Term args)) as (?&?&?&?&?&?&?&?&?&?); [lia|by auto 10].
    - split_and!; auto using quiet_refl; lia. }
  clearbody rf1. exists rf1.
  case_match eqn:Hv; [inv_ret; by auto 10|]. inv_ret.
  case_match; inv_ret; [by auto 10|]. simpl. split_and!; try done. right. split_and!; try done.
  - apply andb_false_iff in Hv as [Hv|Hv]; apply bool_decide_eq_false in Hv; [left|right]; lia.
  - eapply durable_ext; [..|apply persist_durable]; done.
Qed.

Lemma becomeLeader_total c rf :
  length (nextIndex rf) = peers rf -> length (matchIndex rf) = peers rf ->
  role rf = Candidate -> exists rf', becomeLeaderLocked c rf = Ret rf'.
Proof.
  intros Hn Hm Hr. unfold becomeLeaderLocked.
  rewrite bool_decide_false; [by intros []|].
  edestruct (for_range_inv (fun _ (r : Raft Cmd) => length (nextIndex r) = peers rf /\
    length (matchIndex r) = peers rf)) as (rf' & -> & _); [..|by eexists].
  - done.
  - simpl. intros j r Hj [Hn' Hm']. unfold slice_set.
    rewrite bool_decide_true; [unfold len; lia|]. simpl.
    rewrite bool_decide_true; [unfold len; lia|]. simpl.
    eexists; split; [done|]. simpl. by rewrite !length_insert.
Qed.

Lemma becomeLeader_spec c rf rf' :
  becomeLeaderLocked c rf = Ret rf' -> role rf = Candidate ->
  length (nextIndex rf) = peers rf -> length (matchIndex rf) = peers rf ->
  role rf' = Leader /\ currentTerm rf' = currentTerm rf /\ votedFor rf' = votedFor rf /\
  peers rf' = peers rf /\ me rf' = me rf /\ log rf' = log rf /\ commitIndex rf' = commitIndex rf /\
  (durable rf -> durable rf') /\
  nextIndex rf' = replicate (peers rf) (log_size (log rf)) /\
  matchIndex rf' = replicate (peers rf) 0.
Proof.
  intros H Hr Hln Hlm. unfold becomeLeaderLocked in H.
  rewrite bool_decide_false in H; [by rewrite Hr; intros []|]. inv_ret. simpl.
  apply (for_range_post (fun j (r : Raft Cmd) =>
    role r = Leader /\ currentTerm r = currentTerm rf /\ votedFor r = votedFor rf /\
    peers r = peers rf /\ me r = me rf /\ log r = log rf /\ commitIndex r = commitIndex rf /\
    persister r = persister rf /\
    nextIndex r = replicate (Z.to_nat j) (log_size (log rf)) ++ drop (Z.to_nat j) (nextIndex rf) /\
    matchIndex r = replicate (Z.to_nat j) 0 ++ drop (Z.to_nat j) (matchIndex rf))) in Hm.
  - destruct Hm as (? & ? & ? & ? & ? & ? & ? & ? & Hn & Hm'). split_and!; try done.
    + by apply durable_ext.
    + rewrite Hn Nat2Z.id. simpl. rewrite -Hln drop_all app_nil_r. done.
    + rewrite Hm' Nat2Z.id. simpl. rewrite -Hlm drop_all app_nil_r. done.
  - done.
  - intros j r r' Hj (? & ? & ? & ? & ? & Hlog & ? & ? & Hn & Hm') Hb. inv_ret.
    apply slice_set_ret in Hm0 as [_ ->]. apply slice_set_ret in Hm1 as [_ ->]. simpl in *.
    assert (forall (x : Z) (l : list Z), (Z.to_nat j < length l)%nat ->
      <[Z.to_nat j := x]> (replicate (Z.to_nat j) x ++ drop (Z.to_nat j) l)
      = replicate (Z.to_nat (j + 1)) x ++ drop (Z.to_nat (j + 1)) l) as Hins.
    { intros x l Hl. rewrite insert_app_r_alt length_replicate // Nat.sub_diag.
      replace (Z.to_nat (j + 1)) with (Z.to_nat j + 1)%nat by lia.
      rewrite replicate_add -app_assoc. f_equal.
      destruct (lookup_lt_is_Some_2 l _ Hl) as [y Hy].
      rewrite (drop_S _ _ _ Hy). simpl. by rewrite Nat.add_1_r. }
    rewrite Hn Hm' Hlog !Hins; try lia. split_and!; done.
Qed.

Lemma handleVoteReply_spec c rf term votes reply rf' votes' won :
  handleVoteReply c rf term votes reply = Ret (rf', votes', won) ->
  length (nextIndex rf) = peers rf -> length (matchIndex rf) = peers rf ->
  (quiet rf rf' /\ won = false /\ log rf' = log rf /\ 
   nextIndex rf' = nextIndex rf /\ matchIndex rf' = matchIndex rf /\
   commitIndex rf' = commitIndex rf /\
   (votes' = votes \/ votes' = votes + 1 /\ VoteGranted reply = true /\
      role rf = Candidate /\ currentTerm rf = term))
  \/
  (won = true /\ VoteGranted reply = true /\ votes' = votes + 1 /\
   votes' > Z.of_nat (peers rf) / 2 /\ role rf = Candidate /\ currentTerm rf = term /\
   role rf' = Leader /\ currentTerm rf' = currentTerm rf /\ votedFor rf' = votedFor rf /\
   peers rf' = peers rf /\ me rf' = me rf /\ log rf' = log rf /\ commitIndex rf' = commitIndex rf /\
   (durable rf -> durable rf') /\
   nextIndex rf' = replicate (peers rf) (log_size (log rf)) /\
   matchIndex rf' = replicate (peers rf) 0).
Proof.
  unfold handleVoteReply. intros H Hn Hm.
  case_bool_decide.
  { inv_ret. left.
    destruct (becomeFollower_spec c rf (rvr_Term reply)) as (?&?&?&?&?&?&?&?&?&?); [lia|].
    by auto 10. }
  case_match eqn:Hctx; [inv_ret; left; auto 10 using quiet_refl|].
  apply contextLost_false in Hctx as [Hr Ht].
  case_match eqn:Hg; [|inv_ret; left; auto 10 using quiet_refl].
  case_bool_decide; inv_ret; [|left; auto 11 using quiet_refl].
  right. apply becomeLeader_spec in Hm0; naive_solver.
Qed.

Lemma startElection_spec rf term votes cs :
  startElection rf term = Ret (Some (votes, cs)) ->
  role rf = Candidate /\ currentTerm rf = term /\
  exists args, rv_Term args = term /\ CandidateId args = me rf /\
    votes = (if bool_decide (0 <= me rf < Z.of_nat (peers rf)) then 1 else 0) /\
    cs = (fun p : nat => (Z.of_nat p, args)) <$>
           filter (fun p : nat => Z.of_nat p <> me rf) (seq 0 (peers rf)).
Proof.
  unfold startElection. intros H. case_match eqn:Hctx; inv_ret.
  apply contextLost_false in Hctx as [Hr <-]. split_and!; [done..|].
  destruct v as [lastIdx lastTerm]. inv_ret.
  exists (mkRequestVoteArgs (currentTerm rf) (me rf) lastIdx lastTerm). split_and!; [done..| |].
  all: apply (for_range_post (fun j vc =>
    vc.1 = (if bool_decide (0 <= me rf < j) then 1 else 0) /\
    vc.2 = (fun p : nat => (Z.of_nat p, mkRequestVoteArgs (currentTerm rf) (me rf) lastIdx lastTerm)) <$>
           filter (fun p : nat => Z.of_nat p <> me rf) (seq 0 (Z.to_nat j)))) in Hm0;
    [rewrite Nat2Z.id in Hm0; naive_solver|by rewrite bool_decide_false; [lia|]|].
  all: intros j [v1 l1] [v2 l2] Hj [E1 E2] Hb; simpl in *; subst v1 l1;
    replace (Z.to_nat (j + 1)) with (S (Z.to_nat j)) by lia;
    rewrite seq_S filter_app fmap_app /= filter_cons filter_nil Z2Nat.id; [lia|];
    repeat case_bool_decide; repeat case_decide; inv_ret; simpl; try lia; try congruence;
    rewrite ?app_nil_r ?Z2Nat.id //; lia.
Qed.
End facts.
