(* ===== verification/RaftElection.v ===== *)
(** * RaftElection: at most one leader per term

    The proof follows the votes.  A history variable [B] maps a peer and a
    term to the candidate the peer voted for; it only grows, because a peer
    persists its vote before it answers.  A second history variable lists, for
    every vote counter, whose election it is and which peers it has counted.
    The two are existential: they are not part of the cluster state. *)

From S2P Require Import Prelude LabGob RaftLog Persister RaftNode RaftNodeFacts RaftNet.
Local Open Scope Z_scope.

(** The votes cast so far: voter and term to candidate. *)
Notation ballots := (gmap (nat * Z) Z).

(** Owner, term and counted voters of each election. *)
Notation tally := (list (nat * Z * gset nat)).

Section quorum.
Context (n : nat).

(** A majority of the peers voted for [c] in term [T]. *)
Definition backed (B : ballots) (T c : Z) : Prop :=
  exists Q : gset nat, Z.of_nat (size Q) > Z.of_nat n / 2 /\
    forall p, p ∈ Q -> (p < n)%nat /\ B !! (p, T) = Some c.

Lemma majorities_meet (Q1 Q2 : gset nat) :
  Z.of_nat (size Q1) > Z.of_nat n / 2 -> Z.of_nat (size Q2) > Z.of_nat n / 2 ->
  (forall p, p ∈ Q1 -> (p < n)%nat) -> (forall p, p ∈ Q2 -> (p < n)%nat) ->
  exists p, p ∈ Q1 /\ p ∈ Q2.
Proof.
  intros H1 H2 R1 R2.
  destruct (decide (Q1 ## Q2)) as [Hd|Hd].
  - assert (Q1 ∪ Q2 ⊆ set_seq 0 n) as Hs.
    { intros p. rewrite elem_of_union elem_of_set_seq. naive_solver lia. }
    apply subseteq_size in Hs. rewrite size_union // size_set_seq in Hs.
    exfalso. Z.to_euclidean_division_equations. lia.
  - apply dec_stable. intros Hn. apply Hd. intros p ? ?. eauto.
Qed.

Lemma backed_unique B T c c' : backed B T c -> backed B T c' -> c = c'.
Proof.
  intros (Q1 & S1 & H1) (Q2 & S2 & H2).
  destruct (majorities_meet Q1 Q2) as (p & [_ Hp1]%H1 & [_ Hp2]%H2); naive_solver.
Qed.

Lemma backed_mono B B' T c : B ⊆ B' -> backed B T c -> backed B' T c.
Proof.
  intros HB (Q & HS & HQ). exists Q. split; [done|].
  intros p [? ?]%HQ. split; [done|]. eauto using lookup_weaken.
Qed.
End quorum.

Section election.
Context {Cmd : Type} `{!GobStream (gobval Cmd)} (n : nat).
Implicit Types (s : Cluster Cmd) (rf : Raft Cmd) (B : ballots) (E : tally).

Record node_inv B (i : nat) rf : Prop := {
  ni_me : me rf = Z.of_nat i;
  ni_peers : peers rf = n;
  ni_durable : durable rf;
  ni_next : length (nextIndex rf) = n;
  ni_match : length (matchIndex rf) = n;
  ni_vote : votedFor rf <> -1 -> B !! (i, currentTerm rf) = Some (votedFor rf);
  ni_ballot T c : B !! (i, T) = Some c ->
    c <> -1 /\ T <= currentTerm rf /\ (T = currentTerm rf -> votedFor rf = c);
  ni_candidate : role rf = Candidate -> votedFor rf = me rf;
  ni_leader : role rf = Leader -> backed n B (currentTerm rf) (me rf);
}.

(** What a call knows about the election it belongs to. *)
Definition vote_inv B E (r : RPC Cmd) : Prop :=
  match body r with
  | VoteCall el args reply =>
      rv_Term args = cterm r /\ CandidateId args = Z.of_nat (from r) /\
      (forall rep, reply = Some rep -> VoteGranted rep = true ->
         (to r < n)%nat /\ B !! (to r, cterm r) = Some (Z.of_nat (from r))) /\
      exists V, E !! el = Some (from r, cterm r, V) /\ (live r = true -> to r ∉ V)
  | _ => True
  end.

Definition election_of (r : RPC Cmd) : option nat :=
  match body r with VoteCall el _ _ => Some el | _ => None end.

Record election_inv B E s : Prop := {
  ei_size : length (nodes s) = n;
  ei_node i rf : nodes s !! i = Some rf -> node_inv B i rf;
  ei_call k r : calls s !! k = Some r -> vote_inv B E r;
  ei_distinct k k' r r' el :
    calls s !! k = Some r -> calls s !! k' = Some r' -> k <> k' ->
    election_of r = Some el -> election_of r' = Some el -> to r <> to r';
  ei_elections : length E = length (elections s);
  ei_tally el i T V : E !! el = Some (i, T, V) ->
    elections s !! el = Some (Z.of_nat (size V)) /\
    forall p, p ∈ V -> (p < n)%nat /\ B !! (p, T) = Some (Z.of_nat i);
}.

(** ** Monotonicity in the history *)

Lemma vote_inv_mono B B' E r : B ⊆ B' -> vote_inv B E r -> vote_inv B' E r.
Proof.
  intros HB. unfold vote_inv. destruct (body r); try done.
  intros (? & ? & Hg & ?). split_and!; try done.
  intros rep Hr Hv. destruct (Hg rep Hr Hv). split; [done|]. eauto using lookup_weaken.
Qed.

(** Growing the ballots of other peers keeps the invariant of a node. *)
Lemma node_inv_grow B B' i rf :
  B ⊆ B' -> (forall T, B' !! (i, T) = B !! (i, T)) -> node_inv B i rf -> node_inv B' i rf.
Proof.
  intros HB Hi [? ? ? ? ? Hv Hb ? Hl]. constructor; try done.
  - intros. rewrite Hi. auto.
  - intros T c. rewrite Hi. apply Hb.
  - intros. eapply backed_mono; eauto.
Qed.

Lemma node_inv_quiet B i rf rf' : quiet rf rf' -> node_inv B i rf -> node_inv B i rf'.
Proof.
  intros [Qp Qm Qd Qv Qr Qn Qmi] [Hme Hp Hd Hn Hm Hv Hb Hc Hl]. constructor; try congruence; auto.
  - intros Hne. destruct Qv as [[Ht Hvf]|[? ?]]; [|congruence].
    rewrite Ht Hvf. apply Hv. congruence.
  - intros T c HB. destruct (Hb T c HB) as (? & ? & ?).
    destruct Qv as [[-> ->]|[? ?]]; split_and!; try done; lia.
  - intros Hr. destruct Qr as [[Hr' Ht]|?]; [|congruence].
    destruct Qv as [[_ ->]|[? ?]]; [|lia]. rewrite Qm. apply Hc. congruence.
  - intros Hr. destruct Qr as [[Hr' Ht]|?]; [|congruence].
    rewrite Ht Qm. apply Hl. congruence.
Qed.

(** ** Framing *)

Lemma election_inv_put B E s i rf' :
  election_inv B E s -> node_inv B i rf' -> election_inv B E (put_node s i rf').
Proof.
  intros [? Hn Hc Hd He Ht] Hi. constructor; simpl; auto.
  - by rewrite length_insert.
  - intros j rf [(<- & <- & _)|[? ?]]%list_lookup_insert_Some; [done|by apply Hn].
Qed.

Lemma election_inv_frame B E s s' :
  election_inv B E s -> nodes s' = nodes s -> calls s' = calls s -> elections s' = elections s ->
  election_inv B E s'.
Proof. intros [] H1 H2 H3. constructor; rewrite ?H1 ?H2 ?H3; auto. Qed.

(** Replacing a call by one of the same election. *)
Lemma election_inv_call B E s k r r' :
  election_inv B E s -> calls s !! k = Some r ->
  to r' = to r -> election_of r' = election_of r -> vote_inv B E r' ->
  election_inv B E (set_calls s (<[k := r']> (calls s))).
Proof.
  intros [? Hn Hc Hd He Ht] Hk Hto Hel Hr'. constructor; simpl; auto.
  - intros k0 r0 [(<- & <- & _)|[? ?]]%list_lookup_insert_Some; [done|eapply Hc; eauto].
  - intros k1 k2 r1 r2 el H1 H2 Hne E1 E2.
    apply list_lookup_insert_Some in H1 as [(<- & <- & _)|[? H1]],
      H2 as [(<- & <- & _)|[? H2]]; try done.
    + rewrite Hto. eapply (Hd k k2); eauto; congruence.
    + rewrite Hto. eapply (Hd k1 k); eauto; congruence.
    + eapply (Hd k1 k2); eauto.
Qed.

Lemma vote_inv_encode B E r entries : vote_inv B E r -> vote_inv B E (encode_as r entries).
Proof. destruct (encode_as_spec r entries) as [->|(args & _ & _ & ->)]; done. Qed.

Lemma vote_inv_retire B E r : vote_inv B E r -> vote_inv B E (retire r).
Proof.
  unfold vote_inv, retire. simpl. destruct (body r); try done.
  intros (? & ? & ? & V & ? & _). split_and!; try done. exists V. done.
Qed.

Lemma election_of_retire r : election_of (retire r) = election_of r.
Proof. done. Qed.

(** Calls without an election can be added freely. *)
Lemma election_inv_add_calls B E s cs :
  election_inv B E s -> Forall (fun r => election_of r = None) cs ->
  election_inv B E (set_calls s (calls s ++ cs)).
Proof.
  intros [? Hn Hc Hd He Ht] Hcs. constructor; simpl; auto.
  - intros k r [?|[? Hr]]%lookup_app_Some; [eapply Hc; eauto|].
    pose proof (Forall_lookup_1 _ _ _ _ Hcs Hr) as Hx. unfold vote_inv, election_of in *.
    by destruct (body r).
  - intros k k' r r' el H1 H2 Hne E1 E2.
    apply lookup_app_Some in H1 as [H1|[_ H1]], H2 as [H2|[_ H2]].
    + eapply (Hd k k'); eauto.
    + pose proof (Forall_lookup_1 _ _ _ _ Hcs H2) as Hx. simpl in *. congruence.
    + pose proof (Forall_lookup_1 _ _ _ _ Hcs H1) as Hx. simpl in *. congruence.
    + pose proof (Forall_lookup_1 _ _ _ _ Hcs H1) as Hx. simpl in *. congruence.
Qed.

(** ** Preservation, event by event *)

Lemma election_inv_quiet B E s i rf rf' :
  election_inv B E s -> nodes s !! i = Some rf -> quiet rf rf' ->
  election_inv B E (put_node s i rf').
Proof.
  intros HI Hi Hq. apply election_inv_put; [done|].
  eapply node_inv_quiet; [exact Hq|]. eapply ei_node; eauto.
Qed.

(** A vote of peer [i] in a term in which it had not voted. *)
Lemma election_inv_ballot B E s i T c rf' :
  election_inv B E s -> B !! (i, T) = None ->
  node_inv (<[(i, T) := c]> B) i rf' ->
  election_inv (<[(i, T) := c]> B) E (put_node s i rf').
Proof.
  intros [Hsz Hn Hc Hd He Ht] Hnone Hi.
  assert (B ⊆ <[(i, T) := c]> B) as HB by by apply insert_subseteq.
  constructor; simpl; auto.
  - by rewrite length_insert.
  - intros j rf [(<- & <- & _)|[? ?]]%list_lookup_insert_Some; [done|].
    eapply node_inv_grow; [exact HB| |by apply Hn].
    intros T'. rewrite lookup_insert_ne //. naive_solver.
  - intros k r Hr. eapply vote_inv_mono; [exact HB|eapply Hc; eauto].
  - intros el j T' V HE. destruct (Ht el j T' V HE) as [? Hp]. split; [done|].
    intros p [? ?]%Hp. split; [done|]. eauto using lookup_weaken.
Qed.

Lemma electionTick_inv B E s i rf c1 c2 rf' o :
  election_inv B E s -> nodes s !! i = Some rf -> electionTick c1 c2 rf = (rf', o) ->
  exists B', B ⊆ B' /\ election_inv B' E (put_node s i rf').
Proof.
  intros HI Hi Htick. pose proof (ei_node _ _ _ HI i rf Hi) as [Hme Hp Hdur Hnx Hmt Hv Hb Hcd Hl].
  apply electionTick_spec in Htick as [[-> ->]|(-> & Hnl & Hr & Ht & Hvf & Hd & Hpe & Hm & Hlog & Hn & Hma)].
  { exists B. split; [done|]. eapply election_inv_quiet; eauto using quiet_refl. }
  assert (B !! (i, currentTerm rf + 1) = None) as Hnone.
  { apply eq_None_not_Some. intros [c Hx%Hb]. lia. }
  exists (<[(i, currentTerm rf + 1) := me rf]> B). split; [by apply insert_subseteq|].
  apply election_inv_ballot; [done|done|]. constructor; try congruence.
  - intros _. by rewrite Ht Hvf lookup_insert_eq.
  - intros T c [([= <-] & <-)|[_ (? & ? & ?)%Hb]]%lookup_insert_Some.
    + split_and!; [lia|lia|done].
    + split_and!; [done|lia|lia].
Qed.

Lemma RequestVote_inv B E s i rf c args reply rf' :
  election_inv B E s -> nodes s !! i = Some rf -> CandidateId args <> -1 ->
  RequestVote c rf args = Ret (reply, rf') ->
  exists B', B ⊆ B' /\ election_inv B' E (put_node s i rf') /\
    (VoteGranted reply = true -> B' !! (i, rv_Term args) = Some (CandidateId args)).
Proof.
  intros HI Hi Hc Hrv. pose proof (ei_node _ _ _ HI i rf Hi) as Hni.
  apply RequestVote_spec in Hrv as (rf1 & Hq & _ & _ & Hnx & Hmt & _ & Hcase).
  pose proof (node_inv_quiet _ _ _ _ Hq Hni) as [Hme1 Hp1 Hdur1 Hnx1 Hmt1 Hv1 Hb1 Hcd1 Hl1].
  destruct Hcase as [[Hg ->]|(Hg & Ht & Hvote & Hvf & Ht' & Hr' & Hp' & Hm' & Hd')].
  { exists B. split_and!; [done| |congruence]. eapply election_inv_quiet; eauto. }
  destruct Hvote as [Hvote|Hvote].
  - assert (B !! (i, currentTerm rf1) = None) as Hnone.
    { apply eq_None_not_Some. intros [x (? & _ & Hx)%Hb1]. specialize (Hx eq_refl). congruence. }
    assert (B ⊆ <[(i, currentTerm rf1) := CandidateId args]> B) as HB by by apply insert_subseteq.
    exists (<[(i, currentTerm rf1) := CandidateId args]> B). split_and!; [done| |].
    + apply election_inv_ballot; [done|done|]. constructor; try congruence.
      * rewrite Hnx. apply (ni_next _ _ _ Hni).
      * rewrite Hmt. apply (ni_match _ _ _ Hni).
      * intros _. by rewrite Ht' Hvf lookup_insert_eq.
      * intros T x [([= <-] & <-)|[Hne (? & ? & ?)%Hb1]]%lookup_insert_Some.
        -- split_and!; [done|lia|done].
        -- rewrite Ht' Hvf. split_and!; [done|done|]. intros ->. by destruct Hne.
      * rewrite Hr'. intros Hcand. specialize (Hcd1 Hcand). lia.
      * rewrite Hr' Ht' Hm'. intros Hld. eapply backed_mono; [exact HB|by apply Hl1].
    + intros _. by rewrite -Ht lookup_insert_eq.
  - exists B. split_and!; [done| |].
    + apply election_inv_put; [done|]. constructor; try congruence.
      * rewrite Hnx. apply (ni_next _ _ _ Hni).
      * rewrite Hmt. apply (ni_match _ _ _ Hni).
      * intros _. rewrite Ht' Hvf -Hvote. apply Hv1. congruence.
      * intros T x Hx. rewrite Ht' Hvf -Hvote. by apply Hb1.
      * rewrite Hr' Hvf -Hvote Hm'. done.
      * by rewrite Hr' Ht' Hm'.
    + intros _. rewrite -Ht -Hvote. apply Hv1. congruence.
Qed.

Lemma lookup_node_lt B E s i rf : election_inv B E s -> nodes s !! i = Some rf -> (i < n)%nat.
Proof. intros HI Hi%lookup_lt_Some. by rewrite (ei_size _ _ _ HI) in Hi. Qed.

(** The calls of a new election: one per other peer. *)
Lemma vote_rpcs_lookup (i : nat) T el args m k r :
  (vote_rpc i T el <$> ((fun p : nat => (Z.of_nat p, args)) <$>
     filter (fun p : nat => Z.of_nat p <> Z.of_nat i) (seq 0 m))) !! k = Some r ->
  exists p, filter (fun p : nat => Z.of_nat p <> Z.of_nat i) (seq 0 m) !! k = Some p /\
    p <> i /\ (p < m)%nat /\ r = mkRPC Cmd i p T (VoteCall el args None) true true.
Proof.
  rewrite -list_fmap_compose. intros (p & -> & Hp)%list_lookup_fmap_Some.
  pose proof (list_elem_of_lookup_2 _ _ _ Hp) as [? [? ?]%elem_of_seq]%list_elem_of_filter.
  exists p. unfold vote_rpc. simpl. rewrite Nat2Z.id. split_and!; [done|lia|lia|done].
Qed.

Lemma startElection_inv B E s i rf T votes cs :
  election_inv B E s -> nodes s !! i = Some rf -> startElection rf T = Ret (Some (votes, cs)) ->
  let el := length (elections s) in
  election_inv B (E ++ [(i, T, {[i]})])
    (set_calls (set_elections s (elections s ++ [votes])) (calls s ++ (vote_rpc i T el <$> cs))).
Proof.
  intros HI Hi Hse el. pose proof (lookup_node_lt _ _ _ _ _ HI Hi) as Hlt.
  pose proof (ei_node _ _ _ HI i rf Hi) as [Hme Hp _ _ _ Hv _ Hcd _].
  apply startElection_spec in Hse as (Hr & Ht & args & Ha & Hci & Hvt & ->).
  rewrite Hme Hp in Hvt, Hci |- *. rewrite bool_decide_true in Hvt; [lia|]. subst votes.
  assert (B !! (i, T) = Some (Z.of_nat i)) as Hself.
  { rewrite -Ht -Hme -(Hcd Hr). apply Hv. rewrite (Hcd Hr). lia. }
  destruct HI as [Hsz Hn Hc Hd He HT]. unfold el.
  assert (forall k r el', calls s !! k = Some r -> election_of r = Some el' ->
    (el' < length (elections s))%nat) as Hold.
  { intros k r el' Hk Hel. specialize (Hc k r Hk). unfold vote_inv, election_of in *.
    destruct (body r); simplify_eq. destruct Hc as (_ & _ & _ & V & HV%lookup_lt_Some & _).
    by rewrite -He. }
  constructor; simpl; auto.
  - intros k r [Hk|[_ Hk]]%lookup_app_Some.
    + specialize (Hc k r Hk). unfold vote_inv in *. destruct (body r); try done.
      destruct Hc as (? & ? & ? & V & HV & ?). split_and!; try done. exists V.
      split; [by apply lookup_app_l_Some|done].
    + apply vote_rpcs_lookup in Hk as (p & _ & Hpi & Hpm & ->). simpl.
      split_and!; try done. exists {[i]}. split; [|set_solver].
      rewrite -He lookup_app_r // Nat.sub_diag. done.
  - intros k k' r r' el' H1 H2 Hne E1 E2.
    apply lookup_app_Some in H1 as [H1|[Hk1 H1]], H2 as [H2|[Hk2 H2]].
    + eapply (Hd k k'); eauto.
    + apply vote_rpcs_lookup in H2 as (p & _ & _ & _ & ->). unfold election_of in E2. simplify_eq/=.
      pose proof (Hold _ _ _ H1 E1). lia.
    + apply vote_rpcs_lookup in H1 as (p & _ & _ & _ & ->). unfold election_of in E1. simplify_eq/=.
      pose proof (Hold _ _ _ H2 E2). lia.
    + apply vote_rpcs_lookup in H1 as (p & Hp1 & _ & _ & ->), H2 as (p' & Hp2 & _ & _ & ->).
      simpl. intros ->. apply Hne.
      assert (NoDup (filter (fun p : nat => Z.of_nat p <> Z.of_nat i) (seq 0 n))) as Hnd
        by apply NoDup_filter, NoDup_seq.
      pose proof (NoDup_lookup _ _ _ _ Hnd Hp1 Hp2). lia.
  - by rewrite !length_app He.
  - intros el' j T' V [Hl|[Hlen Hl]]%lookup_app_Some.
    + destruct (HT _ _ _ _ Hl). split; [by apply lookup_app_l_Some|done].
    + apply list_lookup_singleton_Some in Hl as [Hz [= <- <- <-]].
      rewrite size_singleton. split.
      * replace el' with (length (elections s) + 0)%nat by lia.
        rewrite lookup_app_r; [lia|]. by replace (_ + 0 - _)%nat with 0%nat by lia.
      * intros p ->%elem_of_singleton. done.
Qed.

(** Counting a granted vote. *)
Lemma election_inv_count B E s k r el args rep V i T :
  election_inv B E s -> calls s !! k = Some r -> live r = true ->
  body r = VoteCall el args (Some rep) -> VoteGranted rep = true ->
  E !! el = Some (i, T, V) ->
  election_inv B (<[el := (i, T, {[to r]} ∪ V)]> E)
    (set_elections (set_calls s (<[k := retire r]> (calls s)))
       (<[el := Z.of_nat (size V) + 1]> (elections s))) /\
  size ({[to r]} ∪ V) = S (size V) /\
  (forall p, p ∈ {[to r]} ∪ V -> (p < n)%nat /\ B !! (p, T) = Some (Z.of_nat i)).
Proof.
  intros HI Hk Hlive Hbody Hg HE.
  pose proof (ei_call _ _ _ HI k r Hk) as Hv. unfold vote_inv in Hv. rewrite Hbody in Hv.
  destruct Hv as (? & ? & Hgr & V' & HE' & Hnot). simplify_eq.
  destruct (Hgr rep eq_refl Hg) as [Hlt HB]. specialize (Hnot Hlive).
  destruct (ei_tally _ _ _ HI _ _ _ _ HE) as [Hsz HV].
  assert (size ({[to r]} ∪ V) = S (size V)) as Hsize.
  { rewrite size_union; [set_solver|]. by rewrite size_singleton. }
  assert (forall p, p ∈ {[to r]} ∪ V -> (p < n)%nat /\ B !! (p, cterm r) = Some (Z.of_nat (from r))) as Hall.
  { intros p [->%elem_of_singleton|Hp]%elem_of_union; [done|by apply HV]. }
  split_and!; [|done|done].
  assert (el < length (elections s))%nat as Hel by (eapply lookup_lt_Some; eauto).
  destruct HI as [Hnn Hn Hc Hd He HT]. constructor; simpl; auto.
  - intros k' r' [(<- & <- & _)|[Hne Hk']]%list_lookup_insert_Some.
    + unfold vote_inv. simpl. rewrite Hbody. split_and!; try done.
      exists ({[to r]} ∪ V). split; [|done].
      apply list_lookup_insert_eq. by rewrite He.
    + pose proof (Hc k' r' Hk') as Hr'. unfold vote_inv in *.
      destruct (body r') eqn:Hb'; try done. destruct Hr' as (? & ? & ? & W & HW & ?).
      split_and!; try done. destruct (decide (election = el)) as [->|Hel'].
      * exists ({[to r]} ∪ V). simplify_eq. rewrite list_lookup_insert_eq; [by rewrite He|].
        split; [congruence|]. intros Hl. apply not_elem_of_union. split; [|auto].
        rewrite not_elem_of_singleton.
        apply (Hd k' k r' r el); [done|done|congruence|..]; unfold election_of; by rewrite ?Hb' ?Hbody.
      * exists W. rewrite list_lookup_insert_ne; [congruence|done].
  - intros k1 k2 r1 r2 el' H1 H2 Hne E1 E2.
    apply list_lookup_insert_Some in H1 as [(<- & <- & _)|[? H1]],
      H2 as [(<- & <- & _)|[? H2]]; try done.
    + eapply (Hd k k2 r r2); eauto.
    + eapply (Hd k1 k r1 r); eauto.
    + eapply (Hd k1 k2); eauto.
  - by rewrite !length_insert.
  - intros el' j T' W HW. destruct (decide (el' = el)) as [->|Hne].
    + rewrite list_lookup_insert_eq in HW; [by rewrite He|]. simplify_eq.
      rewrite list_lookup_insert_eq //. rewrite Hsize. split; [f_equal; lia|done].
    + rewrite list_lookup_insert_ne in HW; [congruence|].
      rewrite list_lookup_insert_ne; [congruence|]. eauto.
Qed.

Lemma handleVoteReply_inv B E s k r el args rep rf c votes rf' votes' won :
  election_inv B E s -> calls s !! k = Some r -> live r = true ->
  body r = VoteCall el args (Some rep) -> nodes s !! from r = Some rf ->
  elections s !! el = Some votes ->
  handleVoteReply c rf (cterm r) votes rep = Ret (rf', votes', won) ->
  exists E', election_inv B E'
    (put_node (set_elections (set_calls s (<[k := retire r]> (calls s)))
       (<[el := votes']> (elections s))) (from r) rf').
Proof.
  intros HI Hk Hlive Hbody Hrf Hvotes Hh.
  pose proof (ei_node _ _ _ HI _ _ Hrf) as [Hme Hp Hdur Hnx Hmt Hv Hb Hcd Hl].
  pose proof (ei_call _ _ _ HI k r Hk) as Hvi. unfold vote_inv in Hvi. rewrite Hbody in Hvi.
  destruct Hvi as (_ & _ & _ & V & HE & _).
  destruct (ei_tally _ _ _ HI _ _ _ _ HE) as [Hsz _]. rewrite Hsz in Hvotes. injection Hvotes as <-.
  apply handleVoteReply_spec in Hh; [|congruence|congruence].
  destruct Hh as [(Hq & _ & _ & _ & _ & _ & [->|(-> & Hg & _)])|(_ & Hg & -> & Hmaj & Hr & Ht & Hr' & Ht' & Hvf' & Hp' & Hm' & _ & _ & Hd' & Hn' & Hma')].
  - exists E. rewrite (list_insert_id (elections s)) //. eapply election_inv_quiet; [|exact Hrf|exact Hq].
    eapply election_inv_frame; [eapply (election_inv_call B E s k r (retire r))|..]; try done.
    apply vote_inv_retire. eapply ei_call; eauto.
  - eexists. eapply election_inv_quiet; [|exact Hrf|exact Hq].
    eapply election_inv_count; eauto.
  - destruct (election_inv_count _ _ _ _ _ _ _ _ _ _ _ HI Hk Hlive Hbody Hg HE) as (HI' & Hsize & Hall).
    eexists. apply election_inv_put; [exact HI'|]. constructor; try congruence.
    + by apply Hd'.
    + by rewrite Hn' length_replicate.
    + by rewrite Hma' length_replicate.
    + intros Hne. rewrite Ht' Hvf'. apply Hv. congruence.
    + intros T x Hx. rewrite Ht' Hvf'. by apply Hb.
    + intros _. rewrite Hm' Hme Ht' Ht. exists ({[to r]} ∪ V). split; [|done].
      rewrite Hsize. rewrite Hp in Hmaj. lia.
Qed.

Lemma election_inv_kill B E s i :
  election_inv B E s -> election_inv B E (set_calls s (kill_rpc i <$> calls s)).
Proof.
  intros [Hsz Hn Hc Hd He HT].
  assert (forall r, to (kill_rpc i r) = to r /\ election_of (kill_rpc i r) = election_of r) as Hkill.
  { intros r. unfold kill_rpc. by case_bool_decide. }
  constructor; simpl; auto.
  - intros k r (r0 & -> & Hr0)%list_lookup_fmap_Some. specialize (Hc k r0 Hr0).
    unfold kill_rpc. case_bool_decide; [by apply vote_inv_retire|done].
  - intros k k' r r' el (r0 & -> & Hr0)%list_lookup_fmap_Some (r1 & -> & Hr1)%list_lookup_fmap_Some Hne E1 E2.
    rewrite (proj1 (Hkill r0)) (proj1 (Hkill r1)).
    rewrite (proj2 (Hkill r0)) in E1. rewrite (proj2 (Hkill r1)) in E2.
    eapply (Hd k k'); eauto.
Qed.

(** A restarted instance has the term and the vote of the crashed one. *)
Lemma restart_inv B i rf : node_inv B i rf -> node_inv B i (Make (peers rf) (me rf) (Copy (persister rf))).
Proof.
  intros [Hme Hp Hdur Hnx Hmt Hv Hb Hcd Hl].
  destruct (Make_frame (Cmd:=Cmd) (peers rf) (me rf) (Copy (persister rf))) as (Fp & Fm & Fs & Fr & Fn & Fma & _).
  assert (Copy (persister rf) = persister rf) as Hcopy by by destruct (persister rf).
  destruct Hdur as (Dt & Dv & _). rewrite Hcopy in Fp Fm Fs Fr Fn Fma |- *.
  constructor; try congruence.
  - apply Make_durable.
  - by rewrite Fn length_replicate.
  - by rewrite Fma length_replicate.
  - rewrite Dt Dv. done.
  - rewrite Dt Dv. done.
Qed.
Hint Resolve restart_inv : election.

Lemma deliver_inv B E s k r c s' :
  election_inv B E s -> calls s !! k = Some r -> deliver s k r c = Ret s' ->
  exists B', B ⊆ B' /\ election_inv B' E s'.
Proof.
  intros HI Hk Hd. unfold deliver, with_node in Hd.
  destruct (nodes s !! to r) as [rf|] eqn:Hrf; [|inv_ret; by exists B].
  pose proof (lookup_node_lt _ _ _ _ _ HI Hrf) as Hlt.
  pose proof (ei_call _ _ _ HI k r Hk) as Hvi. unfold vote_inv in Hvi.
  destruct (body r) as [el args o|args o|args o] eqn:Hbody.
  - inv_ret. destruct v as [reply rf']. inv_ret. destruct Hvi as (Ha & Hci & Hgr & V & HE & Hl).
    assert (CandidateId args <> -1) as Hne by lia.
    destruct (RequestVote_inv _ _ _ _ _ _ _ _ _ HI Hrf Hne Hm) as (B' & HB & HI' & Hg').
    exists B'. split; [done|].
    apply (election_inv_call B' E (put_node s (to r) rf') k r); try done.
    + unfold election_of. by rewrite Hbody.
    + split_and!; simpl; try done; [|by exists V].
      intros rep [= <-] Hv. split; [done|]. rewrite -Ha -Hci. by apply Hg'.
  - inv_ret. destruct v as [reply rf']. inv_ret. exists B. split; [done|].
    apply (election_inv_call B E (put_node s (to r) rf') k r); try done.
    + eapply election_inv_quiet; [exact HI|exact Hrf|]. eapply AppendEntries_quiet; eauto.
    + unfold election_of. by rewrite Hbody.
  - destruct (InstallSnapshot c rf args) as [reply rf'] eqn:Hm. inv_ret. exists B. split; [done|].
    apply (election_inv_call B E (put_node s (to r) rf') k r); try done.
    + eapply election_inv_quiet; [exact HI|exact Hrf|]. eapply InstallSnapshot_quiet; eauto.
    + unfold election_of. by rewrite Hbody.
Qed.

Lemma receive_inv B E s k r c s' :
  election_inv B E s -> calls s !! k = Some r -> live r = true -> receive s k r c = Ret s' ->
  exists E', election_inv B E' s'.
Proof.
  intros HI Hk Hlive Hd. unfold receive, with_node in Hd. simpl in Hd.
  assert (election_inv B E (set_calls s (<[k := retire r]> (calls s)))) as HIr.
  { apply (election_inv_call B E s k r); try done. apply vote_inv_retire. eapply ei_call; eauto. }
  destruct (nodes s !! from r) as [rf|] eqn:Hrf; [|inv_ret; by exists E].
  destruct (body r) as [el args [rep|]|args [rep|]|args [rep|]] eqn:Hbody;
    try (inv_ret; by exists E).
  - destruct (elections s !! el) as [votes|] eqn:Hvotes; [|inv_ret; by exists E].
    inv_ret. destruct v as [[rf' votes'] won]. inv_ret.
    destruct (handleVoteReply_inv _ _ _ _ _ _ _ _ _ _ _ _ _ _ HI Hk Hlive Hbody Hrf Hvotes Hm) as [E' HI'].
    exists E'. destruct won; eapply election_inv_frame; try exact HI'; done.
  - inv_ret. exists E. eapply election_inv_quiet; [exact HIr|exact Hrf|]. eapply handleAppendReply_quiet; eauto.
  - inv_ret. exists E. eapply election_inv_quiet; [exact HIr|exact Hrf|]. eapply handleInstallReply_quiet; eauto.
Qed.

Lemma repl_rpcs_no_election i T cs :
  Forall (fun r => election_of r = None) (repl_rpc (Cmd:=Cmd) i T <$> cs).
Proof. apply Forall_fmap, Forall_true. by intros []. Qed.

Lemma step_election_inv B E s e s' :
  election_inv B E s -> step e s = Ret s' ->
  exists B' E', B ⊆ B' /\ election_inv B' E' s'.
Proof.
  intros HI Hs.
  assert (forall i rf rf', nodes s !! i = Some rf -> quiet rf rf' ->
    exists B' E', B ⊆ B' /\ election_inv B' E' (put_node s i rf')) as Hquiet.
  { intros i rf rf' Hi Hq. exists B, E. split; [done|]. eapply election_inv_quiet; eauto. }
  destruct e; simpl in Hs; unfold with_node in Hs; simpl in Hs;
    try (case_match eqn:Hi; [|by inv_ret; exists B, E]).
  - destruct (electionTick c1 c2 _) as [rf' o] eqn:Htick.
    destruct (electionTick_inv _ _ _ _ _ _ _ _ _ HI Hi Htick) as (B' & HB & HI').
    exists B', E. split; [done|]. inv_ret. destruct o; [|done].
    eapply election_inv_frame; [exact HI'|done..].
  - destruct g as [i term|i term|]; try (inv_ret; by exists B, E).
    case_match eqn:Hn; [|by inv_ret; exists B, E]. inv_ret.
    destruct v as [[votes cs]|].
    + eexists B, _. split; [done|].
      eapply election_inv_frame; [eapply startElection_inv; eauto|done..].
    + exists B, E. split; [done|]. eapply election_inv_frame; [exact HI|done..].
  - destruct g as [i term|i term|]; try (inv_ret; by exists B, E).
    case_match eqn:Hn; [|by inv_ret; exists B, E]. inv_ret.
    destruct v as [[rf' cs]|]; exists B, E; (split; [done|]).
    + apply (election_inv_add_calls B E (put_node s i rf')); [|apply repl_rpcs_no_election].
      eapply election_inv_quiet; [exact HI|exact Hn|]. eapply startReplication_quiet; eauto.
    + eapply election_inv_frame; [exact HI|done..].
  - inv_ret. exists B, E. split; [done|]. apply (election_inv_call B E s k r); [done|done| | |].
    + by destruct (encode_as_spec r entries) as [->|(args & _ & _ & ->)].
    + destruct (encode_as_spec r entries) as [->|(args & Hb & _ & ->)]; [done|]. unfold election_of. by rewrite Hb.
    + apply vote_inv_encode. eapply ei_call; eauto.
  - case_match; [|by inv_ret; exists B, E].
    destruct (deliver_inv _ _ _ _ _ _ _ HI Hi Hs) as (B' & ? & ?). by exists B', E.
  - case_match eqn:Hl; [|by inv_ret; exists B, E]. apply andb_true_iff in Hl as [Hl _].
    destruct (receive_inv _ _ _ _ _ _ _ HI Hi Hl Hs) as (E' & ?). by exists B, E'.
  - inv_ret. exists B, E. split; [done|].
    apply (election_inv_call B E s k r); try done. apply vote_inv_retire. eapply ei_call; eauto.
  - case_match eqn:Hst. inv_ret. eapply Hquiet; [exact Hi|]. eapply Start_quiet; eauto.
  - inv_ret. eapply Hquiet; [exact Hi|]. eapply Snapshot_quiet; eauto.
  - inv_ret. eapply Hquiet; [exact Hi|]. apply applyWait_quiet.
  - inv_ret. eapply Hquiet; [exact Hi|]. eapply applyCollect_quiet; eauto.
  - case_match eqn:Hst. inv_ret.
    destruct (Hquiet i _ _ Hi (applyDeliver_quiet _ _ _ Hst)) as (B' & E' & ? & ?).
    exists B', E'. split; [done|]. eapply election_inv_frame; [eassumption|done..].
  - inv_ret. eapply Hquiet; [exact Hi|]. apply applyFinish_quiet.
  - inv_ret. exists B, E. split; [done|].
    set (rf' := Make _ _ _).
    apply (election_inv_frame B E (set_calls (put_node s i rf') (kill_rpc i <$> calls s))); [|done..].
    apply (election_inv_kill B E (put_node s i rf')). apply election_inv_put; [done|].
    apply restart_inv. eapply ei_node; eauto.
Qed.

Lemma Make_initial i :
  let rf : Raft Cmd := Make n i MakePersister in
  currentTerm rf = 0 /\ votedFor rf = -1 /\ log rf = NewLog 0 0 [] [] /\ commitIndex rf = 0.
Proof. done. Qed.

Lemma init_nodes i rf : nodes (init n : Cluster Cmd) !! i = Some rf -> rf = Make n (Z.of_nat i) MakePersister.
Proof.
  simpl. intros (j & -> & [-> _]%lookup_seq)%list_lookup_fmap_Some. done.
Qed.

Lemma init_election_inv : election_inv ∅ [] (init n).
Proof.
  constructor; try done.
  - simpl. by rewrite length_fmap length_seq.
  - intros i rf ->%init_nodes.
    destruct (Make_frame (Cmd:=Cmd) n (Z.of_nat i) MakePersister) as (Fp & Fm & Fs & Fr & Fn & Fma & _).
    constructor; try done; try congruence.
    + by rewrite Fn length_replicate.
    + by rewrite Fma length_replicate.
Qed.

Lemma steps_election_inv s s' B E :
  election_inv B E s -> rtc step_rel s s' -> exists B' E', B ⊆ B' /\ election_inv B' E' s'.
Proof.
  intros HI Hr. revert B E HI. induction Hr as [s|s1 s2 s3 [e He] _ IH]; intros B E HI.
  - by exists B, E.
  - destruct (step_election_inv _ _ _ _ _ HI He) as (B1 & E1 & HB1 & HI1).
    destruct (IH B1 E1 HI1) as (B2 & E2 & HB2 & HI2). exists B2, E2. split; [by transitivity B1|done].
Qed.

Lemma reachable_election_inv s : reachable n s -> exists B E, election_inv B E s.
Proof.
  intros Hr. destruct (steps_election_inv _ _ _ _ init_election_inv Hr) as (B & E & _ & ?). eauto.
Qed.

Definition is_leader s (i : nat) (T : Z) : Prop :=
  exists rf, nodes s !! i = Some rf /\ role rf = Leader /\ currentTerm rf = T.

Lemma leader_backed B E s i T : election_inv B E s -> is_leader s i T -> backed n B T (Z.of_nat i).
Proof.
  intros HI (rf & Hrf & Hr & <-). destruct (ei_node _ _ _ HI _ _ Hrf) as [<- _ _ _ _ _ _ _ Hl]. auto.
Qed.
End election.

(** ** Theorems *)

Section theorems.
Context {Cmd : Type} `{!GobStream (gobval Cmd)}.

Lemma one_leader_per_term (n : nat) (s s' : Cluster Cmd) (i j : nat) (T : Z) :
  reachable n s -> rtc step_rel s s' ->
  is_leader s i T -> is_leader s' j T -> i = j.
Proof.
  intros (B & E & HI)%reachable_election_inv Hr Hi Hj.
  destruct (steps_election_inv _ _ _ _ _ HI Hr) as (B' & E' & HB & HI').
  assert (Z.of_nat i = Z.of_nat j) as ?%Nat2Z.inj; [|done].
  eapply (backed_unique n B' T).
  - eapply backed_mono; [exact HB|]. eapply leader_backed; eauto.
  - eapply leader_backed; eauto.
Qed.

(** C1. Election Safety, across time and crashes: if peer [i] is leader of term
    [T] in a reachable state and peer [j] is leader of [T] in that state or in
    any later one, then [i = j]. *)
Theorem election_safety (n : nat) (s s' : Cluster Cmd) (i j : nat) (T : Z) :
  reachable n s -> rtc step_rel s s' ->
  is_leader s i T -> is_leader s' j T -> i = j.
Proof. apply one_leader_per_term. Qed.

(** C5. Durability: in every reachable state, what a crashed peer reads back
    from its persister is its current term, its vote and its log. *)
Theorem restart_recovers (n : nat) (s : Cluster Cmd) (i : nat) (rf : Raft Cmd) :
  reachable n s -> nodes s !! i = Some rf ->
  let rf' := Make (peers rf) (me rf) (persister rf) in
  currentTerm rf' = currentTerm rf /\ votedFor rf' = votedFor rf /\ log rf' = log rf.
Proof.
  intros (B & E & HI)%reachable_election_inv Hi. exact (ni_durable _ _ _ _ (ei_node _ _ _ _ HI i rf Hi)).
Qed.
End theorems.

(** ** The term of a peer never decreases *)

Section terms.
Context {Cmd : Type} `{!GobStream (gobval Cmd)} (n : nat).
Implicit Types (s : Cluster Cmd).

Definition term_le s s' : Prop :=
  forall i rf', nodes s' !! i = Some rf' -> exists rf, nodes s !! i = Some rf /\ currentTerm rf <= currentTerm rf'.

Lemma term_le_same s s' : nodes s' = nodes s -> term_le s s'.
Proof. intros E i rf' Hi. rewrite E in Hi. exists rf'. split; [done|lia]. Qed.

Lemma term_le_put s s' i rf rf' :
  nodes s !! i = Some rf -> currentTerm rf <= currentTerm rf' -> nodes s' = <[i := rf']> (nodes s) -> term_le s s'.
Proof.
  intros Hi Ht E j rfj Hj. rewrite E in Hj. apply list_lookup_insert_Some in Hj as [(-> & <- & _)|(Hne & Hj)]; [by exists rf|].
  exists rfj. split; [done|lia].
Qed.

Lemma quiet_term (rf rf' : Raft Cmd) : quiet rf rf' -> currentTerm rf <= currentTerm rf'.
Proof. intros [_ _ _ [[-> _]|[? _]] _ _ _]; lia. Qed.

Lemma deliver_terms s k r c s' : deliver s k r c = Ret s' -> term_le s s'.
Proof.
  intros Hd. unfold deliver, with_node in Hd. destruct (nodes s !! to r) as [rf|] eqn:Hrf; [|inv_ret; by apply term_le_same].
  destruct (body r) as [el args o|args o|args o].
  - inv_ret. destruct v as [reply rf']. inv_ret. apply (term_le_put s _ (to r) rf rf' Hrf); [|done].
    apply RequestVote_spec in Hm as (rf1 & Hq%quiet_term & _ & _ & _ & _ & _ & [[_ ->]|(_ & _ & _ & _ & -> & _)]); done.
  - inv_ret. destruct v as [reply rf']. inv_ret. apply (term_le_put s _ (to r) rf rf' Hrf); [|done].
    exact (quiet_term _ _ (AppendEntries_quiet _ _ _ _ _ Hm)).
  - destruct (InstallSnapshot c rf args) as [reply rf'] eqn:Hm. inv_ret. apply (term_le_put s _ (to r) rf rf' Hrf); [|done].
    exact (quiet_term _ _ (InstallSnapshot_quiet _ _ _ _ _ Hm)).
Qed.

Lemma receive_terms B E s k r c s' : election_inv n B E s -> receive s k r c = Ret s' -> term_le s s'.
Proof.
  intros HI Hd. unfold receive, with_node in Hd. simpl in Hd.
  destruct (nodes s !! from r) as [rf|] eqn:Hrf; [|inv_ret; by apply term_le_same].
  destruct (body r) as [el args [rep|]|args [rep|]|args [rep|]]; try (inv_ret; by apply term_le_same).
  - destruct (elections s !! el) as [votes|]; [|inv_ret; by apply term_le_same].
    inv_ret. destruct v as [[rf' votes'] won]. inv_ret. destruct (ei_node _ _ _ _ HI _ _ Hrf) as [_ Hp _ Hnx Hmt _ _ _ _].
    apply (term_le_put s _ (from r) rf rf' Hrf); [|by destruct won].
    apply handleVoteReply_spec in Hm; [|congruence..]. destruct Hm as [[Hq%quiet_term _]|H']; [done|].
    destruct H' as (_ & _ & _ & _ & _ & _ & _ & -> & _). lia.
  - inv_ret. apply (term_le_put s _ (from r) rf v Hrf); [|done]. exact (quiet_term _ _ (handleAppendReply_quiet _ _ _ _ _ _ _ Hm)).
  - inv_ret. apply (term_le_put s _ (from r) rf v Hrf); [|done]. exact (quiet_term _ _ (handleInstallReply_quiet _ _ _ _ _ _ _ Hm)).
Qed.

Lemma step_terms B E s e s' : election_inv n B E s -> step e s = Ret s' -> term_le s s'.
Proof.
  intros HI Hs.
  destruct e; simpl in Hs; unfold with_node in Hs; simpl in Hs;
    try (case_match eqn:Hi; [|by inv_ret; apply term_le_same]).
  - destruct (electionTick c1 c2 _) as [rf' o] eqn:Htick. inv_ret. apply electionTick_spec in Htick.
    eapply term_le_put; [exact Hi| |by destruct o]. destruct Htick as [[_ ->]|(_ & _ & _ & -> & _)]; lia.
  - destruct g as [i term|i term|]; try (inv_ret; by apply term_le_same).
    case_match eqn:Hn; [|by inv_ret; apply term_le_same]. inv_ret. destruct v as [[votes cs]|]; by apply term_le_same.
  - destruct g as [i term|i term|]; try (inv_ret; by apply term_le_same).
    case_match eqn:Hn; [|by inv_ret; apply term_le_same]. inv_ret. destruct v as [[rf' cs]|]; [|by apply term_le_same].
    eapply term_le_put; [exact Hn| |done]. exact (quiet_term _ _ (startReplication_quiet _ _ _ _ Hm)).
  - inv_ret. by apply term_le_same.
  - case_match; [|by inv_ret; apply term_le_same]. exact (deliver_terms _ _ _ _ _ Hs).
  - case_match; [|by inv_ret; apply term_le_same]. exact (receive_terms _ _ _ _ _ _ _ HI Hs).
  - inv_ret. by apply term_le_same.
  - case_match eqn:Hst. inv_ret. eapply term_le_put; [exact Hi| |done]. exact (quiet_term _ _ (Start_quiet _ _ _ _ Hst)).
  - inv_ret. eapply term_le_put; [exact Hi| |done]. exact (quiet_term _ _ (Snapshot_quiet _ _ _ _ Hm)).
  - inv_ret. eapply term_le_put; [exact Hi| |done]. exact (quiet_term _ _ (applyWait_quiet _)).
  - inv_ret. eapply term_le_put; [exact Hi| |done]. exact (quiet_term _ _ (applyCollect_quiet _ _ Hm)).
  - case_match eqn:Hst. inv_ret. eapply term_le_put; [exact Hi| |done]. exact (quiet_term _ _ (applyDeliver_quiet _ _ _ Hst)).
  - inv_ret. eapply term_le_put; [exact Hi| |done]. exact (quiet_term _ _ (applyFinish_quiet _)).
  - inv_ret. eapply term_le_put; [exact Hi| |done]. destruct (ei_node _ _ _ _ HI _ _ Hi) as [_ _ [Hd _] _ _ _ _ _ _].
    match goal with |- currentTerm ?r <= _ => assert (Copy (persister r) = persister r) as -> by by destruct (persister r) end.
    rewrite Hd. lia.
Qed.

Lemma steps_terms s s' B E : election_inv n B E s -> rtc step_rel s s' -> term_le s s'.
Proof.
  intros HI Hr. revert B E HI. induction Hr as [s|s1 s2 s3 [e He] _ IH]; intros B E HI; [by apply term_le_same|].
  destruct (step_election_inv _ _ _ _ _ _ HI He) as (B1 & E1 & _ & HI1). intros i rf3 H3.
  destruct (IH B1 E1 HI1 i rf3 H3) as (rf2 & H2 & Ht2). destruct (step_terms _ _ _ _ _ HI He i rf2 H2) as (rf1 & H1 & Ht1).
  exists rf1. split; [done|lia].
Qed.

Lemma reachable_terms s i rf : reachable n s -> nodes s !! i = Some rf -> 0 <= currentTerm rf.
Proof.
  intros Hr Hi. destruct (steps_terms _ _ _ _ (init_election_inv n) Hr i rf Hi) as (rf0 & H0%init_nodes & Ht).
  subst rf0. exact Ht.
Qed.
End terms.
