(* ===== verification/RaftMatching.v ===== *)
(** * RaftMatching: the Log Matching property

    A history variable [C] records, for every index and term at which a leader
    has created an entry, that entry and the term of its predecessor.  Every
    log and every AppendEntries message in flight is a path in [C]; a leader
    only creates entries above all those it created before in its term, so [C]
    is a function.  Two paths that meet at an index with one term therefore
    coincide below it.  Snapshots cut paths at the front: the dummy entry of a
    log keeps the term needed to continue.

    This needs that a request is encoded with the entries [log.tail] returned
    ([prompt]): RaftAlias.v says when that is so and what happens otherwise. *)

From S2P Require Import Prelude LabGob RaftLog Persister RaftNode RaftNodeFacts RaftNet RaftElection.
Local Open Scope Z_scope.

Section paths.
Context {Cmd : Type}.
Notation creations := (gmap (Z * Z) (LogEntry Cmd * Z)).
Implicit Types (C : creations) (rl : RaftLog Cmd) (es : list (LogEntry Cmd)).

Definition log_path C rl : Prop := forall i e e',
  lookup_log rl i = Some e -> lookup_log rl (i + 1) = Some e' ->
  C !! (i + 1, Term e') = Some (e', Term e).

Lemma log_path_mono C C' rl : C ⊆ C' -> log_path C rl -> log_path C' rl.
Proof. intros HC HP i e e' H1 H2. eapply lookup_weaken; [|exact HC]. by apply HP. Qed.

(** A log that forgot a prefix, keeping the term at the cut. *)
Definition trimmed rl' rl : Prop := forall i e',
  lookup_log rl' i = Some e' ->
  exists e, lookup_log rl i = Some e /\ Term e = Term e' /\ (snapLastIdx rl' < i -> e = e').

Lemma log_path_trimmed C rl rl' : trimmed rl' rl -> log_path C rl -> log_path C rl'.
Proof.
  intros Ht HP i e e' H1 H2.
  destruct (Ht _ _ H1) as (e1 & L1 & <- & _). destruct (Ht _ _ H2) as (e2 & L2 & _ & He2).
  apply lookup_log_range in H1. rewrite He2 in L2; [lia|]. by apply HP.
Qed.

Lemma lookup_NewLog p t s es i :
  lookup_log (NewLog p t s es) i =
  if bool_decide (i = p) then Some (dummyEntry t)
  else if bool_decide (p < i) then es !! Z.to_nat (i - p - 1) else None.
Proof.
  unfold lookup_log, NewLog. simpl. repeat case_bool_decide; try lia; try done.
  - by replace (Z.to_nat (i - p)) with 0%nat by lia.
  - by replace (Z.to_nat (i - p)) with (S (Z.to_nat (i - p - 1))) by lia.
Qed.

Lemma trimmed_tail rl p e s :
  lookup_log rl p = Some e ->
  trimmed (NewLog p (Term e) s (drop (Z.to_nat (p + 1 - snapLastIdx rl)) (tailLog rl))) rl.
Proof.
  intros He i e'. rewrite lookup_NewLog. repeat case_bool_decide; intros Hi; simplify_eq.
  - exists e. split_and!; [done|done|]. simpl. lia.
  - exists e'. split_and!; [|done|done]. rewrite lookup_drop in Hi.
    apply lookup_log_range in He. unfold lookup_log. rewrite bool_decide_true; [lia|].
    rewrite -Hi. f_equal. lia.
Qed.

Lemma lookup_appendFrom rl p t es rl' :
  appendFrom rl p es = Ret rl' -> forall i,
  lookup_log rl' i =
  if bool_decide (i <= p) then lookup_log rl i else lookup_log (NewLog p t [] es) i.
Proof.
  intros Ha i. pose proof (size_appendFrom _ _ _ _ Ha) as Hs.
  apply appendFrom_tail in Ha as [Hp ->]. rewrite lookup_NewLog.
  unfold lookup_log, log_size in *. simpl in *.
  repeat case_bool_decide; try lia; try done.
  - rewrite lookup_app_l; [rewrite length_take; unfold len in *; lia|].
    rewrite lookup_take_lt //. lia.
  - rewrite lookup_app_r; [rewrite length_take; unfold len in *; lia|].
    f_equal. rewrite length_take. unfold len in *. lia.
Qed.

Lemma log_path_appendFrom C rl p e es rl' :
  log_path C rl -> lookup_log rl p = Some e -> log_path C (NewLog p (Term e) [] es) ->
  appendFrom rl p es = Ret rl' -> log_path C rl'.
Proof.
  intros HP He HM Ha i e1 e2.
  rewrite !(lookup_appendFrom _ _ (Term e) _ _ Ha). intros H1 H2.
  case_bool_decide; case_bool_decide; try lia.
  - by apply HP.
  - assert (i = p) as -> by lia. rewrite He in H1. injection H1 as <-.
    apply (HM p (dummyEntry (Term e)) e2); [|done].
    rewrite lookup_NewLog. by rewrite bool_decide_true.
  - by apply HM.
Qed.

Lemma log_path_append C rl e el :
  log_wf rl -> log_path C rl -> lookup_log rl (log_size rl - 1) = Some el ->
  C !! (log_size rl, Term e) = None ->
  log_path (<[(log_size rl, Term e) := (e, Term el)]> C) (log_append rl e).
Proof.
  intros Hwf HP Hl Hn i e1 e2. rewrite !lookup_log_append //.
  repeat case_bool_decide; intros H1 H2; simplify_eq.
  - lia.
  - apply lookup_log_range in H2. lia.
  - replace i with (log_size rl - 1) in * by lia. simplify_eq.
    replace (log_size rl - 1 + 1) with (log_size rl) by lia. by rewrite lookup_insert_eq.
  - pose proof (HP _ _ _ H1 H2) as Hc. rewrite lookup_insert_ne //.
    intros [= ? ?]. congruence.
Qed.

Lemma log_path_install C rl i t s : log_path C (log_installSnapshot rl i t s).
Proof.
  intros j e e' H1%lookup_log_range H2%lookup_log_range.
  unfold log_size, log_installSnapshot in *. simpl in *.
  rewrite len_cons len_nil in H1, H2. lia.
Qed.

Lemma log_path_doSnapshot C rl k s rl' :
  log_path C rl -> doSnapshot rl k s = Ret rl' -> log_path C rl'.
Proof.
  intros HP (e & He & ->)%doSnapshot_tail. eapply log_path_trimmed; [|exact HP].
  replace (k - snapLastIdx rl + 1) with (k + 1 - snapLastIdx rl) by lia.
  apply (trimmed_tail rl k e s He).
Qed.

(** Paths of one function that meet coincide below. *)
Lemma paths_agree C rl1 rl2 i e1 e2 :
  log_path C rl1 -> log_path C rl2 ->
  lookup_log rl1 i = Some e1 -> lookup_log rl2 i = Some e2 -> Term e1 = Term e2 ->
  forall j d1 d2, j <= i -> lookup_log rl1 j = Some d1 -> lookup_log rl2 j = Some d2 ->
  Term d1 = Term d2 /\ (snapLastIdx rl1 < j -> snapLastIdx rl2 < j -> d1 = d2).
Proof.
  intros P1 P2 H1 H2 Ht j d1 d2 Hj. remember (Z.to_nat (i - j)) as k eqn:Hk.
  revert i e1 e2 H1 H2 Ht Hj Hk. induction k as [|k IH]; intros i e1 e2 H1 H2 Ht Hj Hk L1 L2.
  - assert (i = j) as -> by lia. rewrite L1 in H1. rewrite L2 in H2. injection H1 as <-.
    injection H2 as <-. split; [done|]. intros S1 S2.
    pose proof (lookup_log_range _ _ _ L1). pose proof (lookup_log_range _ _ _ L2).
    destruct (proj2 (lookup_log_is_Some rl1 (j - 1))) as [p1 Hp1]; [lia|].
    destruct (proj2 (lookup_log_is_Some rl2 (j - 1))) as [p2 Hp2]; [lia|].
    replace j with (j - 1 + 1) in L1, L2 by lia.
    pose proof (P1 _ _ _ Hp1 L1) as Q1. pose proof (P2 _ _ _ Hp2 L2) as Q2.
    rewrite Ht Q2 in Q1. congruence.
  - pose proof (lookup_log_range _ _ _ L1). pose proof (lookup_log_range _ _ _ L2).
    pose proof (lookup_log_range _ _ _ H1). pose proof (lookup_log_range _ _ _ H2).
    destruct (proj2 (lookup_log_is_Some rl1 (i - 1))) as [p1 Hp1]; [lia|].
    destruct (proj2 (lookup_log_is_Some rl2 (i - 1))) as [p2 Hp2]; [lia|].
    replace i with (i - 1 + 1) in H1, H2 by lia.
    pose proof (P1 _ _ _ Hp1 H1) as Q1. pose proof (P2 _ _ _ Hp2 H2) as Q2.
    rewrite Ht Q2 in Q1. injection Q1 as _ Htp.
    eapply (IH (i - 1) p1 p2); try done; try lia.
Qed.
End paths.

(** ** What the critical sections do to the log *)

Section logs.
Context {Cmd : Type} `{!GobStream (gobval Cmd)}.
Implicit Types rf : Raft Cmd.

Lemma becomeFollower_log c rf t : log (becomeFollowerLocked c rf t) = log rf.
Proof. unfold becomeFollowerLocked. by repeat case_bool_decide. Qed.

Lemma becomeFollower_role c rf t :
  currentTerm rf <= t -> role (becomeFollowerLocked c rf t) = Follower.
Proof. intros H. by apply becomeFollower_spec. Qed.

Lemma Signal_log rf : log (Signal rf) = log rf.
Proof. unfold Signal. by destruct (applier rf). Qed.

Lemma Signal_role rf : role (Signal rf) = role rf.
Proof. unfold Signal. by destruct (applier rf). Qed.

Lemma AppendEntries_log c rf args reply rf' :
  AppendEntries c rf args = Ret (reply, rf') ->
  (rf' = rf) \/ (role rf' = Follower /\ (log rf' = log rf \/
    exists e, lookup_log (log rf) (PrevLogIndex args) = Some e /\ Term e = PrevLogTerm args /\
      appendFrom (log rf) (PrevLogIndex args) (Entries args) = Ret (log rf'))).
Proof.
  unfold AppendEntries. intros H.
  destruct (decide (ae_Term args < currentTerm rf)) as [Hlt|Hge].
  { rewrite bool_decide_true // in H. inv_ret. by left. }
  rewrite bool_decide_false // (bool_decide_true (ae_Term args >= _)) in H; [lia|]. right.
  pose proof (becomeFollower_log c rf (ae_Term args)) as Hl.
  pose proof (becomeFollower_role c rf (ae_Term args) ltac:(lia)) as Hr.
  set (rf1 := becomeFollowerLocked c rf (ae_Term args)) in *. clearbody rf1. rewrite Hl in H.
  repeat (case_bool_decide || inv_ret); simpl; auto.
  all: rewrite ?Signal_role ?Signal_log; split; [done|]; right; exists v;
    (split_and!; [by apply at_ret|lia|done]).
Qed.

Lemma InstallSnapshot_log c rf args reply rf' :
  InstallSnapshot c rf args = (reply, rf') ->
  rf' = rf \/ (role rf' = Follower /\ (log rf' = log rf \/
    log rf' = log_installSnapshot (log rf) (LastIncludedIndex args) (LastIncludedTerm args)
                (is_Snapshot args))).
Proof.
  unfold InstallSnapshot. intros H.
  destruct (decide (is_Term args < currentTerm rf)) as [Hlt|Hge].
  { rewrite bool_decide_true // in H. simplify_eq. by left. }
  rewrite bool_decide_false // (bool_decide_true (is_Term args >= _)) in H; [lia|]. right.
  pose proof (becomeFollower_log c rf (is_Term args)) as Hl.
  pose proof (becomeFollower_role c rf (is_Term args) ltac:(lia)) as Hr.
  set (rf1 := becomeFollowerLocked c rf (is_Term args)) in *. clearbody rf1.
  case_bool_decide; simplify_eq; [by auto|].
  rewrite Signal_role Signal_log. simpl. auto.
Qed.

Lemma handleAppendReply_log c rf peer term args reply rf' :
  handleAppendReply c rf peer term args reply = Ret rf' -> log rf' = log rf.
Proof.
  unfold handleAppendReply. intros H.
  repeat (case_bool_decide || case_match || inv_ret);
    rewrite ?Signal_log ?becomeFollower_log; done.
Qed.

Lemma handleInstallReply_log c rf peer term args reply rf' :
  handleInstallReply c rf peer term args reply = Ret rf' -> log rf' = log rf.
Proof.
  unfold handleInstallReply. intros H.
  repeat (case_bool_decide || case_match || inv_ret);
    rewrite ?Signal_log ?becomeFollower_log; done.
Qed.

Lemma applyCollect_log rf rf' : applyCollect rf = Ret rf' -> log rf' = log rf.
Proof.
  unfold applyCollect. intros H. by repeat (case_match || case_bool_decide || inv_ret).
Qed.

Lemma applyDeliver_log rf ms rf' : applyDeliver rf = (ms, rf') -> log rf' = log rf.
Proof. unfold applyDeliver. intros H. by destruct (applier rf); simplify_eq. Qed.

Lemma applyFinish_log rf : log (applyFinish rf) = log rf.
Proof. unfold applyFinish. destruct (applier rf); try done. by case_bool_decide. Qed.

Lemma applyWait_log rf : log (applyWait rf) = log rf.
Proof. unfold applyWait. by destruct (applier rf). Qed.

Lemma Start_log rf cmd r rf' :
  Start rf cmd = (r, rf') ->
  rf' = rf \/ (role rf = Leader /\ log rf' = log_append (log rf) (mkLogEntry (currentTerm rf) true cmd)).
Proof.
  unfold Start. intros H. case_bool_decide as Hr; simplify_eq; [by left|right].
  split; [by apply dec_stable|done].
Qed.

Lemma Snapshot_log rf index snap rf' :
  Snapshot rf index snap = Ret rf' ->
  rf' = rf \/ (doSnapshot (log rf) index snap = Ret (log rf') /\ index <= commitIndex rf' /\
               index = snapLastIdx (log rf')).
Proof.
  unfold Snapshot. intros H. repeat (case_bool_decide || inv_ret); auto. right.
  simpl. split_and!; [done|lia|]. by apply doSnapshot_tail in Hm as (e & _ & ->).
Qed.

(** The messages of a leader are suffixes of its log. *)
Definition call_of_log rf (rc : ReplCall Cmd) : Prop :=
  match rc with
  | CallAppend peer args =>
      snapLastIdx (log rf) <= PrevLogIndex args /\
      exists e, lookup_log (log rf) (PrevLogIndex args) = Some e /\ Term e = PrevLogTerm args /\
        Entries args = drop (Z.to_nat (PrevLogIndex args + 1 - snapLastIdx (log rf))) (tailLog (log rf))
  | CallInstall peer args => LastIncludedIndex args = snapLastIdx (log rf)
  end.

Lemma startReplication_log rf term rf' cs :
  startReplication rf term = Ret (Some (rf', cs)) ->
  role rf = Leader /\ currentTerm rf = term /\ log rf' = log rf /\ Forall (call_of_log rf) cs.
Proof.
  unfold startReplication. intros H. case_match eqn:Hctx; inv_ret.
  apply contextLost_false in Hctx as [Hr Ht]. split_and!; [done|done|..].
  all: apply (for_range_post (fun _ p => log p.1 = log rf /\ Forall (call_of_log rf) p.2)) in Hm;
    [naive_solver|done|].
  all: intros j [rf1 cs1] [rf2 cs2] _ [Hl Hcs] Hb; simpl in *.
  all: repeat (case_bool_decide || inv_ret); simplify_eq/=; split; try done.
  all: apply Forall_app; split; [done|]; apply Forall_singleton; simpl; rewrite ?Hl; try done.
  all: rewrite Hl in Hm1 Hm2; apply at_ret in Hm1; pose proof (lookup_log_range _ _ _ Hm1);
    (split; [lia|]); exists v0; split_and!; [done|done|].
  all: rewrite log_tail_ret in Hm2; [lia|]; by inv_ret.
Qed.
End logs.

(** ** Well-formed logs *)

Section shape.
Context {Cmd : Type} `{!GobStream (gobval Cmd)} (n : nat).
Implicit Types (s : Cluster Cmd) (rf : Raft Cmd).

(** The logs are well-formed, whatever the entries of a request are when it is
    encoded. *)
Definition call_shape (r : RPC Cmd) : Prop :=
  match body r with InstallCall args _ => 0 <= LastIncludedIndex args | _ => True end.

Record shape_inv s : Prop := {
  sh_wf i rf : nodes s !! i = Some rf -> log_wf (log rf);
  sh_call k r : calls s !! k = Some r -> call_shape r;
}.

Lemma shape_put s i rf' : shape_inv s -> log_wf (log rf') -> shape_inv (put_node s i rf').
Proof.
  intros [Hw Hc] Hw'. constructor; simpl; [|done].
  intros j rf0 [(<- & <- & _)|[? ?]]%list_lookup_insert_Some; eauto.
Qed.

Lemma shape_samelog s i rf rf' : shape_inv s -> nodes s !! i = Some rf -> log rf' = log rf -> shape_inv (put_node s i rf').
Proof. intros HS Hi Hl. apply shape_put; [done|]. rewrite Hl. by apply (sh_wf _ HS i). Qed.

Lemma shape_frame s s' : shape_inv s -> nodes s' = nodes s -> (forall k r, calls s' !! k = Some r -> call_shape r) -> shape_inv s'.
Proof. intros [Hw Hc] Hn Hc'. constructor; [by rewrite Hn|done]. Qed.

Lemma shape_call s k r r' : shape_inv s -> calls s !! k = Some r -> (call_shape r -> call_shape r') ->
  shape_inv (set_calls s (<[k := r']> (calls s))).
Proof.
  intros HS Hk Hr. apply (shape_frame s); [done|done|]. simpl.
  intros k0 r0 [(<- & <- & _)|[? ?]]%list_lookup_insert_Some; [apply Hr; exact (sh_call _ HS _ _ Hk)|exact (sh_call _ HS k0 r0 ltac:(done))].
Qed.

Lemma deliver_shape s k r c s' : shape_inv s -> calls s !! k = Some r -> deliver s k r c = Ret s' -> shape_inv s'.
Proof.
  intros HS Hk Hd. unfold deliver, with_node in Hd. destruct (nodes s !! to r) as [rf|] eqn:Hrf; [|by inv_ret].
  pose proof (sh_call _ HS k r Hk) as Hcs. pose proof (sh_wf _ HS _ _ Hrf) as Hwf. unfold call_shape in Hcs.
  assert (forall b rf', (forall args o, b = InstallCall args o -> 0 <= LastIncludedIndex args) -> log_wf (log rf') ->
    shape_inv (set_calls (put_node s (to r) rf') (<[k := set_body r b false]> (calls s)))) as Hset.
  { intros b rf' Hb Hw. apply (shape_call (put_node s (to r) rf') k r); [by apply shape_put|done|].
    intros _. unfold call_shape. simpl. destruct b; try done. exact (Hb _ _ eq_refl). }
  destruct (body r) as [el args o|args o|args o] eqn:Hbody.
  - inv_ret. destruct v as [reply rf']. inv_ret. apply Hset; [done|].
    pose proof (RequestVote_spec _ _ _ _ _ Hm) as (rf1 & _ & _ & Hl & _). by rewrite Hl.
  - inv_ret. destruct v as [reply rf']. inv_ret. apply Hset; [done|].
    apply AppendEntries_log in Hm as [->|[Hr [Hl|(e & He & Ht & Ha)]]]; [done|by rewrite Hl|exact (appendFrom_wf _ _ _ _ Hwf Ha)].
  - destruct (InstallSnapshot c rf args) as [reply rf'] eqn:Hm. inv_ret. apply Hset; [by intros ? ? [= <- <-]|].
    apply InstallSnapshot_log in Hm as [->|[Hr [Hl|Hl]]]; [done|by rewrite Hl|by rewrite Hl].
Qed.

Lemma handleVoteReply_samelog c rf term votes reply rf' votes' won :
  handleVoteReply c rf term votes reply = Ret (rf', votes', won) ->
  length (nextIndex rf) = peers rf -> length (matchIndex rf) = peers rf -> log rf' = log rf.
Proof. intros Hh Hn Hm. apply handleVoteReply_spec in Hh; naive_solver. Qed.

Lemma receive_shape B E s k r c s' :
  election_inv n B E s -> shape_inv s -> calls s !! k = Some r -> receive s k r c = Ret s' -> shape_inv s'.
Proof.
  intros HI HS Hk Hd. unfold receive, with_node in Hd. simpl in Hd.
  assert (shape_inv (set_calls s (<[k := retire r]> (calls s)))) as HSr by by apply (shape_call s k r).
  destruct (nodes s !! from r) as [rf|] eqn:Hrf; [|by inv_ret].
  destruct (ei_node _ _ _ _ HI _ _ Hrf) as [_ Hpe _ Hnx Hmt _ _ _ _].
  destruct (body r) as [el args [rep|]|args [rep|]|args [rep|]] eqn:Hbody; try by inv_ret.
  - destruct (elections s !! el) as [votes|]; [|by inv_ret].
    inv_ret. destruct v as [[rf' votes'] won]. inv_ret.
    assert (log rf' = log rf) as Hl by (eapply handleVoteReply_samelog; eauto; congruence).
    pose proof (shape_samelog _ (from r) rf rf' HSr Hrf Hl) as HS'.
    destruct won; eapply shape_frame; try exact HS'; try done; apply (sh_call _ HS').
  - inv_ret. eapply shape_samelog; eauto using handleAppendReply_log.
  - inv_ret. eapply shape_samelog; eauto using handleInstallReply_log.
Qed.

Lemma step_shape B E s e s' : election_inv n B E s -> shape_inv s -> step e s = Ret s' -> shape_inv s'.
Proof.
  intros HI HS Hs. destruct e; simpl in Hs; unfold with_node in Hs; simpl in Hs; try (case_match eqn:Hi; [|by inv_ret]).
  - destruct (electionTick c1 c2 _) as [rf' o] eqn:Htick. inv_ret.
    assert (shape_inv (put_node s i rf')) as HS'.
    { apply (shape_samelog s i _ _ HS Hi). by apply electionTick_spec in Htick as [[_ ->]|(_ & _ & _ & _ & _ & _ & _ & _ & ? & _)]. }
    destruct o; [|done]. eapply shape_frame; [exact HS'|done|]. apply (sh_call _ HS').
  - destruct g as [i term|i term|]; try (by inv_ret). case_match eqn:Hn; [|by inv_ret]. inv_ret.
    destruct v as [[votes cs]|]; eapply shape_frame; try exact HS; try done; simpl; [|apply (sh_call _ HS)].
    intros k0 r0 [?|[_ (pc & -> & _)%list_lookup_fmap_Some]]%lookup_app_Some; [eapply (sh_call _ HS); eauto|done].
  - destruct g as [i term|i term|]; try (by inv_ret). case_match eqn:Hn; [|by inv_ret]. inv_ret.
    destruct v as [[rf' cs]|]; [|eapply shape_frame; [exact HS|done|apply (sh_call _ HS)]].
    apply startReplication_log in Hm as (_ & _ & Hl & Hcs).
    eapply shape_frame; [exact (shape_samelog s i _ _ HS Hn Hl)|done|]. simpl.
    intros k0 r0 [?|[_ (rc & -> & Hrc)%list_lookup_fmap_Some]]%lookup_app_Some; [eapply (sh_call _ HS); eauto|].
    pose proof (Forall_lookup_1 _ _ _ _ Hcs Hrc) as Hrc'. destruct rc as [peer args|peer args]; [done|].
    simpl in Hrc'. unfold call_shape. simpl. rewrite Hrc'. by destruct (sh_wf _ HS _ _ Hn).
  - inv_ret. apply (shape_call s k r); [done|done|]. unfold call_shape.
    by destruct (encode_as_spec r entries) as [->|(args & _ & _ & ->)].
  - case_match; [|by inv_ret]. eapply deliver_shape; eauto.
  - case_match; [|by inv_ret]. eapply receive_shape; eauto.
  - inv_ret. by apply (shape_call s k r).
  - case_match eqn:Hst. inv_ret. apply shape_put; [done|]. pose proof (sh_wf _ HS _ _ Hi) as Hw.
    destruct (Start_log _ _ _ _ Hst) as [->|[_ ->]]; [done|by apply append_wf].
  - inv_ret. apply shape_put; [done|]. pose proof (sh_wf _ HS _ _ Hi) as Hw.
    apply Snapshot_log in Hm as [->|(Hd & _)]; [done|exact (doSnapshot_wf _ _ _ _ Hw Hd)].
  - inv_ret. eapply shape_samelog; [exact HS|exact Hi|apply applyWait_log].
  - inv_ret. eapply shape_samelog; [exact HS|exact Hi|exact (applyCollect_log _ _ Hm)].
  - case_match eqn:Hst. inv_ret. pose proof (shape_samelog s i _ _ HS Hi (applyDeliver_log _ _ _ Hst)) as HS'.
    eapply shape_frame; [exact HS'|done|apply (sh_call _ HS')].
  - inv_ret. eapply shape_samelog; [exact HS|exact Hi|apply applyFinish_log].
  - inv_ret. match goal with |- context [Make (peers ?x) _ _] => rename x into rf end.
    assert (Copy (persister rf) = persister rf) as -> by by destruct (persister rf).
    destruct (ni_durable _ _ _ _ (ei_node _ _ _ _ HI _ _ Hi)) as (_ & _ & Dl).
    eapply shape_frame; [exact (shape_samelog s i _ _ HS Hi Dl)|done|]. simpl.
    intros k0 r0 (r1 & -> & Hr1)%list_lookup_fmap_Some. unfold kill_rpc.
    case_bool_decide; exact (sh_call _ HS k0 r1 Hr1).
Qed.

Lemma init_shape : shape_inv (init n).
Proof. constructor; [|done]. by intros i rf ->%init_nodes. Qed.

Lemma reachable_shape s : reachable n s -> exists B E, election_inv n B E s /\ shape_inv s.
Proof.
  revert s. apply (rtc_ind_r (fun s => exists B E, election_inv n B E s /\ shape_inv s) (init n)).
  - exists ∅, []. split; [apply init_election_inv|apply init_shape].
  - intros s1 s2 _ [e He] (B & E & HI & HS). destruct (step_election_inv _ _ _ _ _ _ HI He) as (B' & E' & _ & HI').
    exists B', E'. split; [done|]. exact (step_shape _ _ _ _ _ HI HS He).
Qed.
End shape.

(** ** The invariant *)

Section matching.
Context {Cmd : Type} `{!GobStream (gobval Cmd)} (n : nat).
Notation creations := (gmap (Z * Z) (LogEntry Cmd * Z)).
Implicit Types (s : Cluster Cmd) (rf : Raft Cmd) (B : ballots) (C : creations).

(** Peer [rf] led term [T] when the entry at index [i] was created. *)
Definition created_by (i T : Z) rf : Prop :=
  T < currentTerm rf \/
  (currentTerm rf = T /\ role rf <> Candidate /\ (role rf = Leader -> i < log_size (log rf))).

Definition call_path C (b : CallBody Cmd) : Prop :=
  match b with
  | AppendCall args _ =>
      log_path C (NewLog (PrevLogIndex args) (PrevLogTerm args) [] (Entries args))
  | InstallCall args _ => 0 <= LastIncludedIndex args
  | VoteCall _ _ _ => True
  end.

Record matching_inv B C s : Prop := {
  mi_wf i rf : nodes s !! i = Some rf -> log_wf (log rf);
  mi_path i rf : nodes s !! i = Some rf -> log_path C (log rf);
  mi_call k r : calls s !! k = Some r -> call_path C (body r);
  mi_created i T x : C !! (i, T) = Some x ->
    exists l rf, nodes s !! l = Some rf /\ backed n B T (Z.of_nat l) /\ created_by i T rf;
}.

Lemma call_path_mono C C' b : C ⊆ C' -> call_path C b -> call_path C' b.
Proof. intros HC. destruct b; simpl; try done. by apply log_path_mono. Qed.

Lemma matching_inv_ballots B B' C s : B ⊆ B' -> matching_inv B C s -> matching_inv B' C s.
Proof.
  intros HB [? ? ? Hc]. constructor; try done.
  intros i T x Hx. destruct (Hc i T x Hx) as (l & rf & ? & ? & ?).
  exists l, rf. split_and!; try done. by apply (backed_mono n B).
Qed.

(** A section that does not shorten the log of a leader, and does not turn a
    leader or a follower into the candidate of its term, keeps creations. *)
Lemma created_by_quiet i T rf rf' :
  quiet rf rf' -> (role rf' = Leader -> log_size (log rf) <= log_size (log rf')) ->
  created_by i T rf -> created_by i T rf'.
Proof.
  intros [_ _ _ Qv Qr _ _] Hsz [?|(Ht & Hr & Hi)].
  - left. destruct Qv as [[? _]|[? _]]; lia.
  - destruct Qv as [[Ht' _]|[? _]]; [|left; lia]. right.
    destruct Qr as [[Hr' _]|Hr'].
    + split_and!; [lia|congruence|]. intros Hl. rewrite Hr' in Hl. specialize (Hi Hl).
      rewrite -Hr' in Hl. specialize (Hsz Hl). lia.
    + split_and!; [lia|congruence|congruence].
Qed.

(** The frame rule: one node changes, calls are replaced or added. *)
Lemma matching_inv_put B C s i rf rf' :
  matching_inv B C s -> nodes s !! i = Some rf ->
  log_wf (log rf') -> log_path C (log rf') ->
  (forall j T, created_by j T rf -> created_by j T rf') ->
  matching_inv B C (put_node s i rf').
Proof.
  intros [Hw Hp Hc Hcr] Hi Hw' Hp' Hcr'. constructor; simpl; auto.
  - intros j rf0 [(<- & <- & _)|[? ?]]%list_lookup_insert_Some; eauto.
  - intros j rf0 [(<- & <- & _)|[? ?]]%list_lookup_insert_Some; eauto.
  - intros j T x Hx. destruct (Hcr j T x Hx) as (l & rf0 & Hl & Hb & Hby).
    destruct (decide (i = l)) as [<-|Hne].
    + exists i, rf'. simplify_eq. split_and!; [|done|by apply Hcr'].
      apply list_lookup_insert_eq. eapply lookup_lt_Some; eauto.
    + exists l, rf0. rewrite list_lookup_insert_ne //.
Qed.

Lemma matching_inv_samelog B C s i rf rf' :
  matching_inv B C s -> nodes s !! i = Some rf -> quiet rf rf' -> log rf' = log rf ->
  matching_inv B C (put_node s i rf').
Proof.
  intros HM Hi Hq Hl. apply (matching_inv_put B C s i rf); [done|done|..].
  - rewrite Hl. eapply mi_wf; eauto.
  - rewrite Hl. eapply mi_path; eauto.
  - intros j T. apply created_by_quiet; [done|]. rewrite Hl. lia.
Qed.

Lemma matching_inv_frame B C s s' :
  matching_inv B C s -> nodes s' = nodes s ->
  (forall k r, calls s' !! k = Some r -> call_path C (body r)) -> matching_inv B C s'.
Proof. intros [Hw Hp Hc Hcr] Hn Hcalls. constructor; rewrite ?Hn; eauto. Qed.

Lemma matching_inv_call B C s k r r' :
  matching_inv B C s -> calls s !! k = Some r -> (call_path C (body r) -> call_path C (body r')) ->
  matching_inv B C (set_calls s (<[k := r']> (calls s))).
Proof.
  intros HM Hk Hr. eapply matching_inv_frame; [exact HM|done|]. simpl.
  intros k0 r0 [(<- & <- & _)|[? ?]]%list_lookup_insert_Some.
  - apply Hr. eapply mi_call; eauto.
  - eapply mi_call; eauto.
Qed.

Lemma call_of_log_path C rf i T rc :
  log_wf (log rf) -> log_path C (log rf) -> call_of_log rf rc ->
  call_path C (body (repl_rpc i T rc)).
Proof.
  intros Hw Hp. destruct rc as [peer args|peer args]; simpl.
  - intros (Hle & e & He & <- & ->). eapply log_path_trimmed; [|exact Hp].
    by apply trimmed_tail.
  - intros ->. by destruct Hw.
Qed.

(** A leader has created nothing at or above the end of its log. *)
Lemma leader_fresh B E C s i rf :
  election_inv n B E s -> matching_inv B C s -> nodes s !! i = Some rf -> role rf = Leader ->
  C !! (log_size (log rf), currentTerm rf) = None.
Proof.
  intros HI HM Hi Hr. apply eq_None_not_Some. intros [x Hx].
  destruct (mi_created _ _ _ HM _ _ _ Hx) as (l & rf0 & Hl & Hb & Hby).
  assert (backed n B (currentTerm rf) (Z.of_nat i)) as Hbi.
  { eapply leader_backed; [exact HI|]. by exists rf. }
  pose proof (backed_unique _ _ _ _ _ Hb Hbi) as ->%Nat2Z.inj. simplify_eq.
  destruct Hby as [?|(_ & _ & Hlt)]; [lia|]. specialize (Hlt Hr). lia.
Qed.

(** Creating an entry. *)
Lemma matching_inv_start B E C s i rf cmd r rf' :
  election_inv n B E s -> matching_inv B C s -> nodes s !! i = Some rf ->
  Start rf cmd = (r, rf') -> exists C', C ⊆ C' /\ matching_inv B C' (put_node s i rf').
Proof.
  intros HI HM Hi Hs. pose proof (Start_quiet _ _ _ _ Hs) as Hq.
  destruct (Start_log _ _ _ _ Hs) as [->|[Hr Hl]].
  { exists C. split; [done|]. eapply matching_inv_samelog; eauto. }
  set (e := mkLogEntry (currentTerm rf) true cmd) in *.
  pose proof (mi_wf _ _ _ HM _ _ Hi) as Hwf.
  destruct (log_last_ret _ Hwf) as (el & Hel & _).
  pose proof (leader_fresh _ _ _ _ _ _ HI HM Hi Hr) as Hfresh.
  assert (C ⊆ <[(log_size (log rf), Term e) := (e, Term el)]> C) as HC by by apply insert_subseteq.
  eexists. split; [exact HC|].
  assert (forall j T, created_by j T rf -> created_by j T rf') as Hkeep.
  { intros j T. apply created_by_quiet; [done|]. rewrite Hl size_append. lia. }
  destruct HM as [Hw Hp Hc Hcr]. constructor; simpl.
  - intros j rf0 [(<- & <- & _)|[? ?]]%list_lookup_insert_Some; [|by eauto].
    rewrite Hl. by apply append_wf.
  - intros j rf0 [(<- & <- & _)|[? ?]]%list_lookup_insert_Some.
    + rewrite Hl. apply log_path_append; eauto.
    + eapply log_path_mono; eauto.
  - intros k r0 Hk. eapply call_path_mono; eauto.
  - assert (i < length (nodes s))%nat as Hlt by (eapply lookup_lt_Some; eauto).
    intros j T x [([= <- <-] & <-)|[_ Hx]]%lookup_insert_Some.
    + exists i, rf'. split_and!; [by apply list_lookup_insert_eq| |].
      * eapply leader_backed; [exact HI|]. by exists rf.
      * right. destruct Hq as [_ _ _ Qv Qr _ _]. unfold Start in Hs.
        rewrite bool_decide_false in Hs; [by intros []|]. simplify_eq. simpl.
        split_and!; [done|congruence|]. intros _. rewrite size_append. lia.
    + destruct (Hcr j T x Hx) as (l & rf0 & Hl0 & Hb & Hby).
      destruct (decide (i = l)) as [<-|Hne].
      * exists i, rf'. simplify_eq. split_and!; [by apply list_lookup_insert_eq|done|by apply Hkeep].
      * exists l, rf0. rewrite list_lookup_insert_ne //.
Qed.

(** ** Preservation *)

Lemma electionTick_created c1 c2 rf rf' o i T :
  electionTick c1 c2 rf = (rf', o) -> created_by i T rf -> created_by i T rf'.
Proof.
  intros [[_ ->]|(_ & _ & _ & Ht & _)]%electionTick_spec; [done|].
  intros [?|(? & _)]; left; lia.
Qed.

Lemma RequestVote_created c rf args reply rf' i T :
  RequestVote c rf args = Ret (reply, rf') -> created_by i T rf -> created_by i T rf'.
Proof.
  intros (rf1 & Hq & Hl1 & Hl & _ & _ & _ & Hcase)%RequestVote_spec Hby.
  assert (created_by i T rf1) as Hby1.
  { eapply created_by_quiet; [exact Hq| |exact Hby]. rewrite Hl1. lia. }
  destruct Hcase as [[_ ->]|(_ & _ & _ & _ & Ht & Hr & _)]; [done|].
  unfold created_by in *. rewrite Ht Hr Hl -Hl1. done.
Qed.

Lemma handleVoteReply_created c rf term votes reply rf' votes' won i T :
  handleVoteReply c rf term votes reply = Ret (rf', votes', won) ->
  length (nextIndex rf) = peers rf -> length (matchIndex rf) = peers rf ->
  created_by i T rf -> created_by i T rf'.
Proof.
  intros Hh Hn Hm Hby. apply handleVoteReply_spec in Hh; [|done..].
  destruct Hh as [(Hq & _ & Hl & _)|(_ & _ & _ & _ & Hr & _ & _ & Ht & _)].
  - eapply created_by_quiet; [exact Hq| |exact Hby]. rewrite Hl. lia.
  - destruct Hby as [?|(_ & Hnc & _)]; [left; lia|congruence].
Qed.

Lemma restart_matching B E C s i rf :
  election_inv n B E s -> matching_inv B C s -> nodes s !! i = Some rf ->
  matching_inv B C (put_node s i (Make (peers rf) (me rf) (Copy (persister rf)))).
Proof.
  intros HI HM Hi. assert (Copy (persister rf) = persister rf) as -> by by destruct (persister rf).
  destruct (ni_durable _ _ _ _ (ei_node _ _ _ _ HI _ _ Hi)) as (Dt & Dv & Dl).
  destruct (Make_frame (Cmd:=Cmd) (peers rf) (me rf) (persister rf)) as (_ & _ & _ & Fr & _).
  apply (matching_inv_put B C s i rf); [done|done|rewrite Dl..|].
  - eapply mi_wf; eauto.
  - eapply mi_path; eauto.
  - intros j T [?|(? & _)]; [left; lia|]. right. rewrite Fr. split_and!; [lia|done|done].
Qed.

Lemma deliver_matching B C s k r c s' :
  matching_inv B C s -> calls s !! k = Some r -> deliver s k r c = Ret s' -> matching_inv B C s'.
Proof.
  intros HM Hk Hd. unfold deliver, with_node in Hd.
  destruct (nodes s !! to r) as [rf|] eqn:Hrf; [|by inv_ret].
  pose proof (mi_call _ _ _ HM k r Hk) as Hcp.
  pose proof (mi_wf _ _ _ HM _ _ Hrf) as Hwf. pose proof (mi_path _ _ _ HM _ _ Hrf) as Hpath.
  destruct (body r) as [el args o|args o|args o] eqn:Hbody; simpl in Hcp.
  - inv_ret. destruct v as [reply rf']. inv_ret.
    apply (matching_inv_call B C (put_node s (to r) rf') k r); [|done|done].
    pose proof (RequestVote_spec _ _ _ _ _ Hm) as (rf1 & _ & _ & Hl & _).
    apply (matching_inv_put B C s (to r) rf); try done; try (by rewrite Hl).
    intros j T. eapply RequestVote_created; eauto.
  - inv_ret. destruct v as [reply rf']. inv_ret.
    apply (matching_inv_call B C (put_node s (to r) rf') k r); [|done|done].
    pose proof (AppendEntries_quiet _ _ _ _ _ Hm) as Hq.
    apply AppendEntries_log in Hm as [->|[Hr [Hl|(e & He & Ht & Ha)]]].
    + eapply matching_inv_samelog; eauto.
    + eapply matching_inv_samelog; eauto.
    + apply (matching_inv_put B C s (to r) rf); try done.
      * eapply appendFrom_wf; eauto.
      * eapply log_path_appendFrom; [exact Hpath|exact He| |exact Ha]. by rewrite Ht.
      * intros j T. apply created_by_quiet; [done|congruence].
  - destruct (InstallSnapshot c rf args) as [reply rf'] eqn:Hm. inv_ret.
    apply (matching_inv_call B C (put_node s (to r) rf') k r); [|done|done].
    pose proof (InstallSnapshot_quiet _ _ _ _ _ Hm) as Hq.
    apply InstallSnapshot_log in Hm as [->|[Hr [Hl|Hl]]].
    + eapply matching_inv_samelog; eauto.
    + eapply matching_inv_samelog; eauto.
    + apply (matching_inv_put B C s (to r) rf); try done; rewrite ?Hl.
      * done.
      * apply log_path_install.
      * intros j T. apply created_by_quiet; [done|congruence].
Qed.

Lemma receive_matching B E C s k r c s' :
  election_inv n B E s -> matching_inv B C s -> calls s !! k = Some r ->
  receive s k r c = Ret s' -> matching_inv B C s'.
Proof.
  intros HI HM Hk Hd. unfold receive, with_node in Hd. simpl in Hd.
  assert (matching_inv B C (set_calls s (<[k := retire r]> (calls s)))) as HMr
    by (eapply matching_inv_call; eauto).
  destruct (nodes s !! from r) as [rf|] eqn:Hrf; [|by inv_ret].
  destruct (ei_node _ _ _ _ HI _ _ Hrf) as [_ Hpe _ Hnx Hmt _ _ _ _].
  destruct (body r) as [el args [rep|]|args [rep|]|args [rep|]] eqn:Hbody; try by inv_ret.
  - destruct (elections s !! el) as [votes|]; [|by inv_ret].
    inv_ret. destruct v as [[rf' votes'] won]. inv_ret.
    assert (log rf' = log rf) as Hl by (eapply handleVoteReply_samelog; eauto; congruence).
    assert (matching_inv B C (put_node (set_calls s (<[k := retire r]> (calls s))) (from r) rf')) as HM'.
    { apply (matching_inv_put B C _ (from r) rf); try done; rewrite ?Hl.
      - eapply mi_wf; eauto.
      - eapply mi_path; eauto.
      - intros j T. eapply handleVoteReply_created; eauto; congruence. }
    destruct won; eapply matching_inv_frame; try exact HM'; try done; simpl;
      intros; eapply (mi_call _ _ _ HM'); eauto.
  - inv_ret. eapply matching_inv_samelog; eauto using handleAppendReply_quiet, handleAppendReply_log.
  - inv_ret. eapply matching_inv_samelog; eauto using handleInstallReply_quiet, handleInstallReply_log.
Qed.

Lemma tick_matching B C s i rf c1 c2 rf' o :
  matching_inv B C s -> nodes s !! i = Some rf -> electionTick c1 c2 rf = (rf', o) -> matching_inv B C (put_node s i rf').
Proof.
  intros HM Hi Htick. assert (log rf' = log rf) as Hl.
  { by apply electionTick_spec in Htick as [[_ ->]|(_ & _ & _ & _ & _ & _ & _ & _ & ? & _)]. }
  apply (matching_inv_put B C s i rf); try done; rewrite ?Hl.
  - eapply mi_wf; eauto.
  - eapply mi_path; eauto.
  - intros j T. eapply electionTick_created; eauto.
Qed.

Lemma snapshot_matching B C s i rf index snapshot rf' :
  matching_inv B C s -> nodes s !! i = Some rf -> Snapshot rf index snapshot = Ret rf' -> matching_inv B C (put_node s i rf').
Proof.
  intros HM Hi Hm. pose proof (Snapshot_quiet _ _ _ _ Hm) as Hq.
  apply Snapshot_log in Hm as [->|(Hd & _)]; [eapply matching_inv_samelog; eauto|].
  apply (matching_inv_put B C s i rf); try done.
  - eapply doSnapshot_wf; [|exact Hd]. eapply mi_wf; eauto.
  - eapply log_path_doSnapshot; [|exact Hd]. eapply mi_path; eauto.
  - intros j T. apply created_by_quiet; [done|]. rewrite (size_doSnapshot _ _ _ _ Hd). lia.
Qed.

(** Encoding finds the entries that [log.tail] returned. *)
Definition prompt (e : Event Cmd) s : Prop :=
  match e with
  | EEncode k entries => forall r args, calls s !! k = Some r -> body r = AppendCall args None -> entries = Entries args
  | _ => True
  end.

Lemma encode_matching B C s k r entries :
  matching_inv B C s -> calls s !! k = Some r -> prompt (EEncode k entries) s ->
  matching_inv B C (set_calls s (<[k := encode_as r entries]> (calls s))).
Proof.
  intros HM Hk Hp. apply (matching_inv_call B C s k r); [done|done|]. intros Hc.
  destruct (encode_as_spec r entries) as [->|(args & Hb & _ & ->)]; [done|]. rewrite (Hp r args Hk Hb).
  rewrite Hb in Hc. by destruct args.
Qed.

Lemma step_matching_inv B E C s e s' :
  election_inv n B E s -> matching_inv B C s -> prompt e s -> step e s = Ret s' ->
  exists C', C ⊆ C' /\ matching_inv B C' s'.
Proof.
  intros HI HM Hpr Hs.
  assert (matching_inv B C s -> exists C', C ⊆ C' /\ matching_inv B C' s) as Hid by eauto.
  assert (forall i rf rf', nodes s !! i = Some rf -> quiet rf rf' -> log rf' = log rf ->
    exists C', C ⊆ C' /\ matching_inv B C' (put_node s i rf')) as Hsame.
  { intros i rf rf' Hi Hq Hl. exists C. split; [done|]. eapply matching_inv_samelog; eauto. }
  destruct e; simpl in Hs; unfold with_node in Hs; simpl in Hs;
    try (case_match eqn:Hi; [|by inv_ret; apply Hid]).
  - destruct (electionTick c1 c2 _) as [rf' o] eqn:Htick. exists C. split; [done|]. inv_ret.
    pose proof (tick_matching _ _ _ _ _ _ _ _ _ HM Hi Htick) as HM'.
    destruct o; [|done]. eapply matching_inv_frame; [exact HM'|done|]. apply (mi_call _ _ _ HM').
  - destruct g as [i term|i term|]; try (inv_ret; by apply Hid).
    case_match eqn:Hn; [|by inv_ret; apply Hid]. inv_ret. exists C. split; [done|].
    destruct v as [[votes cs]|]; eapply matching_inv_frame; try exact HM; try done; simpl.
    + intros k0 r0 [?|[_ (pc & -> & _)%list_lookup_fmap_Some]]%lookup_app_Some; [|done].
      eapply mi_call; eauto.
    + intros. eapply mi_call; eauto.
  - destruct g as [i term|i term|]; try (inv_ret; by apply Hid).
    case_match eqn:Hn; [|by inv_ret; apply Hid]. inv_ret. exists C. split; [done|].
    destruct v as [[rf' cs]|].
    + pose proof (startReplication_quiet _ _ _ _ Hm) as Hq.
      apply startReplication_log in Hm as (_ & _ & Hl & Hcs).
      assert (matching_inv B C (put_node s i rf')) as HM' by (eapply matching_inv_samelog; eauto).
      eapply matching_inv_frame; [exact HM'|done|]. simpl.
      intros k0 r0 [?|[_ (rc & -> & Hrc)%list_lookup_fmap_Some]]%lookup_app_Some.
      * eapply mi_call; eauto.
      * apply (call_of_log_path C r); [exact (mi_wf _ _ _ HM _ _ Hn)|exact (mi_path _ _ _ HM _ _ Hn)|].
        exact (Forall_lookup_1 _ _ _ _ Hcs Hrc).
    + eapply matching_inv_frame; [exact HM|done|]. simpl. intros. eapply mi_call; eauto.
  - inv_ret. exists C. split; [done|]. by apply encode_matching.
  - case_match; [|by inv_ret; apply Hid]. exists C. split; [done|]. eapply deliver_matching; eauto.
  - case_match; [|by inv_ret; apply Hid]. exists C. split; [done|]. eapply receive_matching; eauto.
  - inv_ret. exists C. split; [done|]. eapply matching_inv_call; eauto.
  - case_match eqn:Hst. inv_ret. eapply matching_inv_start; eauto.
  - inv_ret. exists C. split; [done|]. eapply snapshot_matching; eauto.
  - inv_ret. eapply Hsame; [exact Hi|apply applyWait_quiet|apply applyWait_log].
  - inv_ret. eapply Hsame; eauto using applyCollect_quiet, applyCollect_log.
  - case_match eqn:Hst. inv_ret.
    destruct (Hsame i _ _ Hi (applyDeliver_quiet _ _ _ Hst) (applyDeliver_log _ _ _ Hst)) as (C' & ? & HM').
    exists C'. split; [done|]. eapply matching_inv_frame; [exact HM'|done|]. apply (mi_call _ _ _ HM').
  - inv_ret. eapply Hsame; [exact Hi|apply applyFinish_quiet|apply applyFinish_log].
  - inv_ret. exists C. split; [done|].
    pose proof (restart_matching _ _ _ _ _ _ HI HM Hi) as HM'.
    eapply matching_inv_frame; [exact HM'|done|]. simpl.
    intros k0 r0 (r1 & -> & Hr1)%list_lookup_fmap_Some.
    unfold kill_rpc. case_bool_decide; eapply (mi_call _ _ _ HM k0 r1 Hr1).
Qed.

Lemma init_matching_inv : matching_inv ∅ ∅ (init n).
Proof.
  constructor; try done.
  - by intros i rf ->%init_nodes.
  - intros i rf ->%init_nodes j e e' H1%lookup_log_range H2%lookup_log_range.
    destruct (Make_initial (Cmd:=Cmd) n (Z.of_nat i)) as (_ & _ & Hl & _).
    rewrite Hl in H1, H2. unfold log_size in *. simpl in *.
    rewrite len_cons len_nil in H1, H2. lia.
Qed.

(** The runs in which every request is encoded with the entries of its creation. *)
Definition prompt_step s s' : Prop := exists e, prompt e s /\ step e s = Ret s'.

Definition prompt_reachable s : Prop := rtc prompt_step (init n) s.

Lemma prompt_reachable_inv s :
  prompt_reachable s -> exists B E C, election_inv n B E s /\ matching_inv B C s.
Proof.
  revert s. apply (rtc_ind_r (fun s => exists B E C, election_inv n B E s /\ matching_inv B C s) (init n)).
  - exists ∅, [], ∅. split; [apply init_election_inv|apply init_matching_inv].
  - intros s1 s2 _ (e & Hp & He) (B & E & C & HI & HM).
    destruct (step_election_inv _ _ _ _ _ _ HI He) as (B' & E' & HB & HI').
    destruct (step_matching_inv _ _ _ _ _ _ HI HM Hp He) as (C' & _ & HM').
    exists B', E', C'. split; [done|]. eapply matching_inv_ballots; eauto.
Qed.

(** The logs of two peers that hold entries of one term at one index agree below it. *)
Definition logs_match s : Prop := forall (p q : nat) rf1 rf2 (i : Z) (e1 e2 : LogEntry Cmd),
  nodes s !! p = Some rf1 -> nodes s !! q = Some rf2 ->
  lookup_log (log rf1) i = Some e1 -> lookup_log (log rf2) i = Some e2 -> Term e1 = Term e2 ->
  forall j d1 d2, j <= i -> lookup_log (log rf1) j = Some d1 -> lookup_log (log rf2) j = Some d2 ->
  Term d1 = Term d2 /\ (snapLastIdx (log rf1) < j -> snapLastIdx (log rf2) < j -> d1 = d2).

Lemma prompt_logs_match s : prompt_reachable s -> logs_match s.
Proof.
  intros (B & E & C & _ & HM)%prompt_reachable_inv p q rf1 rf2 i e1 e2 Hp Hq.
  apply (paths_agree C); eapply mi_path; eauto.
Qed.
End matching.
