(* ===== verification/RaftPanicFree.v ===== *)
(** * RaftPanicFree: no goroutine of a peer indexes its log out of range

    [RaftLog.idx] panics outside [snapLastIdx .. size - 1].  A leader computes
    indices from [nextIndex], [matchIndex] and from the arguments of calls it
    issued earlier; [progress] and [acked] bound them for as long as the peer
    leads the term of the call.  The only critical section that can panic is
    [Snapshot], whose index comes from the service. *)

From S2P Require Import Prelude LabGob RaftLog Persister RaftNode.
From S2P Require Import RaftNodeFacts RaftNet RaftElection RaftMatching.
Local Open Scope Z_scope.

Section node.
Context {Cmd : Type} `{!GobStream (gobval Cmd)}.
Implicit Types rf : Raft Cmd.

(** [m] is an index of the log at which a commit decision can look: either
    it is retained, or it is already committed. *)
Definition acked rf (m : Z) : Prop :=
  m < log_size (log rf) /\
  (snapLastIdx (log rf) <= m \/ snapLastIdx (log rf) <= commitIndex rf).

Record progress rf : Prop := {
  pr_next p x : nextIndex rf !! p = Some x -> x <= log_size (log rf);
  pr_match p m : matchIndex rf !! p = Some m -> m = 0 \/ acked rf m;
}.

(** What every section of a peer respects. *)
Record sane rf : Prop := {
  sa_wf : log_wf (log rf);
  sa_next : length (nextIndex rf) = peers rf;
  sa_match : length (matchIndex rf) = peers rf;
  sa_commit : 0 <= commitIndex rf;
  sa_progress : role rf = Leader -> progress rf;
}.

Lemma progress_next rf i x v :
  progress rf -> slice_set (nextIndex rf) i x = Ret v -> x <= log_size (log rf) ->
  progress (set_nextIndex rf v).
Proof.
  intros [Hn Hm] [_ ->]%slice_set_ret Hx. constructor; simpl; [|done].
  intros p y [(_ & <- & _)|[_ ?]]%list_lookup_insert_Some; [done|eauto].
Qed.

Lemma progress_match rf i x v :
  progress rf -> slice_set (matchIndex rf) i x = Ret v -> acked rf x ->
  progress (set_matchIndex rf v).
Proof.
  intros [Hn Hm] [_ ->]%slice_set_ret Hx. constructor; simpl; [done|].
  intros p y [(_ & <- & _)|[_ ?]]%list_lookup_insert_Some; [by right|eauto].
Qed.

(** Reading and writing the slot of a peer. *)
Lemma slot_get rf (l : list Z) peer :
  length l = peers rf -> 0 <= peer < Z.of_nat (peers rf) -> exists x, slice_get l peer = Ret x.
Proof. intros Hl Hp. apply slice_get_in_range. unfold len. lia. Qed.

Lemma slot_set rf (l : list Z) peer x :
  length l = peers rf -> 0 <= peer < Z.of_nat (peers rf) -> exists l', slice_set l peer x = Ret l'.
Proof. intros Hl Hp. unfold slice_set. rewrite bool_decide_true; [unfold len; lia|]. eauto. Qed.

Lemma acked_last rf : log_wf (log rf) -> acked rf (log_size (log rf) - 1).
Proof. intros Hwf%log_wf_size. split; [lia|left; lia]. Qed.

Lemma acked_snap rf : log_wf (log rf) -> acked rf (snapLastIdx (log rf)).
Proof. intros Hwf%log_wf_size. split; [lia|left; lia]. Qed.

(** The sorted copy of [matchIndex] has an element in the middle, and it is
    one of the match indices. *)
Lemma getMajority_total rf :
  length (matchIndex rf) = peers rf -> (0 < peers rf)%nat ->
  exists m p, getMajorityIndexLocked rf = Ret m /\ matchIndex rf !! p = Some m.
Proof.
  intros Hl Hp. unfold getMajorityIndexLocked, copy_ints.
  rewrite Hl Nat.sub_diag app_nil_r -Hl firstn_all Hl.
  pose proof (Permutation_length (sort_Ints_perm (matchIndex rf))) as Hlen.
  destruct (slice_get_in_range (sort_Ints (matchIndex rf)) (Z.quot (Z.of_nat (peers rf) - 1) 2))
    as [m Hm]; [unfold len; rewrite Hlen; Z.to_euclidean_division_equations; lia|].
  exists m. apply slice_get_ret in Hm as Hm'. destruct Hm' as [_ Hm'].
  apply list_elem_of_lookup_2 in Hm'. rewrite sort_Ints_perm in Hm'.
  apply list_elem_of_lookup_1 in Hm' as [p Hp']. by exists p.
Qed.

Lemma backoff_total (rl : RaftLog Cmd) t i fuel :
  snapLastIdx rl - 1 <= i < log_size rl -> (Z.to_nat (i - snapLastIdx rl + 1) < fuel)%nat ->
  exists j, backoff fuel rl t i = Ret j /\ snapLastIdx rl - 1 <= j <= i.
Proof.
  revert i. induction fuel as [|fuel IH]; intros i Hi Hf; [lia|]. simpl.
  case_bool_decide; [|exists i; split; [done|lia]].
  destruct (at_in_range rl i) as [e ->]; [lia|]. simpl.
  case_bool_decide; [|exists i; split; [done|lia]].
  destruct (IH (i - 1)) as (j & -> & ?); [lia|lia|]. exists j. split; [done|lia].
Qed.

(** Reading back the slot just written. *)
Lemma slot_set_get rf (l l' : list Z) peer x :
  slice_set l peer x = Ret l' -> slice_get l' peer = Ret x.
Proof.
  intros [Hb ->]%slice_set_ret. apply slice_get_ret. split; [lia|].
  apply list_lookup_insert_eq. unfold len in Hb. lia.
Qed.

Lemma progress_commit rf m :
  progress rf -> commitIndex rf <= m -> progress (Signal (set_commitIndex rf m)).
Proof.
  intros [Hpn Hpm] Hm.
  assert (forall q y, matchIndex rf !! q = Some y -> y = 0 \/ acked (set_commitIndex rf m) y) as Hpm'.
  { intros q y Hq. destruct (Hpm q y Hq) as [?|[? [?|?]]]; [by left|right..]; split; simpl in *; lia. }
  unfold Signal. destruct (applier _); by constructor.
Qed.

Lemma Signal_commit rf : commitIndex (Signal rf) = commitIndex rf.
Proof. unfold Signal. by destruct (applier rf). Qed.

(** The leader of [term] handles a success. *)
Lemma handleAppend_success c rf peer term args reply :
  sane rf -> 0 <= peer < Z.of_nat (peers rf) ->
  aer_Term reply <= currentTerm rf -> role rf = Leader -> currentTerm rf = term ->
  Success reply = true -> acked rf (PrevLogIndex args + len (Entries args)) ->
  exists rf', handleAppendReply c rf peer term args reply = Ret rf' /\ progress rf'
    /\ commitIndex rf <= commitIndex rf'.
Proof.
  intros [Hwf Hn Hm Hc Hpr] Hpeer Ht Hr Hterm Hs Hack. specialize (Hpr Hr).
  unfold handleAppendReply. rewrite bool_decide_false; [lia|].
  rewrite contextLost_ok // Hs /=.
  set (x := PrevLogIndex args + len (Entries args)) in *.
  destruct (slot_set rf (matchIndex rf) peer x) as [mi Hmi]; [done..|]. rewrite Hmi /=.
  rewrite (slot_set_get rf _ _ _ _ Hmi) /=.
  destruct (slot_set rf (nextIndex rf) peer (x + 1)) as [ni Hni]; [done..|]. rewrite Hni /=.
  assert (progress (set_nextIndex (set_matchIndex rf mi) ni)) as Hpr2.
  { eapply (progress_next (set_matchIndex rf mi)); [by eapply progress_match; eauto|exact Hni|].
    destruct Hack. simpl. lia. }
  set (rf2 := set_nextIndex (set_matchIndex rf mi) ni) in *.
  destruct (getMajority_total rf2) as (m & p & -> & Hp).
  { simpl. by rewrite (slice_set_length _ _ _ _ Hmi). }
  { simpl. lia. }
  simpl. case_bool_decide as Hgt; [|eexists; split_and!; [done|done|simpl; lia]].
  destruct (at_in_range (log rf) m) as [e ->].
  { destruct (pr_match _ Hpr2 _ _ Hp) as [->|[? [?|?]]]; simpl in *; lia. }
  simpl. case_bool_decide; eexists; (split_and!; [done| |]); try done; simpl; try lia.
  - apply progress_commit; [done|simpl; lia].
  - rewrite Signal_commit. simpl. lia.
Qed.

(** The leader of [term] handles a rejection: it moves [nextIndex] back. *)
Lemma handleAppend_failure c rf peer term args reply :
  sane rf -> 0 <= peer < Z.of_nat (peers rf) ->
  aer_Term reply <= currentTerm rf -> role rf = Leader -> currentTerm rf = term ->
  Success reply = false ->
  exists rf', handleAppendReply c rf peer term args reply = Ret rf' /\ progress rf'
    /\ commitIndex rf' = commitIndex rf.
Proof.
  intros [Hwf Hn Hm Hc Hpr] Hpeer Ht Hr Hterm Hs. specialize (Hpr Hr).
  unfold handleAppendReply. rewrite bool_decide_false; [lia|].
  rewrite contextLost_ok // Hs /=.
  pose proof (log_wf_size _ Hwf) as Hsz.
  destruct (slot_get rf (nextIndex rf) peer) as [x Hx]; [done..|]. rewrite Hx /=.
  assert (x <= log_size (log rf)) as Hxle.
  { apply slice_get_ret in Hx as [_ Hx]. by apply (pr_next _ Hpr) in Hx. }
  case_bool_decide.
  - destruct (slot_set rf (nextIndex rf) peer (snapLastIdx (log rf) + 1)) as [ni Hni]; [done..|].
    rewrite Hni /=. eexists. split_and!; [done| |done].
    eapply progress_next; [done|exact Hni|lia].
  - destruct (at_in_range (log rf) (x - 1)) as [e ->]; [lia|]. simpl.
    destruct (backoff_total (log rf) (Term e) (x - 1) (Z.to_nat (x - 1 - snapLastIdx (log rf) + 2)))
      as (j & -> & Hj); [lia|lia|]. simpl.
    destruct (slot_set rf (nextIndex rf) peer (j + 1)) as [ni Hni]; [done..|]. rewrite Hni /=.
    rewrite (slot_set_get rf _ _ _ _ Hni) /=. eexists. split_and!.
    + case_bool_decide; [|done]. simpl.
      by destruct (at_in_range (log rf) (j + 1 - 1)) as [e' ->]; [lia|].
    + eapply progress_next; [done|exact Hni|lia].
    + done.
Qed.

Lemma handleAppendReply_total c rf peer term args reply :
  sane rf -> 0 <= peer < Z.of_nat (peers rf) ->
  (role rf = Leader -> currentTerm rf = term -> acked rf (PrevLogIndex args + len (Entries args))) ->
  exists rf', handleAppendReply c rf peer term args reply = Ret rf' /\
    (role rf' = Leader -> progress rf') /\ commitIndex rf <= commitIndex rf'.
Proof.
  intros Hsane Hpeer Hack.
  destruct (decide (aer_Term reply > currentTerm rf)) as [Ht|Ht].
  { unfold handleAppendReply. rewrite bool_decide_true //.
    destruct (becomeFollower_spec c rf (aer_Term reply)) as (_ & _ & Hr & _ & Hci & _); [lia|].
    eexists. split_and!; [done|congruence|lia]. }
  destruct (contextLostLocked rf Leader term) eqn:Hctx.
  { unfold handleAppendReply. rewrite bool_decide_false // Hctx.
    eexists. split_and!; [done|apply Hsane|lia]. }
  apply contextLost_false in Hctx as [Hr Hterm].
  destruct (Success reply) eqn:Hs.
  - destruct (handleAppend_success c rf peer term args reply) as (rf' & ? & ? & ?); auto.
    exists rf'. auto.
  - destruct (handleAppend_failure c rf peer term args reply) as (rf' & ? & ? & ?); auto.
    exists rf'. split_and!; auto. lia.
Qed.

Lemma handleInstallReply_total c rf peer term args reply :
  sane rf -> 0 <= peer < Z.of_nat (peers rf) ->
  (role rf = Leader -> currentTerm rf = term -> acked rf (LastIncludedIndex args)) ->
  exists rf', handleInstallReply c rf peer term args reply = Ret rf' /\
    (role rf' = Leader -> progress rf') /\ commitIndex rf <= commitIndex rf'.
Proof.
  intros [Hwf Hn Hm Hc Hpr] Hpeer Hack. unfold handleInstallReply. case_bool_decide.
  { destruct (becomeFollower_spec c rf (isr_Term reply)) as (_ & _ & Hr & _ & Hci & _); [lia|].
    eexists. split_and!; [done|congruence|lia]. }
  destruct (contextLostLocked rf Leader term) eqn:Hctx; [eexists; split_and!; [done|done|lia]|].
  apply contextLost_false in Hctx as [Hr Hterm]. specialize (Hpr Hr). specialize (Hack Hr Hterm).
  destruct (slot_get rf (matchIndex rf) peer) as [m ->]; [done..|]. simpl.
  case_bool_decide; [|eexists; split_and!; [done|done|lia]].
  destruct (slot_set rf (matchIndex rf) peer (LastIncludedIndex args)) as [mi Hmi]; [done..|].
  rewrite Hmi /= (slot_set_get rf _ _ _ _ Hmi) /=.
  destruct (slot_set rf (nextIndex rf) peer (LastIncludedIndex args + 1)) as [ni Hni]; [done..|].
  rewrite Hni /=. eexists. split_and!; [done| |simpl; lia]. intros _.
  eapply (progress_next (set_matchIndex rf mi)); [eapply progress_match; eauto|exact Hni|].
  destruct Hack. simpl. lia.
Qed.

(** The bound a call carries. *)
Definition call_bound (rc : ReplCall Cmd) : Z :=
  match rc with
  | CallAppend _ args => PrevLogIndex args + len (Entries args)
  | CallInstall _ args => LastIncludedIndex args
  end.

Definition call_peer (rc : ReplCall Cmd) : Z :=
  match rc with CallAppend peer _ => peer | CallInstall peer _ => peer end.

(** The loop invariant of [startReplication]. *)
Record replicating rf rf' (cs : list (ReplCall Cmd)) : Prop := {
  rp_log : log rf' = log rf;
  rp_commit : commitIndex rf' = commitIndex rf;
  rp_peers : peers rf' = peers rf;
  rp_next : length (nextIndex rf') = peers rf;
  rp_match : length (matchIndex rf') = peers rf;
  rp_progress : progress rf';
  rp_calls : Forall (fun rc => acked rf (call_bound rc) /\ 0 <= call_peer rc < Z.of_nat (peers rf)) cs;
}.

Lemma startReplication_total rf term :
  sane rf ->
  exists r, startReplication rf term = Ret r /\
    match r with Some (rf', cs) => replicating rf rf' cs | None => True end.
Proof.
  intros [Hwf Hn Hm Hc Hpr]. unfold startReplication.
  destruct (contextLostLocked rf Leader term) eqn:Hctx; [by eexists|].
  apply contextLost_false in Hctx as [Hr Hterm]. specialize (Hpr Hr).
  edestruct (for_range_inv (fun _ p => replicating rf p.1 p.2)) as ([rf' cs] & -> & HI);
    [..|by eexists].
  { by constructor. }
  intros j [rf1 cs1] Hj [Hl Hci Hp Hn1 Hm1 Hpr1 Hcs]. simpl in *.
  case_bool_decide.
  - destruct (slot_set rf (matchIndex rf1) j (log_size (log rf1) - 1)) as [mi Hmi]; [done..|].
    rewrite Hmi /=. destruct (slot_set rf (nextIndex rf1) j (log_size (log rf1))) as [ni Hni]; [done..|].
    rewrite Hni /=. eexists. split; [done|]. constructor; simpl; try done.
    + by rewrite (slice_set_length _ _ _ _ Hni).
    + by rewrite (slice_set_length _ _ _ _ Hmi).
    + eapply (progress_next (set_matchIndex rf1 mi)); [|exact Hni|simpl; lia].
      eapply progress_match; [done|exact Hmi|]. apply acked_last. by rewrite Hl.
  - destruct (slot_get rf (nextIndex rf1) j) as [x Hx]; [done..|]. rewrite Hx /=.
    assert (x <= log_size (log rf)) as Hxle.
    { apply slice_get_ret in Hx as [_ Hx]. apply (pr_next _ Hpr1) in Hx. by rewrite Hl in Hx. }
    rewrite Hl. case_bool_decide; [|destruct (at_in_range (log rf) (x - 1)) as [e ->]; [lia|];
      rewrite /= log_tail_ret /=; [lia|]].
    all: eexists; split; [done|]; constructor; simpl; try done; try congruence.
    all: apply Forall_app; split; [done|]; apply Forall_singleton; simpl; split; [|done].
    + by apply acked_snap.
    + pose proof (acked_last rf Hwf) as Hlast. pose proof (log_wf_size _ Hwf).
      rewrite len_drop; [unfold log_size in *; lia|].
      replace (x - 1 + _) with (log_size (log rf) - 1); [done|]. unfold log_size. lia.
Qed.

Lemma RequestVote_total c rf args :
  log_wf (log rf) -> exists r, RequestVote c rf args = Ret r.
Proof.
  intros Hwf. unfold RequestVote. case_bool_decide as Hlt; [eauto|].
  set (rf1 := if bool_decide _ then _ else rf).
  assert (log rf1 = log rf) as Hl.
  { unfold rf1. case_bool_decide; [apply becomeFollower_log|done]. }
  case_match; [eauto|].
  destruct (isMoreUptoDate_total rf1 (LastLogIndex args) (LastLogTerm args)) as [[] ->];
    [by rewrite Hl|..]; eauto.
Qed.

Lemma AppendEntries_total c rf (args : AppendEntriesArgs Cmd) :
  log_wf (log rf) -> exists r, AppendEntries c rf args = Ret r.
Proof.
  intros Hwf. unfold AppendEntries. case_bool_decide as Hlt; [eauto|].
  set (rf1 := if bool_decide _ then _ else rf).
  assert (log rf1 = log rf) as ->.
  { unfold rf1. case_bool_decide; [apply becomeFollower_log|done]. }
  case_bool_decide; [eauto|]. case_bool_decide; [eauto|].
  destruct (at_in_range (log rf) (PrevLogIndex args)) as [e ->]; [lia|]. simpl.
  case_bool_decide; [eauto|].
  destruct (appendFrom_total (log rf) (PrevLogIndex args) (Entries args)) as [rl ->]; [lia|]. eauto.
Qed.

Lemma startElection_total rf term : log_wf (log rf) -> exists r, startElection rf term = Ret r.
Proof.
  intros Hwf. unfold startElection. case_match; [eauto|].
  destruct (log_last_ret _ Hwf) as (e & _ & ->). simpl.
  edestruct (for_range_inv (fun _ (_ : Z * list (Z * RequestVoteArgs)) => True)) as (r & -> & _);
    [done| |by eexists].
  intros j [v cs] _ _. case_bool_decide; eauto.
Qed.

Lemma handleVoteReply_total c rf term votes reply :
  length (nextIndex rf) = peers rf -> length (matchIndex rf) = peers rf ->
  exists r, handleVoteReply c rf term votes reply = Ret r.
Proof.
  intros Hn Hm. unfold handleVoteReply. case_bool_decide; [eauto|].
  destruct (contextLostLocked rf Candidate term) eqn:Hctx; [eauto|].
  apply contextLost_false in Hctx as [Hr _]. destruct (VoteGranted reply); [|eauto].
  case_bool_decide; [|eauto]. destruct (becomeLeader_total c rf Hn Hm Hr) as [rf' ->]. simpl. eauto.
Qed.

Lemma applyCollect_total rf : log_wf (log rf) -> exists rf', applyCollect rf = Ret rf'.
Proof.
  intros Hwf. pose proof (log_wf_size _ Hwf) as Hsz.
  unfold applyCollect. destruct (applier rf); eauto. destruct (snapPending rf); [eauto|].
  set (rf1 := if bool_decide _ then _ else rf).
  assert (log rf1 = log rf /\ snapLastIdx (log rf) <= lastApplied rf1) as [-> Hla].
  { unfold rf1. case_bool_decide; simpl; split; try done; lia. }
  set (end_ := if bool_decide _ then _ else _).
  assert (end_ < log_size (log rf)) as Hend by (unfold end_; case_bool_decide; lia).
  unfold collect.
  edestruct (for_from_inv (fun _ (_ : list (LogEntry Cmd)) => True)) as (r & -> & _);
    [done| |by eexists].
  intros j es Hj _. destruct (at_in_range (log rf) j) as [e ->]; [lia|]. eauto.
Qed.

(** ** The commit index never moves back *)

Lemma becomeFollower_commit c rf t : commitIndex (becomeFollowerLocked c rf t) = commitIndex rf.
Proof. unfold becomeFollowerLocked. by repeat case_bool_decide. Qed.

Lemma AppendEntries_commit c rf args reply rf' :
  AppendEntries c rf args = Ret (reply, rf') -> commitIndex rf <= commitIndex rf'.
Proof.
  unfold AppendEntries. intros H.
  destruct (decide (ae_Term args < currentTerm rf)) as [Hlt|Hge].
  { rewrite bool_decide_true // in H. inv_ret. lia. }
  rewrite bool_decide_false // (bool_decide_true (ae_Term args >= _)) in H; [lia|].
  rewrite -(becomeFollower_commit c rf (ae_Term args)).
  set (rf1 := becomeFollowerLocked c rf (ae_Term args)) in *. clearbody rf1.
  repeat (case_bool_decide || inv_ret); simpl; rewrite ?Signal_commit; simpl in *; lia.
Qed.

Lemma InstallSnapshot_commit c rf args reply rf' :
  InstallSnapshot c rf args = (reply, rf') -> commitIndex rf' = commitIndex rf.
Proof.
  unfold InstallSnapshot. intros H.
  repeat case_bool_decide; simplify_eq; simpl;
    rewrite ?Signal_commit; simpl; rewrite ?becomeFollower_commit; done.
Qed.

Lemma applyFinish_commit rf : commitIndex rf <= commitIndex (applyFinish rf).
Proof. unfold applyFinish. destruct (applier rf); simpl; try lia. case_bool_decide; simpl in *; lia. Qed.

(** ** Sections of a leader that leave its bookkeeping alone *)

(** If [rf'] leads, then so did [rf], with the same bookkeeping and a log in
    which the acknowledged positions are still addressable. *)
Record steady rf rf' : Prop := {
  st_commit : commitIndex rf <= commitIndex rf';
  st_leader : role rf' = Leader ->
    role rf = Leader /\ nextIndex rf' = nextIndex rf /\ matchIndex rf' = matchIndex rf /\
    log_size (log rf) <= log_size (log rf') /\
    (snapLastIdx (log rf') = snapLastIdx (log rf) \/ snapLastIdx (log rf') <= commitIndex rf');
}.

Lemma steady_acked rf rf' m : steady rf rf' -> role rf' = Leader -> acked rf m -> acked rf' m.
Proof.
  intros [Hc Hl] Hr [? ?]. destruct (Hl Hr) as (_ & _ & _ & ? & ?). split; [lia|]. lia.
Qed.

Lemma steady_progress rf rf' :
  steady rf rf' -> (role rf = Leader -> progress rf) -> role rf' = Leader -> progress rf'.
Proof.
  intros Hst Hpr Hr. destruct (st_leader _ _ Hst Hr) as (Hr0 & Hn & Hm & Hs & _).
  destruct (Hpr Hr0) as [Pn Pm]. constructor.
  - intros p x. rewrite Hn. intros Hx%Pn. lia.
  - intros p m. rewrite Hm. intros [?|Ha]%Pm; [by left|right]. eapply steady_acked; eauto.
Qed.

(** Same log, same bookkeeping. *)
Lemma steady_same rf rf' :
  (role rf' = Leader -> role rf = Leader) -> log rf' = log rf -> commitIndex rf <= commitIndex rf' ->
  nextIndex rf' = nextIndex rf -> matchIndex rf' = matchIndex rf -> steady rf rf'.
Proof.
  intros Hr Hl Hc Hn Hm. constructor; [done|]. intros Hld. rewrite Hl.
  split_and!; auto. lia.
Qed.

Lemma steady_eq rf rf' :
  (role rf' = Leader -> role rf = Leader) -> log rf' = log rf -> commitIndex rf' = commitIndex rf ->
  nextIndex rf' = nextIndex rf -> matchIndex rf' = matchIndex rf -> steady rf rf'.
Proof. intros. apply steady_same; auto. lia. Qed.

Lemma steady_follower rf rf' :
  role rf' <> Leader -> commitIndex rf <= commitIndex rf' -> steady rf rf'.
Proof. intros. by constructor. Qed.

Lemma quiet_leader rf rf' : quiet rf rf' -> role rf' = Leader -> role rf = Leader.
Proof. intros [_ _ _ _ [[? _]|?] _ _]; congruence. Qed.

Lemma AppendEntries_steady c rf args reply rf' :
  AppendEntries c rf args = Ret (reply, rf') -> steady rf rf'.
Proof.
  intros H. pose proof (AppendEntries_commit _ _ _ _ _ H) as Hc.
  apply AppendEntries_log in H as [->|[Hr _]]; [by apply steady_eq|].
  apply steady_follower; [congruence|done].
Qed.

Lemma InstallSnapshot_steady c rf args reply rf' :
  InstallSnapshot c rf args = (reply, rf') -> steady rf rf'.
Proof.
  intros H. pose proof (InstallSnapshot_commit _ _ _ _ _ H) as Hc.
  apply InstallSnapshot_log in H as [->|[Hr _]]; [by apply steady_eq|].
  apply steady_follower; [congruence|lia].
Qed.

Lemma RequestVote_steady c rf args reply rf' :
  RequestVote c rf args = Ret (reply, rf') -> steady rf rf'.
Proof.
  intros (rf1 & Hq & _ & Hl & Hn & Hm & Hc & Hcase)%RequestVote_spec.
  apply steady_same; try done; [|lia].
  intros Hr. eapply quiet_leader; [exact Hq|].
  destruct Hcase as [[_ ->]|(_ & _ & _ & _ & _ & <- & _)]; done.
Qed.

Lemma electionTick_steady c1 c2 rf rf' o : electionTick c1 c2 rf = (rf', o) -> steady rf rf'.
Proof.
  intros H. pose proof H as [[_ ->]|(_ & _ & Hr & _ & _ & _ & _ & _ & _)]%electionTick_spec.
  - by apply steady_eq.
  - apply steady_follower; [congruence|]. unfold electionTick in H.
    repeat case_match; simplify_eq; simpl; [|lia]. unfold becomeCandidateLocked.
    destruct (bool_decide (role rf = Leader)); simpl; lia.
Qed.

Lemma Start_steady rf cmd r rf' : Start rf cmd = (r, rf') -> steady rf rf'.
Proof.
  unfold Start. intros H. case_bool_decide as Hr; simplify_eq; [by apply steady_eq|].
  constructor; simpl; [lia|]. intros ?. rewrite size_append. split_and!; auto. lia.
Qed.

Lemma Snapshot_steady rf index snap rf' : Snapshot rf index snap = Ret rf' -> steady rf rf'.
Proof.
  unfold Snapshot. intros H. repeat (case_bool_decide || inv_ret); try by apply steady_eq.
  constructor; simpl; [lia|]. intros ?. rewrite (size_doSnapshot _ _ _ _ Hm).
  apply doSnapshot_tail in Hm as (e & _ & ->). simpl. split_and!; auto; lia.
Qed.

Lemma applyWait_steady rf : steady rf (applyWait rf).
Proof. unfold applyWait. destruct (applier rf); by apply steady_eq. Qed.

Lemma applyCollect_steady rf rf' : applyCollect rf = Ret rf' -> steady rf rf'.
Proof.
  unfold applyCollect. intros H.
  repeat (case_match || case_bool_decide || inv_ret); by apply steady_eq.
Qed.

Lemma applyDeliver_steady rf ms rf' : applyDeliver rf = (ms, rf') -> steady rf rf'.
Proof. unfold applyDeliver. intros H. destruct (applier rf); simplify_eq; by apply steady_eq. Qed.

Lemma applyFinish_steady rf : steady rf (applyFinish rf).
Proof.
  pose proof (applyFinish_commit rf) as Hc. revert Hc.
  unfold applyFinish. destruct (applier rf); intros Hc; try by apply steady_eq.
  revert Hc. case_bool_decide; intros Hc; by apply steady_same.
Qed.
End node.

(** ** The cluster *)

Section cluster.
Context {Cmd : Type} `{!GobStream (gobval Cmd)} (n : nat).
Implicit Types (s : Cluster Cmd) (rf : Raft Cmd).

(** A call of term [T] with bound [m] was issued by [rf] as leader of [T]. *)
Definition sent_by (T m : Z) rf : Prop :=
  T < currentTerm rf \/
  (currentTerm rf = T /\ role rf <> Candidate /\ (role rf = Leader -> acked rf m)).

Definition body_bound (b : CallBody Cmd) : option Z :=
  match b with
  | VoteCall _ _ _ => None
  | AppendCall args _ => Some (PrevLogIndex args + len (Entries args))
  | InstallCall args _ => Some (LastIncludedIndex args)
  end.

Definition call_inv (ns : list (Raft Cmd)) (r : RPC Cmd) : Prop :=
  match body_bound (body r) with
  | None => True
  | Some m => (to r < n)%nat /\ exists rf, ns !! from r = Some rf /\ sent_by (cterm r) m rf
  end.

Record bound_inv s : Prop := {
  bi_commit i rf : nodes s !! i = Some rf -> 0 <= commitIndex rf;
  bi_progress i rf : nodes s !! i = Some rf -> role rf = Leader -> progress rf;
  bi_call k r : calls s !! k = Some r -> call_inv (nodes s) r;
}.

Lemma sent_by_quiet T m rf rf' :
  quiet rf rf' -> (role rf' = Leader -> acked rf m -> acked rf' m) ->
  sent_by T m rf -> sent_by T m rf'.
Proof.
  intros [_ _ _ Qv Qr _ _] Hack [?|(Ht & Hr & Hm)].
  - left. destruct Qv as [[? _]|[? _]]; lia.
  - destruct Qv as [[Ht' _]|[? _]]; [|left; lia]. right.
    destruct Qr as [[Hr' _]|Hr'].
    + split_and!; [lia|congruence|]. intros Hl. apply Hack; [done|]. apply Hm. congruence.
    + split_and!; [lia|congruence|congruence].
Qed.

Lemma call_inv_put s i rf rf' r :
  nodes s !! i = Some rf -> (forall T m, sent_by T m rf -> sent_by T m rf') ->
  call_inv (nodes s) r -> call_inv (<[i := rf']> (nodes s)) r.
Proof.
  intros Hi Hsent. unfold call_inv. destruct (body_bound (body r)) as [m|]; [|done].
  intros (? & rf0 & Hrf0 & Hs). split; [done|].
  destruct (decide (i = from r)) as [->|Hne].
  - exists rf'. simplify_eq. split; [|auto]. apply list_lookup_insert_eq. eapply lookup_lt_Some; eauto.
  - exists rf0. by rewrite list_lookup_insert_ne.
Qed.

Lemma bound_inv_put s i rf rf' :
  bound_inv s -> nodes s !! i = Some rf -> 0 <= commitIndex rf' ->
  (role rf' = Leader -> progress rf') -> (forall T m, sent_by T m rf -> sent_by T m rf') ->
  bound_inv (put_node s i rf').
Proof.
  intros [Hc Hp Hr] Hi Hc' Hp' Hs'. constructor; simpl.
  - intros j rf0 [(<- & <- & _)|[? ?]]%list_lookup_insert_Some; eauto.
  - intros j rf0 [(<- & <- & _)|[? ?]]%list_lookup_insert_Some; eauto.
  - intros k r Hk. eapply call_inv_put; eauto.
Qed.

Lemma bound_inv_calls s cs :
  bound_inv s -> (forall k r, cs !! k = Some r -> call_inv (nodes s) r) ->
  bound_inv (set_calls s cs).
Proof. intros [Hc Hp Hr] Hcs. by constructor. Qed.

Lemma bound_inv_call s k r r' :
  bound_inv s -> calls s !! k = Some r ->
  (call_inv (nodes s) r -> call_inv (nodes s) r') -> bound_inv (set_calls s (<[k := r']> (calls s))).
Proof.
  intros HB Hk Hr. apply bound_inv_calls; [done|].
  intros k0 r0 [(<- & <- & _)|[? ?]]%list_lookup_insert_Some; [apply Hr|]; eapply bi_call; eauto.
Qed.

Lemma bound_inv_frame s s' :
  bound_inv s -> nodes s' = nodes s -> calls s' = calls s -> bound_inv s'.
Proof. intros [Hc Hp Hr] Hn Hcs. constructor; rewrite ?Hn ?Hcs; eauto. Qed.

Lemma bound_inv_steady s i rf rf' :
  bound_inv s -> nodes s !! i = Some rf -> steady rf rf' ->
  (forall T m, sent_by T m rf -> sent_by T m rf') -> bound_inv (put_node s i rf').
Proof.
  intros HB Hi Hst Hsent. eapply bound_inv_put; eauto.
  - pose proof (bi_commit _ HB _ _ Hi). pose proof (st_commit _ _ Hst). lia.
  - intros Hr. eapply steady_progress; eauto. eapply bi_progress; eauto.
Qed.

Lemma bound_inv_quiet s i rf rf' :
  bound_inv s -> nodes s !! i = Some rf -> quiet rf rf' -> steady rf rf' ->
  bound_inv (put_node s i rf').
Proof.
  intros HB Hi Hq Hst. eapply bound_inv_steady; eauto.
  intros T m. apply sent_by_quiet; [done|]. intros. eapply steady_acked; eauto.
Qed.

(** Bookkeeping sections: same log, larger commit index. *)
Lemma bound_inv_bookkeeping s i rf rf' :
  bound_inv s -> nodes s !! i = Some rf -> quiet rf rf' -> log rf' = log rf ->
  (role rf' = Leader -> progress rf') -> commitIndex rf <= commitIndex rf' ->
  bound_inv (put_node s i rf').
Proof.
  intros HB Hi Hq Hl Hpr Hc. eapply bound_inv_put; eauto.
  - pose proof (bi_commit _ HB _ _ Hi). lia.
  - intros T m. apply sent_by_quiet; [done|]. unfold acked. rewrite Hl. lia.
Qed.

Lemma electionTick_sent c1 c2 rf rf' o T m :
  electionTick c1 c2 rf = (rf', o) -> sent_by T m rf -> sent_by T m rf'.
Proof.
  intros [[_ ->]|(_ & _ & _ & Ht & _)]%electionTick_spec; [done|].
  intros [?|(? & _)]; left; lia.
Qed.

Lemma RequestVote_sent c rf args reply rf' T m :
  RequestVote c rf args = Ret (reply, rf') -> sent_by T m rf -> sent_by T m rf'.
Proof.
  intros (rf1 & Hq & Hl1 & Hl & _ & _ & Hc & Hcase)%RequestVote_spec Hby.
  destruct Hcase as [[_ ->]|(_ & _ & _ & _ & Ht & Hr & _)].
  - eapply sent_by_quiet; [exact Hq| |exact Hby]. unfold acked. by rewrite Hl Hc.
  - assert (sent_by T m (set_commitIndex rf1 (commitIndex rf))) as Hby1.
    { eapply (sent_by_quiet _ _ rf); [| |exact Hby].
      - eapply quiet_trans; [exact Hq|]. by apply quiet_volatile.
      - unfold acked. simpl. by rewrite Hl1. }
    unfold sent_by, acked in *. simpl in *. rewrite Ht Hr Hl Hc -Hl1. done.
Qed.

(** The winner starts with fresh bookkeeping, and issued nothing before. *)
Lemma handleVoteReply_bound s i rf c term votes reply rf' votes' won :
  bound_inv s -> nodes s !! i = Some rf -> log_wf (log rf) ->
  length (nextIndex rf) = peers rf -> length (matchIndex rf) = peers rf ->
  handleVoteReply c rf term votes reply = Ret (rf', votes', won) ->
  bound_inv (put_node s i rf').
Proof.
  intros HB Hi Hwf Hn Hm H. apply handleVoteReply_spec in H; [|done..].
  destruct H as [(Hq & _ & Hl & Hn' & Hm' & Hc & _)
    |(_ & _ & _ & _ & Hr & _ & Hr' & Ht & _ & _ & _ & Hl & Hc & _ & Hn' & Hm')].
  - eapply bound_inv_quiet; [exact HB|exact Hi|exact Hq|]. apply steady_eq; eauto using quiet_leader.
  - eapply bound_inv_put; eauto.
    + rewrite Hc. eapply bi_commit; eauto.
    + intros _. constructor; rewrite ?Hn' ?Hm' ?Hl.
      * intros p x [-> _]%lookup_replicate_1. lia.
      * intros p m [-> _]%lookup_replicate_1. by left.
    + intros T m [?|(_ & ? & _)]; [left; lia|done].
Qed.

Lemma Make_commit npeers i ps : 0 <= commitIndex (Make npeers i ps : Raft Cmd).
Proof. unfold Make, readPersist. repeat (case_match; simpl; try lia). case_bool_decide; simpl in *; lia. Qed.

Lemma restart_bound B E s i rf :
  election_inv n B E s -> bound_inv s -> nodes s !! i = Some rf ->
  bound_inv (put_node s i (Make (peers rf) (me rf) (Copy (persister rf)))).
Proof.
  intros HI HB Hi. destruct (ei_node _ _ _ _ HI _ _ Hi) as [_ _ (Ht & _ & _) _ _ _ _ _ _].
  assert (Copy (persister rf) = persister rf) as -> by by destruct (persister rf).
  destruct (Make_frame (Cmd:=Cmd) (peers rf) (me rf) (persister rf)) as (_ & _ & _ & Hr & _).
  eapply bound_inv_put; eauto using Make_commit; rewrite ?Hr; [done|].
  unfold sent_by. rewrite Ht Hr. intros T m [?|(? & _)]; [by left|right]. done.
Qed.

Lemma sane_node B E s i rf :
  election_inv n B E s -> shape_inv s -> bound_inv s -> nodes s !! i = Some rf ->
  sane rf /\ peers rf = n.
Proof.
  intros HI HM HB Hi. destruct (ei_node _ _ _ _ HI _ _ Hi) as [_ Hp _ Hn Hm _ _ _ _].
  split; [|done]. constructor; try congruence.
  - eapply sh_wf; eauto.
  - eapply bi_commit; eauto.
  - eapply bi_progress; eauto.
Qed.

(** The bound of a call holds when its caller still leads the term of the call. *)
Lemma call_acked s k r rf m :
  bound_inv s -> calls s !! k = Some r -> nodes s !! from r = Some rf ->
  body_bound (body r) = Some m ->
  (to r < n)%nat /\ (role rf = Leader -> currentTerm rf = cterm r -> acked rf m).
Proof.
  intros HB Hk Hrf Hb. pose proof (bi_call _ HB _ _ Hk) as Hc. unfold call_inv in Hc.
  rewrite Hb in Hc. destruct Hc as (? & rf0 & ? & Hs). simplify_eq. split; [done|].
  intros Hr Ht. destruct Hs as [?|(_ & _ & Ha)]; [lia|auto].
Qed.

Lemma call_inv_retire s r : call_inv (nodes s) r -> call_inv (nodes s) (retire r).
Proof. done. Qed.

Lemma call_inv_encode ns r entries : call_inv ns r -> call_inv ns (encode_as r entries).
Proof.
  destruct (encode_as_spec r entries) as [->|(args & Hb & Hl & ->)]; [done|].
  unfold call_inv. rewrite Hb. simpl. by rewrite /len Hl.
Qed.

Lemma deliver_bound s k r c s' :
  bound_inv s -> calls s !! k = Some r -> deliver s k r c = Ret s' -> bound_inv s'.
Proof.
  intros HB Hk Hd. unfold deliver, with_node in Hd.
  destruct (nodes s !! to r) as [rf|] eqn:Hrf; [|by inv_ret].
  pose proof (bi_call _ HB _ _ Hk) as Hcall.
  assert (forall b rf', body_bound b = body_bound (body r) -> bound_inv (put_node s (to r) rf') ->
    bound_inv (set_calls (put_node s (to r) rf') (<[k := set_body r b false]> (calls s)))) as Hset.
  { intros b rf' Hb HB'. apply (bound_inv_call (put_node s (to r) rf') k r); [done|done|].
    unfold call_inv. simpl. by rewrite Hb. }
  destruct (body r) as [el args o|args o|args o] eqn:Hbody.
  - inv_ret. destruct v as [reply rf']. inv_ret. apply Hset; [done|].
    eapply bound_inv_steady; eauto using RequestVote_steady, RequestVote_sent.
  - inv_ret. destruct v as [reply rf']. inv_ret. apply Hset; [done|].
    eapply bound_inv_quiet; eauto using AppendEntries_steady, AppendEntries_quiet.
  - destruct (InstallSnapshot c rf args) as [reply rf'] eqn:Hm. inv_ret. apply Hset; [done|].
    eapply bound_inv_quiet; eauto using InstallSnapshot_steady, InstallSnapshot_quiet.
Qed.

(** The caller of [r] handles its reply: it does not panic and keeps the
    bounds. *)
Lemma receive_bound B E s k r c :
  election_inv n B E s -> shape_inv s -> bound_inv s -> calls s !! k = Some r ->
  exists s', receive s k r c = Ret s' /\ bound_inv s'.
Proof.
  intros HI HM HB Hk. unfold receive, with_node. simpl.
  assert (bound_inv (set_calls s (<[k := retire r]> (calls s)))) as HBr
    by (eapply bound_inv_call; eauto using call_inv_retire).
  destruct (nodes s !! from r) as [rf|] eqn:Hrf; [|by eexists].
  destruct (sane_node _ _ _ _ _ HI HM HB Hrf) as [Hsane Hp].
  destruct (body r) as [el args [rep|]|args [rep|]|args [rep|]] eqn:Hbody; try by eexists.
  - destruct (elections s !! el) as [votes|]; [|by eexists].
    destruct (handleVoteReply_total c rf (cterm r) votes rep) as [[[rf' votes'] won] Hv];
      [apply Hsane..|]. rewrite Hv /=. eexists. split; [done|].
    pose proof (handleVoteReply_bound _ _ _ _ _ _ _ _ _ _ HBr Hrf (sa_wf _ Hsane) (sa_next _ Hsane)
      (sa_match _ Hsane) Hv) as HB'.
    destruct won; by eapply bound_inv_frame; [exact HB'|..].
  - destruct (call_acked s k r rf (PrevLogIndex args + len (Entries args))) as [Hto Hack];
      [done..|by rewrite Hbody|].
    destruct (handleAppendReply_total c rf (Z.of_nat (to r)) (cterm r) args rep) as (rf' & Hr & ? & ?);
      [done|lia|done|]. rewrite Hr /=. eexists. split; [done|].
    eapply bound_inv_bookkeeping; eauto using handleAppendReply_quiet, handleAppendReply_log.
  - destruct (call_acked s k r rf (LastIncludedIndex args)) as [Hto Hack]; [done..|by rewrite Hbody|].
    destruct (handleInstallReply_total c rf (Z.of_nat (to r)) (cterm r) args rep) as (rf' & Hr & ? & ?);
      [done|lia|done|]. rewrite Hr /=. eexists. split; [done|].
    eapply bound_inv_bookkeeping; eauto using handleInstallReply_quiet, handleInstallReply_log.
Qed.

Lemma repl_rpc_bound i T rc rf (ns : list (Raft Cmd)) :
  ns !! i = Some rf -> sent_by T (call_bound rc) rf -> 0 <= call_peer rc < Z.of_nat n ->
  call_inv ns (repl_rpc i T rc).
Proof.
  intros Hi Hs Hp. unfold call_inv. destruct rc; simpl in *; (split; [lia|]); eauto.
Qed.

(** One pass of [replicationTicker]. *)
Lemma replicate_bound B E s i T rf :
  election_inv n B E s -> shape_inv s -> bound_inv s -> nodes s !! i = Some rf ->
  exists o, startReplication rf T = Ret o /\
    match o with
    | None => True
    | Some (rf', cs) =>
        bound_inv (set_calls (put_node s i rf') (calls s ++ (repl_rpc i T <$> cs)))
    end.
Proof.
  intros HI HM HB Hi. destruct (sane_node _ _ _ _ _ HI HM HB Hi) as [Hsane Hp].
  destruct (startReplication_total rf T Hsane) as (o & Ho & Hpost). exists o. split; [done|].
  destruct o as [[rf' cs]|]; [|done]. destruct Hpost as [Hl Hc _ _ _ Hpr Hcs].
  pose proof (startReplication_quiet _ _ _ _ Ho) as Hq.
  pose proof (startReplication_log _ _ _ _ Ho) as (Hr & Ht & _).
  assert (bound_inv (put_node s i rf')) as HB'.
  { eapply bound_inv_bookkeeping; eauto. lia. }
  apply bound_inv_calls; [done|].
  intros k r [?|[_ (rc & -> & Hrc)%list_lookup_fmap_Some]]%lookup_app_Some.
  - eapply (bi_call _ HB'); eauto.
  - destruct (Forall_lookup_1 _ _ _ _ Hcs Hrc) as [Hack Hpeer].
    eapply repl_rpc_bound; [apply list_lookup_insert_eq; eapply lookup_lt_Some; eauto| |lia].
    apply (sent_by_quiet _ _ rf); [done|unfold acked; by rewrite Hl Hc|].
    right. split_and!; congruence.
Qed.

(** The service asks for a snapshot. *)
Definition takes_snapshot (e : Event Cmd) : bool :=
  match e with ESnapshot _ _ _ => true | _ => false end.

Definition progresses e s : Prop := exists s', step e s = Ret s' /\ bound_inv s'.

(** Events of one peer that do not involve its bookkeeping. *)
Lemma local_progresses s i (f : Raft Cmd -> outcome (Raft Cmd)) :
  bound_inv s ->
  (forall rf, nodes s !! i = Some rf -> exists rf', f rf = Ret rf' /\ quiet rf rf' /\ steady rf rf') ->
  exists s', with_node s i (fun rf => rf ← f rf; Ret (put_node s i rf)) = Ret s' /\ bound_inv s'.
Proof.
  intros HB Hf. unfold with_node. destruct (nodes s !! i) as [rf|] eqn:Hi; [|by eexists].
  destruct (Hf rf eq_refl) as (rf' & -> & ? & ?). eexists. split; [done|].
  eapply bound_inv_quiet; eauto.
Qed.

Lemma election_progresses B E s k :
  election_inv n B E s -> shape_inv s -> bound_inv s -> progresses (EStartElection k) s.
Proof.
  intros HI HM HB. unfold progresses. simpl.
  destruct (goroutines s !! k) as [[i T|i T|]|]; try by eexists.
  unfold with_node. destruct (nodes s !! i) as [rf|] eqn:Hi; [|by eexists].
  destruct (startElection_total rf T (sh_wf _ HM _ _ Hi)) as [o ->]. simpl.
  eexists. split; [done|]. destruct o as [[votes cs]|]; [|by eapply bound_inv_frame; [exact HB|..]].
  destruct HB as [Hc Hp Hcalls]. constructor; [done|done|]. simpl.
  intros k0 r0 [?|[_ (pc & -> & _)%list_lookup_fmap_Some]]%lookup_app_Some; [eauto|done].
Qed.

Lemma replicate_progresses B E s k :
  election_inv n B E s -> shape_inv s -> bound_inv s -> progresses (EReplicate k) s.
Proof.
  intros HI HM HB. unfold progresses. simpl.
  destruct (goroutines s !! k) as [[i T|i T|]|]; try by eexists.
  unfold with_node. destruct (nodes s !! i) as [rf|] eqn:Hi; [|by eexists].
  destruct (replicate_bound _ _ _ _ T _ HI HM HB Hi) as (o & -> & Hpost). simpl.
  eexists. split; [done|]. destruct o as [[rf' cs]|]; [done|].
  by eapply bound_inv_frame; [exact HB|..].
Qed.

Lemma deliver_progresses B E s k c :
  election_inv n B E s -> shape_inv s -> bound_inv s -> progresses (EDeliver k c) s.
Proof.
  intros HI HM HB. unfold progresses. simpl.
  destruct (calls s !! k) as [r|] eqn:Hk; [|by eexists]. destruct (pending r); [|by eexists].
  assert (exists s', deliver s k r c = Ret s') as [s' Hs']; [|eauto using deliver_bound].
  unfold deliver, with_node. destruct (nodes s !! to r) as [rf|] eqn:Hi; [|by eexists].
  pose proof (sh_wf _ HM _ _ Hi) as Hwf. destruct (body r) as [el args o|args o|args o].
  - destruct (RequestVote_total c rf args Hwf) as [[reply rf'] ->]. by eexists.
  - destruct (AppendEntries_total c rf args Hwf) as [[reply rf'] ->]. by eexists.
  - destruct (InstallSnapshot c rf args). by eexists.
Qed.

Lemma crash_progresses B E s i :
  election_inv n B E s -> bound_inv s -> progresses (ECrash i) s.
Proof.
  intros HI HB. unfold progresses. simpl. unfold with_node.
  destruct (nodes s !! i) as [rf|] eqn:Hi; [|by eexists]. eexists. split; [done|].
  pose proof (restart_bound _ _ _ _ _ HI HB Hi) as HB'.
  apply (bound_inv_calls (set_goroutines _ _)); [by eapply bound_inv_frame; [exact HB'|..]|].
  simpl. intros k r (r0 & -> & Hr0)%list_lookup_fmap_Some.
  unfold kill_rpc. case_bool_decide; [apply (call_inv_retire (put_node s i _))|];
    exact (bi_call _ HB' _ _ Hr0).
Qed.

Lemma step_progresses B E s e :
  election_inv n B E s -> shape_inv s -> bound_inv s -> takes_snapshot e = false ->
  progresses e s.
Proof.
  intros HI HM HB He. destruct e; try done;
    eauto using election_progresses, replicate_progresses, deliver_progresses, crash_progresses;
    unfold progresses; simpl.
  - unfold with_node. destruct (nodes s !! i) as [rf|] eqn:Hi; [|by eexists].
    destruct (electionTick c1 c2 rf) as [rf' o] eqn:Ht. eexists. split; [done|].
    assert (bound_inv (put_node s i rf')) as HB'
      by (eapply bound_inv_steady; eauto using electionTick_steady, electionTick_sent).
    destruct o; [|done]. by eapply bound_inv_frame; [exact HB'|..].
  - destruct (calls s !! k) as [r|] eqn:Hk; [|by eexists]. eexists. split; [done|].
    apply (bound_inv_call s k r); [done|done|]. apply call_inv_encode.
  - destruct (calls s !! k) as [r|] eqn:Hk; [|by eexists]. case_match; [|by eexists].
    eapply receive_bound; eauto.
  - destruct (calls s !! k) as [r|] eqn:Hk; [|by eexists]. eexists. split; [done|].
    eapply bound_inv_call; eauto using call_inv_retire.
  - unfold with_node. destruct (nodes s !! i) as [rf|] eqn:Hi; [|by eexists].
    destruct (Start rf command) as [r rf'] eqn:Ht. eexists. split; [done|].
    eapply bound_inv_quiet; eauto using Start_quiet, Start_steady.
  - eapply (local_progresses s i (fun rf => Ret (applyWait rf))); [done|].
    eauto using applyWait_quiet, applyWait_steady.
  - apply local_progresses; [done|]. intros rf Hi.
    destruct (applyCollect_total rf (sh_wf _ HM _ _ Hi)) as [rf' Hrf'].
    exists rf'. eauto using applyCollect_quiet, applyCollect_steady.
  - unfold with_node. destruct (nodes s !! i) as [rf|] eqn:Hi; [|by eexists].
    destruct (applyDeliver rf) as [ms rf'] eqn:Ht. eexists. split; [done|].
    apply (bound_inv_frame (put_node s i rf')); [|done..].
    eapply bound_inv_quiet; eauto using applyDeliver_quiet, applyDeliver_steady.
  - eapply (local_progresses s i (fun rf => Ret (applyFinish rf))); [done|].
    eauto using applyFinish_quiet, applyFinish_steady.
Qed.

Lemma step_bound_inv B E s e s' :
  election_inv n B E s -> shape_inv s -> bound_inv s -> step e s = Ret s' -> bound_inv s'.
Proof.
  intros HI HM HB Hs. destruct (takes_snapshot e) eqn:He.
  - destruct e; try done. simpl in Hs. unfold with_node in Hs.
    destruct (nodes s !! i) as [rf|] eqn:Hi; inv_ret; [|done].
    eapply bound_inv_quiet; eauto using Snapshot_quiet, Snapshot_steady.
  - destruct (step_progresses _ _ _ _ HI HM HB He) as (s1 & Hs1 & ?). congruence.
Qed.

Lemma init_bound_inv : bound_inv (init n : Cluster Cmd).
Proof.
  constructor; [| |done].
  - intros i rf ->%init_nodes. apply Make_commit.
  - intros i rf ->%init_nodes. by destruct (Make_frame (Cmd:=Cmd) n (Z.of_nat i) MakePersister) as (_ & _ & _ & -> & _).
Qed.

Lemma reachable_bound_inv s :
  reachable n s -> exists B E, election_inv n B E s /\ shape_inv s /\ bound_inv s.
Proof.
  revert s. apply (rtc_ind_r (fun s => exists B E, election_inv n B E s /\ shape_inv s /\ bound_inv s) (init n)).
  - exists ∅, []. split_and!; [apply init_election_inv|apply init_shape|apply init_bound_inv].
  - intros s1 s2 _ [e He] (B & E & HI & HM & HB).
    destruct (step_election_inv _ _ _ _ _ _ HI He) as (B' & E' & _ & HI').
    exists B', E'. split_and!; [done|exact (step_shape _ _ _ _ _ _ HI HM He)|exact (step_bound_inv _ _ _ _ _ HI HM HB He)].
Qed.
End cluster.

(** ** Theorem *)

Section theorem.
Context {Cmd : Type} `{!GobStream (gobval Cmd)}.

(** C4. Memory safety of the peers: in every reachable state of a cluster, the
    critical section of every event returns.  No handler, ticker, reply
    handler or applier indexes the log, [nextIndex], [matchIndex] or the
    sorted match indices out of range, and the back-off loop terminates.  The
    event excluded is a call of [Snapshot] by the service. *)
Theorem peers_never_panic (n : nat) (s : Cluster Cmd) (e : Event Cmd) :
  reachable n s -> takes_snapshot e = false -> exists s', step e s = Ret s'.
Proof.
  intros (B & E & HI & HM & HB)%reachable_bound_inv He.
  destruct (step_progresses _ _ _ _ _ HI HM HB He) as (s' & ? & _). eauto.
Qed.
End theorem.
