(* ===== verification/RaftScenarios.v ===== *)
(** * RaftScenarios: concrete schedules of a three-peer cluster

    Schedules executed by evaluation.  They show that the hypotheses of the
    Raft theorems hold in real runs, and they exhibit what the code does when
    messages are reordered. *)

From S2P Require Import Prelude LabGob RaftLog Persister RaftNode RaftNodeFacts.
From S2P Require Import RaftNet RaftElection RaftMatching RaftPanicFree.
Local Open Scope Z_scope.

Definition early : Clock := mkClock 0 0.
Definition late : Clock := mkClock (1000 * Millisecond) 0.

(** The cluster a schedule leads to. *)
Definition after {Cmd} `{!GobStream (gobval Cmd)} (n : nat) (es : list (Event Cmd)) : Cluster Cmd :=
  match run es (init n) with Ret s => s | Panic _ => init n end.

(** Peer 0 times out, peer 1 votes for it, peer 0 leads term 1. *)
Definition elect0 : list (Event Z) :=
  [EElectionTick 0 late late; EStartElection 0; EDeliver 0 early; EReply 0 early].

(** Peer 0 receives command 10 and sends it to both followers (calls 2 and 3);
    then it receives command 20 and sends both entries (calls 4 and 5).  Call
    4 overtakes call 2: peer 1 acknowledges both entries, and peer 0 commits
    and applies them. *)
Definition commit20 : list (Event Z) :=
  elect0 ++
  [EStart 0 (Some 10); EReplicate 1; EStart 0 (Some 20); EReplicate 1;
   EApplyWait 0; EDeliver 4 early; EReply 4 early;
   EApplyCollect 0; EApplyDeliver 0; EApplyFinish 0].

(** Call 2 arrives late and truncates the log of peer 1; call 3 arrives at
    peer 2.  Peer 2 times out and wins term 2 with the vote of peer 1, then
    commits command 30 at index 2. *)
Definition lose20 : list (Event Z) :=
  commit20 ++
  [EDeliver 2 early; EDeliver 3 early;
   EElectionTick 2 late late; EStartElection 2; EDeliver 7 early; EReply 7 early;
   EStart 2 (Some 30); EReplicate 3; EApplyWait 2; EDeliver 9 early; EReply 9 early;
   EApplyCollect 2; EApplyDeliver 2; EApplyFinish 2].


(** As [commit20], and the leader tells peer 1 that both entries are
    committed; peer 1 applies them.  Then call 2 arrives and truncates its
    log at an index below the one it has applied. *)
Definition truncate_applied : list (Event Z) :=
  commit20 ++
  [EApplyWait 1; EReplicate 1; EDeliver 6 early;
   EApplyCollect 1; EApplyDeliver 1; EApplyFinish 1; EDeliver 2 early].

(** Peer 1 applies both entries and takes a snapshot at index 2; the rejection
    of the late call 2 makes the leader move [nextIndex] for peer 1 back, and
    the rejection of call 8, which carries the next entry, moves it to 0. *)
Definition stuck_peer : list (Event Z) :=
  commit20 ++
  [EApplyWait 1; EReplicate 1; EDeliver 6 early; EReply 6 early;
   EApplyCollect 1; EApplyDeliver 1; EApplyFinish 1; ESnapshot 1 2 [];
   EDeliver 2 early; EReply 2 early; EStart 0 (Some 30);
   EReplicate 1; EDeliver 8 early; EReply 8 early].

(** One more round of the leader's ticker, when [m] calls have been issued:
    peer 1 receives its call and its answer is received. *)
Definition round (m : nat) : list (Event Z) := [EReplicate 1; EDeliver m early; EReply m early].

Fixpoint rounds (k m : nat) : list (Event Z) :=
  match k with O => [] | S k => round m ++ rounds k (m + 2) end.

Lemma after_reachable n (es : list (Event Z)) s : run es (init n) = Ret s -> reachable n (after n es).
Proof. intros H. unfold after. rewrite H. eapply run_reachable; exact H. Qed.

Ltac by_schedule := eapply after_reachable; vm_compute; reflexivity.

(** ** A committed entry is lost *)

Definition command_at (s : Cluster Z) (p : nat) (i : Z) (cmd : Z) : bool :=
  existsb (fun pm => bool_decide (pm.1 = p) && bool_decide (CommandIndex pm.2 = i)
    && bool_decide (am_Command pm.2 = Some cmd) && am_CommandValid pm.2) (delivered s).



(** ** A peer that is never brought up to date *)

Section stuck.
Let s0 : Cluster Z := after 3 stuck_peer.
Let rf0 : Raft Z := default (Make 3 0 MakePersister) (nodes s0 !! 0%nat).
Let rf1 : Raft Z := default (Make 3 0 MakePersister) (nodes s0 !! 1%nat).
Let rf2 : Raft Z := default (Make 3 0 MakePersister) (nodes s0 !! 2%nat).
Let args : InstallSnapshotArgs := mkInstallSnapshotArgs 1 0 0 0 [].

Lemma stuck_nodes : nodes s0 = [rf0; rf1; rf2].
Proof. vm_compute. reflexivity. Qed.

Lemma stuck_ticker : goroutines s0 !! 1%nat = Some (GReplicationTicker 0 1).
Proof. vm_compute. reflexivity. Qed.

Lemma stuck_sends :
  startReplication rf0 1 = Ret (Some (rf0, [CallInstall 1 args;
    CallAppend 2 (mkAppendEntriesArgs Z 1 0 0 0 (drop 1 (tailLog (log rf0))) 2)])).
Proof. vm_compute. reflexivity. Qed.

Lemma stuck_ignored : InstallSnapshot early rf1 args = (mkInstallSnapshotReply 1, rf1).
Proof. vm_compute. reflexivity. Qed.

Lemma stuck_reply : handleInstallReply early rf0 1 1 args (mkInstallSnapshotReply 1) = Ret rf0.
Proof. vm_compute. reflexivity. Qed.

Lemma stuck_round (s : Cluster Z) :
  nodes s = nodes s0 -> goroutines s = goroutines s0 ->
  exists s', run (round (length (calls s))) s = Ret s' /\ nodes s' = nodes s0 /\
    goroutines s' = goroutines s0 /\ length (calls s') = (length (calls s) + 2)%nat.
Proof.
  pose proof stuck_nodes as Hn. pose proof stuck_ticker as Hg. pose proof stuck_sends as Hsr.
  pose proof stuck_ignored as His. pose proof stuck_reply as Hr. clearbody rf0 rf1 rf2 args s0.
  intros Hs Hgs. unfold round. cbn [run step]. rewrite Hgs Hg /with_node Hs Hn /= Hsr /=.
  rewrite lookup_app_r // Nat.sub_diag /= /deliver /with_node /= Hs Hn /= His /=.
  rewrite list_lookup_insert_eq /=; [rewrite length_app /=; lia|].
  rewrite /receive /with_node /= Hs Hn /= Hr /=.
  eexists. split; [done|]. simpl. by rewrite Hs Hn !length_insert length_app.
Qed.

Lemma stuck_rounds k (s : Cluster Z) :
  nodes s = nodes s0 -> goroutines s = goroutines s0 ->
  exists s', run (rounds k (length (calls s))) s = Ret s' /\ nodes s' = nodes s0.
Proof.
  pose proof stuck_round as Hround. clearbody rf0 rf1 rf2 args s0.
  revert s. induction k as [|k IH]; intros s Hn Hg; [by exists s|].
  destruct (Hround s Hn Hg) as (s1 & H1 & Hn1 & Hg1 & Hl1). cbn [rounds].
  rewrite run_app H1 /= -Hl1. by apply IH.
Qed.
End stuck.


(** ** Witnesses *)

Lemma election_safety_witness :
  is_leader (after 3 elect0) 0 1 /\ is_leader (after 3 commit20) 0 1 /\ 0%nat = 0%nat.
Proof.
  assert (is_leader (after 3 elect0) 0 1) as H0 by (eexists; split_and!; vm_compute; reflexivity).
  assert (is_leader (after 3 commit20) 0 1) as H1 by (eexists; split_and!; vm_compute; reflexivity).
  split; [exact H0|]. split; [exact H1|].
  apply (election_safety 3 (after 3 elect0) (after 3 commit20) 0 0 1); [by_schedule| |exact H0|exact H1].
  apply (run_rtc (drop 4 commit20)). vm_compute. reflexivity.
Defined.

(** Peer 2 after it has voted, led term 2 and appended command 30. *)
Lemma restart_recovers_witness :
  exists rf : Raft Z, nodes (after 3 lose20) !! 2%nat = Some rf /\ role rf = Leader /\
    currentTerm (Make (peers rf) (me rf) (persister rf) : Raft Z) = 2 /\
    log_size (log (Make (peers rf) (me rf) (persister rf) : Raft Z)) = 3.
Proof.
  destruct (nodes (after 3 lose20) !! 2%nat) as [rf|] eqn:Hrf; [|vm_compute in Hrf; discriminate].
  exists rf. split; [reflexivity|].
  destruct (restart_recovers 3 (after 3 lose20) 2 rf) as (Ht & _ & Hl); [by_schedule|exact Hrf|].
  rewrite Ht Hl. vm_compute in Hrf. injection Hrf as <-. split_and!; reflexivity.
Defined.

(** The leader of [stuck_peer] replicates to a peer with a newer snapshot. *)
Lemma peers_never_panic_witness : exists s', step (EReplicate 1) (after 3 stuck_peer) = Ret s'.
Proof. apply (peers_never_panic 3); [by_schedule|reflexivity]. Defined.
