(* ===== verification/RaftDelivery.v ===== *)
(** * RaftDelivery: what a peer hands to its service

    A service that replays a log needs every command in turn: after position
    [p] comes the command with index [p + 1], or a snapshot, which sets the
    position.  [run_services] runs a cluster with the position of every service;
    a position is lost when a message leaves a gap.  Deliveries have no gap as
    long as no snapshot is installed between the delivery of another one and the
    end of that round of [applicationTicker]; a run shows that one that is
    installed there is never delivered. *)

From Stdlib Require Import Strings.Byte.
From S2P Require Import Prelude LabGob RaftLog Persister RaftNode RaftNet RaftNodeFacts RaftElection RaftMatching RaftScenarios.
Local Open Scope Z_scope.

Section delivery.
Context {Cmd : Type} `{!GobStream (gobval Cmd)}.
Notation Msg := (ApplyMsg Cmd).
Implicit Types (s : Cluster Cmd) (rf : Raft Cmd) (e : Event Cmd) (m : Msg) (P : list (option Z)).

(** ** Services *)

(** The position after one message; [None] if a command does not follow. *)
Definition receive1 (p : Z) m : option Z :=
  if SnapshotValid m then Some (SnapshotIndex m)
  else if bool_decide (CommandIndex m = p + 1) then Some (p + 1) else None.

Definition receive_all (o : option Z) (ms : list Msg) : option Z := foldl (fun o m => p ← o; receive1 p m) o ms.

(** The messages that the step from [s] to [s'] delivered. *)
Definition new_messages s s' : list Msg := snd <$> drop (length (delivered s)) (delivered s').

(** A restarted service has read the snapshot its peer starts from. *)
Definition restart_position s (i : nat) : option Z := (fun rf => snapLastIdx (log rf)) <$> nodes s !! i.

Definition move e s s' P : list (option Z) :=
  match e with
  | EApplyDeliver i => alter (fun o => receive_all o (new_messages s s')) i P
  | ECrash i => <[i := restart_position s' i]> P
  | _ => P
  end.

Fixpoint run_services (es : list (Event Cmd)) s P : outcome (Cluster Cmd * list (option Z)) :=
  match es with
  | [] => Ret (s, P)
  | e :: es => s' ← step e s; run_services es s' (move e s s' P)
  end.

(** Services ask for snapshots of what they received; a snapshot is not
    installed while the delivery of another one is being recorded. *)
Definition orderly e s P : bool :=
  match e with
  | ESnapshot i index _ => match P !! i with Some (Some p) => bool_decide (index <= p) | _ => false end
  | EDeliver k _ =>
      match calls s !! k with
      | Some r =>
          match body r, nodes s !! to r with
          | InstallCall _ _, Some rf => match applier rf with ApDoneSnap => false | _ => true end
          | _, _ => true
          end
      | None => true
      end
  | _ => true
  end.

Fixpoint all_orderly (es : list (Event Cmd)) s P : bool :=
  match es with
  | [] => true
  | e :: es => orderly e s P && match step e s with Ret s' => all_orderly es s' (move e s s' P) | Panic _ => true end
  end.

(** ** Frames *)

(** The persister holds the snapshot of the log. *)
Definition saved rf : Prop := ReadSnapshot (persister rf) = snapshot (log rf).

(** What the applier works with and the snapshot are unchanged, except that the
    applier may be woken. *)
Record frame rf rf' : Prop := {
  fr_last : lastApplied rf' = lastApplied rf;
  fr_snap : snapLastIdx (log rf') = snapLastIdx (log rf);
  fr_bytes : snapshot (log rf') = snapshot (log rf);
  fr_pending : snapPending rf' = snapPending rf;
  fr_saved : saved rf -> saved rf';
  fr_applier : applier rf' = applier rf \/ applier rf = ApWait /\ applier rf' = ApWoken;
}.

Lemma frame_same rf rf' : lastApplied rf' = lastApplied rf -> snapLastIdx (log rf') = snapLastIdx (log rf) ->
  snapshot (log rf') = snapshot (log rf) -> snapPending rf' = snapPending rf -> (saved rf -> saved rf') ->
  applier rf' = applier rf -> frame rf rf'.
Proof. intros. constructor; auto. Qed.

Lemma frame_trans rf1 rf2 rf3 : frame rf1 rf2 -> frame rf2 rf3 -> frame rf1 rf3.
Proof.
  intros [A1 A2 A3 A4 A5 A6] [B1 B2 B3 B4 B5 B6]. constructor; [congruence..|auto|].
  destruct A6 as [A6|[A6 A6']], B6 as [B6|[B6 B6']]; intuition congruence.
Qed.

Lemma frame_signal rf rf' : frame rf rf' -> frame rf (Signal rf').
Proof. intros Hf. eapply frame_trans; [exact Hf|]. unfold Signal. destruct (applier rf') eqn:E; try by apply frame_same. constructor; auto. Qed.

Lemma becomeFollower_frame c rf t : frame rf (becomeFollowerLocked c rf t).
Proof. unfold becomeFollowerLocked. repeat case_bool_decide; by apply frame_same. Qed.

Lemma becomeFollower_if_frame c rf (b : bool) t : frame rf (if b then becomeFollowerLocked c rf t else rf).
Proof. destruct b; [apply becomeFollower_frame|by apply frame_same]. Qed.

Lemma electionTick_frame c1 c2 rf rf' o : electionTick c1 c2 rf = (rf', o) -> frame rf rf'.
Proof. unfold electionTick, becomeCandidateLocked. intros E. repeat case_match; simplify_eq; by apply frame_same. Qed.

Lemma appendFrom_snap (rl : RaftLog Cmd) i es rl' : appendFrom rl i es = Ret rl' ->
  snapLastIdx rl' = snapLastIdx rl /\ snapshot rl' = snapshot rl.
Proof. unfold appendFrom. intros E. by inv_ret. Qed.

Lemma RequestVote_frame c rf args reply rf' : RequestVote c rf args = Ret (reply, rf') -> frame rf rf'.
Proof.
  unfold RequestVote. intros E. case_bool_decide; [inv_ret; by apply frame_same|].
  set (rf1 := if bool_decide (rv_Term args > currentTerm rf) then _ else rf) in E.
  assert (frame rf rf1) as Hf by apply becomeFollower_if_frame. clearbody rf1.
  repeat (case_match || inv_ret); try done. eapply frame_trans; [exact Hf|]. by apply frame_same.
Qed.

Lemma AppendEntries_frame c rf args reply rf' : AppendEntries c rf args = Ret (reply, rf') -> frame rf rf'.
Proof.
  unfold AppendEntries. intros E. case_bool_decide; [inv_ret; by apply frame_same|].
  set (rf1 := if bool_decide (ae_Term args >= currentTerm rf) then _ else rf) in E.
  assert (frame rf rf1) as Hf by apply becomeFollower_if_frame. clearbody rf1.
  repeat (case_bool_decide || inv_ret); try done; (eapply frame_trans; [exact Hf|]); apply appendFrom_snap in Hm0 as [? ?].
  - apply (frame_trans _ (Signal (set_commitIndex (persistLocked (set_log rf1 v0)) (LeaderCommit args)))); [apply frame_signal|]; by apply frame_same.
  - by apply frame_same.
Qed.

Lemma handleVoteReply_frame c rf term votes reply rf' votes' won :
  handleVoteReply c rf term votes reply = Ret (rf', votes', won) -> frame rf rf'.
Proof.
  unfold handleVoteReply. intros E. repeat (case_match || inv_ret); simplify_eq; try (by apply frame_same); try apply becomeFollower_frame.
  unfold becomeLeaderLocked in *. case_bool_decide; [inv_ret; by apply frame_same|]. inv_ret.
  apply (for_range_post (fun _ rf1 => frame rf rf1)) in Hm0; [|by apply frame_same|].
  - eapply frame_trans; [exact Hm0|]. by apply frame_same.
  - intros j rf1 rf2 _ Hf E. inv_ret. eapply frame_trans; [exact Hf|]. by apply frame_same.
Qed.

Lemma handleAppendReply_frame c rf peer term args reply rf' : handleAppendReply c rf peer term args reply = Ret rf' -> frame rf rf'.
Proof.
  unfold handleAppendReply. intros E. repeat (case_bool_decide || case_match || inv_ret); try (by apply frame_same); try apply becomeFollower_frame.
  apply frame_signal. by apply frame_same.
Qed.

Lemma handleInstallReply_frame c rf peer term args reply rf' : handleInstallReply c rf peer term args reply = Ret rf' -> frame rf rf'.
Proof. unfold handleInstallReply. intros E. repeat (case_bool_decide || case_match || inv_ret); try (by apply frame_same); apply becomeFollower_frame. Qed.

Lemma startReplication_frame rf term rf' cs : startReplication rf term = Ret (Some (rf', cs)) -> frame rf rf'.
Proof.
  unfold startReplication. intros E. case_match; inv_ret.
  apply (for_range_post (fun _ p => frame rf p.1)) in Hm; [done|by apply frame_same|].
  intros j [rf1 cs1] [rf2 cs2] _ Hf Hb. simpl in *. eapply frame_trans; [exact Hf|].
  repeat (case_bool_decide || inv_ret); simplify_eq; by apply frame_same.
Qed.

Lemma Start_frame rf cmd r rf' : Start rf cmd = (r, rf') -> frame rf rf'.
Proof. unfold Start. intros E. case_bool_decide; simplify_eq; by apply frame_same. Qed.

(** ** The position of the service *)

(** [p] is where the service of [rf] is, given how far the applier is. *)
Definition positioned rf (p : Z) : Prop :=
  0 <= snapLastIdx (log rf) /\
  (snapPending rf = false -> snapLastIdx (log rf) <= p) /\
  match applier rf with
  | ApLock | ApWait | ApWoken => snapPending rf = false -> p = Z.max (lastApplied rf) (snapLastIdx (log rf))
  | ApSend _ => p = lastApplied rf
  | ApDone n => p = lastApplied rf + n
  | ApSendSnap => snapPending rf = true
  | ApDoneSnap => snapPending rf = true /\ p = snapLastIdx (log rf)
  end.

Lemma frame_positioned rf rf' p : frame rf rf' -> positioned rf p -> positioned rf' p.
Proof.
  intros [F1 F2 _ F4 _ F6] (H1 & H2 & H3). unfold positioned. rewrite F1 F2 F4. split_and!; [done|done|].
  destruct F6 as [->|[E ->]]; [done|]. by rewrite E in H3.
Qed.

Lemma InstallSnapshot_positioned c rf args reply rf' p :
  InstallSnapshot c rf args = (reply, rf') -> applier rf <> ApDoneSnap -> positioned rf p -> positioned rf' p.
Proof.
  unfold InstallSnapshot. intros E Ha Hp. case_bool_decide; [by simplify_eq|].
  set (rf1 := if bool_decide (is_Term args >= currentTerm rf) then _ else rf) in E.
  assert (frame rf rf1) as Hf by apply becomeFollower_if_frame. clearbody rf1.
  assert (applier rf1 <> ApDoneSnap) as Ha1 by (destruct (fr_applier _ _ Hf) as [->|[_ ->]]; done).
  apply (frame_positioned _ _ _ Hf) in Hp. clear Hf Ha. case_bool_decide; simplify_eq; [done|].
  eapply frame_positioned; [apply frame_signal; by apply frame_same|]. destruct Hp as (H1 & _ & H3).
  unfold positioned. cbn. split_and!; [lia|done|]. by destruct (applier rf1).
Qed.

Lemma Snapshot_positioned rf index snap rf' p : Snapshot rf index snap = Ret rf' -> index <= p -> positioned rf p -> positioned rf' p.
Proof.
  unfold Snapshot. intros E Hi (H1 & H2 & H3). repeat (case_bool_decide || inv_ret); try done.
  assert (snapLastIdx v = index) as Ev by (unfold doSnapshot in Hm; repeat (case_bool_decide || case_match || inv_ret); done).
  unfold positioned. cbn. rewrite Ev. split_and!; [lia|done|]. destruct (applier rf); try done; try (intros Hn; specialize (H3 Hn); lia). lia.
Qed.

Lemma applyWait_positioned rf p : positioned rf p -> positioned (applyWait rf) p.
Proof. unfold applyWait. destruct (applier rf) eqn:E; try done. intros (H1 & H2 & H3). rewrite E in H3. done. Qed.

Lemma applyCollect_positioned rf rf' p : applyCollect rf = Ret rf' -> positioned rf p -> positioned rf' p.
Proof.
  unfold applyCollect. intros E Hp. pose proof Hp as (H1 & H2 & H3). destruct (applier rf) eqn:Ea; try (by inv_ret).
  destruct (snapPending rf) eqn:Ep; [inv_ret; unfold positioned; cbn; by rewrite Ep|]. specialize (H3 eq_refl). inv_ret.
  unfold positioned. case_bool_decide; cbn; rewrite Ep; split_and!; try done; try lia; specialize (H2 eq_refl); lia.
Qed.

Lemma receive_commands p (entries : list (LogEntry Cmd)) :
  receive_all (Some p) (imap (fun i (x : LogEntry Cmd) => mkApplyMsg Cmd (CommandValid x) (Command x) (p + 1 + Z.of_nat i) false [] 0 0) entries) = Some (p + len entries).
Proof.
  revert p. induction entries as [|x entries IH]; intros p; [unfold len; cbn; f_equal; lia|]. rewrite imap_cons. unfold receive_all.
  cbn [foldl mbind option_bind]. unfold receive1 at 2. cbn [SnapshotValid CommandIndex].
  rewrite bool_decide_true; [lia|]. specialize (IH (p + 1)). unfold receive_all in IH.
  rewrite (imap_ext _ (fun i x => mkApplyMsg Cmd (CommandValid x) (Command x) (p + 1 + 1 + Z.of_nat i) false [] 0 0)).
  { intros i y _. cbn. f_equal. lia. }
  rewrite IH. unfold len. rewrite length_cons. f_equal. lia.
Qed.

Lemma applyDeliver_positioned rf ms rf' p : applyDeliver rf = (ms, rf') -> positioned rf p ->
  exists p', receive_all (Some p) ms = Some p' /\ positioned rf' p'.
Proof.
  unfold applyDeliver. intros E Hp. pose proof Hp as (H1 & H2 & H3). destruct (applier rf) eqn:Ea; injection E as <- <-; try by exists p.
  - subst p. eexists. split; [apply receive_commands|]. unfold positioned. cbn. split_and!; [done| |done].
    intros Hn. specialize (H2 Hn). unfold len. lia.
  - eexists. split; [done|]. unfold positioned. cbn. rewrite H3. by split_and!.
Qed.

Lemma applyFinish_positioned rf p : positioned rf p -> positioned (applyFinish rf) p.
Proof.
  unfold applyFinish. intros Hp. pose proof Hp as (H1 & H2 & H3). destruct (applier rf) eqn:Ea; try done.
  - unfold positioned. cbn. split_and!; [done|done|]. intros Hn. specialize (H2 Hn). lia.
  - destruct H3 as [_ ->]. unfold positioned. case_bool_decide; cbn; split_and!; lia.
Qed.

Lemma Make_lastApplied n i ps : let rf : Raft Cmd := Make n i ps in
  (lastApplied rf = 0 \/ lastApplied rf = snapLastIdx (log rf)) /\ snapPending rf = false /\ applier rf = ApLock.
Proof. unfold Make, readPersist. repeat (case_match; cbn); simplify_eq; auto. Qed.

Lemma Make_positioned n i ps : 0 <= snapLastIdx (log (Make n i ps : Raft Cmd)) -> positioned (Make n i ps) (snapLastIdx (log (Make n i ps : Raft Cmd))).
Proof.
  destruct (Make_lastApplied n i ps) as (Hl & Hp & Ha). intros H0. unfold positioned. rewrite Ha. split_and!; [done|lia|].
  intros _. destruct Hl as [->| ->]; lia.
Qed.

(** ** The cluster *)

Definition all_positioned s P : Prop :=
  length P = length (nodes s) /\
  forall i rf, nodes s !! i = Some rf -> exists p, P !! i = Some (Some p) /\ positioned rf p.

(** What a step does to peer [i]. *)
Inductive node_move s s' (i : nat) : Event Cmd -> Raft Cmd -> Raft Cmd -> Prop :=
| move_frame e rf rf' : frame rf rf' -> node_move s s' i e rf rf'
| move_install k c r args o reply rf rf' :
    calls s !! k = Some r -> to r = i -> body r = InstallCall args o -> nodes s !! i = Some rf ->
    InstallSnapshot c rf args = (reply, rf') -> node_move s s' i (EDeliver k c) rf rf'
| move_snapshot index snap rf rf' : Snapshot rf index snap = Ret rf' -> node_move s s' i (ESnapshot i index snap) rf rf'
| move_wait rf : node_move s s' i (EApplyWait i) rf (applyWait rf)
| move_collect rf rf' : applyCollect rf = Ret rf' -> node_move s s' i (EApplyCollect i) rf rf'
| move_deliver rf ms rf' : applyDeliver rf = (ms, rf') -> node_move s s' i (EApplyDeliver i) rf rf'
| move_finish rf : node_move s s' i (EApplyFinish i) rf (applyFinish rf)
| move_crash rf : node_move s s' i (ECrash i) rf (Make (peers rf) (me rf) (Copy (persister rf))).

Definition moves e s s' : Prop :=
  length (nodes s') = length (nodes s) /\
  forall i rf', nodes s' !! i = Some rf' -> exists rf, nodes s !! i = Some rf /\ node_move s s' i e rf rf'.

Lemma frame_refl rf : frame rf rf.
Proof. by apply frame_same. Qed.

Lemma moves_same e s s' : nodes s' = nodes s -> moves e s s'.
Proof. intros E. split; [by rewrite E|]. rewrite E. intros i rf Hi. exists rf. split; [done|apply move_frame, frame_refl]. Qed.

Lemma moves_put e s s' i rf rf' : nodes s !! i = Some rf -> nodes s' = <[i := rf']> (nodes s) -> node_move s s' i e rf rf' -> moves e s s'.
Proof.
  intros Hi E Hp. split; [by rewrite E length_insert|]. intros j rfj. rewrite E.
  intros [(<- & <- & _)|(Hne & Hj)]%list_lookup_insert_Some; [by exists rf|exists rfj; split; [done|apply move_frame, frame_refl]].
Qed.

Lemma moves_by e s s' i rf rf' : nodes s !! i = Some rf -> nodes s' = <[i := rf']> (nodes s) -> frame rf rf' -> moves e s s'.
Proof. intros Hi E Hf. apply (moves_put e s s' i rf rf' Hi E). by apply move_frame. Qed.

Lemma deliver_moves s k r c s' : calls s !! k = Some r -> deliver s k r c = Ret s' -> moves (EDeliver k c) s s'.
Proof.
  intros Hk Hd. unfold deliver, with_node in Hd.
  destruct (nodes s !! to r) as [rf|] eqn:Hrf; [|inv_ret; by apply moves_same].
  destruct (body r) as [el args o|args o|args o] eqn:Hb.
  - inv_ret. destruct v as [reply rf']. inv_ret. apply (moves_by _ s _ (to r) rf rf' Hrf); [done|by apply RequestVote_frame in Hm].
  - inv_ret. destruct v as [reply rf']. inv_ret. apply (moves_by _ s _ (to r) rf rf' Hrf); [done|by apply AppendEntries_frame in Hm].
  - destruct (InstallSnapshot c rf args) as [reply rf'] eqn:Hm. inv_ret. apply (moves_put _ s _ (to r) rf rf' Hrf); [done|].
    exact (move_install _ _ _ _ _ _ _ _ _ _ _ Hk eq_refl Hb Hrf Hm).
Qed.

Lemma receive_moves e s k r c s' : receive s k r c = Ret s' -> moves e s s'.
Proof.
  intros Hd. unfold receive, with_node in Hd. simpl in Hd.
  destruct (nodes s !! from r) as [rf|] eqn:Hrf; [|inv_ret; by apply moves_same].
  destruct (body r) as [el args [rep|]|args [rep|]|args [rep|]]; try (inv_ret; by apply moves_same).
  - destruct (elections s !! el) as [votes|]; [|inv_ret; by apply moves_same].
    inv_ret. destruct v as [[rf' votes'] won]. inv_ret. apply handleVoteReply_frame in Hm.
    apply (moves_by _ s _ (from r) rf rf' Hrf); [by destruct won|done].
  - inv_ret. apply handleAppendReply_frame in Hm. by apply (moves_by _ s _ (from r) rf v Hrf).
  - inv_ret. apply handleInstallReply_frame in Hm. by apply (moves_by _ s _ (from r) rf v Hrf).
Qed.

Lemma step_moves e s s' : step e s = Ret s' -> moves e s s'.
Proof.
  intros Hs. destruct e; simpl in Hs; unfold with_node in Hs; simpl in Hs;
    try (case_match eqn:Hi; [|by inv_ret; apply moves_same]).
  - destruct (electionTick c1 c2 _) as [rf' o] eqn:Htick. inv_ret. apply electionTick_frame in Htick.
    eapply moves_by; [exact Hi|by destruct o|done].
  - destruct g as [i term|i term|]; try (inv_ret; by apply moves_same).
    case_match eqn:Hn; [|by inv_ret; apply moves_same]. inv_ret. destruct v as [[votes cs]|]; by apply moves_same.
  - destruct g as [i term|i term|]; try (inv_ret; by apply moves_same).
    case_match eqn:Hn; [|by inv_ret; apply moves_same]. inv_ret. destruct v as [[rf' cs]|]; [|by apply moves_same].
    apply startReplication_frame in Hm. eapply moves_by; [exact Hn|done|done].
  - inv_ret. by apply moves_same.
  - case_match; [|by inv_ret; apply moves_same]. exact (deliver_moves _ _ _ _ _ Hi Hs).
  - case_match; [|by inv_ret; apply moves_same]. exact (receive_moves _ _ _ _ _ _ Hs).
  - inv_ret. by apply moves_same.
  - case_match eqn:Hst. inv_ret. apply Start_frame in Hst. eapply moves_by; [exact Hi|done|done].
  - inv_ret. eapply moves_put; [exact Hi|done|by apply move_snapshot].
  - inv_ret. eapply moves_put; [exact Hi|done|apply move_wait].
  - inv_ret. eapply moves_put; [exact Hi|done|by apply move_collect].
  - case_match eqn:Hd. inv_ret. eapply moves_put; [exact Hi|done|exact (move_deliver _ _ _ _ _ _ Hd)].
  - inv_ret. eapply moves_put; [exact Hi|done|apply move_finish].
  - inv_ret. eapply moves_put; [exact Hi|done|apply move_crash].
Qed.

(** A move of a peer whose service stays where it is. *)
Lemma move_positioned e s s' P i rf rf' p : orderly e s P = true -> node_move s s' i e rf rf' -> P !! i = Some (Some p) ->
  match e with EApplyDeliver _ | ECrash _ => False | _ => True end -> positioned rf p -> positioned rf' p.
Proof.
  intros Ho Hmv HP He. destruct Hmv as [e rf rf' Hf|k c r args o reply rf rf' Hk <- Hb Hn Hi|index snap rf rf' Hs|rf|rf rf' Hc| |rf|]; try done.
  - by apply frame_positioned.
  - apply (InstallSnapshot_positioned _ _ _ _ _ _ Hi). intros E. simpl in Ho. by rewrite Hk Hb Hn E in Ho.
  - simpl in Ho. rewrite HP in Ho. apply bool_decide_eq_true in Ho. by apply (Snapshot_positioned _ _ _ _ _ Hs).
  - apply applyWait_positioned.
  - by apply applyCollect_positioned.
  - apply applyFinish_positioned.
Qed.

(** A step that moves no service. *)
Definition keeps s s' P : Prop :=
  length (nodes s') = length (nodes s) /\
  forall i rf', nodes s' !! i = Some rf' -> exists rf, nodes s !! i = Some rf /\
    forall p, P !! i = Some (Some p) -> positioned rf p -> positioned rf' p.

(** Every step but a delivery and a crash. *)
Lemma step_keeps e s s' P : orderly e s P = true -> step e s = Ret s' ->
  match e with EApplyDeliver _ | ECrash _ => False | _ => True end -> keeps s s' P.
Proof.
  intros Ho [Hl Hm]%step_moves He. split; [done|]. intros i rf' Hi. destruct (Hm i rf' Hi) as (rf & Hrf & Hmv).
  exists rf. split; [done|]. intros p HP. by apply (move_positioned e s s' P i).
Qed.

Lemma keeps_positioned s s' P : keeps s s' P -> all_positioned s P -> all_positioned s' P.
Proof.
  intros [Hl Hk] [HP Hp]. split; [congruence|]. intros i rf' Hi. destruct (Hk i rf' Hi) as (rf & Hrf & Hpos).
  destruct (Hp i rf Hrf) as (p & HPi & Hpp). exists p. split; [done|]. by apply Hpos.
Qed.

Lemma deliver_positioned s s' P i : step (EApplyDeliver i) s = Ret s' -> all_positioned s P -> all_positioned s' (move (EApplyDeliver i) s s' P).
Proof.
  intros Hs [HP Hp]. simpl in Hs. unfold with_node in Hs. unfold move. destruct (nodes s !! i) as [rf|] eqn:Hi.
  - destruct (applyDeliver rf) as [ms rf'] eqn:Hd. inv_ret.
    assert (new_messages s (set_delivered (put_node s i rf') (delivered s ++ (pair i <$> ms))) = ms) as ->.
    { unfold new_messages. cbn [delivered set_delivered]. rewrite drop_app_length. rewrite -list_fmap_compose. apply list_fmap_id. }
    destruct (Hp i rf Hi) as (p & HPi & Hpp). destruct (applyDeliver_positioned _ _ _ _ Hd Hpp) as (p' & Hr & Hp').
    split; [cbn; by rewrite length_alter length_insert|]. intros j rfj. cbn [nodes set_delivered put_node set_nodes].
    intros [(<- & <- & _)|(Hne & Hj)]%list_lookup_insert_Some.
    + exists p'. split; [|done]. by rewrite list_lookup_alter_eq HPi /= Hr.
    + destruct (Hp j rfj Hj) as (q & HPj & Hq). exists q. split; [|done]. by rewrite list_lookup_alter_ne.
  - inv_ret. split; [by rewrite length_alter|]. intros j rfj Hj. destruct (Hp j rfj Hj) as (q & HPj & Hq). exists q. split; [|done].
    rewrite list_lookup_alter_ne //. congruence.
Qed.

Lemma crash_positioned n s s' P i : reachable n s -> step (ECrash i) s = Ret s' -> all_positioned s P -> all_positioned s' (move (ECrash i) s s' P).
Proof.
  intros (B & E & HI)%reachable_election_inv Hs [HP Hp]. simpl in Hs. unfold with_node in Hs. unfold move, restart_position.
  destruct (nodes s !! i) as [rf|] eqn:Hi; [|inv_ret].
  - inv_ret. cbn [nodes set_calls set_goroutines put_node set_nodes]. destruct (ei_node _ _ _ _ HI _ _ Hi) as [_ _ (_ & _ & Hlog) _ _ _ _ _ _].
    pose proof (lookup_lt_Some _ _ _ Hi) as Hlt. rewrite list_lookup_insert_eq //. cbn [fmap option_fmap option_map].
    assert (Copy (persister rf) = persister rf) as -> by by destruct (persister rf).
    split; [by rewrite !length_insert|]. intros j rfj [(<- & <- & _)|(Hne & Hj)]%list_lookup_insert_Some.
    + eexists. split; [apply list_lookup_insert_eq; lia|]. apply Make_positioned. rewrite Hlog.
      destruct (Hp i rf Hi) as (p & _ & H0 & _). exact H0.
    + destruct (Hp j rfj Hj) as (q & HPj & Hq). exists q. split; [|done]. by rewrite list_lookup_insert_ne.
  - split; [by rewrite length_insert|]. intros j rfj Hj. destruct (Hp j rfj Hj) as (q & HPj & Hq). exists q. split; [|done].
    rewrite list_lookup_insert_ne //. congruence.
Qed.

Lemma step_positioned n e s s' P : reachable n s -> orderly e s P = true -> step e s = Ret s' ->
  all_positioned s P -> all_positioned s' (move e s s' P).
Proof.
  intros Hr Ho Hs Hp. pose proof (step_keeps e s s' P Ho Hs) as Hk.
  destruct e; try (by apply (keeps_positioned s), Hp; apply Hk); [by apply deliver_positioned|by apply (crash_positioned n)].
Qed.

Lemma run_positioned n es s P s' P' : reachable n s -> all_positioned s P -> all_orderly es s P = true ->
  run_services es s P = Ret (s', P') -> reachable n s' /\ all_positioned s' P'.
Proof.
  revert s P. induction es as [|e es IH]; intros s P Hr Hp Ho E; simpl in *; [by inv_ret|].
  inv_ret. rewrite Hm in Ho. apply andb_true_iff in Ho as [Ho Hos].
  apply (IH v (move e s v P)); [|by apply (step_positioned n)|done|done]. apply rtc_r with s; [done|]. by exists e.
Qed.

Lemma init_positioned n : all_positioned (init n) (replicate n (Some 0)).
Proof.
  split; [by rewrite /= length_replicate length_fmap length_seq|]. intros i rf (j & -> & [-> Hj]%lookup_seq)%list_lookup_fmap_Some.
  exists 0. split; [apply lookup_replicate; split; [done|lia]|]. by split_and!.
Qed.

(** C9. Deliveries have no gaps: in every run of a cluster, with crashes, lost
    and reordered messages and snapshots, in which services ask for snapshots of
    what they received and no snapshot is installed while another one is between
    its delivery and the end of the applier's round, every service receives each
    command right after its predecessor or after a snapshot that ends there.
    The position of each service is what its peer has recorded. *)
Theorem deliveries_have_no_gaps (n : nat) (es : list (Event Cmd)) s P :
  run_services es (init n) (replicate n (Some 0)) = Ret (s, P) ->
  all_orderly es (init n) (replicate n (Some 0)) = true ->
  length P = length (nodes s) /\ forall i rf, nodes s !! i = Some rf -> exists p, P !! i = Some (Some p) /\ positioned rf p.
Proof.
  intros E Ho. by destruct (run_positioned n es (init n) (replicate n (Some 0)) s P (rtc_refl _ _) (init_positioned n) Ho E).
Qed.
End delivery.

(** ** A snapshot that is never delivered *)

(** Peer 2 is behind.  The leader takes a snapshot at index 1 and sends it; peer
    2 installs it and its applier delivers it.  Before the applier takes the
    lock again, the leader takes a snapshot at index 2 and peer 2 installs it.
    The applier then records index 2 as applied and forgets that a snapshot is
    pending.  Command 30 is committed at index 3 and delivered. *)
Definition skip_snapshot : list (Event Z) :=
  commit20 ++
  [ESnapshot 0 1 [x01]; EReplicate 1; EApplyWait 2; EDeliver 7 early; EApplyCollect 2; EApplyDeliver 2;
   ESnapshot 0 2 [x02]; EReplicate 1; EDeliver 9 early; EApplyFinish 2; EReply 9 early;
   EStart 0 (Some 30); EReplicate 1; EDeliver 10 early; EReply 10 early; EReplicate 1;
   EApplyWait 2; EDeliver 13 early; EApplyCollect 2; EApplyDeliver 2].

(** C10. A snapshot installed while the delivery of another one is being
    recorded is lost: in a reachable state the service of peer 0 was given
    command 20 at index 2, and the service of peer 2 was given nothing but the
    snapshot up to index 1 and then command 30 at index 3. *)
Theorem installed_snapshot_is_lost :
  exists s : Cluster Z, reachable 3 s /\ command_at s 0 2 20 = true /\
    (snd <$> filter (fun p => p.1 = 2%nat) (delivered s)) =
      [mkApplyMsg Z false None 0 true [x01] 1 1; mkApplyMsg Z true (Some 30) 3 false [] 0 0] /\
    exists P, run_services skip_snapshot (init 3) (replicate 3 (Some 0)) = Ret (s, P) /\ P !! 2%nat = Some None.
Proof.
  exists (after 3 skip_snapshot). split; [by_schedule|]. split; [vm_compute; reflexivity|]. split; [vm_compute; reflexivity|].
  eexists. split; vm_compute; reflexivity.
Qed.

(** ** Witness *)

Lemma deliveries_have_no_gaps_witness :
  exists s P, run_services (take 20 skip_snapshot) (init 3) (replicate 3 (Some 0)) = Ret (s, P) /\ P = [Some 2; Some 0; Some 1] /\
    length P = length (nodes s).
Proof.
  destruct (run_services (take 20 skip_snapshot) (init 3) (replicate 3 (Some 0))) as [[s P]|] eqn:E; [|vm_compute in E; discriminate E].
  destruct (deliveries_have_no_gaps 3 (take 20 skip_snapshot) s P E) as [Hl _]; [vm_compute; reflexivity|].
  exists s, P. split; [reflexivity|]. split; [|exact Hl]. vm_compute in E. injection E as _ <-. reflexivity.
Defined.
