(* ===== verification/RaftAlias.v ===== *)
(** * RaftAlias: the arrays behind the logs

    [log.tail] (src/src/raft/raft_log.go) returns a slice of the array that
    holds the log, [startReplication] stores it in the arguments of
    [AppendEntries], and [Call] (src/src/labrpc/labrpc.go) encodes the arguments
    in the goroutine of [replicateToPeer], without the lock.  [append] and
    [appendFrom] write into the same array while its capacity suffices.

    [Shared] adds the arrays of every peer to the cluster of RaftNet.v.  Each
    critical section writes its log the way the source does ([place_log]); a
    request refers to cells of an array, and its goroutine reads them one by
    one ([ARead]) and hands the request to the network ([ASend]) at any time.
    Every run of [Shared] is a run of [RaftNet], where the entries found by
    [ASend] are those of [EEncode].

    Log Matching holds in the runs in which no section changes cells that a
    waiting request refers to.  It fails in others: the last part is a run of
    five peers. *)

From S2P Require Import Prelude LabGob RaftLog Persister RaftNode RaftNodeFacts.
From S2P Require Import RaftNet RaftElection RaftMatching RaftPanicFree RaftScenarios RaftDelivery.
Local Open Scope Z_scope.

(** ** Arrays *)

(** The cells of an array that have been written, and how many more it has. *)
Record Array {Cmd : Type} := mkArray {
  cells : list (LogEntry Cmd);
  room : nat;
}.
Arguments Array Cmd : clear implicits.
Arguments mkArray {Cmd}.

(** A slice of an array of peer [r_peer], and the cells its reader has read. *)
Record Ref {Cmd : Type} := mkRef {
  r_peer : nat;
  r_array : nat;
  r_off : nat;
  r_len : nat;
  r_got : list (LogEntry Cmd);
}.
Arguments Ref Cmd : clear implicits.
Arguments mkRef {Cmd}.

(** The arrays each peer has allocated, its log in the last one, and the slice
    of every request that has not been encoded. *)
Record Shared {Cmd : Type} := mkShared {
  net : Cluster Cmd;
  heaps : list (list (Array Cmd));
  refs : list (option (Ref Cmd));
}.
Arguments Shared Cmd : clear implicits.
Arguments mkShared {Cmd}.

Inductive AEvent {Cmd : Type} :=
| AStep (e : Event Cmd)  (* a critical section, or a move of the network *)
| ARead (k : nat)        (* the encoder of call [k] reads its next cell *)
| ASend (k : nat).       (* [e.ch <- req] of call [k] *)
Arguments AEvent Cmd : clear implicits.

Section alias.
Context {Cmd : Type} `{!GobStream (gobval Cmd)}.
(** The capacity that the runtime gives to a slice of capacity [c] when it has to hold
    [n] elements; a smaller value than [n] stands for [n]. *)
Context (grow : nat -> nat -> nat).
Implicit Types (s : Shared Cmd) (l : list (LogEntry Cmd)) (A : Array Cmd) (h : list (Array Cmd)).

Definition capacity A : nat := (length (cells A) + room A)%nat.

(** [make([]LogEntry, 0, c)], filled with [l]. *)
Definition make_array l (c : nat) : Array Cmd := mkArray l (c - length l).

(** The first [length l] cells become [l]; the cells behind them stay. *)
Definition overwrite A l : Array Cmd :=
  let cs := l ++ drop (length l) (cells A) in mkArray cs (capacity A - length cs).

(** [rl.tailLog = append(rl.tailLog[:k], entries...)] with the result [l]: in
    place when the capacity suffices, else in a new array. *)
Definition store_append h l : list (Array Cmd) :=
  match last h with
  | Some A =>
      if (length l <=? capacity A)%nat then <[pred (length h) := overwrite A l]> h
      else h ++ [make_array l (grow (capacity A) (length l))]
  | None => h ++ [make_array l (grow 0 (length l))]
  end.

(** Sections that make a new array, with its capacity: a restart ([NewLog], or
    the decoder of [readPersist] when there is a state to read), [doSnapshot]
    (the size is that of the old log) and [installSnapshot]. *)
Definition fresh (e : Event Cmd) (i : nat) (rf rf' : Raft Cmd) : option nat :=
  match e with
  | ECrash j =>
      if bool_decide (i = j)
      then Some (if bool_decide (len (raftstate (persister rf)) < 1) then 1%nat
                 else grow 0 (length (tailLog (log rf'))))
      else None
  | ESnapshot _ _ _ =>
      if bool_decide (snapLastIdx (log rf) = snapLastIdx (log rf')) then None
      else Some (length (tailLog (log rf)))
  | _ => if bool_decide (snapLastIdx (log rf) = snapLastIdx (log rf')) then None else Some 1%nat
  end.

(** Where the log of peer [i] is after event [e]. *)
Definition place_log (e : Event Cmd) (i : nat) (rf rf' : Raft Cmd) h : list (Array Cmd) :=
  match fresh e i rf rf' with
  | Some c => h ++ [make_array (tailLog (log rf')) c]
  | None => store_append h (tailLog (log rf'))
  end.

Definition place_all (e : Event Cmd) (c c' : Cluster Cmd) (hs : list (list (Array Cmd))) :=
  imap (fun i h => match nodes c !! i, nodes c' !! i with
                   | Some rf, Some rf' => place_log e i rf rf' h
                   | _, _ => h
                   end) hs.

(** [rl.tailLog[rl.idx(startIdx):]] in the arguments of a new request. *)
Definition ref_of (c : Cluster Cmd) (hs : list (list (Array Cmd))) (r : RPC Cmd) : option (Ref Cmd) :=
  match body r with
  | AppendCall args None =>
      match nodes c !! from r, hs !! from r with
      | Some rf, Some h =>
          Some (mkRef (from r) (pred (length h)) (Z.to_nat (PrevLogIndex args + 1 - snapLastIdx (log rf)))
                  (length (Entries args)) [])
      | _, _ => None
      end
  | _ => None
  end.

Definition cells_of (hs : list (list (Array Cmd))) (r : Ref Cmd) : list (LogEntry Cmd) :=
  match hs !! r_peer r with
  | Some h => match h !! r_array r with Some A => cells A | None => [] end
  | None => []
  end.

(** The cells of the slice. *)
Definition segment (hs : list (list (Array Cmd))) (r : Ref Cmd) : list (LogEntry Cmd) :=
  take (r_len r) (drop (r_off r) (cells_of hs r)).

(** The request of call [k], while its goroutine is encoding it. *)
Definition sender s (k : nat) : option (Ref Cmd) :=
  match calls (net s) !! k, refs s !! k with
  | Some c, Some (Some r) => if live c then Some r else None
  | _, _ => None
  end.

(** The request has not been handed to the network. *)
Definition waiting s (k : nat) : bool :=
  match refs s !! k with Some (Some _) => true | _ => false end.

(** Encoding is not a move of the network, and a request is executed, answered
    or lost after it was sent. *)
Definition blocked (e : Event Cmd) s : bool :=
  match e with
  | EEncode _ _ => true
  | EDeliver k _ | EReply k _ | EFail k => waiting s k
  | _ => false
  end.

Definition read_cell (r : Ref Cmd) (e : LogEntry Cmd) : Ref Cmd :=
  mkRef (r_peer r) (r_array r) (r_off r) (r_len r) (r_got r ++ [e]).

Definition astep (a : AEvent Cmd) s : outcome (Shared Cmd) :=
  match a with
  | AStep e =>
      if blocked e s then Ret s else
      c ← step e (net s);
      let hs := place_all e (net s) c (heaps s) in
      Ret (mkShared c hs (refs s ++ (ref_of c hs <$> drop (length (refs s)) (calls c))))
  | ARead k =>
      match sender s k with
      | Some r =>
          match segment (heaps s) r !! length (r_got r) with
          | Some e => Ret (mkShared (net s) (heaps s) (<[k := Some (read_cell r e)]> (refs s)))
          | None => Ret s
          end
      | None => Ret s
      end
  | ASend k =>
      match sender s k with
      | Some r =>
          if (length (r_got r) =? r_len r)%nat then
            c ← step (EEncode k (r_got r)) (net s);
            Ret (mkShared c (heaps s) (<[k := None]> (refs s)))
          else Ret s
      | None => Ret s
      end
  end.

Fixpoint arun (es : list (AEvent Cmd)) s : outcome (Shared Cmd) :=
  match es with
  | [] => Ret s
  | a :: es => s ← astep a s; arun es s
  end.

(** Every peer has made its log with [NewLog]. *)
Definition ainit (n : nat) : Shared Cmd :=
  mkShared (init n) ((fun rf => [make_array (tailLog (log rf)) 1]) <$> nodes (init n : Cluster Cmd)) [].

(** No cell that a request waits to encode was changed. *)
Definition calm s s' : Prop := forall k r, sender s k = Some r -> segment (heaps s') r = segment (heaps s) r.

Definition shared_step s s' : Prop := exists a, astep a s = Ret s'.

Definition shared_reachable (n : nat) s : Prop := rtc shared_step (ainit n) s.

Definition calm_step s s' : Prop := exists a, astep a s = Ret s' /\ calm s s'.

Definition calm_reachable (n : nat) s : Prop := rtc calm_step (ainit n) s.

(** ** Lemmas on arrays *)

Lemma place_cells e i rf rf' h :
  exists A, last (place_log e i rf rf' h) = Some A /\ tailLog (log rf') `prefix_of` cells A.
Proof.
  unfold place_log, store_append. destruct (fresh e i rf rf').
  { rewrite last_snoc. by eexists. }
  destruct (last h) as [A|] eqn:Hl; [destruct (_ <=? _)%nat|].
  - exists (overwrite A (tailLog (log rf'))). split; [|by apply prefix_app_r].
    destruct h as [|A0 h _] using rev_ind; [done|].
    rewrite length_app Nat.add_1_r /= insert_app_r_alt // Nat.sub_diag. by rewrite last_snoc.
  - rewrite last_snoc. by eexists.
  - rewrite last_snoc. by eexists.
Qed.

Lemma segment_tail l A hs h r :
  hs !! r_peer r = Some h -> last h = Some A -> l `prefix_of` cells A ->
  r_array r = pred (length h) -> r_len r = length (drop (r_off r) l) ->
  segment hs r = drop (r_off r) l.
Proof.
  intros Hp Hh [rest Hl] Ha Hlen. unfold segment, cells_of. rewrite Hp Ha -last_lookup Hh Hl Hlen.
  rewrite drop_app. by rewrite take_app_length.
Qed.

Lemma place_all_lookup e c c' hs i rf rf' :
  nodes c !! i = Some rf -> nodes c' !! i = Some rf' ->
  place_all e c c' hs !! i = place_log e i rf rf' <$> hs !! i.
Proof. intros Hi Hi'. unfold place_all. rewrite list_lookup_imap Hi Hi'. done. Qed.

(** ** What an event does to the calls *)

(** A new request carries the end of its leader's log. *)
Definition fresh_call (c c' : Cluster Cmd) (r : RPC Cmd) : Prop := forall args o, body r = AppendCall args o ->
  exists rf rf', nodes c !! from r = Some rf /\ nodes c' !! from r = Some rf' /\ log rf' = log rf /\
    Entries args = drop (Z.to_nat (PrevLogIndex args + 1 - snapLastIdx (log rf))) (tailLog (log rf)).

Definition touches (e : Event Cmd) (k : nat) : bool :=
  match e with EEncode j _ | EDeliver j _ => bool_decide (j = k) | _ => false end.

Inductive calls_move e (c c' : Cluster Cmd) : Prop :=
| cm_same : calls c' = calls c -> calls_move e c c'
| cm_set k r r' : calls c !! k = Some r -> calls c' = <[k := r']> (calls c) ->
    touches e k = true \/ r' = retire r -> calls_move e c c'
| cm_kill i : calls c' = kill_rpc i <$> calls c -> calls_move e c c'
| cm_new new : calls c' = calls c ++ new -> Forall (fresh_call c c') new -> calls_move e c c'.

Lemma deliver_move c k r cl c' e :
  calls c !! k = Some r -> touches e k = true -> deliver c k r cl = Ret c' -> calls_move e c c'.
Proof.
  intros Hk He Hd. unfold deliver, with_node in Hd. destruct (nodes c !! to r) as [rf|]; [|inv_ret; by apply cm_same].
  destruct (body r) as [el args o|args o|args o].
  - inv_ret. destruct v. inv_ret. eapply cm_set; [exact Hk|reflexivity|by left].
  - inv_ret. destruct v. inv_ret. eapply cm_set; [exact Hk|reflexivity|by left].
  - destruct (InstallSnapshot cl rf args). inv_ret. eapply cm_set; [exact Hk|reflexivity|by left].
Qed.

Lemma receive_move c k r cl c' e : calls c !! k = Some r -> receive c k r cl = Ret c' -> calls_move e c c'.
Proof.
  intros Hk Hd. assert (calls c' = <[k := retire r]> (calls c)) as Hc; [|eapply cm_set; [exact Hk|exact Hc|by right]].
  unfold receive, with_node in Hd. simpl in Hd. destruct (nodes c !! from r) as [rf|]; [|by inv_ret].
  destruct (body r) as [el args [rep|]|args [rep|]|args [rep|]]; try (by inv_ret).
  destruct (elections c !! el); [|by inv_ret]. inv_ret. destruct v as [[rf' votes'] won]. inv_ret. by destruct won.
Qed.

Lemma step_calls_move e c c' : step e c = Ret c' -> calls_move e c c'.
Proof.
  intros Hs. destruct e; simpl in Hs; unfold with_node in Hs; simpl in Hs;
    try (case_match eqn:Hi; [|by inv_ret; apply cm_same]).
  - destruct (electionTick c1 c2 _) as [rf' o]. inv_ret. apply cm_same. by destruct o.
  - destruct g as [i term|i term|]; try (inv_ret; by apply cm_same). case_match; [|by inv_ret; apply cm_same].
    inv_ret. destruct v as [[votes cs]|]; [|by apply cm_same]. eapply cm_new; [reflexivity|].
    apply Forall_fmap, Forall_true. intros pc. done.
  - destruct g as [i term|i term|]; try (inv_ret; by apply cm_same). case_match eqn:Hn; [|by inv_ret; apply cm_same].
    inv_ret. destruct v as [[rf' cs]|]; [|by apply cm_same]. apply startReplication_log in Hm as (_ & _ & Hl & Hcs).
    eapply cm_new; [reflexivity|]. apply Forall_fmap. eapply Forall_impl; [exact Hcs|].
    intros [peer args|peer args] Hrc args0 o [= <- <-]. destruct Hrc as (_ & e & _ & _ & He).
    eexists _, rf'. simpl. split_and!; [exact Hn|apply list_lookup_insert_eq; eapply lookup_lt_Some; exact Hn|exact Hl|exact He].
  - inv_ret. eapply cm_set; [exact Hi|reflexivity|]. left. by apply bool_decide_eq_true.
  - case_match; [|by inv_ret; apply cm_same]. eapply deliver_move; [exact Hi| |exact Hs]. by apply bool_decide_eq_true.
  - case_match; [|by inv_ret; apply cm_same]. exact (receive_move _ _ _ _ _ _ Hi Hs).
  - inv_ret. eapply cm_set; [exact Hi|reflexivity|by right].
  - destruct (Start _ _). inv_ret. by apply cm_same.
  - inv_ret. by apply cm_same.
  - inv_ret. by apply cm_same.
  - inv_ret. by apply cm_same.
  - destruct (applyDeliver _). inv_ret. by apply cm_same.
  - inv_ret. by apply cm_same.
  - inv_ret. by eapply cm_kill.
Qed.

Lemma calls_move_length e c c' : calls_move e c c' -> (length (calls c) <= length (calls c'))%nat.
Proof. intros [->|k r r' _ -> _|i ->|new -> _]; rewrite ?length_insert ?length_fmap ?length_app; lia. Qed.

(** An old call that the event does not touch keeps its body, and a caller that
    is gone stays gone. *)
Lemma calls_move_old e c c' k r' : calls_move e c c' -> touches e k = false ->
  (k < length (calls c))%nat -> calls c' !! k = Some r' ->
  exists r, calls c !! k = Some r /\ body r' = body r /\ (live r' = true -> live r = true).
Proof.
  intros Hm He Hk Hr'. destruct Hm as [Hc|j r1 r2 Hj Hc Ht|i Hc|new Hc _]; rewrite Hc in Hr'.
  - by exists r'.
  - apply list_lookup_insert_Some in Hr' as [(-> & <- & _)|[_ ?]]; [|by exists r'].
    destruct Ht as [?| ->]; [congruence|]. by exists r1.
  - apply list_lookup_fmap_Some in Hr' as (r & -> & Hr). exists r. split; [done|]. unfold kill_rpc. by case_bool_decide.
  - rewrite lookup_app_l // in Hr'. by exists r'.
Qed.

Lemma calls_move_new e c c' k r' : calls_move e c c' ->
  (length (calls c) <= k)%nat -> calls c' !! k = Some r' -> fresh_call c c' r'.
Proof.
  intros Hm Hk Hr'. pose proof (lookup_lt_Some _ _ _ Hr') as Hlt.
  destruct Hm as [Hc|j r1 r2 Hj Hc Ht|i Hc|new Hc Hn]; rewrite Hc ?length_insert ?length_fmap in Hlt; try lia.
  rewrite Hc lookup_app_r // in Hr'. exact (Forall_lookup_1 _ _ _ _ Hn Hr').
Qed.

(** ** Runs with arrays are runs of the cluster *)

Definition net_moves (c c' : Cluster Cmd) : Prop := c' = c \/ exists e, step e c = Ret c'.

Lemma astep_net a s s' : astep a s = Ret s' -> net_moves (net s) (net s').
Proof.
  unfold net_moves. destruct a; simpl; intros H.
  - destruct (blocked e s); inv_ret; [by left|]. right. by exists e.
  - repeat case_match; inv_ret; by left.
  - case_match; [case_match|]; inv_ret; [right|by left|by left]. by exists (EEncode k (r_got r)).
Qed.

Lemma shared_run_is_run n s : shared_reachable n s -> reachable n (net s).
Proof.
  revert s. apply (rtc_ind_r (fun s => reachable n (net s)) (ainit n)); [apply rtc_refl|].
  intros s1 s2 _ [a Ha] IH. apply astep_net in Ha as [->|[e He]]; [done|].
  eapply rtc_r; [exact IH|by exists e].
Qed.

(** ** Calm runs *)

(** Every waiting request refers to the entries of its creation, and its encoder has
    read an initial part of them. *)
Record alias_inv s : Prop := {
  ai_refs : length (refs s) = length (calls (net s));
  ai_segment k r : sender s k = Some r -> exists c args,
    calls (net s) !! k = Some c /\ body c = AppendCall args None /\ segment (heaps s) r = Entries args /\
    r_len r = length (Entries args) /\ r_got r `prefix_of` Entries args;
}.

Lemma sender_spec s k r : sender s k = Some r <->
  exists c, calls (net s) !! k = Some c /\ refs s !! k = Some (Some r) /\ live c = true.
Proof.
  unfold sender. split.
  - intros H. repeat case_match; simplify_eq. by eexists.
  - intros (c & -> & -> & ->). done.
Qed.

Lemma ref_of_segment e c c' hs r' rf :
  fresh_call c c' r' -> ref_of c' (place_all e c c' hs) r' = Some rf ->
  exists args, body r' = AppendCall args None /\ segment (place_all e c c' hs) rf = Entries args /\
    r_len rf = length (Entries args) /\ r_got rf = [].
Proof.
  intros Hf Hr. unfold ref_of in Hr. destruct (body r') as [|args [|]|] eqn:Hb; try done.
  destruct (Hf args None Hb) as (rf1 & rf2 & H1 & H2 & Hl & He). rewrite H2 in Hr.
  destruct (place_all e c c' hs !! from r') as [h|] eqn:Hh; [|done]. injection Hr as <-.
  exists args. split_and!; [done| |done|done]. rewrite Hl He.
  pose proof Hh as Hp. rewrite (place_all_lookup _ _ _ _ _ _ _ H1 H2) in Hp.
  destruct (hs !! from r') as [h0|]; [|done]. injection Hp as <-.
  destruct (place_cells e (from r') rf1 rf2 h0) as (A & HA & Hpre). rewrite Hl in Hpre.
  by apply (segment_tail _ A _ (place_log e (from r') rf1 rf2 h0)).
Qed.

Lemma AStep_inv e s s' : alias_inv s -> astep (AStep e) s = Ret s' -> calm s s' -> alias_inv s'.
Proof.
  intros [Hlen Hseg] Hs Hcalm. simpl in Hs. destruct (blocked e s) eqn:Hbl; [by inv_ret|].
  apply outcome_bind_ret in Hs as (c' & Hstep & [= <-]). pose proof (step_calls_move _ _ _ Hstep) as Hm.
  pose proof (calls_move_length _ _ _ Hm) as Hle. constructor; simpl.
  { rewrite length_app length_fmap length_drop. lia. }
  intros k r (r' & Hr' & Hk & Hlive)%sender_spec. simpl in Hr', Hk.
  apply lookup_app_Some in Hk as [Hk|[Hge Hk]].
  - assert (touches e k = false) as Ht.
    { destruct e; try done; simpl in *; case_bool_decide as Heq; try done. subst k0. unfold waiting in Hbl. by rewrite Hk in Hbl. }
    pose proof (lookup_lt_Some _ _ _ Hk) as Hlt.
    destruct (calls_move_old _ _ _ _ _ Hm Ht ltac:(lia) Hr') as (c & Hc & Hb & Hlv).
    assert (sender s k = Some r) as Hsk by (apply sender_spec; eauto).
    destruct (Hseg k r Hsk) as (c0 & args & Hc0 & Hb0 & Hsg & Hrest). simplify_eq.
    exists r', args. split_and!; [done|congruence| |apply Hrest..]. rewrite -Hsg. exact (Hcalm k r Hsk).
  - apply list_lookup_fmap_Some in Hk as (c & Hk & Hd). rewrite lookup_drop in Hd.
    replace (length (refs s) + (k - length (refs s)))%nat with k in Hd by lia. simplify_eq.
    destruct (ref_of_segment e (net s) c' (heaps s) r' r) as (args & Hb & Hsg & Hl & Hg); [|done|].
    { apply (calls_move_new e (net s) c' k); [done|lia|done]. }
    exists r', args. rewrite Hg. split_and!; try done. apply prefix_nil.
Qed.

Lemma ARead_inv k s s' : alias_inv s -> astep (ARead k) s = Ret s' -> alias_inv s'.
Proof.
  intros [Hlen Hseg] Hs. simpl in Hs. destruct (sender s k) as [r|] eqn:Hk; [|by inv_ret].
  destruct (segment (heaps s) r !! length (r_got r)) as [e|] eqn:He; inv_ret; [|done].
  constructor; simpl; [by rewrite length_insert|]. intros j r0 (c & Hc & Hj & Hl)%sender_spec. simpl in Hc, Hj.
  apply list_lookup_insert_Some in Hj as [(<- & [= <-] & _)|[Hne Hj]].
  - destruct (Hseg k r Hk) as (c0 & args & Hc0 & Hb & Hsg & Hln & [rest Hp]).
    exists c0, args. split_and!; try done. simpl. rewrite Hsg Hp lookup_app_r // Nat.sub_diag in He.
    destruct rest as [|e0 rest]; [done|]. injection He as ->. exists rest. by rewrite -app_assoc.
  - apply (Hseg j r0). apply sender_spec. by exists c.
Qed.

(** A request that is sent carries the entries of its creation. *)
Lemma ASend_prompt k s r : alias_inv s -> sender s k = Some r -> length (r_got r) = r_len r ->
  prompt (EEncode k (r_got r)) (net s).
Proof.
  intros [_ Hseg] Hk Hl c args Hc Hb. destruct (Hseg k r Hk) as (c0 & args0 & Hc0 & Hb0 & _ & Hln & [rest Hp]).
  simplify_eq. rewrite Hp length_app in Hln. assert (length rest = 0%nat) as ->%nil_length_inv by lia.
  rewrite app_nil_r in Hp. congruence.
Qed.

Lemma ASend_inv k s s' : alias_inv s -> astep (ASend k) s = Ret s' -> alias_inv s'.
Proof.
  intros [Hlen Hseg] Hs. simpl in Hs. destruct (sender s k) as [r|] eqn:Hk; [|by inv_ret].
  destruct (_ =? _)%nat; [|by inv_ret]. destruct (calls (net s) !! k) as [c|] eqn:Hc; simpl in Hs; inv_ret; simpl.
  - constructor; simpl; [by rewrite !length_insert|]. intros j r0 (c1 & Hc1 & Hj & Hl)%sender_spec. simpl in Hc1, Hj.
    apply list_lookup_insert_Some in Hj as [(_ & [=] & _)|[Hne Hj]]. rewrite list_lookup_insert_ne // in Hc1.
    destruct (Hseg j r0) as (c2 & Hrest); [apply sender_spec; by exists c1|]. exists c2.
    by rewrite list_lookup_insert_ne.
  - apply sender_spec in Hk as (c & Hc' & _). congruence.
Qed.

Lemma astep_inv a s s' : alias_inv s -> astep a s = Ret s' -> calm s s' -> alias_inv s'.
Proof. destruct a; [apply AStep_inv|intros HI Ha _; exact (ARead_inv _ _ _ HI Ha)|intros HI Ha _; exact (ASend_inv _ _ _ HI Ha)]. Qed.

Lemma astep_prompt n a s s' : alias_inv s -> astep a s = Ret s' ->
  prompt_reachable n (net s) -> prompt_reachable n (net s').
Proof.
  intros HI Hs Hr. destruct a as [e|k|k]; simpl in Hs.
  - destruct (blocked e s) eqn:Hb; [by inv_ret|]. apply outcome_bind_ret in Hs as (c & Hc & [= <-]).
    eapply rtc_r; [exact Hr|]. exists e. split; [by destruct e|done].
  - repeat case_match; by inv_ret.
  - destruct (sender s k) as [r|] eqn:Hk; [|by inv_ret]. destruct (_ =? _)%nat eqn:Hl; [|by inv_ret].
    apply outcome_bind_ret in Hs as (c & Hc & [= <-]). eapply rtc_r; [exact Hr|]. exists (EEncode k (r_got r)). split; [|exact Hc].
    apply ASend_prompt; [done|done|by apply Nat.eqb_eq].
Qed.

Lemma calm_reachable_prompt n s : calm_reachable n s -> alias_inv s /\ prompt_reachable n (net s).
Proof.
  revert s. apply (rtc_ind_r (fun s => alias_inv s /\ prompt_reachable n (net s)) (ainit n)).
  - split; [|apply rtc_refl]. constructor; [done|]. intros k r (c & Hc & _)%sender_spec. by rewrite /= lookup_nil in Hc.
  - intros s1 s2 _ (a & Ha & Hc) [HI Hp]. split; [by apply (astep_inv a s1)|by apply (astep_prompt n a s1)].
Qed.

(** An executable test of [calm]. *)
Definition calmb `{!EqDecision Cmd} s s' : bool :=
  forallb (fun k => match sender s k with
                    | Some r => bool_decide (segment (heaps s') r = segment (heaps s) r)
                    | None => true
                    end) (seq 0 (length (refs s))).

Lemma calmb_calm `{!EqDecision Cmd} s s' : calmb s s' = true -> calm s s'.
Proof.
  intros H k r Hk. unfold calmb in H. rewrite forallb_forall in H. specialize (H k). rewrite Hk in H.
  eapply bool_decide_eq_true_1, H. apply sender_spec in Hk as (_ & _ & Hk & _). apply lookup_lt_Some in Hk.
  apply in_seq. lia.
Qed.

Fixpoint calm_run `{!EqDecision Cmd} (es : list (AEvent Cmd)) s : option (Shared Cmd) :=
  match es with
  | [] => Some s
  | a :: es =>
      match astep a s with
      | Ret s' => if calmb s s' then calm_run es s' else None
      | Panic _ => None
      end
  end.

Lemma calm_run_rtc `{!EqDecision Cmd} es s s' : calm_run es s = Some s' -> rtc calm_step s s'.
Proof.
  revert s. induction es as [|a es IH]; intros s H; simpl in H; [injection H as <-; apply rtc_refl|].
  destruct (astep a s) as [s1|] eqn:Ha; [|done]. destruct (calmb s s1) eqn:Hc; [|done].
  eapply rtc_l; [exists a; split; [exact Ha|by apply calmb_calm]|by apply IH].
Qed.

Lemma arun_rtc es s s' : arun es s = Ret s' -> rtc shared_step s s'.
Proof.
  revert s. induction es as [|a es IH]; intros s H; simpl in H; inv_ret; [apply rtc_refl|].
  eapply rtc_l; [exists a; exact Hm|by apply IH].
Qed.
End alias.

(** ** Theorems *)

(** C2. Log Matching, as far as the code has it.  A request refers to cells of
    the array of its leader's log until it has been encoded.  In every state
    reached by a run, with crashes, lost, delayed and reordered messages and any
    growth of the arrays, in which no section of a peer changed a cell that
    one of its waiting requests refers to: if the logs of two peers hold entries of
    the same term at one index, then below that index they hold entries of the
    same term wherever both still keep the index, and the same entries
    wherever both keep it above their snapshot. *)
Theorem log_matching {Cmd : Type} `{!GobStream (gobval Cmd)} (grow : nat -> nat -> nat) (n : nat) (s : Shared Cmd) :
  calm_reachable grow n s -> logs_match (net s).
Proof. intros [_ Hp]%calm_reachable_prompt. exact (prompt_logs_match n _ Hp). Qed.

(** The growth of a small slice. *)
Definition doubled (c n : nat) : nat := if (2 * c <? n)%nat then n else (2 * c)%nat.

(** Encode and send a request of [m] entries. *)
Definition send (m k : nat) : list (AEvent Z) := replicate m (ARead k) ++ [ASend k].

Definition shared_after (n : nat) (es : list (AEvent Z)) : Shared Z :=
  match arun doubled es (ainit n) with Ret s => s | Panic _ => ainit n end.

(** Peer 0 leads term 1 of three peers and commits commands 10 and 20 with
    peer 1. *)
Definition calm20 : list (AEvent Z) :=
  (AStep <$> elect0) ++
  [AStep (EStart 0 (Some 10)); AStep (EReplicate 1)] ++ send 1 2 ++
  [AStep (EDeliver 2 early); AStep (EReply 2 early); AStep (EStart 0 (Some 20)); AStep (EReplicate 1)] ++
  send 1 4 ++ [AStep (EDeliver 4 early); AStep (EReply 4 early)].

Lemma log_matching_witness :
  exists s, calm_run doubled calm20 (ainit 3) = Some s /\ logs_match (net s) /\
    map (fun rf => length (tailLog (log rf))) (nodes (net s)) = [3; 3; 1]%nat.
Proof.
  destruct (calm_run doubled calm20 (ainit 3)) as [s|] eqn:Hs; [|vm_compute in Hs; discriminate].
  exists s. split; [reflexivity|]. split.
  - apply (log_matching doubled 3). apply (calm_run_rtc doubled calm20). exact Hs.
  - vm_compute in Hs. injection Hs as <-. reflexivity.
Defined.

(** ** A request that is overwritten before it is encoded *)

(** Five peers.  Peer 0 leads term 1, appends command 10 and brings peer 3 up to
    it (call 6), appends command 11 and creates the request that carries
    it to peer 3 (call 10), which is not encoded yet.  Peer 1 wins term 2 with
    the votes of 2 and 4 (calls 13 and 15), appends commands 20 and 21
    and sends both to peer 0 (call 16), which overwrites its log in place.
    Now call 10 is encoded: it carries command 21 of term 2. *)
Definition overwritten : list (AEvent Z) :=
  (AStep <$> [EElectionTick 0 late late; EStartElection 0; EDeliver 0 early; EDeliver 1 early;
              EReply 0 early; EReply 1 early; EStart 0 (Some 10); EReplicate 1]) ++
  send 1 6 ++ (AStep <$> [EDeliver 6 early; EReply 6 early; EStart 0 (Some 11); EReplicate 1]) ++
  (AStep <$> [EElectionTick 1 late late; EStartElection 2; EDeliver 13 early; EDeliver 15 early;
              EReply 13 early; EReply 15 early; EStart 1 (Some 20); EStart 1 (Some 21); EReplicate 3]) ++
  send 2 16 ++ [AStep (EDeliver 16 early)] ++
  send 1 10 ++ [AStep (EDeliver 10 early)].

Definition command (term cmd : Z) : LogEntry Z := mkLogEntry term true (Some cmd).

(** The logs of two peers in a state where they disagree below a common entry. *)
Definition logs_of (s : Shared Z) (p : nat) : list (LogEntry Z) :=
  match nodes (net s) !! p with Some rf => tailLog (log rf) | None => [] end.

Definition snap_of (s : Shared Z) (p : nat) : Z :=
  match nodes (net s) !! p with Some rf => snapLastIdx (log rf) | None => 1 end.

Lemma logs_disagree (s : Shared Z) (p q : nat) (i j : Z) (e1 e2 d1 d2 : LogEntry Z) :
  snap_of s p = 0 -> snap_of s q = 0 -> 0 <= j <= i ->
  logs_of s p !! Z.to_nat i = Some e1 -> logs_of s q !! Z.to_nat i = Some e2 -> Term e1 = Term e2 ->
  logs_of s p !! Z.to_nat j = Some d1 -> logs_of s q !! Z.to_nat j = Some d2 -> Term d1 <> Term d2 ->
  ~ logs_match (net s).
Proof.
  unfold snap_of, logs_of. destruct (nodes (net s) !! p) as [rf1|] eqn:Hp; [|done].
  destruct (nodes (net s) !! q) as [rf2|] eqn:Hq; [|done]. intros S1 S2 Hij E1 E2 Ht D1 D2 Hd Hm.
  apply Hd, (Hm p q rf1 rf2 i e1 e2 Hp Hq) with j; unfold lookup_log; rewrite ?S1 ?S2 ?Z.sub_0_r;
    try (rewrite bool_decide_true; [lia|]); done || lia.
Qed.

(** C3. The slice in the arguments of a request shares the array of the log.
    A run of five peers, without crashes or lost messages, in which a request of
    term 1 is encoded after its sender, no longer leader, has
    overwritten its log with the entries of the leader of term 2: the request
    carries an entry of term 2, and peer 3 appends it behind an entry of term 1
    that the log of term 2 does not have.  Peers 0 and 3 then hold the
    same entry at index 2 and different ones at index 1. *)
Theorem shared_entries_break_log_matching :
  exists s : Shared Z, shared_reachable doubled 5 s /\
    logs_of s 0 = [dummyEntry 0; command 2 20; command 2 21] /\
    logs_of s 3 = [dummyEntry 0; command 1 10; command 2 21] /\ ~ logs_match (net s).
Proof.
  exists (shared_after 5 overwritten). split_and!; [|vm_compute; reflexivity..|].
  - unfold shared_reachable. apply (arun_rtc doubled overwritten). unfold shared_after.
    assert ((if arun doubled overwritten (ainit 5) is Ret _ then true else false) = true) as H
      by (vm_compute; reflexivity). by destruct (arun doubled overwritten (ainit 5)).
  - apply (logs_disagree _ 0 3 2 1 (command 2 21) (command 2 21) (command 2 20) (command 1 10)); [vm_compute; reflexivity..|lia| | | | | |];
      [vm_compute; reflexivity..|]. simpl. lia.
Qed.
