(* ===== verification/RaftSnapshots.v ===== *)
(** * RaftSnapshots: where snapshots come from

    A peer gets snapshots from its own service and from the leader, keeps the
    last one in its log and its persister, sends it to peers that are behind and
    delivers it to its service.  For any property of an index and the bytes of a
    snapshot that holds of every snapshot the services make, this file shows
    that it holds of every snapshot a peer keeps, persists, sends and delivers.
    KVCluster.v uses it with "is a snapshot of that prefix of the log". *)

From S2P Require Import Prelude LabGob RaftLog Persister RaftNode RaftNet RaftNodeFacts RaftElection RaftDelivery.
Local Open Scope Z_scope.

Section snapshots.
Context {Cmd : Type} `{!GobStream (gobval Cmd)} (Q : Z -> bytes -> Prop).
Implicit Types (s : Cluster Cmd) (rf : Raft Cmd) (e : Event Cmd).

Record node_snap rf : Prop := {
  ns_saved : saved rf;
  ns_origin : Q (snapLastIdx (log rf)) (snapshot (log rf));
  ns_pending : snapPending rf = true -> 0 < snapLastIdx (log rf);
  ns_bound : 0 <= snapLastIdx (log rf);
}.

Definition call_snap (r : RPC Cmd) : Prop :=
  match body r with InstallCall args _ => Q (LastIncludedIndex args) (is_Snapshot args) | _ => True end.

Record snaps_ok s : Prop := {
  so_nodes i rf : nodes s !! i = Some rf -> node_snap rf;
  so_calls : Forall call_snap (calls s);
}.

(** What an event adds: the snapshot a service makes. *)
Definition event_ok e : Prop := match e with ESnapshot _ index snap => Q index snap | _ => True end.

(** ** Peers *)

Lemma frame_snap rf rf' : frame rf rf' -> node_snap rf -> node_snap rf'.
Proof. intros [_ F2 F3 F4 F5 _] [N1 N2 N3 N4]. constructor; rewrite ?F2 ?F3 ?F4; auto. Qed.

Lemma InstallSnapshot_snap c rf args reply rf' :
  InstallSnapshot c rf args = (reply, rf') -> Q (LastIncludedIndex args) (is_Snapshot args) -> node_snap rf -> node_snap rf'.
Proof.
  unfold InstallSnapshot. intros E HQ Hn. case_bool_decide; [by simplify_eq|].
  set (rf1 := if bool_decide (is_Term args >= currentTerm rf) then _ else rf) in E.
  apply (frame_snap _ rf1) in Hn; [|apply becomeFollower_if_frame]. clearbody rf1. case_bool_decide; simplify_eq; [done|].
  destruct Hn as [_ _ _ Hpos]. eapply frame_snap; [apply frame_signal, frame_refl|]. constructor; cbn; [done|done|lia|lia].
Qed.

Lemma Snapshot_snap rf index snap rf' : Snapshot rf index snap = Ret rf' -> Q index snap -> node_snap rf -> node_snap rf'.
Proof.
  unfold Snapshot. intros E HQ Hn. repeat (case_bool_decide || inv_ret); try done.
  assert (snapLastIdx v = index /\ snapshot v = snap) as [Ei Es]
    by (unfold doSnapshot in Hm; repeat (case_bool_decide || case_match || inv_ret); done).
  destruct Hn as [_ _ _ Hpos]. constructor; cbn; rewrite ?Ei ?Es; [by rewrite /saved /= Es|done|lia|lia].
Qed.

Lemma apply_snap rf rf' : log rf' = log rf -> persister rf' = persister rf -> (snapPending rf' = true -> snapPending rf = true) ->
  node_snap rf -> node_snap rf'.
Proof. intros E1 E2 E3 [N1 N2 N3 N4]. unfold saved in *. constructor; rewrite /saved ?E1 ?E2; auto. Qed.

Lemma Make_persister np i ps : persister (Make np i ps : Raft Cmd) = ps.
Proof. unfold Make, readPersist. by repeat (case_match; cbn). Qed.

Lemma Make_snap rf : durable rf -> node_snap rf -> node_snap (Make (peers rf) (me rf) (Copy (persister rf))).
Proof.
  intros (_ & _ & Hlog) [N1 N2 N3 N4]. assert (Copy (persister rf) = persister rf) as -> by by destruct (persister rf).
  destruct (Make_lastApplied (peers rf) (me rf) (persister rf)) as (_ & Hp & _).
  constructor; unfold saved in *; rewrite ?Hlog ?Make_persister; auto. by rewrite Hp.
Qed.

Lemma move_snap e s s' i rf rf' :
  event_ok e -> Forall call_snap (calls s) -> durable rf -> node_move s s' i e rf rf' -> node_snap rf -> node_snap rf'.
Proof.
  intros He Hc Hd Hmv. destruct Hmv as [e rf rf' Hf|k c r args o reply rf rf' Hk _ Hb _ Hi|index snap rf rf' Hs|rf|rf rf' Hco|rf ms rf' Hde|rf|rf].
  - by apply frame_snap.
  - apply (InstallSnapshot_snap _ _ _ _ _ Hi). pose proof (Forall_lookup_1 _ _ _ _ Hc Hk) as HQ. unfold call_snap in HQ. by rewrite Hb in HQ.
  - by apply (Snapshot_snap _ _ _ _ Hs).
  - apply apply_snap; unfold applyWait; by destruct (applier rf).
  - unfold applyCollect in Hco. destruct (applier rf); inv_ret; try done. destruct (snapPending rf) eqn:Ep; inv_ret;
      apply apply_snap; try done; case_bool_decide; cbn; congruence.
  - unfold applyDeliver in Hde. destruct (applier rf); simplify_eq; try done; by apply apply_snap.
  - apply apply_snap; unfold applyFinish; destruct (applier rf); try done; by case_bool_decide.
  - by apply Make_snap.
Qed.

(** ** Calls *)

Lemma startReplication_snap rf term rf' cs i :
  startReplication rf term = Ret (Some (rf', cs)) -> node_snap rf -> Forall call_snap (repl_rpc i term <$> cs).
Proof.
  unfold startReplication. intros E [_ HQ _ _]. case_match; inv_ret.
  apply (for_range_post (fun _ p => log p.1 = log rf /\ Forall call_snap (repl_rpc i term <$> p.2))) in Hm; [by destruct Hm|by split; [|constructor]|].
  intros j [rf1 cs1] [rf2 cs2] _ [Hl Hc] Hb. simpl in *. repeat (case_bool_decide || inv_ret); simplify_eq; try done.
  all: split; [done|]; rewrite fmap_app Forall_app; split; [done|]; repeat constructor. by rewrite /call_snap /= Hl.
Qed.

Lemma insert_snap s k r r' : Forall call_snap (calls s) -> calls s !! k = Some r -> (call_snap r -> call_snap r') -> Forall call_snap (<[k := r']> (calls s)).
Proof. intros Hc Hk Hr. apply Forall_insert; [done|]. by apply Hr, (Forall_lookup_1 _ _ _ _ Hc Hk). Qed.

Lemma deliver_calls s k r c s' : calls s !! k = Some r -> deliver s k r c = Ret s' -> Forall call_snap (calls s) -> Forall call_snap (calls s').
Proof.
  intros Hk Hd Hc. unfold deliver, with_node in Hd. destruct (nodes s !! to r) as [rf|]; [|by inv_ret].
  destruct (body r) as [el args o|args o|args o] eqn:Hb.
  - inv_ret. destruct v. inv_ret. by apply (insert_snap s k r).
  - inv_ret. destruct v. inv_ret. by apply (insert_snap s k r).
  - destruct (InstallSnapshot c rf args). inv_ret. apply (insert_snap s k r); [done|done|]. by rewrite /call_snap Hb.
Qed.

Lemma receive_calls s k r c s' : calls s !! k = Some r -> receive s k r c = Ret s' -> Forall call_snap (calls s) -> Forall call_snap (calls s').
Proof.
  intros Hk Hd Hc. assert (Forall call_snap (<[k := retire r]> (calls s))) as Hc' by by apply (insert_snap s k r).
  unfold receive, with_node in Hd. simpl in Hd. destruct (nodes s !! from r) as [rf|]; [|by inv_ret].
  destruct (body r) as [el args [rep|]|args [rep|]|args [rep|]]; try (by inv_ret).
  destruct (elections s !! el); [|by inv_ret]. inv_ret. destruct v as [[rf' votes'] won]. inv_ret. by destruct won.
Qed.

Lemma step_calls e s s' : step e s = Ret s' -> snaps_ok s -> Forall call_snap (calls s').
Proof.
  intros Hs [Hn Hc]. destruct e; simpl in Hs; unfold with_node in Hs; simpl in Hs; try (case_match eqn:Hi; [|by inv_ret]).
  - destruct (electionTick c1 c2 _) as [rf' o]. inv_ret. by destruct o.
  - destruct g as [i term|i term|]; try (by inv_ret). case_match; [|by inv_ret]. inv_ret. destruct v as [[votes cs]|]; [|done].
    cbn. apply Forall_app. split; [done|]. apply Forall_fmap, Forall_true. intros pc. done.
  - destruct g as [i term|i term|]; try (by inv_ret). case_match eqn:Hrf; [|by inv_ret]. inv_ret. destruct v as [[rf' cs]|]; [|done].
    cbn. apply Forall_app. split; [done|]. apply (startReplication_snap _ _ _ _ _ Hm). by apply (Hn i).
  - inv_ret. apply (insert_snap s k r); [done|done|]. unfold call_snap.
    by destruct (encode_as_spec r entries) as [->|(args & _ & _ & ->)].
  - case_match; [|by inv_ret]. by apply (deliver_calls _ _ _ _ _ Hi Hs).
  - case_match; [|by inv_ret]. by apply (receive_calls _ _ _ _ _ Hi Hs).
  - inv_ret. by apply (insert_snap s k r).
  - destruct (Start _ _). by inv_ret.
  - by inv_ret.
  - by inv_ret.
  - by inv_ret.
  - destruct (applyDeliver _). by inv_ret.
  - by inv_ret.
  - inv_ret. cbn. apply Forall_fmap. eapply Forall_impl; [exact Hc|]. intros x Hx. unfold kill_rpc. cbn. by case_bool_decide.
Qed.

(** ** The cluster *)

Lemma step_snaps n e s s' : reachable n s -> event_ok e -> step e s = Ret s' -> snaps_ok s -> snaps_ok s'.
Proof.
  intros (B & E & HI)%reachable_election_inv He Hs Hok. split; [|by apply (step_calls e s)].
  intros i rf' Hi. destruct (step_moves e s s' Hs) as [_ Hm]. destruct (Hm i rf' Hi) as (rf & Hrf & Hmv).
  apply (move_snap e s s' i rf rf'); [done|by destruct Hok| |done|by apply Hok in Hrf].
  by destruct (ei_node _ _ _ _ HI _ _ Hrf).
Qed.

Lemma init_snaps n : Q 0 [] -> snaps_ok (init n).
Proof.
  intros HQ. split; [|constructor]. intros i rf (j & -> & _)%list_lookup_fmap_Some. by constructor.
Qed.

(** A delivered batch is one snapshot that the peer keeps, or commands. *)
Lemma applyDeliver_snap rf ms rf' p : applyDeliver rf = (ms, rf') -> node_snap rf -> positioned rf p ->
  (exists m, ms = [m] /\ SnapshotValid m = true /\ am_CommandValid m = false /\ 0 < SnapshotIndex m /\ Q (SnapshotIndex m) (am_Snapshot m)) \/
  Forall (fun m => SnapshotValid m = false) ms.
Proof.
  unfold applyDeliver. intros E [_ HQ Hp _] (_ & _ & Hap). destruct (applier rf); simplify_eq; try (right; by constructor).
  - right. apply Forall_lookup_2. intros i m Hm. apply list_lookup_imap_Some in Hm as (x & _ & ->). done.
  - left. eexists. split; [done|]. cbn. auto.
Qed.
End snapshots.
