(* ===== verification/RaftService.v ===== *)
(** * RaftService: what a replicated service uses of its Raft peer

    kvraft and shardctrler hold a [*raft.Raft] and call five of its methods;
    [RaftService] is that interface with the facts the services rely on, and
    [raft_service] is the peer of RaftNode.v.  The services are modelled and
    verified against the interface.

    Messages go the other way through [applyCh], as values [ApplyMsg]. *)

From S2P Require Import Prelude LabGob RaftLog Persister RaftNode.
Local Open Scope Z_scope.

Class RaftService (Op R : Type) := {
  rs_Start : R -> Op -> (Z * Z * bool) * R;
  rs_GetState : R -> Z * bool;
  rs_GetRaftStateSize : R -> Z;
  rs_Snapshot : R -> Z -> bytes -> outcome R;
  rs_Kill : R -> R;
  (** [Start] tells whether the peer leads, in the term it reports. *)
  rs_Start_leader r op : (rs_Start r op).1.2 = (rs_GetState r).2;
  rs_Start_refused r op : (rs_GetState r).2 = false -> (rs_Start r op).2 = r;
  rs_Start_state r op : rs_GetState (rs_Start r op).2 = rs_GetState r;
  (** A snapshot changes neither term nor role. *)
  rs_Snapshot_state r i b r' : rs_Snapshot r i b = Ret r' -> rs_GetState r' = rs_GetState r;
}.

Section instance.
Context {Op : Type} `{!GobStream (gobval Op)}.

#[export] Program Instance raft_service : RaftService Op (Raft Op) := {|
  rs_Start rf op := Start rf (Some op);
  rs_GetState := GetState;
  rs_GetRaftStateSize := GetRaftStateSize;
  rs_Snapshot := Snapshot;
  rs_Kill := Kill;
|}.
Next Obligation. intros. unfold Start, GetState. simpl. by repeat case_bool_decide. Qed.
Next Obligation. intros rf op. unfold Start, GetState. simpl. by repeat case_bool_decide. Qed.
Next Obligation. intros. unfold Start, GetState. by case_bool_decide. Qed.
Next Obligation.
  intros rf i b rf' H. unfold Snapshot in H. unfold GetState.
  repeat (case_bool_decide || inv_ret); done.
Qed.
End instance.
