(* ===== verification/Dedup.v ===== *)
(** * Dedup: a log of numbered requests without its repetitions

    Both replicated services of the repository remember, per client, the number
    of the last write they executed, and skip a write whose number is not
    larger.  This file states what that table computes, for any type of
    operations: [effective] is the log without the skipped writes, [table_ok]
    ties the table to the log. *)

From S2P Require Import Prelude.
Local Open Scope Z_scope.

Section dedup.
Context {Op Info : Type} (write : Op -> bool) (client seq : Op -> Z) (info_seq : Info -> Z).
Implicit Types (op o : Op) (hist ops : list Op) (t : gmap Z Info).

(** [o] is a write of the client of [op] with the same or a later number. *)
Definition supersedes op o : bool :=
  write o && bool_decide (client o = client op) && bool_decide (seq op <= seq o).

Definition stale hist op : bool := write op && existsb (supersedes op) hist.

Fixpoint effective hist ops : list Op :=
  match ops with
  | [] => []
  | op :: ops =>
      if stale hist op then effective (hist ++ [op]) ops
      else op :: effective (hist ++ [op]) ops
  end.

(** The test the services make. *)
Definition duplicated t op : bool :=
  match t !! client op with
  | Some lo => bool_decide (seq op <= info_seq lo)
  | None => false
  end.

Lemma supersedes_spec op o :
  supersedes op o = true <-> write o = true /\ client o = client op /\ seq op <= seq o.
Proof. unfold supersedes. rewrite !andb_true_iff !bool_decide_eq_true. tauto. Qed.

Lemma existsb_supersedes hist op :
  existsb (supersedes op) hist = true <->
  exists o, o ∈ hist /\ write o = true /\ client o = client op /\ seq op <= seq o.
Proof.
  rewrite existsb_exists. split.
  - intros (o & Hin & Ho%supersedes_spec). exists o. by rewrite list_elem_of_In.
  - intros (o & Hin & Ho). exists o. by rewrite -list_elem_of_In supersedes_spec.
Qed.

(** [t] holds the latest write of every client of [hist]. *)
Definition table_ok hist t : Prop :=
  forall c, match t !! c with
  | None => forall o, o ∈ hist -> write o = true -> client o <> c
  | Some lo =>
      (exists o, o ∈ hist /\ write o = true /\ client o = c /\ seq o = info_seq lo) /\
      forall o, o ∈ hist -> write o = true -> client o = c -> seq o <= info_seq lo
  end.

Lemma duplicated_stale hist t op :
  table_ok hist t ->
  duplicated t op = existsb (supersedes op) hist.
Proof.
  intros Ht. specialize (Ht (client op)). unfold duplicated.
  apply eq_true_iff_eq. rewrite existsb_supersedes.
  destruct (t !! client op) as [lo|]; [rewrite bool_decide_eq_true|].
  - destruct Ht as [(o & ? & ? & ? & ?) Hmax]. split.
    + intros. exists o. split_and!; try done. lia.
    + intros (o' & Ho' & Hw & Hc & ?). specialize (Hmax o' Ho' Hw Hc). lia.
  - split; [done|]. intros (o & Ho & Hw & Hc & _). by destruct (Ht o Ho Hw).
Qed.

Lemma table_ok_snoc_same hist t op :
  table_ok hist t ->
  (write op = true -> exists lo, t !! client op = Some lo /\ seq op <= info_seq lo) ->
  table_ok (hist ++ [op]) t.
Proof.
  intros Ht Hop c. specialize (Ht c). destruct (t !! c) as [lo|] eqn:Hc.
  - destruct Ht as [(o & ? & ? & ? & ?) Hmax]. split; [exists o; split_and!; set_solver|].
    intros o' [Ho'| ->%list_elem_of_singleton]%elem_of_app Hw Hc'; [by apply Hmax|].
    destruct (Hop Hw) as (lo' & ? & ?). assert (lo' = lo) as <- by congruence. done.
  - intros o' [Ho'| ->%list_elem_of_singleton]%elem_of_app Hw Hc'; [by apply (Ht o')|].
    destruct (Hop Hw) as (lo' & ? & ?). congruence.
Qed.

Lemma table_ok_snoc_new hist t op lo :
  info_seq lo = seq op ->
  table_ok hist t -> write op = true -> existsb (supersedes op) hist = false ->
  table_ok (hist ++ [op]) (<[client op := lo]> t).
Proof.
  intros Hlo Ht Hw Hs c.
  assert (forall o, o ∈ hist -> write o = true -> client o = client op -> seq o < seq op) as Hlt.
  { intros o ? ? ?. apply Z.nle_gt. intros ?. apply not_true_iff_false in Hs. apply Hs.
    apply existsb_supersedes. by exists o. }
  destruct (decide (client op = c)) as [<-|Hne].
  - rewrite lookup_insert_eq Hlo. split; [exists op; split_and!; set_solver|].
    intros o [Ho| ->%list_elem_of_singleton]%elem_of_app Hwo Hc; [|lia].
    specialize (Hlt o Ho Hwo Hc). lia.
  - rewrite lookup_insert_ne //. specialize (Ht c). destruct (t !! c) as [lo'|] eqn:Hc.
    + destruct Ht as [(o & ? & ? & ? & ?) Hmax]. split; [exists o; split_and!; set_solver|].
      intros o' [Ho'| ->%list_elem_of_singleton]%elem_of_app Hwo Hc'; [by apply Hmax|done].
    + intros o' [Ho'| ->%list_elem_of_singleton]%elem_of_app Hwo Hc'; [by apply (Ht o')|done].
Qed.

(** Identities of the writes in a list of operations. *)
Definition write_ids ops : list (Z * Z) :=
  (fun o => (client o, seq o)) <$> filter (fun o => write o = true) ops.

Lemma effective_sub hist ops o : o ∈ effective hist ops -> o ∈ ops /\ stale hist o = false.
Proof.
  revert hist. induction ops as [|op ops IH]; intros hist; simpl; [by intros ?%elem_of_nil|].
  assert (forall h, stale (h ++ [op]) o = false -> stale h o = false) as Hmono.
  { intros h. unfold stale. rewrite existsb_app. destruct (write o), (existsb _ h); done. }
  destruct (stale hist op) eqn:Hs; rewrite ?elem_of_cons.
  - intros [? ?]%IH. eauto.
  - intros [->|[? ?]%IH]; [|by eauto]. eauto.
Qed.

Lemma effective_writes_nodup hist ops : NoDup (write_ids (effective hist ops)).
Proof.
  revert hist. induction ops as [|op ops IH]; intros hist; [apply NoDup_nil_2|]. simpl.
  destruct (stale hist op) eqn:Hs; [done|]. unfold write_ids. rewrite filter_cons.
  case_decide as Hw; [|apply IH]. simpl. apply NoDup_cons_2; [|apply IH].
  intros (o & [= Hc Hq] & [Hwo Ho]%list_elem_of_filter)%list_elem_of_fmap.
  apply effective_sub in Ho as [_ Ho]. unfold stale in Ho. rewrite Hwo existsb_app in Ho. simpl in Ho.
  apply orb_false_iff in Ho as [_ Ho]. rewrite orb_false_r in Ho.
  apply not_true_iff_false in Ho. apply Ho, supersedes_spec. split_and!; [done|congruence|lia].
Qed.

Lemma effective_first hist ops1 op ops2 :
  (forall o, o ∈ hist ++ ops1 -> write o = true -> client o = client op -> seq o < seq op) ->
  op ∈ effective hist (ops1 ++ op :: ops2).
Proof.
  revert hist. induction ops1 as [|o ops1 IH]; intros hist Hfirst; simpl.
  - replace (stale hist op) with false; [left|]. symmetry. unfold stale.
    apply andb_false_iff. right. apply not_true_iff_false.
    intros (o & Ho & Hw & Hc & Hle)%existsb_supersedes.
    specialize (Hfirst o). rewrite app_nil_r in Hfirst. specialize (Hfirst Ho Hw Hc). lia.
  - assert (op ∈ effective (hist ++ [o]) (ops1 ++ op :: ops2)) as Hin.
    { apply IH. intros o'. rewrite -app_assoc. apply Hfirst. }
    destruct (stale hist o); [done|]. by right.
Qed.
End dedup.
