(* ===== verification/Retry.v ===== *)
(** * Retry: the loop of a clerk

    Every clerk of the repository sends a request to the server it believes to
    be the leader and moves on to the next one until an answer is final:
    [for { ok := servers[leaderId].Call(...); if !ok || ... { leaderId =
    (leaderId + 1) % len(servers); continue }; return ... }].

    The network and the servers are the function [call]: the answer of a server
    to the [t]-th attempt, [None] when the RPC fails.  The loop need not end,
    so it takes fuel; [None] means that it is still running. *)

From S2P Require Import Prelude.
Local Open Scope Z_scope.

Section retry.
Context {A R : Type} (servers : nat) (call : nat -> Z -> A -> option R) (again : R -> bool).

Fixpoint retry (fuel t : nat) (leader : Z) (args : A) : outcome (option (R * Z)) :=
  match fuel with
  | O => Ret None
  | S fuel =>
      if bool_decide (0 <= leader < Z.of_nat servers) then
        match call t leader args with
        | Some reply =>
            if again reply
            then retry fuel (S t) (Z.rem (leader + 1) (Z.of_nat servers)) args
            else Ret (Some (reply, leader))
        | None => retry fuel (S t) (Z.rem (leader + 1) (Z.of_nat servers)) args
        end
      else Panic index_error
  end.

(** From attempt [T] on, server [p] gives final answers. *)
Definition settles (T : nat) (p : Z) (args : A) : Prop :=
  0 <= p < Z.of_nat servers /\
  forall t, (T <= t)%nat -> exists reply, call t p args = Some reply /\ again reply = false.

Lemma rem_next leader :
  0 <= leader < Z.of_nat servers ->
  Z.rem (leader + 1) (Z.of_nat servers) = if bool_decide (leader + 1 = Z.of_nat servers) then 0 else leader + 1.
Proof.
  intros. case_bool_decide as He.
  - rewrite He. apply Z.rem_same. lia.
  - apply Z.rem_small. lia.
Qed.

(** Attempts until the turn of [p]. *)
Definition distance (leader p : Z) : Z :=
  if bool_decide (leader <= p) then p - leader else p - leader + Z.of_nat servers.

Definition final (p : Z) (args : A) (r : R * Z) : Prop :=
  0 <= r.2 < Z.of_nat servers /\ again r.1 = false /\ exists t, call t r.2 args = Some r.1.

(** Within one turn over the servers after [T]. *)
Lemma retry_settled T p args fuel t leader :
  settles T p args -> (T <= t)%nat -> 0 <= leader < Z.of_nat servers ->
  (Z.to_nat (distance leader p) < fuel)%nat ->
  exists r, retry fuel t leader args = Ret (Some r) /\ final p args r.
Proof.
  intros [Hp Hset]. revert t leader. induction fuel as [|fuel IH]; intros t leader Ht Hl Hf; [lia|]. simpl.
  rewrite bool_decide_true //.
  destruct (decide (leader = p)) as [->|Hne].
  { destruct (Hset t Ht) as (reply & Hc & Ha). rewrite Hc Ha. eexists; split; [done|].
    split_and!; simpl; eauto; lia. }
  assert (exists r, retry fuel (S t) (Z.rem (leader + 1) (Z.of_nat servers)) args = Ret (Some r) /\
    final p args r) as Hrec.
  { rewrite rem_next //. unfold distance in *. apply IH; repeat case_bool_decide; lia. }
  destruct (call t leader args) as [reply|] eqn:Hc; [|done].
  destruct (again reply) eqn:Ha; [done|]. eexists; split; [done|]. split_and!; simpl; eauto; lia.
Qed.

Lemma retry_terminates T p args fuel t leader :
  settles T p args -> 0 <= leader < Z.of_nat servers -> (T + servers <= t + fuel)%nat ->
  (servers <= fuel)%nat ->
  exists r, retry fuel t leader args = Ret (Some r) /\ final p args r.
Proof.
  intros Hset. revert t leader. induction fuel as [|fuel IH]; intros t leader Hl Hf Hn; [lia|].
  destruct (decide (T <= t)%nat) as [Ht|Ht].
  { eapply retry_settled; eauto. destruct Hset as [Hp _]. unfold distance. case_bool_decide; lia. }
  simpl. rewrite bool_decide_true //.
  assert (exists r, retry fuel (S t) (Z.rem (leader + 1) (Z.of_nat servers)) args = Ret (Some r) /\
    final p args r) as Hrec 
    by (rewrite rem_next //; apply IH; [case_bool_decide; lia|lia|lia]).
  destruct (call t leader args) as [reply|] eqn:Hc; [|done].
  destruct (again reply) eqn:Ha; [done|]. eexists; split; [done|]. split_and!; simpl; eauto; lia.
Qed.
End retry.
