(* ===== verification/KVStore.v ===== *)
(** * KVStore: the data of the key/value service

    src/src/kvraft/state_machine.go and src/src/kvraft/common.go: the map
    every replica keeps, the requests, and the operations that go through the
    Raft log.  A Go string map is a [gmap string string]; the zero value a
    missing key reads as is written out. *)

From S2P Require Import Prelude.
Local Open Scope Z_scope.

(** ** common.go *)

Definition Err : Set := string.
Definition OK : Err := "OK".
Definition ErrNoKey : Err := "ErrNoKey".
Definition ErrWrongLeader : Err := "ErrWrongLeader".
Definition ErrTimeout : Err := "ErrTimeout".

Record PutAppendArgs := mkPutAppendArgs {
  pa_Key : string;
  pa_Value : string;
  pa_Op : string;
  pa_ClientId : Z;
  pa_SeqId : Z;
}.

Record PutAppendReply := mkPutAppendReply { par_Err : Err }.

Record GetArgs := mkGetArgs { ga_Key : string }.

Record GetReply := mkGetReply { gr_Err : Err; gr_Value : string }.

Inductive OperationType := OpGet | OpPut | OpAppend.

#[export] Instance OperationType_eq_dec : EqDecision OperationType.
Proof. solve_decision. Defined.

Record Op := mkOp {
  Key : string;
  Value : string;
  OpType : OperationType;
  ClientId : Z;
  SeqId : Z;
}.

#[export] Instance Op_eq_dec : EqDecision Op.
Proof. solve_decision. Defined.

#[export] Instance OperationType_countable : Countable OperationType.
Proof.
  refine (inj_countable' (fun o => match o with OpGet => 0 | OpPut => 1 | OpAppend => 2 end)
    (fun z => if bool_decide (z = 0) then OpGet else if bool_decide (z = 1) then OpPut else OpAppend) _).
  by intros [].
Defined.

#[export] Instance Op_countable : Countable Op.
Proof.
  refine (inj_countable' (fun o => (Key o, Value o, OpType o, ClientId o, SeqId o))
    (fun '(k, v, t, c, s) => mkOp k v t c s) _).
  by intros [].
Defined.

Record OpReply := mkOpReply { or_Value : string; or_Err : Err }.

#[export] Instance OpReply_eq_dec : EqDecision OpReply.
Proof. solve_decision. Defined.

#[export] Instance OpReply_countable : Countable OpReply.
Proof.
  refine (inj_countable' (fun r => (or_Value r, or_Err r)) (fun '(v, e) => mkOpReply v e) _).
  by intros [].
Defined.

Record LastOperationInfo := mkLastOperationInfo { lo_SeqId : Z; lo_Reply : OpReply }.

#[export] Instance LastOperationInfo_eq_dec : EqDecision LastOperationInfo.
Proof. solve_decision. Defined.

#[export] Instance LastOperationInfo_countable : Countable LastOperationInfo.
Proof.
  refine (inj_countable' (fun r => (lo_SeqId r, lo_Reply r)) (fun '(s, r) => mkLastOperationInfo s r) _).
  by intros [].
Defined.

Definition getOperationType (op : string) : outcome OperationType :=
  if bool_decide (op = "Get"%string) then Ret OpGet
  else if bool_decide (op = "Put"%string) then Ret OpPut
  else if bool_decide (op = "Append"%string) then Ret OpAppend
  else Panic "Invalid operation type".

(** ** state_machine.go *)

Record MemoryKVStateMachine := mkMemoryKVStateMachine { KV : gmap string string }.

#[export] Instance MemoryKV_eq_dec : EqDecision MemoryKVStateMachine.
Proof. solve_decision. Defined.

#[export] Instance MemoryKV_countable : Countable MemoryKVStateMachine.
Proof. refine (inj_countable' KV mkMemoryKVStateMachine _). by intros []. Defined.

Definition NewMemoryKVStateMachine : MemoryKVStateMachine := mkMemoryKVStateMachine ∅.

Definition Get (mkv : MemoryKVStateMachine) (key : string) : string * Err :=
  match KV mkv !! key with
  | Some val => (val, OK)
  | None => ("", ErrNoKey)%string
  end.

Definition Put (mkv : MemoryKVStateMachine) (key value : string) : Err * MemoryKVStateMachine :=
  (OK, mkMemoryKVStateMachine (<[key := value]> (KV mkv))).

(** [mkv.KV[key] += value]: a missing key reads as the empty string. *)
Definition Append (mkv : MemoryKVStateMachine) (key value : string) : Err * MemoryKVStateMachine :=
  (OK, mkMemoryKVStateMachine (<[key := String.append (default ""%string (KV mkv !! key)) value]> (KV mkv))).

(** server.go, [applyToStateMachine] *)
Definition applyToStateMachine (mkv : MemoryKVStateMachine) (op : Op) : OpReply * MemoryKVStateMachine :=
  match OpType op with
  | OpGet => let '(value, err) := Get mkv (Key op) in (mkOpReply value err, mkv)
  | OpPut => let '(err, mkv) := Put mkv (Key op) (Value op) in (mkOpReply "" err, mkv)
  | OpAppend => let '(err, mkv) := Append mkv (Key op) (Value op) in (mkOpReply "" err, mkv)
  end.
