(* ===== verification/KVServer.v ===== *)
(** * KVServer: a replica of the key/value service, src/src/kvraft/server.go

    [KVServer] is the struct, without the Raft peer it points to: that is the
    [R] of a [RaftService].  A handler waits for its command on a channel of
    [notifyChans]; channels are references, so the map holds indices into a
    store of channels, [chans], each with the buffer of [make(chan, 1)].

    The functions below are the critical sections of the handlers and of
    [applyTask]; [kv_step] interleaves them.  [KRaft] is a step of the Raft peer
    itself. *)

From S2P Require Import Prelude LabGob RaftLog Persister RaftNode RaftService KVStore.
Local Open Scope Z_scope.

(** What [makeSnapshot] writes. *)
Inductive kvgob :=
| GStateMachine (sm : MemoryKVStateMachine)
| GDuplicateTable (t : gmap Z LastOperationInfo).

#[export] Instance kvgob_eq_dec : EqDecision kvgob.
Proof. solve_decision. Defined.

#[export] Instance kvgob_countable : Countable kvgob.
Proof.
  refine (inj_countable' (fun v => match v with GStateMachine s => inl s | GDuplicateTable t => inr t end)
    (fun v => match v with inl s => GStateMachine s | inr t => GDuplicateTable t end) _).
  by intros [].
Defined.

Definition as_sm (v : kvgob) : option MemoryKVStateMachine :=
  match v with GStateMachine s => Some s | _ => None end.

Definition as_table (v : kvgob) : option (gmap Z LastOperationInfo) :=
  match v with GDuplicateTable t => Some t | _ => None end.

Record KVServer := mkKVServer {
  kv_me : Z;
  kv_dead : Z;
  maxraftstate : Z;
  stateMachine : MemoryKVStateMachine;
  kv_lastApplied : Z;
  notifyChans : gmap Z nat;
  duplicateTable : gmap Z LastOperationInfo;
  chans : list (list OpReply);
}.

Implicit Types kv : KVServer.

Definition set_stateMachine kv v := mkKVServer (kv_me kv) (kv_dead kv) (maxraftstate kv) v
  (kv_lastApplied kv) (notifyChans kv) (duplicateTable kv) (chans kv).
Definition set_kv_lastApplied kv v := mkKVServer (kv_me kv) (kv_dead kv) (maxraftstate kv)
  (stateMachine kv) v (notifyChans kv) (duplicateTable kv) (chans kv).
Definition set_notifyChans kv v := mkKVServer (kv_me kv) (kv_dead kv) (maxraftstate kv)
  (stateMachine kv) (kv_lastApplied kv) v (duplicateTable kv) (chans kv).
Definition set_duplicateTable kv v := mkKVServer (kv_me kv) (kv_dead kv) (maxraftstate kv)
  (stateMachine kv) (kv_lastApplied kv) (notifyChans kv) v (chans kv).
Definition set_chans kv v := mkKVServer (kv_me kv) (kv_dead kv) (maxraftstate kv)
  (stateMachine kv) (kv_lastApplied kv) (notifyChans kv) (duplicateTable kv) v.

Definition requestDuplicate kv (clientId seqId : Z) : bool :=
  match duplicateTable kv !! clientId with
  | Some lastOp => bool_decide (seqId <= lo_SeqId lastOp)
  | None => false
  end.

(** [kv.duplicateTable[clientId].Reply], used when the entry exists *)
Definition cachedReply kv (clientId : Z) : OpReply :=
  match duplicateTable kv !! clientId with
  | Some lastOp => lo_Reply lastOp
  | None => mkOpReply "" ""
  end.

Definition getNotifyChannel kv (index : Z) : nat * KVServer :=
  match notifyChans kv !! index with
  | Some c => (c, kv)
  | None =>
      let c := length (chans kv) in
      let kv := set_chans kv (chans kv ++ [[]]) in
      (c, set_notifyChans kv (<[index := c]> (notifyChans kv)))
  end.

Definition removeNotifyChannel kv (index : Z) : KVServer :=
  set_notifyChans kv (delete index (notifyChans kv)).

(** [ch <- reply] on a channel of capacity 1: [None] while the buffer is full. *)
Definition send kv (c : nat) (reply : OpReply) : option KVServer :=
  match chans kv !! c with
  | Some [] => Some (set_chans kv (<[c := [reply]]> (chans kv)))
  | _ => None
  end.

(** [<-ch]: [None] while the buffer is empty. *)
Definition recv kv (c : nat) : option (OpReply * KVServer) :=
  match chans kv !! c with
  | Some (r :: rs) => Some (r, set_chans kv (<[c := rs]> (chans kv)))
  | _ => None
  end.

(** The part of [applyTask] that executes or skips one operation. *)
Definition applyOp kv (op : Op) : OpReply * KVServer :=
  if bool_decide (OpType op <> OpGet) && requestDuplicate kv (ClientId op) (SeqId op)
  then (cachedReply kv (ClientId op), kv)
  else
    let '(opReply, sm) := applyToStateMachine (stateMachine kv) op in
    let kv := set_stateMachine kv sm in
    let kv := if bool_decide (OpType op <> OpGet)
              then set_duplicateTable kv
                     (<[ClientId op := mkLastOperationInfo (SeqId op) opReply]> (duplicateTable kv))
              else kv in
    (opReply, kv).

Section server.
Context {R : Type} `{!RaftService Op R} `{!GobStream kvgob}.
Implicit Types rf : R.

Definition snapshotBytes kv : bytes :=
  let encoder := NewEncoder in
  let encoder := Encode encoder (GStateMachine (stateMachine kv)) in
  let encoder := Encode encoder (GDuplicateTable (duplicateTable kv)) in
  Bytes encoder.

Definition makeSnapshot kv rf (lastIncludedIndex : Z) : outcome R :=
  rs_Snapshot rf lastIncludedIndex (snapshotBytes kv).

Definition restoreFromSnapshot kv (snap : bytes) : outcome KVServer :=
  if bool_decide (len snap = 0) then Ret kv else
  let dec := NewDecoder snap in
  match Decode as_sm dec with
  | (None, _) => Panic "failed to restore state from snapshpt"
  | (Some sm, dec) =>
      match Decode as_table dec with
      | (None, _) => Panic "failed to restore state from snapshpt"
      | (Some dupTable, _) => Ret (set_duplicateTable (set_stateMachine kv sm) dupTable)
      end
  end.

(** [StartKVServer], with the contents of the persister's snapshot *)
Definition StartKVServer (me maxraftstate : Z) (snap : bytes) : outcome KVServer :=
  let kv := mkKVServer me 0 maxraftstate NewMemoryKVStateMachine 0 ∅ ∅ [] in
  restoreFromSnapshot kv snap.

Definition kv_Kill kv rf : KVServer * R :=
  (mkKVServer (kv_me kv) 1 (maxraftstate kv) (stateMachine kv) (kv_lastApplied kv)
     (notifyChans kv) (duplicateTable kv) (chans kv), rs_Kill rf).

Definition kv_killed kv : bool := bool_decide (kv_dead kv = 1).

(** One message of [applyTask]; [None] while it is blocked in
    [notifyCh <- opReply].  The code then holds the lock, with the command
    executed, until a handler receives; since nobody else can read the state
    meanwhile, the message counts as not taken until the send succeeds. *)
Definition applyMessage kv rf (message : ApplyMsg Op) : outcome (option (KVServer * R)) :=
  if am_CommandValid message then
    if bool_decide (CommandIndex message <= kv_lastApplied kv) then Ret (Some (kv, rf)) else
    let kv := set_kv_lastApplied kv (CommandIndex message) in
    match am_Command message with
    | None => Panic "interface conversion"
    | Some op =>
      let '(opReply, kv) := applyOp kv op in
      let notified :=
        if (rs_GetState rf).2 then
          let '(notifyCh, kv) := getNotifyChannel kv (CommandIndex message) in
          send kv notifyCh opReply
        else Some kv in
      match notified with
      | None => Ret None
      | Some kv =>
        if bool_decide (maxraftstate kv <> -1)
             && bool_decide (rs_GetRaftStateSize rf >= maxraftstate kv) then
          rf ← makeSnapshot kv rf (CommandIndex message); Ret (Some (kv, rf))
        else Ret (Some (kv, rf))
      end
    end
  else if SnapshotValid message then
    kv ← restoreFromSnapshot kv (am_Snapshot message);
    Ret (Some (set_kv_lastApplied kv (SnapshotIndex message), rf))
  else Ret (Some (kv, rf)).

(** ** The RPC handlers *)

Inductive Request := RGet (args : GetArgs) | RPutAppend (args : PutAppendArgs).
Inductive Response := GetResponse (r : GetReply) | PutAppendResponse (r : PutAppendReply).

(** The assignments to [reply] in [Get] and in [PutAppend]. *)
Definition respond (q : Request) (result : OpReply) : Response :=
  match q with
  | RGet _ => GetResponse (mkGetReply (or_Err result) (or_Value result))
  | RPutAppend _ => PutAppendResponse (mkPutAppendReply (or_Err result))
  end.

(** The argument of [kv.rf.Start]. *)
Definition requestOp (q : Request) : outcome Op :=
  match q with
  | RGet args => Ret (mkOp (ga_Key args) "" OpGet 0 0)
  | RPutAppend args =>
      t ← getOperationType (pa_Op args);
      Ret (mkOp (pa_Key args) (pa_Value args) t (pa_ClientId args) (pa_SeqId args))
  end.

(** The first section of [PutAppend]: the answer to a request that was already
    executed. *)
Definition PutAppend_check kv (args : PutAppendArgs) : option OpReply :=
  if requestDuplicate kv (pa_ClientId args) (pa_SeqId args)
  then Some (cachedReply kv (pa_ClientId args)) else None.

(** A handler, by what it does next. *)
Inductive Handler :=
| HCheck (q : Request)                       (* the duplicate check of [PutAppend] *)
| HStart (q : Request)                       (* [kv.rf.Start(...)] *)
| HWait (q : Request) (index : Z)            (* [kv.getNotifyChannel(index)] *)
| HSelect (q : Request) (index : Z) (c : nat) (* the [select] *)
| HCleanup (q : Request) (index : Z) (resp : Response) (* answered, channel to remove *)
| HDone (q : Request) (resp : Response).

Record Sys := mkSys {
  kv : KVServer;
  rf : R;
  handlers : list Handler;
  history : list (Z * Op * OpReply);  (* what was executed, for the statements *)
}.

Inductive KVEvent :=
| KCall (q : Request)
| KRun (h : nat)       (* the next section of handler [h] *)
| KReceive (h : nat)   (* its [select] takes the result *)
| KTimeout (h : nat)   (* its [select] times out *)
| KMessage (m : ApplyMsg Op)
| KRaft (rf' : R).     (* the Raft peer moves on its own *)

Definition set_handler (s : Sys) (h : nat) (x : Handler) : Sys :=
  mkSys (kv s) (rf s) (<[h := x]> (handlers s)) (history s).

Definition executed (m : ApplyMsg Op) kv : list (Z * Op * OpReply) :=
  match am_Command m with
  | Some op => if am_CommandValid m && bool_decide (kv_lastApplied kv < CommandIndex m)
               then [(CommandIndex m, op, (applyOp kv op).1)] else []
  | None => []
  end.

Definition run_handler (s : Sys) (h : nat) (x : Handler) : outcome Sys :=
  match x with
  | HCheck (RPutAppend args as q) =>
      Ret (match PutAppend_check (kv s) args with
           | Some r => set_handler s h (HDone q (respond q r))
           | None => set_handler s h (HStart q)
           end)
  | HCheck (RGet _ as q) => Ret (set_handler s h (HStart q))
  | HStart q =>
      op ← requestOp q;
      let '((index, _, isLeader), rf') := rs_Start (rf s) op in
      let s := mkSys (kv s) rf' (handlers s) (history s) in
      Ret (if isLeader : bool then set_handler s h (HWait q index)
           else set_handler s h (HDone q (respond q (mkOpReply "" ErrWrongLeader))))
  | HWait q index =>
      let '(c, kv') := getNotifyChannel (kv s) index in
      Ret (set_handler (mkSys kv' (rf s) (handlers s) (history s)) h (HSelect q index c))
  | HCleanup q index resp =>
      Ret (set_handler (mkSys (removeNotifyChannel (kv s) index) (rf s) (handlers s) (history s))
             h (HDone q resp))
  | HSelect _ _ _ | HDone _ _ => Ret s
  end.

(** Events that are not enabled leave the state as it is. *)
Definition kv_step (e : KVEvent) (s : Sys) : outcome Sys :=
  match e with
  | KCall q => Ret (mkSys (kv s) (rf s) (handlers s ++ [HCheck q]) (history s))
  | KRun h => match handlers s !! h with Some x => run_handler s h x | None => Ret s end
  | KReceive h =>
      match handlers s !! h with
      | Some (HSelect q index c) =>
          match recv (kv s) c with
          | Some (r, kv') =>
              Ret (set_handler (mkSys kv' (rf s) (handlers s) (history s)) h
                     (HCleanup q index (respond q r)))
          | None => Ret s
          end
      | _ => Ret s
      end
  | KTimeout h =>
      match handlers s !! h with
      | Some (HSelect q index c) =>
          Ret (set_handler s h (HCleanup q index (respond q (mkOpReply "" ErrTimeout))))
      | _ => Ret s
      end
  | KMessage m =>
      r ← applyMessage (kv s) (rf s) m;
      Ret (match r with
           | Some (kv', rf') => mkSys kv' rf' (handlers s) (history s ++ executed m (kv s))
           | None => s
           end)
  | KRaft rf' => Ret (mkSys (kv s) rf' (handlers s) (history s))
  end.

Fixpoint kv_run (es : list KVEvent) (s : Sys) : outcome Sys :=
  match es with [] => Ret s | e :: es => s ← kv_step e s; kv_run es s end.
End server.
Arguments Sys R : clear implicits.
Arguments KVEvent R : clear implicits.
