(* ===== verification/KVFacts.v ===== *)
(** * KVFacts: the key/value replica executes every write once

    Part one is about the log alone: the state of a replica is a function of
    the prefix of commands it was given, and in that function repeated writes
    have no effect ([executed_ops] is the log without them).  Part two is about
    [applyTask] with restarts and snapshots: whatever the mix of command
    messages and snapshots, the replica is in the state of some prefix, and
    the snapshots it gives to Raft are snapshots of its own prefix. *)

From S2P Require Import Prelude LabGob RaftLog Persister RaftNode RaftService Dedup KVStore KVServer.
Local Open Scope Z_scope.

(** ** The log without repeated writes *)

Definition write (op : Op) : bool := bool_decide (OpType op <> OpGet).

#[local] Notation stale := (Dedup.stale write ClientId SeqId).
#[local] Notation table_ok := (Dedup.table_ok write ClientId SeqId lo_SeqId).

(** The operations of a log that are executed. *)
Definition executed_ops (hist ops : list Op) : list Op := Dedup.effective write ClientId SeqId hist ops.

(** Identities of the writes in a list of operations. *)
Definition write_ids (ops : list Op) : list (Z * Z) := Dedup.write_ids write ClientId SeqId ops.

Definition replay (sm : MemoryKVStateMachine) (ops : list Op) : MemoryKVStateMachine :=
  foldl (fun sm op => (applyToStateMachine sm op).2) sm ops.

(** The replica after executing [ops]. *)
Definition after_ops (kv : KVServer) (ops : list Op) : KVServer :=
  foldl (fun kv op => (applyOp kv op).2) kv ops.

(** One operation: executed unless stale, and the table follows. *)
Lemma applyOp_spec hist kv op :
  table_ok hist (duplicateTable kv) ->
  stateMachine (applyOp kv op).2 =
    (if stale hist op then stateMachine kv else (applyToStateMachine (stateMachine kv) op).2) /\
  table_ok (hist ++ [op]) (duplicateTable (applyOp kv op).2).
Proof.
  intros Ht. pose proof (duplicated_stale _ _ _ _ _ _ op Ht) as Hdup. unfold applyOp, Dedup.stale.
  change (requestDuplicate kv (ClientId op) (SeqId op)) with
    (duplicated ClientId SeqId lo_SeqId (duplicateTable kv) op).
  change (bool_decide (OpType op <> OpGet)) with (write op).
  rewrite Hdup. destruct (write op) eqn:Hw; simpl.
  - destruct (existsb _ _) eqn:Hs; simpl.
    + split; [done|]. apply table_ok_snoc_same; [done|]. intros _.
      unfold duplicated in Hdup. destruct (duplicateTable kv !! ClientId op) as [lo|]; [|done].
      apply bool_decide_eq_true in Hdup. eauto.
    + destruct (applyToStateMachine _ _) as [r sm]. simpl. split; [done|]. by apply table_ok_snoc_new.
  - destruct (applyToStateMachine _ _) as [r sm]. simpl. split; [done|].
    apply table_ok_snoc_same; [done|]. congruence.
Qed.

Lemma after_ops_replay hist kv ops :
  table_ok hist (duplicateTable kv) ->
  stateMachine (after_ops kv ops) = replay (stateMachine kv) (executed_ops hist ops).
Proof.
  revert hist kv. induction ops as [|op ops IH]; intros hist kv Ht; [done|]. simpl.
  destruct (applyOp_spec hist kv op Ht) as [Hsm Ht']. rewrite (IH _ _ Ht') Hsm.
  unfold executed_ops. cbn [Dedup.effective]. by destruct (stale hist op).
Qed.

(** ** The state of a prefix of the log *)

Definition kv_state (kv : KVServer) : MemoryKVStateMachine * gmap Z LastOperationInfo :=
  (stateMachine kv, duplicateTable kv).

Definition fresh_server : KVServer := mkKVServer 0 0 (-1) NewMemoryKVStateMachine 0 ∅ ∅ [].

Definition state_of (ops : list Op) : MemoryKVStateMachine * gmap Z LastOperationInfo :=
  kv_state (after_ops fresh_server ops).

Lemma applyOp_state kv1 kv2 op :
  kv_state kv1 = kv_state kv2 ->
  kv_state (applyOp kv1 op).2 = kv_state (applyOp kv2 op).2 /\ (applyOp kv1 op).1 = (applyOp kv2 op).1.
Proof.
  intros [= Hsm Hd]. unfold applyOp, requestDuplicate, cachedReply, kv_state. rewrite Hsm Hd.
  destruct (bool_decide (OpType op <> OpGet)); simpl;
    repeat (case_match; simplify_eq/=; try done); by rewrite ?Hsm ?Hd.
Qed.

Lemma state_of_snoc ops op kv :
  kv_state kv = state_of ops -> kv_state (applyOp kv op).2 = state_of (ops ++ [op]).
Proof.
  intros Hkv. unfold state_of, after_ops. rewrite foldl_app /=. by apply applyOp_state.
Qed.

Section serving.
Context {R : Type} `{!RaftService Op R} `{!GobStream kvgob} (log : list Op).

(** The bytes of a snapshot of the first [j] commands. *)
Definition snapshot_of (j : nat) (snap : bytes) : Prop :=
  (j = 0%nat /\ snap = []) \/
  exists kv, kv_state kv = state_of (take j log) /\ snap = snapshotBytes kv.

(** A message that agrees with the log, for a replica at position [k]. *)
Definition message_ok (k : nat) kv (m : ApplyMsg Op) (k' : nat) : Prop :=
  if am_CommandValid m then
    (CommandIndex m <= kv_lastApplied kv /\ k' = k) \/
    (CommandIndex m = Z.of_nat k + 1 /\ k' = S k /\ am_Command m = log !! k /\ (k < length log)%nat)
  else if SnapshotValid m then
    SnapshotIndex m = Z.of_nat k' /\ (k' <= length log)%nat /\
    exists kv0, kv_state kv0 = state_of (take k' log) /\ am_Snapshot m = snapshotBytes kv0
  else k' = k.

(** The lives of a replica: it starts from the snapshot of its persister, then
    it is given messages, and its handlers use the channels. *)
Inductive served : nat -> KVServer -> Prop :=
| served_start j snap me max kv :
    (j <= length log)%nat -> snapshot_of j snap -> StartKVServer me max snap = Ret kv -> served j kv
| served_message k k' kv (rf : R) m kv' rf' :
    served k kv -> message_ok k kv m k' -> applyMessage kv rf m = Ret (Some (kv', rf')) ->
    served k' kv'
| served_getNotify k kv index c kv' :
    served k kv -> getNotifyChannel kv index = (c, kv') -> served k kv'
| served_removeNotify k kv index : served k kv -> served k (removeNotifyChannel kv index)
| served_receive k kv c r kv' : served k kv -> recv kv c = Some (r, kv') -> served k kv'.

Record at_prefix (k : nat) kv : Prop := {
  ap_state : kv_state kv = state_of (take k log);
  ap_applied : kv_lastApplied kv <= Z.of_nat k;
  ap_bound : (k <= length log)%nat;
}.

Lemma at_prefix_frame k kv kv' :
  at_prefix k kv -> kv_state kv' = kv_state kv -> kv_lastApplied kv' = kv_lastApplied kv -> at_prefix k kv'.
Proof. intros [Hs Ha Hb] Hs' Ha'. constructor; congruence. Qed.

Lemma getNotify_frame kv index c kv' :
  getNotifyChannel kv index = (c, kv') ->
  kv_state kv' = kv_state kv /\ kv_lastApplied kv' = kv_lastApplied kv /\ maxraftstate kv' = maxraftstate kv.
Proof. unfold getNotifyChannel. by case_match; intros [= <- <-]. Qed.

Lemma send_frame kv c r kv' :
  send kv c r = Some kv' ->
  kv_state kv' = kv_state kv /\ kv_lastApplied kv' = kv_lastApplied kv /\ maxraftstate kv' = maxraftstate kv.
Proof. unfold send. by repeat case_match; intros [= <-]. Qed.

Lemma recv_frame kv c r kv' :
  recv kv c = Some (r, kv') -> kv_state kv' = kv_state kv /\ kv_lastApplied kv' = kv_lastApplied kv.
Proof. unfold recv. by repeat case_match; intros [= <- <-]. Qed.

Lemma restore_snapshot kv kv0 :
  exists kv', restoreFromSnapshot kv (snapshotBytes kv0) = Ret kv' /\
    kv_state kv' = kv_state kv0 /\ kv_lastApplied kv' = kv_lastApplied kv.
Proof.
  unfold restoreFromSnapshot, snapshotBytes. rewrite bool_decide_false.
  { unfold Bytes. intros H. apply (stream_nonempty (V:=kvgob) (Encode (Encode NewEncoder
      (GStateMachine (stateMachine kv0))) (GDuplicateTable (duplicateTable kv0)))); [done|].
    unfold len in H. apply length_zero_iff_nil. lia. }
  unfold NewDecoder, Bytes. rewrite stream_roundtrip. simpl. by eexists.
Qed.

(** What a command message does to the data, and which snapshot it hands to
    Raft. *)
Lemma applyMessage_command kv (rf : R) m kv' rf' op :
  am_CommandValid m = true -> kv_lastApplied kv < CommandIndex m -> am_Command m = Some op ->
  applyMessage kv rf m = Ret (Some (kv', rf')) ->
  kv_state kv' = kv_state (applyOp kv op).2 /\ kv_lastApplied kv' = CommandIndex m /\
  (rf' = rf \/ rs_Snapshot rf (CommandIndex m) (snapshotBytes kv') = Ret rf').
Proof.
  intros Hc Hlt Hop H. unfold applyMessage in H. rewrite Hc bool_decide_false in H; [lia|].
  rewrite Hop in H. set (kv1 := set_kv_lastApplied kv _) in H.
  assert (kv_state (applyOp kv1 op).2 = kv_state (applyOp kv op).2) as Hst by by apply applyOp_state.
  assert (kv_lastApplied (applyOp kv1 op).2 = CommandIndex m) as Hla.
  { unfold applyOp. repeat (case_match; simplify_eq/=); done. }
  destruct (applyOp kv1 op) as [r kv2] eqn:Happ. simpl in *. rewrite -Hst.
  match type of H with match ?n with _ => _ end = _ => destruct n as [kv3|] eqn:Hnot end; [|by inv_ret].
  assert (kv_state kv3 = kv_state kv2 /\ kv_lastApplied kv3 = kv_lastApplied kv2) as [Hst3 Hla3].
  { destruct (rs_GetState rf).2; [|by simplify_eq].
    destruct (getNotifyChannel kv2 (CommandIndex m)) as [c kv4] eqn:Hg.
    apply getNotify_frame in Hg as (Hg1 & Hg2 & _). apply send_frame in Hnot as (Hs1 & Hs2 & _).
    split; congruence. }
  case_match; inv_ret; split_and!; try congruence; auto.
Qed.

Lemma at_prefix_message k k' kv (rf : R) m kv' rf' :
  at_prefix k kv -> message_ok k kv m k' -> applyMessage kv rf m = Ret (Some (kv', rf')) ->
  at_prefix k' kv'.
Proof.
  intros [Hs Ha Hb] Hm H. unfold message_ok in Hm. destruct (am_CommandValid m) eqn:Hc.
  - destruct Hm as [[Hold ->]|(Hi & -> & Hop & Hlt)].
    + unfold applyMessage in H. rewrite Hc bool_decide_true // in H. by inv_ret.
    + destruct (lookup_lt_is_Some_2 log k Hlt) as [op Hk]. rewrite Hk in Hop.
      assert (kv_lastApplied kv < CommandIndex m) as Hnew by lia.
      destruct (applyMessage_command _ _ _ _ _ op Hc Hnew Hop H) as (Hst & Hla & _).
      constructor; [|lia|lia]. rewrite Hst (take_S_r _ _ _ Hk). by apply state_of_snoc.
  - unfold applyMessage in H. rewrite Hc in H. destruct (SnapshotValid m); [|by inv_ret; subst].
    destruct Hm as (Hi & Hl & kv0 & Hs0 & Hb0). rewrite Hb0 in H.
    destruct (restore_snapshot kv kv0) as (kv1 & Hr & Hst & _). rewrite Hr in H. simpl in H. inv_ret.
    constructor; simpl; [|lia|done]. by rewrite -Hs0 -Hst.
Qed.

Lemma served_at_prefix k kv : served k kv -> at_prefix k kv.
Proof.
  induction 1 as [j snap me max kv Hj Hsnap Hst|k k' kv rf m kv' rf' _ IH Hm Ha
    |k kv index c kv' _ IH Hg|k kv index _ IH|k kv c r kv' _ IH Hr].
  - unfold StartKVServer in Hst. destruct Hsnap as [[-> ->]|(kv0 & Hs0 & ->)].
    + unfold restoreFromSnapshot in Hst. simpl in Hst. inv_ret. by constructor.
    + match type of Hst with restoreFromSnapshot ?k0 _ = _ =>
        destruct (restore_snapshot k0 kv0) as (kv1 & Hr & Hst1 & Hla) end.
      rewrite Hr in Hst. inv_ret. constructor; [congruence|rewrite Hla /=; lia|done].
  - eapply at_prefix_message; eauto.
  - apply getNotify_frame in Hg as (? & ? & _). eapply at_prefix_frame; eauto.
  - apply (at_prefix_frame k kv); done.
  - apply recv_frame in Hr as [? ?]. eapply at_prefix_frame; eauto.
Qed.

Lemma state_of_replay ops :
  (state_of ops).1 = replay NewMemoryKVStateMachine (executed_ops [] ops).
Proof. unfold state_of. simpl. apply after_ops_replay. intros c. rewrite lookup_empty. by intros o ?%elem_of_nil. Qed.
End serving.

(** ** Theorems *)

Section theorems.
Context {R : Type} `{!RaftService Op R} `{!GobStream kvgob}.

(** C12. Exactly-once execution: whatever sequence of command messages,
    snapshots and restarts led a replica to position [k] of the log, its map is
    the replay of the first [k] commands without the repeated writes.  In that
    replay no client's write occurs twice, and a write whose client issued
    only smaller numbers before is there. *)
Theorem kv_exactly_once (log : list Op) (k : nat) (kv : KVServer) :
  served (R:=R) log k kv ->
  stateMachine kv = replay NewMemoryKVStateMachine (executed_ops [] (take k log)) /\
  NoDup (write_ids (executed_ops [] (take k log))) /\
  (forall ops1 op ops2, take k log = ops1 ++ op :: ops2 ->
     (forall o, o ∈ ops1 -> write o = true -> ClientId o = ClientId op -> SeqId o < SeqId op) ->
     op ∈ executed_ops [] (take k log)).
Proof.
  intros [Hs _ _]%served_at_prefix. split_and!.
  - rewrite -state_of_replay -Hs. done.
  - apply effective_writes_nodup.
  - intros ops1 op ops2 -> Hfirst. by apply effective_first.
Qed.

(** A snapshot a replica hands to Raft at index [i] is the snapshot of the
    first [i] commands of the log, so that a replica that restarts from it, or
    receives it, continues as if it had executed them. *)
Lemma kv_snapshots_prefix (log : list Op) (k k' : nat) (kv kv' : KVServer) (rf rf' : R)
    (m : ApplyMsg Op) :
  served (R:=R) log k kv -> message_ok log k kv m k' -> am_CommandValid m = true ->
  applyMessage kv rf m = Ret (Some (kv', rf')) ->
  rf' = rf \/ exists snap, snapshot_of log k' snap /\ CommandIndex m = Z.of_nat k' /\
    rs_Snapshot rf (CommandIndex m) snap = Ret rf'.
Proof.
  intros Hp%served_at_prefix Hm Hc Ha.
  pose proof (at_prefix_message _ _ _ _ _ _ _ _ Hp Hm Ha) as Hp'.
  unfold message_ok in Hm. rewrite Hc in Hm. destruct Hm as [[Hold ->]|(Hi & -> & Hop & Hlt)].
  - left. unfold applyMessage in Ha. rewrite Hc bool_decide_true // in Ha. by inv_ret.
  - destruct (lookup_lt_is_Some_2 log k Hlt) as [op Hk]. rewrite Hk in Hop.
    assert (kv_lastApplied kv < CommandIndex m) as Hnew by (destruct Hp; lia).
    destruct (applyMessage_command _ _ _ _ _ op Hc Hnew Hop Ha) as (_ & _ & [->|Hsn]); [by left|right].
    exists (snapshotBytes kv'). split_and!; [|lia|done].
    right. exists kv'. split; [|done]. apply Hp'.
Qed.
End theorems.
