(* ===== verification/KVReplies.v ===== *)
(** * KVReplies: what the waiting handlers of a replica receive

    An invariant of [kv_step]: the channel a handler waits on was made for its
    index, and what is in its buffer is the result of the command executed at
    that index.  While messages come in order, a channel for an index that is
    not yet executed is empty, so [applyTask], which sends while it holds the
    lock, does not block.  A send that blocks is a message that is not yet
    taken: nothing can see the state of the server before the send is done,
    because the lock is held, and only a receive from the channel ends it.

    The answer is the result of the command *at the index*; nothing in the code
    checks that it is the command of the handler, and [lost_write] is a run in
    which it is not. *)

From S2P Require Import Prelude LabGob RaftLog Persister RaftNode RaftNet RaftElection RaftScenarios.
From S2P Require Import RaftService KVStore KVServer KVFacts.
Local Open Scope Z_scope.

Section replies.
Context {R : Type} `{!RaftService Op R} `{!GobStream kvgob}.
Implicit Types s : Sys R.

Definition kv_step_rel s s' : Prop := exists e, kv_step e s = Ret s'.

Definition kv_start (r : R) s : Prop :=
  exists me max snap k, StartKVServer me max snap = Ret k /\ s = mkSys k r [] [].

(** Whatever messages the peer sends. *)
Definition kv_reachable s : Prop := exists r s0, kv_start r s0 /\ rtc kv_step_rel s0 s.

(** The snapshots that arrive are not older than what was delivered.
    [InstallSnapshot] compares with the last snapshot only, so Raft does not
    promise it. *)
Definition in_order (e : KVEvent R) s : Prop :=
  match e with
  | KMessage m => am_CommandValid m = false -> SnapshotValid m = true ->
                  kv_lastApplied (kv s) <= SnapshotIndex m
  | _ => True
  end.

Definition kv_ordered_step s s' : Prop := exists e, in_order e s /\ kv_step e s = Ret s'.

Definition kv_ordered_reachable s : Prop := exists r s0, kv_start r s0 /\ rtc kv_ordered_step s0 s.

(** [G] gives the index each channel was made for; [b] tells whether the messages
    came in order. *)
Record chans_ok (b : bool) (G : list Z) (k : KVServer) (h : list (Z * Op * OpReply)) : Prop := {
  co_len : length G = length (chans k);
  co_map i c : notifyChans k !! i = Some c -> G !! c = Some i;
  co_buf c i buf : G !! c = Some i -> chans k !! c = Some buf ->
    forall r, r ∈ buf -> exists op, (i, op, r) ∈ h;
  co_empty c i : b = true -> G !! c = Some i -> kv_lastApplied k < i -> chans k !! c = Some [];
}.

Definition waits_ok (G : list Z) (hs : list Handler) : Prop :=
  forall h q i c, hs !! h = Some (HSelect q i c) -> G !! c = Some i.

Definition sys_ok (b : bool) (G : list Z) s : Prop := chans_ok b G (kv s) (history s) /\ waits_ok G (handlers s).

Lemma chans_ok_history b G k h h' : chans_ok b G k h -> chans_ok b G k (h ++ h').
Proof.
  intros [? ? Hb ?]. constructor; auto. intros c i buf HG Hc r Hr.
  destruct (Hb c i buf HG Hc r Hr) as [op ?]. exists op. set_solver.
Qed.

(** A later [lastApplied] when messages come in order, same channels. *)
Lemma chans_ok_frame b G k k' h :
  chans_ok b G k h -> chans k' = chans k -> notifyChans k' = notifyChans k ->
  (b = true -> kv_lastApplied k <= kv_lastApplied k') -> chans_ok b G k' h.
Proof.
  intros [? ? ? He] Hc Hn Hl. constructor; rewrite ?Hc ?Hn; auto.
  intros c i Hb HG Hi. apply He with i; [done|done|]. specialize (Hl Hb). lia.
Qed.

Lemma waits_ok_set G hs h x :
  waits_ok G hs -> (forall q i c, x = HSelect q i c -> G !! c = Some i) -> waits_ok G (<[h := x]> hs).
Proof.
  intros Hw Hx h' q i c [(_ & -> & _)|[_ ?]]%list_lookup_insert_Some; [eapply Hx; eauto|eapply Hw; eauto].
Qed.

Lemma waits_ok_grow G x hs : waits_ok G hs -> waits_ok (G ++ [x]) hs.
Proof. intros Hw h q i c Hh. apply lookup_app_l_Some. eapply Hw; eauto. Qed.

(** [getNotifyChannel] returns a channel made for the index. *)
Lemma getNotify_ok b G k h i c k' :
  chans_ok b G k h -> getNotifyChannel k i = (c, k') ->
  exists G', (G' = G \/ G' = G ++ [i]) /\ chans_ok b G' k' h /\ G' !! c = Some i.
Proof.
  intros Hok Hg. unfold getNotifyChannel in Hg. destruct (notifyChans k !! i) as [c0|] eqn:Hi.
  { injection Hg as <- <-. exists G. split_and!; [by left|done|]. eapply co_map; eauto. }
  injection Hg as <- <-. destruct Hok as [Hl Hm Hb He]. exists (G ++ [i]).
  assert ((G ++ [i]) !! length (chans k) = Some i) as Hnew by by rewrite -Hl list_lookup_middle.
  split_and!; [by right| |done]. constructor; simpl.
  - rewrite !length_app. simpl. lia.
  - intros j c [[<- <-]|[_ ?%Hm]]%lookup_insert_Some; [done|by apply lookup_app_l_Some].
  - intros c j buf HG Hc r Hr.
    apply lookup_app_Some in Hc as [Hc|[Hge Hc]].
    + apply (Hb c j buf); [|done|done]. rewrite lookup_app_l // in HG.
      apply lookup_lt_Some in Hc. lia.
    + apply list_lookup_singleton_Some in Hc as [_ <-]. by apply elem_of_nil in Hr.
  - intros c j Hord HG Hj. apply lookup_app_Some in HG as [HG|[Hge HG]].
    + apply lookup_app_l_Some. eapply He; eauto.
    + apply list_lookup_singleton_Some in HG as [Heq _]. rewrite Hl in Hge, Heq.
      by rewrite lookup_app_r // Heq.
Qed.

Lemma send_ok b G k h c i r k' op :
  chans_ok b G k h -> G !! c = Some i -> i <= kv_lastApplied k -> send k c r = Some k' ->
  (i, op, r) ∈ h -> chans_ok b G k' h.
Proof.
  intros [Hl Hm Hb He] HG Hi Hs Hop. unfold send in Hs.
  destruct (chans k !! c) as [[|]|] eqn:Hc; try done. injection Hs as <-. constructor; simpl; auto.
  - by rewrite length_insert.
  - intros c' i' buf HG' [(<- & <- & _)|[_ ?]]%list_lookup_insert_Some r' Hr'; [|eapply Hb; eauto].
    simplify_eq. apply list_elem_of_singleton in Hr' as ->. by exists op.
  - intros c' i' Hord HG' Hi'. rewrite list_lookup_insert_ne; [|eapply He; eauto].
    intros <-. simplify_eq. lia.
Qed.

Lemma recv_ok b G k h c i r k' :
  chans_ok b G k h -> G !! c = Some i -> recv k c = Some (r, k') ->
  chans_ok b G k' h /\ exists op, (i, op, r) ∈ h.
Proof.
  intros [Hl Hm Hb He] HG Hr. unfold recv in Hr.
  destruct (chans k !! c) as [[|r0 rs]|] eqn:Hc; try done. injection Hr as <- <-. split.
  - constructor; simpl; auto.
    + by rewrite length_insert.
    + intros c' i' buf HG' [(<- & <- & _)|[_ ?]]%list_lookup_insert_Some r' Hr'; [|eapply Hb; eauto].
      eapply Hb; eauto. by right.
    + intros c' i' Hord HG' Hi'. rewrite list_lookup_insert_ne; [|eapply He; eauto].
      intros <-. specialize (He c i' Hord HG' Hi'). congruence.
  - eapply (Hb c i); eauto. by left.
Qed.

Lemma remove_ok b G k h i : chans_ok b G k h -> chans_ok b G (removeNotifyChannel k i) h.
Proof.
  intros [? Hm ? ?]. constructor; simpl; auto. intros j c [_ ?]%lookup_delete_Some. by apply Hm.
Qed.

Lemma applyOp_chans k op :
  chans (applyOp k op).2 = chans k /\ notifyChans (applyOp k op).2 = notifyChans k /\
  kv_lastApplied (applyOp k op).2 = kv_lastApplied k.
Proof. unfold applyOp. repeat (case_match; simplify_eq/=); done. Qed.

Lemma applyOp_lastApplied k op v :
  applyOp (set_kv_lastApplied k v) op =
  ((applyOp k op).1, set_kv_lastApplied (applyOp k op).2 v).
Proof.
  unfold applyOp, requestDuplicate, cachedReply. simpl.
  destruct (bool_decide (OpType op <> OpGet)); simpl; repeat (case_match; simplify_eq/=); done.
Qed.

Lemma getNotify_lastApplied k i v :
  getNotifyChannel (set_kv_lastApplied k v) i =
  ((getNotifyChannel k i).1, set_kv_lastApplied (getNotifyChannel k i).2 v).
Proof. unfold getNotifyChannel. simpl. by case_match. Qed.

(** The send of [applyTask] finds an empty buffer when the messages come in
    order. *)
Lemma notify_ok b G k h i r op :
  chans_ok b G k h -> kv_lastApplied k < i -> (i, op, r) ∈ h ->
  exists c k1, getNotifyChannel (set_kv_lastApplied k i) i = (c, k1) /\
    ((send k1 c r = None /\ b = false) \/
     exists k2 G', send k1 c r = Some k2 /\ (G' = G \/ G' = G ++ [i]) /\ chans_ok b G' k2 h).
Proof.
  intros Hok Hlt Hop. rewrite getNotify_lastApplied.
  destruct (getNotifyChannel k i) as [c k'] eqn:Hg. simpl. exists c, (set_kv_lastApplied k' i). split; [done|].
  destruct (getNotify_frame _ _ _ _ Hg) as (_ & Hla & _).
  destruct (getNotify_ok _ _ _ _ _ _ _ Hok Hg) as (G' & HG & Hok' & Hc).
  assert (chans_ok b G' (set_kv_lastApplied k' i) h) as Hok2
    by (eapply chans_ok_frame; [exact Hok'|done|done|simpl; lia]).
  destruct (send (set_kv_lastApplied k' i) c r) as [k2|] eqn:Hs.
  - right. exists k2, G'. split_and!; try done.
    eapply send_ok; [exact Hok2|exact Hc|simpl; lia|exact Hs|exact Hop].
  - left. split; [done|]. destruct b; [|done]. unfold send in Hs. simpl in Hs.
    rewrite (co_empty _ _ _ _ Hok' c i) // in Hs. lia.
Qed.

Lemma applyMessage_ok b G k h rf m :
  chans_ok b G k h ->
  (b = true -> am_CommandValid m = false -> SnapshotValid m = true -> kv_lastApplied k <= SnapshotIndex m) ->
  match applyMessage k rf m with
  | Ret (Some (k', rf')) =>
      exists G', (G' = G \/ G' = G ++ [CommandIndex m]) /\ chans_ok b G' k' (h ++ executed m k)
  | Ret None => b = false
  | Panic _ => True
  end.
Proof.
  intros Hok Hsnap. unfold applyMessage, executed.
  destruct (am_CommandValid m) eqn:Hc; simpl.
  - case_bool_decide as Hold; [exists G; split; [by left|by apply chans_ok_history]|].
    destruct (am_Command m) as [op|] eqn:Hop; [|done]. rewrite bool_decide_true; [lia|].
    rewrite applyOp_lastApplied. destruct (applyOp k op) as [r k1] eqn:Ha. simpl.
    destruct (applyOp_chans k op) as (Hch & Hn & Hla). rewrite Ha /= in Hch, Hn, Hla.
    set (h' := h ++ [(CommandIndex m, op, r)]).
    assert (chans_ok b G k1 h') as Hok1.
    { eapply chans_ok_frame; [apply chans_ok_history; exact Hok|done|done|lia]. }
    destruct (rs_GetState rf).2; simpl.
    + destruct (notify_ok b G k1 h' (CommandIndex m) r op) as (c & k2 & -> & [[-> ->]|(k3 & G' & -> & HG & Hok3)]);
        [done|lia|set_solver|done|].
      destruct (_ && _); [destruct (makeSnapshot _ _ _)|]; simpl; try done; by exists G'.
    + assert (chans_ok b G (set_kv_lastApplied k1 (CommandIndex m)) h') as Hok2.
      { eapply chans_ok_frame; [exact Hok1|done|done|simpl; lia]. }
      destruct (_ && _); [destruct (makeSnapshot _ _ _)|]; simpl; try done; exists G; by split; [left|].
  - assert (exists G', (G' = G \/ G' = G ++ [CommandIndex m]) /\
      chans_ok b G' k (h ++ match am_Command m with Some _ | None => [] end)) as Hid.
    { exists G. split; [by left|]. by apply chans_ok_history. }
    destruct (SnapshotValid m); [|done].
    destruct (restoreFromSnapshot k (am_Snapshot m)) as [k1|] eqn:Hr; [|done]. simpl.
    destruct Hid as (G' & HG & Hok'). exists G'. split; [done|].
    unfold restoreFromSnapshot in Hr. eapply chans_ok_frame; [exact Hok'|..]; simpl; [..|by intros; apply Hsnap];
      by repeat (case_match; simplify_eq/=).
Qed.

Lemma run_handler_ok b G s h x s' :
  sys_ok b G s -> run_handler s h x = Ret s' -> exists G', sys_ok b G' s'.
Proof.
  intros [Hk Hw] Hr. unfold run_handler in Hr.
  assert (forall x, (forall q i c, x <> HSelect q i c) -> waits_ok G (<[h := x]> (handlers s))) as Hset.
  { intros y Hy. apply waits_ok_set; [done|]. intros q i c ->. by destruct (Hy q i c). }
  destruct x as [[a|a]|q|q i|q i c|q i resp|q resp]; inv_ret; try by exists G.
  - exists G. split; [done|]. by apply Hset.
  - destruct (PutAppend_check (kv s) a); exists G; (split; [done|]); by apply Hset.
  - destruct (rs_Start (rf s) v) as [[[index t] []] rf'] eqn:Hst; inv_ret; exists G;
      (split; [done|]); by apply Hset.
  - destruct (getNotifyChannel (kv s) i) as [c k'] eqn:Hg. inv_ret.
    destruct (getNotify_ok _ _ _ _ _ _ _ Hk Hg) as (G' & HG & Hk' & Hc).
    exists G'. split; [done|]. simpl. apply waits_ok_set; [|by intros ? ? ? [= <- <- <-]].
    destruct HG as [->| ->]; [done|by apply waits_ok_grow].
  - exists G. split; [by apply remove_ok|]. by apply Hset.
Qed.

Lemma kv_step_ok b G s e s' :
  sys_ok b G s -> (b = true -> in_order e s) -> kv_step e s = Ret s' -> exists G', sys_ok b G' s'.
Proof.
  intros Hok He Hs. destruct e as [q|h|h|h|m|rf']; simpl in Hs.
  - inv_ret. exists G. destruct Hok as [Hk Hw]. split; [done|]. simpl.
    intros h q' i c [?|[_ Hx]]%lookup_app_Some; [eapply Hw; eauto|].
    apply list_lookup_singleton_Some in Hx as [_ Hx]. congruence.
  - destruct (handlers s !! h); [|by inv_ret; exists G]. eapply run_handler_ok; eauto.
  - destruct (handlers s !! h) as [[| | |q i c| |]|] eqn:Hh; try by (inv_ret; exists G).
    destruct (recv (kv s) c) as [[r k']|] eqn:Hr; inv_ret; [|by exists G].
    destruct Hok as [Hk Hw]. destruct (recv_ok _ _ _ _ _ _ _ _ Hk (Hw _ _ _ _ Hh) Hr) as [Hk' _].
    exists G. split; [done|]. by apply waits_ok_set.
  - destruct (handlers s !! h) as [[| | |q i c| |]|] eqn:Hh; inv_ret; try by exists G.
    exists G. destruct Hok. split; [done|]. by apply waits_ok_set.
  - destruct Hok as [Hk Hw]. pose proof (applyMessage_ok _ _ _ _ (rf s) m Hk He) as Hm.
    destruct (applyMessage (kv s) (rf s) m) as [[[k' rf']|]|]; inv_ret; try (by exists G).
    destruct Hm as (G' & HG & Hk'). exists G'. split; [done|].
    destruct HG as [->| ->]; [done|by apply waits_ok_grow].
  - inv_ret. by exists G.
Qed.

Lemma kv_start_ok b r s : kv_start r s -> exists G, sys_ok b G s.
Proof.
  intros (me & max & snap & k & Hst & ->). exists []. split; [|done]. unfold StartKVServer, restoreFromSnapshot in Hst.
  constructor; simpl; repeat (case_match; simplify_eq/=; inv_ret; simplify_eq/=); done.
Qed.

Lemma kv_reachable_ok s : kv_reachable s -> exists G, sys_ok false G s.
Proof.
  intros (r & s0 & Hst & Hrtc). apply (kv_start_ok false) in Hst. induction Hrtc as [|s1 s2 s3 (e & Hs) _ IH]; [done|].
  apply IH. destruct Hst as [G HG]. by eapply kv_step_ok; [exact HG| |exact Hs].
Qed.

Lemma kv_ordered_ok s : kv_ordered_reachable s -> exists G, sys_ok true G s.
Proof.
  intros (r & s0 & Hst & Hrtc). apply (kv_start_ok true) in Hst. induction Hrtc as [|s1 s2 s3 (e & He & Hs) _ IH]; [done|].
  apply IH. destruct Hst as [G HG]. by eapply kv_step_ok; [exact HG| |exact Hs].
Qed.
End replies.

(** ** Theorems *)

Section theorems.
Context {R : Type} `{!RaftService Op R} `{!GobStream kvgob}.

(** C13. A handler that waits for index [i] receives the result of executing
    the command at index [i], once that command was executed: whatever
    commands and snapshots the peer delivers, in whatever order, snapshots
    older than the state of the server included. *)
Theorem answer_is_result_at_index (s : Sys R) (h : nat) (q : Request) (i : Z) (c : nat)
    (r : OpReply) (kv' : KVServer) :
  kv_reachable s -> handlers s !! h = Some (HSelect q i c) -> recv (kv s) c = Some (r, kv') ->
  exists op, (i, op, r) ∈ history s.
Proof.
  intros [G [Hk Hw]]%kv_reachable_ok Hh Hr.
  by destruct (recv_ok _ _ _ _ _ _ _ _ Hk (Hw _ _ _ _ Hh) Hr) as [_ ?].
Qed.

(** When no snapshot is older than what was delivered, [applyTask] never blocks
    in [notifyCh <- opReply] while it holds the lock of the server: the
    channel of the index it executes has room. *)
Lemma apply_never_blocks (s : Sys R) (m : ApplyMsg Op) :
  kv_ordered_reachable s -> in_order (KMessage m) s -> applyMessage (kv s) (rf s) m <> Ret None.
Proof.
  intros [G [Hk _]]%kv_ordered_ok He Hn.
  pose proof (applyMessage_ok _ _ _ _ (rf s) m Hk (fun _ => He)) as Hm. by rewrite Hn in Hm.
Qed.
End theorems.

(** ** A write that is acknowledged and lost *)

Definition opX : Op := mkOp "x" "1" OpPut 1 0.
Definition opY : Op := mkOp "y" "2" OpPut 2 0.
Definition requestX : Request := RPutAppend (mkPutAppendArgs "x" "1" "Put" 1 0).

(** Peer 0 leads term 1. *)
Definition lead_term1 : list (Event Op) :=
  [EElectionTick 0 late late; EStartElection 0; EDeliver 0 early; EReply 0 early].

(** Peer 0 takes [opX] at index 1. *)
Definition take_x : list (Event Op) := lead_term1 ++ [EStart 0 (Some opX)].

(** Peer 1 wins term 2 without it, commits [opY] at index 1 and tells peer 0;
    peer 0 wins term 3 before it delivers index 1 to its service. *)
Definition replace_x : list (Event Op) :=
  [EElectionTick 1 late late; EStartElection 2; EDeliver 3 early; EReply 3 early;
   EStart 1 (Some opY); EReplicate 3; EDeliver 5 early; EReply 5 early;
   EReplicate 3; EApplyWait 0; EDeliver 6 early;
   EElectionTick 0 late late; EStartElection 4; EDeliver 9 early; EReply 9 early;
   EApplyCollect 0; EApplyDeliver 0].

Definition peer0 (es : list (Event Op)) : Raft Op :=
  default (Make 3 0 MakePersister) (nodes (after 3 es) !! 0%nat).

Definition sys0 : Sys (Raft Op) := mkSys fresh_server (peer0 lead_term1) [] [].

(** The service of peer 0 receives the request for [opX] and waits. *)
Definition wait_x : list (KVEvent (Raft Op)) := [KCall requestX; KRun 0; KRun 0; KRun 0].

Definition message_y : ApplyMsg Op := mkApplyMsg Op true (Some opY) 1 false [] 0 0.

Definition kv_after (es : list (KVEvent (Raft Op))) (s : Sys (Raft Op)) : Sys (Raft Op) :=
  match kv_run es s with Ret s' => s' | Panic _ => s end.

Definition holds_op (op : Op) (rf : Raft Op) : bool :=
  existsb (fun e => bool_decide (Command e = Some op)) (tailLog (log rf)).

Lemma kv_run_rtc {R} `{!RaftService Op R, !GobStream kvgob} es (s s' : Sys R) :
  kv_run es s = Ret s' -> rtc kv_step_rel s s'.
Proof.
  revert s. induction es as [|e es IH]; intros s H; simpl in H; inv_ret; [apply rtc_refl|].
  eapply rtc_l; [exists e; exact Hm|by apply IH].
Qed.

Lemma sys0_start : kv_start (peer0 lead_term1) sys0.
Proof. by exists 0, (-1), [], fresh_server. Qed.

Lemma wait_x_reachable : kv_reachable (kv_after wait_x sys0).
Proof.
  exists (peer0 lead_term1), sys0. split; [apply sys0_start|].
  apply (kv_run_rtc wait_x). vm_compute. reflexivity.
Qed.

(** C14. The handler does not compare the command executed at its index with its
    own.  In the run here the service of peer 0 answers [OK] to a [Put] that
    no peer holds: the command at that index was replaced by one of another
    leader, and peer 0 was elected again before it executed the index. *)
Theorem lost_write :
  exists (cl1 cl2 : Cluster Op) (s1 s2 : Sys (Raft Op)) (rf2 : Raft Op),
    reachable 3 cl1 /\ rtc step_rel cl1 cl2 /\ kv_reachable s1 /\
    nodes cl1 !! 0%nat = Some (rf s1) /\ nodes cl2 !! 0%nat = Some rf2 /\
    (0%nat, message_y) ∈ delivered cl2 /\
    kv_run [KRaft rf2; KMessage message_y; KReceive 0] s1 = Ret s2 /\
    handlers s2 !! 0%nat = Some (HCleanup requestX 1 (PutAppendResponse (mkPutAppendReply OK))) /\
    forallb (fun p => negb (holds_op opX p)) (nodes cl2) = true.
Proof.
  exists (after 3 take_x), (after 3 (take_x ++ replace_x)), (kv_after wait_x sys0).
  exists (kv_after [KRaft (peer0 (take_x ++ replace_x)); KMessage message_y; KReceive 0]
            (kv_after wait_x sys0)), (peer0 (take_x ++ replace_x)).
  split; [apply (run_reachable 3 take_x); vm_compute; reflexivity|].
  split; [apply (run_rtc replace_x); vm_compute; reflexivity|].
  split; [apply wait_x_reachable|].
  split; [vm_compute; reflexivity|]. split; [vm_compute; reflexivity|].
  split; [apply list_elem_of_In; vm_compute; auto|].
  split; [vm_compute; reflexivity|]. split; vm_compute; reflexivity.
Qed.

(** ** Witnesses *)

Lemma answer_is_result_at_index_witness :
  exists op, (1, op, mkOpReply "" OK) ∈ history
    (kv_after [KRaft (peer0 (take_x ++ replace_x)); KMessage message_y] (kv_after wait_x sys0)).
Proof.
  apply (answer_is_result_at_index _ 0 requestX 1 0 (mkOpReply "" OK)
    (match recv (kv (kv_after [KRaft (peer0 (take_x ++ replace_x)); KMessage message_y]
       (kv_after wait_x sys0))) 0 with Some (_, k) => k | None => fresh_server end)).
  - exists (peer0 lead_term1), sys0. split; [apply sys0_start|].
    apply (kv_run_rtc (wait_x ++ [KRaft (peer0 (take_x ++ replace_x)); KMessage message_y])).
    vm_compute. reflexivity.
  - vm_compute. reflexivity.
  - vm_compute. reflexivity.
Defined.

(** Two writes of a client, the second repeated in the log. *)
Definition short_log : list Op :=
  [mkOp "k" "a" OpPut 7 0; mkOp "k" "b" OpAppend 7 1; mkOp "k" "b" OpAppend 7 1].

Definition message_at (i : Z) (op : Op) : ApplyMsg Op := mkApplyMsg Op true (Some op) i false [] 0 0.

(** A replica that received the whole of [short_log]. *)
Lemma short_log_served :
  served (R:=Raft Op) short_log 3
    (kv (kv_after (imap (fun i op => KMessage (message_at (Z.of_nat i + 1) op)) short_log) sys0)).
Proof.
  pose (k1 := kv (kv_after [KMessage (message_at 1 (mkOp "k" "a" OpPut 7 0))] sys0)).
  pose (k2 := kv (kv_after (imap (fun i op => KMessage (message_at (Z.of_nat i + 1) op))
    (take 2 short_log)) sys0)).
  eapply (served_message short_log 2 3 k2 (peer0 lead_term1) (message_at 3 (mkOp "k" "b" OpAppend 7 1)));
    [| |vm_compute; reflexivity].
  - eapply (served_message short_log 1 2 k1 (peer0 lead_term1) (message_at 2 (mkOp "k" "b" OpAppend 7 1)));
      [| |vm_compute; reflexivity].
    + eapply (served_message short_log 0 1 fresh_server (peer0 lead_term1)
        (message_at 1 (mkOp "k" "a" OpPut 7 0))); [| |vm_compute; reflexivity].
      * by apply (served_start short_log 0 [] 0 (-1)); [simpl; lia|left|].
      * right. split_and!; [done..|simpl; lia].
    + right. split_and!; [done..|simpl; lia].
  - right. split_and!; [done..|simpl; lia].
Defined.

(** The append took effect once. *)
Lemma kv_exactly_once_witness :
  KV (stateMachine (kv (kv_after (imap (fun i op => KMessage (message_at (Z.of_nat i + 1) op))
    short_log) sys0))) = {[ "k"%string := "ab"%string ]}.
Proof.
  rewrite (proj1 (kv_exactly_once short_log 3 _ short_log_served)). vm_compute. reflexivity.
Defined.

(** A replica with [maxraftstate = 0] takes a snapshot with every command. *)
Definition eager_server : KVServer := mkKVServer 0 0 0 NewMemoryKVStateMachine 0 ∅ ∅ [].

Definition eager_result : KVServer * Raft Op :=
  match applyMessage eager_server (peer0 (take_x ++ replace_x)) message_y with
  | Ret (Some r) => r
  | _ => (eager_server, peer0 [])
  end.

Lemma kv_snapshots_prefix_witness :
  eager_result.2 = peer0 (take_x ++ replace_x) \/
  exists snap, snapshot_of [opY] 1 snap /\ CommandIndex message_y = Z.of_nat 1 /\
    rs_Snapshot (peer0 (take_x ++ replace_x)) (CommandIndex message_y) snap = Ret eager_result.2.
Proof.
  apply (kv_snapshots_prefix (R:=Raft Op) [opY] 0 1 eager_server eager_result.1).
  - by apply (served_start [opY] 0 [] 0 0); [simpl; lia|left|].
  - right. split_and!; [done..|simpl; lia].
  - reflexivity.
  - vm_compute. reflexivity.
Defined.
