(* ===== verification/KVCluster.v ===== *)
(** * KVCluster: the key/value service on a Raft cluster

    KVServer.v models one replica against the interface of its Raft peer, and
    RaftNet.v a cluster of peers without services.  Here they run together: every
    peer of the cluster has a replica with its handlers; the messages of a peer
    go through [applyCh] to [applyTask] of its replica, whose snapshots go back
    to the peer; a crash restarts both from the persister.

    [applyCh] has no buffer, and the applier of a peer sends a batch of messages
    one after the other: [rep_queue] holds the rest of the batch, and there is no
    next batch before it is empty. *)

From S2P Require Import Prelude LabGob RaftLog Persister RaftNode RaftService RaftNet RaftDelivery RaftSnapshots.
From S2P Require Import KVStore KVServer KVFacts.
Local Open Scope Z_scope.

Record Replica := mkReplica {
  rep_kv : KVServer;
  rep_handlers : list Handler;
  rep_history : list (Z * Op * OpReply);
  rep_queue : list (ApplyMsg Op);
}.

Record KVCluster := mkKVCluster { kc_net : Cluster Op; kc_replicas : list Replica }.

Inductive KCEvent :=
| KNet (e : Event Op)                       (* a step of the cluster; a crash takes the replica with it *)
| KTake (i : nat)                           (* [applyTask] of replica [i] handles the next message *)
| KServe (i : nat) (e : KVEvent (Raft Op)). (* a step of the handlers of replica [i] *)

Section cluster.
Context `{!GobStream (gobval Op)} `{!GobStream kvgob} (max : Z).
Implicit Types (s : KVCluster) (e : KCEvent) (rep : Replica).

Definition sys_of rep (rf : Raft Op) : Sys (Raft Op) := mkSys (rep_kv rep) rf (rep_handlers rep) (rep_history rep).

Definition put_replica s (i : nat) (rf : Raft Op) rep : KVCluster :=
  mkKVCluster (put_node (kc_net s) i rf) (<[i := rep]> (kc_replicas s)).

Definition with_replica s (i : nat) (f : Raft Op -> Replica -> outcome KVCluster) : outcome KVCluster :=
  match nodes (kc_net s) !! i, kc_replicas s !! i with
  | Some rf, Some rep => f rf rep
  | _, _ => Ret s
  end.

(** The applier sends when the last batch has been taken. *)
Definition deliver_batch s (i : nat) : outcome KVCluster :=
  with_replica s i (fun _ rep =>
    if bool_decide (rep_queue rep = []) then
      net ← step (EApplyDeliver i) (kc_net s);
      let rep := mkReplica (rep_kv rep) (rep_handlers rep) (rep_history rep) (new_messages (kc_net s) net) in
      Ret (mkKVCluster net (<[i := rep]> (kc_replicas s)))
    else Ret s).

(** [StartKVServer] makes the Raft peer and reads the snapshot of the
    persister. *)
Definition restart s (i : nat) : outcome KVCluster :=
  net ← step (ECrash i) (kc_net s);
  match nodes net !! i with
  | None => Ret s
  | Some rf =>
      kv ← StartKVServer (Z.of_nat i) max (ReadSnapshot (persister rf));
      Ret (mkKVCluster net (<[i := mkReplica kv [] [] []]> (kc_replicas s)))
  end.

Definition take_message s (i : nat) : outcome KVCluster :=
  with_replica s i (fun rf rep =>
    match rep_queue rep with
    | [] => Ret s
    | m :: ms =>
        r ← applyMessage (rep_kv rep) rf m;
        Ret (match r with
             | None => s
             | Some (kv', rf') => put_replica s i rf' (mkReplica kv' (rep_handlers rep) (rep_history rep ++ executed m (rep_kv rep)) ms)
             end)
    end).

Definition serve s (i : nat) (e : KVEvent (Raft Op)) : outcome KVCluster :=
  with_replica s i (fun rf rep =>
    y ← kv_step e (sys_of rep rf);
    Ret (put_replica s i (KVServer.rf y) (mkReplica (kv y) (handlers y) (history y) (rep_queue rep)))).

(** Messages and snapshots go only where the events above put them. *)
Definition kc_step e s : outcome KVCluster :=
  match e with
  | KNet (EApplyDeliver i) => deliver_batch s i
  | KNet (ECrash i) => restart s i
  | KNet (ESnapshot _ _ _) => Ret s
  | KNet e => net ← step e (kc_net s); Ret (mkKVCluster net (kc_replicas s))
  | KTake i => take_message s i
  | KServe _ (KMessage _) | KServe _ (KRaft _) => Ret s
  | KServe i e => serve s i e
  end.

Fixpoint kc_run (es : list KCEvent) s : outcome KVCluster :=
  match es with [] => Ret s | e :: es => s ← kc_step e s; kc_run es s end.

(** The replica that starts with an empty persister. *)
Definition fresh_replica (i : nat) : Replica :=
  mkReplica (mkKVServer (Z.of_nat i) 0 max NewMemoryKVStateMachine 0 ∅ ∅ []) [] [] [].

Definition kc_init (n : nat) : KVCluster := mkKVCluster (init n) (fresh_replica <$> seq 0 n).

(** As in RaftDelivery: no snapshot is installed while another one is between
    its delivery and the end of the applier's round. *)
Definition kc_orderly e s : bool :=
  match e with KNet (ESnapshot _ _ _) => true | KNet e => orderly e (kc_net s) [] | _ => true end.

Fixpoint kc_all_orderly (es : list KCEvent) s : bool :=
  match es with
  | [] => true
  | e :: es => kc_orderly e s && match kc_step e s with Ret s => kc_all_orderly es s | Panic _ => true end
  end.

(** ** Agreement *)

Section agreement.
Context (ops : list Op).

(** The command at its index is that of the log [ops]. *)
Definition agreed (m : ApplyMsg Op) : bool :=
  am_CommandValid m && bool_decide (1 <= CommandIndex m <= len ops) &&
  bool_decide (am_Command m = ops !! Z.to_nat (CommandIndex m - 1)).

Definition agrees (ds : list (nat * ApplyMsg Op)) : bool := forallb (fun d => SnapshotValid d.2 || agreed d.2) ds.

(** Snapshots of prefixes of the log. *)
Definition prefix_snapshot (j : Z) (snap : bytes) : Prop :=
  exists k : nat, j = Z.of_nat k /\ (k <= length ops)%nat /\ snapshot_of ops k snap.

Definition message_good (m : ApplyMsg Op) : Prop :=
  if SnapshotValid m then am_CommandValid m = false /\ 0 < SnapshotIndex m /\ prefix_snapshot (SnapshotIndex m) (am_Snapshot m)
  else agreed m = true.

(** The replica has executed a prefix, and what is on its way brings it to
    position [p]. *)
Definition replica_ok (p : Z) rep : Prop :=
  exists k : nat, at_prefix ops k (rep_kv rep) /\ receive_all (Some (Z.of_nat k)) (rep_queue rep) = Some p /\
    Forall message_good (rep_queue rep) /\ Forall (fun m => SnapshotValid m = false) (tail (rep_queue rep)).

(** [P] are the positions of RaftDelivery. *)
Record kc_inv (n : nat) s (P : list (option Z)) : Prop := {
  kci_reach : reachable n (kc_net s);
  kci_snaps : snaps_ok prefix_snapshot (kc_net s);
  kci_length : length (kc_replicas s) = length (nodes (kc_net s));
  kci_positioned : all_positioned (kc_net s) P;
  kci_replicas i rep : kc_replicas s !! i = Some rep -> exists p, P !! i = Some (Some p) /\ replica_ok p rep;
}.

(** ** Replicas *)

(** A message that comes next. *)
Lemma next_message k kv m k1 : at_prefix ops k kv -> message_good m -> receive1 (Z.of_nat k) m = Some k1 ->
  exists k' : nat, k1 = Z.of_nat k' /\ message_ok ops k kv m k' /\
    (SnapshotValid m = false -> am_CommandValid m = true /\ CommandIndex m = Z.of_nat k' /\ k' = S k).
Proof.
  intros Hp Hg Hr. unfold receive1 in Hr. unfold message_good in Hg. unfold message_ok. destruct (SnapshotValid m) eqn:Hs.
  - injection Hr as <-. destruct Hg as (Hc & Hpos & k' & Ei & Hl & Hsn). exists k'. rewrite Hc. split_and!; [done|done|done| |done].
    destruct Hsn as [[-> _]|(kv0 & H1 & H2)]; [lia|]. by exists kv0.
  - case_bool_decide as Ei; [|done]. injection Hr as <-. unfold agreed in Hg.
    apply andb_true_iff in Hg as [[Hc Hl]%andb_true_iff Ho]. apply bool_decide_eq_true in Hl, Ho.
    exists (S k). rewrite Hc. unfold len in Hl. rewrite Ei in Ho, Hl.
    split_and!; [lia| |intros _; split_and!; [done|lia|done]]. right. split_and!; [lia|done| |lia].
    rewrite Ho. f_equal. lia.
Qed.

Lemma receive_all_none (ms : list (ApplyMsg Op)) : receive_all None ms = None.
Proof. by induction ms. Qed.

Lemma receive_all_cons p m (ms : list (ApplyMsg Op)) q : receive_all (Some p) (m :: ms) = Some q ->
  exists p1, receive1 p m = Some p1 /\ receive_all (Some p1) ms = Some q.
Proof.
  unfold receive_all. cbn [foldl mbind option_bind]. destruct (receive1 p m) as [p1|]; [by exists p1|].
  intros H. pose proof (receive_all_none ms) as Hn. unfold receive_all in Hn. congruence.
Qed.

(** Commands bring a service forward. *)
Lemma receive_all_forward p (ms : list (ApplyMsg Op)) q :
  Forall (fun m => SnapshotValid m = false) ms -> receive_all (Some p) ms = Some q -> p <= q.
Proof.
  intros Hf. revert p. induction Hf as [|m ms Hm _ IH]; intros p Hr; [injection Hr as <-; lia|].
  apply receive_all_cons in Hr as (p1 & Hr1 & Hr). unfold receive1 in Hr1. rewrite Hm in Hr1. case_bool_decide; [|done].
  injection Hr1 as <-. apply IH in Hr. lia.
Qed.

(** A message changes the peer by a snapshot at most. *)
Lemma applyMessage_raft kv0 (rf : Raft Op) m kv' rf' : applyMessage kv0 rf m = Ret (Some (kv', rf')) ->
  rf' = rf \/ (am_CommandValid m = true /\ Snapshot rf (CommandIndex m) (snapshotBytes kv') = Ret rf').
Proof.
  intros H. destruct (am_CommandValid m) eqn:Hc.
  - destruct (decide (CommandIndex m <= kv_lastApplied kv0)) as [Hle|Hgt].
    { left. unfold applyMessage in H. rewrite Hc bool_decide_true // in H. by inv_ret. }
    destruct (am_Command m) as [op|] eqn:Ho; [|unfold applyMessage in H; by rewrite Hc bool_decide_false // Ho in H].
    destruct (applyMessage_command kv0 rf m kv' rf' op Hc ltac:(lia) Ho H) as (_ & _ & [->|Hsn]); auto.
  - left. unfold applyMessage in H. rewrite Hc in H. destruct (SnapshotValid m); by inv_ret.
Qed.

(** The handlers change the peer by a command at most, and not the data. *)
Lemma kv_step_serves (ev : KVEvent (Raft Op)) y y' : kv_step ev y = Ret y' ->
  match ev with KMessage _ | KRaft _ => False | _ => True end ->
  (KVServer.rf y' = KVServer.rf y \/ exists op r, Start (KVServer.rf y) (Some op) = (r, KVServer.rf y')) /\
  kv_state (kv y') = kv_state (kv y) /\ kv_lastApplied (kv y') = kv_lastApplied (kv y).
Proof.
  intros H He. destruct ev; try done; simpl in H.
  - inv_ret. auto.
  - destruct (handlers y !! h) as [x|]; [|inv_ret; auto]. destruct x as [[args|args]|q|q index| |q index resp|]; simpl in H; try (inv_ret; by auto).
    + inv_ret. destruct (PutAppend_check _ _); auto.
    + inv_ret. destruct (Start (KVServer.rf y) (Some v)) as [[[index term] []] rf'] eqn:Hst; inv_ret; cbn; split_and!; eauto.
    + destruct (getNotifyChannel (kv y) index) as [c kv'] eqn:Hg. inv_ret. apply getNotify_frame in Hg as (? & ? & _). auto.
  - destruct (handlers y !! h) as [x|]; [|inv_ret; auto]. destruct x; try (inv_ret; by auto).
    destruct (recv (kv y) c) as [[r kv']|] eqn:Hr; inv_ret; [|auto]. apply recv_frame in Hr as [? ?]. auto.
  - destruct (handlers y !! h) as [x|]; [|inv_ret; auto]. destruct x; inv_ret; auto.
Qed.

(** ** The cluster *)

Lemma put_node_same (net : Cluster Op) i rf : nodes net !! i = Some rf -> put_node net i rf = net.
Proof. intros H. destruct net. unfold put_node, set_nodes. cbn in *. by rewrite list_insert_id. Qed.

Lemma with_replica_ret s i f s' : with_replica s i f = Ret s' ->
  s' = s \/ exists rf rep, nodes (kc_net s) !! i = Some rf /\ kc_replicas s !! i = Some rep /\ f rf rep = Ret s'.
Proof. unfold with_replica. intros H. repeat case_match; inv_ret; eauto 6. Qed.

(** A step of the cluster that leaves the services where they are. *)
Lemma inv_net n s P (e : Event Op) net' : kc_inv n s P -> step e (kc_net s) = Ret net' -> orderly e (kc_net s) P = true ->
  event_ok prefix_snapshot e -> move e (kc_net s) net' P = P -> kc_inv n (mkKVCluster net' (kc_replicas s)) P.
Proof.
  intros [Hr Hs Hl Hp Hk] E Ho He Hmv. destruct (step_moves e _ _ E) as [Hlen _]. constructor; cbn.
  - apply rtc_r with (kc_net s); [done|by exists e].
  - by apply (step_snaps prefix_snapshot n e (kc_net s)).
  - congruence.
  - rewrite -Hmv. by apply (step_positioned n e (kc_net s)).
  - done.
Qed.

Lemma inv_replica n s P i p rep : kc_inv n s P -> P !! i = Some (Some p) -> replica_ok p rep ->
  kc_inv n (mkKVCluster (kc_net s) (<[i := rep]> (kc_replicas s))) P.
Proof.
  intros [Hr Hs Hl Hp Hk] HP Hok. constructor; cbn; [done|done|by rewrite length_insert|done|].
  intros j rep' [(<- & <- & _)|[_ Hj]]%list_lookup_insert_Some; eauto.
Qed.

(** The peer may take a snapshot or a command, and the replica moves along the
    messages on their way. *)
Lemma inv_put n s P i p rf rf' rep' (e : Event Op) : kc_inv n s P -> nodes (kc_net s) !! i = Some rf -> P !! i = Some (Some p) ->
  (rf' = rf \/ step e (kc_net s) = Ret (put_node (kc_net s) i rf')) -> orderly e (kc_net s) P = true ->
  event_ok prefix_snapshot e -> (forall net', move e (kc_net s) net' P = P) -> replica_ok p rep' -> kc_inv n (put_replica s i rf' rep') P.
Proof.
  intros HI Hi HP Hrf Ho He Hmv Hok. unfold put_replica.
  apply (inv_replica n (mkKVCluster (put_node (kc_net s) i rf') (kc_replicas s)) P i p); [|done|done].
  destruct Hrf as [->|E]; [|by apply (inv_net n s P e)]. rewrite put_node_same //. by destruct s.
Qed.

Lemma take_inv n s P i s' : kc_inv n s P -> take_message s i = Ret s' -> kc_inv n s' P.
Proof.
  intros HI [->|(rf & rep & Hi & Hrep & H)]%with_replica_ret; [done|]. destruct (rep_queue rep) as [|m ms] eqn:Hq; [by inv_ret|].
  inv_ret. destruct v as [[kv' rf']|]; [|done].
  destruct (kci_replicas _ _ _ HI _ _ Hrep) as (p & HP & k & Hk & Hr & Hg & Hc). rewrite Hq in Hr, Hg, Hc. simpl in Hc.
  apply Forall_cons in Hg as [Hgm Hg]. apply receive_all_cons in Hr as (k1 & Hr1 & Hr).
  destruct (next_message _ _ _ _ Hk Hgm Hr1) as (k' & -> & Hok & Hcmd).
  pose proof (at_prefix_message _ _ _ _ _ _ _ _ Hk Hok Hm) as Hk'. pose proof (receive_all_forward _ _ _ Hc Hr) as Hle.
  assert (replica_ok p (mkReplica kv' (rep_handlers rep) (rep_history rep ++ executed m (rep_kv rep)) ms)) as Hrok.
  { exists k'. split_and!; [done|done|done|]. cbn. destruct ms; [done|]. by apply Forall_cons in Hc as [_ Hc]. }
  destruct (applyMessage_raft _ _ _ _ _ Hm) as [->|[Hv Hsn]].
  - by apply (inv_put n s P i p rf rf _ (EApplyWait i)); try done; left.
  - assert (SnapshotValid m = false) as Hsv.
    { destruct (SnapshotValid m) eqn:E; [|done]. unfold message_good in Hgm. rewrite E in Hgm. destruct Hgm. congruence. }
    destruct (Hcmd Hsv) as (_ & Hidx & _).
    apply (inv_put n s P i p rf rf' _ (ESnapshot i (CommandIndex m) (snapshotBytes kv'))); try done.
    + right. cbn. unfold with_node. rewrite Hi Hsn. done.
    + cbn. rewrite HP. apply bool_decide_eq_true. lia.
    + exists k'. split_and!; [done|by destruct Hk'|]. right. exists kv'. split; [|done]. by destruct Hk'.
Qed.

Lemma serve_inv n s P i ev s' : kc_inv n s P -> match ev with KMessage _ | KRaft _ => False | _ => True end ->
  serve s i ev = Ret s' -> kc_inv n s' P.
Proof.
  intros HI He [->|(rf & rep & Hi & Hrep & H)]%with_replica_ret; [done|]. inv_ret.
  destruct (kv_step_serves _ _ _ Hm He) as (Hrf & Hst & Hla). cbn in Hrf, Hst, Hla.
  destruct (kci_replicas _ _ _ HI _ _ Hrep) as (p & HP & k & Hk & Hq).
  assert (replica_ok p (mkReplica (kv v) (handlers v) (history v) (rep_queue rep))) as Hrok.
  { exists k. split; [|done]. by apply (at_prefix_frame ops k (rep_kv rep)). }
  destruct Hrf as [->|(op & r & Hrf)].
  - by apply (inv_put n s P i p rf rf _ (EApplyWait i)); try done; left.
  - apply (inv_put n s P i p rf (KVServer.rf v) _ (EStart i (Some op))); try done. right. cbn. unfold with_node. by rewrite Hi Hrf.
Qed.

(** A step of the cluster that moves the service of peer [i] only. *)
Lemma inv_move n s P (e : Event Op) net' i rep' : kc_inv n s P -> step e (kc_net s) = Ret net' -> orderly e (kc_net s) P = true ->
  event_ok prefix_snapshot e -> (forall j, j <> i -> move e (kc_net s) net' P !! j = P !! j) ->
  (forall p, move e (kc_net s) net' P !! i = Some (Some p) -> replica_ok p rep') ->
  kc_inv n (mkKVCluster net' (<[i := rep']> (kc_replicas s))) (move e (kc_net s) net' P).
Proof.
  intros [Hr Hs Hl Hp Hk] E Ho He Hj Hi. destruct (step_moves e _ _ E) as [Hlen _].
  pose proof (step_positioned n e _ _ P Hr Ho E Hp) as Hp'. constructor; cbn.
  - apply rtc_r with (kc_net s); [done|by exists e].
  - by apply (step_snaps prefix_snapshot n e (kc_net s)).
  - rewrite length_insert. congruence.
  - done.
  - intros j rep [(<- & <- & Hlt)|[Hne Hrep]]%list_lookup_insert_Some.
    + destruct (lookup_lt_is_Some_2 (nodes net') i) as [rf Hrf]; [lia|]. destruct Hp' as [_ Hp']. destruct (Hp' i rf Hrf) as (p & HP & _). eauto.
    + rewrite (Hj j); [by apply not_eq_sym|]. by apply Hk.
Qed.

Lemma agrees_elem ds i m : agrees ds = true -> (i, m) ∈ ds -> SnapshotValid m = false -> agreed m = true.
Proof. unfold agrees. rewrite forallb_forall. intros H Hd Hm. apply list_elem_of_In, H in Hd. cbn in Hd. by rewrite Hm in Hd. Qed.

Lemma kc_deliver_inv n s P i s' : kc_inv n s P -> deliver_batch s i = Ret s' -> agrees (delivered (kc_net s')) = true -> exists P', kc_inv n s' P'.
Proof.
  intros HI [->|(rf & rep & Hi & Hrep & H)]%with_replica_ret Ha; [by exists P|]. case_bool_decide as Hq; [|inv_ret; by exists P].
  apply outcome_bind_ret in H as (v & Hm & H). injection H as <-. exists (move (EApplyDeliver i) (kc_net s) v P). destruct (kci_replicas _ _ _ HI _ _ Hrep) as (p & HP & k & Hk & Hr & _).
  rewrite Hq in Hr. injection Hr as <-.
  apply inv_move; [done|done|done|done| |]; cbn [move]; [by intros j Hj; rewrite list_lookup_alter_ne; [apply not_eq_sym|]|].
  intros p'. rewrite list_lookup_alter_eq HP. intros [= Hp'].
  assert (snaps_ok prefix_snapshot (kc_net s)) as Hs by apply HI. destruct (kci_positioned _ _ _ HI) as [_ Hpos].
  destruct (Hpos i rf Hi) as (q & HP' & Hq'). simplify_eq.
  cbn in Hm. unfold with_node in Hm. rewrite Hi in Hm. destruct (applyDeliver rf) as [ms rf'] eqn:Hd. inv_ret.
  assert (new_messages (kc_net s) (set_delivered (put_node (kc_net s) i rf') (delivered (kc_net s) ++ (pair i <$> ms))) = ms) as Enew.
  { unfold new_messages. cbn [delivered set_delivered]. rewrite drop_app_length -list_fmap_compose. apply list_fmap_id. }
  rewrite Enew in Hp' |- *. exists k. cbn. split_and!; [done|done| |].
  - destruct (applyDeliver_snap _ _ _ _ _ Hd (so_nodes _ _ Hs _ _ Hi) Hq') as [(m & -> & H1 & H2)|Hf].
    + constructor; [|done]. unfold message_good. by rewrite H1.
    + apply Forall_forall. intros m Hm. rewrite Forall_forall in Hf. specialize (Hf m Hm). unfold message_good. rewrite Hf.
      apply (agrees_elem _ i m Ha); [|done]. cbn. apply elem_of_app. right. apply list_elem_of_fmap. by exists m.
  - destruct (applyDeliver_snap _ _ _ _ _ Hd (so_nodes _ _ Hs _ _ Hi) Hq') as [(m & -> & _)|Hf]; [done|].
    destruct ms; [done|]. by apply Forall_cons in Hf as [_ Hf].
Qed.

(** The snapshot of a persister restores the prefix it covers. *)
Lemma restart_prefix (rf : Raft Op) me : node_snap prefix_snapshot rf ->
  exists kv k, StartKVServer me max (ReadSnapshot (persister rf)) = Ret kv /\ at_prefix ops k kv /\ Z.of_nat k = snapLastIdx (log rf).
Proof.
  intros [Hsv (k & Hk & Hl & Hsn) _ _]. rewrite Hsv.
  assert (exists kv, StartKVServer me max (snapshot (log rf)) = Ret kv) as [kv Hst].
  { unfold StartKVServer. destruct Hsn as [[_ ->]|(kv0 & _ & ->)]; [by eexists|].
    match goal with |- context [restoreFromSnapshot ?kv1 _] => destruct (restore_snapshot kv1 kv0) as (kv & Hr & _) end. by exists kv. }
  exists kv, k. split_and!; [done| |done]. apply (served_at_prefix (R:=Raft Op)). by apply (served_start ops k (snapshot (log rf)) me max).
Qed.

Lemma kc_restart_inv n s P i s' : kc_inv n s P -> restart s i = Ret s' -> exists P', kc_inv n s' P'.
Proof.
  intros HI H. unfold restart in H. apply outcome_bind_ret in H as (net' & E & H).
  destruct (nodes net' !! i) as [rf|] eqn:Hi; [|inv_ret; by exists P]. inv_ret.
  exists (move (ECrash i) (kc_net s) net' P). apply inv_move; [done|done|done|done| |]; cbn [move].
  - intros j Hj. by rewrite list_lookup_insert_ne; [apply not_eq_sym|].
  - intros p [(_ & Hp & _)|[]]%list_lookup_insert_Some; [|done]. unfold restart_position in Hp. rewrite Hi in Hp. injection Hp as <-.
    assert (snaps_ok prefix_snapshot net') as Hs.
    { apply (step_snaps prefix_snapshot n (ECrash i) (kc_net s)); [apply HI|done|done|apply HI]. }
    destruct (restart_prefix rf (Z.of_nat i) (so_nodes _ _ Hs _ _ Hi)) as (kv & k & Hst & Hk & Hidx).
    exists k. cbn. rewrite Hidx. split_and!; [|done|done|done]. congruence.
Qed.

Lemma kc_step_net n (e : Event Op) s P s' : kc_inv n s P -> orderly e (kc_net s) [] = true ->
  match e with EApplyDeliver _ | ECrash _ | ESnapshot _ _ _ => False | _ => True end ->
  kc_step (KNet e) s = Ret s' -> kc_inv n s' P.
Proof.
  intros HI Ho He H. assert ((net ← step e (kc_net s); Ret (mkKVCluster net (kc_replicas s))) = Ret s') as H' by by destruct e.
  apply outcome_bind_ret in H' as (net' & E & H'). injection H' as <-. apply (inv_net n s P e net'); by destruct e.
Qed.

Lemma kc_step_inv n e s P s' : kc_inv n s P -> kc_orderly e s = true -> kc_step e s = Ret s' ->
  agrees (delivered (kc_net s')) = true -> exists P', kc_inv n s' P'.
Proof.
  intros HI Ho H Ha. destruct e as [e|i|i ev].
  - destruct e; try (exists P; exact (kc_step_net n _ s P s' HI Ho I H));
      [injection H as <-; by exists P|exact (kc_deliver_inv n s P i s' HI H Ha)|exact (kc_restart_inv n s P i s' HI H)].
  - exists P. exact (take_inv n s P i s' HI H).
  - exists P. assert (s' = s \/ (match ev with KMessage _ | KRaft _ => False | _ => True end /\ serve s i ev = Ret s')) as [->|[He E]];
      [|done|exact (serve_inv n s P i ev s' HI He E)].
    destruct ev; try (by right); left; by injection H as <-.
Qed.

(** ** Runs *)

Lemma step_delivered (e : Event Op) net net' : step e net = Ret net' -> delivered net `prefix_of` delivered net'.
Proof.
  intros H. destruct e; simpl in H; unfold deliver, receive, with_node in H; simpl in H.
  all: repeat (case_match || inv_ret); try done; cbn; by apply prefix_app_r.
Qed.

Lemma kc_step_delivered e s s' : kc_step e s = Ret s' -> delivered (kc_net s) `prefix_of` delivered (kc_net s').
Proof.
  intros H. destruct e as [e|i|i ev].
  - assert (s' = s \/ step e (kc_net s) = Ret (kc_net s')) as [->|E]; [|done|by apply (step_delivered e)].
    destruct e; unfold kc_step, deliver_batch, restart, with_replica in H; repeat (case_match || inv_ret); auto.
  - apply with_replica_ret in H as [->|(rf & rep & _ & _ & H)]; [done|]. repeat (case_match || inv_ret); done.
  - assert (s' = s \/ serve s i ev = Ret s') as [->|E]; [|done|].
    { destruct ev; try (by right); left; by injection H as <-. }
    apply with_replica_ret in E as [->|(rf & rep & _ & _ & E)]; [done|]. by inv_ret.
Qed.

Lemma kc_run_delivered es s s' : kc_run es s = Ret s' -> delivered (kc_net s) `prefix_of` delivered (kc_net s').
Proof.
  revert s. induction es as [|e es IH]; intros s H; cbn in H; [by inv_ret|].
  apply outcome_bind_ret in H as (s1 & H1 & H2). transitivity (delivered (kc_net s1)); [by apply (kc_step_delivered e)|by apply IH].
Qed.

Lemma agrees_prefix ds ds' : ds `prefix_of` ds' -> agrees ds' = true -> agrees ds = true.
Proof. intros [ds2 ->]. unfold agrees. rewrite forallb_app. by intros [H _]%andb_true_iff. Qed.

Lemma kc_run_inv n es s P s' : kc_inv n s P -> kc_all_orderly es s = true -> kc_run es s = Ret s' ->
  agrees (delivered (kc_net s')) = true -> exists P', kc_inv n s' P'.
Proof.
  revert s P. induction es as [|e es IH]; intros s P HI Ho H Ha; cbn in H; [inv_ret; by exists P|].
  apply outcome_bind_ret in H as (s1 & H1 & H2). cbn in Ho. rewrite H1 in Ho. apply andb_true_iff in Ho as [Ho Hos].
  destruct (kc_step_inv n e s P s1 HI Ho H1) as [P1 HI1]; [|by apply (IH s1 P1)].
  apply (agrees_prefix _ (delivered (kc_net s'))); [by apply (kc_run_delivered es)|done].
Qed.

Lemma kc_init_inv n : kc_inv n (kc_init n) (replicate n (Some 0)).
Proof.
  constructor; cbn.
  - apply rtc_refl.
  - apply init_snaps. exists 0%nat. split_and!; [done|lia|by left].
  - by rewrite !length_fmap.
  - apply init_positioned.
  - intros i rep (j & -> & [-> Hj]%lookup_seq)%list_lookup_fmap_Some. exists 0. split; [apply lookup_replicate; split; [done|lia]|].
    exists 0%nat. split_and!; [|done|constructor|constructor]. constructor; [done|done|lia].
Qed.

End agreement.

(** ** The theorem *)

(** The applier of the peer is not delivering, and no snapshot waits. *)
Definition idle (rf : Raft Op) : bool :=
  negb (snapPending rf) && match applier rf with ApLock | ApWait | ApWoken => true | _ => false end.

Lemma replica_at n ops s P i rep rf : kc_inv ops n s P -> kc_replicas s !! i = Some rep -> nodes (kc_net s) !! i = Some rf ->
  exists k : nat, at_prefix ops k (rep_kv rep) /\
    (idle rf = true -> rep_queue rep = [] -> Z.of_nat k = Z.max (lastApplied rf) (snapLastIdx (log rf))).
Proof.
  intros HI Hrep Hrf. destruct (kci_replicas _ _ _ _ HI _ _ Hrep) as (p & HP & k & Hk & Hr & _). exists k. split; [done|].
  intros [Hpn Hap]%andb_true_iff Hq. rewrite Hq in Hr. injection Hr as <-. apply negb_true_iff in Hpn.
  destruct (kci_positioned _ _ _ _ HI) as [_ Hpos]. destruct (Hpos i rf Hrf) as (q & HP' & _ & _ & Hq'). simplify_eq.
  destruct (applier rf); try done; auto.
Qed.

(** C11. The replicated service: in every run of a cluster with its replicas and
    their handlers, with lost and reordered messages, crashes, restarts and
    snapshots, in which no snapshot is installed on a peer while another one is
    between its delivery and the end of the applier's round, if the commands the
    peers deliver agree with one log, then every
    replica's map is the replay of a prefix of that log without repeated writes.
    When the peer is idle and its messages are taken, the prefix is what the
    peer has applied, so replicas at the same position have the same map; and what a
    replica would restart from restores the prefix that its peer's log
    has compacted. *)
Theorem kv_replicas_replay_log (n : nat) (ops : list Op) (es : list KCEvent) (s : KVCluster) :
  kc_run es (kc_init n) = Ret s -> kc_all_orderly es (kc_init n) = true -> agrees ops (delivered (kc_net s)) = true ->
  length (kc_replicas s) = length (nodes (kc_net s)) /\
  forall i rep rf, kc_replicas s !! i = Some rep -> nodes (kc_net s) !! i = Some rf ->
    (exists k : nat, (k <= length ops)%nat /\
      stateMachine (rep_kv rep) = replay NewMemoryKVStateMachine (executed_ops [] (take k ops)) /\
      (idle rf = true -> rep_queue rep = [] -> Z.of_nat k = Z.max (lastApplied rf) (snapLastIdx (log rf)))) /\
    exists kv, StartKVServer (Z.of_nat i) max (ReadSnapshot (persister rf)) = Ret kv /\
      stateMachine kv = replay NewMemoryKVStateMachine (executed_ops [] (take (Z.to_nat (snapLastIdx (log rf))) ops)).
Proof.
  intros E Ho Ha. destruct (kc_run_inv ops n es _ _ s (kc_init_inv ops n) Ho E Ha) as [P HI].
  split; [apply HI|]. intros i rep rf Hrep Hrf. split.
  - destruct (replica_at _ _ _ _ _ _ _ HI Hrep Hrf) as (k & [Hst _ Hb] & Hidle). exists k. split_and!; [done| |done].
    rewrite -state_of_replay -Hst. done.
  - destruct (restart_prefix ops rf (Z.of_nat i) (so_nodes _ _ (kci_snaps _ _ _ _ HI) _ _ Hrf)) as (kv & k & Hst & [Hkv _ _] & Hk).
    exists kv. split; [done|]. rewrite -state_of_replay -Hk Nat2Z.id -Hkv. done.
Qed.
End cluster.

(** ** Witness *)

Definition put_a : Request := RPutAppend (mkPutAppendArgs "k" "a" "Put" 7 0).
Definition op_a : Op := mkOp "k" "a" OpPut 7 0.
Definition soon : Clock := mkClock 0 0.
Definition overdue : Clock := mkClock (1000 * Millisecond) 0.

(** Peer 0 leads and handles a put; its replica takes a snapshot, which the
    leader sends to peer 2, whose replica restores it; then server 0 crashes
    and restarts. *)
Definition put_and_restart : list KCEvent :=
  (KNet <$> [EElectionTick 0 overdue overdue; EStartElection 0; EDeliver 0 soon; EReply 0 soon]) ++
  [KServe 0 (KCall put_a); KServe 0 (KRun 0); KServe 0 (KRun 0); KServe 0 (KRun 0)] ++
  (KNet <$> [EReplicate 1; EApplyWait 0; EDeliver 2 soon; EReply 2 soon; EApplyCollect 0; EApplyDeliver 0]) ++
  [KTake 0; KNet (EApplyFinish 0); KServe 0 (KReceive 0); KServe 0 (KRun 0)] ++
  (KNet <$> [EReplicate 1; EApplyWait 2; EDeliver 5 soon; EApplyCollect 2; EApplyDeliver 2]) ++
  [KTake 2; KNet (EApplyFinish 2); KNet (ECrash 0)].

(** The hypotheses of the theorem, as one test. *)
Definition good_run {H1 : GobStream (gobval Op)} {H2 : GobStream kvgob} (max : Z) (n : nat) (ops : list Op) (es : list KCEvent) : bool :=
  kc_all_orderly max es (kc_init max n) &&
  match kc_run max es (kc_init max n) with Ret s => agrees ops (delivered (kc_net s)) | Panic _ => false end.

Lemma good_run_ok {H1 : GobStream (gobval Op)} {H2 : GobStream kvgob} max n ops es : good_run max n ops es = true ->
  exists s, kc_run max es (kc_init max n) = Ret s /\ kc_all_orderly max es (kc_init max n) = true /\ agrees ops (delivered (kc_net s)) = true.
Proof.
  unfold good_run. intros [Ho Ha]%andb_true_iff. destruct (kc_run max es (kc_init max n)) as [s|]; [by exists s|done].
Qed.

(** The maps of the replicas at the end. *)
Definition maps_of (o : outcome KVCluster) : list (gmap string string) :=
  match o with Ret s => (fun rep => KV (stateMachine (rep_kv rep))) <$> kc_replicas s | Panic _ => [] end.

Lemma kv_replicas_replay_log_witness :
  maps_of (kc_run 0 put_and_restart (kc_init 0 3)) = [{["k"%string := "a"%string]}; ∅; {["k"%string := "a"%string]}] /\
  exists s, kc_run 0 put_and_restart (kc_init 0 3) = Ret s /\ length (kc_replicas s) = length (nodes (kc_net s)) /\
    forall i rep rf, kc_replicas s !! i = Some rep -> nodes (kc_net s) !! i = Some rf ->
      exists kv, StartKVServer (Z.of_nat i) 0 (ReadSnapshot (persister rf)) = Ret kv.
Proof.
  split; [vm_compute; reflexivity|].
  destruct (good_run_ok 0 3 [op_a] put_and_restart) as (s & E & Ho & Ha); [vm_compute; reflexivity|].
  destruct (kv_replicas_replay_log 0 3 [op_a] put_and_restart s E Ho Ha) as [Hl Hr].
  exists s. split; [exact E|]. split; [exact Hl|]. intros i rep rf Hrep Hrf.
  destruct (Hr i rep rf Hrep Hrf) as [_ (kv & Hkv & _)]. exists kv. exact Hkv.
Defined.
