(* ===== verification/KVClient.v ===== *)
(** * KVClient: the clerk of the key/value service, src/src/kvraft/client.go *)

From S2P Require Import Prelude KVStore Retry.
Local Open Scope Z_scope.

Record Clerk := mkClerk {
  servers : nat;  (* [len(ck.servers)] *)
  leaderId : Z;
  clientId : Z;
  seqId : Z;
}.

(** [MakeClerk], with the result of [nrand()] *)
Definition MakeClerk (n : nat) (nrand : Z) : Clerk := mkClerk n 0 nrand 0.

Definition retry_err (e : Err) : bool := bool_decide (e = ErrWrongLeader) || bool_decide (e = ErrTimeout).

Section clerk.
Context (get : nat -> Z -> GetArgs -> option GetReply)
        (putAppend : nat -> Z -> PutAppendArgs -> option PutAppendReply).

Definition Clerk_Get (fuel : nat) (ck : Clerk) (key : string) : outcome (option (string * Clerk)) :=
  let args := mkGetArgs key in
  r ← retry (servers ck) get (fun reply => retry_err (gr_Err reply)) fuel 0 (leaderId ck) args;
  Ret (match r with
       | Some (reply, leader) =>
           Some (gr_Value reply, mkClerk (servers ck) leader (clientId ck) (seqId ck))
       | None => None
       end).

Definition Clerk_PutAppend (fuel : nat) (ck : Clerk) (key value op : string) : outcome (option Clerk) :=
  let args := mkPutAppendArgs key value op (clientId ck) (seqId ck) in
  r ← retry (servers ck) putAppend (fun reply => retry_err (par_Err reply)) fuel 0 (leaderId ck) args;
  Ret (match r with
       | Some (_, leader) => Some (mkClerk (servers ck) leader (clientId ck) (seqId ck + 1))
       | None => None
       end).

Definition Clerk_Put (fuel : nat) (ck : Clerk) (key value : string) : outcome (option Clerk) :=
  Clerk_PutAppend fuel ck key value "Put".

Definition Clerk_Append (fuel : nat) (ck : Clerk) (key value : string) : outcome (option Clerk) :=
  Clerk_PutAppend fuel ck key value "Append".

(** A clerk's write returns: if from attempt [T] on some server gives final
    answers, [T + len(servers)] attempts are enough, whatever the other servers
    and the network do.  The clerk has then used its sequence number once and
    remembers a server that exists. *)
Lemma clerk_put_returns (ck : Clerk) (key value op : string) (T fuel : nat) (p : Z) :
  0 <= leaderId ck < Z.of_nat (servers ck) ->
  settles (servers ck) putAppend (fun reply => retry_err (par_Err reply)) T p
    (mkPutAppendArgs key value op (clientId ck) (seqId ck)) ->
  (T + servers ck <= fuel)%nat ->
  exists ck', Clerk_PutAppend fuel ck key value op = Ret (Some ck') /\
    seqId ck' = seqId ck + 1 /\ clientId ck' = clientId ck /\
    0 <= leaderId ck' < Z.of_nat (servers ck').
Proof.
  intros Hl Hset Hf.
  destruct (retry_terminates _ _ _ _ _ _ fuel 0 (leaderId ck) Hset Hl) as ([r l] & Hr & Hfin); [lia..|].
  unfold Clerk_PutAppend. rewrite Hr. simpl. eexists. split; [done|]. simpl. by destruct Hfin.
Qed.
End clerk.

(** A cluster of three in which server 2 answers from the fourth attempt on. *)
Definition flaky (t : nat) (p : Z) (args : PutAppendArgs) : option PutAppendReply :=
  if bool_decide (p = 2 /\ (3 <= t)%nat) then Some (mkPutAppendReply OK)
  else if bool_decide (p = 1) then None else Some (mkPutAppendReply ErrWrongLeader).

Lemma clerk_put_returns_witness :
  exists ck', Clerk_PutAppend flaky 6 (MakeClerk 3 42) "k" "v" "Put" = Ret (Some ck') /\
    seqId ck' = 0 + 1 /\ clientId ck' = 42 /\ 0 <= leaderId ck' < Z.of_nat (servers ck').
Proof.
  apply (clerk_put_returns flaky (MakeClerk 3 42) "k" "v" "Put" 3 6 2).
  - simpl. lia.
  - split; [simpl; lia|]. intros t Ht. exists (mkPutAppendReply OK). unfold flaky.
    rewrite bool_decide_true; [done|]. split; reflexivity.
  - simpl. lia.
Defined.
