(* ===== verification/ShardConfig.v ===== *)
(** * ShardConfig: configurations of the shard controller

    src/src/shardctrler/common.go and src/src/shardctrler/state_machine.go.
    [for k, v := range m] visits a Go map in an unspecified order, which may
    differ between replicas and between two loops of one replica: a
    [MapOrder] chooses the order, and every definition that ranges over a map
    takes one.  [Shards] is an array of [NShards] group ids, indexed with Go's
    bounds check. *)

From S2P Require Import Prelude.
Local Open Scope Z_scope.

(** ** common.go *)

Definition NShards : Z := 10.

Record Config := mkConfig {
  Num : Z;
  Shards : list Z;
  Groups : gmap Z (list string);
}.

#[export] Instance Config_eq_dec : EqDecision Config.
Proof. solve_decision. Defined.

(** The zero value of [[NShards]int]. *)
Definition zeroShards : list Z := replicate (Z.to_nat NShards) 0.

Definition DefaultConfig : Config := mkConfig 0 zeroShards ∅.

Definition Err : Set := string.
Definition OK : Err := "OK".
Definition ErrWrongLeader : Err := "ErrWrongLeader".
Definition ErrTimeout : Err := "ErrTimeout".

(** ** state_machine.go *)

Record CtrlerStateMachine := mkCtrlerStateMachine { Configs : list Config }.

Definition NewCtrlerStateMachine : CtrlerStateMachine := mkCtrlerStateMachine [DefaultConfig].

Definition Query (csm : CtrlerStateMachine) (num : Z) : outcome (Config * Err) :=
  if bool_decide (num < 0) || bool_decide (num >= len (Configs csm)) then
    cfg ← slice_get (Configs csm) (len (Configs csm) - 1); Ret (cfg, OK)
  else cfg ← slice_get (Configs csm) num; Ret (cfg, OK).

(** A Go map read: a missing key is the nil slice. *)
Definition shards_at (g : gmap Z (list Z)) (gid : Z) : list Z := default [] (g !! gid).

Section order.
Context {mo : MapOrder}.

Definition copyGroups (groups : gmap Z (list string)) : gmap Z (list string) :=
  foldl (fun newGroup '(gid, servers) => <[gid := servers]> newGroup) ∅ (range groups).

(** The keys in increasing order: [for gid := range m { gids = append(gids, gid) };
    sort.Ints(gids)] *)
Definition sortedGids (gidToShards : gmap Z (list Z)) : list Z :=
  sort_Ints (range gidToShards).*1.

Definition gidWithMaxShards (gidToShards : gmap Z (list Z)) : Z :=
  if bool_decide (gidToShards !! 0 <> None) && bool_decide (len (shards_at gidToShards 0) > 0)
  then 0 else
  (foldl (fun '(maxGid, maxShards) gid =>
     if bool_decide (len (shards_at gidToShards gid) > maxShards)
     then (gid, len (shards_at gidToShards gid)) else (maxGid, maxShards))
   (-1, -1) (sortedGids gidToShards)).1.

Definition gidWithMinShards (gidToShards : gmap Z (list Z)) : Z :=
  (foldl (fun '(minGid, minShards) gid =>
     if bool_decide (gid <> 0) && bool_decide (len (shards_at gidToShards gid) < minShards)
     then (gid, len (shards_at gidToShards gid)) else (minGid, minShards))
   (-1, NShards + 1) (sortedGids gidToShards)).1.

(** [gidToShards] of a configuration, first its groups, then its shards *)
Definition makeGidToShards (groups : gmap Z (list string)) (shards : list Z) : gmap Z (list Z) :=
  let g := foldl (fun g '(gid, _) => <[gid := []]> g) ∅ (range groups) in
  foldl (fun g '(shard, gid) => <[gid := shards_at g gid ++ [shard]]> g) g
    (imap (fun i gid => (Z.of_nat i, gid)) shards).

(** One pass of the loop of [Join]; [None] is the [break]. *)
Definition balanceStep (g : gmap Z (list Z)) : outcome (option (gmap Z (list Z))) :=
  let maxGid := gidWithMaxShards g in
  let minGid := gidWithMinShards g in
  if bool_decide (maxGid <> 0)
       && bool_decide (len (shards_at g maxGid) - len (shards_at g minGid) <= 1)
  then Ret None
  else
    shard ← slice_get (shards_at g maxGid) 0;
    let g := <[minGid := shards_at g minGid ++ [shard]]> g in
    rest ← slice_from (shards_at g maxGid) 1;
    Ret (Some (<[maxGid := rest]> g)).

Fixpoint balance (fuel : nat) (g : gmap Z (list Z)) : outcome (gmap Z (list Z)) :=
  match fuel with
  | O => Panic "out of fuel"
  | S fuel =>
      r ← balanceStep g;
      match r with None => Ret g | Some g' => balance fuel g' end
  end.

(** The passes the loop can need; [Join_total] shows that they are enough. *)
Definition balanceFuel : nat := 200.

(** [for gid, shards := range gidToShards { for _, shard := range shards {
    newShards[shard] = gid } }] *)
Fixpoint setAll (a : list Z) (gid : Z) (shards : list Z) : outcome (list Z) :=
  match shards with
  | [] => Ret a
  | shard :: shards => a ← slice_set a shard gid; setAll a gid shards
  end.

Fixpoint storeAll (a : list Z) (entries : list (Z * list Z)) : outcome (list Z) :=
  match entries with
  | [] => Ret a
  | (gid, shards) :: entries => a ← setAll a gid shards; storeAll a entries
  end.

Definition storeShards (g : gmap Z (list Z)) : outcome (list Z) := storeAll zeroShards (range g).

Definition lastConfig (csm : CtrlerStateMachine) : outcome Config :=
  slice_get (Configs csm) (len (Configs csm) - 1).

Definition addConfig (csm : CtrlerStateMachine) (c : Config) : CtrlerStateMachine :=
  mkCtrlerStateMachine (Configs csm ++ [c]).

Definition joinGroups (old groups : gmap Z (list string)) : gmap Z (list string) :=
  foldl (fun gs '(gid, servers) => if bool_decide (gs !! gid = None) then <[gid := servers]> gs else gs)
    (copyGroups old) (range groups).

Definition Join (csm : CtrlerStateMachine) (groups : gmap Z (list string))
    : outcome (Err * CtrlerStateMachine) :=
  let num := len (Configs csm) in
  last ← lastConfig csm;
  let newGroups := joinGroups (Groups last) groups in
  let gidToShards := makeGidToShards newGroups (Shards last) in
  gidToShards ← balance balanceFuel gidToShards;
  newShards ← storeShards gidToShards;
  Ret (OK, addConfig csm (mkConfig num newShards newGroups)).

(** The loop over the leaving groups: the remaining groups, their shards and
    the shards without a group. *)
Definition leaveGroups (gids : list Z) (groups : gmap Z (list string)) (g : gmap Z (list Z))
    : gmap Z (list string) * gmap Z (list Z) * list Z :=
  foldl (fun '(groups, g, unassigned) gid =>
    let groups := delete gid groups in
    match g !! gid with
    | Some shards => (groups, delete gid g, unassigned ++ shards)
    | None => (groups, g, unassigned)
    end) (groups, g, []) gids.

Definition reassign (g : gmap Z (list Z)) (unassigned : list Z) : gmap Z (list Z) :=
  foldl (fun g shard => let minGid := gidWithMinShards g in
                        <[minGid := shards_at g minGid ++ [shard]]> g) g unassigned.

Definition Leave (csm : CtrlerStateMachine) (gids : list Z) : outcome (Err * CtrlerStateMachine) :=
  let num := len (Configs csm) in
  last ← lastConfig csm;
  let groups := copyGroups (Groups last) in
  let g := makeGidToShards groups (Shards last) in
  let '(groups, g, unassigned) := leaveGroups gids groups g in
  newShards ← (if bool_decide (size groups <> 0%nat)
               then storeShards (reassign g unassigned)
               else Ret zeroShards);
  Ret (OK, addConfig csm (mkConfig num newShards groups)).

Definition Move (csm : CtrlerStateMachine) (shardid gid : Z) : outcome (Err * CtrlerStateMachine) :=
  let num := len (Configs csm) in
  last ← lastConfig csm;
  let groups := copyGroups (Groups last) in
  newShards ← slice_set (Shards last) shardid gid;
  Ret (OK, addConfig csm (mkConfig num newShards groups)).
End order.
