(* ===== verification/ShardMaps.v ===== *)
(** * ShardMaps: the maps from groups to shards

    Facts about [gmap Z (list Z)] as the shard controller uses it: which shards
    it holds ([all_shards]), weights that measure the progress of the balancing
    loop, the two selection functions, and the loops that turn an array of
    shards into a map and back.  None of the results depends on the order in
    which a map is visited. *)

From S2P Require Import Prelude ShardConfig.
Local Open Scope Z_scope.
Implicit Types g : gmap Z (list Z).

(** ** The shards of a map *)

Definition all_shards g : list Z := mjoin (map_to_list g).*2.

Definition weight (f : list Z -> Z) g : Z :=
  foldr Z.add 0 ((fun kl => f kl.2) <$> map_to_list g).

Lemma foldr_add_perm (l l' : list Z) : l ≡ₚ l' -> foldr Z.add 0 l = foldr Z.add 0 l'.
Proof. induction 1; simpl; lia. Qed.

Lemma all_shards_at g k : all_shards g ≡ₚ shards_at g k ++ all_shards (delete k g).
Proof.
  unfold all_shards, shards_at. destruct (g !! k) as [l|] eqn:Hk; simpl.
  - by rewrite -(map_to_list_delete g k l Hk).
  - by rewrite delete_id.
Qed.

Lemma all_shards_insert g k l : all_shards (<[k := l]> g) ≡ₚ l ++ all_shards (delete k g).
Proof.
  rewrite (all_shards_at _ k) delete_insert_eq. unfold shards_at. by rewrite lookup_insert_eq.
Qed.

Lemma weight_at f g k : f [] = 0 -> weight f g = f (shards_at g k) + weight f (delete k g).
Proof.
  intros Hf. unfold weight, shards_at. destruct (g !! k) as [l|] eqn:Hk; simpl.
  - by rewrite -(foldr_add_perm _ _ (fmap_Permutation _ _ _ (map_to_list_delete g k l Hk))).
  - rewrite delete_id // Hf. lia.
Qed.

Lemma weight_insert f g k l : f [] = 0 -> weight f (<[k := l]> g) = f l + weight f (delete k g).
Proof.
  intros Hf. rewrite (weight_at f _ k Hf) delete_insert_eq. unfold shards_at. by rewrite lookup_insert_eq.
Qed.

Lemma shards_at_insert g k l k' :
  shards_at (<[k := l]> g) k' = if bool_decide (k = k') then l else shards_at g k'.
Proof.
  unfold shards_at. case_bool_decide; subst; [by rewrite lookup_insert_eq|by rewrite lookup_insert_ne].
Qed.

Lemma shards_at_delete_ne g k k' : k <> k' -> shards_at (delete k g) k' = shards_at g k'.
Proof. intros. unfold shards_at. by rewrite lookup_delete_ne. Qed.

Lemma elem_of_all_shards g s : s ∈ all_shards g <-> exists k, s ∈ shards_at g k.
Proof.
  unfold all_shards, shards_at. rewrite list_elem_of_join. split.
  - intros (l & Hs & ([k l'] & -> & Hkl%elem_of_map_to_list)%list_elem_of_fmap).
    exists k. by rewrite Hkl.
  - intros [k Hs]. destruct (g !! k) as [l|] eqn:Hk; [|by apply elem_of_nil in Hs].
    exists l. split; [done|]. apply list_elem_of_fmap. exists (k, l). split; [done|].
    by apply elem_of_map_to_list.
Qed.

Lemma owner_unique g s k k' :
  NoDup (all_shards g) -> s ∈ shards_at g k -> s ∈ shards_at g k' -> k = k'.
Proof.
  intros Hnd Hk Hk'. destruct (decide (k = k')) as [|Hne]; [done|]. exfalso.
  rewrite (all_shards_at g k) in Hnd. apply NoDup_app in Hnd as (_ & Hd & _).
  apply (Hd s Hk). apply elem_of_all_shards. exists k'. by rewrite shards_at_delete_ne.
Qed.

(** Moving one shard between two groups. *)
Section move.
Context (g : gmap Z (list Z)) (a b s : Z) (rest : list Z).
Context (Ha : shards_at g a = s :: rest) (Hab : a <> b).
Let g' := <[a := rest]> (<[b := shards_at g b ++ [s]]> g).

Lemma moved_all_shards : all_shards g' ≡ₚ all_shards g.
Proof.
  unfold g'. rewrite all_shards_insert (all_shards_at g a) delete_insert_ne // all_shards_insert.
  rewrite (all_shards_at (delete a g) b) shards_at_delete_ne // Ha. solve_Permutation.
Qed.

Lemma moved_weight f : f [] = 0 ->
  weight f g' = weight f g - f (s :: rest) - f (shards_at g b) + f rest + f (shards_at g b ++ [s]).
Proof.
  intros Hf. unfold g'. rewrite weight_insert // (weight_at f g a) // delete_insert_ne // weight_insert //.
  rewrite (weight_at f (delete a g) b) // shards_at_delete_ne // Ha. lia.
Qed.

Lemma moved_at k : shards_at g' k =
  if bool_decide (a = k) then rest else if bool_decide (b = k) then shards_at g b ++ [s] else shards_at g k.
Proof. unfold g'. by rewrite !shards_at_insert. Qed.
End move.

(** ** Selection *)

Section select.
Context {mo : MapOrder}.

Lemma sortedGids_elem g k : k ∈ sortedGids g <-> is_Some (g !! k).
Proof.
  unfold sortedGids. rewrite sort_Ints_perm range_perm list_elem_of_fmap. split.
  - intros ([k' l] & -> & H%elem_of_map_to_list). eauto.
  - intros [l Hl]. exists (k, l). split; [done|]. by apply elem_of_map_to_list.
Qed.

Lemma fold_max g l m0 n0 :
  let r := foldl (fun '(maxGid, maxShards) gid =>
     if bool_decide (len (shards_at g gid) > maxShards)
     then (gid, len (shards_at g gid)) else (maxGid, maxShards)) (m0, n0) l in
  (r = (m0, n0) \/ (r.1 ∈ l /\ r.2 = len (shards_at g r.1))) /\ n0 <= r.2 /\
  forall k, k ∈ l -> len (shards_at g k) <= r.2.
Proof.
  revert m0 n0. induction l as [|x l IH]; intros m0 n0; simpl.
  { split_and!; [by left|lia|by intros ? ?%elem_of_nil]. }
  case_bool_decide as Hx;
    [destruct (IH x (len (shards_at g x))) as (Hr & Hn & Hk)|destruct (IH m0 n0) as (Hr & Hn & Hk)].
  - split_and!; [|lia|intros k [->|?]%elem_of_cons; [lia|by apply Hk]]. right.
    destruct Hr as [->|[? ?]]; simpl; split; try done; [by left|by right].
  - split_and!; [|lia|intros k [->|?]%elem_of_cons; [lia|by apply Hk]].
    destruct Hr as [?|[? ?]]; [by left|right]. split; [by right|done].
Qed.

Lemma fold_min g l m0 n0 :
  let r := foldl (fun '(minGid, minShards) gid =>
     if bool_decide (gid <> 0) && bool_decide (len (shards_at g gid) < minShards)
     then (gid, len (shards_at g gid)) else (minGid, minShards)) (m0, n0) l in
  (r = (m0, n0) \/ (r.1 ∈ l /\ r.1 <> 0 /\ r.2 = len (shards_at g r.1))) /\ r.2 <= n0 /\
  forall k, k ∈ l -> k <> 0 -> r.2 <= len (shards_at g k).
Proof.
  revert m0 n0. induction l as [|x l IH]; intros m0 n0; simpl.
  { split_and!; [by left|lia|by intros ? ?%elem_of_nil]. }
  destruct (bool_decide (x <> 0) && bool_decide (len (shards_at g x) < n0)) eqn:Hx.
  - apply andb_true_iff in Hx as [Hx0%bool_decide_eq_true Hx%bool_decide_eq_true].
    destruct (IH x (len (shards_at g x))) as (Hr & Hn & Hk).
    split_and!; [|lia|intros k [->|?]%elem_of_cons ?; [lia|by apply Hk]]. right.
    destruct Hr as [->|(? & ? & ?)]; simpl; split_and!; try done; [by left|by right].
  - apply andb_false_iff in Hx. rewrite !bool_decide_eq_false in Hx.
    destruct (IH m0 n0) as (Hr & Hn & Hk).
    split_and!; [|lia|intros k [->|?]%elem_of_cons ?; [lia|by apply Hk]].
    destruct Hr as [?|(? & ? & ?)]; [by left|right]. split_and!; [by right|done|done].
Qed.

(** The largest group, once group 0 has no shard. *)
Lemma gidWithMax_spec g :
  shards_at g 0 = [] -> g <> ∅ ->
  is_Some (g !! gidWithMaxShards g) /\
  forall k, len (shards_at g k) <= len (shards_at g (gidWithMaxShards g)).
Proof.
  intros H0 Hne. unfold gidWithMaxShards.
  rewrite H0 andb_false_r. pose proof (fold_max g (sortedGids g) (-1) (-1)) as H. simpl in H.
  destruct (foldl _ _ (sortedGids g)) as [m n]. simpl in *. destruct H as (Hr & Hn & Hk).
  destruct Hr as [[= -> ->]|[Hm ->]].
  - apply map_choose in Hne as (k & l & Hkl).
    assert (k ∈ sortedGids g) as Hin by (apply sortedGids_elem; eauto).
    specialize (Hk k Hin). pose proof (len_nonneg (shards_at g k)). lia.
  - split; [by apply sortedGids_elem|]. intros k. unfold shards_at at 1.
    destruct (g !! k) as [l|] eqn:Hg; simpl; [|rewrite len_nil; apply len_nonneg].
    assert (k ∈ sortedGids g) as Hin by (apply sortedGids_elem; eauto).
    specialize (Hk k Hin). unfold shards_at in Hk at 1. by rewrite Hg in Hk.
Qed.

Lemma gidWithMax_zero g : shards_at g 0 <> [] -> gidWithMaxShards g = 0.
Proof.
  intros H0. unfold gidWithMaxShards.
  assert (g !! 0 <> None) as Hk by (unfold shards_at in H0; by destruct (g !! 0)).
  assert (len (shards_at g 0) > 0) as Hl.
  { destruct (shards_at g 0) as [|x l]; [done|]. rewrite len_cons. pose proof (len_nonneg l). lia. }
  by rewrite (bool_decide_true _ Hk) (bool_decide_true _ Hl).
Qed.

(** The smallest group other than 0. *)
Lemma gidWithMin_spec g k0 :
  is_Some (g !! k0) -> k0 <> 0 -> len (shards_at g k0) <= NShards ->
  is_Some (g !! gidWithMinShards g) /\ gidWithMinShards g <> 0 /\
  forall k, is_Some (g !! k) -> k <> 0 -> len (shards_at g (gidWithMinShards g)) <= len (shards_at g k).
Proof.
  intros Hk0 Hne Hle. unfold gidWithMinShards.
  pose proof (fold_min g (sortedGids g) (-1) (NShards + 1)) as H. simpl in H.
  destruct (foldl _ _ (sortedGids g)) as [m n]. simpl in *. destruct H as (Hr & Hn & Hk).
  apply sortedGids_elem in Hk0. specialize (Hk k0 Hk0 Hne) as Hk0'.
  destruct Hr as [[= -> ->]|(Hm & Hm0 & ->)]; [lia|].
  split_and!; [by apply sortedGids_elem|done|]. intros k Hin%sortedGids_elem ?. by apply Hk.
Qed.
End select.

(** ** Order independence *)

Lemma sort_Ints_proper l l' : l ≡ₚ l' -> sort_Ints l = sort_Ints l'.
Proof.
  intros Hp. apply (StronglySorted_unique Z.le).
  - apply Sorted_StronglySorted; [exact Z.le_trans|apply sort_Ints_sorted].
  - apply Sorted_StronglySorted; [exact Z.le_trans|apply sort_Ints_sorted].
  - by rewrite !sort_Ints_perm.
Qed.

Lemma sortedGids_order (mo1 mo2 : MapOrder) g : sortedGids (mo:=mo1) g = sortedGids (mo:=mo2) g.
Proof. apply sort_Ints_proper. by rewrite !range_perm. Qed.

Lemma gidWithMax_order (mo1 mo2 : MapOrder) g :
  gidWithMaxShards (mo:=mo1) g = gidWithMaxShards (mo:=mo2) g.
Proof. unfold gidWithMaxShards. by rewrite (sortedGids_order mo1 mo2). Qed.

Lemma gidWithMin_order (mo1 mo2 : MapOrder) g :
  gidWithMinShards (mo:=mo1) g = gidWithMinShards (mo:=mo2) g.
Proof. unfold gidWithMinShards. by rewrite (sortedGids_order mo1 mo2). Qed.

(** ** The loops over the groups *)

Section loops.
Context {mo : MapOrder}.

Lemma range_elem {V} (m : gmap Z V) k v : (k, v) ∈ range m <-> m !! k = Some v.
Proof. rewrite range_perm. apply elem_of_map_to_list. Qed.

Lemma range_keys {V} (m : gmap Z V) k : k ∈ (range m).*1 <-> is_Some (m !! k).
Proof.
  rewrite list_elem_of_fmap. split.
  - intros ([k' v] & -> & ?%range_elem). eauto.
  - intros [v Hv]. exists (k, v). by rewrite range_elem.
Qed.

Lemma range_nodup {V} (m : gmap Z V) : NoDup (range m).*1.
Proof. rewrite range_perm. apply NoDup_fst_map_to_list. Qed.

(** Inserting the entries of a list one by one. *)
Lemma foldl_insert {V W} (f : Z -> V -> W) (l : list (Z * V)) (m : gmap Z W) k :
  NoDup l.*1 ->
  foldl (fun m '(k, v) => <[k := f k v]> m) m l !! k =
  match list_find (fun kv => kv.1 = k) l with
  | Some (_, (_, v)) => Some (f k v)
  | None => m !! k
  end.
Proof.
  revert m. induction l as [|[x v] l IH]; intros m Hnd; [done|]. simpl in Hnd |- *.
  apply NoDup_cons in Hnd as [Hx Hnd]. rewrite (IH _ Hnd). case_decide as Hk; simpl in Hk.
  - subst. replace (list_find (fun kv => kv.1 = k) l) with (@None (nat * (Z * V))).
    + apply lookup_insert_eq.
    + symmetry. apply list_find_None, Forall_forall. intros [k' v'] Hin Heq. simpl in Heq. subst.
      apply Hx, list_elem_of_fmap. by exists (k, v').
  - destruct (list_find _ l) as [[i [k' v']]|]; simpl; [done|]. by rewrite lookup_insert_ne.
Qed.

Lemma list_find_range {V} (m : gmap Z V) k :
  match list_find (fun kv => kv.1 = k) (range m) with
  | Some (_, (_, v)) => Some v
  | None => None
  end = m !! k.
Proof.
  destruct (list_find _ (range m)) as [[i [k' v]]|] eqn:Hf.
  - apply list_find_Some in Hf as (Hi & Hk & _). simpl in Hk. subst.
    symmetry. apply range_elem. eapply list_elem_of_lookup_2; eauto.
  - apply list_find_None in Hf. symmetry. apply eq_None_not_Some. intros [v Hv%range_elem].
    rewrite Forall_forall in Hf. by apply (Hf _ Hv).
Qed.

Lemma copyGroups_id groups : copyGroups groups = groups.
Proof.
  apply map_eq. intros k. unfold copyGroups.
  rewrite (foldl_insert (fun _ v => v) _ ∅ k (range_nodup groups)) -(list_find_range groups k) lookup_empty.
  by destruct (list_find _ _) as [[? [? ?]]|].
Qed.

Lemma foldl_join (l : list (Z * list string)) (m : gmap Z (list string)) k :
  NoDup l.*1 ->
  foldl (fun gs '(gid, servers) => if bool_decide (gs !! gid = None) then <[gid := servers]> gs else gs)
    m l !! k =
  match m !! k with
  | Some v => Some v
  | None => match list_find (fun kv => kv.1 = k) l with Some (_, (_, v)) => Some v | None => None end
  end.
Proof.
  revert m. induction l as [|[x v] l IH]; intros m Hnd; simpl; [by destruct (m !! k)|].
  simpl in Hnd. apply NoDup_cons in Hnd as [Hx Hnd]. rewrite (IH _ Hnd).
  case_bool_decide as Hm; case_decide as Hk; simpl in Hk; subst.
  - by rewrite lookup_insert_eq Hm.
  - rewrite lookup_insert_ne //. destruct (m !! k); [done|]. by destruct (list_find _ l) as [[? [? ?]]|].
  - by destruct (m !! k).
  - destruct (m !! k); [done|]. by destruct (list_find _ l) as [[? [? ?]]|].
Qed.

Lemma joinGroups_union old groups : joinGroups old groups = old ∪ groups.
Proof.
  apply map_eq. intros k. unfold joinGroups. rewrite copyGroups_id foldl_join; [apply range_nodup|].
  rewrite list_find_range lookup_union. by destruct (old !! k), (groups !! k).
Qed.

(** ** The array of a map of groups *)

Definition emptyGroups (groups : gmap Z (list string)) : gmap Z (list Z) := (fun _ => []) <$> groups.

Definition place g (ps : list (Z * Z)) : gmap Z (list Z) :=
  foldl (fun g '(shard, gid) => <[gid := shards_at g gid ++ [shard]]> g) g ps.

Lemma makeGidToShards_place groups shards :
  makeGidToShards groups shards =
  place (emptyGroups groups) (imap (fun i gid => (Z.of_nat i, gid)) shards).
Proof.
  unfold makeGidToShards. f_equal. apply map_eq. intros k.
  rewrite (foldl_insert (fun _ _ => []) _ ∅ k (range_nodup groups)) lookup_empty lookup_fmap -(list_find_range groups k).
  by destruct (list_find _ _) as [[? [? ?]]|].
Qed.

Lemma place_all_shards g ps : all_shards (place g ps) ≡ₚ all_shards g ++ ps.*1.
Proof.
  revert g. induction ps as [|[s k] ps IH]; intros g; simpl; [by rewrite app_nil_r|].
  rewrite IH all_shards_insert (all_shards_at g k). solve_Permutation.
Qed.

Lemma place_dom g ps k : is_Some (place g ps !! k) <-> is_Some (g !! k) \/ k ∈ ps.*2.
Proof.
  revert g. induction ps as [|[s x] ps IH]; intros g; simpl.
  { rewrite elem_of_nil. tauto. }
  rewrite IH elem_of_cons lookup_insert_is_Some'. naive_solver.
Qed.

Lemma place_at g ps k s : s ∈ shards_at (place g ps) k <-> s ∈ shards_at g k \/ (s, k) ∈ ps.
Proof.
  revert g. induction ps as [|[x y] ps IH]; intros g; simpl; [rewrite elem_of_nil; tauto|].
  rewrite IH shards_at_insert elem_of_cons. case_bool_decide as Hy; subst.
  - rewrite elem_of_app list_elem_of_singleton. naive_solver.
  - naive_solver.
Qed.

Lemma emptyGroups_all groups : all_shards (emptyGroups groups) = [].
Proof.
  destruct (all_shards (emptyGroups groups)) as [|s l] eqn:H; [done|].
  assert (s ∈ all_shards (emptyGroups groups)) as Hs by (rewrite H; left).
  apply elem_of_all_shards in Hs as [k Hs]. unfold shards_at, emptyGroups in Hs.
  rewrite lookup_fmap in Hs. destruct (groups !! k); by apply elem_of_nil in Hs.
Qed.

Lemma emptyGroups_at groups k : shards_at (emptyGroups groups) k = [].
Proof. unfold shards_at, emptyGroups. rewrite lookup_fmap. by destruct (groups !! k). Qed.

Lemma imap_fst shards : (imap (fun i (gid : Z) => (Z.of_nat i, gid)) shards).*1 = seqZ 0 (len shards).
Proof.
  unfold len, seqZ. rewrite Nat2Z.id. apply list_eq. intros i.
  rewrite list_lookup_fmap list_lookup_imap list_lookup_fmap. destruct (shards !! i) as [x|] eqn:Hx; simpl.
  - rewrite lookup_seq_lt; [eapply lookup_lt_Some; eauto|]. simpl. f_equal. lia.
  - rewrite lookup_seq_ge //. by apply lookup_ge_None.
Qed.

Lemma imap_pair shards s k :
  (s, k) ∈ imap (fun i (gid : Z) => (Z.of_nat i, gid)) shards <-> 0 <= s /\ shards !! Z.to_nat s = Some k.
Proof.
  rewrite elem_of_lookup_imap. split.
  - intros (i & x & [= -> ->] & Hi). rewrite Nat2Z.id. split; [lia|done].
  - intros [Hs Hk]. exists (Z.to_nat s), k. rewrite Z2Nat.id; [done|]. done.
Qed.

Lemma imap_gids shards : (imap (fun i (gid : Z) => (Z.of_nat i, gid)) shards).*2 = shards.
Proof.
  apply list_eq. intros i. rewrite list_lookup_fmap list_lookup_imap. by destruct (shards !! i).
Qed.

Lemma makeGidToShards_spec groups shards :
  let g := makeGidToShards groups shards in
  all_shards g ≡ₚ seqZ 0 (len shards) /\
  (forall k, is_Some (g !! k) <-> is_Some (groups !! k) \/ k ∈ shards) /\
  (forall k s, s ∈ shards_at g k <-> 0 <= s /\ shards !! Z.to_nat s = Some k).
Proof.
  simpl. rewrite makeGidToShards_place. split_and!.
  - by rewrite place_all_shards emptyGroups_all imap_fst.
  - intros k. rewrite place_dom imap_gids /emptyGroups lookup_fmap fmap_is_Some. done.
  - intros k s. rewrite place_at emptyGroups_at elem_of_nil imap_pair. naive_solver.
Qed.

(** ** Back to the array *)

Lemma setAll_spec a gid shards :
  Forall (fun s => 0 <= s < len a) shards ->
  exists a', setAll a gid shards = Ret a' /\ length a' = length a /\
    forall i, a' !! i = if bool_decide (Z.of_nat i ∈ shards) then Some gid else a !! i.
Proof.
  revert a. induction shards as [|s shards IH]; intros a Hs.
  { exists a. split_and!; [done|done|]. intros i. by rewrite bool_decide_false; [apply not_elem_of_nil|]. }
  apply Forall_cons in Hs as [Hs Hss]. simpl. unfold slice_set. rewrite bool_decide_true //. simpl.
  destruct (IH (<[Z.to_nat s := gid]> a)) as (a' & -> & Hl & Ha').
  { eapply Forall_impl; [exact Hss|]. intros x. by rewrite len_insert. }
  exists a'. rewrite Hl length_insert. split_and!; [done|done|]. intros i. rewrite Ha'.
  destruct (decide (Z.of_nat i ∈ shards)) as [Hi|Hi].
  { rewrite !bool_decide_true //. by right. }
  rewrite bool_decide_false //. destruct (decide (Z.of_nat i = s)) as [<-|Hne].
  - rewrite Nat2Z.id list_lookup_insert_eq; [unfold len in Hs; lia|].
    by rewrite bool_decide_true; [left|].
  - rewrite list_lookup_insert_ne; [lia|]. rewrite bool_decide_false //.
    by intros [?|?]%elem_of_cons.
Qed.

Lemma storeAll_spec a entries :
  Forall (fun s => 0 <= s < len a) (mjoin entries.*2) -> NoDup (mjoin entries.*2) ->
  exists a', storeAll a entries = Ret a' /\ length a' = length a /\
    (forall gid shards s, (gid, shards) ∈ entries -> s ∈ shards -> a' !! Z.to_nat s = Some gid) /\
    (forall i, Z.of_nat i ∉ mjoin entries.*2 -> a' !! i = a !! i).
Proof.
  revert a. induction entries as [|[gid shards] entries IH]; intros a Hs Hnd; simpl in *.
  { exists a. split_and!; [done|done| |done]. by intros ? ? ? ?%elem_of_nil. }
  apply Forall_app in Hs as [Hs Hss]. apply NoDup_app in Hnd as (_ & Hdisj & Hnd).
  destruct (setAll_spec a gid shards Hs) as (a1 & -> & Hl1 & Ha1). simpl.
  destruct (IH a1) as (a' & -> & Hl & Hin & Hout); [|done|].
  { eapply Forall_impl; [exact Hss|]. intros x. unfold len. by rewrite Hl1. }
  exists a'. split_and!; [done|congruence| |].
  - intros gid' shards' s [[= -> ->]|He]%elem_of_cons Hin'; [|eapply Hin; eauto].
    assert (0 <= s < len a) as Hrange by (rewrite Forall_forall in Hs; by apply Hs).
    rewrite Hout; [|rewrite Ha1 bool_decide_true //]; rewrite Z2Nat.id; try lia; auto.
  - intros i [Hi1 Hi2]%not_elem_of_app. rewrite Hout // Ha1. by rewrite bool_decide_false.
Qed.

Lemma range_shards g : mjoin (range g).*2 ≡ₚ all_shards g.
Proof. unfold all_shards. by rewrite range_perm. Qed.

(** When a map holds the shards [0 .. NShards - 1], the array gives every shard
    its group. *)
Lemma storeShards_spec g :
  all_shards g ≡ₚ seqZ 0 NShards ->
  exists a, storeShards g = Ret a /\ length a = Z.to_nat NShards /\
    forall s k, s ∈ shards_at g k <-> 0 <= s /\ a !! Z.to_nat s = Some k.
Proof.
  intros Hall. unfold storeShards.
  assert (NoDup (all_shards g)) as Hnd by (rewrite Hall; apply NoDup_seqZ).
  destruct (storeAll_spec zeroShards (range g)) as (a & -> & Hl & Hin & _).
  { rewrite range_shards Hall. apply Forall_forall. intros s Hs%elem_of_seqZ. by simpl in *. }
  { by rewrite range_shards. }
  exists a. split_and!; [done|done|]. intros s k.
  assert (forall k', s ∈ shards_at g k' -> a !! Z.to_nat s = Some k') as Hown.
  { intros k' Hs. unfold shards_at in Hs. destruct (g !! k') as [l|] eqn:Hk; [|by apply elem_of_nil in Hs].
    eapply Hin; [apply range_elem; exact Hk|done]. }
  split.
  - intros Hs. split; [|by apply Hown].
    assert (s ∈ all_shards g) as Hs' by (apply elem_of_all_shards; eauto).
    rewrite Hall in Hs'. apply elem_of_seqZ in Hs'. lia.
  - intros [Hs0 Ha]. assert (s ∈ all_shards g) as Hs.
    { rewrite Hall. apply elem_of_seqZ. apply lookup_lt_Some in Ha. rewrite Hl in Ha.
      unfold zeroShards in Ha. rewrite length_replicate in Ha. unfold NShards in *. lia. }
    apply elem_of_all_shards in Hs as [k' Hs]. pose proof (Hown k' Hs). by simplify_eq.
Qed.
End loops.
