(* ===== verification/ShardBalance.v ===== *)
(** * ShardBalance: Join and Leave give balanced configurations

    The loop of [Join] moves one shard per pass.  While group 0 has shards they
    are handed out; afterwards every pass moves a shard from a largest to a
    smallest group that is at least two smaller, so the sum of the squares of
    the sizes decreases.  With [NShards] shards both phases together take at
    most 10 + 100 passes, less than [balanceFuel]. *)

From S2P Require Import Prelude ShardConfig ShardMaps.
Local Open Scope Z_scope.
Implicit Types g : gmap Z (list Z).

(** Every shard is in exactly one group. *)
Definition complete g : Prop := all_shards g ≡ₚ seqZ 0 NShards.

Definition same_keys g g' : Prop := forall k, is_Some (g' !! k) <-> is_Some (g !! k).

Definition even g : Prop := forall k k', k <> 0 -> k' <> 0 -> is_Some (g !! k) -> is_Some (g !! k') ->
  len (shards_at g k) <= len (shards_at g k') + 1.

Definition sq (l : list Z) : Z := len l * len l.

Lemma len_mjoin (ls : list (list Z)) : len (mjoin ls) = foldr Z.add 0 (len <$> ls).
Proof. induction ls as [|l ls IH]; simpl; [done|]. by rewrite len_app IH. Qed.

Lemma weight_len g : weight len g = len (all_shards g).
Proof. unfold all_shards. rewrite len_mjoin -list_fmap_compose. done. Qed.

Lemma complete_len g : complete g -> weight len g = NShards.
Proof. intros Hc. rewrite weight_len. unfold len. by rewrite Hc length_seqZ. Qed.

Lemma foldr_nonneg {A} (f : A -> Z) l : (forall x, 0 <= f x) -> 0 <= foldr Z.add 0 (f <$> l).
Proof. intros Hf. induction l as [|x l IH]; [done|]. rewrite fmap_cons. cbn [foldr]. specialize (Hf x). lia. Qed.

Lemma weight_nonneg f g : (forall l, 0 <= f l) -> 0 <= weight f g.
Proof. intros Hf. apply (foldr_nonneg (fun kl => f kl.2)). auto. Qed.

Lemma complete_at g k : complete g -> len (shards_at g k) <= NShards.
Proof.
  intros Hc%complete_len. rewrite (weight_at len g k) // in Hc.
  pose proof (weight_nonneg len (delete k g) len_nonneg). lia.
Qed.

Lemma weight_sq_le g : weight sq g <= weight len g * weight len g.
Proof.
  unfold weight. induction (map_to_list g) as [|[k l] kls IH]; [done|].
  rewrite !fmap_cons. cbn [foldr snd].
  pose proof (len_nonneg l). pose proof (foldr_nonneg (fun kl : Z * list Z => len kl.2) kls) as Hn.
  specialize (Hn (fun x => len_nonneg x.2)).
  set (A := foldr Z.add 0 ((fun kl => sq kl.2) <$> kls)) in *.
  set (B := foldr Z.add 0 ((fun kl => len kl.2) <$> kls)) in *. unfold sq. nia.
Qed.

(** Two groups whose sizes differ by two hold a bounded number of shards. *)
Lemma complete_nonempty g : complete g -> g <> ∅.
Proof. intros Hc ->. apply complete_len in Hc. by vm_compute in Hc. Qed.

Section balancing.
Context {mo : MapOrder}.

(** The state of the loop after moving a shard from [a] to [b]. *)
Definition moved g a b s rest : gmap Z (list Z) := <[a := rest]> (<[b := shards_at g b ++ [s]]> g).

Lemma balanceStep_move g s rest :
  let a := gidWithMaxShards g in let b := gidWithMinShards g in
  shards_at g a = s :: rest -> a <> b ->
  (a = 0 \/ len (shards_at g a) - len (shards_at g b) > 1) ->
  balanceStep g = Ret (Some (moved g a b s rest)).
Proof.
  simpl. intros Ha Hab Hcond. unfold balanceStep.
  replace (bool_decide _ && bool_decide _) with false.
  - rewrite {1}Ha. simpl. rewrite shards_at_insert bool_decide_false; [congruence|]. rewrite Ha. simpl. unfold slice_from.
    rewrite bool_decide_true //. rewrite len_cons. pose proof (len_nonneg rest). lia.
  - symmetry. apply andb_false_iff. rewrite !bool_decide_eq_false.
    destruct Hcond; [left; lia|right; lia].
Qed.

Lemma moved_keys g a b s rest :
  is_Some (g !! a) -> is_Some (g !! b) -> same_keys g (moved g a b s rest).
Proof.
  intros Ha Hb k. unfold moved. rewrite !lookup_insert_is_Some'. naive_solver.
Qed.

Lemma moved_complete g a b s rest :
  shards_at g a = s :: rest -> a <> b -> complete g -> complete (moved g a b s rest).
Proof. intros Ha Hab Hc. unfold complete. rewrite -Hc. by apply moved_all_shards. Qed.

(** While group 0 has shards. *)
Lemma balanceStep_zero g k0 :
  complete g -> is_Some (g !! k0) -> k0 <> 0 -> shards_at g 0 <> [] ->
  exists g', balanceStep g = Ret (Some g') /\ complete g' /\ same_keys g g' /\
    len (shards_at g' 0) = len (shards_at g 0) - 1.
Proof.
  intros Hc Hk0 Hne Hz. pose proof (gidWithMax_zero g Hz) as Hmax.
  destruct (gidWithMin_spec g k0 Hk0 Hne (complete_at g k0 Hc)) as (Hmin & Hmin0 & _).
  destruct (shards_at g 0) as [|s rest] eqn:H0; [done|].
  exists (moved g 0 (gidWithMinShards g) s rest). split_and!.
  - pose proof (balanceStep_move g s rest) as Hmove. rewrite Hmax in Hmove. apply Hmove; auto.
  - apply moved_complete; auto.
  - apply moved_keys; [|done]. unfold shards_at in H0. by destruct (g !! 0).
  - unfold moved. rewrite moved_at // bool_decide_true // len_cons. lia.
Qed.

(** Afterwards: either the groups are even, or the sum of squares decreases. *)
Lemma balanceStep_spread g k0 :
  complete g -> is_Some (g !! k0) -> k0 <> 0 -> shards_at g 0 = [] ->
  (balanceStep g = Ret None /\ even g) \/
  exists g', balanceStep g = Ret (Some g') /\ complete g' /\ same_keys g g' /\
    shards_at g' 0 = [] /\ weight sq g' < weight sq g.
Proof.
  intros Hc Hk0 Hne Hz. destruct (gidWithMax_spec g Hz (complete_nonempty g Hc)) as [Hmax Hle].
  destruct (gidWithMin_spec g k0 Hk0 Hne (complete_at g k0 Hc)) as (Hmin & Hmin0 & Hge).
  set (a := gidWithMaxShards g) in *. set (b := gidWithMinShards g) in *.
  assert (0 < len (shards_at g a)) as Hpos.
  { destruct (all_shards g) as [|s l] eqn:Hall; [by apply complete_len in Hc; rewrite weight_len Hall in Hc|].
    assert (s ∈ all_shards g) as Hs by (rewrite Hall; left).
    apply elem_of_all_shards in Hs as [k Hs]. specialize (Hle k).
    destruct (shards_at g k) as [|x l']; [by apply elem_of_nil in Hs|].
    rewrite len_cons in Hle. pose proof (len_nonneg l'). lia. }
  assert (a <> 0) as Ha0 by (intros Ha; rewrite Ha Hz len_nil in Hpos; lia).
  destruct (decide (len (shards_at g a) - len (shards_at g b) <= 1)) as [Hd|Hd].
  - left. split.
    + unfold balanceStep. fold a b. by rewrite !bool_decide_true.
    + intros k k' Hk Hk' _ Hs'. specialize (Hge k' Hs' Hk'). specialize (Hle k). lia.
  - right. destruct (shards_at g a) as [|s rest] eqn:Has; [by rewrite len_nil in Hpos|].
    assert (a <> b) as Hab by (intros Heq; rewrite -Heq Has in Hd; lia).
    exists (moved g a b s rest). split_and!.
    + apply balanceStep_move; [done|done|]. right. fold a b. rewrite Has. lia.
    + by apply moved_complete.
    + by apply moved_keys.
    + unfold moved. rewrite moved_at // !bool_decide_false //.
    + unfold moved. rewrite (moved_weight g a b s rest Has Hab sq) //. unfold sq.
      rewrite len_app !len_cons len_nil. rewrite len_cons in Hd. lia.
Qed.

Lemma balance_spread fuel g k0 :
  complete g -> is_Some (g !! k0) -> k0 <> 0 -> shards_at g 0 = [] ->
  weight sq g < Z.of_nat fuel ->
  exists g', balance fuel g = Ret g' /\ complete g' /\ same_keys g g' /\ shards_at g' 0 = [] /\ even g'.
Proof.
  revert g. induction fuel as [|fuel IH]; intros g Hc Hk0 Hne Hz Hf.
  { pose proof (weight_nonneg sq g) as Hn. unfold sq in Hn at 1. specialize (Hn (fun l => Z.square_nonneg _)). lia. }
  simpl. destruct (balanceStep_spread g k0 Hc Hk0 Hne Hz) as [[-> He]|(g1 & -> & Hc1 & Hs1 & Hz1 & Hw1)]; simpl.
  - exists g. split_and!; done.
  - destruct (IH g1) as (g' & Hb & Hc' & Hs' & Hz' & He'); [done|by apply Hs1|done|done|lia|].
    exists g'. split_and!; try done. intros k. by rewrite Hs' Hs1.
Qed.

Lemma balance_total fuel g k0 :
  complete g -> is_Some (g !! k0) -> k0 <> 0 -> len (shards_at g 0) + 100 < Z.of_nat fuel ->
  exists g', balance fuel g = Ret g' /\ complete g' /\ same_keys g g' /\ shards_at g' 0 = [] /\ even g'.
Proof.
  revert g. induction fuel as [|fuel IH]; intros g Hc Hk0 Hne Hf; [pose proof (len_nonneg (shards_at g 0)); lia|].
  destruct (decide (shards_at g 0 = [])) as [Hz|Hz].
  - eapply balance_spread; eauto. pose proof (weight_sq_le g) as Hw. rewrite (complete_len g Hc) in Hw.
    rewrite Hz len_nil in Hf. unfold NShards in Hw. lia.
  - simpl. destruct (balanceStep_zero g k0 Hc Hk0 Hne Hz) as (g1 & -> & Hc1 & Hs1 & Hl1). simpl.
    destruct (IH g1) as (g' & Hb & Hc' & Hs' & Hz' & He'); [done|by apply Hs1|done|lia|].
    exists g'. split_and!; try done. intros k. by rewrite Hs' Hs1.
Qed.

(** Determinism of the loop. *)
Lemma balance_complete fuel g g' : complete g -> balance fuel g = Ret g' -> complete g'.
Proof.
  revert g. induction fuel as [|fuel IH]; intros g Hc Hb; simpl in Hb; [done|]. inv_ret.
  destruct v as [g1|]; [|by inv_ret]. apply (IH g1); [|done]. unfold balanceStep in Hm.
  destruct (bool_decide _ && bool_decide _) eqn:Hcond; inv_ret.
  set (a := gidWithMaxShards g) in *. set (b := gidWithMinShards g) in *.
  destruct (decide (a = b)) as [Hab|Hab].
  - rewrite Hab shards_at_insert bool_decide_true // in Hm. rewrite Hab in Hm0 |- *.
    destruct (shards_at g b) as [|x l] eqn:Hl; [done|]. apply slice_get_ret in Hm0 as [_ [= <-]].
    apply slice_from_ret in Hm as [_ ->]. simpl. rewrite insert_insert_eq. unfold complete.
    rewrite all_shards_insert -Hc (all_shards_at g b) Hl. solve_Permutation.
  - rewrite shards_at_insert bool_decide_false in Hm; [congruence|].
    destruct (shards_at g a) as [|x l] eqn:Hl; [done|]. apply slice_get_ret in Hm0 as [_ [= <-]].
    apply slice_from_ret in Hm as [_ ->]. by apply (moved_complete g a b x l).
Qed.
End balancing.

Lemma balance_order (mo1 mo2 : MapOrder) fuel g :
  balance (mo:=mo1) fuel g = balance (mo:=mo2) fuel g.
Proof.
  revert g. induction fuel as [|fuel IH]; intros g; simpl; [done|].
  unfold balanceStep. rewrite (gidWithMax_order mo1 mo2) (gidWithMin_order mo1 mo2).
  destruct (_ && _); simpl; [done|]. destruct (slice_get _ _); simpl; [|done].
  destruct (slice_from _ _); simpl; [|done]. apply IH.
Qed.

Lemma storeShards_order (mo1 mo2 : MapOrder) g :
  complete g -> storeShards (mo:=mo1) g = storeShards (mo:=mo2) g.
Proof.
  intros Hc. destruct (storeShards_spec (mo:=mo1) g Hc) as (a1 & -> & Hl1 & H1).
  destruct (storeShards_spec (mo:=mo2) g Hc) as (a2 & -> & Hl2 & H2). f_equal.
  apply list_eq. intros i. apply option_eq. intros k.
  specialize (H1 (Z.of_nat i) k). specialize (H2 (Z.of_nat i) k). rewrite Nat2Z.id in H1, H2.
  assert (0 <= Z.of_nat i) by lia. naive_solver.
Qed.
