(* ===== verification/ShardTheorems.v ===== *)
(** * ShardTheorems: what the shard controller guarantees

    [config_ok] is the invariant of a configuration: every shard belongs to a
    group of the configuration, or there are no groups and every shard belongs
    to the invalid group 0.  [Join], [Leave] and [Move] to an existing group
    keep it; [Join] gives a balanced configuration and [Leave] keeps a balanced
    one balanced, moving only the shards of the groups that leave.  The result
    of every operation is the same on every replica, whatever the order in
    which its maps are visited. *)

From S2P Require Import Prelude ShardConfig ShardMaps ShardBalance.
Local Open Scope Z_scope.
Implicit Types (g : gmap Z (list Z)) (c : Config) (csm : CtrlerStateMachine).

#[local] Arguments balance : simpl never.
#[local] Arguments balanceFuel : simpl never.

Record config_ok c : Prop := {
  ok_length : len (Shards c) = NShards;
  ok_zero : Groups c !! 0 = None;
  ok_owner gid : gid ∈ Shards c -> is_Some (Groups c !! gid) \/ (Groups c = ∅ /\ gid = 0);
}.

Definition count c (gid : Z) : Z := len (filter (gid =.) (Shards c)).

Definition balanced c : Prop := forall k k', is_Some (Groups c !! k) -> is_Some (Groups c !! k') ->
  count c k <= count c k' + 1.

(** ** Counting *)

Lemma place_count g ps k :
  len (shards_at (place g ps) k) = len (shards_at g k) + len (filter (k =.) ps.*2).
Proof.
  revert g. induction ps as [|[s x] ps IH]; intros g; [simpl; rewrite len_nil; lia|].
  change (place g ((s, x) :: ps)) with (place (<[x := shards_at g x ++ [s]]> g) ps).
  rewrite IH shards_at_insert fmap_cons filter_cons. cbn [snd].
  case_bool_decide as Hx; case_decide; try congruence; rewrite ?len_app ?len_cons ?len_nil; subst; lia.
Qed.

(** The size of a group of a complete map is its count in the array. *)
Lemma count_at g (a : list Z) k :
  complete g -> len a = NShards ->
  (forall s k, s ∈ shards_at g k <-> 0 <= s /\ a !! Z.to_nat s = Some k) ->
  len (filter (k =.) a) = len (shards_at g k).
Proof.
  intros Hc Hl Hg. destruct (makeGidToShards_spec ∅ a) as (Hall & _ & Hat).
  assert (shards_at g k ≡ₚ shards_at (makeGidToShards ∅ a) k) as Hp.
  { apply NoDup_Permutation.
    - assert (NoDup (all_shards g)) as Hnd by (rewrite Hc; apply NoDup_seqZ).
      rewrite (all_shards_at g k) in Hnd. by apply NoDup_app in Hnd as [? _].
    - assert (NoDup (all_shards (makeGidToShards ∅ a))) as Hnd by (rewrite Hall; apply NoDup_seqZ).
      rewrite (all_shards_at _ k) in Hnd. by apply NoDup_app in Hnd as [? _].
    - intros s. by rewrite Hg Hat. }
  unfold len at 2. rewrite Hp. fold (len (shards_at (makeGidToShards ∅ a) k)).
  rewrite makeGidToShards_place place_count emptyGroups_at len_nil imap_gids. lia.
Qed.

(** A complete map over the groups of [c], stored, is a good configuration. *)
Lemma stored_ok g (a : list Z) c :
  complete g -> len a = NShards -> Shards c = a ->
  (forall s k, s ∈ shards_at g k <-> 0 <= s /\ a !! Z.to_nat s = Some k) ->
  Groups c !! 0 = None ->
  (forall k s, s ∈ shards_at g k -> is_Some (Groups c !! k)) -> config_ok c.
Proof.
  intros Hc Hl HS Hg Hz Hgr. constructor; [by rewrite HS|done|].
  intros gid [i Hi]%list_elem_of_lookup_1. rewrite HS in Hi. left.
  apply (Hgr gid (Z.of_nat i)), Hg. rewrite Nat2Z.id. split; [lia|done].
Qed.

Lemma stored_balanced g (a : list Z) c :
  complete g -> len a = NShards -> Shards c = a ->
  (forall s k, s ∈ shards_at g k <-> 0 <= s /\ a !! Z.to_nat s = Some k) ->
  Groups c !! 0 = None -> (forall k, is_Some (Groups c !! k) -> is_Some (g !! k)) ->
  even g -> balanced c.
Proof.
  intros Hc Hl HS Hg Hz Hk He k k' H1 H2. unfold count. rewrite HS !(count_at g) //.
  apply He; auto; intros ->; rewrite Hz in H1, H2; by destruct H1, H2.
Qed.

(** ** Join *)

Section operations.
Context {mo : MapOrder}.

Lemma complete_make groups shards : len shards = NShards -> complete (makeGidToShards groups shards).
Proof. intros Hl. unfold complete. destruct (makeGidToShards_spec groups shards) as (-> & _). by rewrite Hl. Qed.

Lemma Join_spec csm groups last :
  lastConfig csm = Ret last -> config_ok last -> groups !! 0 = None -> Groups last ∪ groups <> ∅ ->
  exists c, Join csm groups = Ret (OK, addConfig csm c) /\ Num c = len (Configs csm) /\
    Groups c = Groups last ∪ groups /\ config_ok c /\ balanced c.
Proof.
  intros Hlast [Hl Hz Hown] Hgz Hne. unfold Join. rewrite Hlast /= joinGroups_union.
  set (gs := Groups last ∪ groups) in *.
  assert (gs !! 0 = None) as Hgs0 by (unfold gs; by rewrite lookup_union_None).
  pose proof (complete_make gs _ Hl) as Hc. destruct (makeGidToShards_spec gs (Shards last)) as (_ & Hkeys & _).
  set (g := makeGidToShards gs (Shards last)) in *.
  apply map_choose in Hne as (k0 & l0 & Hk0).
  assert (k0 <> 0) as Hk00 by congruence.
  assert (is_Some (g !! k0)) as Hgk0 by (apply Hkeys; left; eauto).
  destruct (balance_total balanceFuel g k0 Hc Hgk0 Hk00) as (g' & Hb & Hc' & Hs' & Hz' & He').
  { pose proof (complete_at g 0 Hc). unfold NShards, balanceFuel in *. lia. }
  rewrite Hb /=. destruct (storeShards_spec g' Hc') as (a & -> & Hla & Ha). simpl.
  assert (len a = NShards) as Hla' by (unfold len; rewrite Hla; done).
  eexists. split; [done|]. simpl. split_and!; [done|done| |].
  - apply (stored_ok g' a); try done. simpl. intros k s Hs.
    destruct (decide (k = 0)) as [->|Hk]; [by rewrite Hz' in Hs; apply elem_of_nil in Hs|].
    assert (is_Some (g' !! k)) as Hk'.
    { unfold shards_at in Hs. destruct (g' !! k); [eauto|by apply elem_of_nil in Hs]. }
    apply Hs', Hkeys in Hk' as [?|[?|[_ ?]]%Hown]; [done| |done].
    unfold gs. rewrite lookup_union_is_Some. by left.
  - apply (stored_balanced g' a); try done. simpl. intros k Hk. apply Hs', Hkeys. by left.
Qed.

(** ** Leave *)

Lemma leaveGroups_spec gids groups g :
  forall groups' g' un, leaveGroups gids groups g = (groups', g', un) ->
  (forall k, groups' !! k = if bool_decide (k ∈ gids) then None else groups !! k) /\
  (forall k, g' !! k = if bool_decide (k ∈ gids) then None else g !! k) /\
  all_shards g ≡ₚ all_shards g' ++ un.
Proof.
  unfold leaveGroups.
  assert (forall un0 groups' g' un, foldl (fun '(groups, g, unassigned) gid =>
    let groups := delete gid groups in
    match g !! gid with
    | Some shards => (groups, delete gid g, unassigned ++ shards)
    | None => (groups, g, unassigned)
    end) (groups, g, un0) gids = (groups', g', un) ->
    (forall k, groups' !! k = if bool_decide (k ∈ gids) then None else groups !! k) /\
    (forall k, g' !! k = if bool_decide (k ∈ gids) then None else g !! k) /\
    all_shards g ++ un0 ≡ₚ all_shards g' ++ un) as H.
  { revert groups g. induction gids as [|x gids IH]; intros groups g un0 groups' g' un H; simpl in H.
    { injection H as <- <- <-. split_and!; [..|done]; intros k; by rewrite bool_decide_false; [apply not_elem_of_nil|]. }
    assert (forall A (m m1 m2 : gmap Z A), m1 = delete x m ->
      (forall k, m2 !! k = if bool_decide (k ∈ gids) then None else m1 !! k) ->
      forall k, m2 !! k = if bool_decide (k ∈ x :: gids) then None else m !! k) as Hcons.
    { intros A m m1 m2 -> Hm2 k. rewrite Hm2. destruct (decide (k ∈ gids)) as [Hin|Hin].
      { rewrite !bool_decide_true //. by right. }
      rewrite (bool_decide_false (k ∈ gids)) //. destruct (decide (k = x)) as [->|Hne].
      - rewrite lookup_delete_eq (bool_decide_true (x ∈ x :: gids)) //. by left.
      - rewrite lookup_delete_ne; [congruence|]. rewrite (bool_decide_false (k ∈ x :: gids)) //. by intros [?|?]%elem_of_cons. }
    destruct (g !! x) as [l|] eqn:Hx; apply IH in H as (H1 & H2 & H3); split_and!;
      try (by eapply Hcons; [|exact H1]); try (by eapply Hcons; [|exact H2]).
    - rewrite -H3 (all_shards_at g x). unfold shards_at. rewrite Hx /=. solve_Permutation.
    - by eapply Hcons; [symmetry; by apply delete_id|exact H2].
    - done. }
  intros groups' g' un Heq. apply H in Heq as (? & ? & Heq). by rewrite app_nil_r in Heq.
Qed.

Lemma assign_even g s :
  (forall k, is_Some (g !! k) -> k <> 0 -> len (shards_at g (gidWithMinShards g)) <= len (shards_at g k)) ->
  is_Some (g !! gidWithMinShards g) -> gidWithMinShards g <> 0 ->
  even g -> even (<[gidWithMinShards g := shards_at g (gidWithMinShards g) ++ [s]]> g).
Proof.
  intros Hmin Hsome Hnz He k k' Hk Hk'. set (m := gidWithMinShards g) in *.
  rewrite !lookup_insert_is_Some' !shards_at_insert.
  assert (is_Some (g !! k) -> len (shards_at g k) <= len (shards_at g m) + 1) as H1 by (intros; by apply He).
  assert (is_Some (g !! k') -> len (shards_at g m) <= len (shards_at g k')) as H2 by auto.
  assert (is_Some (g !! k) -> is_Some (g !! k') -> len (shards_at g k) <= len (shards_at g k') + 1) as H3
    by (intros; by apply He).
  pose proof (len_nonneg (shards_at g m)).
  repeat case_bool_decide; rewrite ?len_app ?len_cons ?len_nil; subst; intros [?|?] [?|?];
    try congruence; try lia; try (specialize (H1 ltac:(assumption))); try (specialize (H2 ltac:(assumption))); try lia.
Qed.

Lemma reassign_spec g un k0 :
  is_Some (g !! k0) -> k0 <> 0 -> len (all_shards g) + len un <= NShards ->
  let g' := reassign g un in
  all_shards g' ≡ₚ all_shards g ++ un /\ same_keys g g' /\
  (forall k s, s ∈ shards_at g k -> s ∈ shards_at g' k) /\
  shards_at g' 0 = shards_at g 0 /\ (even g -> even g').
Proof.
  revert g. induction un as [|x un IH]; intros g Hk0 Hne Hlen; simpl.
  { rewrite app_nil_r. split_and!; try done. }
  rewrite len_cons in Hlen. pose proof (len_nonneg un) as Hun.
  assert (len (shards_at g k0) <= NShards) as Hle.
  { assert (len (all_shards g) = len (shards_at g k0) + len (all_shards (delete k0 g))) as Heq
      by (rewrite -len_app; unfold len; by rewrite {1}(all_shards_at g k0)).
    pose proof (len_nonneg (all_shards (delete k0 g))). lia. }
  destruct (gidWithMin_spec g k0 Hk0 Hne Hle) as (Hsome & Hnz & Hmin).
  set (m := gidWithMinShards g) in *. set (g1 := <[m := shards_at g m ++ [x]]> g).
  assert (all_shards g1 ≡ₚ all_shards g ++ [x]) as Hall1.
  { unfold g1. rewrite all_shards_insert (all_shards_at g m). solve_Permutation. }
  assert (same_keys g g1) as Hs1 by (intros k; unfold g1; rewrite lookup_insert_is_Some'; naive_solver).
  destruct (IH g1) as (Hall & Hs & Hmono & Hz & He); [by apply Hs1|done| |].
  { unfold len. rewrite Hall1 length_app /=. unfold len in Hlen. lia. }
  split_and!.
  - rewrite Hall Hall1. solve_Permutation.
  - intros k. by rewrite Hs Hs1.
  - intros k s Hs'. apply Hmono. unfold g1. rewrite shards_at_insert. case_bool_decide; subst; [set_solver|done].
  - rewrite Hz. unfold g1. by rewrite shards_at_insert bool_decide_false.
  - intros Hev. apply He. by apply assign_even.
Qed.

Lemma at_some g k s : s ∈ shards_at g k -> is_Some (g !! k).
Proof. unfold shards_at. destruct (g !! k); [eauto|]. by intros ?%elem_of_nil. Qed.

(** The map of a configuration with groups. *)
Lemma config_map last :
  config_ok last -> Groups last <> ∅ ->
  let g := makeGidToShards (Groups last) (Shards last) in
  complete g /\ (forall k, is_Some (g !! k) <-> is_Some (Groups last !! k)) /\
  (balanced last -> even g).
Proof.
  intros [Hl Hz Hown] Hne. simpl. pose proof (complete_make (Groups last) _ Hl) as Hc.
  destruct (makeGidToShards_spec (Groups last) (Shards last)) as (_ & Hkeys & Hat).
  assert (forall k, is_Some (makeGidToShards (Groups last) (Shards last) !! k) <->
    is_Some (Groups last !! k)) as Hk.
  { intros k. rewrite Hkeys. split; [|by left]. intros [?|[?|[? _]]%Hown]; done. }
  split_and!; [done|done|]. intros Hb k k' _ _ H1%Hk H2%Hk. specialize (Hb k k' H1 H2).
  unfold count in Hb.
  by rewrite !(count_at (makeGidToShards (Groups last) (Shards last)) (Shards last)) // in Hb.
Qed.

(** The shards that stay and those that are handed out again. *)
Lemma leave_reassigned last gids groups' g' un :
  config_ok last -> Groups last <> ∅ -> groups' <> ∅ ->
  leaveGroups gids (Groups last) (makeGidToShards (Groups last) (Shards last)) = (groups', g', un) ->
  exists a, storeShards (reassign g' un) = Ret a /\
    forall c, Shards c = a -> Groups c = groups' ->
      config_ok c /\ (balanced last -> balanced c) /\
      forall i k, Shards last !! i = Some k -> k ∉ gids -> Shards c !! i = Some k.
Proof.
  intros Hok Hne Hne' Hlv. destruct (config_map last Hok Hne) as (Hc & Hk & Heven).
  destruct (makeGidToShards_spec (Groups last) (Shards last)) as (_ & _ & Hat).
  set (g := makeGidToShards _ _) in *.
  apply leaveGroups_spec in Hlv as (Hgr & Hg' & Hall).
  assert (forall k, is_Some (g' !! k) <-> is_Some (groups' !! k)) as Hk'.
  { intros k. rewrite Hg' Hgr. case_bool_decide; [split; by intros [? ?]|apply Hk]. }
  assert (groups' !! 0 = None) as Hz' by (rewrite Hgr (ok_zero _ Hok); by case_bool_decide).
  apply map_choose in Hne' as (k0 & l0 & Hk0).
  assert (k0 <> 0) as Hk00 by congruence.
  assert (len (all_shards g') + len un = NShards) as Hsum.
  { rewrite -len_app. unfold len. rewrite -Hall Hc. by rewrite length_seqZ. }
  destruct (reassign_spec g' un k0) as (Hall2 & Hs2 & Hmono & Hz2 & He2); [apply Hk'; eauto|done|lia|].
  assert (complete (reassign g' un)) as Hc2 by (unfold complete; by rewrite Hall2 -Hall Hc).
  destruct (storeShards_spec _ Hc2) as (a & Ha & Hla & Hown2). exists a. split; [done|].
  assert (len a = NShards) as Hla' by (unfold len; rewrite Hla; done).
  intros c HS HG. split_and!.
  - apply (stored_ok (reassign g' un) a); try done; rewrite HG; [done|].
    intros k s ?%at_some%Hs2. by apply Hk'.
  - intros Hb%Heven. apply (stored_balanced (reassign g' un) a); try done; rewrite ?HG; [done| |].
    + intros k ?. by apply Hs2, Hk'.
    + apply He2. intros k k' Hkz Hkz' H1 H2. unfold shards_at. rewrite Hg' in H1 |- *. rewrite Hg' in H2 |- *.
      repeat case_bool_decide; try (by destruct H1); try (by destruct H2). by apply Hb.
  - intros i k Hi Hnk. rewrite HS. assert (Z.of_nat i ∈ shards_at g k) as Hin.
    { apply Hat. rewrite Nat2Z.id. split; [lia|done]. }
    assert (Z.of_nat i ∈ shards_at g' k) as Hin'.
    { unfold shards_at in *. by rewrite Hg' bool_decide_false. }
    apply Hmono, Hown2 in Hin' as [_ Hin']. by rewrite Nat2Z.id in Hin'.
Qed.

Lemma Leave_spec csm gids last :
  lastConfig csm = Ret last -> config_ok last ->
  exists c, Leave csm gids = Ret (OK, addConfig csm c) /\ Num c = len (Configs csm) /\
    (forall k, Groups c !! k = if bool_decide (k ∈ gids) then None else Groups last !! k) /\
    config_ok c /\ (balanced last -> balanced c) /\
    forall i k, Shards last !! i = Some k -> k ∉ gids -> Shards c !! i = Some k.
Proof.
  intros Hlast Hok. unfold Leave. rewrite Hlast /= copyGroups_id.
  destruct (leaveGroups gids (Groups last) (makeGidToShards (Groups last) (Shards last)))
    as [[groups' g'] un] eqn:Hlv.
  pose proof (leaveGroups_spec _ _ _ _ _ _ Hlv) as (Hgr & _ & _).
  case_bool_decide as Hsz.
  - assert (groups' <> ∅) as Hne' by (intros ->; by rewrite map_size_empty in Hsz).
    assert (Groups last <> ∅) as Hne.
    { intros Hem. apply Hne', map_empty. intros k. rewrite Hgr Hem lookup_empty. by case_bool_decide. }
    destruct (leave_reassigned _ _ _ _ _ Hok Hne Hne' Hlv) as (a & -> & Hpost). simpl.
    eexists. split; [done|]. simpl. destruct (Hpost (mkConfig (len (Configs csm)) a groups') eq_refl eq_refl)
      as (? & ? & ?). by split_and!.
  - simpl. eexists. split; [done|]. simpl.
    assert (groups' = ∅) as Hem by (apply map_size_empty_inv; lia).
    split_and!; [done|done| | |].
    + constructor; simpl; [done|by rewrite Hem lookup_empty|].
      intros gid Hg. right. split; [done|]. unfold zeroShards in Hg.
      by apply elem_of_replicate in Hg as [? _].
    + intros _ k k' [? Hk]. simpl in Hk. by rewrite Hem lookup_empty in Hk.
    + intros i k Hi Hk. destruct (ok_owner _ Hok k) as [Hs|[_ ->]]; [eapply list_elem_of_lookup_2; eauto| |].
      * exfalso. specialize (Hgr k). rewrite Hem lookup_empty bool_decide_false // in Hgr.
        rewrite -Hgr in Hs. by destruct Hs.
      * apply lookup_replicate. split; [done|]. apply lookup_lt_Some in Hi.
        pose proof (ok_length _ Hok) as Hl. unfold len in Hl. lia.
Qed.

Lemma Move_spec csm shardid gid last :
  lastConfig csm = Ret last -> config_ok last -> 0 <= shardid < NShards -> is_Some (Groups last !! gid) ->
  exists c, Move csm shardid gid = Ret (OK, addConfig csm c) /\ Num c = len (Configs csm) /\
    Groups c = Groups last /\ config_ok c /\
    (forall i, Shards c !! i = if bool_decide (Z.of_nat i = shardid) then Some gid else Shards last !! i).
Proof.
  intros Hlast [Hl Hz Hown] Hs Hg. unfold Move. rewrite Hlast /= copyGroups_id.
  unfold slice_set. rewrite bool_decide_true; [lia|]. simpl. eexists. split; [done|]. simpl.
  split_and!; [done|done| |].
  - constructor; simpl; [by rewrite len_insert|done|].
    intros k [i Hi]%list_elem_of_lookup_1.
    apply list_lookup_insert_Some in Hi as [(_ & <- & _)|[_ Hi]]; [by left|].
    apply Hown. eapply list_elem_of_lookup_2; eauto.
  - intros i. unfold len in Hl. case_bool_decide as Hi; subst.
    + rewrite Nat2Z.id. apply list_lookup_insert_eq. lia.
    + apply list_lookup_insert_ne. lia.
Qed.
End operations.

(** ** The operations as one state machine *)

Inductive CtrlerOp :=
| CJoin (groups : gmap Z (list string))
| CLeave (gids : list Z)
| CMove (shard gid : Z).

Definition perform (mo : MapOrder) csm (op : CtrlerOp) : outcome (Err * CtrlerStateMachine) :=
  match op with
  | CJoin groups => Join csm groups
  | CLeave gids => Leave csm gids
  | CMove shard gid => Move csm shard gid
  end.

Definition exec (mo : MapOrder) csm (op : CtrlerOp) : outcome CtrlerStateMachine :=
  snd <$> perform mo csm op.

(** A replica chooses an order for every operation. *)
Fixpoint exec_all csm (ops : list (MapOrder * CtrlerOp)) : outcome CtrlerStateMachine :=
  match ops with
  | [] => Ret csm
  | (mo, op) :: ops => csm ← exec mo csm op; exec_all csm ops
  end.

(** Requests that name real groups. *)
Definition valid_op (last : Config) (op : CtrlerOp) : Prop :=
  match op with
  | CJoin groups => groups !! 0 = None /\ Groups last ∪ groups <> ∅
  | CLeave _ => True
  | CMove shard gid => 0 <= shard < NShards /\ is_Some (Groups last !! gid)
  end.

Inductive ctrler_reachable : CtrlerStateMachine -> Prop :=
| reach_new : ctrler_reachable NewCtrlerStateMachine
| reach_op csm last mo op csm' :
    ctrler_reachable csm -> lastConfig csm = Ret last -> valid_op last op ->
    exec mo csm op = Ret csm' -> ctrler_reachable csm'.

(** The numbering of the configurations. *)
Record history_ok csm : Prop := {
  ho_ok : Forall config_ok (Configs csm);
  ho_num i c : Configs csm !! i = Some c -> Num c = Z.of_nat i;
  ho_nonempty : Configs csm <> [];
}.

Lemma addConfig_ok csm c :
  history_ok csm -> config_ok c -> Num c = len (Configs csm) -> history_ok (addConfig csm c).
Proof.
  intros [Hf Hn Hne] Hc Hnum. constructor; simpl.
  - apply Forall_app. by rewrite Forall_singleton.
  - intros i c' [?|[Hge Hi]]%lookup_app_Some; [by apply Hn|].
    apply list_lookup_singleton_Some in Hi as [Hi <-]. rewrite Hnum. unfold len. lia.
  - by destruct (Configs csm).
Qed.

Lemma lastConfig_Some csm last : lastConfig csm = Ret last -> last ∈ Configs csm.
Proof. intros [_ H]%slice_get_ret. eapply list_elem_of_lookup_2; eauto. Qed.

Lemma exec_addConfig mo csm op last csm' :
  lastConfig csm = Ret last -> config_ok last -> valid_op last op -> exec mo csm op = Ret csm' ->
  exists c, csm' = addConfig csm c /\ config_ok c /\ Num c = len (Configs csm).
Proof.
  intros Hl Hok Hv He. destruct op; simpl in Hv; unfold exec, perform in He; simpl in He.
  - destruct Hv as [Hz Hne]. destruct (Join_spec csm groups last Hl Hok Hz Hne) as (c & HJ & ? & _ & ? & _).
    rewrite HJ in He. simpl in He. injection He as <-. eauto.
  - destruct (Leave_spec csm gids last Hl Hok) as (c & HJ & ? & _ & ? & _).
    rewrite HJ in He. simpl in He. injection He as <-. eauto.
  - destruct Hv as [Hs Hg]. destruct (Move_spec csm shard gid last Hl Hok Hs Hg) as (c & HJ & ? & _ & ? & _).
    rewrite HJ in He. simpl in He. injection He as <-. eauto.
Qed.

Lemma DefaultConfig_ok : config_ok DefaultConfig.
Proof.
  constructor; simpl; [done|done|]. intros gid Hg. right. split; [done|].
  unfold zeroShards in Hg. by apply elem_of_replicate in Hg as [? _].
Qed.

Lemma reachable_history csm : ctrler_reachable csm -> history_ok csm.
Proof.
  induction 1 as [|csm last mo op csm' _ IH Hl Hv He].
  - constructor; simpl; [|..|done].
    + apply Forall_singleton. apply DefaultConfig_ok.
    + intros i c [-> <-]%list_lookup_singleton_Some. done.
  - assert (config_ok last) as Hok.
    { eapply Forall_forall; [apply (ho_ok _ IH)|]. by apply lastConfig_Some. }
    destruct (exec_addConfig _ _ _ _ _ Hl Hok Hv He) as (c & -> & ? & ?). by apply addConfig_ok.
Qed.

(** ** Independence of the order of the maps *)

Definition sized csm : Prop := forall last, lastConfig csm = Ret last -> len (Shards last) = NShards.

Lemma makeGidToShards_order mo1 mo2 groups shards :
  makeGidToShards (mo:=mo1) groups shards = makeGidToShards (mo:=mo2) groups shards.
Proof. by rewrite !makeGidToShards_place. Qed.

Lemma reassign_order mo1 mo2 g un : reassign (mo:=mo1) g un = reassign (mo:=mo2) g un.
Proof.
  revert g. induction un as [|x un IH]; intros g; simpl; [done|]. by rewrite (gidWithMin_order mo1 mo2) IH.
Qed.

Lemma reassign_shards {mo : MapOrder} g un : all_shards (reassign g un) ≡ₚ all_shards g ++ un.
Proof.
  revert g. induction un as [|x un IH]; intros g; simpl; [by rewrite app_nil_r|].
  rewrite IH all_shards_insert (all_shards_at g (gidWithMinShards g)). solve_Permutation.
Qed.

Lemma Leave_complete {mo : MapOrder} gids groups shards groups' g' un :
  len shards = NShards ->
  leaveGroups gids groups (makeGidToShards groups shards) = (groups', g', un) -> complete (reassign g' un).
Proof.
  intros Hl (_ & _ & Hall)%leaveGroups_spec. unfold complete.
  by rewrite reassign_shards -Hall (complete_make groups shards Hl).
Qed.

Lemma perform_order mo1 mo2 csm op : sized csm -> perform mo1 csm op = perform mo2 csm op.
Proof.
  intros Hsz. destruct op; unfold perform.
  - unfold Join. destruct (lastConfig csm) as [last|] eqn:Hl; [|done]. simpl.
    rewrite !joinGroups_union (makeGidToShards_order mo1 mo2) (balance_order mo1 mo2).
    destruct (balance _ _) as [g'|] eqn:Hb; [|done]. simpl.
    apply balance_complete in Hb; [|by apply complete_make, Hsz].
    by rewrite (storeShards_order mo1 mo2 g' Hb).
  - unfold Leave. destruct (lastConfig csm) as [last|] eqn:Hl; [|done]. simpl.
    rewrite !copyGroups_id (makeGidToShards_order mo1 mo2).
    destruct (leaveGroups _ _ _) as [[groups' g'] un] eqn:Hlv.
    pose proof (Leave_complete _ _ _ _ _ _ (Hsz _ Hl) Hlv) as Hc.
    by rewrite (reassign_order mo1 mo2) (storeShards_order mo1 mo2 _ Hc).
  - unfold Move. destruct (lastConfig csm) as [last|]; [|done]. simpl. by rewrite !copyGroups_id.
Qed.

Lemma exec_order mo1 mo2 csm op : sized csm -> exec mo1 csm op = exec mo2 csm op.
Proof. intros Hsz. unfold exec. by rewrite (perform_order mo1 mo2). Qed.

Lemma lastConfig_add csm c : lastConfig (addConfig csm c) = Ret c.
Proof.
  unfold lastConfig. apply slice_get_ret. simpl. rewrite len_app len_cons len_nil.
  pose proof (len_nonneg (Configs csm)). split; [lia|].
  replace (Z.to_nat _) with (length (Configs csm)) by (unfold len; lia). by rewrite list_lookup_middle.
Qed.

Lemma exec_sized mo csm op csm' : sized csm -> exec mo csm op = Ret csm' -> sized csm'.
Proof.
  intros Hsz He. unfold exec in He. apply outcome_fmap_ret in He as ([e csm1] & Hm & ->). simpl.
  assert (exists c, csm1 = addConfig csm c /\ len (Shards c) = NShards) as (c & -> & Hc);
    [|intros last; rewrite lastConfig_add; by intros [= <-]].
  destruct op; cbn [perform] in Hm.
  - unfold Join in Hm. inv_ret. eexists. split; [done|]. simpl.
    apply balance_complete in Hm; [|by apply complete_make, Hsz].
    destruct (storeShards_spec v0 Hm) as (a & Ha & Hla & _). rewrite Ha in Hm1. inv_ret.
    unfold len. by rewrite Hla.
  - unfold Leave in Hm. inv_ret. rewrite copyGroups_id in Hk.
    destruct (leaveGroups _ _ _) as [[groups' g'] un] eqn:Hlv. inv_ret.
    eexists. split; [done|]. simpl. case_bool_decide; inv_ret; [|done].
    pose proof (Leave_complete _ _ _ _ _ _ (Hsz _ Hm0) Hlv) as Hc.
    destruct (storeShards_spec _ Hc) as (a & Ha & Hla & _). rewrite Ha in Hm. inv_ret.
    unfold len. by rewrite Hla.
  - unfold Move in Hm. inv_ret. eexists. split; [done|]. simpl.
    apply slice_set_ret in Hm as [_ ->]. rewrite len_insert. by apply Hsz.
Qed.

(** ** Theorems *)

(** C15. [Join] terminates and balances: from a good configuration, with at least
    one group afterwards, it appends a configuration with the old and the new
    groups in which every shard belongs to a group and the sizes of any two
    groups differ by at most one. *)
Theorem join_balances (mo : MapOrder) csm (groups : gmap Z (list string)) (last : Config) :
  lastConfig csm = Ret last -> config_ok last -> groups !! 0 = None -> Groups last ∪ groups <> ∅ ->
  exists c, Join csm groups = Ret (OK, addConfig csm c) /\ Num c = len (Configs csm) /\
    Groups c = Groups last ∪ groups /\ config_ok c /\ balanced c.
Proof. apply Join_spec. Qed.

(** C16. [Leave] removes exactly the groups it is given, leaves every shard of the
    other groups where it is, gives the shards of the leaving groups to the
    remaining ones, and keeps a balanced configuration balanced. *)
Theorem leave_reassigns (mo : MapOrder) csm (gids : list Z) (last : Config) :
  lastConfig csm = Ret last -> config_ok last ->
  exists c, Leave csm gids = Ret (OK, addConfig csm c) /\ Num c = len (Configs csm) /\
    (forall k, Groups c !! k = if bool_decide (k ∈ gids) then None else Groups last !! k) /\
    config_ok c /\ (balanced last -> balanced c) /\
    forall i k, Shards last !! i = Some k -> k ∉ gids -> Shards c !! i = Some k.
Proof. apply Leave_spec. Qed.

(** C18. In every state the controller reaches by joins of real groups, leaves
    and moves to existing groups, every configuration is good and has its
    position as its number, and [Query] answers from that history. *)
Theorem configurations_ok csm (num : Z) :
  ctrler_reachable csm ->
  exists c, Query csm num = Ret (c, OK) /\ config_ok c /\
    Num c = (if bool_decide (0 <= num < len (Configs csm)) then num else len (Configs csm) - 1).
Proof.
  intros [Hok Hnum Hne]%reachable_history. rewrite Forall_forall in Hok. unfold Query.
  assert (0 < len (Configs csm)) as Hpos.
  { destruct (Configs csm); [done|]. rewrite len_cons. pose proof (len_nonneg l). lia. }
  assert (forall i, 0 <= i < len (Configs csm) -> exists c, slice_get (Configs csm) i = Ret c /\
    config_ok c /\ Num c = i) as Hget.
  { intros i Hi. destruct (slice_get_in_range _ i Hi) as [c Hc]. exists c. split; [done|].
    apply slice_get_ret in Hc as [_ Hc]. split; [eapply Hok, list_elem_of_lookup_2; eauto|].
    rewrite (Hnum _ _ Hc). lia. }
  destruct (decide (0 <= num < len (Configs csm))) as [Hin|Hout].
  - rewrite (bool_decide_true (_ /\ _)) // !bool_decide_false; [lia..|]. simpl.
    destruct (Hget num Hin) as (c & -> & ? & ?). eauto.
  - rewrite (bool_decide_false (_ /\ _)) //. destruct (Hget (len (Configs csm) - 1)) as (c & -> & ? & ?); [lia|].
    exists c. split; [|done]. replace (_ || _) with true; [done|].
    symmetry. apply orb_true_iff. rewrite !bool_decide_eq_true. lia.
Qed.

(** C17. Replicas agree: two replicas that execute the same operations from the
    initial state compute the same configurations, even though Go visits their
    maps in different, unspecified orders, which may change from one
    operation to the next. *)
Theorem replicas_agree (ops1 ops2 : list (MapOrder * CtrlerOp)) :
  ops1.*2 = ops2.*2 ->
  exec_all NewCtrlerStateMachine ops1 = exec_all NewCtrlerStateMachine ops2.
Proof.
  assert (sized NewCtrlerStateMachine) as Hsz by by intros last [= <-].
  revert Hsz ops2. generalize NewCtrlerStateMachine as csm.
  induction ops1 as [|[mo1 op] ops1 IH]; intros csm Hsz [|[mo2 op2] ops2] [=]; [done|]. subst. simpl.
  rewrite (exec_order mo1 mo2) //. destruct (exec mo2 csm op2) as [csm'|] eqn:He; simpl; [|done].
  apply IH; [|done]. eapply exec_sized; eauto.
Qed.

(** A [Join] without groups on an empty configuration assigns every shard to
    group -1, which does not exist: [gidWithMinShards] finds no group and its
    initial value is used as one. *)
Lemma empty_join_assigns_invalid_group :
  exists csm, Join NewCtrlerStateMachine ∅ = Ret (OK, csm) /\
    lastConfig csm = Ret (mkConfig 1 (replicate 10 (-1)) ∅).
Proof. eexists. split; vm_compute; reflexivity. Qed.

(** ** Witnesses *)

Definition three_groups : gmap Z (list string) :=
  {[ 1 := ["a"%string]; 2 := ["b"%string]; 3 := ["c"%string] ]}.

Definition after_join : CtrlerStateMachine :=
  match Join NewCtrlerStateMachine three_groups with Ret (_, csm) => csm | Panic _ => NewCtrlerStateMachine end.

Lemma join_balances_witness :
  exists c, Join NewCtrlerStateMachine three_groups = Ret (OK, addConfig NewCtrlerStateMachine c) /\
    Num c = 1 /\ Groups c = ∅ ∪ three_groups /\ config_ok c /\ balanced c.
Proof.
  apply (join_balances sorted_order NewCtrlerStateMachine three_groups DefaultConfig);
    [reflexivity|apply DefaultConfig_ok|reflexivity|].
  intros H. apply (f_equal (fun m => m !! 1)) in H. vm_compute in H. discriminate.
Defined.

Lemma after_join_reachable : ctrler_reachable after_join.
Proof.
  eapply (reach_op NewCtrlerStateMachine DefaultConfig sorted_order (CJoin three_groups));
    [apply reach_new|reflexivity| |vm_compute; reflexivity].
  split; [reflexivity|]. intros H. apply (f_equal (fun m => m !! 1)) in H. vm_compute in H. discriminate.
Defined.

Lemma leave_reassigns_witness :
  exists c, Leave after_join [2] = Ret (OK, addConfig after_join c) /\ Num c = 2 /\
    Groups c !! 2 = None /\ Shards c !! 0%nat = Some 1.
Proof.
  destruct (lastConfig after_join) as [last|] eqn:Hl; [|vm_compute in Hl; discriminate].
  destruct (leave_reassigns sorted_order after_join [2] last Hl) as (c & HL & Hn & Hg & _ & _ & Hs).
  - eapply Forall_forall; [apply (ho_ok _ (reachable_history _ after_join_reachable))|].
    by apply lastConfig_Some.
  - exists c. split; [exact HL|]. split; [exact Hn|]. split; [rewrite Hg; reflexivity|].
    apply Hs; [|apply not_elem_of_cons; split; [done|apply not_elem_of_nil]].
    vm_compute in Hl. injection Hl as <-. reflexivity.
Defined.

Lemma configurations_ok_witness : exists c, Query after_join 7 = Ret (c, OK) /\ config_ok c /\ Num c = 1.
Proof. apply (configurations_ok after_join 7), after_join_reachable. Defined.

Lemma replicas_agree_witness :
  exec_all NewCtrlerStateMachine [(sorted_order, CJoin three_groups); (reverse_order, CLeave [1])] =
  exec_all NewCtrlerStateMachine [(reverse_order, CJoin three_groups); (sorted_order, CLeave [1])].
Proof. apply replicas_agree. reflexivity. Defined.
