(* ===== verification/ShardServer.v ===== *)
(** * ShardServer: a replica of the shard controller, src/src/shardctrler/server.go

    The structure is that of the key/value server: requests go through the Raft
    log as an [Op], a table of the last request of each client suppresses
    repetitions, and a handler waits on the channel of its index.  [Query] is
    the operation that is not deduplicated.  The server takes no snapshots.

    [applyToStateMachine] can panic: [Move] indexes an array with a number that
    comes from the client. *)

From S2P Require Import Prelude LabGob RaftLog Persister RaftNode RaftService Dedup.
From S2P Require Import ShardConfig ShardMaps ShardBalance ShardTheorems.
Local Open Scope Z_scope.

(** ** common.go *)

Record JoinArgs := mkJoinArgs { ja_Servers : gmap Z (list string); ja_ClientId : Z; ja_SeqId : Z }.
Record JoinReply := mkJoinReply { jr_WrongLeader : bool; jr_Err : Err }.
Record LeaveArgs := mkLeaveArgs { la_GIDs : list Z; la_ClientId : Z; la_SeqId : Z }.
Record LeaveReply := mkLeaveReply { lr_WrongLeader : bool; lr_Err : Err }.
Record MoveArgs := mkMoveArgs { ma_Shard : Z; ma_GID : Z; ma_ClientId : Z; ma_SeqId : Z }.
Record MoveReply := mkMoveReply { mr_WrongLeader : bool; mr_Err : Err }.
Record QueryArgs := mkQueryArgs { qa_Num : Z }.
Record QueryReply := mkQueryReply { qr_WrongLeader : bool; qr_Err : Err; qr_Config : Config }.

Inductive OperationType := OpJoin | OpLeave | OpMove | OpQuery.

#[export] Instance ctrler_OperationType_eq_dec : EqDecision OperationType.
Proof. solve_decision. Defined.

Record Op := mkOp {
  Servers : gmap Z (list string);
  GIDs : list Z;
  Shard : Z;
  GID : Z;
  op_Num : Z;
  OpType : OperationType;
  ClientId : Z;
  SeqId : Z;
}.

Record OpReply := mkOpReply { ControllerConfig : Config; or_Err : Err }.

(** The zero values of [Config] and [OpReply]. *)
Definition zeroConfig : Config := mkConfig 0 zeroShards ∅.

Record LastOperationInfo := mkLastOperationInfo { lo_SeqId : Z; lo_Reply : OpReply }.

(** ** server.go *)

Record ShardCtrler := mkShardCtrler {
  sc_me : Z;
  configs : list Config;     (* assigned by [StartServer], not used again *)
  sc_dead : Z;
  sc_lastApplied : Z;
  stateMachine : CtrlerStateMachine;
  notifyChans : gmap Z nat;
  duplicateTable : gmap Z LastOperationInfo;
  chans : list (list OpReply);
}.
Implicit Types sc : ShardCtrler.

Definition set_stateMachine sc v := mkShardCtrler (sc_me sc) (configs sc) (sc_dead sc)
  (sc_lastApplied sc) v (notifyChans sc) (duplicateTable sc) (chans sc).
Definition set_lastApplied sc v := mkShardCtrler (sc_me sc) (configs sc) (sc_dead sc)
  v (stateMachine sc) (notifyChans sc) (duplicateTable sc) (chans sc).
Definition set_duplicateTable sc v := mkShardCtrler (sc_me sc) (configs sc) (sc_dead sc)
  (sc_lastApplied sc) (stateMachine sc) (notifyChans sc) v (chans sc).
Definition set_channels sc m cs := mkShardCtrler (sc_me sc) (configs sc) (sc_dead sc)
  (sc_lastApplied sc) (stateMachine sc) m (duplicateTable sc) cs.

Definition requestDuplicated sc (clientId seqId : Z) : bool :=
  match duplicateTable sc !! clientId with
  | Some info => bool_decide (seqId <= lo_SeqId info)
  | None => false
  end.

(** [sc.duplicateTable[clientId].Reply], used when the entry exists *)
Definition cachedReply sc (clientId : Z) : OpReply :=
  match duplicateTable sc !! clientId with
  | Some info => lo_Reply info
  | None => mkOpReply zeroConfig ""
  end.

Definition getNotifyChannel sc (index : Z) : nat * ShardCtrler :=
  match notifyChans sc !! index with
  | Some c => (c, sc)
  | None =>
      let c := length (chans sc) in
      (c, set_channels sc (<[index := c]> (notifyChans sc)) (chans sc ++ [[]]))
  end.

Definition removeNotifyChannel sc (index : Z) : ShardCtrler :=
  set_channels sc (delete index (notifyChans sc)) (chans sc).

Section server.
Context {R : Type} `{!RaftService Op R} {mo : MapOrder}.
Implicit Types rf : R.

Definition applyToStateMachine (csm : CtrlerStateMachine) (op : Op)
    : outcome (OpReply * CtrlerStateMachine) :=
  match OpType op with
  | OpQuery => '(cfg, err) ← Query csm (op_Num op); Ret (mkOpReply cfg err, csm)
  | OpJoin => '(err, csm) ← Join csm (Servers op); Ret (mkOpReply zeroConfig err, csm)
  | OpLeave => '(err, csm) ← Leave csm (GIDs op); Ret (mkOpReply zeroConfig err, csm)
  | OpMove => '(err, csm) ← Move csm (Shard op) (GID op); Ret (mkOpReply zeroConfig err, csm)
  end.

(** The part of [applyTask] that executes or skips one operation. *)
Definition applyOp sc (op : Op) : outcome (OpReply * ShardCtrler) :=
  if bool_decide (OpType op <> OpQuery) && requestDuplicated sc (ClientId op) (SeqId op)
  then Ret (cachedReply sc (ClientId op), sc)
  else
    '(opReply, csm) ← applyToStateMachine (stateMachine sc) op;
    let sc := set_stateMachine sc csm in
    let sc := if bool_decide (OpType op <> OpQuery)
              then set_duplicateTable sc
                     (<[ClientId op := mkLastOperationInfo (SeqId op) opReply]> (duplicateTable sc))
              else sc in
    Ret (opReply, sc).

Definition send sc (c : nat) (reply : OpReply) : option ShardCtrler :=
  match chans sc !! c with
  | Some [] => Some (set_channels sc (notifyChans sc) (<[c := [reply]]> (chans sc)))
  | _ => None
  end.

(** One message of [applyTask]; [None] while it is blocked in
    [notifyCh <- opReply]. *)
Definition applyMessage sc rf (message : ApplyMsg Op) : outcome (option ShardCtrler) :=
  if am_CommandValid message then
    if bool_decide (CommandIndex message <= sc_lastApplied sc) then Ret (Some sc) else
    let sc := set_lastApplied sc (CommandIndex message) in
    match am_Command message with
    | None => Panic "interface conversion"
    | Some op =>
        '(opReply, sc) ← applyOp sc op;
        Ret (if (rs_GetState rf).2 then
               let '(notifyCh, sc) := getNotifyChannel sc (CommandIndex message) in
               send sc notifyCh opReply
             else Some sc)
    end
  else Ret (Some sc).

(** [command], up to the [select]: either the answer, or the index and the
    channel to wait on.  The three sections run without the lock in between;
    [rf] is the peer at the time of [Start] and [sc'] the server after it. *)
Definition command_check sc (args : Op) : option OpReply :=
  if bool_decide (OpType args <> OpQuery) && requestDuplicated sc (ClientId args) (SeqId args)
  then Some (mkOpReply zeroConfig (or_Err (cachedReply sc (ClientId args)))) else None.

Definition command_start rf (args : Op) : (Z + OpReply) * R :=
  let '((index, _, isLeader), rf) := rs_Start rf args in
  (if isLeader : bool then inl index else inr (mkOpReply zeroConfig ErrWrongLeader), rf).

Definition command_wait sc (index : Z) : nat * ShardCtrler := getNotifyChannel sc index.

(** The [select]: the result received, or [None] at the timeout. *)
Definition command_select (result : option OpReply) : OpReply :=
  match result with
  | Some r => mkOpReply (ControllerConfig r) (or_Err r)
  | None => mkOpReply zeroConfig ErrTimeout
  end.

(** The four RPC handlers: the operation they pass to [command] and what they
    make of its answer. *)
Definition JoinOp (args : JoinArgs) : Op :=
  mkOp (ja_Servers args) [] 0 0 0 OpJoin (ja_ClientId args) (ja_SeqId args).
Definition JoinAnswer (r : OpReply) : JoinReply := mkJoinReply false (or_Err r).
Definition LeaveOp (args : LeaveArgs) : Op :=
  mkOp ∅ (la_GIDs args) 0 0 0 OpLeave (la_ClientId args) (la_SeqId args).
Definition LeaveAnswer (r : OpReply) : LeaveReply := mkLeaveReply false (or_Err r).
Definition MoveOp (args : MoveArgs) : Op :=
  mkOp ∅ [] (ma_Shard args) (ma_GID args) 0 OpMove (ma_ClientId args) (ma_SeqId args).
Definition MoveAnswer (r : OpReply) : MoveReply := mkMoveReply false (or_Err r).
Definition QueryOp (args : QueryArgs) : Op := mkOp ∅ [] 0 0 (qa_Num args) OpQuery 0 0.
Definition QueryAnswer (r : OpReply) : QueryReply := mkQueryReply false (or_Err r) (ControllerConfig r).

Definition sc_Kill sc rf : ShardCtrler * R :=
  (mkShardCtrler (sc_me sc) (configs sc) 1 (sc_lastApplied sc) (stateMachine sc) (notifyChans sc)
     (duplicateTable sc) (chans sc), rs_Kill rf).

Definition sc_killed sc : bool := bool_decide (sc_dead sc = 1).
End server.

Definition StartServer (me : Z) : ShardCtrler :=
  mkShardCtrler me [zeroConfig] 0 0 NewCtrlerStateMachine ∅ ∅ [].

(** ** Exactly-once execution *)

Definition changes (op : Op) : bool := bool_decide (OpType op <> OpQuery).

#[local] Notation stale := (Dedup.stale changes ClientId SeqId).
#[local] Notation table_ok := (Dedup.table_ok changes ClientId SeqId lo_SeqId).

(** The operations of a log that are executed. *)
Definition executed_ops (hist ops : list Op) : list Op := Dedup.effective changes ClientId SeqId hist ops.

Fixpoint replay (mo : MapOrder) csm (ops : list Op) : outcome CtrlerStateMachine :=
  match ops with
  | [] => Ret csm
  | op :: ops => '(_, csm) ← applyToStateMachine csm op; replay mo csm ops
  end.

(** A replica that is given the commands [ops]. *)
Fixpoint run_ops (mo : MapOrder) sc (ops : list Op) : outcome ShardCtrler :=
  match ops with
  | [] => Ret sc
  | op :: ops => '(_, sc) ← applyOp sc op; run_ops mo sc ops
  end.

(** An operation that changes the configurations, as one of [perform]. *)
Definition ctrler_op (op : Op) : option CtrlerOp :=
  match OpType op with
  | OpJoin => Some (CJoin (Servers op))
  | OpLeave => Some (CLeave (GIDs op))
  | OpMove => Some (CMove (Shard op) (GID op))
  | OpQuery => None
  end.

Lemma apply_perform (mo : MapOrder) csm op :
  applyToStateMachine csm op =
  match ctrler_op op with
  | Some cop => '(err, csm) ← perform mo csm cop; Ret (mkOpReply zeroConfig err, csm)
  | None => '(cfg, err) ← Query csm (op_Num op); Ret (mkOpReply cfg err, csm)
  end.
Proof. unfold applyToStateMachine, ctrler_op. by destruct (OpType op). Qed.

Lemma apply_order (mo1 mo2 : MapOrder) csm op :
  sized csm -> applyToStateMachine (mo:=mo1) csm op = applyToStateMachine (mo:=mo2) csm op.
Proof.
  intros Hsz. rewrite !apply_perform. destruct (ctrler_op op) as [cop|]; [|done].
  by rewrite (perform_order mo1 mo2).
Qed.

Lemma apply_sized (mo : MapOrder) csm op r csm' :
  sized csm -> applyToStateMachine csm op = Ret (r, csm') -> sized csm'.
Proof.
  intros Hsz H. rewrite apply_perform in H. destruct (ctrler_op op) as [cop|]; inv_ret.
  - destruct v as [err csm1]. simplify_eq/=. inv_ret. simplify_eq.
    apply (exec_sized mo csm cop); [done|]. unfold exec. by rewrite Hm.
  - destruct v as [cfg err]. inv_ret. by simplify_eq.
Qed.

Lemma ctrler_applyOp_spec (mo : MapOrder) hist sc op :
  table_ok hist (duplicateTable sc) ->
  match applyOp sc op with
  | Ret (r, sc') =>
      (if stale hist op then stateMachine sc' = stateMachine sc
       else applyToStateMachine (stateMachine sc) op = Ret (r, stateMachine sc')) /\
      table_ok (hist ++ [op]) (duplicateTable sc')
  | Panic e => stale hist op = false /\ applyToStateMachine (stateMachine sc) op = Panic e
  end.
Proof.
  intros Ht. pose proof (duplicated_stale _ _ _ _ _ _ op Ht) as Hdup. unfold applyOp, Dedup.stale.
  change (requestDuplicated sc (ClientId op) (SeqId op)) with
    (duplicated ClientId SeqId lo_SeqId (duplicateTable sc) op).
  change (bool_decide (OpType op <> OpQuery)) with (changes op). rewrite Hdup.
  destruct (changes op && existsb _ _) eqn:Hs; simpl.
  - split; [done|]. apply table_ok_snoc_same; [done|]. intros _.
    apply andb_true_iff in Hs as [_ Hs]. rewrite Hs in Hdup. unfold duplicated in Hdup.
    destruct (duplicateTable sc !! ClientId op) as [lo|]; [|done].
    apply bool_decide_eq_true in Hdup. eauto.
  - destruct (applyToStateMachine _ _) as [[r csm]|e]; simpl; [|done]. destruct (changes op) eqn:Hw; simpl in *.
    + split; [done|]. by apply table_ok_snoc_new.
    + split; [done|]. apply table_ok_snoc_same; [done|]. congruence.
Qed.

Lemma run_ops_replay (mo mo' : MapOrder) hist sc ops :
  table_ok hist (duplicateTable sc) -> sized (stateMachine sc) ->
  stateMachine <$> run_ops mo sc ops = replay mo' (stateMachine sc) (executed_ops hist ops).
Proof.
  revert hist sc. induction ops as [|op ops IH]; intros hist sc Ht Hsz; [done|].
  unfold executed_ops. cbn [run_ops Dedup.effective]. pose proof (ctrler_applyOp_spec mo hist sc op Ht) as Hop.
  destruct (applyOp sc op) as [[r sc']|e]; simpl.
  - destruct Hop as [Hsm Ht']. destruct (stale hist op); simpl.
    + rewrite -Hsm. apply IH; [done|by rewrite Hsm].
    + rewrite (apply_order mo' mo) // Hsm /=. apply IH; [done|]. eapply (apply_sized mo); [exact Hsz|exact Hsm].
  - destruct Hop as [-> Hp]. simpl. by rewrite (apply_order mo' mo) // Hp.
Qed.

(** C19. The shard controller executes every request once, identically on every
    replica: the configurations a replica computes from a log are those of the
    log without the repeated requests, in whatever order it visits its maps;
    no request is executed twice, and the first copy of every request is
    executed. *)
Theorem ctrler_exactly_once (mo : MapOrder) (me : Z) (ops : list Op) :
  stateMachine <$> run_ops mo (StartServer me) ops =
    replay sorted_order NewCtrlerStateMachine (executed_ops [] ops) /\
  NoDup (Dedup.write_ids changes ClientId SeqId (executed_ops [] ops)) /\
  (forall ops1 op ops2, ops = ops1 ++ op :: ops2 ->
     (forall o, o ∈ ops1 -> changes o = true -> ClientId o = ClientId op -> SeqId o < SeqId op) ->
     op ∈ executed_ops [] ops).
Proof.
  split_and!.
  - apply run_ops_replay; [|by intros last [= <-]].
    intros c. rewrite lookup_empty. by intros o ?%elem_of_nil.
  - apply effective_writes_nodup.
  - intros ops1 op ops2 -> Hfirst. by apply effective_first.
Qed.

(** A [Move] of a shard that does not exist makes every replica panic: the
    array index is the client's, and it is used without a check. *)
Lemma move_out_of_range_panics (mo : MapOrder) (me gid shard : Z) :
  ~ (0 <= shard < NShards) ->
  run_ops mo (StartServer me) [MoveOp (mkMoveArgs shard gid 1 0)] = Panic index_error.
Proof.
  intros Hs. unfold run_ops, applyOp, applyToStateMachine, Move. simpl.
  unfold slice_set. by rewrite bool_decide_false.
Qed.
