(* ===== verification/ShardClient.v ===== *)
(** * ShardClient: the clerk of the shard controller, src/src/shardctrler/client.go *)

From S2P Require Import Prelude Retry ShardConfig ShardServer.
Local Open Scope Z_scope.

Record Clerk := mkClerk {
  servers : nat;  (* [len(ck.servers)] *)
  leaderId : Z;
  clientId : Z;
  seqId : Z;
}.

(** [MakeClerk], with the result of [nrand()] *)
Definition MakeClerk (n : nat) (nrand : Z) : Clerk := mkClerk n 0 nrand 0.

Definition retry_err (e : Err) : bool := bool_decide (e = ErrWrongLeader) || bool_decide (e = ErrTimeout).

(** The clerk after a write that was answered by [leader]. *)
Definition used (ck : Clerk) (leader : Z) : Clerk :=
  mkClerk (servers ck) leader (clientId ck) (seqId ck + 1).

Section clerk.
Context (callQuery : nat -> Z -> QueryArgs -> option QueryReply)
        (callJoin : nat -> Z -> JoinArgs -> option JoinReply)
        (callLeave : nat -> Z -> LeaveArgs -> option LeaveReply)
        (callMove : nat -> Z -> MoveArgs -> option MoveReply).

Definition Clerk_Query (fuel : nat) (ck : Clerk) (num : Z) : outcome (option (Config * Clerk)) :=
  r ← retry (servers ck) callQuery (fun reply => retry_err (qr_Err reply)) fuel 0 (leaderId ck)
        (mkQueryArgs num);
  Ret (match r with
       | Some (reply, leader) =>
           Some (qr_Config reply, mkClerk (servers ck) leader (clientId ck) (seqId ck))
       | None => None
       end).

Definition Clerk_Join (fuel : nat) (ck : Clerk) (groups : gmap Z (list string)) : outcome (option Clerk) :=
  r ← retry (servers ck) callJoin (fun reply => retry_err (jr_Err reply)) fuel 0 (leaderId ck)
        (mkJoinArgs groups (clientId ck) (seqId ck));
  Ret (match r with Some (_, leader) => Some (used ck leader) | None => None end).

Definition Clerk_Leave (fuel : nat) (ck : Clerk) (gids : list Z) : outcome (option Clerk) :=
  r ← retry (servers ck) callLeave (fun reply => retry_err (lr_Err reply)) fuel 0 (leaderId ck)
        (mkLeaveArgs gids (clientId ck) (seqId ck));
  Ret (match r with Some (_, leader) => Some (used ck leader) | None => None end).

Definition Clerk_Move (fuel : nat) (ck : Clerk) (shard gid : Z) : outcome (option Clerk) :=
  r ← retry (servers ck) callMove (fun reply => retry_err (mr_Err reply)) fuel 0 (leaderId ck)
        (mkMoveArgs shard gid (clientId ck) (seqId ck));
  Ret (match r with Some (_, leader) => Some (used ck leader) | None => None end).

(** A clerk's query returns a configuration that a server sent in a final
    answer, if from some attempt on one server gives final answers. *)
Lemma clerk_query_returns (ck : Clerk) (num : Z) (T fuel : nat) (p : Z) :
  0 <= leaderId ck < Z.of_nat (servers ck) ->
  settles (servers ck) callQuery (fun reply => retry_err (qr_Err reply)) T p (mkQueryArgs num) ->
  (T + servers ck <= fuel)%nat ->
  exists cfg ck' t reply, Clerk_Query fuel ck num = Ret (Some (cfg, ck')) /\
    callQuery t (leaderId ck') (mkQueryArgs num) = Some reply /\ qr_Config reply = cfg /\
    retry_err (qr_Err reply) = false.
Proof.
  intros Hl Hset Hf.
  destruct (retry_terminates _ _ _ _ _ _ fuel 0 (leaderId ck) Hset Hl) as ([r l] & Hr & _ & Ha & t & Hc);
    [lia..|].
  exists (qr_Config r), (mkClerk (servers ck) l (clientId ck) (seqId ck)), t, r.
  unfold Clerk_Query. rewrite Hr. done.
Qed.
End clerk.

(** Server 1 of 2 answers. *)
Definition second_answers (t : nat) (p : Z) (args : QueryArgs) : option QueryReply :=
  if bool_decide (p = 1) then Some (mkQueryReply false OK DefaultConfig)
  else Some (mkQueryReply false ErrWrongLeader zeroConfig).

Lemma clerk_query_returns_witness :
  exists cfg ck' t reply, Clerk_Query second_answers 2 (MakeClerk 2 5) (-1) = Ret (Some (cfg, ck')) /\
    second_answers t (leaderId ck') (mkQueryArgs (-1)) = Some reply /\ qr_Config reply = cfg /\
    retry_err (qr_Err reply) = false.
Proof.
  apply (clerk_query_returns second_answers (MakeClerk 2 5) (-1) 0 2 1); [simpl; lia| |simpl; lia].
  split; [simpl; lia|]. intros t _. eexists. split; reflexivity.
Defined.
