(* ===== verification/ShardKVClient.v ===== *)
(** * ShardKVClient: the clerk of the sharded store, src/src/shardkv/client.go

    The clerk asks the shard controller for the configuration and talks to the
    group that owns the shard of the key.  The servers are the functions
    [callGet] and [callPutAppend]: the answer of a named server in a round, or
    [None] if the RPC fails; [callQuery] answers the clerk of the controller.
    The server of this package (server.go) has empty handlers. *)

From S2P Require Import Prelude GoStrings Retry ShardConfig ShardServer ShardClient.
From Stdlib Require Import Ascii.
Local Open Scope Z_scope.
Local Open Scope string_scope.

(** ** common.go *)

Definition ErrNoKey : Err := "ErrNoKey".
Definition ErrWrongGroup : Err := "ErrWrongGroup".

Record PutAppendArgs := mkPutAppendArgs { pa_Key : string; pa_Value : string; pa_Op : string }.
Record PutAppendReply := mkPutAppendReply { pr_Err : Err }.
Record GetArgs := mkGetArgs { ga_Key : string }.
Record GetReply := mkGetReply { gr_Err : Err; gr_Value : string }.

(** ** client.go *)

Definition key2shard (key : string) : Z :=
  let shard := match key with EmptyString => 0 | String c _ => Z.of_N (byte_of c) end in
  Z.rem shard NShards.

Record KVClerk := mkKVClerk { sm : Clerk; config : Config }.

Definition MakeKVClerk (ctrlers : nat) (nrand : Z) : KVClerk := mkKVClerk (MakeClerk ctrlers nrand) zeroConfig.

(** The loop over the servers of a group: the final answer, or [None] after a
    [break] or the last server. *)
Fixpoint tryServers {R : Type} (call : string -> option R) (final wrongGroup : R -> bool) (servers : list string) : option R :=
  match servers with
  | [] => None
  | srv :: servers =>
      match call srv with
      | Some reply =>
          if final reply then Some reply
          else if wrongGroup reply then None
          else tryServers call final wrongGroup servers
      | None => tryServers call final wrongGroup servers
      end
  end.

Section clerk.
Context (callQuery : nat -> nat -> Z -> QueryArgs -> option QueryReply) (queryFuel : nat).

(** The loop of [Get] and [PutAppend], which differ in the call and in what
    they take for a final answer.  [None]: still running. *)
Fixpoint kvLoop {R : Type} (call : nat -> string -> option R) (final wrongGroup : R -> bool) (key : string)
    (fuel round : nat) (ck : KVClerk) : outcome (option (R * KVClerk)) :=
  match fuel with
  | O => Ret None
  | S fuel =>
      gid ← slice_get (Shards (config ck)) (key2shard key);
      match Groups (config ck) !! gid ≫= tryServers (call round) final wrongGroup with
      | Some reply => Ret (Some (reply, ck))
      | None =>
          q ← Clerk_Query (callQuery round) queryFuel (sm ck) (-1);
          match q with
          | Some (cfg, sm) => kvLoop call final wrongGroup key fuel (S round) (mkKVClerk sm cfg)
          | None => Ret None
          end
      end
  end.

Definition get_final (r : GetReply) : bool := bool_decide (gr_Err r = OK) || bool_decide (gr_Err r = ErrNoKey).
Definition get_wrong (r : GetReply) : bool := bool_decide (gr_Err r = ErrWrongGroup).
Definition put_final (r : PutAppendReply) : bool := bool_decide (pr_Err r = OK).
Definition put_wrong (r : PutAppendReply) : bool := bool_decide (pr_Err r = ErrWrongGroup).

Definition KVClerk_Get (callGet : nat -> string -> GetArgs -> option GetReply) (fuel : nat) (ck : KVClerk) (key : string)
    : outcome (option (string * KVClerk)) :=
  r ← kvLoop (fun round srv => callGet round srv (mkGetArgs key)) get_final get_wrong key fuel 0 ck;
  Ret (match r with Some (reply, ck) => Some (gr_Value reply, ck) | None => None end).

Definition KVClerk_PutAppend (callPutAppend : nat -> string -> PutAppendArgs -> option PutAppendReply) (fuel : nat) (ck : KVClerk)
    (key value op : string) : outcome (option KVClerk) :=
  r ← kvLoop (fun round srv => callPutAppend round srv (mkPutAppendArgs key value op)) put_final put_wrong key fuel 0 ck;
  Ret (match r with Some (_, ck) => Some ck | None => None end).

Definition KVClerk_Put callPutAppend fuel ck key value := KVClerk_PutAppend callPutAppend fuel ck key value "Put".
Definition KVClerk_Append callPutAppend fuel ck key value := KVClerk_PutAppend callPutAppend fuel ck key value "Append".
End clerk.

(** ** server.go *)

(** The handlers leave the reply as it is. *)
Definition ShardKV_Get (args : GetArgs) (reply : GetReply) : GetReply := reply.
Definition ShardKV_PutAppend (args : PutAppendArgs) (reply : PutAppendReply) : PutAppendReply := reply.

(** ** Lemmas *)

Lemma key2shard_range key : 0 <= key2shard key < NShards.
Proof. unfold key2shard, NShards. destruct key; apply Z.rem_bound_pos; lia. Qed.

Definition sized_config (c : Config) : Prop := len (Shards c) = NShards.

Lemma owner_defined c key : sized_config c -> exists gid, slice_get (Shards c) (key2shard key) = Ret gid.
Proof.
  intros Hc. pose proof (key2shard_range key). unfold sized_config, len in Hc. unfold slice_get.
  rewrite bool_decide_true; [lia|]. destruct (lookup_lt_is_Some_2 (Shards c) (Z.to_nat (key2shard key))) as [gid ->]; [lia|eauto].
Qed.

Section facts.
Context {R : Type} (final wrongGroup : R -> bool).

Lemma tryServers_some call servers r :
  tryServers call final wrongGroup servers = Some r -> exists srv, srv ∈ servers /\ call srv = Some r /\ final r = true.
Proof.
  induction servers as [|srv servers IH]; simpl; [done|]. intros E.
  assert (tryServers call final wrongGroup servers = Some r -> exists s, s ∈ srv :: servers /\ call s = Some r /\ final r = true) as Hrec.
  { intros (s & Hs & Hcall)%IH. exists s. split; [by right|done]. }
  destruct (call srv) as [reply|] eqn:Hc; [|by apply Hrec]. destruct (final reply) eqn:Hf.
  - injection E as <-. exists srv. split; [left|done].
  - destruct (wrongGroup reply); [done|by apply Hrec].
Qed.

(** The group of the key has a server with a final answer, and no server
    before it says that the group is wrong. *)
Definition serves (call : string -> option R) (c : Config) (key : string) : Prop :=
  exists gid pre srv post r, slice_get (Shards c) (key2shard key) = Ret gid /\ Groups c !! gid = Some (pre ++ srv :: post)%list /\
    (forall s r, s ∈ pre -> call s = Some r -> final r = false -> wrongGroup r = false) /\ call srv = Some r /\ final r = true.

Lemma tryServers_serves call pre srv post r :
  (forall s r, s ∈ pre -> call s = Some r -> final r = false -> wrongGroup r = false) -> call srv = Some r -> final r = true ->
  is_Some (tryServers call final wrongGroup (pre ++ srv :: post)%list).
Proof.
  induction pre as [|s pre IH]; intros Hpre Hc Hf; simpl; [rewrite Hc Hf; eauto|].
  assert (is_Some (tryServers call final wrongGroup (pre ++ srv :: post)%list)) as Hrec.
  { apply IH; [|done|done]. intros s' r' Hs'. apply Hpre. by right. }
  destruct (call s) as [reply|] eqn:E; [|done]. destruct (final reply) eqn:Hfr; [eauto|].
  rewrite (Hpre s reply); [left|done|done|done].
Qed.

Context (callQuery : nat -> nat -> Z -> QueryArgs -> option QueryReply) (queryFuel : nat).
Context (call : nat -> string -> option R) (key : string) (configs : nat -> Config).

(** In every round the controller answers the clerk, with a configuration of
    [NShards] shards. *)
Definition controller_answers (n : nat) : Prop :=
  forall round ck, servers ck = n -> 0 <= leaderId ck < Z.of_nat n ->
    exists ck', Clerk_Query (callQuery round) queryFuel ck (-1) = Ret (Some (configs round, ck')) /\
      servers ck' = n /\ 0 <= leaderId ck' < Z.of_nat n.

Definition owner_answered (round : nat) (c : Config) (r : R) : Prop :=
  exists gid group srv, slice_get (Shards c) (key2shard key) = Ret gid /\ Groups c !! gid = Some group /\ srv ∈ group /\
    call round srv = Some r /\ final r = true.

Lemma kvLoop_returns n T fuel round ck :
  controller_answers n -> (forall t, sized_config (configs t)) ->
  (forall t, (T <= t)%nat -> serves (call (S t)) (configs t) key) ->
  servers (sm ck) = n -> 0 <= leaderId (sm ck) < Z.of_nat n -> sized_config (config ck) ->
  (round <> O -> config ck = configs (pred round)) -> (round <= S T)%nat -> (T + 2 <= round + fuel)%nat ->
  exists r ck' t, kvLoop callQuery queryFuel call final wrongGroup key fuel round ck = Ret (Some (r, ck')) /\
    owner_answered t (config ck') r.
Proof.
  intros Hq Hsz Hserves. revert round ck. induction fuel as [|fuel IH]; intros round ck Hn Hl Hc Hcfg HT Hf; [lia|].
  cbn [kvLoop]. destruct (owner_defined (config ck) key Hc) as [gid Hgid]. rewrite Hgid. cbn [mbind outcome_bind].
  destruct (Groups (config ck) !! gid ≫= tryServers (call round) final wrongGroup) as [r|] eqn:Hr.
  { destruct (Groups (config ck) !! gid) as [group|] eqn:Hg; [|done]. simpl in Hr.
    apply tryServers_some in Hr as (srv & Hs & Hcall & Hfin). exists r, ck, round. split; [done|].
    exists gid, group, srv. done. }
  destruct (decide (round = S T)) as [->|Hne].
  { exfalso. destruct (Hserves T (Nat.le_refl _)) as (gid' & pre & srv & post & r & Hg' & Hgr & Hpre & Hcall & Hfin).
    rewrite -(Hcfg ltac:(done)) in Hg' Hgr. assert (gid' = gid) as -> by congruence. rewrite Hgr in Hr. simpl in Hr.
    destruct (tryServers_serves (call (S T)) pre srv post r Hpre Hcall Hfin) as [x Hx]. congruence. }
  destruct (Hq round (sm ck) Hn Hl) as (sm' & -> & Hn' & Hl'). cbn [mbind outcome_bind].
  apply IH; simpl; [done|done|by apply Hsz|done|lia|lia].
Qed.
End facts.

(** C21. A clerk's [Get] returns, and returns the value that a server of the
    group owning the key's shard gave, if the controller answers its queries
    and from some round on the group of the configuration it answered serves
    the key; every index of the shard array it uses is in range. *)
Theorem shardkv_get_returns_owner_value callQuery queryFuel callGet key configs (ctrlers T fuel : nat) (nrand : Z) :
  (0 < ctrlers)%nat -> controller_answers callQuery queryFuel configs ctrlers -> (forall t, sized_config (configs t)) ->
  (forall t, (T <= t)%nat -> serves get_final get_wrong (fun srv => callGet (S t) srv (mkGetArgs key)) (configs t) key) ->
  (T + 2 <= fuel)%nat ->
  exists v ck' round r,
    KVClerk_Get callQuery queryFuel callGet fuel (MakeKVClerk ctrlers nrand) key = Ret (Some (v, ck')) /\
    owner_answered get_final (fun round srv => callGet round srv (mkGetArgs key)) key round (config ck') r /\ gr_Value r = v.
Proof.
  intros Hn Hq Hsz Hserves Hf.
  destruct (kvLoop_returns get_final get_wrong callQuery queryFuel (fun round srv => callGet round srv (mkGetArgs key)) key configs
    ctrlers T fuel 0 (MakeKVClerk ctrlers nrand) Hq Hsz Hserves) as (r & ck' & t & Hr & Ho); [done|simpl; lia|done|done|lia|lia|].
  exists (gr_Value r), ck', t, r. unfold KVClerk_Get. rewrite Hr. done.
Qed.

(** The servers of this package answer every request with the reply they were
    given, whose error is empty: a clerk never returns. *)
Lemma shardkv_skeleton_never_answers callQuery queryFuel fuel key ck reply :
  KVClerk_Get callQuery queryFuel (fun _ _ args => Some (ShardKV_Get args (mkGetReply "" ""))) fuel ck key <> Ret (Some reply).
Proof.
  unfold KVClerk_Get.
  assert (forall f rd c r, kvLoop callQuery queryFuel (fun _ _ => Some (ShardKV_Get (mkGetArgs key) (mkGetReply "" ""))) get_final get_wrong key f rd c
    <> Ret (Some r)) as Hno.
  { induction f as [|f IH]; intros rd c r E; cbn [kvLoop] in E; [done|]. apply outcome_bind_ret in E as (gid & _ & E).
    assert (forall l, tryServers (fun _ : string => Some (ShardKV_Get (mkGetArgs key) (mkGetReply "" ""))) get_final get_wrong l = None) as Hnone
      by (induction l; done).
    destruct (Groups (config c) !! gid) as [l|]; cbn [mbind option_bind] in E; rewrite ?Hnone in E.
    all: apply outcome_bind_ret in E as ([[cfg sm']|] & _ & E); [exact (IH _ _ _ E)|done]. }
  intros E. apply outcome_bind_ret in E as ([[r c]|] & E & E'); [exact (Hno _ _ _ _ E)|done].
Qed.

(** ** Witness *)

(** A controller whose only server answers with the assignment of all shards to
    group 1, whose second server leads. *)
Definition demo_config : Config := mkConfig 1 (replicate 10 1) {[1 := ["x"; "y"]]}.

Definition demo_query (_ _ : nat) (_ : Z) (_ : QueryArgs) : option QueryReply := Some (mkQueryReply false OK demo_config).

Definition demo_get (_ : nat) (srv : string) (_ : GetArgs) : option GetReply :=
  if bool_decide (srv = "y") then Some (mkGetReply OK "v") else Some (mkGetReply ErrWrongLeader "").

Lemma demo_controller : controller_answers demo_query 1 (fun _ => demo_config) 1.
Proof.
  intros round ck Hn Hl. exists ck. destruct ck as [s l c q]. simpl in *. subst s. unfold Clerk_Query. simpl.
  rewrite bool_decide_true; [lia|]. done.
Qed.

Lemma demo_serves t : serves get_final get_wrong (fun srv => demo_get (S t) srv (mkGetArgs "k")) demo_config "k".
Proof.
  exists 1, ["x"], "y", [], (mkGetReply OK "v"). split_and!; try reflexivity.
  intros s r Hs%list_elem_of_singleton. subst s. intros [= <-]. reflexivity.
Qed.

Lemma shardkv_get_returns_owner_value_witness :
  exists v ck' round r,
    KVClerk_Get demo_query 1 demo_get 2 (MakeKVClerk 1 9) "k" = Ret (Some (v, ck')) /\
    owner_answered get_final (fun round srv => demo_get round srv (mkGetArgs "k")) "k" round (config ck') r /\ gr_Value r = v.
Proof.
  apply (shardkv_get_returns_owner_value demo_query 1 demo_get "k" (fun _ => demo_config) 1 0 2 9);
    [lia|exact demo_controller|done|intros t _; exact (demo_serves t)|lia].
Defined.
