(* ===== verification/ShardOriginal.v ===== *)
(** * ShardOriginal: the first version of the controller, src/src/shardctrler_original

    The package differs from shardctrler in three places: [gidWithMinShards]
    starts with the test of [gidWithMaxShards], [Leave] stores the shards only
    when some shard lost its group (after sorting them), and the clerk's [Join]
    has no [return].  The data types are those of ShardConfig.v.  The theorems
    are about these differences. *)

From S2P Require Import Prelude Retry ShardConfig ShardMaps ShardBalance ShardTheorems ShardServer ShardClient.
Local Open Scope Z_scope.

Section original.
Context {mo : MapOrder}.
Implicit Types g : gmap Z (list Z).

Definition orig_gidWithMinShards g : Z :=
  if bool_decide (g !! 0 <> None) && bool_decide (len (shards_at g 0) > 0)
  then 0 else
  (foldl (fun '(minGid, minShards) gid =>
     if bool_decide (gid <> 0) && bool_decide (len (shards_at g gid) < minShards)
     then (gid, len (shards_at g gid)) else (minGid, minShards))
   (-1, NShards + 1) (sortedGids g)).1.

Definition orig_balanceStep g : outcome (option (gmap Z (list Z))) :=
  let maxGid := gidWithMaxShards g in
  let minGid := orig_gidWithMinShards g in
  if bool_decide (maxGid <> 0)
       && bool_decide (len (shards_at g maxGid) - len (shards_at g minGid) <= 1)
  then Ret None
  else
    shard ← slice_get (shards_at g maxGid) 0;
    let g := <[minGid := shards_at g minGid ++ [shard]]> g in
    rest ← slice_from (shards_at g maxGid) 1;
    Ret (Some (<[maxGid := rest]> g)).

Fixpoint orig_balance (fuel : nat) g : outcome (gmap Z (list Z)) :=
  match fuel with
  | O => Panic "out of fuel"
  | S fuel =>
      r ← orig_balanceStep g;
      match r with None => Ret g | Some g' => orig_balance fuel g' end
  end.

Definition orig_Join (fuel : nat) (csm : CtrlerStateMachine) (groups : gmap Z (list string))
    : outcome (Err * CtrlerStateMachine) :=
  let num := len (Configs csm) in
  last ← lastConfig csm;
  let newGroups := joinGroups (Groups last) groups in
  let gidToShards := makeGidToShards newGroups (Shards last) in
  gidToShards ← orig_balance fuel gidToShards;
  newShards ← storeShards gidToShards;
  Ret (OK, addConfig csm (mkConfig num newShards newGroups)).

Definition orig_reassign g (unassigned : list Z) : gmap Z (list Z) :=
  foldl (fun g shard => let minGid := orig_gidWithMinShards g in
                        <[minGid := shards_at g minGid ++ [shard]]> g) g unassigned.

Definition orig_Leave (csm : CtrlerStateMachine) (gids : list Z) : outcome (Err * CtrlerStateMachine) :=
  let num := len (Configs csm) in
  last ← lastConfig csm;
  let groups := copyGroups (Groups last) in
  let g := makeGidToShards groups (Shards last) in
  let '(groups, g, unassigned) := leaveGroups gids groups g in
  newShards ← (if bool_decide (len unassigned > 0)
               then storeShards (orig_reassign g (sort_Ints unassigned))
               else Ret zeroShards);
  Ret (OK, addConfig csm (mkConfig num newShards groups)).

(** While group 0 has shards, a pass takes its first shard and gives it back. *)
Lemma orig_balanceStep_zero g :
  shards_at g 0 <> [] ->
  exists g', orig_balanceStep g = Ret (Some g') /\ shards_at g' 0 <> [].
Proof.
  intros Hz. unfold orig_balanceStep. rewrite (gidWithMax_zero g Hz).
  assert (orig_gidWithMinShards g = 0) as ->.
  { pose proof (gidWithMax_zero g Hz) as Hm. unfold gidWithMaxShards in Hm. unfold orig_gidWithMinShards.
    destruct (_ && _) eqn:Hc; [done|]. exfalso. apply andb_false_iff in Hc.
    rewrite !bool_decide_eq_false in Hc. unfold shards_at in *.
    destruct (g !! 0) as [[|x l]|]; simpl in *; try done. rewrite len_cons in Hc.
    pose proof (len_nonneg l). destruct Hc as [Hc|Hc]; [by apply Hc|lia]. }
  destruct (shards_at g 0) as [|x l] eqn:H0; [done|]. simpl.
  rewrite shards_at_insert bool_decide_true //. unfold slice_from.
  rewrite bool_decide_true; [rewrite len_cons; pose proof (len_nonneg (l ++ [x])); lia|]. simpl.
  eexists. split; [done|]. rewrite shards_at_insert bool_decide_true //. by destruct l.
Qed.

Lemma orig_balance_diverges fuel g :
  shards_at g 0 <> [] -> orig_balance fuel g = Panic "out of fuel".
Proof.
  revert g. induction fuel as [|fuel IH]; intros g Hz; simpl; [done|].
  destruct (orig_balanceStep_zero g Hz) as (g' & -> & Hz'). simpl. by apply IH.
Qed.

(** In the original controller [Join] never returns while some shard belongs to
    group 0, in particular on the initial configuration: no number of passes
    of its loop is enough. *)
Lemma orig_Join_diverges (fuel : nat) (csm : CtrlerStateMachine)
    (groups : gmap Z (list string)) (last : Config) :
  lastConfig csm = Ret last -> 0 ∈ Shards last -> orig_Join fuel csm groups = Panic "out of fuel".
Proof.
  intros Hl [i Hi]%list_elem_of_lookup_1. unfold orig_Join. rewrite Hl /=.
  rewrite orig_balance_diverges //.
  destruct (makeGidToShards_spec (joinGroups (Groups last) groups) (Shards last)) as (_ & _ & Hat).
  intros Hz. assert (Z.of_nat i ∈ shards_at (makeGidToShards (joinGroups (Groups last) groups) (Shards last)) 0) as Hin.
  { apply Hat. rewrite Nat2Z.id. split; [lia|done]. }
  rewrite Hz in Hin. by apply elem_of_nil in Hin.
Qed.

(** In the original controller a [Leave] that frees no shard, such as one of an
    unknown group, gives every shard to the invalid group 0. *)
Lemma original_leave_resets_shards (csm : CtrlerStateMachine) (gids : list Z) (last : Config) :
  lastConfig csm = Ret last -> (forall gid, gid ∈ gids -> gid ∉ Shards last) ->
  exists c, orig_Leave csm gids = Ret (OK, addConfig csm c) /\ Shards c = zeroShards.
Proof.
  intros Hl Hg. unfold orig_Leave. rewrite Hl /= copyGroups_id.
  destruct (leaveGroups gids (Groups last) (makeGidToShards (Groups last) (Shards last)))
    as [[groups' g'] un] eqn:Hlv.
  apply leaveGroups_spec in Hlv as (_ & Hg' & Hall).
  destruct (makeGidToShards_spec (Groups last) (Shards last)) as (Hmk & _ & Hat).
  set (g := makeGidToShards _ _) in *.
  assert (un = []) as ->.
  { destruct un as [|s un]; [done|]. exfalso.
    assert (NoDup (all_shards g)) as Hnd by (rewrite Hmk; apply NoDup_seqZ).
    assert (s ∈ all_shards g) as Hs by (rewrite Hall; set_solver).
    apply elem_of_all_shards in Hs as [k Hs].
    assert (s ∈ all_shards g') as Hs'.
    { apply elem_of_all_shards. exists k. unfold shards_at. rewrite Hg'. case_bool_decide as Hk; [|done].
      apply Hat in Hs as [_ Hs]. exfalso. apply (Hg k Hk). eapply list_elem_of_lookup_2; eauto. }
    rewrite Hall in Hnd. apply NoDup_app in Hnd as (_ & Hd & _). apply (Hd s Hs'). left. }
  rewrite bool_decide_false; [rewrite len_nil; lia|]. simpl. by eexists.
Qed.
End original.

(** The clerk's [Join]: after an answer [ck.seqId] grows and the loop goes on,
    with the arguments built before it. *)
Fixpoint orig_Clerk_Join (callJoin : nat -> Z -> JoinArgs -> option JoinReply) (fuel t : nat) (ck : Clerk)
    (args : JoinArgs) : outcome (option Clerk) :=
  match fuel with
  | O => Ret None
  | S fuel =>
      if bool_decide (0 <= leaderId ck < Z.of_nat (servers ck)) then
        let next := mkClerk (servers ck) (Z.rem (leaderId ck + 1) (Z.of_nat (servers ck)))
                      (clientId ck) (seqId ck) in
        match callJoin t (leaderId ck) args with
        | Some reply =>
            if retry_err (jr_Err reply) then orig_Clerk_Join callJoin fuel (S t) next args
            else orig_Clerk_Join callJoin fuel (S t) (used ck (leaderId ck)) args
        | None => orig_Clerk_Join callJoin fuel (S t) next args
        end
      else Panic index_error
  end.

(** The original clerk's [Join] never returns, whatever the servers answer. *)
Lemma original_clerk_join_never_returns callJoin (fuel t : nat) (ck : Clerk) (args : JoinArgs) :
  0 <= leaderId ck < Z.of_nat (servers ck) -> orig_Clerk_Join callJoin fuel t ck args = Ret None.
Proof.
  revert t ck. induction fuel as [|fuel IH]; intros t ck Hck; simpl; [done|].
  rewrite bool_decide_true //.
  assert (0 <= Z.rem (leaderId ck + 1) (Z.of_nat (servers ck)) < Z.of_nat (servers ck)) as Hnext.
  { rewrite rem_next //. case_bool_decide; lia. }
  destruct (callJoin _ _ _) as [reply|]; [destruct (retry_err _)|]; by apply IH.
Qed.

(** ** Witnesses *)

Example unknown_leave_resets_shards :
  exists c, orig_Leave after_join [9] = Ret (OK, addConfig after_join c) /\ Shards c = zeroShards.
Proof.
  destruct (lastConfig after_join) as [last|] eqn:Hl; [|vm_compute in Hl; discriminate].
  apply (original_leave_resets_shards after_join [9] last Hl).
  vm_compute in Hl. injection Hl as <-. intros gid ->%list_elem_of_singleton. simpl.
  rewrite !not_elem_of_cons. split_and!; try discriminate. apply not_elem_of_nil.
Defined.

Lemma original_clerk_join_never_returns_witness :
  orig_Clerk_Join (fun _ _ _ => Some (mkJoinReply false OK)) 50 0 (MakeClerk 3 1) (mkJoinArgs ∅ 1 0) = Ret None.
Proof. apply original_clerk_join_never_returns. simpl. lia. Defined.
