(* ===== verification/ShardOriginalServer.v ===== *)
(** * ShardOriginalServer: the replica and the clerk of the first controller

    src/src/shardctrler_original/server.go, client.go and common.go.  Apart
    from printing, this code is that of shardctrler line by line, run on the
    other state machine: the definitions of ShardServer.v and ShardClient.v
    are used for the parts that do not touch it. *)

From S2P Require Import Prelude LabGob RaftLog Persister RaftNode RaftService Retry.
From S2P Require Import ShardConfig ShardTheorems ShardServer ShardClient ShardOriginal.
Local Open Scope Z_scope.

(** ** Data, common.go and server.go *)

Definition orig_NShards : Z := NShards.
Definition orig_Config : Type := Config.
Definition orig_DefaultConfig : orig_Config := DefaultConfig.
Definition orig_JoinArgs : Type := JoinArgs.
Definition orig_JoinReply : Type := JoinReply.
Definition orig_LeaveArgs : Type := LeaveArgs.
Definition orig_LeaveReply : Type := LeaveReply.
Definition orig_MoveArgs : Type := MoveArgs.
Definition orig_MoveReply : Type := MoveReply.
Definition orig_QueryArgs : Type := QueryArgs.
Definition orig_QueryReply : Type := QueryReply.
Definition orig_Op : Type := Op.
Definition orig_OpReply : Type := OpReply.
Definition orig_OperationType : Type := OperationType.
Definition orig_LastOperationInfo : Type := LastOperationInfo.
Definition orig_ShardCtrler : Type := ShardCtrler.
Definition orig_CtrlerStateMachine : Type := CtrlerStateMachine.
Definition orig_copyGroups (groups : gmap Z (list string)) : gmap Z (list string) := copyGroups groups.
Definition orig_gidWithMaxShards (gidToShards : gmap Z (list Z)) : Z := gidWithMaxShards gidToShards.

(** ** The rest of the state machine *)

Definition orig_NewCtrlerStateMachine : CtrlerStateMachine := NewCtrlerStateMachine.
Definition orig_Query := Query.
Definition orig_Move := Move.

(** ** The replica *)

Definition orig_StartServer (me : Z) : ShardCtrler := StartServer me.
Definition orig_requestDuplicated := requestDuplicated.
Definition orig_getNotifyChannel := getNotifyChannel.
Definition orig_removeNotifyChannel := removeNotifyChannel.

Section server.
Context {R : Type} `{!RaftService Op R} {mo : MapOrder}.
Implicit Types (rf : R) (sc : ShardCtrler).

(** [fuel] bounds the passes of the balancing loop of [Join]. *)
Definition orig_applyToStateMachine (fuel : nat) (csm : CtrlerStateMachine) (op : Op)
    : outcome (OpReply * CtrlerStateMachine) :=
  match OpType op with
  | OpQuery => '(cfg, err) ← orig_Query csm (op_Num op); Ret (mkOpReply cfg err, csm)
  | OpJoin => '(err, csm) ← orig_Join fuel csm (Servers op); Ret (mkOpReply zeroConfig err, csm)
  | OpLeave => '(err, csm) ← orig_Leave csm (GIDs op); Ret (mkOpReply zeroConfig err, csm)
  | OpMove => '(err, csm) ← orig_Move csm (Shard op) (GID op); Ret (mkOpReply zeroConfig err, csm)
  end.

Definition orig_applyOp (fuel : nat) sc (op : Op) : outcome (OpReply * ShardCtrler) :=
  if bool_decide (OpType op <> OpQuery) && orig_requestDuplicated sc (ClientId op) (SeqId op)
  then Ret (cachedReply sc (ClientId op), sc)
  else
    '(opReply, csm) ← orig_applyToStateMachine fuel (stateMachine sc) op;
    let sc := set_stateMachine sc csm in
    let sc := if bool_decide (OpType op <> OpQuery)
              then set_duplicateTable sc (<[ClientId op := mkLastOperationInfo (SeqId op) opReply]> (duplicateTable sc))
              else sc in
    Ret (opReply, sc).

Definition orig_applyMessage (fuel : nat) sc rf (message : ApplyMsg Op) : outcome (option ShardCtrler) :=
  if am_CommandValid message then
    if bool_decide (CommandIndex message <= sc_lastApplied sc) then Ret (Some sc) else
    let sc := set_lastApplied sc (CommandIndex message) in
    match am_Command message with
    | None => Panic "interface conversion"
    | Some op =>
        '(opReply, sc) ← orig_applyOp fuel sc op;
        Ret (if (rs_GetState rf).2 then
               let '(notifyCh, sc) := orig_getNotifyChannel sc (CommandIndex message) in
               send sc notifyCh opReply
             else Some sc)
    end
  else Ret (Some sc).

(** [command] and the handlers. *)
Definition orig_command_check := command_check.
Definition orig_command_start (rf : R) (args : Op) := command_start rf args.
Definition orig_command_wait := command_wait.
Definition orig_command_select := command_select.
Definition orig_JoinOp := JoinOp.
Definition orig_JoinAnswer := JoinAnswer.
Definition orig_LeaveOp := LeaveOp.
Definition orig_LeaveAnswer := LeaveAnswer.
Definition orig_MoveOp := MoveOp.
Definition orig_MoveAnswer := MoveAnswer.
Definition orig_QueryOp := QueryOp.
Definition orig_QueryAnswer := QueryAnswer.
Definition orig_Kill (sc : ShardCtrler) (rf : R) := sc_Kill sc rf.
Definition orig_killed (sc : ShardCtrler) : bool := sc_killed sc.

(** A replica of the original controller that has to apply a new [Join]
    while some shard belongs to group 0, as in the initial configuration,
    never gets past it: no number of passes of the balancing loop is enough, so
    [applyTask] keeps the lock and no later command is applied. *)
Lemma original_replica_hangs (fuel : nat) sc rf (msg : ApplyMsg Op) op last :
  am_CommandValid msg = true -> sc_lastApplied sc < CommandIndex msg -> am_Command msg = Some op ->
  OpType op = OpJoin -> requestDuplicated sc (ClientId op) (SeqId op) = false ->
  lastConfig (stateMachine sc) = Ret last -> 0 ∈ Shards last ->
  orig_applyMessage fuel sc rf msg = Panic "out of fuel".
Proof.
  intros Hv Hi Hc Ho Hd Hl Hz. unfold orig_applyMessage. rewrite Hv Hc bool_decide_false; [lia|].
  unfold orig_applyOp, orig_requestDuplicated. rewrite Ho.
  change (requestDuplicated (set_lastApplied sc (CommandIndex msg)) (ClientId op) (SeqId op)) with (requestDuplicated sc (ClientId op) (SeqId op)).
  rewrite Hd andb_false_r. unfold orig_applyToStateMachine. rewrite Ho.
  change (stateMachine (set_lastApplied sc (CommandIndex msg))) with (stateMachine sc).
  by rewrite (orig_Join_diverges fuel (stateMachine sc) (Servers op) last Hl Hz).
Qed.
End server.

(** ** The clerk

    [Query], [Leave] and [Move]; [Join] is [orig_Clerk_Join]. *)

Definition orig_Clerk : Type := Clerk.
Definition orig_MakeClerk (n : nat) (nrand : Z) : Clerk := MakeClerk n nrand.
Definition orig_Clerk_Query := Clerk_Query.
Definition orig_Clerk_Leave := Clerk_Leave.
Definition orig_Clerk_Move := Clerk_Move.

(** ** Witness *)

(** A peer that leads and commits nothing. *)
#[local] Program Instance lone_leader : RaftService Op unit := {|
  rs_Start _ _ := ((1, 1, true), tt);
  rs_GetState _ := (1, true);
  rs_GetRaftStateSize _ := 0;
  rs_Snapshot _ _ _ := Ret tt;
  rs_Kill _ := tt;
|}.
Next Obligation. done. Qed.
Next Obligation. done. Qed.
Next Obligation. done. Qed.
Next Obligation. done. Qed.

Definition first_join : ApplyMsg Op := mkApplyMsg Op true (Some (JoinOp (mkJoinArgs three_groups 7 0))) 1 false [] 0 0.

Lemma original_replica_hangs_witness : orig_applyMessage 1000 (orig_StartServer 0) tt first_join = Panic "out of fuel".
Proof.
  apply (original_replica_hangs 1000 (orig_StartServer 0) tt first_join (JoinOp (mkJoinArgs three_groups 7 0)) DefaultConfig);
    [reflexivity..|left].
Defined.
