(* ===== verification/MRCoordinator.v ===== *)
(** * MRCoordinator: the MapReduce coordinator, src/src/mr/coordinator.go

    Each definition is one RPC handler or helper under [c.mu].  The coordinator
    keeps its tasks in slices of pointers; a reply carries a copy of the task
    (net/rpc encodes it), so the slices are lists of records.  The clock is an
    input: a handler reads it once, in nanoseconds.

    The handlers interleave in any order; workers report the tasks they were
    given, possibly late and more than once (a task is given to a second worker
    after [TaskTimeout]). *)

From S2P Require Import Prelude.
Local Open Scope Z_scope.

Inductive phase := duringMap | duringReduce | finish.

#[export] Instance phase_eq_dec : EqDecision phase.
Proof. solve_decision. Defined.

Definition Second : Z := 1000000000.
Definition TaskTimeout : Z := 10 * Second.

Inductive TaskType := UnknownTask | MapTask | ReduceTask | AllTasksDone.

#[export] Instance TaskType_eq_dec : EqDecision TaskType.
Proof. solve_decision. Defined.

Inductive TaskState := Idle | InProgress | Completed.

#[export] Instance TaskState_eq_dec : EqDecision TaskState.
Proof. solve_decision. Defined.

Record Task := mkTask {
  Type_ : TaskType;
  FileNames : list string;
  Id : Z;
  StartTime : Z;
  State : TaskState;
  NMap : Z;
  NReduce : Z;
}.

#[export] Instance Task_eq_dec : EqDecision Task.
Proof. solve_decision. Defined.

Definition set_State (t : Task) (s : TaskState) : Task :=
  mkTask (Type_ t) (FileNames t) (Id t) (StartTime t) s (NMap t) (NReduce t).
Definition set_FileNames (t : Task) (fs : list string) : Task :=
  mkTask (Type_ t) fs (Id t) (StartTime t) (State t) (NMap t) (NReduce t).
Definition set_StartTime (t : Task) (now : Z) : Task :=
  mkTask (Type_ t) (FileNames t) (Id t) now (State t) (NMap t) (NReduce t).

Record Coordinator := mkCoordinator {
  mapTasks : list Task;
  reduceTasks : list Task;
  nMap : Z;
  nReduce : Z;
  c_phase : phase;
  finishedMap : Z;
  finishedReduce : Z;
}.
Implicit Types c : Coordinator.

Definition set_mapTasks c v := mkCoordinator v (reduceTasks c) (nMap c) (nReduce c) (c_phase c)
  (finishedMap c) (finishedReduce c).
Definition set_reduceTasks c v := mkCoordinator (mapTasks c) v (nMap c) (nReduce c) (c_phase c)
  (finishedMap c) (finishedReduce c).
Definition set_phase c v := mkCoordinator (mapTasks c) (reduceTasks c) (nMap c) (nReduce c) v
  (finishedMap c) (finishedReduce c).

Definition available (now : Z) (task : Task) : bool :=
  bool_decide (State task = Idle) ||
  (bool_decide (State task = InProgress) && bool_decide (now - StartTime task > TaskTimeout)).

(** The first available task is started; its copy goes into the reply. *)
Fixpoint findAvailableTask (now : Z) (tasks : list Task) : option Task * list Task :=
  match tasks with
  | [] => (None, [])
  | task :: tasks =>
      if available now task then
        let task := set_State (set_StartTime task now) InProgress in
        (Some task, task :: tasks)
      else let '(r, tasks) := findAvailableTask now tasks in (r, task :: tasks)
  end.

Definition HandleGetTaskRequest (now : Z) c : option Task * Coordinator :=
  match c_phase c with
  | duringMap => let '(r, ts) := findAvailableTask now (mapTasks c) in (r, set_mapTasks c ts)
  | duringReduce => let '(r, ts) := findAvailableTask now (reduceTasks c) in (r, set_reduceTasks c ts)
  | finish => (Some (mkTask AllTasksDone [] 0 0 Idle 0 0), c)
  end.

Definition GenerateReduceTasksWithLock c : Coordinator :=
  if bool_decide (c_phase c <> duringReduce) then c else
  let new := (fun i => mkTask ReduceTask [] i 0 Idle (len (mapTasks c)) (nReduce c)) <$> seqZ 0 (nReduce c) in
  set_phase (set_reduceTasks c (reduceTasks c ++ new)) duringReduce.

(** [fmt.Sprintf("./intermediates/mr-%d-%d", j, i)] *)
Definition intermediateFile (j i : Z) : string := "./intermediates/mr-" +:+ pretty j +:+ "-" +:+ pretty i.

Definition AssignReduceTasksWithLock c : outcome Coordinator :=
  for_range (Z.to_nat (nReduce c)) (fun i c =>
    task ← slice_get (reduceTasks c) i;
    let files := (fun j => intermediateFile j i) <$> seqZ 0 (len (mapTasks c)) in
    let task := set_State (set_FileNames task (FileNames task ++ files)) Idle in
    ts ← slice_set (reduceTasks c) i task;
    Ret (set_reduceTasks c ts)) c.

(** [for _, task := range tasks { if task.Id == id { task.State = Completed; break } }] *)
Fixpoint markCompleted (id : Z) (tasks : list Task) : list Task :=
  match tasks with
  | [] => []
  | task :: tasks =>
      if bool_decide (Id task = id) then set_State task Completed :: tasks
      else task :: markCompleted id tasks
  end.

Definition allCompleted (tasks : list Task) : bool :=
  forallb (fun task => bool_decide (State task = Completed)) tasks.

Definition TaskDoneMap c (args : Task) : outcome Coordinator :=
  let c := set_mapTasks c (markCompleted (Id args) (mapTasks c)) in
  if allCompleted (mapTasks c) then
    let c := set_phase c duringReduce in
    let c := GenerateReduceTasksWithLock c in
    AssignReduceTasksWithLock c
  else Ret c.

Definition TaskDoneReduce c (args : Task) : Coordinator :=
  let c := set_reduceTasks c (markCompleted (Id args) (reduceTasks c)) in
  if allCompleted (reduceTasks c) then set_phase c finish else c.

Definition TaskDone c (args : Task) : outcome Coordinator :=
  match Type_ args with
  | MapTask => TaskDoneMap c args
  | ReduceTask => Ret (TaskDoneReduce c args)
  | _ => Ret c
  end.

Definition Done c : bool := bool_decide (c_phase c = finish).

Definition MakeCoordinator (files : list string) (nReduce : Z) : Coordinator :=
  mkCoordinator (imap (fun i file => mkTask MapTask [file] (Z.of_nat i) 0 Idle 0 nReduce) files)
    [] (len files) nReduce duringMap 0 0.

(** ** Runs

    [handed] collects the tasks that were given to workers. *)

Record MRState := mkMRState { coord : Coordinator; handed : list Task }.

Inductive Request :=
| RGetTask (now : Z)
| RTaskDone (task : Task).

Definition mr_step (s : MRState) (r : Request) : outcome MRState :=
  match r with
  | RGetTask now =>
      let '(reply, c) := HandleGetTaskRequest now (coord s) in
      Ret (mkMRState c (handed s ++ option_list reply))
  | RTaskDone task => c ← TaskDone (coord s) task; Ret (mkMRState c (handed s))
  end.

(** A worker reports a task it was given: [HandleMapTask] and
    [HandleReduceTask] change only its [State]. *)
Definition honest (s : MRState) (r : Request) : Prop :=
  match r with
  | RGetTask _ => True
  | RTaskDone task => exists t st, t ∈ handed s /\ task = set_State t st
  end.

(** No map task is reported after the map phase. *)
Definition timely (s : MRState) (r : Request) : Prop :=
  match r with
  | RGetTask _ => True
  | RTaskDone task => Type_ task = MapTask -> c_phase (coord s) = duringMap
  end.

Definition mr_init (files : list string) (nReduce : Z) : MRState :=
  mkMRState (MakeCoordinator files nReduce) [].

Definition mr_rel (ok : MRState -> Request -> Prop) (s s' : MRState) : Prop :=
  exists r, ok s r /\ mr_step s r = Ret s'.

Definition mr_reachable (files : list string) (nR : Z) (s : MRState) : Prop :=
  rtc (mr_rel honest) (mr_init files nR) s.

Definition mr_timely (files : list string) (nR : Z) (s : MRState) : Prop :=
  rtc (mr_rel (fun s r => honest s r /\ timely s r)) (mr_init files nR) s.
