(* ===== verification/MRFacts.v ===== *)
(** * MRFacts: what the coordinator guarantees, and a report that blocks it

    Workers are honest but may be slow: they report tasks they were given, in
    any order and more than once.  Reduce tasks are handed out only when every
    map task is completed.  If no map task is reported after the map phase,
    there is exactly one reduce task per partition and the end of the job is
    final; a single map task reported later adds a second set of reduce tasks
    that can never be completed. *)

From S2P Require Import Prelude MRCoordinator.
Local Open Scope Z_scope.
Implicit Types c : Coordinator.

(** ** The loops *)

Definition started (now : Z) (t : Task) : Task := set_State (set_StartTime t now) InProgress.

Lemma findAvailableTask_spec now ts :
  (findAvailableTask now ts = (None, ts) /\ Forall (fun t => available now t = false) ts) \/
  exists l1 t l2, ts = l1 ++ t :: l2 /\ Forall (fun t => available now t = false) l1 /\
    available now t = true /\
    findAvailableTask now ts = (Some (started now t), l1 ++ started now t :: l2).
Proof.
  induction ts as [|t ts IH]; simpl; [by left|].
  destruct (available now t) eqn:Ha.
  - right. exists [], t, ts. by split_and!.
  - destruct IH as [[-> Hf]|(l1 & t' & l2 & -> & Hf & Ha' & ->)].
    + left. by split; [|constructor].
    + right. exists (t :: l1), t', l2. split_and!; try done. by constructor.
Qed.

Lemma markCompleted_spec id ts :
  (markCompleted id ts = ts /\ Forall (fun t => Id t <> id) ts) \/
  exists l1 t l2, ts = l1 ++ t :: l2 /\ Forall (fun t => Id t <> id) l1 /\ Id t = id /\
    markCompleted id ts = l1 ++ set_State t Completed :: l2.
Proof.
  induction ts as [|t ts IH]; simpl; [by left|].
  case_bool_decide as Hid.
  - right. exists [], t, ts. by split_and!.
  - destruct IH as [[-> Hf]|(l1 & t' & l2 & -> & Hf & Hid' & ->)].
    + left. by split; [|constructor].
    + right. exists (t :: l1), t', l2. split_and!; try done. by constructor.
Qed.

(** A property that neither [State] nor [StartTime] affects. *)
Lemma findAvailable_Forall (P : Task -> Prop) now ts r ts' :
  (forall t, P t -> P (started now t)) -> findAvailableTask now ts = (r, ts') -> Forall P ts ->
  Forall P ts' /\ (forall t, r = Some t -> P t).
Proof.
  intros HP Hf Hts. destruct (findAvailableTask_spec now ts) as [[Hs _]|(l1 & t & l2 & -> & _ & _ & Hs)];
    rewrite Hs in Hf; simplify_eq; [done|].
  apply Forall_app in Hts as [H1 H2]. apply Forall_cons in H2 as [H2 H3].
  split; [apply Forall_app; split; [done|constructor; auto]|]. intros t' [= <-]. auto.
Qed.

Lemma markCompleted_Forall_id (P : Task -> Prop) id ts :
  (forall t, Id t = id -> P t -> P (set_State t Completed)) -> Forall P ts -> Forall P (markCompleted id ts).
Proof.
  intros HP Hts. destruct (markCompleted_spec id ts) as [[-> _]|(l1 & t & l2 & -> & _ & Hid & ->)]; [done|].
  apply Forall_app in Hts as [H1 H2]. apply Forall_cons in H2 as [H2 H3].
  apply Forall_app; split; [done|constructor; auto].
Qed.

Lemma markCompleted_Forall (P : Task -> Prop) id ts :
  (forall t, P t -> P (set_State t Completed)) -> Forall P ts -> Forall P (markCompleted id ts).
Proof. intros HP. apply markCompleted_Forall_id. auto. Qed.

Lemma allCompleted_spec ts : allCompleted ts = true <-> Forall (fun t => State t = Completed) ts.
Proof.
  unfold allCompleted. rewrite forallb_forall Forall_forall. split; intros H t Ht.
  - apply list_elem_of_In in Ht. by apply H, bool_decide_eq_true in Ht.
  - apply list_elem_of_In in Ht. by apply bool_decide_eq_true, H.
Qed.

(** ** Generating the reduce tasks *)

Definition partition_files (nmaps i : Z) : list string := (fun j => intermediateFile j i) <$> seqZ 0 nmaps.

Definition assigned (nmaps i : Z) (t : Task) : Task :=
  set_State (set_FileNames t (FileNames t ++ partition_files nmaps i)) Idle.

Lemma AssignReduce_spec c :
  (Z.to_nat (nReduce c) <= length (reduceTasks c))%nat ->
  exists ts, AssignReduceTasksWithLock c = Ret (set_reduceTasks c ts) /\
    length ts = length (reduceTasks c) /\
    forall k, ts !! k = if bool_decide (k < Z.to_nat (nReduce c))%nat
                        then assigned (len (mapTasks c)) (Z.of_nat k) <$> reduceTasks c !! k
                        else reduceTasks c !! k.
Proof.
  intros Hlen. unfold AssignReduceTasksWithLock.
  edestruct (for_range_inv (fun j (c' : Coordinator) => exists ts, c' = set_reduceTasks c ts /\
    length ts = length (reduceTasks c) /\
    forall k, ts !! k = if bool_decide (Z.of_nat k < j)
                        then assigned (len (mapTasks c)) (Z.of_nat k) <$> reduceTasks c !! k
                        else reduceTasks c !! k)) as (c' & -> & ts & -> & Hl & Hts).
  - exists (reduceTasks c). split_and!; [by destruct c|done|]. intros k. by rewrite bool_decide_false; [lia|].
  - intros j c' Hj (ts & -> & Hl & Hts). cbn [reduceTasks set_reduceTasks mapTasks].
    destruct (lookup_lt_is_Some_2 ts (Z.to_nat j)) as [t Ht]; [lia|].
    assert (slice_get ts j = Ret t) as -> by (apply slice_get_ret; split; [lia|done]).
    assert (0 <= j < len ts) as Hin by (unfold len; lia).
    unfold slice_set. simpl. rewrite bool_decide_true //. eexists. split; [done|].
    eexists. split_and!; [done|by rewrite length_insert|]. intros k.
    destruct (decide (k = Z.to_nat j)) as [->|Hne].
    + rewrite list_lookup_insert_eq; [lia|]. rewrite bool_decide_true; [lia|].
      rewrite Hts bool_decide_false in Ht; [lia|]. rewrite Ht /= Z2Nat.id; [lia|]. done.
    + rewrite list_lookup_insert_ne; [lia|]. rewrite Hts.
      destruct (decide (Z.of_nat k < j)); [rewrite !bool_decide_true //; lia|rewrite !bool_decide_false //; lia].
  - exists ts. split_and!; [done|done|]. intros k. rewrite Hts.
    destruct (decide (k < Z.to_nat (nReduce c))%nat); [rewrite !bool_decide_true //; lia|rewrite !bool_decide_false //; lia].
Qed.

Definition new_reduce_task (nmaps nR i : Z) : Task := mkTask ReduceTask [] i 0 Idle nmaps nR.

Lemma TaskDoneMap_spec c args :
  let mts := markCompleted (Id args) (mapTasks c) in
  if allCompleted mts then
    exists ts, TaskDoneMap c args = Ret (set_phase (set_reduceTasks (set_mapTasks c mts) ts) duringReduce) /\
      length ts = (length (reduceTasks c) + Z.to_nat (nReduce c))%nat /\
      forall k, ts !! k =
        (if bool_decide (k < Z.to_nat (nReduce c))%nat then assigned (len mts) (Z.of_nat k) else id) <$>
        (reduceTasks c ++ (new_reduce_task (len mts) (nReduce c) <$> seqZ 0 (nReduce c))) !! k
  else TaskDoneMap c args = Ret (set_mapTasks c mts).
Proof.
  simpl. unfold TaskDoneMap. cbn [mapTasks set_mapTasks]. destruct (allCompleted _) eqn:Ha; [|done].
  unfold GenerateReduceTasksWithLock. simpl.
  match goal with |- context [AssignReduceTasksWithLock ?c'] => destruct (AssignReduce_spec c') as (ts & -> & Hl & Hts) end.
  { simpl. rewrite length_app length_fmap length_seqZ. lia. }
  exists ts. split_and!; [done| |].
  - rewrite Hl /= length_app length_fmap length_seqZ. done.
  - intros k. rewrite Hts /=. case_bool_decide; [done|]. by rewrite option_fmap_id.
Qed.

Lemma markCompleted_length id ts : length (markCompleted id ts) = length ts.
Proof.
  destruct (markCompleted_spec id ts) as [[-> _]|(l1 & t & l2 & -> & _ & _ & ->)]; [done|].
  by rewrite !length_app.
Qed.

(** Every request is served. *)
Lemma mr_step_total s r : exists s', mr_step s r = Ret s'.
Proof.
  destruct r as [now|task]; simpl; [by destruct (HandleGetTaskRequest now (coord s)); eexists|].
  unfold TaskDone. destruct (Type_ task); try by eexists.
  pose proof (TaskDoneMap_spec (coord s) task) as H. simpl in H.
  destruct (allCompleted _); [destruct H as (ts & -> & _)|rewrite H]; by eexists.
Qed.

(** ** Honest runs *)

Record mr_inv (nR : Z) (s : MRState) : Prop := {
  mi_nReduce : nReduce (coord s) = nR;
  mi_map_types : Forall (fun t => Type_ t = MapTask) (mapTasks (coord s));
  mi_reduce_types : Forall (fun t => Type_ t = ReduceTask) (reduceTasks (coord s));
  mi_before : c_phase (coord s) = duringMap ->
    reduceTasks (coord s) = [] /\ Forall (fun t => Type_ t = MapTask) (handed s);
  mi_after : c_phase (coord s) <> duringMap ->
    Forall (fun t => State t = Completed) (mapTasks (coord s)) /\
    forall k, (k < Z.to_nat nR)%nat -> exists t, reduceTasks (coord s) !! k = Some t /\ Id t = Z.of_nat k;
}.

Lemma init_mr_inv files nR : mr_inv nR (mr_init files nR).
Proof.
  constructor; simpl; try done.
  apply Forall_lookup. intros i t. rewrite list_lookup_imap. intros (f & _ & ->)%fmap_Some_1. done.
Qed.

Lemma findAvailable_ids now ts r ts' k t :
  findAvailableTask now ts = (r, ts') -> ts !! k = Some t -> exists t', ts' !! k = Some t' /\ Id t' = Id t.
Proof.
  intros Hf Hk. destruct (findAvailableTask_spec now ts) as [[Hs _]|(l1 & x & l2 & -> & _ & _ & Hs)];
    rewrite Hs in Hf; simplify_eq; [eauto|].
  destruct (decide (k = length l1)) as [->|Hne].
  - rewrite list_lookup_middle in Hk; [done|]. simplify_eq. exists (started now t). by rewrite list_lookup_middle.
  - exists t. split; [|done]. rewrite -Hk !lookup_app. destruct (l1 !! k) eqn:Hl; [done|].
    apply lookup_ge_None in Hl. destruct (k - length l1)%nat eqn:Hd; [lia|done].
Qed.

Lemma markCompleted_ids id ts k t :
  ts !! k = Some t -> exists t', markCompleted id ts !! k = Some t' /\ Id t' = Id t.
Proof.
  intros Hk. destruct (markCompleted_spec id ts) as [[-> _]|(l1 & x & l2 & -> & _ & _ & ->)]; [eauto|].
  destruct (decide (k = length l1)) as [->|Hne].
  - rewrite list_lookup_middle in Hk; [done|]. simplify_eq. exists (set_State t Completed). by rewrite list_lookup_middle.
  - exists t. split; [|done]. rewrite -Hk !lookup_app. destruct (l1 !! k) eqn:Hl; [done|].
    apply lookup_ge_None in Hl. destruct (k - length l1)%nat eqn:Hd; [lia|done].
Qed.

Lemma get_task_inv nR s now s' : mr_inv nR s -> mr_step s (RGetTask now) = Ret s' -> mr_inv nR s'.
Proof.
  intros [Hn Hm Hr Hb Ha] Hs. simpl in Hs. unfold HandleGetTaskRequest in Hs.
  destruct (c_phase (coord s)) eqn:Hph.
  - destruct (findAvailableTask now (mapTasks (coord s))) as [r ts] eqn:Hf. inv_ret.
    destruct (findAvailable_Forall (fun t => Type_ t = MapTask) _ _ _ _ (fun _ H => H) Hf Hm) as [Hts Hrt].
    constructor; simpl; try done; try (by rewrite Hph). intros _. destruct (Hb eq_refl) as [-> Hh].
    split; [done|]. apply Forall_app. split; [done|]. destruct r; simpl; [|done]. constructor; auto.
  - destruct (findAvailableTask now (reduceTasks (coord s))) as [r ts] eqn:Hf. inv_ret.
    destruct (findAvailable_Forall (fun t => Type_ t = ReduceTask) _ _ _ _ (fun _ H => H) Hf Hr) as [Hts Hrt].
    constructor; simpl; try done; try (by rewrite Hph). intros _. destruct (Ha ltac:(done)) as [Hc Hids].
    split; [done|]. intros k Hk. destruct (Hids k Hk) as (t & Ht & Hid).
    destruct (findAvailable_ids _ _ _ _ _ _ Hf Ht) as (t' & ? & ?). exists t'. split; [done|congruence].
  - inv_ret. constructor; simpl; try done; try (by rewrite Hph).
Qed.

Lemma set_phase_coord c ts mts p :
  nReduce (set_phase (set_reduceTasks (set_mapTasks c mts) ts) p) = nReduce c.
Proof. done. Qed.

(** The reduce tasks after the last map task is reported. *)
Lemma generated_task nR c (mts ts : list Task) (k : nat) :
  nReduce c = nR ->
  (forall k, ts !! k =
    (if bool_decide (k < Z.to_nat nR)%nat then assigned (len mts) (Z.of_nat k) else id) <$>
    (reduceTasks c ++ (new_reduce_task (len mts) nR <$> seqZ 0 nR)) !! k) ->
  (reduceTasks c = [] \/ forall k, (k < Z.to_nat nR)%nat ->
     exists t, reduceTasks c !! k = Some t /\ Id t = Z.of_nat k) ->
  (k < Z.to_nat nR)%nat -> exists t, ts !! k = Some t /\ Id t = Z.of_nat k.
Proof.
  intros Hn Hts Hold Hk. rewrite Hts bool_decide_true //. destruct Hold as [->|Hold]; simpl.
  - rewrite list_lookup_fmap. exists (assigned (len mts) (Z.of_nat k) (new_reduce_task (len mts) nR (Z.of_nat k))).
    rewrite lookup_seqZ_lt; [lia|]. split; [|done]. simpl. by replace (0 + Z.of_nat k) with (Z.of_nat k) by lia.
  - destruct (Hold k Hk) as (t & Ht & Hid). exists (assigned (len mts) (Z.of_nat k) t).
    rewrite (lookup_app_l_Some _ _ _ _ Ht). done.
Qed.

Lemma task_done_inv nR s task s' :
  mr_inv nR s -> honest s (RTaskDone task) -> mr_step s (RTaskDone task) = Ret s' -> mr_inv nR s'.
Proof.
  intros [Hn Hm Hr Hb Ha] (t & st & Ht & ->) Hs. simpl in Hs. inv_ret. unfold TaskDone in Hm0. simpl in Hm0.
  destruct (Type_ t) eqn:Hty; inv_ret; try done.
  - pose proof (TaskDoneMap_spec (coord s) (set_State t st)) as Hd. simpl in Hd.
    set (mts := markCompleted (Id t) (mapTasks (coord s))) in *.
    assert (Forall (fun t => Type_ t = MapTask) mts) as Hmts by by apply markCompleted_Forall.
    destruct (allCompleted mts) eqn:Hall.
    + destruct Hd as (ts & Hd & Hl & Hts). rewrite Hd in Hm0. inv_ret. 
      constructor; simpl; try done.
      * apply Forall_lookup. intros k x. rewrite Hts. intros (y & Hy & ->)%fmap_Some_1.
        assert (Type_ y = ReduceTask) by
          (apply lookup_app_Some in Hy as [Hy|[_ Hy]]; [exact (Forall_lookup_1 _ _ _ _ Hr Hy)|];
           rewrite list_lookup_fmap in Hy; by apply fmap_Some_1 in Hy as (z & _ & ->)).
        by case_bool_decide.
      * intros _. split; [by apply allCompleted_spec|]. intros k Hk. eapply generated_task; eauto.
        destruct (decide (c_phase (coord s) = duringMap)) as [Hp|Hp]; [left; by apply Hb|right; by apply Ha].
    + rewrite Hd in Hm0. inv_ret. constructor; simpl; try done. intros Hp. destruct (Ha Hp) as [Hc _].
      exfalso. apply not_true_iff_false in Hall. apply Hall, allCompleted_spec. by apply markCompleted_Forall.
  - assert (c_phase (coord s) <> duringMap) as Hp.
    { intros Hp. destruct (Hb Hp) as [_ Hh]. rewrite Forall_forall in Hh. specialize (Hh t Ht). congruence. }
    destruct (Ha Hp) as [Hc Hids]. unfold TaskDoneReduce. simpl.
    set (rts := markCompleted (Id t) (reduceTasks (coord s))).
    assert (Forall (fun t => Type_ t = ReduceTask) rts) as Hrts by by apply markCompleted_Forall.
    assert (forall k, (k < Z.to_nat (nReduce (coord s)))%nat -> exists t, rts !! k = Some t /\ Id t = Z.of_nat k) as Hids'.
    { intros k Hk. destruct (Hids k Hk) as (x & Hx & Hid).
      destruct (markCompleted_ids (Id t) _ _ _ Hx) as (x' & ? & ?). exists x'. split; [done|congruence]. }
    destruct (allCompleted rts); constructor; simpl; try done.
Qed.

Lemma mr_reachable_inv files nR s : mr_reachable files nR s -> mr_inv nR s.
Proof.
  revert s. apply (rtc_ind_r (fun s => mr_inv nR s) (mr_init files nR)); [apply init_mr_inv|].
  intros s1 s2 _ ([now|task] & Hok & Hs) HI; [eapply get_task_inv; eauto|eapply task_done_inv; eauto].
Qed.

(** ** Doomed jobs *)

(** Two reduce tasks with one id, the later one not completed. *)
Definition doomed c : Prop :=
  c_phase c <> finish /\ exists i j ti tj, (i < j)%nat /\ reduceTasks c !! i = Some ti /\
    reduceTasks c !! j = Some tj /\ Id ti = Id tj /\ State tj <> Completed.

Lemma markCompleted_later id ts i j ti tj :
  (i < j)%nat -> ts !! i = Some ti -> ts !! j = Some tj -> Id ti = Id tj ->
  markCompleted id ts !! j = Some tj.
Proof.
  intros Hij Hi Hj Hid. destruct (markCompleted_spec id ts) as [[-> _]|(l1 & x & l2 & -> & Hf & Hx & ->)]; [done|].
  destruct (decide (j = length l1)) as [->|Hne].
  - exfalso. rewrite list_lookup_middle in Hj; [done|]. simplify_eq.
    rewrite lookup_app_l in Hi; [lia|]. by apply (Forall_lookup_1 _ _ _ _ Hf Hi).
  - rewrite -Hj !lookup_app. destruct (l1 !! j) eqn:Hl; [done|].
    apply lookup_ge_None in Hl. destruct (j - length l1)%nat eqn:Hd; [lia|done].
Qed.

Lemma doomed_not_all c : doomed c -> allCompleted (reduceTasks c) = false.
Proof.
  intros (_ & i & j & ti & tj & _ & _ & Hj & _ & Hst). apply not_true_iff_false.
  intros Ha%allCompleted_spec. by apply Hst, (Forall_lookup_1 _ _ _ _ Ha Hj).
Qed.

Lemma findAvailable_state now ts r ts' k t :
  findAvailableTask now ts = (r, ts') -> ts !! k = Some t -> State t <> Completed ->
  exists t', ts' !! k = Some t' /\ Id t' = Id t /\ State t' <> Completed.
Proof.
  intros Hf Hk Hst. destruct (findAvailableTask_spec now ts) as [[Hs _]|(l1 & x & l2 & -> & _ & _ & Hs)];
    rewrite Hs in Hf; simplify_eq; [eauto|].
  destruct (decide (k = length l1)) as [->|Hne].
  - rewrite list_lookup_middle in Hk; [done|]. simplify_eq. exists (started now t). by rewrite list_lookup_middle.
  - exists t. split; [|done]. rewrite -Hk !lookup_app. destruct (l1 !! k) eqn:Hl; [done|].
    apply lookup_ge_None in Hl. destruct (k - length l1)%nat eqn:Hd; [lia|done].
Qed.

Lemma doomed_get s now s' : doomed (coord s) -> mr_step s (RGetTask now) = Ret s' -> doomed (coord s').
Proof.
  intros (Hp & i & j & ti & tj & Hij & Hi & Hj & Hid & Hst) Hs. simpl in Hs. unfold HandleGetTaskRequest in Hs.
  destruct (c_phase (coord s)) eqn:Hph; [..|done].
  - destruct (findAvailableTask now (mapTasks (coord s))) as [r ts]. inv_ret.
    split; [by simpl; rewrite Hph|]. by exists i, j, ti, tj.
  - destruct (findAvailableTask now (reduceTasks (coord s))) as [r ts] eqn:Hf. inv_ret.
    split; [by simpl; rewrite Hph|].
    destruct (findAvailable_ids _ _ _ _ _ _ Hf Hi) as (ti' & Hi' & Hidi).
    destruct (findAvailable_state _ _ _ _ _ _ Hf Hj Hst) as (tj' & Hj' & Hidj & Hst').
    exists i, j, ti', tj'. split_and!; try done. congruence.
Qed.

Lemma doomed_done s task s' : doomed (coord s) -> mr_step s (RTaskDone task) = Ret s' -> doomed (coord s').
Proof.
  intros Hdm Hs. pose proof Hdm as (Hp & i & j & ti & tj & Hij & Hi & Hj & Hid & Hst).
  simpl in Hs. inv_ret. simpl. unfold TaskDone in Hm. destruct (Type_ task); inv_ret; try done.
  - pose proof (TaskDoneMap_spec (coord s) task) as Hd. simpl in Hd.
    destruct (allCompleted _); [destruct Hd as (ts & Hd & _ & Hts)|]; rewrite Hd in Hm; inv_ret.
    + split; [done|]. exists i, j. do 2 eexists. split; [done|]. simpl. rewrite !Hts (lookup_app_l_Some _ _ _ _ Hi) (lookup_app_l_Some _ _ _ _ Hj).
      split; [done|]. split; [done|]. by repeat case_bool_decide.
    + split; [done|]. by exists i, j, ti, tj.
  - unfold TaskDoneReduce. simpl.
    destruct (markCompleted_ids (Id task) _ _ _ Hi) as (ti' & Hi' & Hidi).
    pose proof (markCompleted_later (Id task) _ _ _ _ _ Hij Hi Hj Hid) as Hj'.
    assert (doomed (set_reduceTasks (coord s) (markCompleted (Id task) (reduceTasks (coord s))))) as Hdm'.
    { split; [done|]. exists i, j, ti', tj. split_and!; try done. congruence. }
    apply doomed_not_all in Hdm' as Hna. simpl in Hna. by rewrite Hna.
Qed.

Lemma doomed_forever s s' : doomed (coord s) -> rtc (mr_rel (fun _ _ => True)) s s' -> doomed (coord s').
Proof.
  intros Hd Hr. induction Hr as [s|s1 s2 s3 ([now|task] & _ & Hs) _ IH]; [done|..]; apply IH;
    [eapply doomed_get; eauto|eapply doomed_done; eauto].
Qed.

(** ** Runs without late reports *)

Definition shape (t : Task) : TaskType * Z * list string := (Type_ t, Id t, FileNames t).

Definition reduce_shapes (nmaps nR : Z) : list (TaskType * Z * list string) :=
  (fun i => (ReduceTask, i, partition_files nmaps i)) <$> seqZ 0 nR.

Record timely_inv (s : MRState) : Prop := {
  ti_before : c_phase (coord s) = duringMap -> reduceTasks (coord s) = [];
  ti_after : c_phase (coord s) <> duringMap ->
    shape <$> reduceTasks (coord s) = reduce_shapes (len (mapTasks (coord s))) (nReduce (coord s));
  ti_finish : c_phase (coord s) = finish -> allCompleted (reduceTasks (coord s)) = true;
}.

Lemma findAvailable_shape now ts r ts' :
  findAvailableTask now ts = (r, ts') -> shape <$> ts' = shape <$> ts.
Proof.
  intros Hf. destruct (findAvailableTask_spec now ts) as [[Hs _]|(l1 & x & l2 & -> & _ & _ & Hs)];
    rewrite Hs in Hf; simplify_eq; [done|]. by rewrite !fmap_app.
Qed.

Lemma markCompleted_shape id ts : shape <$> markCompleted id ts = shape <$> ts.
Proof.
  destruct (markCompleted_spec id ts) as [[-> _]|(l1 & x & l2 & -> & _ & _ & ->)]; [done|].
  by rewrite !fmap_app.
Qed.

Lemma findAvailable_length now ts r ts' : findAvailableTask now ts = (r, ts') -> len ts' = len ts.
Proof.
  intros Hf%findAvailable_shape. apply (f_equal length) in Hf. rewrite !length_fmap in Hf. unfold len. lia.
Qed.

(** The reduce tasks made by the report of the last map task. *)
Lemma generated_shapes nR (mts ts : list Task) :
  length ts = Z.to_nat nR ->
  (forall k, ts !! k =
    (if bool_decide (k < Z.to_nat nR)%nat then assigned (len mts) (Z.of_nat k) else id) <$>
    (new_reduce_task (len mts) nR <$> seqZ 0 nR) !! k) ->
  shape <$> ts = reduce_shapes (len mts) nR.
Proof.
  intros Hl Hts. apply list_eq. intros k. unfold reduce_shapes.
  rewrite (list_lookup_fmap shape) Hts (list_lookup_fmap (new_reduce_task _ _)) (list_lookup_fmap (fun i => (ReduceTask, i, _))).
  destruct (decide (k < Z.to_nat nR)%nat) as [Hk|Hk].
  - assert (seqZ 0 nR !! k = Some (Z.of_nat k)) as -> by (rewrite lookup_seqZ_lt; [lia|f_equal; lia]).
    by rewrite bool_decide_true.
  - assert (seqZ 0 nR !! k = None) as -> by (apply lookup_seqZ_ge; lia). done.
Qed.

Lemma timely_step s r s' :
  timely_inv s -> timely s r -> mr_inv (nReduce (coord s)) s -> honest s r ->
  mr_step s r = Ret s' -> timely_inv s'.
Proof.
  intros [Hb Ha Hfin] Ht HI Hho Hs. destruct r as [now|task]; simpl in Hs.
  - unfold HandleGetTaskRequest in Hs. destruct (c_phase (coord s)) eqn:Hph.
    + destruct (findAvailableTask now (mapTasks (coord s))) as [x ts] eqn:Hf. inv_ret.
      constructor; simpl; rewrite Hph; try done.
    + destruct (findAvailableTask now (reduceTasks (coord s))) as [x ts] eqn:Hf. inv_ret.
      constructor; simpl; rewrite ?Hph; try done. intros _.
      rewrite (findAvailable_shape _ _ _ _ Hf). by apply Ha.
    + inv_ret. constructor; simpl; rewrite ?Hph; auto.
  - inv_ret. unfold TaskDone in Hm. destruct (Type_ task) eqn:Hty; inv_ret; try done.
    + specialize (Ht Hty).
      pose proof (TaskDoneMap_spec (coord s) task) as Hd. simpl in Hd. rewrite (Hb Ht) in Hd.
      destruct (allCompleted (markCompleted _ _)); [destruct Hd as (ts & Hd & Hl & Hts)|]; rewrite Hd in Hm; inv_ret.
      * constructor; simpl; try done. intros _. by apply generated_shapes.
      * constructor; simpl; rewrite ?Ht; try done. intros _. by apply Hb.
    + assert (c_phase (coord s) <> duringMap) as Hp.
      { intros Hp. destruct Hho as (t & st & Hin & ->). destruct (mi_before _ _ HI Hp) as [_ Hh].
        rewrite Forall_forall in Hh. specialize (Hh t Hin). simpl in Hty. congruence. }
      unfold TaskDoneReduce. cbn [reduceTasks set_reduceTasks].
      set (rts := markCompleted (Id task) (reduceTasks (coord s))).
      assert (shape <$> rts = shape <$> reduceTasks (coord s)) as Hsh by apply markCompleted_shape.
      destruct (allCompleted rts) eqn:Hall; constructor; simpl; try done;
        try (intros _; rewrite Hsh; by apply Ha).
      intros Hf. exfalso. apply not_true_iff_false in Hall. apply Hall, allCompleted_spec.
      apply markCompleted_Forall; [done|]. by apply allCompleted_spec, Hfin.
Qed.

Lemma timely_reachable files nR s : mr_timely files nR s -> mr_reachable files nR s.
Proof. apply rtc_subrel. intros s1 s2 (r & [Hh _] & Hs). by exists r. Qed.

Lemma mr_timely_inv files nR s : mr_timely files nR s -> timely_inv s /\ nReduce (coord s) = nR.
Proof.
  revert s. apply (rtc_ind_r (fun s => timely_inv s /\ nReduce (coord s) = nR) (mr_init files nR)).
  - split; [|done]. by constructor.
  - intros s1 s2 Hr (r & [Hh Ht] & Hs) [HI Hn].
    assert (mr_inv nR s1) as HM by by apply (mr_reachable_inv files), timely_reachable.
    split; [apply (timely_step s1 r); try done; by rewrite Hn|].
    assert (mr_inv nR s2) as HM2; [|by destruct HM2].
    destruct r as [now|task]; [eapply get_task_inv; eauto|eapply task_done_inv; eauto].
Qed.

(** ** One task after the other *)

(** The first [k] tasks are completed, the others idle; ids are indices. *)
Definition progress (k : nat) (ts : list Task) : Prop :=
  forall i t, ts !! i = Some t -> Id t = Z.of_nat i /\ State t = if bool_decide (i < k)%nat then Completed else Idle.

Lemma progress_all k ts : progress k ts -> (k <= length ts)%nat -> allCompleted ts = bool_decide (k = length ts).
Proof.
  intros Hp Hk. case_bool_decide as Hkl.
  - apply allCompleted_spec, Forall_lookup. intros i t Hi. destruct (Hp i t Hi) as [_ ->].
    apply lookup_lt_Some in Hi. by rewrite bool_decide_true; [lia|].
  - apply not_true_iff_false. intros Ha%allCompleted_spec.
    destruct (lookup_lt_is_Some_2 ts k) as [t Ht]; [lia|]. pose proof (Forall_lookup_1 _ _ _ _ Ha Ht) as Hc.
    destruct (Hp k t Ht) as [_ Hs]. rewrite bool_decide_false in Hs; [lia|]. simpl in Hc. congruence.
Qed.

Lemma markCompleted_middle id l1 t l2 :
  Forall (fun y => Id y <> id) l1 -> Id t = id ->
  markCompleted id (l1 ++ t :: l2) = l1 ++ set_State t Completed :: l2.
Proof.
  intros Hf Hid. induction Hf as [|y l Hy _ IH]; simpl; [by rewrite bool_decide_true|].
  rewrite bool_decide_false //. by rewrite IH.
Qed.

Lemma progress_mark k l1 t l2 now :
  progress k (l1 ++ t :: l2) -> length l1 = k ->
  markCompleted (Id t) (l1 ++ started now t :: l2) = l1 ++ set_State (started now t) Completed :: l2.
Proof.
  intros Hp Hk. apply markCompleted_middle; [|done]. apply Forall_lookup. intros i y Hi.
  apply lookup_lt_Some in Hi as Hlt. destruct (Hp i y) as [-> _]; [by rewrite lookup_app_l|].
  destruct (Hp k t) as [-> _]; [by apply list_lookup_middle|]. lia.
Qed.

Lemma serve_next now k ts :
  progress k ts -> (k < length ts)%nat ->
  exists t ts', findAvailableTask now ts = (Some t, ts') /\ t ∈ ts' /\ Id t = Z.of_nat k /\
    progress (k + 1) (markCompleted (Id t) ts') /\ length (markCompleted (Id t) ts') = length ts.
Proof.
  intros Hp Hk. assert (forall i t, ts !! i = Some t -> available now t = negb (bool_decide (i < k)%nat)) as Hav.
  { intros i t Hi. destruct (Hp i t Hi) as [_ Hs]. unfold available. rewrite Hs. by case_bool_decide. }
  destruct (lookup_lt_is_Some_2 ts k Hk) as [x Hx].
  destruct (findAvailableTask_spec now ts) as [[_ Hf]|(l1 & t & l2 & -> & Hf & Ha & ->)].
  { pose proof (Forall_lookup_1 _ _ _ _ Hf Hx) as Hn. simpl in Hn. rewrite (Hav k x Hx) bool_decide_false in Hn; [lia|done]. }
  assert (length l1 = k) as Hl1.
  { rewrite (Hav (length l1) t) in Ha; [by apply list_lookup_middle|]. apply negb_true_iff, bool_decide_eq_false in Ha.
    destruct (decide (length l1 = k)) as [|Hne]; [done|]. rewrite lookup_app_l in Hx; [lia|].
    pose proof (Forall_lookup_1 _ _ _ _ Hf Hx) as Hn. simpl in Hn.
    rewrite (Hav k x) in Hn; [by rewrite lookup_app_l; [lia|]|]. by rewrite bool_decide_false in Hn; [lia|]. }
  destruct (Hp k t) as [Hid _]; [by apply list_lookup_middle|].
  exists (started now t), (l1 ++ started now t :: l2). split_and!; [done|apply elem_of_app; right; left|done|..].
  - change (Id (started now t)) with (Id t). rewrite (progress_mark _ _ _ _ _ Hp Hl1). intros i y Hy.
    destruct (decide (i = k)) as [->|Hne].
    + rewrite list_lookup_middle in Hy; [done|]. injection Hy as <-. split; [done|]. by rewrite bool_decide_true; [lia|].
    + destruct (Hp i y) as [H1 H2].
      { rewrite -Hy !lookup_app. destruct (l1 !! i) eqn:El; [done|]. apply lookup_ge_None in El.
        destruct (i - length l1)%nat eqn:Ed; [lia|done]. }
      split; [done|]. rewrite H2. destruct (decide (i < k)%nat); [by rewrite !bool_decide_true; [lia..|]|].
      by rewrite !bool_decide_false; [lia..|].
  - rewrite markCompleted_length !length_app. done.
Qed.

(** ** Theorems *)

(** C24. Reduce starts after map: when the coordinator of an honest run hands out a
    reduce task, or tells a worker that everything is done, every map task is
    completed. *)
Theorem reduce_after_map (files : list string) (nR : Z) (s : MRState) (now : Z) (t : Task) c' :
  mr_reachable files nR s -> HandleGetTaskRequest now (coord s) = (Some t, c') ->
  Type_ t <> MapTask -> Forall (fun m => State m = Completed) (mapTasks (coord s)).
Proof.
  intros [_ Hm _ _ Ha]%mr_reachable_inv Hg Hty. unfold HandleGetTaskRequest in Hg.
  destruct (c_phase (coord s)) eqn:Hph; [|by apply Ha..].
  destruct (findAvailableTask now (mapTasks (coord s))) as [r ts] eqn:Hf. simplify_eq.
  destruct (findAvailable_Forall (fun t => Type_ t = MapTask) _ _ _ _ (fun _ H => H) Hf Hm) as [_ Hr].
  by destruct Hty; apply Hr.
Qed.

(** Leases: a task is handed out only if it is idle or was started more than
    [TaskTimeout] ago, never when it is completed, and no earlier task of the
    phase was available. *)
Lemma task_is_leased (now : Z) (ts : list Task) (t : Task) (ts' : list Task) :
  findAvailableTask now ts = (Some t, ts') ->
  exists l1 t0 l2, ts = l1 ++ t0 :: l2 /\ ts' = l1 ++ t :: l2 /\
    Id t = Id t0 /\ State t = InProgress /\ StartTime t = now /\
    (State t0 = Idle \/ (State t0 = InProgress /\ now - StartTime t0 > TaskTimeout)) /\
    Forall (fun x => State x = Completed \/ (State x = InProgress /\ now - StartTime x <= TaskTimeout)) l1.
Proof.
  intros Hf. destruct (findAvailableTask_spec now ts) as [[Hs _]|(l1 & t0 & l2 & -> & Hl1 & Ha & Hs)];
    rewrite Hs in Hf; simplify_eq.
  exists l1, t0, l2. split_and!; try done.
  - unfold available in Ha. apply orb_true_iff in Ha as [Ha|[Ha1 Ha2]%andb_true_iff].
    + left. by apply bool_decide_eq_true in Ha.
    + right. apply bool_decide_eq_true in Ha1, Ha2. done.
  - eapply Forall_impl; [exact Hl1|]. intros x Hx. unfold available in Hx.
    destruct (State x); simpl in Hx; [done|right|by left].
    split; [done|]. apply bool_decide_eq_false in Hx. lia.
Qed.

(** In a run without late reports the reduce tasks are one per partition, each
    with the intermediate files of its partition, one per map task, and when
    the job is done all of them are completed. *)
Lemma one_reduce_task_per_partition (files : list string) (nR : Z) (s : MRState) :
  mr_timely files nR s -> c_phase (coord s) <> duringMap ->
  shape <$> reduceTasks (coord s) = reduce_shapes (len (mapTasks (coord s))) nR /\
  (Done (coord s) = true -> allCompleted (reduceTasks (coord s)) = true).
Proof.
  intros [[_ Ha Hf] <-]%mr_timely_inv Hp. split; [by apply Ha|].
  intros Hd%bool_decide_eq_true. by apply Hf.
Qed.

(** A map task reported once more after the map phase, as happens when it was
    given to a second worker after [TaskTimeout], blocks the job: the
    coordinator adds a second task for every partition, [TaskDoneReduce] only
    ever completes the first one with an id, and [Done] is never true again,
    whatever the workers do. *)
Lemma late_map_report_blocks_job (files : list string) (nR : Z) (s : MRState) (t : Task) (st : TaskState) :
  mr_reachable files nR s -> 0 < nR -> c_phase (coord s) <> duringMap ->
  t ∈ handed s -> Type_ t = MapTask ->
  exists s1, mr_step s (RTaskDone (set_State t st)) = Ret s1 /\
    forall s2, rtc (mr_rel (fun _ _ => True)) s1 s2 -> Done (coord s2) = false.
Proof.
  intros [Hn _ _ _ Ha]%mr_reachable_inv HnR Hp Ht Hty. destruct (Ha Hp) as [Hc Hids].
  pose proof (TaskDoneMap_spec (coord s) (set_State t st)) as Hd. simpl in Hd.
  assert (allCompleted (markCompleted (Id t) (mapTasks (coord s))) = true) as Hall
    by (apply allCompleted_spec; by apply markCompleted_Forall).
  rewrite Hall in Hd. destruct Hd as (ts & Hd & Hl & Hts).
  simpl. unfold TaskDone. simpl. rewrite Hty Hd /=. eexists. split; [done|].
  intros s2 Hr. apply doomed_forever in Hr as [Hd2 _]; [by apply bool_decide_eq_false|].
  split; [done|]. simpl. destruct (Hids 0%nat) as (t0 & Ht0 & Hid0); [lia|].
  exists 0%nat, (length (reduceTasks (coord s))). pose proof (lookup_lt_Some _ _ _ Ht0) as Hlen.
  rewrite !Hts (lookup_app_l_Some _ _ _ _ Ht0) lookup_app_r // Nat.sub_diag list_lookup_fmap lookup_seqZ_lt; [lia|].
  do 2 eexists. split; [done|]. split; [done|]. split; [done|]. by repeat case_bool_decide.
Qed.

(** ** A run *)

(** One input file and one partition; the map task is given to two workers. *)
Definition mr_requests : list Request :=
  [RGetTask 0; RGetTask (11 * Second)].

Fixpoint mr_run (s : MRState) (rs : list Request) : outcome MRState :=
  match rs with [] => Ret s | r :: rs => s ← mr_step s r; mr_run s rs end.

Definition mr_after (s : MRState) (rs : list Request) : MRState :=
  match mr_run s rs with Ret s' => s' | Panic _ => s end.

Definition mr_two_leases : MRState := mr_after (mr_init ["pg.txt"%string] 1) mr_requests.

(** The task as the second worker received it. *)
Definition mr_leased : Task :=
  mkTask MapTask ["pg.txt"%string] 0 (11 * Second) InProgress 0 1.

(** The first worker reports it. *)
Definition mr_map_done : MRState := mr_after mr_two_leases [RTaskDone (set_State mr_leased Completed)].

Lemma mr_two_leases_timely : mr_timely ["pg.txt"%string] 1 mr_two_leases.
Proof.
  eapply rtc_l; [exists (RGetTask 0); split; [done|vm_compute; reflexivity]|].
  eapply rtc_l; [exists (RGetTask (11 * Second)); split; [done|vm_compute; reflexivity]|].
  apply rtc_refl.
Qed.

Lemma mr_map_done_timely : mr_timely ["pg.txt"%string] 1 mr_map_done.
Proof.
  eapply rtc_r; [apply mr_two_leases_timely|].
  exists (RTaskDone (set_State mr_leased Completed)). split; [|vm_compute; reflexivity]. split; [|done].
  exists mr_leased, Completed. split; [|done]. right. left.
Qed.

(** A worker that failed reports the task with [State] set to [Idle], but the
    coordinator does not look at the state: the map phase ends although the
    only map task was never executed. *)
Lemma failed_map_counts_as_done :
  exists (s s' : MRState) (t : Task), mr_timely ["pg.txt"%string] 1 s /\ t ∈ handed s /\ State t <> Completed /\
    mr_step s (RTaskDone (set_State t Idle)) = Ret s' /\ c_phase (coord s') = duringReduce /\
    allCompleted (mapTasks (coord s')) = true.
Proof.
  exists mr_two_leases. eexists. exists mr_leased. split; [apply mr_two_leases_timely|].
  split; [right; left|]. split; [done|]. split; [vm_compute; reflexivity|]. split; vm_compute; reflexivity.
Qed.

(** ** Witnesses *)

Lemma reduce_after_map_witness : Forall (fun m => State m = Completed) (mapTasks (coord mr_map_done)).
Proof.
  eapply (reduce_after_map ["pg.txt"%string] 1 mr_map_done 0);
    [apply timely_reachable, mr_map_done_timely|vm_compute; reflexivity|discriminate].
Defined.

Lemma task_is_leased_witness :
  exists l1 t0 l2, mapTasks (coord (mr_init ["pg.txt"%string] 1)) = l1 ++ t0 :: l2 /\
    mapTasks (coord mr_two_leases) = l1 ++ mr_leased :: l2 /\
    Id mr_leased = Id t0 /\ State mr_leased = InProgress /\ StartTime mr_leased = 11 * Second /\
    (State t0 = Idle \/ (State t0 = InProgress /\ 11 * Second - StartTime t0 > TaskTimeout)) /\
    Forall (fun x => State x = Completed \/ (State x = InProgress /\ 11 * Second - StartTime x <= TaskTimeout)) l1.
Proof. apply (task_is_leased (11 * Second)). vm_compute. reflexivity. Defined.

Lemma one_reduce_task_per_partition_witness :
  shape <$> reduceTasks (coord mr_map_done) = reduce_shapes 1 1 /\
  (Done (coord mr_map_done) = true -> allCompleted (reduceTasks (coord mr_map_done)) = true).
Proof.
  apply (one_reduce_task_per_partition ["pg.txt"%string] 1 mr_map_done mr_map_done_timely).
  vm_compute. discriminate.
Defined.

Lemma late_map_report_blocks_job_witness :
  exists s1, mr_step mr_map_done (RTaskDone (set_State mr_leased Completed)) = Ret s1 /\
    forall s2, rtc (mr_rel (fun _ _ => True)) s1 s2 -> Done (coord s2) = false.
Proof.
  apply (late_map_report_blocks_job ["pg.txt"%string] 1);
    [apply timely_reachable, mr_map_done_timely|lia|vm_compute; discriminate|right; left|reflexivity].
Defined.
