(* ===== verification/MRWorker.v ===== *)
(** * MRWorker: the MapReduce worker and the sequential MapReduce

    src/src/mr/worker.go and src/src/main/mrsequential.go.  A file system is a
    finite map from names to contents; the functions that use it live in a
    small monad that keeps the files a failed function leaves behind.  A file
    that does not exist cannot be opened or renamed; a full disk and other I/O
    errors are not modelled.  [mapf] and [reducef] come from a plugin and may
    panic.

    Parameters: [timeString], how [%v] prints a [time.Time], and the order in
    which [sort.Slice] leaves pairs with the same key ([KeySort]). *)

From S2P Require Import Prelude GoStrings MRCoordinator.
From Stdlib Require Import Ascii.
Local Open Scope Z_scope.
Local Open Scope string_scope.

(** ** Files *)

Definition FS := gmap string string.

(** [panic] unwinds to the deferred function, [log.Fatalf] ends the process. *)
Inductive stop := Panicked (msg : string) | Exited (msg : string).

Definition io (A : Type) : Type := FS -> FS * (A + stop).

#[export] Instance io_ret : MRet io := fun A a fs => (fs, inl a).

#[export] Instance io_bind : MBind io := fun A B f m fs =>
  match m fs with
  | (fs, inl a) => f a fs
  | (fs, inr e) => (fs, inr e)
  end.

Definition lift {A} (m : outcome A) : io A := fun fs =>
  match m with Ret a => (fs, inl a) | Panic e => (fs, inr (Panicked e)) end.

Definition go_panic {A} (msg : string) : io A := fun fs => (fs, inr (Panicked msg)).
Definition log_Fatal {A} (msg : string) : io A := fun fs => (fs, inr (Exited msg)).

(** [os.Open] and [ioutil.ReadAll] *)
Definition readFile (name : string) : io (option string) := fun fs => (fs, inl (fs !! name)).

(** [os.OpenFile] with [O_CREATE|O_TRUNC], [os.Create] *)
Definition createFile (name : string) : io string := fun fs => (<[name := ""]> fs, inl name).

Definition writeString (name text : string) : io unit := fun fs => (alter (fun old => old +:+ text) name fs, inl tt).

Definition rename (old new : string) : io bool := fun fs =>
  match fs !! old with
  | None => (fs, inl false)
  | Some c => (<[new := c]> (delete old fs), inl true)
  end.

Definition remove (name : string) : io unit := fun fs => (delete name fs, inl tt).

Fixpoint for_each {A} (l : list A) (f : A -> io unit) : io unit :=
  match l with
  | [] => mret tt
  | a :: l => _ ← f a; for_each l f
  end.

(** ** Keys *)

Record KeyValue := mkKeyValue { Key : string; Value : string }.

#[export] Instance KeyValue_eq_dec : EqDecision KeyValue.
Proof. solve_decision. Defined.

(** [hash/fnv], 32 bits, FNV-1a *)
Definition fnv_offset : Z := 2166136261.
Definition fnv_prime : Z := 16777619.

Fixpoint fnv32a (h : Z) (s : string) : Z :=
  match s with
  | EmptyString => h
  | String c s => fnv32a ((Z.lxor h (Z.of_N (byte_of c)) * fnv_prime) `mod` 2 ^ 32) s
  end.

Definition ihash (key : string) : Z := Z.land (fnv32a fnv_offset key) 0x7fffffff.

(** [ihash(kv.Key) % task.NReduce] *)
Definition bucketIndex (key : string) (n : Z) : outcome Z :=
  if bool_decide (n = 0) then Panic "integer divide by zero" else Ret (Z.rem (ihash key) n).

(** [sort.Slice] with [kvs[i].Key < kvs[j].Key]: a permutation in which no pair
    is before one with a smaller key. *)
Class KeySort := {
  sortByKey : list KeyValue -> list KeyValue;
  sortByKey_perm l : sortByKey l ≡ₚ l;
  sortByKey_sorted l : StronglySorted (fun a b => String.ltb (Key b) (Key a) = false) (sortByKey l);
}.

Section worker.
Context (timeString : Z -> string) `{!KeySort}.
Context (mapf : string -> string -> outcome (list KeyValue)) (reducef : string -> list string -> outcome string).

(** ** Map tasks *)

(** [fmt.Sprintf("%s %s\n", key, value)] *)
Definition kvLine (key value : string) : string := key +:+ String " " value.
Definition newline (s : string) : string := s +:+ String LF "".

(** [%s/mr-%d-%d.tmp%v] with the start time in nanoseconds. *)
Definition bucketName (task : Task) (i : Z) : string :=
  "./intermediates/mr-" +:+ pretty (Id task) +:+ "-" +:+ pretty i +:+ String "." ("tmp" +:+ pretty (StartTime task)).

Definition openBuckets (task : Task) : io (list string) :=
  if bool_decide (NReduce task < 0) then go_panic "makeslice: len out of range" else
  mapM (fun i => createFile (bucketName task i)) (seqZ 0 (NReduce task)).

Definition writeBuckets (task : Task) (bucketfiles : list string) (kvs : list KeyValue) : io unit :=
  for_each kvs (fun kv =>
    idx ← lift (bucketIndex (Key kv) (NReduce task));
    file ← lift (slice_get bucketfiles idx);
    writeString file (newline (kvLine (Key kv) (Value kv)))).

Definition renameBuckets (bucketfiles : list string) : io unit :=
  for_each bucketfiles (fun originalName =>
    let finalName := TrimSuffix originalName (Ext originalName) in
    ok ← rename originalName finalName;
    if ok : bool then mret tt else log_Fatal "cannot rename intermediate file").

Definition mapBody (task : Task) : io unit :=
  name ← lift (slice_get (FileNames task) 0);
  file ← readFile name;
  content ← (match file with Some content => mret content | None => log_Fatal "cannot open" end : io string);
  kvs ← lift (mapf name content);
  bucketfiles ← openBuckets task;
  _ ← writeBuckets task bucketfiles kvs;
  renameBuckets bucketfiles.

(** How a handler ends: the task it reported, if it did, and whether the
    process goes on. *)
Record Handled := mkHandled { reported : option Task; alive : bool }.

Definition staleName (task : Task) (name : string) (i : Z) : string :=
  "./intermediates/mr-" +:+ TrimSuffix (Base name) ".txt" +:+ "-" +:+ pretty i +:+ ".tmp" +:+ timeString (StartTime task).

(** The loop of the deferred function. *)
Definition mapCleanup (task : Task) : io unit :=
  for_each (seqZ 0 (NReduce task)) (fun i =>
    name ← lift (slice_get (FileNames task) 0);
    remove (staleName task name i)).

(** The deferred function reports the task and then cleans up. *)
Definition deferred (task : Task) (cleanup : io unit) (r : FS * (unit + stop)) : FS * Handled :=
  let report fs task :=
    match cleanup fs with
    | (fs, inl _) => (fs, mkHandled (Some task) true)
    | (fs, inr _) => (fs, mkHandled (Some task) false)
    end in
  match r with
  | (fs, inl _) => report fs (set_State task Completed)
  | (fs, inr (Panicked _)) => report fs (set_State task Idle)
  | (fs, inr (Exited _)) => (fs, mkHandled None false)
  end.

Definition HandleMapTask (task : Task) (fs : FS) : FS * Handled :=
  deferred task (mapCleanup task) (mapBody task fs).

(** ** Reduce tasks *)

Fixpoint parseLines (lines : list string) (kvs : list KeyValue) : io (list KeyValue) :=
  match lines with
  | [] => mret kvs
  | line :: lines =>
      match Fields line with
      | [k; v] => parseLines lines (kvs ++ [mkKeyValue k v])
      | _ => go_panic "worker crash on reduce task, kv format wrong"
      end
  end.

(** [for j < len(kvs) && kvs[j].Key == kvs[i].Key { j++ }] *)
Fixpoint groupEnd (fuel : nat) (kvs : list KeyValue) (key : string) (j : nat) : nat :=
  match fuel with
  | O => j
  | Datatypes.S fuel =>
      match kvs !! j with
      | Some kv => if bool_decide (Key kv = key) then groupEnd fuel kvs key (j + 1) else j
      | None => j
      end
  end.

(** [for k := i; k < j; k++ { values = append(values, kvs[k].Value) }] *)
Definition groupValues (kvs : list KeyValue) (i j : nat) : list string :=
  omap (fun k => Value <$> kvs !! k) (seq i (j - i)).

Fixpoint groupLoop (fuel : nat) (ofile : string) (kvs : list KeyValue) (i : nat) : io unit :=
  match fuel with
  | O => mret tt
  | Datatypes.S fuel =>
      match kvs !! i with
      | None => mret tt
      | Some kv =>
          let j := groupEnd (length kvs) kvs (Key kv) (i + 1) in
          output ← lift (reducef (Key kv) (groupValues kvs i j));
          _ ← writeString ofile (newline (kvLine (Key kv) output));
          groupLoop fuel ofile kvs j
      end
  end.

(** One iteration per distinct run of keys, and a last test. *)
Definition writeGroups (ofile : string) (kvs : list KeyValue) : io unit :=
  groupLoop (Datatypes.S (length kvs)) ofile kvs 0.

Definition tmpSuffix (task : Task) : string := ".tmp" +:+ timeString (StartTime task).
Definition outName (i : Z) : string := "mr-out-" +:+ pretty i.
Definition outTmp (task : Task) : string := outName (Id task) +:+ tmpSuffix task.

Fixpoint reduceFiles (task : Task) (files : list string) (kvs : list KeyValue) : io unit :=
  match files with
  | [] => mret tt
  | fileName :: files =>
      f ← readFile fileName;
      content ← (match f with Some content => mret content
                 | None => go_panic ("worker crash on reduce task, fail to open " +:+ fileName) end : io string);
      kvs ← parseLines (scanLines content) kvs;
      let kvs := sortByKey kvs in
      ofile ← createFile (outTmp task);
      _ ← writeGroups ofile kvs;
      _ ← rename ofile (TrimSuffix ofile (tmpSuffix task));
      reduceFiles task files kvs
  end.

Definition HandleReduceTask (task : Task) (fs : FS) : FS * Handled :=
  deferred task (remove (outTmp task)) (reduceFiles task (FileNames task) [] fs).

(** ** The worker loop *)

(** How an iteration of the loop ends. *)
Inductive Next :=
| Return
| Continue (sleep : Z) (timer : Z).

Definition worker_timeout : Z := 10 * Second.

(** One iteration at time [now]: [timer] is when the timer fires, [task] the
    answer of [CallGetTask]; the task is handled without delay. *)
Definition Worker (timer now : Z) (task : option Task) (fs : FS) : FS * option Handled * Next :=
  if bool_decide (timer <= now) then (fs, None, Return) else
  match task with
  | None => (fs, None, Continue (2 * Second) timer)
  | Some task =>
      let next (h : Handled) := if alive h then Continue 0 (now + worker_timeout) else Return in
      match Type_ task with
      | MapTask => let '(fs, h) := HandleMapTask task fs in (fs, Some h, next h)
      | ReduceTask => let '(fs, h) := HandleReduceTask task fs in (fs, Some h, next h)
      | AllTasksDone => (fs, None, Return)
      | UnknownTask => (fs, None, Continue Second (now + worker_timeout))
      end
  end.

(** ** The sequential MapReduce *)

Fixpoint readInputs (files : list string) (intermediate : list KeyValue) : io (list KeyValue) :=
  match files with
  | [] => mret intermediate
  | filename :: files =>
      file ← readFile filename;
      content ← (match file with Some content => mret content | None => log_Fatal "cannot open" end : io string);
      kva ← lift (mapf filename content);
      readInputs files (intermediate ++ kva)
  end.

Definition sequential (files : list string) : io unit :=
  intermediate ← readInputs files [];
  let intermediate := sortByKey intermediate in
  ofile ← createFile (outName 0);
  writeGroups ofile intermediate.

End worker.
