(* ===== verification/MRGroup.v ===== *)
(** * MRGroup: the grouping loop of the reducers

    [groups] is the reference for the index loop of [HandleReduceTask] and
    mrsequential.go; on a sorted slice it has one entry per key with all the
    values of the key.  The output of a job does not depend on how the pairs
    are spread over the partitions: [result_partition]. *)

From S2P Require Import Prelude GoStrings MRCoordinator MRWorker.
From Stdlib Require Import Ascii.
Local Open Scope nat_scope.
Local Open Scope list_scope.

(** ** Reference *)

Fixpoint groups (l : list KeyValue) : list (string * list string) :=
  match l with
  | [] => []
  | kv :: l =>
      match groups l with
      | (k, vs) :: gs =>
          if bool_decide (Key kv = k) then (k, Value kv :: vs) :: gs else (Key kv, [Value kv]) :: (k, vs) :: gs
      | [] => [(Key kv, [Value kv])]
      end
  end.

Definition keys (l : list KeyValue) : list string := remove_dups (Key <$> l).

Definition values_of (k : string) (l : list KeyValue) : list string :=
  Value <$> filter (fun kv => Key kv = k) l.

Definition key_sorted : list KeyValue -> Prop :=
  StronglySorted (fun a b => String.ltb (Key b) (Key a) = false).

Lemma ltb_total (a b : string) : String.ltb a b = false -> String.ltb b a = false -> a = b.
Proof.
  unfold String.ltb. intros H1 H2. apply String.compare_eq_iff.
  rewrite (String.compare_antisym b a) in H2. destruct (String.compare a b); done.
Qed.

Lemma groups_head kv l : exists vs gs, groups (kv :: l) = (Key kv, vs) :: gs.
Proof.
  simpl. destruct (groups l) as [|[k vs] gs]; [eauto|]. case_bool_decide as H; [|eauto]. subst. eauto.
Qed.

Lemma groups_run kv l1 l2 :
  Forall (fun x => Key x = Key kv) l1 -> (forall x, head l2 = Some x -> Key x <> Key kv) ->
  groups (kv :: l1 ++ l2) = (Key kv, Value <$> (kv :: l1)) :: groups l2.
Proof.
  intros H1 H2. revert kv H1 H2. induction l1 as [|x l1 IH]; intros kv H1 H2.
  - destruct l2 as [|y l2]; [done|]. destruct (groups_head y l2) as (vs & gs & E).
    change (kv :: [] ++ y :: l2) with (kv :: (y :: l2)). cbn [groups]. cbn [groups] in E. rewrite E.
    rewrite bool_decide_false; [|done]. intros Hk. by destruct (H2 y eq_refl).
  - apply Forall_cons in H1 as [Hx H1]. change (kv :: (x :: l1) ++ l2) with (kv :: (x :: l1 ++ l2)).
    assert (groups (x :: l1 ++ l2) = (Key x, Value <$> (x :: l1)) :: groups l2) as E.
    { apply IH; [by rewrite Hx|]. intros y Hy. rewrite Hx. auto. }
    change (groups (kv :: x :: l1 ++ l2)) with
      (match groups (x :: l1 ++ l2) with
       | (k, vs) :: gs => if bool_decide (Key kv = k) then (k, Value kv :: vs) :: gs
                          else (Key kv, [Value kv]) :: (k, vs) :: gs
       | [] => [(Key kv, [Value kv])] end).
    rewrite E bool_decide_true //. by rewrite Hx.
Qed.

(** ** Sorted slices *)

Lemma values_of_cons_ne k kv l : Key kv <> k -> values_of k (kv :: l) = values_of k l.
Proof. intros H. unfold values_of. by rewrite filter_cons_False. Qed.

Lemma values_of_cons_eq kv l : values_of (Key kv) (kv :: l) = Value kv :: values_of (Key kv) l.
Proof. unfold values_of. by rewrite filter_cons_True. Qed.

Lemma values_of_absent k l : k ∉ Key <$> l -> values_of k l = [].
Proof.
  induction l as [|kv l IH]; [done|]. rewrite fmap_cons not_elem_of_cons. intros [H1 H2].
  rewrite values_of_cons_ne; [congruence|]. by apply IH.
Qed.

Lemma groups_sorted l : key_sorted l ->
  exists ks, groups l = (fun k => (k, values_of k l)) <$> ks /\ NoDup ks /\ forall k, k ∈ ks <-> k ∈ Key <$> l.
Proof.
  induction l as [|kv l IH]; intros Hs.
  { exists []. split_and!; [done|constructor|]. intros k. by rewrite !elem_of_nil. }
  apply StronglySorted_inv in Hs as [Hs Hall]. destruct (IH Hs) as (ks & Hg & Hnd & Hin).
  assert (forall ks' : list string, Key kv ∉ ks' ->
    ((fun k => (k, values_of k l)) <$> ks') = ((fun k => (k, values_of k (kv :: l))) <$> ks')) as Hext.
  { intros ks' Hni. apply list_fmap_ext. intros i k Hk. f_equal. rewrite values_of_cons_ne //.
    intros <-. apply Hni. by apply list_elem_of_lookup_2 in Hk. }
  destruct l as [|h l].
  { exists [Key kv]. split_and!; [|apply NoDup_singleton|done]. simpl. by rewrite values_of_cons_eq. }
  destruct (groups_head h l) as (vs & gs & Eh).
  change (groups (kv :: h :: l)) with (match groups (h :: l) with
    | (k, vs) :: gs => if bool_decide (Key kv = k) then (k, Value kv :: vs) :: gs
                       else (Key kv, [Value kv]) :: (k, vs) :: gs
    | [] => [(Key kv, [Value kv])] end).
  rewrite Hg. rewrite Eh in Hg. destruct ks as [|k ks]; [done|]. rewrite fmap_cons in Hg.
  injection Hg as <- _ _. rewrite fmap_cons. apply NoDup_cons in Hnd as Hnd'. destruct Hnd' as [Hni Hnd'].
  case_bool_decide as Hk.
  - exists (Key h :: ks). split_and!; [|done|].
    + rewrite fmap_cons -Hk values_of_cons_eq. f_equal. apply Hext. by rewrite Hk.
    + intros k'. rewrite Hin (fmap_cons _ kv) elem_of_cons. split; [auto|]. intros [->|?]; [|done].
      rewrite Hk fmap_cons. apply elem_of_cons. by left.
  - assert (Key kv ∉ Key h :: ks) as Hfresh.
    { rewrite Hin. intros (x & Hx & Hxl)%list_elem_of_fmap. apply Hk.
      rewrite Forall_forall in Hall. apply ltb_total; [|apply Hall; apply elem_of_cons; by left].
      apply elem_of_cons in Hxl as [->|Hxl]; [done|].
      apply StronglySorted_inv in Hs as [_ Hs]. rewrite Forall_forall in Hs. rewrite Hx. by apply Hs. }
    exists (Key kv :: Key h :: ks). split_and!; [|by constructor|].
    + rewrite (fmap_cons _ (Key kv)) -Hext // (values_of_cons_eq kv) (values_of_absent (Key kv)); [by rewrite -Hin|]. by rewrite fmap_cons.
    + intros k'. rewrite (fmap_cons _ kv) (elem_of_cons (Key h :: ks)) (elem_of_cons (Key <$> h :: l)). by rewrite Hin.
Qed.

(** ** The result of a job *)

Section result.
Context (red : string -> list string -> string).

(** The reducer does not look at the order of the values. *)
Definition order_free : Prop := forall k vs vs', vs ≡ₚ vs' -> red k vs = red k vs'.

Definition out_line (g : string * list string) : string := newline (kvLine g.1 (red g.1 g.2)).

(** One line per key of [l]. *)
Definition result (l : list KeyValue) : list string := (fun k => out_line (k, values_of k l)) <$> keys l.

Lemma values_of_perm k l l' : l ≡ₚ l' -> values_of k l ≡ₚ values_of k l'.
Proof. intros H. unfold values_of. by rewrite H. Qed.

Lemma groups_result s l :
  order_free -> key_sorted s -> s ≡ₚ l -> (out_line <$> groups s) ≡ₚ result l.
Proof.
  intros Hof Hs Hp. destruct (groups_sorted s Hs) as (ks & -> & Hnd & Hin). unfold result.
  rewrite -list_fmap_compose.
  assert (ks ≡ₚ keys l) as <-.
  { apply NoDup_Permutation; [done|apply NoDup_remove_dups|]. intros k.
    unfold keys. rewrite elem_of_remove_dups Hin. by rewrite Hp. }
  erewrite list_fmap_ext; [done|]. intros i k _. unfold compose, out_line. simpl.
  f_equal. f_equal. apply Hof. by apply values_of_perm.
Qed.

(** Pairs spread over [n] partitions by a function of the key. *)
Context (part : string -> Z) (n : Z).

Definition partition (i : Z) (l : list KeyValue) : list KeyValue := filter (fun kv => part (Key kv) = i) l.

Lemma values_of_partition k l : values_of k (partition (part k) l) = values_of k l.
Proof.
  unfold values_of, partition. f_equal. rewrite list_filter_filter. apply list_filter_iff.
  intros kv. split; [by intros [??]|]. by intros ->.
Qed.

Lemma partition_keys i l k : k ∈ keys (partition i l) <-> k ∈ keys l /\ part k = i.
Proof.
  unfold keys, partition. rewrite !elem_of_remove_dups !list_elem_of_fmap. setoid_rewrite list_elem_of_filter.
  naive_solver.
Qed.

Lemma NoDup_bind_partition (is_ : list Z) (f : Z -> list string) :
  NoDup is_ -> (forall i, NoDup (f i)) -> (forall i k, k ∈ f i -> part k = i) -> NoDup (is_ ≫= f).
Proof.
  intros Hnd Hf Hp. induction Hnd as [|i is_ Hi _ IH]; [constructor|]. cbn. apply NoDup_app. split_and!; [done| |done].
  intros k Hk (j & Hj & Hjs)%list_elem_of_bind. apply Hp in Hk, Hj. congruence.
Qed.

Lemma result_partition l :
  (forall kv, kv ∈ l -> (0 <= part (Key kv) < n)%Z) ->
  (seqZ 0 n ≫= fun i => result (partition i l)) ≡ₚ result l.
Proof.
  intros Hr. trans ((fun k => out_line (k, values_of k l)) <$> (seqZ 0 n ≫= fun i => keys (partition i l))).
  - apply reflexive_eq. induction (seqZ 0 n) as [|i is_ IH]; [done|]. cbn. rewrite fmap_app. f_equal; [|exact IH]. unfold result. apply list_fmap_ext. intros j k Hk.
    apply list_elem_of_lookup_2, partition_keys in Hk as [_ <-]. by rewrite values_of_partition.
  - unfold result. apply fmap_Permutation, NoDup_Permutation; [|apply NoDup_remove_dups|].
    + apply NoDup_bind_partition; [apply NoDup_seqZ|intros; apply NoDup_remove_dups|].
      intros i k Hk. by apply partition_keys in Hk as [_ ?].
    + intros k. rewrite list_elem_of_bind. setoid_rewrite partition_keys. setoid_rewrite elem_of_seqZ.
      split; [naive_solver|]. intros Hk. exists (part k). split; [done|].
      unfold keys in Hk. apply elem_of_remove_dups, list_elem_of_fmap in Hk as (kv & -> & Hkv).
      specialize (Hr kv Hkv). lia.
Qed.

End result.
