(* ===== verification/MRNames.v ===== *)
(** * MRNames: the file names of a MapReduce job do not collide *)

From S2P Require Import Prelude GoStrings MRCoordinator MRWorker.
From Stdlib Require Import Ascii.
Local Open Scope Z_scope.

Definition inter_prefix : string := "./intermediates/mr-".
Definition out_prefix : string := "mr-out-".

Lemma prefix_app (p s : string) : String.prefix p (p +:+ s) = true.
Proof.
  induction p as [|c p IH]; [by destruct s|]. rewrite app_cons. cbn [String.prefix].
  destruct (ascii_dec c c); [exact IH|congruence].
Qed.

(** The two families of private names. *)
Definition private (name : string) : bool :=
  String.prefix inter_prefix name || String.prefix out_prefix name.

Lemma inter_private s : private (inter_prefix +:+ s) = true.
Proof. unfold private. by rewrite prefix_app. Qed.

Lemma out_private s : private (out_prefix +:+ s) = true.
Proof. unfold private. by rewrite prefix_app orb_true_r. Qed.

Definition name_char (c : ascii) : bool := is_digit c || Ascii.eqb c "-".

Lemma app_inv_head (p s t : string) : p +:+ s = p +:+ t -> s = t.
Proof. induction p as [|c p IH]; [done|]. rewrite !app_cons. intros [= H]. auto. Qed.

Lemma intermediateFile_inj j i j' i' :
  0 <= j -> 0 <= j' -> intermediateFile j i = intermediateFile j' i' -> j = j' /\ i = i'.
Proof.
  intros Hj Hj' H%(app_inv_head inter_prefix).
  destruct (digits_app_inj _ _ _ _ "-" eq_refl (pretty_nonneg_digits j Hj) (pretty_nonneg_digits j' Hj') H) as [E1 E2].
  split; by apply (inj pretty).
Qed.

Lemma outName_inj i j : outName i = outName j -> i = j.
Proof. intros H%(app_inv_head out_prefix). by apply (inj pretty). Qed.

Lemma intermediateFile_chars j i : exists s, intermediateFile j i = inter_prefix +:+ s /\ all_chars name_char s = true.
Proof.
  eexists. split; [reflexivity|]. rewrite all_chars_app. rewrite (pretty_Z_chars j). simpl. apply pretty_Z_chars.
Qed.

(** A name with a dot in its last part is not the name of an output. *)
Lemma dot_not_inter s t j i : inter_prefix +:+ s +:+ String "." t <> intermediateFile j i.
Proof.
  destruct (intermediateFile_chars j i) as (u & -> & Hu). intros H%app_inv_head. subst u.
  rewrite all_chars_app in Hu. simpl in Hu. by rewrite andb_false_r in Hu.
Qed.

Lemma dot_not_out s t i : out_prefix +:+ s +:+ String "." t <> outName i.
Proof.
  intros H%(app_inv_head out_prefix). pose proof (pretty_Z_chars i) as Hi. rewrite -H all_chars_app in Hi.
  simpl in Hi. by rewrite andb_false_r in Hi.
Qed.

Lemma out_not_inter s t : out_prefix +:+ s <> inter_prefix +:+ t.
Proof. discriminate. Qed.

Lemma bucketName_eq task i :
  bucketName task i = intermediateFile (Id task) i +:+ String "." ("tmp" +:+ pretty (StartTime task)).
Proof. unfold bucketName, intermediateFile. by rewrite !app_assoc_str. Qed.

Lemma bucketName_inter task i : exists s t, bucketName task i = inter_prefix +:+ s +:+ String "." t.
Proof.
  exists (pretty (Id task) +:+ "-" +:+ pretty i), ("tmp" +:+ pretty (StartTime task)).
  unfold bucketName. by rewrite !app_assoc_str.
Qed.

Lemma bucketName_final task i :
  TrimSuffix (bucketName task i) (Ext (bucketName task i)) = intermediateFile (Id task) i.
Proof.
  rewrite bucketName_eq Ext_app.
  - rewrite all_chars_app. simpl. eapply all_chars_impl; [|apply pretty_Z_chars].
    intros c. unfold is_digit. destruct (Ascii.eqb_spec c "."); [by subst|done].
  - unfold no_slash. rewrite all_chars_app. simpl. eapply all_chars_impl; [|apply pretty_Z_chars].
    intros c. unfold is_digit. destruct (Ascii.eqb_spec c "/"); [by subst|done].
  - apply TrimSuffix_app.
Qed.

Lemma app_inj_tail (s t u : string) : s +:+ u = t +:+ u -> s = t.
Proof. intros H. by rewrite -(TrimSuffix_app s u) H TrimSuffix_app. Qed.

Lemma bucketName_inj task i i' : 0 <= Id task -> bucketName task i = bucketName task i' -> i = i'.
Proof.
  intros Hid. rewrite !bucketName_eq. intros [_ ?]%app_inj_tail%intermediateFile_inj; done.
Qed.

Section stale.
Context (timeString : Z -> string).

Lemma staleName_inter task name i : exists s t, staleName timeString task name i = inter_prefix +:+ s +:+ String "." t.
Proof.
  exists (TrimSuffix (Base name) ".txt" +:+ "-" +:+ pretty i), ("tmp" +:+ timeString (StartTime task)).
  unfold staleName. by rewrite !app_assoc_str.
Qed.

Lemma outTmp_out task : exists s t, outTmp timeString task = out_prefix +:+ s +:+ String "." t.
Proof.
  exists (pretty (Id task)), ("tmp" +:+ timeString (StartTime task)).
  unfold outTmp, outName, tmpSuffix. by rewrite !app_assoc_str.
Qed.

Lemma outTmp_final task : TrimSuffix (outTmp timeString task) (tmpSuffix timeString task) = outName (Id task).
Proof. apply TrimSuffix_app. Qed.
End stale.

(** The temporary files of different executions differ. *)
Lemma bucketName_fresh task task' i i' :
  0 <= Id task -> 0 <= Id task' -> bucketName task i = bucketName task' i' ->
  Id task = Id task' /\ StartTime task = StartTime task'.
Proof.
  intros H1 H2 E%(app_inv_head inter_prefix).
  destruct (digits_app_inj _ _ _ _ "-" eq_refl (pretty_nonneg_digits _ H1) (pretty_nonneg_digits _ H2) E) as [E1 E2].
  destruct (chars_app_inj _ _ _ _ _ "." eq_refl (pretty_Z_chars i) (pretty_Z_chars i') E2) as [_ E3].
  split; [by apply (inj pretty)|]. apply (app_inv_head "tmp") in E3. by apply (inj pretty).
Qed.

Lemma outTmp_fresh (timeString : Z -> string) task task' :
  outTmp timeString task = outTmp timeString task' -> Id task = Id task'.
Proof.
  unfold outTmp, outName, tmpSuffix. rewrite !app_assoc_str. intros E%(app_inv_head out_prefix).
  destruct (chars_app_inj _ _ _ _ _ "." eq_refl (pretty_Z_chars (Id task)) (pretty_Z_chars (Id task')) E) as [E1 _].
  by apply (inj pretty).
Qed.

(** How [%v] prints a time has a space in it, the names of the buckets have none. *)
Definition spaceless : string -> bool := all_chars (fun c => negb (Ascii.eqb c " ")).

Lemma spaceless_name s : all_chars name_char s = true -> spaceless s = true.
Proof. apply all_chars_impl. intros c. unfold name_char, is_digit. by destruct (Ascii.eqb_spec c " ") as [->|]. Qed.

Lemma bucketName_not_stale (timeString : Z -> string) task task' name i i' :
  spaceless (timeString (StartTime task')) = false -> bucketName task i <> staleName timeString task' name i'.
Proof.
  intros Hs E. assert (spaceless (bucketName task i) = true) as Hb.
  { unfold bucketName, spaceless. rewrite !all_chars_app. change (String "." ?s) with ("." +:+ s).
    rewrite !all_chars_app. fold spaceless. assert (forall z : Z, spaceless (pretty z) = true) as Hz.
    { intros z. apply spaceless_name, pretty_Z_chars. }
    by rewrite !Hz. }
  rewrite E in Hb. unfold staleName, spaceless in Hb. rewrite !all_chars_app in Hb. fold spaceless in Hb.
  by rewrite Hs !andb_false_r in Hb.
Qed.
