(* ===== verification/MRHandlers.v ===== *)
(** * MRHandlers: what the handlers of the worker leave in the file system

    [map_task_spec] and [reduce_task_spec]: a handler whose plugin functions do
    not panic reports its task as completed, leaves its output files with the
    right contents and touches no other file a job looks at. *)

From S2P Require Import Prelude GoStrings MRCoordinator MRWorker MRGroup MRNames.
From Stdlib Require Import Ascii.
Local Open Scope list_scope.

(** ** The grouping loop *)

Lemma groupEnd_spec fuel kvs key j :
  length kvs - j <= fuel ->
  exists n, groupEnd fuel kvs key j = j + n /\ n <= length kvs - j /\
    Forall (fun x => Key x = key) (take n (drop j kvs)) /\
    forall x, head (drop (j + n) kvs) = Some x -> Key x <> key.
Proof.
  assert (forall k x, head (drop k kvs) = Some x -> kvs !! k = Some x) as Hhd.
  { intros k x H. destruct (drop k kvs) as [|y l] eqn:E; [done|]. injection H as ->.
    rewrite -(Nat.add_0_r k) -lookup_drop E. done. }
  revert j. induction fuel as [|fuel IH]; intros j Hf; simpl.
  { exists 0. split_and!; [lia|lia|constructor|]. intros x Hx%Hhd%lookup_lt_Some. lia. }
  destruct (kvs !! j) as [kv|] eqn:Hj; [case_bool_decide as Hk|].
  - destruct (IH (j + 1)) as (n & -> & Hn & Hall & Hend); [lia|]. exists (Datatypes.S n).
    apply lookup_lt_Some in Hj as Hlt. split_and!; [lia|lia| |].
    + rewrite (drop_S _ _ _ Hj). simpl. constructor; [done|]. by replace (Datatypes.S j) with (j + 1) by lia.
    + by replace (j + Datatypes.S n) with (j + 1 + n) by lia.
  - exists 0. split_and!; [lia|lia|constructor|]. rewrite Nat.add_0_r. intros x Hx%Hhd. congruence.
  - exists 0. split_and!; [lia|lia|constructor|]. rewrite Nat.add_0_r. intros x Hx%Hhd. congruence.
Qed.

Lemma groupValues_spec kvs i n :
  i + n <= length kvs -> groupValues kvs i (i + n) = Value <$> take n (drop i kvs).
Proof.
  unfold groupValues. replace (i + n - i) with n by lia. revert i.
  induction n as [|n IH]; intros i Hn; [done|]. cbn [seq omap list_omap].
  destruct (lookup_lt_is_Some_2 kvs i) as [kv Hkv]; [lia|].
  rewrite (drop_S _ _ _ Hkv) firstn_cons fmap_cons. cbn. rewrite Hkv /=. f_equal. apply IH. lia.
Qed.

Section handlers.
Context (timeString : Z -> string) `{HKS : !KeySort}.
Context (mapf : string -> string -> outcome (list KeyValue)) (reducef : string -> list string -> outcome string).
Context (red : string -> list string -> string).
Hypothesis Hred : forall k vs, reducef k vs = Ret (red k vs).

Lemma groupLoop_spec fuel ofile kvs i (fs : FS) old :
  length kvs - i < fuel -> fs !! ofile = Some old ->
  groupLoop reducef fuel ofile kvs i fs =
    (<[ofile := old +:+ concat_str (out_line red <$> groups (drop i kvs))]> fs, inl tt).
Proof.
  revert i fs old. induction fuel as [|fuel IH]; intros i fs old Hf Hold; [lia|]. simpl.
  destruct (kvs !! i) as [kv|] eqn:Hi.
  - destruct (groupEnd_spec (length kvs) kvs (Key kv) (i + 1)) as (n & -> & Hn & Hall & Hend); [lia|].
    apply lookup_lt_Some in Hi as Hlt.
    unfold mbind, io_bind, lift. rewrite Hred. unfold writeString.
    rewrite (IH _ _ (old +:+ out_line red (Key kv, groupValues kvs i (i + 1 + n)))); [lia|by rewrite lookup_alter_eq Hold|].
    f_equal. rewrite (drop_S _ _ _ Hi). replace (Datatypes.S i) with (i + 1) by lia.
    rewrite -{1}(take_drop n (drop (i + 1) kvs)) groups_run; [done|by rewrite drop_drop|].
    rewrite drop_drop fmap_cons. cbn [concat_str foldr]. rewrite -app_assoc_str.
    replace (i + 1 + n) with (i + Datatypes.S n) by lia. rewrite groupValues_spec; [lia|].
    rewrite (drop_S _ _ _ Hi) firstn_cons. replace (Datatypes.S i) with (i + 1) by lia.
    apply map_eq. intros x. destruct (decide (x = ofile)) as [->|Hne]; [by rewrite !lookup_insert_eq|].
    rewrite !lookup_insert_ne; [congruence..|]. apply lookup_alter_ne. congruence.
  - apply lookup_ge_None in Hi. rewrite drop_ge //. simpl. rewrite app_empty_r. by rewrite insert_id.
Qed.

Lemma writeGroups_spec ofile kvs (fs : FS) old :
  fs !! ofile = Some old ->
  writeGroups reducef ofile kvs fs =
    (<[ofile := old +:+ concat_str (out_line red <$> groups kvs)]> fs, inl tt).
Proof. intros Hold. unfold writeGroups. rewrite (groupLoop_spec _ _ _ _ _ old) //. lia. Qed.

(** Reading back the pairs of a file. *)
Definition clean (kv : KeyValue) : bool :=
  no_space (Key kv) && no_space (Value kv) && bool_decide (Key kv <> "") && bool_decide (Value kv <> "") &&
  (String.length (Key kv) + String.length (Value kv) + 1 <? MaxScanTokenSize).

Definition kv_text (l : list KeyValue) : string :=
  concat_str ((fun kv => newline (kvLine (Key kv) (Value kv))) <$> l).

Lemma clean_inv kv : clean kv = true ->
  Fields (kvLine (Key kv) (Value kv)) = [Key kv; Value kv] /\ plain_line (kvLine (Key kv) (Value kv)) = true.
Proof.
  unfold clean. intros Hc. rewrite !andb_true_iff !bool_decide_eq_true Nat.ltb_lt in Hc.
  destruct Hc as ((((H1 & H2) & H3) & H4) & H5).
  split; [by apply Fields_pair|by apply plain_pair].
Qed.

Lemma scan_kv_text l : Forall (fun kv => clean kv = true) l ->
  scanLines (kv_text l) = (fun kv => kvLine (Key kv) (Value kv)) <$> l.
Proof.
  intros H. unfold kv_text. rewrite -(scanLines_concat ((fun kv => kvLine (Key kv) (Value kv)) <$> l)).
  - apply Forall_fmap. eapply Forall_impl; [exact H|]. intros kv Hkv. by apply clean_inv.
  - by rewrite -list_fmap_compose.
Qed.

Lemma parseLines_spec l acc (fs : FS) : Forall (fun kv => clean kv = true) l ->
  parseLines ((fun kv => kvLine (Key kv) (Value kv)) <$> l) acc fs = (fs, inl (acc ++ l)).
Proof.
  intros H. revert acc. induction H as [|kv l Hkv _ IH]; intros acc; [by rewrite app_nil_r|].
  rewrite fmap_cons. cbn [parseLines]. destruct (clean_inv kv Hkv) as [-> _]. rewrite IH.
  rewrite -assoc. by destruct kv.
Qed.

(** ** Map tasks *)

Definition part (n : Z) (key : string) : Z := Z.rem (ihash key) n.

Lemma part_range n key : (0 < n)%Z -> (0 <= part n key < n)%Z.
Proof.
  intros Hn. unfold part. apply Z.rem_bound_pos; [|done]. unfold ihash. apply Z.land_nonneg. by right.
Qed.

Lemma create_all (is_ : list Z) (nm : Z -> string) (fs : FS) :
  exists fs' : FS, mapM (fun i => createFile (nm i)) is_ fs = (fs', inl (nm <$> is_)) /\
    forall x : string, fs' !! x = if bool_decide (x ∈ nm <$> is_) then Some "" else fs !! x.
Proof.
  revert fs. induction is_ as [|i is_ IH]; intros fs.
  { exists fs. split; [done|]. intros x. rewrite bool_decide_false //. apply not_elem_of_nil. }
  destruct (IH (<[nm i := ""]> fs)) as (fs' & E & H1). exists fs'. split.
  - change (mapM (fun i => createFile (nm i)) (i :: is_) fs) with (match mapM (fun i => createFile (nm i)) is_ (<[nm i := ""]> fs) with
      | (fs', inl l) => (fs', inl (nm i :: l)) | (fs', inr e) => (fs', inr e) end). by rewrite E.
  - intros x. rewrite H1 fmap_cons. destruct (decide (x ∈ nm <$> is_)) as [Hx|Hx].
    + rewrite !bool_decide_true //. by right.
    + rewrite (bool_decide_false (x ∈ nm <$> is_)) //. destruct (decide (x = nm i)) as [->|Hne].
      * rewrite bool_decide_true ?lookup_insert_eq //. by left.
      * rewrite bool_decide_false; [by rewrite not_elem_of_cons|]. apply lookup_insert_ne. congruence.
Qed.

Lemma openBuckets_spec task (fs : FS) : (0 <= NReduce task)%Z ->
  exists fs' : FS, openBuckets task fs = (fs', inl (bucketName task <$> seqZ 0 (NReduce task))) /\
    forall x : string, fs' !! x = if bool_decide (x ∈ bucketName task <$> seqZ 0 (NReduce task)) then Some "" else fs !! x.
Proof.
  intros Hn. unfold openBuckets. rewrite bool_decide_false; [lia|]. apply create_all.
Qed.

(** Writing appends to each bucket the lines of its partition. *)
Lemma writeBuckets_spec task kvs (fs : FS) (c : Z -> string) :
  let n := NReduce task in
  (0 < n)%Z -> (0 <= Id task)%Z ->
  (forall i, i ∈ seqZ 0 n -> fs !! bucketName task i = Some (c i)) ->
  exists fs', writeBuckets task (bucketName task <$> seqZ 0 n) kvs fs = (fs', inl tt) /\
    (forall i, i ∈ seqZ 0 n -> fs' !! bucketName task i = Some (c i +:+ kv_text (partition (part n) i kvs))) /\
    (forall x, x ∉ bucketName task <$> seqZ 0 n -> fs' !! x = fs !! x).
Proof.
  intros n Hn Hid. unfold writeBuckets. fold n. revert fs c. induction kvs as [|kv kvs IH]; intros fs c Hc.
  { exists fs. split_and!; [done| |done]. intros i Hi. rewrite (Hc i Hi). by rewrite app_empty_r. }
  pose proof (part_range n (Key kv) Hn) as Hp. set (p := part n (Key kv)) in *.
  set (line := newline (kvLine (Key kv) (Value kv))).
  set (fs1 := alter (fun old => old +:+ line) (bucketName task p) fs).
  assert (p ∈ seqZ 0 n) as Hpin by (apply elem_of_seqZ; lia).
  destruct (IH fs1 (fun i => if bool_decide (i = p) then c i +:+ line else c i)) as (fs' & E & H1 & H2).
  { intros i Hi. unfold fs1. destruct (decide (i = p)) as [->|Hne].
    - by rewrite bool_decide_true // lookup_alter_eq (Hc p Hi).
    - rewrite bool_decide_false // lookup_alter_ne; [|by apply Hc]. intros Heq. apply Hne. by apply (bucketName_inj task) in Heq. }
  exists fs'. split_and!.
  - rewrite -E. cbn [for_each]. unfold mbind at 1, io_bind at 1, mbind at 1, io_bind at 1, lift, bucketIndex.
    rewrite bool_decide_false; [lia|]. fold (part n (Key kv)). fold p.
    assert (slice_get (bucketName task <$> seqZ 0 n) p = Ret (bucketName task p)) as ->; [|done].
    apply slice_get_ret. split; [lia|]. rewrite list_lookup_fmap lookup_seqZ_lt; [lia|]. simpl. do 2 f_equal. lia.
  - intros i Hi. rewrite (H1 i Hi). f_equal. unfold partition. rewrite filter_cons. fold p.
    destruct (decide (i = p)) as [->|Hne].
    + rewrite bool_decide_true // decide_True //. unfold kv_text. rewrite fmap_cons. cbn [concat_str foldr]. by rewrite -app_assoc_str.
    + rewrite bool_decide_false; [done|]. by rewrite decide_False; [congruence|].
  - intros x Hx. rewrite (H2 x Hx). apply lookup_alter_ne. intros <-. apply Hx. by apply list_elem_of_fmap_2.
Qed.

Lemma renameBuckets_spec task is_ (fs : FS) (c : Z -> string) :
  (0 <= Id task)%Z -> NoDup is_ -> (forall i, i ∈ is_ -> fs !! bucketName task i = Some (c i)) ->
  exists fs', renameBuckets (bucketName task <$> is_) fs = (fs', inl tt) /\
    (forall i, i ∈ is_ -> fs' !! intermediateFile (Id task) i = Some (c i)) /\
    (forall x, x ∉ bucketName task <$> is_ -> x ∉ intermediateFile (Id task) <$> is_ -> fs' !! x = fs !! x).
Proof.
  intros Hid Hnd. revert fs. induction Hnd as [|i is_ Hi Hnd IH]; intros fs Hc.
  { exists fs. split_and!; [done|by intros i ?%elem_of_nil|done]. }
  assert (forall k j, bucketName task k <> intermediateFile (Id task) j) as Hdis.
  { intros k j. destruct (bucketName_inter task k) as (s & t & ->). apply dot_not_inter. }
  set (fs1 := <[intermediateFile (Id task) i := c i]> (delete (bucketName task i) fs)).
  destruct (IH fs1) as (fs' & E & H1 & H2).
  { intros j Hj. unfold fs1. rewrite lookup_insert_ne; [|rewrite lookup_delete_ne; [|by apply Hc; right]].
    - apply not_eq_sym, Hdis.
    - intros ->%bucketName_inj; done. }
  assert (fs !! bucketName task i = Some (c i)) as Hci by (apply Hc; by left).
  exists fs'. split_and!.
  - rewrite -E. unfold renameBuckets. rewrite fmap_cons. cbn [for_each]. unfold mbind at 1, io_bind at 1.
    unfold mbind at 1, io_bind at 1, rename. rewrite bucketName_final Hci. done.
  - intros j [->|Hj]%elem_of_cons; [|by apply H1]. rewrite H2; [| |by unfold fs1; rewrite lookup_insert_eq].
    + intros (k & Hk & _)%list_elem_of_fmap. by apply (Hdis k i).
    + intros (k & [_ ->]%intermediateFile_inj & Hk)%list_elem_of_fmap; done.
  - intros x. rewrite !fmap_cons !not_elem_of_cons. intros [Hx1 Hx2] [Hx3 Hx4]. rewrite (H2 x) //. unfold fs1.
    rewrite lookup_insert_ne; [congruence|]. rewrite lookup_delete_ne; [congruence|]. done.
Qed.

Lemma mapCleanup_spec task file (fs : FS) : FileNames task = [file] ->
  exists fs' : FS, mapCleanup timeString task fs = (fs', inl tt) /\
    forall x, (forall i, x <> staleName timeString task file i) -> fs' !! x = fs !! x.
Proof.
  intros Hf. unfold mapCleanup. rewrite Hf. generalize (seqZ 0 (NReduce task)). intros is_. revert fs.
  induction is_ as [|i is_ IH]; intros fs; [by exists fs|].
  destruct (IH (delete (staleName timeString task file i) fs)) as (fs' & E & H1).
  exists fs'. split; [exact E|]. intros x Hx. rewrite (H1 x Hx). apply lookup_delete_ne. intros <-. by apply (Hx i).
Qed.

Lemma not_inter_prefix x s : String.prefix inter_prefix x = false -> x <> inter_prefix +:+ s.
Proof. intros H ->. by rewrite prefix_app in H. Qed.

Lemma mapBody_spec task file content kvs (fs : FS) :
  let n := NReduce task in
  FileNames task = [file] -> (0 < n)%Z -> (0 <= Id task)%Z ->
  fs !! file = Some content -> mapf file content = Ret kvs ->
  exists fs' : FS, mapBody mapf task fs = (fs', inl tt) /\
    (forall i, i ∈ seqZ 0 n -> fs' !! intermediateFile (Id task) i = Some (kv_text (partition (part n) i kvs))) /\
    (forall x, x ∉ bucketName task <$> seqZ 0 n -> x ∉ intermediateFile (Id task) <$> seqZ 0 n -> fs' !! x = fs !! x).
Proof.
  intros n Hf Hn Hid Hfile Hmap.
  destruct (openBuckets_spec task fs) as (fs1 & E1 & H1); [unfold n in *; lia|].
  destruct (writeBuckets_spec task kvs fs1 (fun _ => "")) as (fs2 & E2 & H2 & H2'); [done|done| |].
  { intros i Hi. rewrite H1 bool_decide_true //. by apply list_elem_of_fmap_2. }
  destruct (renameBuckets_spec task (seqZ 0 n) fs2 (fun i => kv_text (partition (part n) i kvs)))
    as (fs3 & E3 & H3 & H3'); [done|apply NoDup_seqZ|exact H2|].
  exists fs3. split_and!; [|done|].
  - unfold mapBody. rewrite Hf. unfold mbind, io_bind, lift, readFile. simpl. rewrite Hfile /= Hmap E1 E2. exact E3.
  - intros x Hx1 Hx2. rewrite (H3' x) // (H2' x) // H1 bool_decide_false //.
Qed.

Lemma map_task_spec task file content kvs (fs : FS) :
  let n := NReduce task in
  FileNames task = [file] -> (0 < n)%Z -> (0 <= Id task)%Z ->
  fs !! file = Some content -> mapf file content = Ret kvs ->
  exists fs' : FS,
    HandleMapTask timeString mapf task fs = (fs', mkHandled (Some (set_State task Completed)) true) /\
    (forall i, (0 <= i < n)%Z -> fs' !! intermediateFile (Id task) i = Some (kv_text (partition (part n) i kvs))) /\
    (forall j i, (0 <= j)%Z -> j <> Id task -> fs' !! intermediateFile j i = fs !! intermediateFile j i) /\
    (forall x, String.prefix inter_prefix x = false -> fs' !! x = fs !! x).
Proof.
  intros n Hf Hn Hid Hfile Hmap.
  destruct (mapBody_spec task file content kvs fs Hf Hn Hid Hfile Hmap) as (fs1 & E1 & H1 & H1').
  destruct (mapCleanup_spec task file fs1 Hf) as (fs2 & E2 & H2).
  assert (forall j i k, intermediateFile j i <> staleName timeString task file k) as Hst.
  { intros j i k. destruct (staleName_inter timeString task file k) as (s & t & ->). apply not_eq_sym, dot_not_inter. }
  assert (forall j i k, intermediateFile j i <> bucketName task k) as Hbn.
  { intros j i k. destruct (bucketName_inter task k) as (s & t & ->). apply not_eq_sym, dot_not_inter. }
  exists fs2. split_and!.
  - unfold HandleMapTask, deferred. by rewrite E1 E2.
  - intros i Hi. rewrite H2 // H1 //. apply elem_of_seqZ. lia.
  - intros j i Hj Hne. rewrite H2 // H1' //.
    + intros (k & Hk & _)%list_elem_of_fmap. by destruct (Hbn j i k).
    + intros (k & [? _]%intermediateFile_inj & _)%list_elem_of_fmap; done.
  - intros x Hx. rewrite H2; [|rewrite H1' //].
    + intros k. destruct (staleName_inter timeString task file k) as (s & t & ->). by apply not_inter_prefix.
    + intros (k & -> & _)%list_elem_of_fmap. destruct (bucketName_inter task k) as (s & t & E).
      by apply (not_inter_prefix _ (s +:+ String "." t)) in Hx.
    + intros (k & -> & _)%list_elem_of_fmap. destruct (intermediateFile_chars (Id task) k) as (s & E & _).
      by apply (not_inter_prefix _ s) in Hx.
Qed.

(** ** Reduce tasks *)

(** The contents of an output file for the pairs [l]. *)
Definition output_of (l : list KeyValue) (text : string) : Prop :=
  exists s, key_sorted s /\ s ≡ₚ l /\ text = concat_str (out_line red <$> groups s).

Lemma reduceFiles_spec task files ls acc (fs : FS) :
  Forall2 (fun f l => fs !! f = Some (kv_text l) /\ Forall (fun kv => clean kv = true) l) files ls ->
  Forall (fun f => String.prefix out_prefix f = false) files ->
  exists fs' : FS, reduceFiles timeString reducef task files acc fs = (fs', inl tt) /\
    (files <> [] -> exists text, fs' !! outName (Id task) = Some text /\ output_of (acc ++ concat ls) text) /\
    (forall x, x <> outTmp timeString task -> x <> outName (Id task) -> fs' !! x = fs !! x).
Proof.
  intros Hls Hpre. revert ls acc fs Hls. induction Hpre as [|f files Hf Hpre IH]; intros ls acc fs Hls.
  { exists fs. split_and!; done. }
  apply Forall2_cons_inv_l in Hls as (l & ls' & [Hfl Hcl] & Hls & ->).
  set (kvs := sortByKey (acc ++ l)). set (text := concat_str (out_line red <$> groups kvs)).
  assert (outTmp timeString task <> outName (Id task)) as Hne.
  { destruct (outTmp_out timeString task) as (s & t & ->). apply dot_not_out. }
  set (fs1 := <[outName (Id task) := text]> (delete (outTmp timeString task) (<[outTmp timeString task := text]> (<[outTmp timeString task := ""]> fs)))).
  assert (forall x, x <> outTmp timeString task -> x <> outName (Id task) -> fs1 !! x = fs !! x) as Hfs1.
  { intros x H1 H2. unfold fs1. rewrite lookup_insert_ne; [congruence|]. rewrite lookup_delete_ne; [congruence|].
    rewrite lookup_insert_ne; [by apply not_eq_sym|]. by rewrite lookup_insert_ne; [apply not_eq_sym|]. }
  destruct (IH ls' kvs fs1) as (fs' & E & Hout & Hrest).
  { apply Forall2_same_length_lookup_2; [exact (Forall2_length _ _ _ Hls)|]. intros i x y Hx Hy.
    pose proof (Forall2_lookup_lr _ _ _ _ _ _ Hls Hx Hy) as [H1 H2]. split; [|done]. rewrite Hfs1 //.
    - intros ->. pose proof (Forall_lookup_1 _ _ _ _ Hpre Hx) as Hp. cbv beta in Hp.
      destruct (outTmp_out timeString task) as (s & t & Eo). by rewrite Eo prefix_app in Hp.
    - intros ->. pose proof (Forall_lookup_1 _ _ _ _ Hpre Hx) as Hp. cbv beta in Hp.
      change (outName (Id task)) with (out_prefix +:+ pretty (Id task)) in Hp. by rewrite prefix_app in Hp. }
  exists fs'. split_and!.
  - rewrite -E. cbn [reduceFiles]. unfold mbind at 1, io_bind at 1, readFile. rewrite Hfl.
    unfold mbind at 1, io_bind at 1, mret at 1, io_ret at 1.
    unfold mbind at 1, io_bind at 1. rewrite scan_kv_text // parseLines_spec //. fold kvs.
    unfold mbind at 1, io_bind at 1, createFile. unfold mbind at 1, io_bind at 1.
    rewrite (writeGroups_spec _ _ _ ""); [by rewrite lookup_insert_eq|]. change ("" +:+ ?x) with x. fold text.
    unfold mbind at 1, io_bind at 1, rename. rewrite lookup_insert_eq outTmp_final. done.
  - intros _. destruct (decide (files = [])) as [->|Hnn].
    + apply Forall2_nil_inv_l in Hls as ->. simpl in E. injection E as <-.
      exists text. split; [unfold fs1; by rewrite lookup_insert_eq|]. exists kvs.
      split_and!; [apply sortByKey_sorted| |done]. rewrite /= app_nil_r. apply sortByKey_perm.
    + destruct (Hout Hnn) as (tx & Htx & s & Hs & Hp & ->). eexists. split; [exact Htx|]. exists s. split_and!; [done| |done].
      rewrite Hp. unfold kvs. rewrite sortByKey_perm. by rewrite /= assoc.
  - intros x H1 H2. rewrite Hrest //. by apply Hfs1.
Qed.

Lemma reduce_task_spec task ls (fs : FS) :
  Forall2 (fun f l => fs !! f = Some (kv_text l) /\ Forall (fun kv => clean kv = true) l) (FileNames task) ls ->
  Forall (fun f => String.prefix out_prefix f = false) (FileNames task) -> FileNames task <> [] ->
  exists fs' : FS,
    HandleReduceTask timeString reducef task fs = (fs', mkHandled (Some (set_State task Completed)) true) /\
    (exists text, fs' !! outName (Id task) = Some text /\ output_of (concat ls) text) /\
    (forall j, j <> Id task -> fs' !! outName j = fs !! outName j) /\
    (forall x, String.prefix out_prefix x = false -> fs' !! x = fs !! x).
Proof.
  intros Hls Hpre Hnn. destruct (reduceFiles_spec task _ _ [] fs Hls Hpre) as (fs1 & E & Hout & Hrest).
  assert (forall j, outName j <> outTmp timeString task) as Hne.
  { intros j. destruct (outTmp_out timeString task) as (s & t & ->). apply not_eq_sym, dot_not_out. }
  assert (forall x s, String.prefix out_prefix x = false -> x <> out_prefix +:+ s) as Hpx.
  { intros x s Hx ->. by rewrite prefix_app in Hx. }
  exists (delete (outTmp timeString task) fs1). split_and!.
  - unfold HandleReduceTask, deferred. by rewrite E.
  - destruct (Hout Hnn) as (text & Ht & Ho). exists text. split; [|exact Ho]. by rewrite lookup_delete_ne; [apply not_eq_sym|].
  - intros j Hj. rewrite lookup_delete_ne; [by apply not_eq_sym|]. apply Hrest; [done|]. by intros ?%outName_inj.
  - intros x Hx. assert (x <> outTmp timeString task) as Hxt.
    { destruct (outTmp_out timeString task) as (s & t & ->). by apply Hpx. }
    rewrite lookup_delete_ne; [by apply not_eq_sym|]. apply Hrest; [done|]. by apply (Hpx _ (pretty (Id task))).
Qed.

(** ** The sequential program *)

Definition input_ok (fs : FS) (file : string) (kvs : list KeyValue) : Prop :=
  exists content, fs !! file = Some content /\ mapf file content = Ret kvs.

Lemma readInputs_spec files kss acc (fs : FS) :
  Forall2 (input_ok fs) files kss -> readInputs mapf files acc fs = (fs, inl (acc ++ concat kss)).
Proof.
  intros Hf. revert acc. induction Hf as [|f ks files kss (content & H1 & H2) _ IH]; intros acc; [by rewrite app_nil_r|].
  cbn [readInputs]. unfold mbind, io_bind, readFile, lift. rewrite H1 /= H2 IH. by rewrite -assoc.
Qed.

Lemma sequential_spec files kss (fs : FS) :
  Forall2 (input_ok fs) files kss ->
  exists fs' : FS, sequential mapf reducef files fs = (fs', inl tt) /\
    exists text, fs' !! outName 0 = Some text /\ output_of (concat kss) text.
Proof.
  intros Hf. unfold sequential, mbind, io_bind. rewrite (readInputs_spec _ _ _ _ Hf). unfold createFile.
  rewrite (writeGroups_spec _ _ _ ""); [by rewrite lookup_insert_eq|]. eexists. split; [done|].
  eexists. split; [by rewrite lookup_insert_eq|]. eexists. split; [apply sortByKey_sorted|].
  split; [apply sortByKey_perm|done].
Qed.

End handlers.
