(* ===== verification/MRJob.v ===== *)
(** * MRJob: a MapReduce job computes what the sequential program computes

    Coordinator, workers and file system together.  Any number of workers ask
    for tasks, handle tasks they were given, in any order and possibly more
    than once, and report them, possibly late; a handler runs without
    interruption here, and MRConcurrent.v and MRConcurrentJob.v interleave
    their file operations.  Map tasks are not reported after the map phase (see
    [late_map_report_blocks_job] for what happens otherwise). *)

From S2P Require Import Prelude GoStrings MRCoordinator MRFacts MRWorker MRGroup MRNames MRHandlers.
Local Open Scope Z_scope.
Local Open Scope list_scope.

Record JobState := mkJob { j_mr : MRState; j_fs : FS; j_reports : list Task }.

Section job.
Context (timeString : Z -> string) `{HKS : !KeySort}.
Context (mapf : string -> string -> outcome (list KeyValue)) (reducef : string -> list string -> outcome string).

Inductive job_step : JobState -> JobState -> Prop :=
| job_get s now mr' :
    mr_step (j_mr s) (RGetTask now) = Ret mr' ->
    job_step s (mkJob mr' (j_fs s) (j_reports s))
| job_run s timer now t fs' h next :
    t ∈ handed (j_mr s) ->
    Worker timeString mapf reducef timer now (Some t) (j_fs s) = (fs', Some h, next) ->
    job_step s (mkJob (j_mr s) fs' (j_reports s ++ option_list (reported h)))
| job_report s t mr' :
    t ∈ j_reports s -> timely (j_mr s) (RTaskDone t) ->
    mr_step (j_mr s) (RTaskDone t) = Ret mr' ->
    job_step s (mkJob mr' (j_fs s) (j_reports s)).

Definition job_init (files : list string) (nR : Z) (fs : FS) : JobState := mkJob (mr_init files nR) fs [].

Definition job_reachable (files : list string) (nR : Z) (fs : FS) (s : JobState) : Prop :=
  rtc job_step (job_init files nR fs) s.

(** One worker on its own: it asks for a task, handles it and reports it. *)
Definition round (now : Z) (s : JobState) : JobState :=
  match HandleGetTaskRequest now (coord (j_mr s)) with
  | (Some t, c) =>
      let mr := mkMRState c (handed (j_mr s) ++ [t]) in
      match Worker timeString mapf reducef (now + worker_timeout) now (Some t) (j_fs s) with
      | (fs', Some (mkHandled (Some r) _), _) =>
          match mr_step mr (RTaskDone r) with
          | Ret mr' => mkJob mr' fs' (j_reports s ++ [r])
          | Panic _ => s
          end
      | _ => s
      end
  | (None, _) => s
  end.

(** The [n] rounds of a run, [clock] giving the time of each. *)
Fixpoint rounds (clock : nat -> Z) (n : nat) (s : JobState) : JobState :=
  match n with
  | O => s
  | Datatypes.S n => round (clock n) (rounds clock n s)
  end.

(** ** The invariant *)

Section correct.
Context (red : string -> list string -> string) (files : list string) (kss : list (list KeyValue)) (nR : Z) (fs0 : FS).
Hypothesis Hred : forall k vs, reducef k vs = Ret (red k vs).
Hypothesis HnR : 0 < nR.
Hypothesis Hfiles : files <> [].
Hypothesis Hpublic : Forall (fun f => private f = false) files.
Hypothesis Hinputs : Forall2 (input_ok mapf fs0) files kss.
Hypothesis Hclean : Forall (fun kv => clean kv = true) (concat kss).

Definition inter_ok (fs : FS) (j : Z) : Prop :=
  forall kvs i, kss !! Z.to_nat j = Some kvs -> 0 <= i < nR ->
    fs !! intermediateFile j i = Some (kv_text (partition (part nR) i kvs)).

Definition out_ok (fs : FS) (i : Z) : Prop :=
  exists text, fs !! outName i = Some text /\ output_of red (partition (part nR) i (concat kss)) text.

Definition inputs_kept (fs : FS) : Prop := forall x, private x = false -> fs !! x = fs0 !! x.

Definition map_shape (t : Task) : Prop :=
  exists j file, files !! j = Some file /\ shape t = (MapTask, Z.of_nat j, [file]) /\ NReduce t = nR.

Definition reduce_shape (t : Task) : Prop :=
  exists i, 0 <= i < nR /\ shape t = (ReduceTask, i, partition_files (len files) i).

Record kept (fs fs' : FS) : Prop := {
  kept_inter : forall j, 0 <= j -> inter_ok fs j -> inter_ok fs' j;
  kept_out : forall i, out_ok fs i -> out_ok fs' i;
  kept_inputs : inputs_kept fs -> inputs_kept fs';
}.

Lemma out_not_inter_prefix i : String.prefix inter_prefix (outName i) = false.
Proof. done. Qed.

Lemma inter_not_out_prefix j i : String.prefix out_prefix (intermediateFile j i) = false.
Proof. done. Qed.

Lemma run_map t (fs : FS) :
  map_shape t -> inputs_kept fs ->
  exists fs', HandleMapTask timeString mapf t fs = (fs', mkHandled (Some (set_State t Completed)) true) /\
    kept fs fs' /\ inter_ok fs' (Id t).
Proof.
  intros (j & file & Hj & [= Hty Hid Hfn] & Hn) Hin.
  destruct (Forall2_lookup_l _ _ _ _ _ Hinputs Hj) as (kvs & Hkvs & content & Hc & Hm).
  pose proof (Forall_lookup_1 _ _ _ _ Hpublic Hj) as Hpub.
  destruct (map_task_spec timeString mapf t file content kvs fs) as (fs' & E & H1 & H2 & H3);
    [done|lia|lia|by rewrite Hin|done|].
  assert (inter_ok fs' (Id t)) as Hio.
  { intros kvs' i Hk Hi. rewrite Hid Nat2Z.id Hkvs in Hk. injection Hk as <-. rewrite -Hn. apply H1. lia. }
  exists fs'. split; [done|]. split; [|done]. constructor.
  - intros k Hk0 Hk. destruct (decide (k = Id t)) as [->|Hne]; [done|]. intros kvs' i Hkk Hi. rewrite H2 //. by apply Hk.
  - intros i (text & Ht & Ho). exists text. split; [|done]. by rewrite H3.
  - intros Hi x Hx. rewrite H3; [|by apply Hi]. unfold private in Hx. by apply orb_false_iff in Hx as [Hx _].
Qed.

Lemma partition_concat i (ls : list (list KeyValue)) :
  concat (partition (part nR) i <$> ls) = partition (part nR) i (concat ls).
Proof. induction ls as [|l ls IH]; [done|]. rewrite fmap_cons /= IH. unfold partition. by rewrite filter_app. Qed.

Lemma run_reduce t (fs : FS) :
  reduce_shape t -> (forall j, (j < length files)%nat -> inter_ok fs (Z.of_nat j)) ->
  exists fs', HandleReduceTask timeString reducef t fs = (fs', mkHandled (Some (set_State t Completed)) true) /\
    kept fs fs' /\ out_ok fs' (Id t).
Proof.
  intros (i & Hi & [= Hty Hid Hfn]) Hin. subst i.
  pose proof (Forall2_length _ _ _ Hinputs) as Hlen.
  destruct (reduce_task_spec timeString reducef red Hred t (partition (part nR) (Id t) <$> kss) fs)
    as (fs' & E & (text & H1 & Ho) & H2 & H3).
  - rewrite Hfn. unfold partition_files. apply Forall2_same_length_lookup_2.
    { rewrite length_fmap length_seqZ length_fmap. unfold len. lia. }
    intros j f l (x & -> & Hx)%list_lookup_fmap_Some_1 (kvs & -> & Hk)%list_lookup_fmap_Some_1.
    apply lookup_seqZ in Hx as [-> Hx]. rewrite Z.add_0_l. apply lookup_lt_Some in Hk as Hlt.
    split; [apply Hin; [lia|by rewrite Nat2Z.id|done]|].
    apply Forall_forall. intros kv [_ Hkv]%list_elem_of_filter. apply (proj1 (Forall_forall _ _) Hclean).
    apply list_elem_of_In, in_concat. exists kvs. split; apply list_elem_of_In; [exact (list_elem_of_lookup_2 _ _ _ Hk)|done].
  - rewrite Hfn. apply Forall_fmap, Forall_true. intros j. apply inter_not_out_prefix.
  - rewrite Hfn. intros Hnil%(f_equal length). unfold partition_files in Hnil.
    rewrite length_fmap length_seqZ in Hnil. unfold len in Hnil. destruct files; simpl in Hnil; [done|lia].
  - rewrite partition_concat in Ho. assert (out_ok fs' (Id t)) as Hok by by exists text.
    exists fs'. split; [done|]. split; [|done]. constructor.
    + intros j Hj0 Hj kvs k Hk Hkr. rewrite H3; [apply inter_not_out_prefix|by apply Hj].
    + intros j Hj. destruct (decide (j = Id t)) as [->|Hne]; [done|]. destruct Hj as (tx & Htx & Hox).
      exists tx. split; [|done]. by rewrite H2.
    + intros Hii x Hx. rewrite H3; [|by apply Hii]. unfold private in Hx. by apply orb_false_iff in Hx as [_ Hx].
Qed.

Definition map_shapes : list (TaskType * Z * list string) :=
  imap (fun j file => (MapTask, Z.of_nat j, [file])) files.

Definition map_task_ok (fs : FS) (t : Task) : Prop :=
  NReduce t = nR /\ (State t = Completed -> inter_ok fs (Id t)).

Definition handed_ok (t : Task) : Prop :=
  (Type_ t = MapTask -> map_shape t) /\ (Type_ t = ReduceTask -> reduce_shape t).

Definition report_ok (hs : list Task) (fs : FS) (r : Task) : Prop :=
  exists t, t ∈ hs /\ r = set_State t Completed /\
    (Type_ t = MapTask -> inter_ok fs (Id t)) /\ (Type_ t = ReduceTask -> out_ok fs (Id t)).

Record job_inv (s : JobState) : Prop := {
  jv_timely : mr_timely files nR (j_mr s);
  jv_inputs : inputs_kept (j_fs s);
  jv_map_shapes : shape <$> mapTasks (coord (j_mr s)) = map_shapes;
  jv_maps : Forall (map_task_ok (j_fs s)) (mapTasks (coord (j_mr s)));
  jv_reduces : Forall (fun t => State t = Completed -> out_ok (j_fs s) (Id t)) (reduceTasks (coord (j_mr s)));
  jv_handed : Forall handed_ok (handed (j_mr s));
  jv_reports : Forall (report_ok (handed (j_mr s)) (j_fs s)) (j_reports s);
}.

Lemma init_job_inv : job_inv (job_init files nR fs0).
Proof.
  constructor; simpl; try done; [apply rtc_refl| |].
  - unfold map_shapes. apply list_eq. intros k. rewrite list_lookup_fmap !list_lookup_imap. by destruct (files !! k).
  - apply Forall_lookup. intros i t. rewrite list_lookup_imap. intros (f & _ & ->)%fmap_Some_1. done.
Qed.

(** The shape of a task of the map phase. *)
Lemma map_shapes_elem (ts : list Task) t :
  shape <$> ts = map_shapes -> t ∈ ts -> NReduce t = nR -> map_shape t.
Proof.
  intros Hs (k & Hk)%list_elem_of_lookup_1 Hn. apply (f_equal (fun l => l !! k)) in Hs.
  rewrite list_lookup_fmap Hk in Hs. unfold map_shapes in Hs. rewrite list_lookup_imap in Hs. symmetry in Hs.
  apply fmap_Some_1 in Hs as (file & Hf & E). exists k, file. done.
Qed.

Lemma reduce_shapes_elem (ts : list Task) t :
  shape <$> ts = reduce_shapes (len files) nR -> t ∈ ts -> reduce_shape t.
Proof.
  intros Hs (k & Hk)%list_elem_of_lookup_1. apply (f_equal (fun l => l !! k)) in Hs.
  rewrite list_lookup_fmap Hk in Hs. unfold reduce_shapes in Hs. symmetry in Hs.
  apply list_lookup_fmap_Some_1 in Hs as (i & E & Hi). apply lookup_seqZ in Hi as [-> Hi]. exists (0 + Z.of_nat k).
  split; [lia|done].
Qed.

Lemma map_shapes_len (ts : list Task) : shape <$> ts = map_shapes -> len ts = len files.
Proof.
  intros Hs%(f_equal length). unfold map_shapes in Hs. rewrite length_fmap length_imap in Hs. unfold len. lia.
Qed.

(** In the reduce phase every intermediate file is there. *)
Lemma all_inter s j :
  job_inv s -> c_phase (coord (j_mr s)) <> duringMap -> (j < length files)%nat -> inter_ok (j_fs s) (Z.of_nat j).
Proof.
  intros [Ht _ Hsh Hm _ _ _] Hp Hj.
  destruct (mi_after _ _ (mr_reachable_inv _ _ _ (timely_reachable _ _ _ Ht)) Hp) as [Hc _].
  apply map_shapes_len in Hsh as Hlen. unfold len in Hlen.
  destruct (lookup_lt_is_Some_2 (mapTasks (coord (j_mr s))) j) as [t Hjt]; [lia|].
  apply (f_equal (fun l => l !! j)) in Hsh. rewrite list_lookup_fmap Hjt in Hsh.
  unfold map_shapes in Hsh. rewrite list_lookup_imap in Hsh. symmetry in Hsh.
  apply fmap_Some_1 in Hsh as (file & Hf & [= _ <- _]).
  apply (Forall_lookup_1 _ _ _ _ Hm Hjt). exact (Forall_lookup_1 _ _ _ _ Hc Hjt).
Qed.

Lemma job_get_inv s now mr' :
  job_inv s -> mr_step (j_mr s) (RGetTask now) = Ret mr' -> job_inv (mkJob mr' (j_fs s) (j_reports s)).
Proof.
  intros HI Hs. pose proof HI as [Ht Hi Hsh Hm Hr Hh Hrep].
  assert (mr_timely files nR mr') as Ht'.
  { eapply rtc_r; [exact Ht|]. exists (RGetTask now). by split. }
  simpl in Hs. unfold HandleGetTaskRequest in Hs.
  assert (forall r, Forall (report_ok (handed (j_mr s) ++ option_list r) (j_fs s)) (j_reports s)) as Hrep'.
  { intros r. eapply Forall_impl; [exact Hrep|]. intros x (t & Ht0 & H0). exists t. split; [|done].
    apply elem_of_app. by left. }
  destruct (c_phase (coord (j_mr s))) eqn:Hph.
  - destruct (findAvailableTask now (mapTasks (coord (j_mr s)))) as [r ts] eqn:Hf. inv_ret.
    destruct (findAvailable_Forall (fun t => map_task_ok (j_fs s) t /\ map_shape t) now
      (mapTasks (coord (j_mr s))) r ts) as [Hts Hro]; [|done| |].
    { intros t [[Hn _] Hms]. by split. }
    { apply Forall_forall. intros t Ht0. rewrite Forall_forall in Hm. split; [by apply Hm|].
      eapply map_shapes_elem; [exact Hsh|done|by apply Hm]. }
    constructor; simpl; try done.
    + by rewrite (findAvailable_shape _ _ _ _ Hf).
    + eapply Forall_impl; [exact Hts|]. by intros t [? _].
    + apply Forall_app. split; [done|]. destruct r as [t|]; simpl; [|done]. constructor; [|done].
      destruct (Hro t eq_refl) as [_ Hms]. split; [done|]. destruct Hms as (? & ? & _ & [= -> _ _] & _). done.
  - destruct (findAvailableTask now (reduceTasks (coord (j_mr s)))) as [r ts] eqn:Hf. inv_ret.
    pose proof (ti_after _ (proj1 (mr_timely_inv _ _ _ Ht)) ltac:(by rewrite Hph)) as Hrs.
    rewrite (map_shapes_len _ Hsh) (proj2 (mr_timely_inv _ _ _ Ht)) in Hrs.
    destruct (findAvailable_Forall (fun t => (State t = Completed -> out_ok (j_fs s) (Id t)) /\ reduce_shape t) now
      (reduceTasks (coord (j_mr s))) r ts) as [Hts Hro]; [|done| |].
    { intros t [_ Hms]. by split. }
    { apply Forall_forall. intros t Ht0. rewrite Forall_forall in Hr. split; [by apply Hr|].
      exact (reduce_shapes_elem _ _ Hrs Ht0). }
    constructor; simpl; try done.
    + eapply Forall_impl; [exact Hts|]. by intros t [? _].
    + apply Forall_app. split; [done|]. destruct r as [t|]; simpl; [|done]. constructor; [|done].
      destruct (Hro t eq_refl) as [_ Hms]. split; [|done]. destruct Hms as (? & _ & [= -> _ _]). done.
  - inv_ret. constructor; simpl; try done; [|exact (Hrep' (Some _))].
    apply Forall_app. split; [done|]. constructor; [by split|done].
Qed.

Lemma kept_inv s (fs' : FS) : job_inv s -> kept (j_fs s) fs' -> job_inv (mkJob (j_mr s) fs' (j_reports s)).
Proof.
  intros [Ht Hi Hsh Hm Hr Hh Hrep] [K1 K2 K3]. constructor; simpl; try done; [by apply K3|..].
  - apply Forall_forall. intros t Ht0. rewrite Forall_forall in Hm. destruct (Hm t Ht0) as [Hn Hc]. split; [done|].
    destruct (map_shapes_elem _ _ Hsh Ht0 Hn) as (j & f & _ & [= _ Hid _] & _). intros Hst. apply K1; [lia|auto].
  - eapply Forall_impl; [exact Hr|]. simpl. auto.
  - eapply Forall_impl; [exact Hrep|]. intros r (t & Ht0 & -> & H1 & H2). exists t. split; [done|]. split; [done|].
    split; [|auto]. intros Hty. rewrite Forall_forall in Hh. destruct (Hh t Ht0) as [Hms _].
    destruct (Hms Hty) as (j & f & _ & [= _ Hid _] & _). apply K1; [lia|auto].
Qed.

Lemma job_run_inv s timer now t fs' h next :
  job_inv s -> t ∈ handed (j_mr s) ->
  Worker timeString mapf reducef timer now (Some t) (j_fs s) = (fs', Some h, next) ->
  job_inv (mkJob (j_mr s) fs' (j_reports s ++ option_list (reported h))).
Proof.
  intros HI Hin Hw. pose proof (jv_handed _ HI) as Hh. rewrite Forall_forall in Hh. destruct (Hh t Hin) as [Hm Hr].
  unfold Worker in Hw. destruct (bool_decide _); [done|].
  assert (forall fs'', kept (j_fs s) fs'' -> report_ok (handed (j_mr s)) fs'' (set_State t Completed) ->
    job_inv (mkJob (j_mr s) fs'' (j_reports s ++ [set_State t Completed]))) as Hgo.
  { intros fs'' Hk Hrep. destruct (kept_inv s fs'' HI Hk) as [? ? ? ? ? ? Hrs]. constructor; try done.
    apply Forall_app. split; [done|]. by constructor. }
  destruct (Type_ t) eqn:Hty; try done.
  - destruct (run_map t (j_fs s) (Hm eq_refl) (jv_inputs _ HI)) as (fs'' & E & Hk & Hio). rewrite E in Hw. simplify_eq/=.
    apply Hgo; [done|]. exists t. split_and!; try done. by rewrite Hty.
  - destruct (run_reduce t (j_fs s) (Hr eq_refl)) as (fs'' & E & Hk & Hoo).
    { intros j Hj. apply all_inter; [done| |done]. intros Hp.
      destruct (mi_before _ _ (mr_reachable_inv _ _ _ (timely_reachable _ _ _ (jv_timely _ HI))) Hp) as [_ Hmt].
      rewrite Forall_forall in Hmt. specialize (Hmt t Hin). simpl in Hmt. congruence. }
    rewrite E in Hw. simplify_eq/=. apply Hgo; [done|]. exists t. split_and!; try done. by rewrite Hty.
Qed.

Lemma job_report_inv s t mr' :
  job_inv s -> t ∈ j_reports s -> timely (j_mr s) (RTaskDone t) -> mr_step (j_mr s) (RTaskDone t) = Ret mr' ->
  job_inv (mkJob mr' (j_fs s) (j_reports s)).
Proof.
  intros HI Hin Hti Hs. pose proof HI as [Ht Hi Hsh Hm Hr Hh Hrep]. rewrite Forall_forall in Hrep.
  destruct (Hrep t Hin) as (t0 & Ht0 & -> & Hmo & Hro).
  assert (mr_timely files nR mr') as Ht'.
  { eapply rtc_r; [exact Ht|]. exists (RTaskDone (set_State t0 Completed)). split; [|done]. split; [|done]. by exists t0, Completed. }
  apply Forall_forall in Hrep. simpl in Hs. inv_ret. unfold TaskDone in Hm0. simpl in Hm0.
  destruct (Type_ t0) eqn:Hty; inv_ret; try done.
  - assert (Forall (map_task_ok (j_fs s)) (markCompleted (Id t0) (mapTasks (coord (j_mr s))))) as Hm'.
    { apply markCompleted_Forall_id; [|done]. intros x Hid [Hn _]. split; [done|]. simpl. rewrite Hid. auto. }
    pose proof (TaskDoneMap_spec (coord (j_mr s)) (set_State t0 Completed)) as Hd. simpl in Hd.
    destruct (allCompleted _); [destruct Hd as (ts & Hd & Hl & Hts)|]; rewrite Hd in Hm0; inv_ret;
      constructor; simpl; try done; try (by rewrite markCompleted_shape).
    apply Forall_lookup. intros k x. rewrite Hts.
    rewrite (ti_before _ (proj1 (mr_timely_inv _ _ _ Ht)) (Hti Hty)).
    intros (y & Hy%lookup_lt_Some & ->)%fmap_Some_1. rewrite bool_decide_true //.
    rewrite /= length_fmap length_seqZ in Hy. done.
  - assert (Forall (fun x => State x = Completed -> out_ok (j_fs s) (Id x)) (markCompleted (Id t0) (reduceTasks (coord (j_mr s))))) as Hr'.
    { apply markCompleted_Forall_id; [|done]. intros x Hid _ _. simpl. rewrite Hid. auto. }
    unfold TaskDoneReduce in *. simpl in *. destruct (allCompleted _); constructor; simpl; done.
Qed.

Lemma job_step_inv s s' : job_inv s -> job_step s s' -> job_inv s'.
Proof. intros HI Hs. destruct Hs; [eapply job_get_inv|eapply job_run_inv|eapply job_report_inv]; eauto. Qed.

Lemma job_reachable_inv s : job_reachable files nR fs0 s -> job_inv s.
Proof.
  revert s. apply (rtc_ind_r job_inv (job_init files nR fs0)); [apply init_job_inv|].
  intros s1 s2 _ Hs HI. exact (job_step_inv s1 s2 HI Hs).
Qed.

(** ** A worker on its own finishes *)

Lemma round_steps now s t c r mr' fs' next :
  HandleGetTaskRequest now (coord (j_mr s)) = (Some t, c) ->
  Worker timeString mapf reducef (now + worker_timeout) now (Some t) (j_fs s) = (fs', Some (mkHandled (Some r) true), next) ->
  let mr := mkMRState c (handed (j_mr s) ++ [t]) in
  timely mr (RTaskDone r) -> mr_step mr (RTaskDone r) = Ret mr' ->
  rtc job_step s (round now s) /\ j_mr (round now s) = mr'.
Proof.
  intros Hg Hw mr Hti Hd. unfold round. rewrite Hg Hw Hd. split; [|done].
  eapply rtc_l. { apply (job_get s now mr). simpl. by rewrite Hg. }
  eapply rtc_l. { eapply (job_run (mkJob mr (j_fs s) (j_reports s))); [|exact Hw]. simpl. apply elem_of_app. right. left. }
  eapply rtc_l. { eapply (job_report (mkJob mr fs' _)); [|exact Hti|exact Hd]. simpl. apply elem_of_app. right. left. }
  apply rtc_refl.
Qed.

Definition map_progress (k : nat) (s : JobState) : Prop :=
  c_phase (coord (j_mr s)) = duringMap /\ progress k (mapTasks (coord (j_mr s))).

Definition reduce_progress (k : nat) (s : JobState) : Prop :=
  c_phase (coord (j_mr s)) = duringReduce /\ progress k (reduceTasks (coord (j_mr s))) /\
  length (reduceTasks (coord (j_mr s))) = Z.to_nat nR.

Lemma get_reachable s now mr' :
  job_reachable files nR fs0 s -> mr_step (j_mr s) (RGetTask now) = Ret mr' ->
  job_reachable files nR fs0 (mkJob mr' (j_fs s) (j_reports s)).
Proof. intros Hr Hs. eapply rtc_r; [exact Hr|]. by apply (job_get s now). Qed.

Lemma map_round now k s :
  job_reachable files nR fs0 s -> map_progress k s -> (k < length files)%nat ->
  job_reachable files nR fs0 (round now s) /\
  if bool_decide (k + 1 = length files)%nat then reduce_progress 0 (round now s) else map_progress (k + 1) (round now s).
Proof.
  intros Hr [Hph Hp] Hk. pose proof (job_reachable_inv _ Hr) as HI.
  pose proof (map_shapes_len _ (jv_map_shapes _ HI)) as Hlen. unfold len in Hlen.
  destruct (serve_next now k _ Hp) as (t & ts' & Hf & Hin & Hid & Hp' & Hl'); [lia|].
  assert (HandleGetTaskRequest now (coord (j_mr s)) = (Some t, set_mapTasks (coord (j_mr s)) ts')) as Hg
    by (unfold HandleGetTaskRequest; by rewrite Hph Hf).
  set (mr := mkMRState (set_mapTasks (coord (j_mr s)) ts') (handed (j_mr s) ++ [t])).
  assert (mr_step (j_mr s) (RGetTask now) = Ret mr) as Hst by (simpl; by rewrite Hg).
  pose proof (job_get_inv s now mr HI Hst) as [Ht' _ Hsh' Hm' _ _ _]. simpl in Hsh', Hm'.
  assert (map_shape t) as Hms by (eapply map_shapes_elem; [exact Hsh'|done|]; rewrite Forall_forall in Hm'; by apply Hm').
  assert (Type_ t = MapTask) as Hty by (by destruct Hms as (? & ? & _ & [= -> _ _] & _)).
  destruct (run_map t (j_fs s) Hms (jv_inputs _ HI)) as (fs' & E & _ & _).
  pose proof (TaskDoneMap_spec (coord mr) (set_State t Completed)) as Hd. cbv zeta in Hd. simpl in Hd.
  rewrite (progress_all (k + 1)) in Hd; [done|lia|]. rewrite Hl' in Hd.
  assert (exists mr', mr_step mr (RTaskDone (set_State t Completed)) = Ret mr') as [mr' Hmr'] by apply mr_step_total.
  destruct (round_steps now s t _ (set_State t Completed) mr' fs' (Continue 0 (now + worker_timeout)) Hg)
    as [Hst' Hmr]; [|by intros _|done|].
  { unfold Worker. rewrite bool_decide_false; [unfold worker_timeout, Second; lia|]. by rewrite Hty E. }
  split; [exact (transitivity Hr Hst')|]. simpl in Hmr'. unfold TaskDone in Hmr'. simpl in Hmr'. rewrite Hty in Hmr'.
  destruct (decide (k + 1 = length files)%nat) as [Hkn|Hkn].
  - rewrite (bool_decide_true (k + 1 = length files)%nat) //. rewrite bool_decide_true in Hd; [lia|]. destruct Hd as (rts & Hd & Hl & Hts). rewrite Hd in Hmr'. injection Hmr' as <-.
    rewrite (ti_before _ (proj1 (mr_timely_inv _ _ _ (jv_timely _ HI))) Hph) in Hl, Hts.
    assert (nReduce (coord (j_mr s)) = nR) as HnRc by apply (mr_timely_inv _ _ _ (jv_timely _ HI)).
    rewrite HnRc in Hl, Hts. unfold reduce_progress. rewrite Hmr. simpl. split_and!; [done| |by rewrite Hl].
    intros i x. rewrite Hts. intros (y & Hy & ->)%fmap_Some_1. simpl in Hy.
    apply list_lookup_fmap_Some_1 in Hy as (z & -> & [-> Hz]%lookup_seqZ). rewrite bool_decide_true; [lia|]. done.
  - rewrite (bool_decide_false (k + 1 = length files)%nat) //. rewrite bool_decide_false in Hd; [lia|]. rewrite Hd in Hmr'. injection Hmr' as <-. unfold map_progress. rewrite Hmr. simpl. done.
Qed.

Lemma reduce_round now k s :
  job_reachable files nR fs0 s -> reduce_progress k s -> (k < Z.to_nat nR)%nat ->
  job_reachable files nR fs0 (round now s) /\
  if bool_decide (k + 1 = Z.to_nat nR)%nat then Done (coord (j_mr (round now s))) = true
  else reduce_progress (k + 1) (round now s).
Proof.
  intros Hr (Hph & Hp & Hlr) Hk. pose proof (job_reachable_inv _ Hr) as HI.
  destruct (serve_next now k _ Hp) as (t & ts' & Hf & Hin & Hid & Hp' & Hl'); [lia|].
  assert (HandleGetTaskRequest now (coord (j_mr s)) = (Some t, set_reduceTasks (coord (j_mr s)) ts')) as Hg
    by (unfold HandleGetTaskRequest; by rewrite Hph Hf).
  set (mr := mkMRState (set_reduceTasks (coord (j_mr s)) ts') (handed (j_mr s) ++ [t])).
  assert (mr_step (j_mr s) (RGetTask now) = Ret mr) as Hst by (simpl; by rewrite Hg).
  pose proof (job_get_inv s now mr HI Hst) as [Ht' _ Hsh' _ _ _ _]. simpl in Hsh'.
  assert (reduce_shape t) as Hms.
  { destruct (mr_timely_inv _ _ _ Ht') as [Hti Hn]. eapply reduce_shapes_elem; [|exact Hin].
    rewrite -(map_shapes_len _ Hsh') -Hn. apply (ti_after _ Hti). simpl. by rewrite Hph. }
  assert (Type_ t = ReduceTask) as Hty by (by destruct Hms as (? & _ & [= -> _ _])).
  destruct (run_reduce t (j_fs s) Hms) as (fs' & E & _ & _).
  { intros j Hj. apply all_inter; [done|by rewrite Hph|done]. }
  destruct (round_steps now s t _ (set_State t Completed)
    (mkMRState (TaskDoneReduce (coord mr) (set_State t Completed)) (handed mr)) fs' (Continue 0 (now + worker_timeout)) Hg)
    as [Hst' Hmr]; [| | |].
  { unfold Worker. rewrite bool_decide_false; [unfold worker_timeout, Second; lia|]. by rewrite Hty E. }
  { simpl. by rewrite Hty. }
  { simpl. unfold TaskDone. simpl. by rewrite Hty. }
  split; [exact (transitivity Hr Hst')|]. rewrite /reduce_progress Hmr /=. unfold TaskDoneReduce. simpl.
  rewrite (progress_all (k + 1)); [done|lia|]. rewrite Hl' Hlr.
  case_bool_decide as Hkn; [by apply bool_decide_eq_true|]. simpl. split_and!; [done|done|lia].
Qed.

Lemma rounds_map clock k :
  (k <= length files)%nat ->
  let s := rounds clock k (job_init files nR fs0) in
  job_reachable files nR fs0 s /\
  if bool_decide (k = length files) then reduce_progress 0 s else map_progress k s.
Proof.
  induction k as [|k IH]; intros Hk.
  - split; [apply rtc_refl|]. rewrite bool_decide_false; [by destruct files|]. split; [done|].
    intros i t. simpl. rewrite list_lookup_imap. intros (f & Hf & ->)%fmap_Some_1. done.
  - destruct IH as [Hr Hp]; [lia|]. rewrite bool_decide_false in Hp; [lia|].
    destruct (map_round (clock k) k _ Hr Hp) as [Hr' Hp']; [lia|]. split; [exact Hr'|].
    replace (k + 1)%nat with (Datatypes.S k) in Hp' by lia. exact Hp'.
Qed.

Lemma rounds_reduce clock k :
  (k <= Z.to_nat nR)%nat ->
  let s := rounds clock (k + length files) (job_init files nR fs0) in
  job_reachable files nR fs0 s /\
  if bool_decide (k = Z.to_nat nR) then Done (coord (j_mr s)) = true else reduce_progress k s.
Proof.
  induction k as [|k IH]; intros Hk.
  - destruct (rounds_map clock (length files)) as [Hr Hp]; [lia|]. rewrite bool_decide_true in Hp; [done|].
    split; [exact Hr|]. rewrite bool_decide_false; [lia|]. exact Hp.
  - destruct IH as [Hr Hp]; [lia|]. rewrite bool_decide_false in Hp; [lia|].
    destruct (reduce_round (clock (k + length files)%nat) k _ Hr Hp) as [Hr' Hp']; [lia|]. split; [exact Hr'|].
    replace (k + 1)%nat with (Datatypes.S k) in Hp' by lia. exact Hp'.
Qed.

(** ** The output *)

Lemma done_out_ok s i : job_inv s -> Done (coord (j_mr s)) = true -> 0 <= i < nR -> out_ok (j_fs s) i.
Proof.
  intros HI Hd%bool_decide_eq_true Hi.
  destruct (mr_timely_inv _ _ _ (jv_timely _ HI)) as [[_ Ha Hf] Hn].
  specialize (Ha ltac:(by rewrite Hd)). rewrite (map_shapes_len _ (jv_map_shapes _ HI)) Hn in Ha.
  apply (f_equal (fun l => l !! Z.to_nat i)) in Ha. unfold reduce_shapes in Ha.
  rewrite list_lookup_fmap (list_lookup_fmap _ (seqZ 0 nR)) lookup_seqZ_lt in Ha; [lia|].
  apply fmap_Some_1 in Ha as (t & Ht & [= _ Hid _]). replace i with (Id t) by lia.
  apply (Forall_lookup_1 _ _ _ _ (jv_reduces _ HI) Ht).
  pose proof (Hf Hd) as Hall. apply allCompleted_spec in Hall. exact (Forall_lookup_1 _ _ _ _ Hall Ht).
Qed.

End correct.
End job.

(** A finite choice of lists. *)
Lemma choose_lists (P : Z -> list string -> Prop) (n : nat) :
  (forall i, 0 <= i < Z.of_nat n -> exists l, P i l) ->
  exists ls : list (list string), length ls = n /\ forall i l, ls !! i = Some l -> P (Z.of_nat i) l.
Proof.
  induction n as [|n IH]; intros H; [by exists []|].
  destruct IH as (ls & Hl & Hls); [intros; apply H; lia|]. destruct (H (Z.of_nat n)) as [l Hl']; [lia|].
  exists (ls ++ [l]). split; [rewrite length_app /=; lia|]. intros i x.
  intros [Hi|[Hge Hi]]%lookup_app_Some; [by apply Hls|]. apply list_lookup_singleton_Some in Hi as [H0 <-].
  by replace i with n by lia.
Qed.

Lemma concat_bind_perm (f : Z -> list string) (n : nat) (ls : list (list string)) (a : Z) :
  length ls = n -> (forall i l, ls !! i = Some l -> l ≡ₚ f (a + Z.of_nat i)) ->
  concat ls ≡ₚ seqZ a (Z.of_nat n) ≫= f.
Proof.
  revert ls a. induction n as [|n IH]; intros [|l ls] a Hl H; try done. rewrite seqZ_cons; [lia|]. cbn. f_equiv.
  - rewrite (H 0%nat l eq_refl). by rewrite Z.add_0_r.
  - replace (Z.pred (Z.of_nat (Datatypes.S n))) with (Z.of_nat n) by lia. apply IH; [simpl in Hl; lia|].
    intros i x Hx. rewrite (H (Datatypes.S i) x Hx). by replace (a + Z.of_nat (Datatypes.S i)) with (Z.succ a + Z.of_nat i) by lia.
Qed.

(** What a job needs: the input files exist under names the job does not use
    itself, the plugin functions do not panic, and keys and values are words
    that fit the scanner's buffer. *)
Record job_setup (mapf : string -> string -> outcome (list KeyValue)) (reducef : string -> list string -> outcome string)
    (red : string -> list string -> string) (files : list string) (kss : list (list KeyValue)) (nR : Z) (fs0 : FS) : Prop := {
  js_red : forall k vs, reducef k vs = Ret (red k vs);
  js_nR : 0 < nR;
  js_files : files <> [];
  js_public : Forall (fun f => private f = false) files;
  js_inputs : Forall2 (input_ok mapf fs0) files kss;
  js_clean : Forall (fun kv => clean kv = true) (concat kss);
}.

(** The right output files, and the sequential one. *)
Lemma output_is_sequential (HKS : KeySort) mapf reducef red files kss nR fs0 (fs : FS) :
  job_setup mapf reducef red files kss nR fs0 -> order_free red -> (forall i, 0 <= i < nR -> out_ok red kss nR fs i) ->
  exists (fsq : FS) (L : list string) (Ls : list (list string)),
    sequential mapf reducef files fs0 = (fsq, inl tt) /\ fsq !! outName 0 = Some (concat_str L) /\
    length Ls = Z.to_nat nR /\
    (forall i l, Ls !! i = Some l -> fs !! outName (Z.of_nat i) = Some (concat_str l)) /\
    concat Ls ≡ₚ L /\ L ≡ₚ result red (concat kss).
Proof.
  intros [H1 H2 H3 H4 H5 H6] Hof Hout.
  destruct (sequential_spec mapf reducef red H1 files kss fs0 H5) as (fsq & Hsq & text & Ht & s0 & Hs0 & Hp0 & ->).
  pose proof (groups_result red s0 _ Hof Hs0 Hp0) as HL.
  destruct (choose_lists (fun i l => fs !! outName i = Some (concat_str l) /\
    l ≡ₚ result red (partition (part nR) i (concat kss))) (Z.to_nat nR)) as (Ls & Hlen & HLs).
  { intros i Hi. destruct (Hout i) as (text & Htx & si & Hsi & Hpi & ->); [lia|]. eexists. split; [exact Htx|]. by apply groups_result. }
  exists fsq, (out_line red <$> groups s0), Ls. split_and!; [done|done|done| | |done].
  - intros i l Hi. by apply (HLs i l).
  - rewrite HL -(result_partition red (part nR) nR (concat kss)); [intros; by apply part_range|].
    rewrite (concat_bind_perm (fun i => result red (partition (part nR) i (concat kss))) _ Ls 0 Hlen).
    + intros i l Hi. by apply (HLs i l).
    + by rewrite Z2Nat.id; [lia|].
Qed.

(** The output of a finished job whose handlers were not interrupted, and the
    sequential one. *)
Lemma job_output (timeString : Z -> string) (HKS : KeySort) mapf reducef red files kss nR fs0 s :
  job_setup mapf reducef red files kss nR fs0 -> order_free red ->
  job_reachable timeString mapf reducef files nR fs0 s -> Done (coord (j_mr s)) = true ->
  exists (fsq : FS) (L : list string) (Ls : list (list string)),
    sequential mapf reducef files fs0 = (fsq, inl tt) /\ fsq !! outName 0 = Some (concat_str L) /\
    length Ls = Z.to_nat nR /\
    (forall i l, Ls !! i = Some l -> j_fs s !! outName (Z.of_nat i) = Some (concat_str l)) /\
    concat Ls ≡ₚ L /\ L ≡ₚ result red (concat kss).
Proof.
  intros Hset Hof Hr Hd. pose proof Hset as [H1 H2 H3 H4 H5 H6]. apply output_is_sequential; [done|done|]. intros i Hi.
  apply (done_out_ok red files kss nR fs0 H2 s i); [|done|done].
  by apply (job_reachable_inv timeString mapf reducef red files kss nR fs0 H1 H2 H3 H4 H5 H6).
Qed.

(** C23. A worker on its own finishes the job: after one round for every input file
    and every partition, at any times, the coordinator is done. *)
Theorem single_worker_finishes (timeString : Z -> string) (HKS : KeySort) mapf reducef red files kss nR fs0 (clock : nat -> Z) :
  job_setup mapf reducef red files kss nR fs0 ->
  let s := rounds timeString mapf reducef clock (Z.to_nat nR + length files) (job_init files nR fs0) in
  job_reachable timeString mapf reducef files nR fs0 s /\ Done (coord (j_mr s)) = true.
Proof.
  intros [H1 H2 H3 H4 H5 H6].
  destruct (rounds_reduce timeString mapf reducef red files kss nR fs0 H1 H2 H3 H4 H5 H6 clock (Z.to_nat nR)) as [Hr Hd]; [lia|].
  rewrite bool_decide_true in Hd; done.
Qed.

(** ** An example: counting words *)

Definition key_le (a b : KeyValue) : Prop := String.ltb (Key b) (Key a) = false.

#[export] Instance key_le_dec : RelDecision key_le.
Proof. intros a b. unfold key_le. apply _. Defined.

Lemma key_le_total : Total key_le.
Proof. intros a b. unfold key_le. rewrite -!string_le_iff. apply string_le_total. Qed.

Lemma key_le_trans : Transitive key_le.
Proof. intros a b c. unfold key_le. rewrite -!string_le_iff. apply string_le_trans. Qed.

Lemma merge_key_sorted l : StronglySorted key_le (merge_sort key_le l).
Proof. apply Sorted_StronglySorted; [apply key_le_trans|]. apply Sorted_merge_sort, key_le_total. Qed.

#[local] Instance merge_KeySort : KeySort := {
  sortByKey := merge_sort key_le;
  sortByKey_perm := merge_sort_Permutation key_le;
  sortByKey_sorted := merge_key_sorted;
}.

Definition count_mapf (_ content : string) : outcome (list KeyValue) :=
  Ret ((fun w => mkKeyValue w "1") <$> Fields content).

Definition count_red (_ : string) (vs : list string) : string := pretty (Z.of_nat (length vs)).
Definition count_reducef (k : string) (vs : list string) : outcome string := Ret (count_red k vs).

Definition count_files : list string := ["pg.txt"%string; "qh.txt"%string].
Definition count_fs : FS := <["pg.txt"%string := "b a b"%string]> (<["qh.txt"%string := "a"%string]> ∅).
Definition count_kss : list (list KeyValue) :=
  [[mkKeyValue "b" "1"; mkKeyValue "a" "1"; mkKeyValue "b" "1"]; [mkKeyValue "a" "1"]].

Lemma count_setup : job_setup count_mapf count_reducef count_red count_files count_kss 2 count_fs.
Proof.
  constructor; [done|lia|done|by repeat constructor| |by repeat constructor].
  repeat constructor; eexists; split; reflexivity.
Qed.

Lemma count_order_free : order_free count_red.
Proof. intros k vs vs' Hp. unfold count_red. by rewrite Hp. Qed.

Definition count_job : JobState :=
  rounds pretty count_mapf count_reducef (fun n => Z.of_nat n * Second) (Z.to_nat 2 + length count_files)
    (job_init count_files 2 count_fs).

Lemma count_job_reachable : job_reachable pretty count_mapf count_reducef count_files 2 count_fs count_job.
Proof.
  destruct count_setup as [H1 H2 H3 H4 H5 H6].
  exact (proj1 (rounds_reduce pretty count_mapf count_reducef count_red count_files count_kss 2 count_fs
    H1 H2 H3 H4 H5 H6 (fun n => Z.of_nat n * Second) (Z.to_nat 2) (Nat.le_refl _))).
Qed.

Lemma single_worker_finishes_witness :
  job_reachable pretty count_mapf count_reducef count_files 2 count_fs count_job /\ Done (coord (j_mr count_job)) = true.
Proof.
  exact (single_worker_finishes pretty merge_KeySort count_mapf count_reducef count_red count_files count_kss 2 count_fs
    (fun n => Z.of_nat n * Second) count_setup).
Defined.

(** ** Keys with a space *)

Definition phrase_mapf (_ content : string) : outcome (list KeyValue) := Ret [mkKeyValue content "1"].

Definition phrase_fs : FS := <["pg.txt"%string := "to be"%string]> ∅.

Definition phrase_job : JobState :=
  rounds pretty phrase_mapf count_reducef (fun n => Z.of_nat n * Second) 2 (job_init ["pg.txt"%string] 1 phrase_fs).

(** If the map function emits a key with a space, the reduce task cannot read its
    input back: it panics and reports the task as not completed, which the
    coordinator counts as done.  The job ends without an output file, while the
    sequential program writes the line. *)
Lemma space_in_key_loses_output :
  Done (coord (j_mr phrase_job)) = true /\ j_fs phrase_job !! outName 0 = None /\
  exists fsq, sequential phrase_mapf count_reducef ["pg.txt"%string] phrase_fs = (fsq, inl tt) /\
    fsq !! outName 0 = Some (newline "to be 1").
Proof.
  split; [vm_compute; reflexivity|]. split; [vm_compute; reflexivity|].
  eexists. split; vm_compute; reflexivity.
Qed.
