(* ===== verification/MRApps.v ===== *)
(** * MRApps: the MapReduce applications

    The map and reduce functions of src/src/mrapps that compute without
    looking at the machine they run on: wc.go, indexer.go, nocrash.go and
    early_exit.go (whose sleep is not observable).  What the reduce phase of wc
    makes of the map phase is the number of occurrences of every word, and
    that of indexer the files of every word; MRRace.v says so of
    finished jobs. *)

From S2P Require Import Prelude GoStrings GoRunes MRCoordinator MRWorker MRGroup MRNames MRHandlers MRJob.
From Stdlib Require Import Ascii.
Local Open Scope string_scope.

(** [strconv.Itoa] *)
Definition Itoa (n : Z) : string := pretty n.

Section apps.
Context `{!Letters}.

(** [strings.FieldsFunc(contents, func(r rune) bool { return !unicode.IsLetter(r) })] *)
Definition words (contents : string) : list string := FieldsFunc (fun r => negb (IsLetter r)) contents.

(** ** wc.go *)

Definition wc_Map (filename contents : string) : outcome (list KeyValue) :=
  Ret ((fun w => mkKeyValue w "1") <$> words contents).

Definition wc_Reduce (key : string) (values : list string) : outcome string := Ret (Itoa (len values)).

(** ** indexer.go *)

(** The order in which a loop visits the keys of a map. *)
Context (rangeKeys : gset string -> list string).

Definition indexer_Map (document value : string) : outcome (list KeyValue) :=
  let m : gset string := list_to_set (words value) in
  Ret ((fun w => mkKeyValue w document) <$> rangeKeys m).

(** [fmt.Sprintf("%d %s", len(values), strings.Join(values, ","))] after sorting. *)
Definition index_entry (values : list string) : string :=
  Itoa (len values) +:+ " " +:+ strings_Join (sort_Strings values) ",".

Definition indexer_Reduce (key : string) (values : list string) : outcome string := Ret (index_entry values).
End apps.

(** ** nocrash.go and early_exit.go *)

Definition nocrash_Map (filename contents : string) : outcome (list KeyValue) :=
  Ret [mkKeyValue "a" filename; mkKeyValue "b" (Itoa (Z.of_nat (String.length filename)));
       mkKeyValue "c" (Itoa (Z.of_nat (String.length contents))); mkKeyValue "d" "xyzzy"].

Definition nocrash_Reduce (key : string) (values : list string) : outcome string := Ret (strings_Join (sort_Strings values) " ").

Definition early_exit_Map (filename contents : string) : outcome (list KeyValue) := Ret [mkKeyValue filename "1"].

Definition early_exit_Reduce (key : string) (values : list string) : outcome string := Ret (Itoa (len values)).

(** ** Jobs *)

Section jobs.
Context `{!Letters}.

Lemma words_words c : Forall word (words c).
Proof. apply FieldsFunc_words. intros r. apply negb_false_iff. Qed.

(** How often [w] occurs. *)
Definition occurrences (w : string) (ws : list string) : Z := len (filter (fun x => x = w) ws).

(** The input files with their contents. *)
Definition inputs (fs : FS) (files contents : list string) : Prop := Forall2 (fun f c => fs !! f = Some c) files contents.

Lemma clean_word w v :
  word w -> no_space v = true -> v <> "" -> String.length w + String.length v + 1 < MaxScanTokenSize -> clean (mkKeyValue w v) = true.
Proof.
  intros [Hw Hne] Hv Hv0 Hl. unfold clean. cbn [Key Value]. by rewrite Hw Hv !bool_decide_true // (proj2 (Nat.ltb_lt _ _) Hl).
Qed.

(** ** Counting words *)

Lemma wc_inputs fs files contents :
  inputs fs files contents -> Forall2 (input_ok wc_Map fs) files ((fun c => (fun w => mkKeyValue w "1") <$> words c) <$> contents).
Proof.
  intros Hi. apply Forall2_fmap_r. eapply Forall2_impl; [exact Hi|]. intros f c Hc. exists c. split; [exact Hc|done].
Qed.

Lemma wc_keyvalues contents :
  concat ((fun c => (fun w => mkKeyValue w "1") <$> words c) <$> contents) = (fun w => mkKeyValue w "1") <$> (contents ≫= words).
Proof.
  induction contents as [|c contents IH]; [done|]. rewrite fmap_cons bind_cons fmap_app -IH. done.
Qed.

Lemma wc_keys ws : MRGroup.keys ((fun w => mkKeyValue w "1") <$> ws) = remove_dups ws.
Proof. unfold MRGroup.keys. f_equal. induction ws as [|w ws IH]; [done|]. by rewrite !fmap_cons IH. Qed.

Lemma wc_values w ws : len (values_of w ((fun w => mkKeyValue w "1") <$> ws)) = occurrences w ws.
Proof.
  unfold values_of, occurrences, len. rewrite length_fmap. f_equal. induction ws as [|x ws IH]; [done|].
  rewrite fmap_cons !filter_cons. cbn [Key]. destruct (decide (x = w)); simpl; by rewrite IH.
Qed.

Lemma wc_setup files contents nR fs0 :
  (0 < nR)%Z -> files <> [] -> Forall (fun f => private f = false) files -> inputs fs0 files contents ->
  Forall (fun w => String.length w + 2 < MaxScanTokenSize) (contents ≫= words) ->
  job_setup wc_Map wc_Reduce (fun _ vs => Itoa (len vs)) files ((fun c => (fun w => mkKeyValue w "1") <$> words c) <$> contents) nR fs0.
Proof.
  intros Hn Hf Hp Hi Hw. constructor; [done|done|done|done|by apply wc_inputs|]. rewrite wc_keyvalues.
  apply Forall_fmap, Forall_forall. intros w Hin. pose proof (proj1 (Forall_forall _ _) Hw w Hin) as Hl. cbv beta in Hl.
  apply list_elem_of_bind in Hin as (c & Hin & _).
  apply clean_word; [exact (proj1 (Forall_forall _ _) (words_words c) w Hin)|done|done|]. cbn [String.length]. lia.
Qed.

(** The lines of a word count. *)
Definition count_lines (ws : list string) : list string :=
  (fun w => w +:+ " " +:+ Itoa (occurrences w ws) +:+ String LF "") <$> remove_dups ws.

Lemma wc_order_free : order_free (fun _ vs => Itoa (len vs)).
Proof. intros k vs vs' Hvs. unfold len. by rewrite Hvs. Qed.

Lemma wc_result contents :
  result (fun _ vs => Itoa (len vs)) (concat ((fun c => (fun w => mkKeyValue w "1") <$> words c) <$> contents)) =
  count_lines (contents ≫= words).
Proof.
  rewrite wc_keyvalues. unfold result, count_lines. rewrite wc_keys. apply list_fmap_ext.
  intros _ w _. unfold out_line, newline, kvLine. cbn [fst snd]. rewrite wc_values. by rewrite app_assoc_str.
Qed.

(** ** Indexing words *)

Context (rangeKeys : gset string -> list string).
Hypothesis rangeKeys_perm : forall m, rangeKeys m ≡ₚ elements m.

Definition index_kvs (f c : string) : list KeyValue := (fun w => mkKeyValue w f) <$> rangeKeys (list_to_set (words c)).

(** The files that contain [w]. *)
Definition documents (w : string) (files contents : list string) : list string :=
  (filter (fun fc => w ∈ words fc.2) (zip files contents)).*1.

Lemma index_values_one w f c : values_of w (index_kvs f c) = if bool_decide (w ∈ words c) then [f] else [].
Proof.
  unfold values_of, index_kvs. pose proof (rangeKeys_perm (list_to_set (words c))) as Hp.
  assert (forall l, NoDup l -> Value <$> filter (fun kv => Key kv = w) ((fun w => mkKeyValue w f) <$> l) =
    if bool_decide (w ∈ l) then [f] else []) as Hl.
  { induction 1 as [|x l Hx _ IH]; [done|]. rewrite fmap_cons filter_cons. cbn [Key].
    destruct (decide (x = w)) as [->|Hne].
    - rewrite fmap_cons IH bool_decide_false // bool_decide_true //. left.
    - rewrite IH (bool_decide_ext (w ∈ x :: l) (w ∈ l)) //. rewrite elem_of_cons. naive_solver. }
  rewrite Hl; [rewrite Hp; apply NoDup_elements|].
  rewrite (bool_decide_ext (w ∈ rangeKeys _) (w ∈ words c)) //. by rewrite Hp elem_of_elements elem_of_list_to_set.
Qed.

Lemma index_inputs fs files contents :
  inputs fs files contents -> Forall2 (input_ok (indexer_Map rangeKeys) fs) files (zip_with index_kvs files contents).
Proof. induction 1 as [|f c files contents Hc _ IH]; constructor; [by exists c|done]. Qed.

Lemma index_values w files contents :
  length files = length contents -> values_of w (concat (zip_with index_kvs files contents)) = documents w files contents.
Proof.
  revert contents. induction files as [|f files IH]; intros [|c contents] Hl; try done. injection Hl as Hl.
  unfold documents. cbn [zip_with]. rewrite filter_cons. cbn [snd concat].
  unfold values_of in *. rewrite filter_app fmap_app IH //. fold (values_of w (index_kvs f c)).
  rewrite index_values_one. case_bool_decide; [rewrite decide_True //|rewrite decide_False //].
Qed.

Lemma index_keys files contents :
  length files = length contents -> MRGroup.keys (concat (zip_with index_kvs files contents)) ≡ₚ remove_dups (contents ≫= words).
Proof.
  intros Hl. unfold MRGroup.keys. apply NoDup_Permutation; [apply NoDup_remove_dups..|]. intros w.
  rewrite !elem_of_remove_dups. revert contents Hl. induction files as [|f files IH]; intros [|c contents] Hl; try done.
  injection Hl as Hl. cbn [zip_with concat]. rewrite fmap_app bind_cons !elem_of_app (IH _ Hl).
  enough (w ∈ Key <$> index_kvs f c <-> w ∈ words c) as -> by done.
  unfold index_kvs. rewrite -list_fmap_compose list_elem_of_fmap. setoid_rewrite rangeKeys_perm.
  setoid_rewrite elem_of_elements. setoid_rewrite elem_of_list_to_set. cbn. naive_solver.
Qed.

Lemma index_setup files contents nR fs0 :
  (0 < nR)%Z -> files <> [] -> Forall (fun f => private f = false) files -> inputs fs0 files contents ->
  Forall (fun f => word f /\ Forall (fun w => String.length w + String.length f + 1 < MaxScanTokenSize) (contents ≫= words)) files ->
  job_setup (indexer_Map rangeKeys) indexer_Reduce (fun _ vs => index_entry vs) files (zip_with index_kvs files contents) nR fs0.
Proof.
  intros Hn Hf Hp Hi Hw. constructor; [done|done|done|done|by apply index_inputs|].
  assert (forall fs cs, Forall (fun f => word f /\ Forall (fun w => String.length w + String.length f + 1 < MaxScanTokenSize) (cs ≫= words)) fs ->
    Forall (fun kv => clean kv = true) (concat (zip_with index_kvs fs cs))) as Hc; [|by apply Hc].
  clear Hn Hf Hp Hi Hw. induction fs as [|f fs IH]; intros [|c cs] Hw; try constructor. cbn [zip_with concat].
  apply Forall_cons in Hw as [[[Hf1 Hf2] Hl] Hw]. rewrite bind_cons in Hl. apply Forall_app in Hl as [Hl _].
  apply Forall_app. split.
  - apply Forall_fmap, Forall_forall. intros w Hin. rewrite rangeKeys_perm elem_of_elements elem_of_list_to_set in Hin.
    apply clean_word; [exact (proj1 (Forall_forall _ _) (words_words c) w Hin)|done|done|].
    exact (proj1 (Forall_forall _ _) Hl w Hin).
  - apply IH. eapply Forall_impl; [exact Hw|]. intros g [Hg Hgl]. split; [done|]. rewrite bind_cons in Hgl.
    by apply Forall_app in Hgl as [_ ?].
Qed.

(** The lines of an index. *)
Definition index_lines (files contents : list string) : list string :=
  (fun w => let docs := documents w files contents in
     w +:+ " " +:+ Itoa (len docs) +:+ " " +:+ strings_Join (sort_Strings docs) "," +:+ String LF "") <$>
  remove_dups (contents ≫= words).

Lemma index_order_free : order_free (fun _ vs => index_entry vs).
Proof. intros k vs vs' Hvs. unfold index_entry, len. by rewrite Hvs. Qed.

Lemma index_result files contents : length files = length contents ->
  result (fun _ vs => index_entry vs) (concat (zip_with index_kvs files contents)) ≡ₚ index_lines files contents.
Proof.
  intros Hfc. unfold result, index_lines. rewrite (index_keys files contents Hfc).
  apply Permutation_refl', list_fmap_ext. intros _ w _. unfold out_line, newline, kvLine, index_entry. cbn [fst snd].
  rewrite (index_values w files contents Hfc). rewrite app_assoc_str app_cons. by rewrite !app_assoc_str.
Qed.
End jobs.

(** ** A run of each *)

Definition app_files : list string := ["pg-a.txt"; "pg-b.txt"].
Definition app_contents : list string := ["to be, or not to be"; "Let it be!"].
Definition app_fs : FS := <["pg-a.txt" := "to be, or not to be"]> (<["pg-b.txt" := "Let it be!"]> ∅).

Lemma app_inputs : inputs app_fs app_files app_contents.
Proof. repeat constructor. Qed.

Lemma app_public : Forall (fun f => private f = false) app_files.
Proof. repeat constructor. Qed.

Lemma all_short n (ws : list string) :
  forallb (fun w => (String.length w + n <? MaxScanTokenSize)%nat) ws = true -> Forall (fun w => String.length w + n < MaxScanTokenSize) ws.
Proof.
  rewrite forallb_forall Forall_forall. intros Hs w Hw. apply Nat.ltb_lt, (Hs w). by apply list_elem_of_In.
Qed.

Lemma wc_short : Forall (fun w => String.length w + 2 < MaxScanTokenSize) (app_contents ≫= words).
Proof. apply all_short. vm_compute. reflexivity. Qed.

(** Enough rounds of a single worker for both map and both reduce tasks. *)
#[local] Existing Instance merge_KeySort.

Definition app_job mapf reducef : JobState :=
  rounds pretty mapf reducef (fun n => Z.of_nat n * Second)%Z (Z.to_nat 2 + length app_files) (job_init app_files 2 app_fs).

Lemma index_short :
  Forall (fun f => word f /\ Forall (fun w => String.length w + String.length f + 1 < MaxScanTokenSize) (app_contents ≫= words)) app_files.
Proof.
  assert (Forall (fun w => String.length w + 9 < MaxScanTokenSize) (app_contents ≫= words)) as Hs.
  { apply all_short. vm_compute. reflexivity. }
  assert (forall f, String.length f = 8 -> Forall (fun w => String.length w + String.length f + 1 < MaxScanTokenSize) (app_contents ≫= words)) as Hf.
  { intros f ->. eapply Forall_impl; [exact Hs|]. intros w Hw. cbv beta in Hw |- *. lia. }
  apply Forall_cons. split; [split; [by split|by apply Hf]|].
  apply Forall_cons. split; [split; [by split|by apply Hf]|apply Forall_nil_2].
Qed.

Example wc_output :
  j_fs (app_job wc_Map wc_Reduce) !! outName 0 = Some (concat_str (newline <$> ["Let 1"; "be 3"; "it 1"; "not 1"; "or 1"; "to 2"])).
Proof. vm_compute. reflexivity. Qed.
