(* ===== verification/MRTestApps.v ===== *)
(** * MRTestApps: the MapReduce applications that test the workers

    src/src/mrapps/crash.go, jobcount.go, mtiming.go and rtiming.go.  They exit
    at random, count their invocations through files and look for other
    workers.  Random numbers, process ids, the printed time and which processes
    are alive are arguments; sleeping is not observable. *)

From S2P Require Import Prelude GoStrings MRCoordinator MRWorker MRNames MRApps.
From Stdlib Require Import Ascii.
Local Open Scope Z_scope.
Local Open Scope string_scope.

(** ** crash.go *)

(** [os.Exit(1)] ends the process; unlike a panic it is not recovered. *)
Definition exit_status : string := "exit status 1".

(** [rr] is the random number below 1000. *)
Definition maybeCrash (rr : Z) : outcome unit :=
  if bool_decide (rr < 330) then Panic exit_status
  else if bool_decide (rr < 660) then Ret tt    (* sleeps *)
  else Ret tt.

Definition crash_Map (rr : Z) (filename contents : string) : outcome (list KeyValue) :=
  maybeCrash rr;;
  Ret [mkKeyValue "a" filename; mkKeyValue "b" (Itoa (Z.of_nat (String.length filename)));
       mkKeyValue "c" (Itoa (Z.of_nat (String.length contents))); mkKeyValue "d" "xyzzy"].

Definition crash_Reduce (rr : Z) (key : string) (values : list string) : outcome string :=
  maybeCrash rr;;
  Ret (strings_Join (sort_Strings values) " ").

(** ** jobcount.go *)

Definition jobcount_prefix : string := "mr-worker-jobcount".

(** [count] is the variable of the worker process [me]. *)
Definition jobcount_Map (me count : Z) (filename contents : string) : io (list KeyValue * Z) :=
  let f := jobcount_prefix +:+ "-" +:+ pretty me +:+ "-" +:+ pretty count in
  _ ← createFile f;
  _ ← writeString f "x";
  mret ([mkKeyValue "a" "x"], count + 1).

(** The names in the directory; those of other directories have a slash. *)
Definition readDir : io (list string) := fun fs => (fs, inl ((map_to_list fs).*1)).

Definition jobcount_Reduce (key : string) (values : list string) : io string :=
  files ← readDir;
  let invocations := len (filter (fun f => String.prefix jobcount_prefix f = true) files) in
  mret (Itoa invocations).

(** The number that [Reduce] returns counts the calls of [Map]: each adds one,
    as long as no two calls share a process id and a counter. *)
Lemma jobcount_counts me count filename contents key values (fs : FS) :
  let f := jobcount_prefix +:+ "-" +:+ pretty me +:+ "-" +:+ pretty count in
  fs !! f = None ->
  exists (fs' : FS) (n : Z),
    jobcount_Map me count filename contents fs = (fs', inl ([mkKeyValue "a" "x"], count + 1)) /\
    jobcount_Reduce key values fs = (fs, inl (Itoa n)) /\ jobcount_Reduce key values fs' = (fs', inl (Itoa (n + 1))).
Proof.
  intros f Hf. exists (<[f := "x"]> fs), (len (filter (fun f0 => String.prefix jobcount_prefix f0 = true) (map_to_list fs).*1)).
  split_and!; [|reflexivity|].
  - unfold jobcount_Map. fold f. unfold mbind, io_bind, createFile, writeString, mret, io_ret.
    by rewrite alter_insert_eq.
  - unfold jobcount_Reduce, readDir. unfold mbind, io_bind, mret, io_ret. do 3 f_equal. unfold len.
    rewrite (filter_Permutation (fun f0 => String.prefix jobcount_prefix f0 = true) _ (f :: (map_to_list fs).*1)).
    + change (f :: (map_to_list fs).*1) with (((f, "x") :: map_to_list fs).*1). apply fmap_Permutation.
      by apply map_to_list_insert.
    + rewrite filter_cons_True; [apply prefix_app|]. simpl. lia.
Qed.

(** ** mtiming.go and rtiming.go *)

(** The digits at the front of a string. *)
Fixpoint scanDigits (s : string) (acc : option Z) : option Z :=
  match s with
  | String c s' =>
      let d := Z.of_N (N_of_ascii c) - 48 in
      if bool_decide (0 <= d <= 9) then scanDigits s' (Some (10 * default 0 acc + d)) else acc
  | EmptyString => acc
  end.

(** [%d] skips spaces first, but not a new line. *)
Fixpoint skipSpaces (s : string) : string :=
  match s with
  | String c s' => if bool_decide (c ∈ [" "; "009"; "011"; "012"]%char) then skipSpaces s' else s
  | EmptyString => s
  end.

(** [fmt.Sscanf(name, prefix + "%d", &xpid)]: the rest of the name may go on
    after the number, which must fit an int. *)
Definition sscanf_d (prefix name : string) : option Z :=
  if String.prefix prefix name then
    let rest := skipSpaces (String.substring (String.length prefix) (String.length name - String.length prefix) name) in
    let n := match rest with
             | String "-" r => Z.opp <$> scanDigits r None
             | String "+" r => scanDigits r None
             | _ => scanDigits rest None
             end in
    match n with
    | Some n => if bool_decide (- 2 ^ 63 <= n < 2 ^ 63) then Some n else None
    | None => None
    end
  else None.

(** [alive p] is whether signal 0 reaches process [p]. *)
Definition nparallel (phase : string) (pid : Z) (alive : Z -> bool) : io Z :=
  let pat := "mr-worker-" +:+ phase +:+ "-" in
  let myfilename := pat +:+ pretty pid in
  _ ← createFile myfilename;
  _ ← writeString myfilename "x";
  names ← readDir;
  let ret := len (filter (fun name => (match sscanf_d pat name with Some xpid => alive xpid | None => false end) = true) names) in
  _ ← remove myfilename;
  mret ret.

(** [ts] is the time, printed with one decimal. *)
Definition mtiming_Map (pid : Z) (alive : Z -> bool) (ts : string) (filename contents : string) : io (list KeyValue) :=
  n ← nparallel "map" pid alive;
  mret [mkKeyValue ("times-" +:+ pretty pid) ts; mkKeyValue ("parallel-" +:+ pretty pid) (pretty n)].

Definition mtiming_Reduce (key : string) (values : list string) : outcome string :=
  Ret (strings_Join (sort_Strings values) " ").

Definition rtiming_Map (filename contents : string) : outcome (list KeyValue) :=
  Ret ((fun k => mkKeyValue k "1") <$> ["a"; "b"; "c"; "d"; "e"; "f"; "g"; "h"; "i"; "j"]).

Definition rtiming_nparallel := nparallel.

Definition rtiming_Reduce (pid : Z) (alive : Z -> bool) (key : string) (values : list string) : io string :=
  n ← rtiming_nparallel "reduce" pid alive;
  mret (pretty n).
