(* ===== verification/MRCrash.v ===== *)
(** * MRCrash: jobs whose workers exit in the middle of a task

    The plugin crash.go makes a worker exit inside the map or reduce function:
    nothing is reported and the deferred functions do not run.  The coordinator
    gives the task to another worker after a timeout.  A map task that exits
    leaves no file behind.  A reduce task that exits may have renamed its
    temporary file already, because [HandleReduceTask] does so for each of its
    input files: the output of a job is right as long as a task that was
    reported is not executed again by a worker that exits, and only then.  Here a
    handler runs without interruption; in MRConcurrent.v handlers interleave. *)

From S2P Require Import Prelude GoStrings MRCoordinator MRFacts MRWorker MRGroup MRNames MRHandlers MRJob MRApps MRTestApps.
Local Open Scope Z_scope.
Local Open Scope list_scope.

(** ** Exits *)

(** The plugin's [os.Exit] is not recovered. *)
Definition exits {A} (r : FS * (A + stop)) : FS * (A + stop) :=
  match r with
  | (fs, inr (Panicked msg)) => if bool_decide (msg = exit_status) then (fs, inr (Exited msg)) else r
  | _ => r
  end.

(** The handler of a task, with plugin functions that may exit. *)
Definition handleTask (timeString : Z -> string) `{!KeySort} mapf reducef (task : Task) (fs : FS) : FS * Handled :=
  match Type_ task with
  | MapTask => deferred task (mapCleanup timeString task) (exits (mapBody mapf task fs))
  | ReduceTask => deferred task (remove (outTmp timeString task)) (exits (reduceFiles timeString reducef task (FileNames task) [] fs))
  | _ => (fs, mkHandled None true)
  end.

Definition may_exit {A} (m m' : outcome A) : Prop := m' = m \/ m' = Panic exit_status.

Lemma crash_Map_may_exit rr filename contents : may_exit (nocrash_Map filename contents) (crash_Map rr filename contents).
Proof. unfold may_exit, crash_Map, maybeCrash. repeat case_bool_decide; auto. Qed.

Lemma crash_Reduce_may_exit rr key values : may_exit (nocrash_Reduce key values) (crash_Reduce rr key values).
Proof. unfold may_exit, crash_Reduce, maybeCrash. repeat case_bool_decide; auto. Qed.

(** ** Which files a function touches *)

Definition touches {A} (X : list string) (m : io A) : Prop :=
  forall fs x, x ∉ X -> (m fs).1 !! x = fs !! x.

Lemma touches_ret {A} X (a : A) : touches X (mret a : io A).
Proof. by intros fs x. Qed.

Lemma touches_bind {A B} X (m : io A) (f : A -> io B) : touches X m -> (forall a, touches X (f a)) -> touches X (m ≫= f).
Proof.
  intros Hm Hf fs x Hx. unfold mbind, io_bind. specialize (Hm fs x Hx). destruct (m fs) as [fs1 [a|e]]; simpl in *; [|done].
  by rewrite (Hf a).
Qed.

Lemma touches_lift {A} X (m : outcome A) : touches X (lift m).
Proof. intros fs x Hx. by destruct m. Qed.

Lemma touches_panic {A} X msg : touches X (go_panic msg : io A).
Proof. by intros fs x. Qed.

Lemma touches_read X name : touches X (readFile name).
Proof. by intros fs x. Qed.

Lemma touches_create X name : name ∈ X -> touches X (createFile name).
Proof. intros Hin fs x Hx. simpl. rewrite lookup_insert_ne; [|done]. by intros ->. Qed.

Lemma touches_open {B} X name (f : string -> io B) : name ∈ X -> touches X (f name) -> touches X (createFile name ≫= f).
Proof. intros Hin Hf fs x Hx. unfold mbind, io_bind, createFile. rewrite Hf //. exact (touches_create X name Hin fs x Hx). Qed.

Lemma touches_write X name text : name ∈ X -> touches X (writeString name text).
Proof. intros Hin fs x Hx. simpl. rewrite lookup_alter_ne; [|done]. by intros ->. Qed.

Lemma touches_rename X old new : old ∈ X -> new ∈ X -> touches X (rename old new).
Proof.
  intros H1 H2 fs x Hx. unfold rename. destruct (fs !! old); simpl; [|done].
  rewrite lookup_insert_ne; [by intros ->|]. rewrite lookup_delete_ne; [by intros ->|done].
Qed.

Create HintDb touches discriminated.
#[export] Hint Resolve touches_ret touches_bind touches_lift touches_panic touches_read touches_create touches_write touches_rename : touches.

Lemma touches_parse X lines kvs : touches X (parseLines lines kvs).
Proof.
  revert kvs. induction lines as [|line lines IH]; intros kvs; simpl; [apply touches_ret|].
  destruct (Fields line) as [|k [|v [|]]]; auto with touches.
Qed.

Lemma touches_groups X reducef ofile kvs : ofile ∈ X -> touches X (writeGroups reducef ofile kvs).
Proof.
  intros Hin. unfold writeGroups. generalize 0%nat, (Datatypes.S (length kvs)). intros i fuel. revert i.
  induction fuel as [|fuel IH]; intros i; simpl; [apply touches_ret|]. destruct (kvs !! i); auto 6 with touches.
Qed.

#[export] Hint Resolve touches_parse touches_groups : touches.

Lemma touches_reduce timeString `{!KeySort} reducef task files kvs :
  touches [outTmp timeString task; outName (Id task)] (reduceFiles timeString reducef task files kvs).
Proof.
  assert (outTmp timeString task ∈ [outTmp timeString task; outName (Id task)]) as H1 by set_solver.
  assert (outName (Id task) ∈ [outTmp timeString task; outName (Id task)]) as H2 by set_solver.
  revert kvs. induction files as [|f files IH]; intros kvs; [apply touches_ret|]. cbn [reduceFiles]. cbv zeta.
  apply touches_bind; [auto with touches|]. intros f'. apply touches_bind; [destruct f'; auto with touches|]. intros c.
  apply touches_bind; [auto with touches|]. intros kvs'.
  apply touches_open; [done|]. apply touches_bind; [auto with touches|]. intros _. apply touches_bind; [|auto].
  rewrite outTmp_final. auto with touches.
Qed.

(** ** Jobs with exits *)

Section crash.
Context (timeString : Z -> string) `{HKS : !KeySort}.
Context (mapf : string -> string -> outcome (list KeyValue)) (reducef : string -> list string -> outcome string).

(** Some worker has reported the reduce task. *)
Definition reduce_reported (s : JobState) (id : Z) : Prop :=
  exists r, r ∈ j_reports s /\ Type_ r = ReduceTask /\ Id r = id.

Inductive crash_step : JobState -> JobState -> Prop :=
| crash_job s s' :
    job_step timeString mapf reducef s s' -> crash_step s s'
| crash_exit s t mapf' reducef' fs' :
    t ∈ handed (j_mr s) ->
    (forall k v, may_exit (mapf k v) (mapf' k v)) -> (forall k vs, may_exit (reducef k vs) (reducef' k vs)) ->
    handleTask timeString mapf' reducef' t (j_fs s) = (fs', mkHandled None false) ->
    (Type_ t = ReduceTask -> ~ reduce_reported s (Id t)) ->
    crash_step s (mkJob (j_mr s) fs' (j_reports s)).

Definition crash_reachable (files : list string) (nR : Z) (fs : FS) (s : JobState) : Prop :=
  rtc crash_step (job_init files nR fs) s.

Definition completed_reported (s : JobState) (x : Task) : Prop := State x = Completed -> reduce_reported s (Id x).

Section correct.
Context (red : string -> list string -> string) (files : list string) (kss : list (list KeyValue)) (nR : Z) (fs0 : FS).
Hypothesis Hset : job_setup mapf reducef red files kss nR fs0.

Record crash_inv (s : JobState) : Prop := {
  ci_job : job_inv red files kss nR fs0 s;
  ci_reported : Forall (completed_reported s) (reduceTasks (coord (j_mr s)));
}.

Lemma deferred_completed t cleanup r fs' b :
  deferred t cleanup r = (fs', mkHandled (Some (set_State t Completed)) b) -> exists fs, r = (fs, inl tt).
Proof.
  destruct r as [fs [[]|[|]]]; [by eexists| |]; unfold deferred; [|done].
  destruct (cleanup fs) as [? [|]]; intros [=].
Qed.

Lemma exit_unreported t cleanup (r : FS * (unit + stop)) fs' :
  deferred t cleanup r = (fs', mkHandled None false) -> exists msg, r = (fs', inr (Exited msg)).
Proof.
  destruct r as [fs [[]|[|]]]; unfold deferred; [destruct (cleanup fs) as [? [|]]; intros [=]..|].
  intros [= <-]. by eexists.
Qed.

Lemma exits_fs {A} (r : FS * (A + stop)) : (exits r).1 = r.1.
Proof. destruct r as [fs [a|[msg|msg]]]; simpl; [done| |done]. by case_bool_decide. Qed.

Lemma mapBody_call f t (fs : FS) name content :
  FileNames t = [name] -> fs !! name = Some content ->
  mapBody f t fs = (kvs ← lift (f name content); bs ← openBuckets t; _ ← writeBuckets t bs kvs; renameBuckets bs) fs.
Proof.
  intros Hn Hc. unfold mapBody. rewrite Hn. unfold mbind at 1, io_bind at 1. simpl lift. cbn -[openBuckets writeBuckets].
  unfold mbind at 1, io_bind at 1, readFile. rewrite Hc. done.
Qed.

(** A map task that exits has not written anything. *)
Lemma map_exit_unchanged t mapf' reducef' (fs fs' : FS) :
  Type_ t = MapTask -> map_shape files nR t -> inputs_kept fs0 fs -> (forall k v, may_exit (mapf k v) (mapf' k v)) ->
  handleTask timeString mapf' reducef' t fs = (fs', mkHandled None false) -> fs' = fs.
Proof.
  intros Hty Hms Hin Hme. unfold handleTask. rewrite Hty. intros [msg E]%exit_unreported.
  destruct Hset as [_ HnR _ Hpub Hinp _].
  destruct (run_map timeString mapf red files kss nR fs0 HnR Hpub Hinp t fs Hms Hin) as (fs1 & Hm & _).
  apply deferred_completed in Hm as [fs2 Hm]. destruct Hms as (j & file & Hj & [= _ _ Hfn] & _).
  destruct (Forall2_lookup_l _ _ _ _ _ Hinp Hj) as (kvs & _ & content & Hc & _).
  assert (fs !! file = Some content) as Hf by (rewrite Hin //; exact (Forall_lookup_1 _ _ _ _ Hpub Hj)).
  rewrite (mapBody_call mapf' _ _ _ _ Hfn Hf) in E. rewrite (mapBody_call mapf _ _ _ _ Hfn Hf) in Hm. destruct (Hme file content) as [He|He]; rewrite He in E.
  - by rewrite Hm in E.
  - simpl in E. by injection E.
Qed.

(** A reduce task that exits may have changed its own output. *)
Lemma reduce_exit_frame t mapf' reducef' (fs fs' : FS) x :
  Type_ t = ReduceTask -> handleTask timeString mapf' reducef' t fs = (fs', mkHandled None false) ->
  x <> outTmp timeString t -> x <> outName (Id t) -> fs' !! x = fs !! x.
Proof.
  intros Hty. unfold handleTask. rewrite Hty. intros [msg E]%exit_unreported Hx1 Hx2.
  apply (f_equal fst) in E. rewrite exits_fs in E. simpl in E. rewrite -E. apply touches_reduce. set_solver.
Qed.

Lemma reduce_exit_inv s t mapf' reducef' fs' :
  crash_inv s -> Type_ t = ReduceTask -> ~ reduce_reported s (Id t) ->
  handleTask timeString mapf' reducef' t (j_fs s) = (fs', mkHandled None false) ->
  job_inv red files kss nR fs0 (mkJob (j_mr s) fs' (j_reports s)).
Proof.
  intros [[Ht Hi Hsh Hm Hr Hh Hrep] Hc] Hty Hnr Hx.
  assert (forall x, String.prefix out_prefix x = false -> fs' !! x = j_fs s !! x) as Hframe.
  { intros x Hp. apply (reduce_exit_frame t mapf' reducef' (j_fs s) fs' x Hty Hx).
    - destruct (outTmp_out timeString t) as (a & b & ->). intros ->. by rewrite prefix_app in Hp.
    - intros ->. change (outName (Id t)) with (out_prefix +:+ pretty (Id t)) in Hp. by rewrite prefix_app in Hp. }
  assert (forall j, inter_ok kss nR (j_fs s) j -> inter_ok kss nR fs' j) as Hinter.
  { intros j Hj kvs i Hk Hir. rewrite Hframe; [apply inter_not_out_prefix|by apply Hj]. }
  assert (forall i, i <> Id t -> out_ok red kss nR (j_fs s) i -> out_ok red kss nR fs' i) as Hout.
  { intros i Hne (text & Htx & Ho). exists text. split; [|done].
    rewrite (reduce_exit_frame t mapf' reducef' (j_fs s) fs' _ Hty Hx) //.
    - destruct (outTmp_out timeString t) as (a & b & ->). apply not_eq_sym, dot_not_out.
    - by intros ?%outName_inj. }
  constructor; simpl; try done.
  - intros x Hp. rewrite Hframe; [|by apply Hi]. unfold private in Hp. by apply orb_false_iff in Hp as [_ Hp].
  - eapply Forall_impl; [exact Hm|]. intros x [Hn Hok]. split; [done|]. auto.
  - rewrite Forall_forall in Hr. rewrite Forall_forall in Hc. apply Forall_forall. intros x Hxin Hst.
    apply Hout; [|by apply Hr]. intros Heq. apply Hnr. rewrite -Heq. by apply (Hc x).
  - rewrite Forall_forall in Hrep. apply Forall_forall. intros r Hin. destruct (Hrep r Hin) as (t0 & Ht0 & -> & H1 & H2).
    exists t0. split_and!; [done|done|auto|]. intros Hty0. apply Hout; [|auto]. intros Heq. apply Hnr.
    exists (set_State t0 Completed). by rewrite -Heq.
Qed.

Lemma job_step_reported s s' :
  crash_inv s -> job_step timeString mapf reducef s s' -> Forall (completed_reported s') (reduceTasks (coord (j_mr s'))).
Proof.
  intros [HI Hc] Hs. destruct Hs as [s now mr' Hs|s timer now t fs' h next Hin Hw|s t mr' Hin Hti Hs]; simpl in *.
  - unfold HandleGetTaskRequest in Hs. destruct (c_phase (coord (j_mr s))).
    + destruct (findAvailableTask _ _). inv_ret. exact Hc.
    + destruct (findAvailableTask _ _) as [r ts] eqn:Hf. inv_ret. simpl.
      by apply (findAvailable_Forall (completed_reported s) now _ _ _) in Hf as [Hts _].
    + inv_ret. exact Hc.
  - eapply Forall_impl; [exact Hc|]. intros x Hx Hst. destruct (Hx Hst) as (r & Hr & H1). exists r. split; [|done].
    apply elem_of_app. by left.
  - inv_ret. unfold TaskDone in Hm. destruct (Type_ t) eqn:Hty; inv_ret; try done.
    + pose proof (TaskDoneMap_spec (coord (j_mr s)) t) as Hd. cbv zeta in Hd.
      destruct (allCompleted _); [destruct Hd as (ts & Hd & Hl & Hts)|]; rewrite Hd in Hm; inv_ret; simpl; [|exact Hc].
      apply Forall_lookup. intros k x. rewrite Hts.
      rewrite (ti_before _ (proj1 (mr_timely_inv _ _ _ (jv_timely _ _ _ _ _ _ HI))) (Hti eq_refl)).
      intros (y & Hy%lookup_lt_Some & ->)%fmap_Some_1. rewrite bool_decide_true //.
      by rewrite /= length_fmap length_seqZ in Hy.
    + assert (Forall (completed_reported s) (markCompleted (Id t) (reduceTasks (coord (j_mr s))))) as H.
      { apply markCompleted_Forall_id; [|done]. intros x Hid _ _. exists t. by rewrite -Hid. }
      unfold TaskDoneReduce. by destruct (allCompleted _).
Qed.

Lemma crash_reachable_inv s : crash_reachable files nR fs0 s -> crash_inv s.
Proof.
  revert s. apply (rtc_ind_r crash_inv (job_init files nR fs0)); [split; [|done]; apply init_job_inv|].
  intros s1 s2 _ Hs HI. destruct Hs as [s s' Hs|s t mapf' reducef' fs' Hin Hmf Hrf Hx Hnr].
  - split; [|by apply (job_step_reported s)]. destruct HI as [HI _]. destruct Hset as [H1 H2 H3 H4 H5 H6].
    exact (job_step_inv timeString mapf reducef red files kss nR fs0 H1 H2 H3 H4 H5 H6 s s' HI Hs).
  - split; [|exact (ci_reported _ HI)]. destruct HI as [HI Hc].
    pose proof (jv_handed _ _ _ _ _ _ HI) as Hh. rewrite Forall_forall in Hh. destruct (Hh t Hin) as [Hm Hr].
    destruct (Type_ t) eqn:Hty; try by rewrite /handleTask Hty in Hx.
    + rewrite (map_exit_unchanged t mapf' reducef' (j_fs s) fs') //; [by apply Hm|apply HI|by destruct s].
    + by eapply reduce_exit_inv; eauto.
Qed.

End correct.
End crash.

(** Workers that exit inside the plugin's functions, as crash.go makes them, do
    not spoil a job as long as no worker exits in a reduce task that another
    worker has already reported: the output is still that of the sequential
    program with functions that do not exit. *)
Lemma crashes_keep_output (timeString : Z -> string) (HKS : KeySort) mapf reducef red files kss nR fs0 s :
  job_setup mapf reducef red files kss nR fs0 -> order_free red ->
  crash_reachable timeString mapf reducef files nR fs0 s -> Done (coord (j_mr s)) = true ->
  exists (fsq : FS) (L : list string) (Ls : list (list string)),
    sequential mapf reducef files fs0 = (fsq, inl tt) /\ fsq !! outName 0 = Some (concat_str L) /\
    length Ls = Z.to_nat nR /\
    (forall i l, Ls !! i = Some l -> j_fs s !! outName (Z.of_nat i) = Some (concat_str l)) /\
    concat Ls ≡ₚ L /\ L ≡ₚ result red (concat kss).
Proof.
  intros Hset Hof Hr Hd. apply output_is_sequential; [done|done|]. intros i Hi.
  apply (done_out_ok red files kss nR fs0 (js_nR _ _ _ _ _ _ _ Hset) s i); [|done|done].
  exact (ci_job _ _ _ _ _ _ (crash_reachable_inv timeString mapf reducef red files kss nR fs0 Hset s Hr)).
Qed.

(** ** A job of crash.go *)

Definition crash_red (_ : string) (values : list string) : string := strings_Join (sort_Strings values) " ".

Definition crash_kss : list (list KeyValue) :=
  (fun f => [mkKeyValue "a" (fst f); mkKeyValue "b" (Itoa (Z.of_nat (String.length (fst f))));
             mkKeyValue "c" (Itoa (Z.of_nat (String.length (snd f)))); mkKeyValue "d" "xyzzy"])
  <$> [("pg.txt"%string, "b a b"%string); ("qh.txt"%string, "a"%string)].

Lemma crash_setup : job_setup nocrash_Map nocrash_Reduce crash_red count_files crash_kss 1 count_fs.
Proof.
  constructor; [done|lia|done|by repeat constructor| |by repeat constructor].
  repeat constructor; eexists; split; reflexivity.
Qed.

Lemma crash_order_free : order_free crash_red.
Proof. intros k vs vs' Hp. unfold crash_red. by rewrite Hp. Qed.

#[local] Existing Instance merge_KeySort.

(** [round] makes the three steps of a worker. *)
Definition round_runs mapf reducef (now : Z) (s : JobState) : bool :=
  match HandleGetTaskRequest now (coord (j_mr s)) with
  | (Some t, c) =>
      match Worker pretty mapf reducef (now + worker_timeout) now (Some t) (j_fs s) with
      | (fs', Some (mkHandled (Some r) true), _) =>
          bool_decide (timely (mkMRState c (handed (j_mr s) ++ [t])) (RTaskDone r))
      | _ => false
      end
  | (None, _) => false
  end.

Lemma round_runs_steps mapf reducef now s :
  round_runs mapf reducef now s = true -> rtc (job_step pretty mapf reducef) s (round pretty mapf reducef now s).
Proof.
  unfold round_runs. destruct (HandleGetTaskRequest _ _) as [[t|] c] eqn:Hg; [|done].
  destruct (Worker _ _ _ _ _ _ _) as [[fs' [[[r|] [|]]|]] next] eqn:Hw; try done. intros Hti%bool_decide_eq_true.
  destruct (mr_step_total (mkMRState c (handed (j_mr s) ++ [t])) (RTaskDone r)) as [mr' Hmr].
  exact (proj1 (round_steps pretty mapf reducef now s t c r mr' fs' next Hg Hw Hti Hmr)).
Qed.

(** The random numbers of a worker that exits when a key has two values. *)
Definition exit_Reduce (key : string) (values : list string) : outcome string :=
  crash_Reduce (if bool_decide (len values = 2) then 0 else 999) key values.

(** Both map tasks are done; a first worker gets the reduce task ... *)
Definition crash_mapped : JobState :=
  round pretty nocrash_Map nocrash_Reduce Second (round pretty nocrash_Map nocrash_Reduce 0 (job_init count_files 1 count_fs)).

Definition crash_asked : JobState :=
  match mr_step (j_mr crash_mapped) (RGetTask (5 * Second)) with
  | Ret mr => mkJob mr (j_fs crash_mapped) (j_reports crash_mapped)
  | Panic _ => crash_mapped
  end.

Definition crash_task : Task := mkTask ReduceTask (partition_files 2 0) 0 (5 * Second) InProgress 2 1.

(** ... and exits in its second input file, ... *)
Definition crash_exited : JobState :=
  mkJob (j_mr crash_asked) (handleTask pretty (crash_Map 999) exit_Reduce crash_task (j_fs crash_asked)).1 (j_reports crash_asked).

(** ... and a second worker completes the job. *)
Definition crash_done : JobState := round pretty nocrash_Map nocrash_Reduce (30 * Second) crash_exited.

Lemma surjective_pairing_eq {A B} (p : A * B) b : p.2 = b -> p = (p.1, b).
Proof. by destruct p; intros <-. Qed.

Lemma crash_done_reachable : crash_reachable pretty nocrash_Map nocrash_Reduce count_files 1 count_fs crash_done.
Proof.
  assert (forall s s', rtc (job_step pretty nocrash_Map nocrash_Reduce) s s' ->
    rtc (crash_step pretty nocrash_Map nocrash_Reduce) s s') as Hsub by (intros s s'; apply rtc_subrel, crash_job).
  unfold crash_reachable. trans crash_mapped.
  { apply Hsub. etrans; apply round_runs_steps; vm_compute; reflexivity. }
  eapply (rtc_l _ _ crash_asked).
  { apply crash_job. unfold crash_asked. destruct (mr_step_total (j_mr crash_mapped) (RGetTask (5 * Second))) as [mr Hmr].
    rewrite Hmr. exact (job_get _ _ _ _ _ _ Hmr). }
  eapply (rtc_l _ _ crash_exited); [|apply Hsub, round_runs_steps; vm_compute; reflexivity].
  apply (crash_exit _ _ _ crash_asked crash_task (crash_Map 999) exit_Reduce); [vm_compute; set_solver| | | |].
  - intros k v. apply crash_Map_may_exit.
  - intros k vs. apply crash_Reduce_may_exit.
  - apply surjective_pairing_eq. vm_compute. reflexivity.
  - intros _ (r & Hr & Hty & _). revert Hr Hty. vm_compute. set_solver.
Qed.

Lemma crashes_keep_output_witness :
  Done (coord (j_mr crash_done)) = true /\
  exists (fsq : FS) (L : list string) (Ls : list (list string)),
    sequential nocrash_Map nocrash_Reduce count_files count_fs = (fsq, inl tt) /\
    fsq !! outName 0 = Some (concat_str L) /\ length Ls = 1%nat /\
    (forall i l, Ls !! i = Some l -> j_fs crash_done !! outName (Z.of_nat i) = Some (concat_str l)) /\
    concat Ls ≡ₚ L /\ L ≡ₚ result crash_red (concat crash_kss).
Proof.
  split; [vm_compute; reflexivity|].
  apply (crashes_keep_output pretty merge_KeySort nocrash_Map nocrash_Reduce crash_red count_files crash_kss 1 count_fs
    crash_done crash_setup crash_order_free crash_done_reachable). vm_compute. reflexivity.
Defined.

(** A worker that exits late spoils the output: the job is done and its output
    right, but the first worker, whose task was given to another, still
    executes it; it renames its temporary file after the first of its two input
    files and exits in the second, and the output keeps the values of the first
    input only. *)
Lemma late_crash_corrupts_output :
  crash_reachable pretty nocrash_Map nocrash_Reduce count_files 1 count_fs crash_done /\
  Done (coord (j_mr crash_done)) = true /\ crash_task ∈ handed (j_mr crash_done) /\
  j_fs crash_done !! outName 0 =
    Some (concat_str (newline <$> ["a pg.txt qh.txt"; "b 6 6"; "c 1 5"; "d xyzzy xyzzy"]%string)) /\
  exists fs', handleTask pretty (crash_Map 999) exit_Reduce crash_task (j_fs crash_done) = (fs', mkHandled None false) /\
    fs' !! outName 0 = Some (concat_str (newline <$> ["a pg.txt"; "b 6"; "c 5"; "d xyzzy"]%string)).
Proof.
  split; [exact crash_done_reachable|]. split; [vm_compute; reflexivity|]. split; [vm_compute; set_solver|].
  split; [vm_compute; reflexivity|]. eexists. split; [apply surjective_pairing_eq|]; vm_compute; reflexivity.
Qed.
