(* ===== verification/MRPrograms.v ===== *)
(** * MRPrograms: the handlers of the MapReduce worker, one file operation at a time

    MRWorker.v gives each handler of src/src/mr/worker.go as a function on the
    file system, which runs without interruption.  Here the same handlers are
    programs: trees of file operations and notifications, so that the
    operations of several workers can be interleaved (MRConcurrent.v).  Running
    a program on its own is the function of MRWorker.v: [handleProg_runs]. *)

From S2P Require Import Prelude GoStrings MRCoordinator MRWorker.
Local Open Scope Z_scope.
Local Open Scope string_scope.

(** ** Operations *)

Inductive op :=
| Read (name : string)
| Create (name : string)
| Append (name text : string)
| Rename (old new : string)
| Remove (name : string)
| Notify (task : Task).

Definition reply (o : op) : Type :=
  match o with
  | Read _ => option string
  | Rename _ _ => bool
  | _ => unit
  end.

(** Each operation is one system call. *)
Definition exec (o : op) (fs : FS) : FS * reply o :=
  match o with
  | Read x => (fs, fs !! x)
  | Create x => (<[x := ""]> fs, tt)
  | Append x text => (alter (fun old => old +:+ text) x fs, tt)
  | Rename x y =>
      match fs !! x with
      | None => (fs, false)
      | Some c => (<[y := c]> (delete x fs), true)
      end
  | Remove x => (delete x fs, tt)
  | Notify _ => (fs, tt)
  end.

(** What an operation tells the coordinator. *)
Definition sent (o : op) : list Task := match o with Notify t => [t] | _ => [] end.

(** ** Programs *)

Inductive prog (A : Type) :=
| Pure (a : A)
| Halt (e : stop)
| Do (o : op) (k : reply o -> prog A).
Arguments Pure {A} a.
Arguments Halt {A} e.
Arguments Do {A} o k.

#[export] Instance prog_ret : MRet prog := @Pure.

#[export] Instance prog_bind : MBind prog := fun A B f =>
  fix go p :=
    match p with
    | Pure a => f a
    | Halt e => Halt e
    | Do o k => Do o (fun r => go (k r))
    end.

Definition perform (o : op) : prog (reply o) := Do o Pure.

Definition liftP {A} (m : outcome A) : prog A :=
  match m with Ret a => Pure a | Panic e => Halt (Panicked e) end.

(** The deferred function: [f] runs when the body returns or panics, not when
    the process exits. *)
Fixpoint defer {A B} (p : prog A) (f : A + string -> prog B) : prog B :=
  match p with
  | Pure a => f (inl a)
  | Halt (Panicked msg) => f (inr msg)
  | Halt (Exited msg) => Halt (Exited msg)
  | Do o k => Do o (fun r => defer (k r) f)
  end.

(** A program on its own: the files it leaves, what it sends and how it ends. *)
Fixpoint run {A} (p : prog A) (fs : FS) : FS * list Task * (A + stop) :=
  match p with
  | Pure a => (fs, [], inl a)
  | Halt e => (fs, [], inr e)
  | Do o k =>
      let '(fs, r) := exec o fs in
      let '(fs, ts, res) := run (k r) fs in
      (fs, (sent o ++ ts)%list, res)
  end.

Fixpoint each {A} (l : list A) (f : A -> prog unit) : prog unit :=
  match l with
  | [] => mret tt
  | a :: l => _ ← f a; each l f
  end.

Section worker.
Context (timeString : Z -> string) `{!KeySort}.
Context (mapf : string -> string -> outcome (list KeyValue)) (reducef : string -> list string -> outcome string).

(** ** Map tasks *)

Definition createP (name : string) : prog string := _ ← perform (Create name); mret name.

Definition openBucketsP (task : Task) : prog (list string) :=
  if bool_decide (NReduce task < 0) then Halt (Panicked "makeslice: len out of range") else
  mapM (fun i => createP (bucketName task i)) (seqZ 0 (NReduce task)).

Definition writeBucketsP (task : Task) (bucketfiles : list string) (kvs : list KeyValue) : prog unit :=
  each kvs (fun kv =>
    idx ← liftP (bucketIndex (Key kv) (NReduce task));
    file ← liftP (slice_get bucketfiles idx);
    perform (Append file (newline (kvLine (Key kv) (Value kv))))).

Definition renameBucketsP (bucketfiles : list string) : prog unit :=
  each bucketfiles (fun originalName =>
    let finalName := TrimSuffix originalName (Ext originalName) in
    ok ← perform (Rename originalName finalName);
    if ok : bool then mret tt else Halt (Exited "cannot rename intermediate file")).

Definition mapBodyP (task : Task) : prog unit :=
  name ← liftP (slice_get (FileNames task) 0);
  file ← perform (Read name);
  content ← (match file : option string with Some content => mret content | None => Halt (Exited "cannot open") end : prog string);
  kvs ← liftP (mapf name content);
  bucketfiles ← openBucketsP task;
  _ ← writeBucketsP task bucketfiles kvs;
  renameBucketsP bucketfiles.

Definition mapCleanupP (task : Task) : prog unit :=
  each (seqZ 0 (NReduce task)) (fun i =>
    name ← liftP (slice_get (FileNames task) 0);
    perform (Remove (staleName timeString task name i))).

(** The deferred function of both handlers: the state is set, the task is
    reported and the temporary files are removed. *)
Definition deferredP (task : Task) (cleanup body : prog unit) : prog unit :=
  defer body (fun r =>
    let task := set_State task (match r with inl _ => Completed | inr _ => Idle end) in
    _ ← perform (Notify task); cleanup).

(** ** Reduce tasks *)

Fixpoint parseLinesP (lines : list string) (kvs : list KeyValue) : prog (list KeyValue) :=
  match lines with
  | [] => mret kvs
  | line :: lines =>
      match Fields line with
      | [k; v] => parseLinesP lines (kvs ++ [mkKeyValue k v])%list
      | _ => Halt (Panicked "worker crash on reduce task, kv format wrong")
      end
  end.

Fixpoint groupLoopP (fuel : nat) (ofile : string) (kvs : list KeyValue) (i : nat) : prog unit :=
  match fuel with
  | O => mret tt
  | Datatypes.S fuel =>
      match kvs !! i with
      | None => mret tt
      | Some kv =>
          let j := groupEnd (length kvs) kvs (Key kv) (i + 1) in
          output ← liftP (reducef (Key kv) (groupValues kvs i j));
          _ ← perform (Append ofile (newline (kvLine (Key kv) output)));
          groupLoopP fuel ofile kvs j
      end
  end.

Definition writeGroupsP (ofile : string) (kvs : list KeyValue) : prog unit :=
  groupLoopP (Datatypes.S (length kvs)) ofile kvs 0.

Fixpoint reduceFilesP (task : Task) (files : list string) (kvs : list KeyValue) : prog unit :=
  match files with
  | [] => mret tt
  | fileName :: files =>
      f ← perform (Read fileName);
      content ← (match f : option string with Some content => mret content
                 | None => Halt (Panicked ("worker crash on reduce task, fail to open " +:+ fileName)) end : prog string);
      kvs ← parseLinesP (scanLines content) kvs;
      let kvs := sortByKey kvs in
      ofile ← createP (outTmp timeString task);
      _ ← writeGroupsP ofile kvs;
      _ ← perform (Rename ofile (TrimSuffix ofile (tmpSuffix timeString task)));
      reduceFilesP task files kvs
  end.

(** ** The handler of a task *)

Definition handleProg (task : Task) : prog unit :=
  match Type_ task with
  | MapTask => deferredP task (mapCleanupP task) (mapBodyP task)
  | ReduceTask => deferredP task (perform (Remove (outTmp timeString task))) (reduceFilesP task (FileNames task) [])
  | _ => mret tt
  end.

End worker.

(** ** On their own, the programs are the functions of MRWorker.v *)

(** [p] does what [m] does and sends nothing. *)
Definition runs {A} (p : prog A) (m : io A) : Prop :=
  forall fs, run p fs = (let '(fs', r) := m fs in (fs', [], r)).

Lemma run_bind {A B} (p : prog A) (f : A -> prog B) fs :
  run (p ≫= f) fs =
  match run p fs with
  | (fs1, ts, inl a) => let '(fs2, ts', r) := run (f a) fs1 in (fs2, (ts ++ ts')%list, r)
  | (fs1, ts, inr e) => (fs1, ts, inr e)
  end.
Proof.
  revert fs. induction p as [a|e|o k IH]; intros fs; unfold mbind; simpl.
  - by destruct (run (f a) fs) as [[??]?].
  - done.
  - destruct (exec o fs) as [fs1 r]. unfold mbind in IH. rewrite IH. destruct (run (k r) fs1) as [[fs2 ts] [a|e]]; [|done].
    destruct (run (f a) fs2) as [[??]?]. by rewrite assoc.
Qed.

Lemma runs_ret {A} (a : A) : runs (mret a) (mret a).
Proof. by intros fs. Qed.

Lemma runs_bind {A B} (p : prog A) (m : io A) (f : A -> prog B) (g : A -> io B) :
  runs p m -> (forall a, runs (f a) (g a)) -> runs (p ≫= f) (m ≫= g).
Proof.
  intros Hp Hf fs. rewrite run_bind Hp. unfold mbind at 1, io_bind. destruct (m fs) as [fs1 [a|e]]; [|done].
  rewrite Hf. by destruct (g a fs1).
Qed.

Lemma runs_lift {A} (m : outcome A) : runs (liftP m) (lift m).
Proof. intros fs. by destruct m. Qed.

Lemma runs_panic {A} msg : runs (Halt (Panicked msg) : prog A) (go_panic msg).
Proof. by intros fs. Qed.

Lemma runs_fatal {A} msg : runs (Halt (Exited msg) : prog A) (log_Fatal msg).
Proof. by intros fs. Qed.

Lemma runs_read x : runs (A := option string) (perform (Read x)) (readFile x).
Proof. by intros fs. Qed.

Lemma runs_create x : runs (createP x) (createFile x).
Proof. by intros fs. Qed.

Lemma runs_append x text : runs (A := unit) (perform (Append x text)) (writeString x text).
Proof. by intros fs. Qed.

Lemma runs_rename x y : runs (A := bool) (perform (Rename x y)) (rename x y).
Proof. intros fs. unfold perform, rename. simpl. by destruct (fs !! x). Qed.

Lemma runs_remove x : runs (A := unit) (perform (Remove x)) (remove x).
Proof. by intros fs. Qed.

Create HintDb runs discriminated.
#[export] Hint Resolve runs_ret runs_bind runs_lift runs_panic runs_fatal runs_read runs_create runs_append runs_rename runs_remove : runs.

Lemma runs_each {A} (l : list A) (f : A -> prog unit) (g : A -> io unit) :
  (forall a, runs (f a) (g a)) -> runs (each l f) (for_each l g).
Proof. intros H. induction l; simpl; auto with runs. Qed.

Lemma runs_mapM {A B} (l : list A) (f : A -> prog B) (g : A -> io B) :
  (forall a, runs (f a) (g a)) -> runs (mapM f l) (mapM g l).
Proof. intros H. induction l; simpl; auto with runs. Qed.

#[export] Hint Resolve runs_each runs_mapM : runs.

Section equivalence.
Context (timeString : Z -> string) `{!KeySort}.
Context (mapf : string -> string -> outcome (list KeyValue)) (reducef : string -> list string -> outcome string).

Lemma runs_open task : runs (openBucketsP task) (openBuckets task).
Proof. unfold openBucketsP, openBuckets. case_bool_decide; auto with runs. Qed.

Lemma runs_write task bs kvs : runs (writeBucketsP task bs kvs) (writeBuckets task bs kvs).
Proof. apply runs_each. intros kv. apply runs_bind; [auto with runs|]. auto with runs. Qed.

Lemma runs_renames bs : runs (renameBucketsP bs) (renameBuckets bs).
Proof.
  unfold renameBucketsP, renameBuckets. apply runs_each. intros x. apply runs_bind; [auto with runs|]. intros []; auto with runs.
Qed.

#[local] Hint Resolve runs_open runs_write runs_renames : runs.

Lemma runs_mapBody task : runs (mapBodyP mapf task) (mapBody mapf task).
Proof.
  unfold mapBodyP, mapBody. apply runs_bind; [auto with runs|]. intros name. apply runs_bind; [apply runs_read|].
  intros file. apply runs_bind; [destruct file; auto with runs|]. auto 8 with runs.
Qed.

Lemma runs_mapCleanup task : runs (mapCleanupP timeString task) (mapCleanup timeString task).
Proof. apply runs_each. auto with runs. Qed.

Lemma runs_parse lines kvs : runs (parseLinesP lines kvs) (parseLines lines kvs).
Proof.
  revert kvs. induction lines as [|line lines IH]; intros kvs; simpl; [auto with runs|].
  destruct (Fields line) as [|k [|v [|]]]; auto with runs.
Qed.

Lemma runs_groups ofile kvs : runs (writeGroupsP reducef ofile kvs) (writeGroups reducef ofile kvs).
Proof.
  unfold writeGroupsP, writeGroups. generalize 0%nat, (Datatypes.S (length kvs)). intros i fuel. revert i.
  induction fuel as [|fuel IH]; intros i; cbn [groupLoopP groupLoop]; [auto with runs|]. destruct (kvs !! i); [|auto with runs]. cbv zeta.
  apply runs_bind; [auto with runs|]. intros output. apply runs_bind; [apply runs_append|auto].
Qed.

Lemma runs_reduceFiles task files kvs :
  runs (reduceFilesP timeString reducef task files kvs) (reduceFiles timeString reducef task files kvs).
Proof.
  revert kvs. induction files as [|f files IH]; intros kvs; [apply runs_ret|]. cbn [reduceFilesP reduceFiles]. cbv zeta.
  apply runs_bind; [apply runs_read|]. intros c. apply runs_bind; [destruct c; auto with runs|]. intros content.
  apply runs_bind; [apply runs_parse|]. intros kvs'. apply runs_bind; [apply runs_create|]. intros ofile.
  apply runs_bind; [apply runs_groups|]. intros _. apply runs_bind; [apply runs_rename|]. auto.
Qed.

Lemma run_defer {A B} (p : prog A) (f : A + string -> prog B) fs :
  run (defer p f) fs =
  match run p fs with
  | (fs1, ts, inl a) => let '(fs2, ts', r) := run (f (inl a)) fs1 in (fs2, (ts ++ ts')%list, r)
  | (fs1, ts, inr (Panicked msg)) => let '(fs2, ts', r) := run (f (inr msg)) fs1 in (fs2, (ts ++ ts')%list, r)
  | (fs1, ts, inr (Exited msg)) => (fs1, ts, inr (Exited msg))
  end.
Proof.
  revert fs. induction p as [a|[msg|msg]|o k IH]; intros fs; simpl.
  - by destruct (run (f (inl a)) fs) as [[??]?].
  - by destruct (run (f (inr msg)) fs) as [[??]?].
  - done.
  - destruct (exec o fs) as [fs1 r]. rewrite IH. destruct (run (k r) fs1) as [[fs2 ts] [a|[msg|msg]]]; [| |done];
      destruct (run (f _) fs2) as [[??]?]; by rewrite assoc.
Qed.

(** How a program that sends at most one report ends, as MRWorker.v says it. *)
Definition handled (r : FS * list Task * (unit + stop)) : FS * Handled :=
  let '(fs, ts, res) := r in (fs, mkHandled (head ts) (match res with inl _ => true | inr _ => false end)).

Lemma deferred_runs task (cleanup body : prog unit) (mc mb : io unit) fs :
  runs cleanup mc -> runs body mb -> handled (run (deferredP task cleanup body) fs) = deferred task mc (mb fs).
Proof.
  intros Hc Hb. unfold deferredP. rewrite run_defer Hb. destruct (mb fs) as [fs1 [[]|[msg|msg]]]; simpl; [| |done];
    rewrite Hc; by destruct (mc fs1) as [fs2 [[]|]].
Qed.

(** Run without interruption, the program of a task is its handler. *)
Lemma handleProg_runs task fs :
  handled (run (handleProg timeString mapf reducef task) fs) =
  match Type_ task with
  | MapTask => HandleMapTask timeString mapf task fs
  | ReduceTask => HandleReduceTask timeString reducef task fs
  | _ => (fs, mkHandled None true)
  end.
Proof.
  unfold handleProg, HandleMapTask, HandleReduceTask. destruct (Type_ task); try done.
  - apply deferred_runs; [apply runs_mapCleanup|apply runs_mapBody].
  - apply deferred_runs; [apply runs_remove|apply runs_reduceFiles].
Qed.

End equivalence.
