(* ===== verification/MRConcurrent.v ===== *)
(** * MRConcurrent: workers whose file operations interleave

    A world holds the coordinator, the file system, the reports on their way to
    the coordinator and the workers.  A worker that is given a task runs the
    program of MRPrograms.v, one operation at a time, with operations of other
    workers in between, and may be killed at any point.

    To each running program belongs the file system it would see on its own;
    the program follows it as long as the files it uses are not touched by
    others.  This file says which operations the handlers perform along such a
    run ([traced]); MRConcurrentFacts.v puts the workers together. *)

From S2P Require Import Prelude GoStrings MRCoordinator MRFacts MRWorker MRGroup MRNames MRHandlers MRJob MRPrograms.
Local Open Scope Z_scope.
Local Open Scope list_scope.

(** ** Worlds *)

Record World := mkWorld { w_mr : MRState; w_fs : FS; w_reports : list Task; w_threads : list (prog unit) }.

Definition running (p : prog unit) : bool := match p with Do _ _ => true | _ => false end.

Definition killed_prog : prog unit := Halt (Exited "killed").

(** The part of a world that MRJob.v talks about. *)
Definition job_of (w : World) : JobState := mkJob (w_mr w) (w_fs w) (w_reports w).

Section world.
Context (timeString : Z -> string) `{HKS : !KeySort}.
Context (mapf : string -> string -> outcome (list KeyValue)) (reducef : string -> list string -> outcome string).

Definition w_init (files : list string) (nR : Z) (fs : FS) : World := mkWorld (mr_init files nR) fs [] [].

Inductive WEvent :=
| WGet (now : Z)
| WOp (k : nat)
| WKill (k : nat)
| WReport (t : Task).

(** [WGet]: a worker asks for a task and starts on it; [w_threads !! k] is the
    rest of the program of the worker that got the task [handed !! k]. *)
Definition w_step (e : WEvent) (w : World) : option World :=
  match e with
  | WGet now =>
      let '(r, c) := HandleGetTaskRequest now (coord (w_mr w)) in
      Some (mkWorld (mkMRState c (handed (w_mr w) ++ option_list r)) (w_fs w) (w_reports w)
        (w_threads w ++ option_list (handleProg timeString mapf reducef <$> r)))
  | WOp k =>
      match w_threads w !! k with
      | Some (Do o p) =>
          let '(fs, r) := exec o (w_fs w) in
          Some (mkWorld (w_mr w) fs (w_reports w ++ sent o) (<[k := p r]> (w_threads w)))
      | _ => None
      end
  | WKill k => Some (mkWorld (w_mr w) (w_fs w) (w_reports w) (<[k := killed_prog]> (w_threads w)))
  | WReport t =>
      if bool_decide (t ∈ w_reports w) then
        match mr_step (w_mr w) (RTaskDone t) with
        | Ret mr => Some (mkWorld mr (w_fs w) (w_reports w) (w_threads w))
        | Panic _ => None
        end
      else None
  end.

Fixpoint w_run (es : list WEvent) (w : World) : option World :=
  match es with
  | [] => Some w
  | e :: es => w_step e w ≫= w_run es
  end.

(** No worker is in the middle of reduce task [i], and none has reported it. *)
Definition unattended (w : World) (i : Z) : Prop :=
  (forall r, r ∈ w_reports w -> Type_ r = ReduceTask -> Id r <> i) /\
  (forall k t p, handed (w_mr w) !! k = Some t -> w_threads w !! k = Some p ->
    Type_ t = ReduceTask -> Id t = i -> running p = false).

(** The runs for which the job is right: a reduce task is given to a second
    worker only if the first one has died without reporting it, and map tasks are not
    reported after the map phase. *)
Definition orderly (w : World) (e : WEvent) : Prop :=
  match e with
  | WGet now =>
      match HandleGetTaskRequest now (coord (w_mr w)) with
      | (Some t, _) => Type_ t = ReduceTask -> unattended w (Id t)
      | _ => True
      end
  | WReport t => timely (w_mr w) (RTaskDone t)
  | _ => True
  end.

Definition w_rel (w w' : World) : Prop := exists e, orderly w e /\ w_step e w = Some w'.

Definition w_reachable (files : list string) (nR : Z) (fs : FS) (w : World) : Prop := rtc w_rel (w_init files nR fs) w.
End world.

(** ** The operations of a program along its own run *)

Definition notifies (o : op) : bool := match o with Notify _ => true | _ => false end.

(** Every operation of [p], run from [V], satisfies [φ]; [b] says whether a
    report was sent before. *)
Fixpoint traced {A} (φ : bool -> op -> FS -> Prop) (b : bool) (p : prog A) (V : FS) : Prop :=
  match p with
  | Do o k => φ b o V /\ traced φ (b || notifies o) (k (exec o V).2) (exec o V).1
  | _ => True
  end.

(** Every operation of [p] satisfies [P], whatever the answers. *)
Fixpoint all_ops {A} (P : op -> Prop) (p : prog A) : Prop :=
  match p with
  | Do o k => P o /\ forall r, all_ops P (k r)
  | _ => True
  end.

Lemma all_ops_traced {A} (P : op -> Prop) (φ : bool -> op -> FS -> Prop) b (p : prog A) V :
  (forall o W, P o -> notifies o = false /\ φ b o W) -> all_ops P p -> traced φ b p V.
Proof.
  intros HP. revert V. induction p as [a|e|o k IH]; intros V; [done|done|]. intros [Ho Hk]. simpl.
  destruct (HP o V Ho) as [Hn Hφ]. rewrite Hn orb_false_r. auto.
Qed.

Lemma all_ops_bind {A B} (P : op -> Prop) (p : prog A) (f : A -> prog B) :
  all_ops P p -> (forall a, all_ops P (f a)) -> all_ops P (p ≫= f).
Proof. intros Hp Hf. unfold mbind. induction p as [a|e|o k IH]; simpl; [auto|done|]. destruct Hp. auto. Qed.

Lemma all_ops_lift {A B} (P : op -> Prop) (m : outcome A) (f : A -> prog B) :
  (forall a, m = Ret a -> all_ops P (f a)) -> all_ops P (liftP m ≫= f).
Proof. intros H. destruct m; [by apply H|done]. Qed.

Lemma all_ops_create {B} (P : op -> Prop) x (f : string -> prog B) :
  P (Create x) -> all_ops P (f x) -> all_ops P (createP x ≫= f).
Proof. by intros H1 H2; split. Qed.

Lemma all_ops_each {A} (P : op -> Prop) (l : list A) (f : A -> prog unit) :
  (forall a, a ∈ l -> all_ops P (f a)) -> all_ops P (each l f).
Proof.
  induction l as [|a l IH]; intros H; simpl; [done|]. apply all_ops_bind; [apply H; left|].
  intros _. apply IH. intros x Hx. apply H. by right.
Qed.

Lemma all_ops_mapM {A B} (P : op -> Prop) (l : list A) (f : A -> prog B) :
  (forall a, all_ops P (f a)) -> all_ops P (mapM f l).
Proof.
  intros H. induction l as [|a l IH]; simpl; [done|]. apply all_ops_bind; [done|]. intros x. apply all_ops_bind; [done|]. done.
Qed.

Lemma nothing_sent b : b || bool_decide (([] : list Task) <> []) = b.
Proof. by rewrite bool_decide_false ?orb_false_r; [tauto|]. Qed.

Lemma flag_op b o (ts : list Task) : b || bool_decide (sent o ++ ts <> []) = b || notifies o || bool_decide (ts <> []).
Proof. destruct o; simpl; by rewrite ?orb_false_r ?orb_true_r. Qed.

Lemma traced_bind {A B} φ b (p : prog A) (f : A -> prog B) (m : io A) V :
  runs p m -> traced φ b p V -> (forall W a, m V = (W, inl a) -> traced φ b (f a) W) -> traced φ b (p ≫= f) V.
Proof.
  intros Hr Hp Hf.
  assert (forall W ts a, run p V = (W, ts, inl a) -> traced φ (b || bool_decide (ts <> [])) (f a) W) as Hf'.
  { intros W ts a E. rewrite Hr in E. destruct (m V) as [W' r] eqn:Em. injection E as -> <- ->.
    rewrite nothing_sent. by apply Hf. }
  clear Hr Hf. revert V b Hp Hf'. induction p as [a|e|o k IH]; intros V b Hp Hf; unfold mbind; simpl.
  - specialize (Hf V [] a eq_refl). by rewrite nothing_sent in Hf.
  - done.
  - destruct Hp as [Ho Hk]. split; [done|]. apply IH; [done|]. intros W ts a E. specialize (Hf W (sent o ++ ts) a).
    simpl in Hf. destruct (exec o V) as [fs1 r]. simpl in *. rewrite E in Hf. specialize (Hf eq_refl).
    by rewrite flag_op in Hf.
Qed.

Lemma traced_defer {A B} φ b (p : prog A) (f : A + string -> prog B) (m : io A) V :
  runs p m -> traced φ b p V ->
  (forall W r, m V = (W, r) -> match r with inl a => traced φ b (f (inl a)) W | inr (Panicked e) => traced φ b (f (inr e)) W | _ => True end) ->
  traced φ b (defer p f) V.
Proof.
  intros Hr Hp Hf.
  assert (forall W ts r, run p V = (W, ts, r) -> match r with inl a => traced φ (b || bool_decide (ts <> [])) (f (inl a)) W
    | inr (Panicked e) => traced φ (b || bool_decide (ts <> [])) (f (inr e)) W | _ => True end) as Hf'.
  { intros W ts r E. rewrite Hr in E. destruct (m V) as [W' r'] eqn:Em. injection E as -> <- ->.
    rewrite nothing_sent. by apply Hf. }
  clear Hr Hf. revert V b Hp Hf'. induction p as [a|[e|e]|o k IH]; intros V b Hp Hf; simpl.
  1,2: specialize (Hf V [] _ eq_refl); cbv beta iota in Hf; by rewrite nothing_sent in Hf.
  - done.
  - destruct Hp as [Ho Hk]. split; [done|]. apply IH; [done|]. intros W ts a E. specialize (Hf W (sent o ++ ts) a).
    simpl in Hf. destruct (exec o V) as [fs1 r]. simpl in *. rewrite E in Hf. specialize (Hf eq_refl).
    by rewrite flag_op in Hf.
Qed.

Lemma traced_do {A B} φ b o (g : reply o -> prog A) (h : A -> prog B) V :
  φ b o V -> traced φ (b || notifies o) (g (exec o V).2 ≫= h) (exec o V).1 -> traced φ b ((perform o ≫= g) ≫= h) V.
Proof. by intros H1 H2. Qed.

Lemma traced_perform {A} φ b o (f : reply o -> prog A) V :
  φ b o V -> traced φ (b || notifies o) (f (exec o V).2) (exec o V).1 -> traced φ b (perform o ≫= f) V.
Proof. by intros H1 H2. Qed.

(** ** What the handlers do *)

Section handlers.
Context (timeString : Z -> string) `{HKS : !KeySort}.
Context (mapf : string -> string -> outcome (list KeyValue)) (reducef : string -> list string -> outcome string).
Context (red : string -> list string -> string) (files : list string) (kss : list (list KeyValue)) (nR : Z) (fs0 : FS).

(** Intermediate file [i] of input [j] has its right contents. *)
Definition right_inter (fs : FS) (j i : Z) : Prop :=
  0 <= i < nR /\ exists kvs, kss !! Z.to_nat j = Some kvs /\ fs !! intermediateFile j i = Some (kv_text (partition (part nR) i kvs)).

(** A map handler publishes only complete files, and reports when all of them
    are there. *)
Definition map_op (t : Task) (b : bool) (o : op) (V : FS) : Prop :=
  match o with
  | Read x => x ∈ FileNames t
  | Create x | Append x _ => exists i, x = bucketName t i
  | Rename x y => exists i kvs, 0 <= i < nR /\ kss !! Z.to_nat (Id t) = Some kvs /\ x = bucketName t i /\
      y = intermediateFile (Id t) i /\ V !! x = Some (kv_text (partition (part nR) i kvs))
  | Remove x => exists name i, x = staleName timeString t name i
  | Notify r => r = set_State t Completed /\ inter_ok kss nR V (Id t)
  end.

(** A reduce handler writes its temporary file and its output, and reports when the
    output is complete; afterwards it only removes the temporary file. *)
Definition reduce_op (t : Task) (b : bool) (o : op) (V : FS) : Prop :=
  match o with
  | Read x => x ∈ FileNames t
  | Create x | Append x _ | Remove x => x = outTmp timeString t
  | Rename x y => b = false /\ x = outTmp timeString t /\ y = outName (Id t)
  | Notify r => b = false /\ r = set_State t Completed /\ out_ok red kss nR V (Id t)
  end.

Hypothesis Hset : job_setup mapf reducef red files kss nR fs0.

Definition bucket_op (t : Task) (o : op) : Prop :=
  match o with Create x | Append x _ => exists i, x = bucketName t i | _ => False end.

Lemma bucket_op_map t b o W : bucket_op t o -> notifies o = false /\ map_op t b o W.
Proof. by destruct o. Qed.

Lemma open_traced t b V : traced (map_op t) b (openBucketsP t) V.
Proof.
  apply (all_ops_traced (bucket_op t)); [intros; by apply bucket_op_map|]. unfold openBucketsP. case_bool_decide; [done|].
  apply all_ops_mapM. intros i. simpl. eauto.
Qed.

Lemma write_traced t b kvs is_ V : traced (map_op t) b (writeBucketsP t (bucketName t <$> is_) kvs) V.
Proof.
  apply (all_ops_traced (bucket_op t)); [intros; by apply bucket_op_map|]. apply all_ops_each. intros kv _.
  apply all_ops_lift. intros idx _. apply all_ops_lift. intros file [_ Hf]%slice_get_ret.
  apply list_lookup_fmap_Some_1 in Hf as (i & -> & _). simpl. eauto.
Qed.

Lemma rename_traced t b kvs is_ V :
  0 <= Id t -> NoDup is_ -> kss !! Z.to_nat (Id t) = Some kvs -> (forall i, i ∈ is_ -> 0 <= i < nR) ->
  (forall i, i ∈ is_ -> V !! bucketName t i = Some (kv_text (partition (part nR) i kvs))) ->
  traced (map_op t) b (renameBucketsP (bucketName t <$> is_)) V.
Proof.
  intros Hid Hnd Hk. revert V. induction Hnd as [|i is_ Hi Hnd IH]; intros V Hr HV; [done|].
  assert (V !! bucketName t i = Some (kv_text (partition (part nR) i kvs))) as HVi by (apply HV; left).
  unfold renameBucketsP. rewrite fmap_cons. cbn [each]. apply traced_do.
  - exists i, kvs. rewrite bucketName_final. split_and!; try done; apply Hr; left.
  - cbn [notifies exec]. rewrite orb_false_r HVi bucketName_final. cbn [fst snd].
    apply IH; [intros; apply Hr; by right|]. intros j Hj.
    rewrite lookup_insert_ne; [|rewrite lookup_delete_ne; [|by apply HV; right]].
    + destruct (bucketName_inter t j) as (s & u & ->). apply not_eq_sym, dot_not_inter.
    + intros E%bucketName_inj; [|done]. by subst.
Qed.

Lemma mapBody_traced t b V :
  map_shape files nR t -> inputs_kept fs0 V -> traced (map_op t) b (mapBodyP mapf t) V.
Proof.
  intros (j & file & Hj & [= Hty Hid Hfn] & Hn) Hin. destruct Hset as [_ HnR _ Hpub Hinp _].
  destruct (Forall2_lookup_l _ _ _ _ _ Hinp Hj) as (kvs & Hkvs & content & Hc & Hm).
  pose proof (Forall_lookup_1 _ _ _ _ Hpub Hj) as Hpf. unfold mapBodyP. rewrite Hfn.
  change (liftP (slice_get [file] 0)) with (Pure file). change (Pure file ≫= ?f) with (f file). cbv beta.
  apply traced_perform; [rewrite /= Hfn; left|]. cbn [exec fst snd]. rewrite (Hin file Hpf) Hc.
  change (mret content ≫= ?f) with (f content). cbv beta. rewrite Hm. change (liftP (Ret kvs) ≫= ?f) with (f kvs). cbv beta.
  destruct (openBuckets_spec t V) as (V1 & E1 & H1); [lia|].
  eapply traced_bind; [apply runs_open|apply open_traced|]. intros W1 bs Ew. rewrite E1 in Ew. injection Ew as <- <-.
  destruct (writeBuckets_spec t kvs V1 (fun _ => ""%string)) as (V2 & E2 & H2 & _); [lia|lia| |].
  { intros i Hi. rewrite H1 bool_decide_true //. by apply list_elem_of_fmap_2. }
  eapply traced_bind; [apply runs_write|apply write_traced|]. intros W2 u Ew. rewrite E2 in Ew. injection Ew as <- <-.
  apply (rename_traced t _ kvs); [lia|apply NoDup_seqZ|by rewrite Hid Nat2Z.id| |].
  - intros i Hi%elem_of_seqZ. lia.
  - intros i Hi. rewrite (H2 i Hi). by rewrite Hn.
Qed.

Lemma map_traced t V :
  Type_ t = MapTask -> map_shape files nR t -> inputs_kept fs0 V ->
  traced (map_op t) false (handleProg timeString mapf reducef t) V.
Proof.
  intros Hty Hms Hin. pose proof Hset as [_ HnR _ Hpub Hinp _]. unfold handleProg. rewrite Hty.
  eapply traced_defer; [apply runs_mapBody|by apply mapBody_traced|]. intros W r E.
  destruct Hms as (j & file & Hj & [= _ Hid Hfn] & Hn).
  destruct (Forall2_lookup_l _ _ _ _ _ Hinp Hj) as (kvs & Hkvs & content & Hc & Hm).
  pose proof (Forall_lookup_1 _ _ _ _ Hpub Hj) as Hpf.
  destruct (mapBody_spec mapf t file content kvs V) as (W' & E' & HW & _); [done|lia|lia|by rewrite Hin|done|].
  rewrite E' in E. injection E as <- <-. cbv zeta. apply traced_perform.
  - split; [done|]. intros kvs' i Hk Hi. rewrite Hid Nat2Z.id Hkvs in Hk. injection Hk as <-. rewrite HW ?Hn //.
    apply elem_of_seqZ. lia.
  - apply (all_ops_traced (fun o => exists name i, o = Remove (staleName timeString t name i))).
    + intros o W'' (name & i & ->). split; [done|]. by exists name, i.
    + apply all_ops_each. intros i _. apply all_ops_lift. intros name _. split; [by exists name, i|done].
Qed.

Definition reduce_file_op (t : Task) (o : op) : Prop :=
  match o with
  | Read x => x ∈ FileNames t
  | Create x | Append x _ => x = outTmp timeString t
  | Rename x y => x = outTmp timeString t /\ y = outName (Id t)
  | _ => False
  end.

Lemma groups_ops t kvs : all_ops (reduce_file_op t) (writeGroupsP reducef (outTmp timeString t) kvs).
Proof.
  unfold writeGroupsP. generalize 0%nat, (Datatypes.S (length kvs)). intros i fuel. revert i.
  induction fuel as [|fuel IH]; intros i; cbn [groupLoopP]; [done|]. destruct (kvs !! i); [|done]. cbv zeta.
  apply all_ops_lift. intros out _. apply all_ops_bind; [done|]. auto.
Qed.

Lemma parse_ops P lines kvs : all_ops P (parseLinesP lines kvs).
Proof.
  revert kvs. induction lines as [|line lines IH]; intros kvs; cbn [parseLinesP]; [done|].
  destruct (Fields line) as [|k [|v [|]]]; auto; done.
Qed.

Lemma reduce_ops t fs kvs :
  (forall f, f ∈ fs -> f ∈ FileNames t) -> all_ops (reduce_file_op t) (reduceFilesP timeString reducef t fs kvs).
Proof.
  revert kvs. induction fs as [|f fs IH]; intros kvs Hfs; [done|]. cbn [reduceFilesP]. cbv zeta.
  apply all_ops_bind; [split; [apply Hfs; left|done]|]. intros c. apply all_ops_bind; [by destruct c|]. intros content.
  apply all_ops_bind; [apply parse_ops|]. intros kvs'.
  apply all_ops_create; [done|]. apply all_ops_bind; [apply groups_ops|]. intros _. apply all_ops_bind; [by rewrite outTmp_final|]. intros _. apply IH. intros x Hx. apply Hfs. by right.
Qed.

Lemma reduce_traced t V :
  Type_ t = ReduceTask -> reduce_shape files nR t -> (forall j, (j < length files)%nat -> inter_ok kss nR V (Z.of_nat j)) ->
  traced (reduce_op t) false (handleProg timeString mapf reducef t) V.
Proof.
  intros Hty Hrs Hin. pose proof Hset as [Hred HnR Hfiles Hpub Hinp Hcl]. unfold handleProg. rewrite Hty.
  eapply traced_defer; [apply runs_reduceFiles| |].
  { apply (all_ops_traced (reduce_file_op t)); [|by apply reduce_ops]. by intros []. }
  intros W r E.
  destruct (run_reduce timeString mapf reducef red files kss nR fs0 Hred Hfiles Hpub Hinp Hcl t V Hrs Hin) as (fs' & Hh & _ & Ho).
  unfold HandleReduceTask, deferred in Hh. rewrite E in Hh. destruct r as [[]|[msg|msg]]; simpl in Hh; [| |done].
  - injection Hh as <-. apply traced_perform.
    + split; [done|]. split; [done|]. destruct Ho as (text & Ht & Hof). exists text. split; [|done].
      rewrite lookup_delete_Some in Ht. apply Ht.
    + by split.
  - discriminate Hh.
Qed.
End handlers.
