(* ===== verification/MRConcurrentFacts.v ===== *)
(** * MRConcurrentFacts: a job with interleaved workers computes the right output

    The invariant of [job_inv] and one statement per running worker: it follows
    its own run on the files it uses.  The operation of one worker changes only
    its temporary files and the files it publishes, which no other worker
    uses or which had their final contents already. *)

From S2P Require Import Prelude GoStrings MRCoordinator MRFacts MRWorker MRGroup MRNames MRHandlers MRJob MRCrash MRPrograms MRConcurrent.
From Stdlib Require Import Ascii.
Local Open Scope Z_scope.
Local Open Scope list_scope.

(** ** Two views of the files *)

Definition sources (o : op) : list string :=
  match o with Read x | Append x _ | Rename x _ => [x] | _ => [] end.

Definition writes (o : op) : list string :=
  match o with Create x | Append x _ | Remove x => [x] | Rename x y => [x; y] | _ => [] end.

Lemma exec_other o (fs : FS) z : z ∉ writes o -> (exec o fs).1 !! z = fs !! z.
Proof.
  intros H. destruct o as [x|x|x text|x y|x|r]; simpl in *; try done.
  - rewrite lookup_insert_ne //. set_solver.
  - rewrite lookup_alter_ne //. set_solver.
  - destruct (fs !! x); simpl; [|done]. rewrite lookup_insert_ne; [set_solver|]. rewrite lookup_delete_ne //. set_solver.
  - rewrite lookup_delete_ne //. set_solver.
Qed.

(** Views that agree on what an operation uses get the same answer and agree
    afterwards wherever they did before. *)
Lemma exec_agree o (V fs : FS) :
  (forall z, z ∈ sources o -> V !! z = fs !! z) ->
  (exec o V).2 = (exec o fs).2 /\ forall z, V !! z = fs !! z -> (exec o V).1 !! z = (exec o fs).1 !! z.
Proof.
  intros Hs. destruct o as [x|x|x text|x y|x|r]; simpl in *; try (assert (V !! x = fs !! x) as Hx by (apply Hs; left)).
  - done.
  - split; [done|]. intros z Hz. destruct (decide (z = x)) as [->|Hne]; [by rewrite !lookup_insert_eq|].
    rewrite !lookup_insert_ne; [by apply not_eq_sym..|done].
  - split; [done|]. intros z Hz. destruct (decide (z = x)) as [->|Hne]; [by rewrite !lookup_alter_eq Hx|].
    rewrite !lookup_alter_ne; [by apply not_eq_sym..|done].
  - rewrite Hx. destruct (fs !! x) as [c|]; simpl; [|done]. split; [done|]. intros z Hz.
    destruct (decide (z = y)) as [->|Hny]; [by rewrite !lookup_insert_eq|]. rewrite !lookup_insert_ne; [by apply not_eq_sym..|].
    destruct (decide (z = x)) as [->|Hne]; [by rewrite !lookup_delete_eq|]. rewrite !lookup_delete_ne; [by apply not_eq_sym..|done].
  - split; [done|]. intros z Hz. destruct (decide (z = x)) as [->|Hne]; [by rewrite !lookup_delete_eq|].
    rewrite !lookup_delete_ne; [by apply not_eq_sym..|done].
  - done.
Qed.

Section facts.
Context (timeString : Z -> string) `{HKS : !KeySort}.
Context (red : string -> list string -> string) (files : list string) (kss : list (list KeyValue)) (nR : Z) (fs0 : FS).

Local Notation right_inter := (right_inter kss nR).
Local Notation out_ok := (out_ok red kss nR).
Local Notation inter_ok := (inter_ok kss nR).

(** ** What a worker changes *)

Definition may_change (t : Task) (b : bool) (x : string) : Prop :=
  match Type_ t with
  | MapTask => (exists i, x = bucketName t i) \/ (exists name i, x = staleName timeString t name i)
  | ReduceTask => x = outTmp timeString t \/ (b = false /\ x = outName (Id t))
  | _ => False
  end.

Definition published (t : Task) (fs : FS) (x : string) : Prop :=
  Type_ t = MapTask /\ exists i, x = intermediateFile (Id t) i /\ right_inter fs (Id t) i.

Definition change (t : Task) (b : bool) (fs fs' : FS) : Prop :=
  forall x, fs' !! x = fs !! x \/ may_change t b x \/ published t fs' x.

(** ** What a worker relies on *)

Definition map_agree (t : Task) (V fs : FS) : Prop :=
  (forall x, x ∈ FileNames t -> V !! x = fs !! x) /\
  (forall i, V !! bucketName t i = fs !! bucketName t i) /\
  (forall i, right_inter V (Id t) i -> right_inter fs (Id t) i).

Definition reduce_agree (t : Task) (V fs : FS) : Prop :=
  forall x, x ∈ FileNames t \/ x = outTmp timeString t \/ x = outName (Id t) -> V !! x = fs !! x.

Lemma right_inter_eq (fs fs' : FS) j i : fs' !! intermediateFile j i = fs !! intermediateFile j i -> right_inter fs j i -> right_inter fs' j i.
Proof. intros E (Hi & kvs & Hk & Hf). split; [done|]. exists kvs. by rewrite E. Qed.

Lemma right_inter_ok fs j : inter_ok fs j <-> forall i, 0 <= i < nR -> is_Some (kss !! Z.to_nat j) -> right_inter fs j i.
Proof.
  split.
  - intros H i Hi [kvs Hk]. split; [done|]. exists kvs. split; [done|]. by apply H.
  - intros H kvs i Hk Hi. destruct (H i Hi (mk_is_Some _ _ Hk)) as (_ & kvs' & Hk' & Hf). by simplify_eq.
Qed.

Lemma private_bucket t i : private (bucketName t i) = true.
Proof. destruct (bucketName_inter t i) as (s & u & ->). apply inter_private. Qed.

Lemma private_stale t name i : private (staleName timeString t name i) = true.
Proof. destruct (staleName_inter timeString t name i) as (s & u & ->). apply inter_private. Qed.

Lemma private_tmp t : private (outTmp timeString t) = true.
Proof. destruct (outTmp_out timeString t) as (s & u & ->). apply out_private. Qed.

Lemma change_private t b x : may_change t b x -> private x = true.
Proof.
  unfold may_change. destruct (Type_ t); try done; intros [H|H].
  - destruct H as (i & ->). apply private_bucket.
  - destruct H as (name & i & ->). apply private_stale.
  - subst. apply private_tmp.
  - destruct H as [_ ->]. apply (out_private (pretty (Id t))).
Qed.

(** No temporary name is that of an intermediate file or of another output. *)
Lemma change_not_inter t b j i : ~ may_change t b (intermediateFile j i).
Proof.
  unfold may_change. intros H. destruct (Type_ t); try done; destruct H as [H|H].
  - destruct H as (k & H). destruct (bucketName_inter t k) as (s & u & E). rewrite E in H. by destruct (dot_not_inter s u j i).
  - destruct H as (name & k & H). destruct (staleName_inter timeString t name k) as (s & u & E). rewrite E in H.
    by destruct (dot_not_inter s u j i).
  - destruct (outTmp_out timeString t) as (s & u & E). rewrite E in H. discriminate H.
  - destruct H as [_ H]. discriminate H.
Qed.

Lemma change_out t b i : may_change t b (outName i) -> Type_ t = ReduceTask /\ b = false /\ i = Id t.
Proof.
  unfold may_change. intros H. destruct (Type_ t); try done; destruct H as [H|H].
  - destruct H as (k & H). destruct (bucketName_inter t k) as (s & u & E). rewrite E in H. discriminate H.
  - destruct H as (name & k & H). destruct (staleName_inter timeString t name k) as (s & u & E). rewrite E in H.
    discriminate H.
  - destruct (outTmp_out timeString t) as (s & u & E). rewrite E in H. by destruct (dot_not_out s u i).
  - destruct H as [-> ?%outName_inj]. done.
Qed.

Lemma published_private t fs x : published t fs x -> private x = true.
Proof. intros (_ & i & -> & _). destruct (intermediateFile_chars (Id t) i) as (s & -> & _). apply inter_private. Qed.

Lemma published_not_dot t fs s u : ~ published t fs (inter_prefix +:+ s +:+ String "."%char u).
Proof. intros (_ & i & H & _). by destruct (dot_not_inter s u (Id t) i). Qed.

Lemma published_not_out t fs s : ~ published t fs (out_prefix +:+ s).
Proof. intros (_ & i & H & _). destruct (intermediateFile_chars (Id t) i) as (u & E & _). rewrite E in H. discriminate H. Qed.

(** ** One operation *)

Lemma map_op_writes t b o V z :
  Type_ t = MapTask -> map_op timeString kss nR t b o V -> z ∈ writes o ->
  may_change t b z \/ exists i, z = intermediateFile (Id t) i.
Proof.
  intros Hty Ho Hz. unfold may_change. rewrite Hty.
  destruct o as [x|x|x text|x y|x|r]; simpl in *; [by apply elem_of_nil in Hz|..|by apply elem_of_nil in Hz].
  - apply list_elem_of_singleton in Hz as ->. auto.
  - apply list_elem_of_singleton in Hz as ->. auto.
  - destruct Ho as (i & kvs & _ & _ & -> & -> & _). apply elem_of_cons in Hz as [->|Hz]; [eauto|].
    apply list_elem_of_singleton in Hz as ->. eauto.
  - apply list_elem_of_singleton in Hz as ->. auto.
Qed.

Lemma map_op_step t b o (V fs : FS) :
  Type_ t = MapTask -> 0 <= Id t -> map_agree t V fs -> map_op timeString kss nR t b o V ->
  (exec o V).2 = (exec o fs).2 /\ map_agree t (exec o V).1 (exec o fs).1 /\ change t b fs (exec o fs).1.
Proof.
  intros Hty Hid (A1 & A2 & A3) Ho. destruct (exec_agree o V fs) as [Hr Ha].
  { intros z Hz. destruct o; simpl in *; try (by apply elem_of_nil in Hz); apply list_elem_of_singleton in Hz as ->; [by apply A1|..].
    - by destruct Ho as (i & ->).
    - by destruct Ho as (i & kvs & _ & _ & -> & _). }
  assert (forall i, intermediateFile (Id t) i ∈ writes o ->
    right_inter (exec o V).1 (Id t) i /\ right_inter (exec o fs).1 (Id t) i) as Hpub.
  { intros i Hi. destruct o as [x|x|x text|x y|x|r]; simpl in Ho, Hi; try (by apply elem_of_nil in Hi).
    1,2,4: apply list_elem_of_singleton in Hi; destruct (change_not_inter t b (Id t) i); unfold may_change; rewrite Hty Hi; auto.
    destruct Ho as (i' & kvs & Hi' & Hk & -> & -> & HV). apply elem_of_cons in Hi as [Hi|Hi].
    { destruct (change_not_inter t b (Id t) i). unfold may_change. rewrite Hty Hi. eauto. }
    apply list_elem_of_singleton in Hi. apply intermediateFile_inj in Hi as [_ ->]; [|done|done]. simpl.
    rewrite -A2 HV. cbn [fst]. split; (split; [done|]; exists kvs; split; [done|]; apply lookup_insert_eq). }
  split; [exact Hr|]. split; [split_and!|].
  - intros x Hx. by apply Ha, A1.
  - intros i. by apply Ha.
  - intros i Hi. destruct (decide (intermediateFile (Id t) i ∈ writes o)) as [Hin|Hin]; [by apply Hpub|].
    apply (right_inter_eq fs); [by apply exec_other|]. apply A3. revert Hi. apply right_inter_eq. symmetry. by apply exec_other.
  - intros x. destruct (decide (x ∈ writes o)) as [Hin|Hin]; [|left; by apply exec_other]. right.
    destruct (map_op_writes t b o V x Hty Ho Hin) as [?|(i & ->)]; [by left|]. right. split; [done|]. exists i. by split; [|apply Hpub].
Qed.
Lemma reduce_op_step t b o (V fs : FS) :
  Type_ t = ReduceTask -> reduce_agree t V fs -> reduce_op timeString red kss nR t b o V ->
  (exec o V).2 = (exec o fs).2 /\ reduce_agree t (exec o V).1 (exec o fs).1 /\ change t b fs (exec o fs).1.
Proof.
  intros Hty A Ho. destruct (exec_agree o V fs) as [Hr Ha].
  { intros z Hz. apply A. destruct o; simpl in *; try (by apply elem_of_nil in Hz); apply list_elem_of_singleton in Hz as ->; [by left|..].
    - by right; left.
    - destruct Ho as (_ & -> & _). by right; left. }
  split; [exact Hr|]. split; [intros x Hx; by apply Ha, A|].
  intros x. destruct (decide (x ∈ writes o)) as [Hin|Hin]; [|left; by apply exec_other]. right; left.
  unfold may_change. rewrite Hty. destruct o as [y|y|y text|y z|y|r]; simpl in Ho, Hin; try (by apply elem_of_nil in Hin).
  1,2,4: apply list_elem_of_singleton in Hin; left; congruence.
  destruct Ho as (-> & -> & ->). apply elem_of_cons in Hin as [->|Hin]; [by left|]. apply list_elem_of_singleton in Hin. by right.
Qed.

(** ** The others are not disturbed *)

Hypothesis Hspace : forall z, spaceless (timeString z) = false.

Lemma change_inter t b (fs fs' : FS) j i :
  0 <= Id t -> 0 <= j -> change t b fs fs' -> right_inter fs j i -> right_inter fs' j i.
Proof.
  intros Hid Hj Hc Hr. destruct (Hc (intermediateFile j i)) as [E|[H|(_ & i' & E & Hp)]].
  - by apply (right_inter_eq fs).
  - by apply change_not_inter in H.
  - by apply intermediateFile_inj in E as [-> ->].
Qed.

Lemma change_public t b (fs fs' : FS) x : change t b fs fs' -> private x = false -> fs' !! x = fs !! x.
Proof.
  intros Hc Hx. destruct (Hc x) as [E|[H|H]]; [done|..].
  - apply change_private in H. congruence.
  - apply published_private in H. congruence.
Qed.

Lemma map_agree_stable t b (fs fs' : FS) t2 V :
  0 <= Id t -> 0 <= Id t2 -> change t b fs fs' ->
  (Type_ t = MapTask -> Id t = Id t2 -> StartTime t <> StartTime t2) ->
  Forall (fun x => private x = false) (FileNames t2) -> map_agree t2 V fs -> map_agree t2 V fs'.
Proof.
  intros Hid Hid2 Hc Hne Hpub (A1 & A2 & A3). rewrite Forall_forall in Hpub. split_and!.
  - intros x Hx. rewrite (change_public _ _ _ _ _ Hc (Hpub x Hx)). by apply A1.
  - intros i. rewrite A2. symmetry. destruct (Hc (bucketName t2 i)) as [E|[H|H]]; [done|exfalso..].
    + unfold may_change in H. destruct (Type_ t) eqn:Hty; try done.
      * destruct H as [(k & H)|(name & k & H)]; [|exact (bucketName_not_stale timeString t2 t name i k (Hspace _) H)].
        apply bucketName_fresh in H as [H1 H2]; [|done|done]. by apply (Hne eq_refl).
      * destruct (bucketName_inter t2 i) as (u & v & E). rewrite E in H. destruct H as [H|[_ H]]; [|discriminate H].
        destruct (outTmp_out timeString t) as (u' & v' & E'). rewrite E' in H. discriminate H.
    + destruct (bucketName_inter t2 i) as (u & v & E). rewrite E in H. by apply published_not_dot in H.
  - intros i Hi. exact (change_inter t b fs fs' (Id t2) i Hid Hid2 Hc (A3 i Hi)).
Qed.

Lemma reduce_agree_stable t b (fs fs' : FS) t2 V :
  0 <= Id t -> change t b fs fs' -> (Type_ t = ReduceTask -> Id t <> Id t2) ->
  (forall x, x ∈ FileNames t2 -> exists j i, 0 <= j /\ x = intermediateFile j i /\ right_inter fs j i) ->
  reduce_agree t2 V fs -> reduce_agree t2 V fs'.
Proof.
  intros Hid Hc Hne Hf A x Hx. rewrite (A x Hx). symmetry. destruct Hx as [Hx|[->| ->]].
  - destruct (Hf x Hx) as (j & i & Hj & -> & Hr). pose proof (change_inter t b fs fs' j i Hid Hj Hc Hr) as Hr'.
    destruct Hr as (_ & kvs & Hk & ->). destruct Hr' as (_ & kvs' & Hk' & ->). by simplify_eq.
  - destruct (Hc (outTmp timeString t2)) as [E|[H|H]]; [done|exfalso..].
    + destruct (outTmp_out timeString t2) as (u & v & E). unfold may_change in H. destruct (Type_ t) eqn:Hty; try done.
      * rewrite E in H. destruct H as [(k & H)|(name & k & H)]; [destruct (bucketName_inter t k) as (u' & v' & E')|
          destruct (staleName_inter timeString t name k) as (u' & v' & E')]; rewrite E' in H; discriminate H.
      * destruct H as [H|[_ H]]; [by apply (Hne eq_refl), eq_sym, (outTmp_fresh timeString)|]. rewrite E in H. by apply dot_not_out in H.
    + destruct (outTmp_out timeString t2) as (u & v & E). rewrite E in H. by apply published_not_out in H.
  - destruct (Hc (outName (Id t2))) as [E|[H|H]]; [done|exfalso..].
    + apply change_out in H as (Hty & _ & H). by apply Hne.
    + by apply (published_not_out t fs' (pretty (Id t2))) in H.
Qed.

(** ** The job *)

Lemma change_job mr (fs fs' : FS) rs t b :
  0 <= Id t -> change t b fs fs' -> (Type_ t = ReduceTask -> b = false -> ~ reduce_reported (mkJob mr fs rs) (Id t)) ->
  Forall (completed_reported (mkJob mr fs rs)) (reduceTasks (coord mr)) ->
  job_inv red files kss nR fs0 (mkJob mr fs rs) -> job_inv red files kss nR fs0 (mkJob mr fs' rs).
Proof.
  intros Hid Hc Hnr Hcr [Ht Hi Hsh Hm Hr Hh Hrep]. simpl in *.
  assert (forall j, 0 <= j -> inter_ok fs j -> inter_ok fs' j) as Hinter.
  { intros j Hj. rewrite !right_inter_ok. intros H i H1 H2. eapply change_inter; eauto. }
  assert (forall i, (Type_ t = ReduceTask -> b = false -> i <> Id t) -> out_ok fs i -> out_ok fs' i) as Hout.
  { intros i Hne (text & Htx & Ho). exists text. split; [|done]. rewrite -Htx. destruct (Hc (outName i)) as [E|[H|H]]; [done|exfalso..].
    - apply change_out in H as (H1 & H2 & H3). by apply Hne.
    - by apply (published_not_out t fs' (pretty i)) in H. }
  constructor; simpl; try done.
  - intros x Hx. rewrite (change_public _ _ _ _ _ Hc Hx). by apply Hi.
  - rewrite Forall_forall in Hm. apply Forall_forall. intros x Hx. destruct (Hm x Hx) as [Hn Hok]. split; [done|]. intros Hst.
    destruct (map_shapes_elem files nR _ _ Hsh Hx Hn) as (j & f & _ & [= _ Hj _] & _). apply Hinter; [lia|auto].
  - rewrite Forall_forall in Hr. rewrite Forall_forall in Hcr. apply Forall_forall. intros x Hx Hst. apply Hout; [|by apply Hr].
    intros H1 H2 E. apply (Hnr H1 H2). rewrite -E. by apply Hcr.
  - rewrite Forall_forall in Hrep. rewrite Forall_forall in Hh. apply Forall_forall. intros r Hrin.
    destruct (Hrep r Hrin) as (t0 & Ht0 & -> & H1 & H2). exists t0. split_and!; [done|done|..].
    + intros Hty0. destruct (proj1 (Hh t0 Ht0) Hty0) as (j & f & _ & [= _ Hj _] & _). apply Hinter; [lia|auto].
    + intros Hty0. apply Hout; [|auto]. intros H3 H4 E. apply (Hnr H3 H4). exists (set_State t0 Completed). by rewrite -E.
Qed.
End facts.
