(* ===== verification/MRConcurrentJob.v ===== *)
(** * MRConcurrentJob: the invariant of interleaved workers and the output of their job *)

From S2P Require Import Prelude GoStrings MRCoordinator MRFacts MRWorker MRGroup MRNames MRHandlers MRJob MRApps MRTestApps MRCrash MRPrograms MRConcurrent MRConcurrentFacts.
Local Open Scope Z_scope.
Local Open Scope list_scope.

(** ** Start times

    A map task is given out again only when its time is over, so no two workers
    have it with the same start time: their temporary files differ. *)

Record fresh_starts (s : MRState) : Prop := {
  fr_distinct : forall k k' t t', handed s !! k = Some t -> handed s !! k' = Some t' ->
    Type_ t = MapTask -> Type_ t' = MapTask -> Id t = Id t' -> StartTime t = StartTime t' -> k = k';
  fr_bound : forall t, t ∈ handed s -> Type_ t = MapTask ->
    exists x, x ∈ mapTasks (coord s) /\ Id x = Id t /\ State x <> Idle /\ StartTime t <= StartTime x;
}.

Lemma fresh_other c hs t c' :
  fresh_starts (mkMRState c hs) -> mapTasks c' = mapTasks c -> Type_ t <> MapTask -> fresh_starts (mkMRState c' (hs ++ [t])).
Proof.
  intros [F1 F2] Hm Hty. constructor; simpl in *.
  - intros k k' x x' Hk Hk' Hx Hx'. apply lookup_app_Some in Hk as [Hk|[_ Hk]], Hk' as [Hk'|[_ Hk']]; [by eapply F1|..];
      apply list_lookup_singleton_Some in Hk' as [_ <-] || apply list_lookup_singleton_Some in Hk as [_ <-]; done.
  - intros x [Hx|Hx%list_elem_of_singleton]%elem_of_app Hxt; [|by subst]. rewrite Hm. by apply F2.
Qed.

Lemma fresh_give now c hs l1 x l2 :
  fresh_starts (mkMRState c hs) -> mapTasks c = l1 ++ x :: l2 -> NoDup (Id <$> mapTasks c) -> available now x = true ->
  fresh_starts (mkMRState (set_mapTasks c (l1 ++ started now x :: l2)) (hs ++ [started now x])).
Proof.
  intros [F1 F2] Hm Hnd Ha. simpl in *.
  assert (forall y, y ∈ hs -> Type_ y = MapTask -> Id y = Id x -> StartTime y < now) as Hlt.
  { intros y Hy Hty Hid. destruct (F2 y Hy Hty) as (z & Hz & Hzid & Hst & Hle).
    assert (z = x) as ->.
    { rewrite Hm in Hz Hnd. apply list_elem_of_lookup_1 in Hz as [k Hk].
      assert ((l1 ++ x :: l2) !! length l1 = Some x) as Hx by by apply list_lookup_middle.
      assert (k = length l1) as ->; [|congruence]. apply (NoDup_lookup _ _ _ (Id x) Hnd); rewrite list_lookup_fmap ?Hk ?Hx //=. congruence. }
    unfold available in Ha. rewrite (bool_decide_false (State x = Idle)) // in Ha. apply andb_true_iff in Ha as [_ Ha%bool_decide_eq_true].
    unfold TaskTimeout, Second in Ha. lia. }
  constructor; simpl.
  - intros k k' y y' Hk Hk' Hy Hy' Hid Hst. apply lookup_app_Some in Hk as [Hk|[Hge Hk]], Hk' as [Hk'|[Hge' Hk']].
    + exact (F1 k k' y y' Hk Hk' Hy Hy' Hid Hst).
    + apply list_lookup_singleton_Some in Hk' as [_ <-]. simpl in *. apply list_elem_of_lookup_2 in Hk.
      specialize (Hlt y Hk Hy Hid). lia.
    + apply list_lookup_singleton_Some in Hk as [_ <-]. simpl in *. apply list_elem_of_lookup_2 in Hk'.
      specialize (Hlt y' Hk' Hy' (eq_sym Hid)). lia.
    + apply list_lookup_singleton_Some in Hk as [? _], Hk' as [? _]. lia.
  - intros y [Hy|Hy%list_elem_of_singleton]%elem_of_app Hty.
    + destruct (F2 y Hy Hty) as (z & Hz & Hzid & Hst & Hle). rewrite Hm in Hz. apply elem_of_app in Hz as [Hz|[Hz|Hz]%elem_of_cons].
      * exists z. split_and!; try done. apply elem_of_app. by left.
      * subst z. exists (started now x). split_and!; [apply elem_of_app; right; left|done|done|]. simpl.
        pose proof (Hlt y Hy Hty ltac:(congruence)). lia.
      * exists z. split_and!; try done. apply elem_of_app. right. by right.
    + subst y. exists (started now x). split_and!; [apply elem_of_app; right; left|done|done|lia].
Qed.

Lemma fresh_done c hs id c' :
  fresh_starts (mkMRState c hs) -> mapTasks c' = markCompleted id (mapTasks c) \/ mapTasks c' = mapTasks c ->
  fresh_starts (mkMRState c' hs).
Proof.
  intros [F1 F2] Hm. constructor; simpl in *; [done|]. intros t Ht Hty. destruct (F2 t Ht Hty) as (x & Hx & Hid & Hst & Hle).
  destruct Hm as [-> | ->]; [|by exists x]. destruct (markCompleted_spec id (mapTasks c)) as [[-> _]|(l1 & y & l2 & E & _ & _ & ->)].
  - by exists x.
  - rewrite E in Hx. apply elem_of_app in Hx as [Hx|[->|Hx]%elem_of_cons].
    + exists x. split_and!; try done. apply elem_of_app. by left.
    + exists (set_State y Completed). split_and!; try done. apply elem_of_app. right. left.
    + exists x. split_and!; try done. apply elem_of_app. right. by right.
Qed.

(** ** The invariant *)

Section job.
Context (timeString : Z -> string) `{HKS : !KeySort}.
Context (mapf : string -> string -> outcome (list KeyValue)) (reducef : string -> list string -> outcome string).
Context (red : string -> list string -> string) (files : list string) (kss : list (list KeyValue)) (nR : Z) (fs0 : FS).

(** A running worker follows a run of its own. *)
Definition follows (fs : FS) (rs : list Task) (t : Task) (p : prog unit) : Prop :=
  match Type_ t with
  | MapTask => exists V b, map_agree kss nR t V fs /\ traced (map_op timeString kss nR t) b p V
  | ReduceTask => exists V b, reduce_agree timeString t V fs /\ traced (reduce_op timeString red kss nR t) b p V /\
      (b = false -> forall r, r ∈ rs -> Type_ r = ReduceTask -> Id r <> Id t)
  | _ => False
  end.

Record conc_inv (w : World) : Prop := {
  cc_job : crash_inv red files kss nR fs0 (job_of w);
  cc_fresh : fresh_starts (w_mr w);
  cc_len : length (w_threads w) = length (handed (w_mr w));
  cc_alone : forall k k' t t' p p', handed (w_mr w) !! k = Some t -> handed (w_mr w) !! k' = Some t' ->
    w_threads w !! k = Some p -> w_threads w !! k' = Some p' -> running p = true -> running p' = true ->
    Type_ t = ReduceTask -> Type_ t' = ReduceTask -> Id t = Id t' -> k = k';
  cc_follows : forall k t p, handed (w_mr w) !! k = Some t -> w_threads w !! k = Some p -> running p = true ->
    follows (w_fs w) (w_reports w) t p;
}.

Hypothesis Hset : job_setup mapf reducef red files kss nR fs0.
Hypothesis Hspace : forall z, spaceless (timeString z) = false.

Lemma init_conc_inv : conc_inv (w_init files nR fs0).
Proof. constructor; try done; [split; [apply init_job_inv|done]|]. constructor; [done|]. by intros t ?%elem_of_nil. Qed.

Lemma crash_inv_step s s' :
  crash_inv red files kss nR fs0 s -> job_step timeString mapf reducef s s' -> crash_inv red files kss nR fs0 s'.
Proof.
  intros HI Hs. split; [|by apply (job_step_reported timeString mapf reducef red files kss nR fs0 s)].
  destruct HI as [HI _]. destruct Hset as [H1 H2 H3 H4 H5 H6].
  exact (job_step_inv timeString mapf reducef red files kss nR fs0 H1 H2 H3 H4 H5 H6 s s' HI Hs).
Qed.

(** What is known of the task of a worker. *)
Lemma handed_facts s t :
  job_inv red files kss nR fs0 s -> t ∈ handed (j_mr s) -> Type_ t = MapTask \/ Type_ t = ReduceTask ->
  0 <= Id t /\ (Type_ t = MapTask -> map_shape files nR t /\ Forall (fun x => private x = false) (FileNames t)) /\
  (Type_ t = ReduceTask -> reduce_shape files nR t /\ (forall j, (j < length files)%nat -> inter_ok kss nR (j_fs s) (Z.of_nat j)) /\
    forall x, x ∈ FileNames t -> exists j i, 0 <= j /\ x = intermediateFile j i /\ right_inter kss nR (j_fs s) j i).
Proof.
  intros HI Hin Hty. pose proof (jv_handed _ _ _ _ _ _ HI) as Hh. rewrite Forall_forall in Hh. destruct (Hh t Hin) as [Hm Hr].
  destruct Hset as [_ HnR _ Hpub Hinp _].
  assert (Type_ t = ReduceTask -> forall j, (j < length files)%nat -> inter_ok kss nR (j_fs s) (Z.of_nat j)) as Hall.
  { intros Hrt j Hj. apply (all_inter red files kss nR fs0); [done| |done]. intros Hp.
    destruct (mi_before _ _ (mr_reachable_inv _ _ _ (timely_reachable _ _ _ (jv_timely _ _ _ _ _ _ HI))) Hp) as [_ Hmt].
    rewrite Forall_forall in Hmt. specialize (Hmt t Hin). simpl in Hmt. congruence. }
  split; [|split].
  - destruct Hty as [Hty|Hty]; [destruct (Hm Hty) as (j & f & _ & [= _ -> _] & _)|destruct (Hr Hty) as (i & Hi & [= _ -> _])]; lia.
  - intros Hmt. split; [by apply Hm|]. destruct (Hm Hmt) as (j & f & Hj & [= _ _ ->] & _). constructor; [|done].
    exact (Forall_lookup_1 _ _ _ _ Hpub Hj).
  - intros Hrt. split; [by apply Hr|]. split; [by apply Hall|]. intros x. destruct (Hr Hrt) as (i & Hi & [= _ _ ->]).
    unfold partition_files. intros (j & -> & Hj%elem_of_seqZ)%list_elem_of_fmap. exists j, i. split; [lia|]. split; [done|].
    assert ((Z.to_nat j < length files)%nat) as Hlt by (unfold len in Hj; lia).
    specialize (Hall Hrt (Z.to_nat j) Hlt). rewrite Z2Nat.id in Hall; [lia|]. rewrite right_inter_ok in Hall. apply Hall; [done|].
    apply lookup_lt_is_Some_2. by rewrite -(Forall2_length _ _ _ Hinp).
Qed.

(** A new worker starts on the files as they are. *)
Lemma start_follows s t rs :
  job_inv red files kss nR fs0 s -> t ∈ handed (j_mr s) ->
  (Type_ t = ReduceTask -> forall r, r ∈ rs -> Type_ r = ReduceTask -> Id r <> Id t) ->
  running (handleProg timeString mapf reducef t) = true -> follows (j_fs s) rs t (handleProg timeString mapf reducef t).
Proof.
  intros HI Hin Hnr Hrun. unfold follows. destruct (Type_ t) eqn:Hty; try by rewrite /handleProg Hty in Hrun.
  - destruct (handed_facts s t HI Hin (or_introl Hty)) as (_ & Hm & _). exists (j_fs s), false. split; [done|].
    apply (map_traced timeString mapf reducef red files kss nR fs0 Hset); [done|by apply Hm|apply HI].
  - destruct (handed_facts s t HI Hin (or_intror Hty)) as (_ & _ & Hr). exists (j_fs s), false. split; [done|].
    split; [|by intros _; apply Hnr].
    apply (reduce_traced timeString mapf reducef red files kss nR fs0 Hset); [done|by apply Hr|by apply Hr].
Qed.

Lemma map_ids_nodup s : job_inv red files kss nR fs0 s -> NoDup (Id <$> mapTasks (coord (j_mr s))).
Proof.
  intros [_ _ Hsh _ _ _ _]. assert (Id <$> mapTasks (coord (j_mr s)) = seqZ 0 (len files)) as ->; [|apply NoDup_seqZ].
  apply list_eq. intros k. apply (f_equal (fun l => l !! k)) in Hsh. rewrite list_lookup_fmap in Hsh.
  unfold map_shapes in Hsh. rewrite list_lookup_imap in Hsh. rewrite list_lookup_fmap.
  destruct (mapTasks (coord (j_mr s)) !! k) as [x|], (files !! k) as [f|] eqn:Hf; simplify_eq/=.
  - apply lookup_lt_Some in Hf. rewrite lookup_seqZ_lt; [unfold len; lia|]. injection Hsh as _ -> _. done.
  - apply lookup_ge_None in Hf. rewrite lookup_seqZ_ge; [unfold len; lia|]. done.
Qed.

Lemma get_fresh s now c r :
  job_inv red files kss nR fs0 s -> fresh_starts (j_mr s) -> HandleGetTaskRequest now (coord (j_mr s)) = (r, c) ->
  fresh_starts (mkMRState c (handed (j_mr s) ++ option_list r)).
Proof.
  intros HI HF Hg. pose proof (map_ids_nodup s HI) as Hnd. destruct (j_mr s) as [c0 hs] eqn:Es. simpl in *.
  pose proof (mr_reachable_inv _ _ _ (timely_reachable _ _ _ (jv_timely _ _ _ _ _ _ HI))) as HM. rewrite Es in HM.
  unfold HandleGetTaskRequest in Hg. destruct (c_phase c0).
  - destruct (findAvailableTask_spec now (mapTasks c0)) as [[E _]|(l1 & x & l2 & Hm & _ & Ha & E)]; rewrite E in Hg; injection Hg as <- <-.
    + simpl. rewrite app_nil_r. apply (fresh_done c0 hs 0); [done|by right].
    + by apply fresh_give.
  - destruct (findAvailableTask now (reduceTasks c0)) as [r' ts] eqn:Hf. injection Hg as <- <-.
    destruct (findAvailable_Forall (fun t => Type_ t = ReduceTask) now _ _ _ (fun _ H => H) Hf (mi_reduce_types _ _ HM)) as [_ Hr].
    destruct r' as [t|]; simpl.
    + apply (fresh_other c0); [done|done|]. by rewrite (Hr t eq_refl).
    + rewrite app_nil_r. apply (fresh_done c0 hs 0); [done|by right].
  - injection Hg as <- <-. by apply (fresh_other c0).
Qed.

Lemma lookup_snoc {A} (l : list A) x k y : (l ++ [x]) !! k = Some y -> l !! k = Some y \/ k = length l /\ y = x.
Proof.
  intros [H|[Hge H]]%lookup_app_Some; [by left|]. apply list_lookup_singleton_Some in H as [? ->]. right. split; [lia|done].
Qed.

Lemma get_conc w now w' :
  conc_inv w -> orderly w (WGet now) -> w_step timeString mapf reducef (WGet now) w = Some w' -> conc_inv w'.
Proof.
  intros [HJ HF Hl Ha Hf] Ho Hs. simpl in Ho, Hs. destruct (HandleGetTaskRequest now (coord (w_mr w))) as [r c] eqn:Hg.
  injection Hs as <-. set (mr := mkMRState c (handed (w_mr w) ++ option_list r)).
  assert (crash_inv red files kss nR fs0 (mkJob mr (w_fs w) (w_reports w))) as HJ'.
  { apply (crash_inv_step (job_of w)); [done|]. apply (job_get _ _ _ (job_of w) now). simpl. by rewrite Hg. }
  pose proof (get_fresh (job_of w) now c r (ci_job _ _ _ _ _ _ HJ) HF Hg) as HF'.
  destruct r as [t|]; cycle 1.
  { simpl in *. constructor; simpl; rewrite ?app_nil_r; try done; by rewrite app_nil_r in HJ', HF'. }
  simpl in *. constructor; simpl; [done|done|rewrite !length_app; simpl; lia|..].
  - intros k k' x x' p p' Hk Hk' Hp Hp' Hrp Hrp' Hx Hx' Hid.
    apply lookup_snoc in Hk as [Hk|[-> ->]], Hk' as [Hk'|[-> ->]], Hp as [Hp|[Ep ->]], Hp' as [Hp'|[Ep' ->]]; try lia;
      try (apply lookup_lt_Some in Hk; lia); try (apply lookup_lt_Some in Hk'; lia);
      try (apply lookup_lt_Some in Hp; lia); try (apply lookup_lt_Some in Hp'; lia).
    + exact (Ha k k' x x' p p' Hk Hk' Hp Hp' Hrp Hrp' Hx Hx' Hid).
    + destruct (Ho Hx') as [_ Hno]. by rewrite (Hno k x p Hk Hp Hx Hid) in Hrp.
    + destruct (Ho Hx) as [_ Hno]. by rewrite (Hno k' x' p' Hk' Hp' Hx' (eq_sym Hid)) in Hrp'.
  - intros k x p Hk Hp Hrp. apply lookup_snoc in Hk as [Hk|[-> ->]], Hp as [Hp|[Ep ->]].
    + by apply (Hf k).
    + apply lookup_lt_Some in Hk. lia.
    + apply lookup_lt_Some in Hp. lia.
    + apply (start_follows (mkJob mr (w_fs w) (w_reports w))); [apply HJ'| |by intros Hx; apply Ho|done].
      apply elem_of_app. right. left.
Qed.

(** ** One operation of one worker *)

Definition effect (s : JobState) (t : Task) (o : op) (p : reply o -> prog unit) : Prop :=
  exists b, change timeString kss nR t b (j_fs s) (exec o (j_fs s)).1 /\
    (Type_ t = ReduceTask -> b = false -> ~ reduce_reported s (Id t)) /\
    Forall (fun r => r = set_State t Completed /\ report_ok red kss nR (handed (j_mr s)) (j_fs s) r) (sent o) /\
    follows (exec o (j_fs s)).1 (j_reports s ++ sent o) t (p (exec o (j_fs s)).2).

Lemma op_effect s t o p :
  job_inv red files kss nR fs0 s -> t ∈ handed (j_mr s) -> follows (j_fs s) (j_reports s) t (Do o p) -> effect s t o p.
Proof.
  intros HI Hin Hfo. unfold follows in Hfo. unfold effect, follows. destruct (Type_ t) eqn:Hty; try done.
  - destruct Hfo as (V & b & Hag & Hop & Htr). exists b.
    destruct (handed_facts s t HI Hin (or_introl Hty)) as (Hid & Hm & _).
    destruct (map_op_step timeString kss nR t b o V (j_fs s) Hty Hid Hag Hop) as (Hr & Hag' & Hc).
    split; [done|]. split; [done|]. split; [|exists (exec o V).1, (b || notifies o); split; [done|]; by rewrite -Hr].
    destruct o; simpl; constructor; try done. destruct Hop as [-> Hio]. split; [done|]. exists t. split_and!; [done|done| |by rewrite Hty].
    intros _. apply right_inter_ok. intros i Hi Hk. apply (proj2 (proj2 Hag)). rewrite right_inter_ok in Hio. by apply Hio.
  - destruct Hfo as (V & b & Hag & [Hop Htr] & Hnr). exists b.
    destruct (reduce_op_step timeString red kss nR t b o V (j_fs s) Hty Hag Hop) as (Hr & Hag' & Hc).
    split; [done|]. split; [|split].
    + intros _ Hb (r & Hin' & Ht & Hid). by apply (Hnr Hb r).
    + destruct o; simpl; constructor; try done. destruct Hop as (_ & -> & Ho). split; [done|]. exists t.
      split_and!; [done|done|by rewrite Hty|]. intros _. destruct Ho as (text & Htx & Ho). exists text. split; [|done].
      rewrite -Htx. symmetry. apply Hag. by right; right.
    + exists (exec o V).1, (b || notifies o). split; [done|]. split; [by rewrite -Hr|].
      intros [Hb Hn]%orb_false_iff r Hr'. apply (Hnr Hb). destruct o; simpl in *; by rewrite ?app_nil_r in Hr'.
Qed.

Lemma follows_stable s t b (fs' : FS) t2 p2 rs :
  job_inv red files kss nR fs0 s -> t ∈ handed (j_mr s) -> t2 ∈ handed (j_mr s) ->
  Type_ t = MapTask \/ Type_ t = ReduceTask ->
  change timeString kss nR t b (j_fs s) fs' -> Forall (fun r => r = set_State t Completed) rs ->
  (Type_ t = MapTask -> Type_ t2 = MapTask -> Id t = Id t2 -> StartTime t <> StartTime t2) ->
  (Type_ t = ReduceTask -> Type_ t2 = ReduceTask -> Id t <> Id t2) ->
  follows (j_fs s) (j_reports s) t2 p2 -> follows fs' (j_reports s ++ rs) t2 p2.
Proof.
  intros HI Hin Hin2 Hty Hc Hrs Hne1 Hne2 Hfo. destruct (handed_facts s t HI Hin Hty) as (Hid & _).
  unfold follows in *. destruct (Type_ t2) eqn:Hty2; try done.
  - destruct (handed_facts s t2 HI Hin2 (or_introl Hty2)) as (Hid2 & Hm & _). destruct Hfo as (V & b2 & Hag & Htr).
    exists V, b2. split; [|done].
    apply (map_agree_stable timeString kss nR Hspace t b (j_fs s) fs' t2 V); try done; [by intros H; apply Hne1|by apply Hm].
  - destruct (handed_facts s t2 HI Hin2 (or_intror Hty2)) as (_ & _ & Hr). destruct Hfo as (V & b2 & Hag & Htr & Hnr).
    exists V, b2. split; [|split; [done|]].
    + apply (reduce_agree_stable timeString kss nR t b (j_fs s) fs' t2 V); try done; [by intros H; apply Hne2|by apply Hr].
    + intros Hb r [Hr'|Hr']%elem_of_app Hrt; [by apply Hnr|]. rewrite Forall_forall in Hrs. rewrite (Hrs r Hr') in Hrt |- *. by apply Hne2.
Qed.

(** The reports of an operation join the others. *)
Lemma job_inv_reports mr fs rs rs' :
  job_inv red files kss nR fs0 (mkJob mr fs rs) -> Forall (report_ok red kss nR (handed mr) fs) rs' ->
  job_inv red files kss nR fs0 (mkJob mr fs (rs ++ rs')).
Proof. intros [Ht Hi Hsh Hm Hr Hh Hrep] Hrs. constructor; simpl in *; try done. by apply Forall_app. Qed.

Lemma more_reports mr fs fs' rs rs' ts :
  Forall (completed_reported (mkJob mr fs rs)) ts -> Forall (completed_reported (mkJob mr fs' (rs ++ rs'))) ts.
Proof.
  intros H. eapply Forall_impl; [exact H|]. intros x Hx Hst. destruct (Hx Hst) as (r & Hr & H1). exists r. split; [|done].
  apply elem_of_app. by left.
Qed.

(** A list of programs with one replaced. *)
Lemma lookup_replaced {A} (l : list A) k x j y : <[k := x]> l !! j = Some y -> (j = k /\ y = x) \/ (j <> k /\ l !! j = Some y).
Proof.
  destruct (decide (j = k)) as [->|Hne]; [|rewrite list_lookup_insert_ne; [by apply not_eq_sym|]; by right].
  intros H. left. split; [done|]. assert (k < length l)%nat by (apply lookup_lt_Some in H; by rewrite length_insert in H).
  rewrite list_lookup_insert_eq in H; [done|]. congruence.
Qed.

Lemma op_conc w k o p :
  conc_inv w -> w_threads w !! k = Some (Do o p) ->
  conc_inv (mkWorld (w_mr w) (exec o (w_fs w)).1 (w_reports w ++ sent o) (<[k := p (exec o (w_fs w)).2]> (w_threads w))).
Proof.
  intros [HJ HF Hl Ha Hf] Hk. destruct (lookup_lt_is_Some_2 (handed (w_mr w)) k) as [t Ht].
  { rewrite -Hl. by apply lookup_lt_Some in Hk. }
  pose proof (Hf k t _ Ht Hk eq_refl) as Hfo. pose proof (ci_job _ _ _ _ _ _ HJ) as HI.
  assert (t ∈ handed (w_mr w)) as Hin by by apply list_elem_of_lookup_2 in Ht.
  destruct (op_effect (job_of w) t o p HI Hin Hfo) as (b & Hc & Hnr & Hs & Hfo').
  assert (Type_ t = MapTask \/ Type_ t = ReduceTask) as Hty by (unfold follows in Hfo; destruct (Type_ t); auto; done).
  destruct (handed_facts (job_of w) t HI Hin Hty) as (Hid & _). simpl in *.
  constructor; simpl; [split| done |by rewrite length_insert|..].
  - apply job_inv_reports.
    + by apply (change_job timeString red files kss nR fs0 (w_mr w) (w_fs w) _ (w_reports w) t b); [..|apply HJ|].
    + destruct o; try done. eapply Forall_impl; [exact Hs|]. by intros r [_ ?].
  - apply more_reports with (fs := w_fs w), HJ.
  - intros j j' x x' q q' Hj Hj' Hq Hq' Hrq Hrq'.
    assert (forall j q, <[k := p (exec o (w_fs w)).2]> (w_threads w) !! j = Some q -> running q = true ->
      exists q0, w_threads w !! j = Some q0 /\ running q0 = true) as Hold.
    { intros i q0 [[-> ->]|[_ H]]%lookup_replaced Hr; [by exists (Do o p)|by exists q0]. }
    destruct (Hold j q Hq Hrq) as (q0 & Hq0 & Hr0), (Hold j' q' Hq' Hrq') as (q0' & Hq0' & Hr0'). by apply (Ha j j' x x' q0 q0').
  - intros j x q Hj [[-> ->]|[Hne Hq]]%lookup_replaced Hrq; [by rewrite Ht in Hj; injection Hj as <-|].
    apply (follows_stable (job_of w) t b _ x q (sent o)); try done.
    + by apply list_elem_of_lookup_2 in Hj.
    + eapply Forall_impl; [exact Hs|]. by intros r [? _].
    + intros H1 H2 H3 H4. apply Hne. exact (fr_distinct _ HF j k x t Hj Ht H2 H1 (eq_sym H3) (eq_sym H4)).
    + intros H1 H2 H3. apply Hne. exact (Ha j k x t q _ Hj Ht Hq Hk Hrq eq_refl H2 H1 (eq_sym H3)).
    + by apply (Hf j).
Qed.

Lemma kill_conc w k :
  conc_inv w -> conc_inv (mkWorld (w_mr w) (w_fs w) (w_reports w) (<[k := killed_prog]> (w_threads w))).
Proof.
  intros [HJ HF Hl Ha Hf].
  assert (forall j q, <[k := killed_prog]> (w_threads w) !! j = Some q -> running q = true -> w_threads w !! j = Some q) as Hold.
  { by intros j q [[-> ->]|[_ H]]%lookup_replaced. }
  constructor; simpl; [done|done|by rewrite length_insert|..].
  - intros j j' x x' q q' Hj Hj' Hq Hq' Hrq Hrq'.
    exact (Ha j j' x x' q q' Hj Hj' (Hold j q Hq Hrq) (Hold j' q' Hq' Hrq') Hrq Hrq').
  - intros j x q Hj Hq Hrq. exact (Hf j x q Hj (Hold j q Hq Hrq) Hrq).
Qed.

Lemma report_conc w t mr :
  conc_inv w -> t ∈ w_reports w -> timely (w_mr w) (RTaskDone t) -> mr_step (w_mr w) (RTaskDone t) = Ret mr ->
  conc_inv (mkWorld mr (w_fs w) (w_reports w) (w_threads w)).
Proof.
  intros [HJ HF Hl Ha Hf] Hin Hti Hs.
  assert (crash_inv red files kss nR fs0 (mkJob mr (w_fs w) (w_reports w))) as HJ'.
  { apply (crash_inv_step (job_of w)); [done|]. by apply (job_report _ _ _ (job_of w) t). }
  simpl in Hs. inv_ret.
  assert (mapTasks v = markCompleted (Id t) (mapTasks (coord (w_mr w))) \/ mapTasks v = mapTasks (coord (w_mr w))) as Hmt.
  { unfold TaskDone in Hm. destruct (Type_ t); inv_ret; [by right| |unfold TaskDoneReduce; right; by destruct (allCompleted _)|by right].
    pose proof (TaskDoneMap_spec (coord (w_mr w)) t) as Hd. cbv zeta in Hd.
    left. destruct (allCompleted _); [destruct Hd as (ts & Hd & _)|]; rewrite Hd in Hm; by inv_ret. }
  constructor; simpl; try done. apply (fresh_done (coord (w_mr w)) _ (Id t)); [by destruct (w_mr w)|done].
Qed.

Lemma w_reachable_inv w : w_reachable timeString mapf reducef files nR fs0 w -> conc_inv w.
Proof.
  revert w. apply (rtc_ind_r conc_inv (w_init files nR fs0)); [apply init_conc_inv|].
  intros w w' _ (e & Ho & Hs) HC. destruct e as [now|k|k|t].
  - exact (get_conc w now w' HC Ho Hs).
  - simpl in Hs. destruct (w_threads w !! k) as [[| |o p]|] eqn:Hk; try done.
    pose proof (op_conc w k o p HC Hk) as HC'. destruct (exec o (w_fs w)) as [fs r]. by injection Hs as <-.
  - injection Hs as <-. by apply kill_conc.
  - unfold w_step in Hs. case_bool_decide as Hin; [|done]. destruct (mr_step (w_mr w) (RTaskDone t)) as [mr|] eqn:Hmr; [|done].
    injection Hs as <-. by apply (report_conc w t mr).
Qed.
End job.

(** The output of a finished job. *)
Lemma concurrent_output (timeString : Z -> string) (HKS : KeySort) mapf reducef red files kss nR fs0 w :
  job_setup mapf reducef red files kss nR fs0 -> order_free red ->
  (forall z, spaceless (timeString z) = false) ->
  w_reachable timeString mapf reducef files nR fs0 w -> Done (coord (w_mr w)) = true ->
  exists (fsq : FS) (L : list string) (Ls : list (list string)),
    sequential mapf reducef files fs0 = (fsq, inl tt) /\ fsq !! outName 0 = Some (concat_str L) /\
    length Ls = Z.to_nat nR /\
    (forall i l, Ls !! i = Some l -> w_fs w !! outName (Z.of_nat i) = Some (concat_str l)) /\
    concat Ls ≡ₚ L /\ L ≡ₚ result red (concat kss).
Proof.
  intros Hset Hof Hsp Hr Hd. apply output_is_sequential; [done|done|]. intros i Hi.
  apply (done_out_ok red files kss nR fs0 (js_nR _ _ _ _ _ _ _ Hset) (job_of w) i); [|done|done].
  apply ci_job. exact (cc_job _ _ _ _ _ _ _ (w_reachable_inv timeString mapf reducef red files kss nR fs0 Hset Hsp w Hr)).
Qed.

(** C22. Workers whose file operations interleave in any way, some of which are
    killed at any point, compute what the sequential program computes: when the job is
    done its output files hold, together, the lines of mr-out-0.  The condition
    [orderly] on the run: a reduce task is given to another worker only if the
    earlier one was killed before it reported (map tasks may be executed by
    several workers at the same time), and map tasks are not reported after the
    map phase. *)
Theorem concurrent_job_is_sequential (timeString : Z -> string) (HKS : KeySort) mapf reducef red files kss nR fs0 w :
  job_setup mapf reducef red files kss nR fs0 -> order_free red ->
  (forall z, spaceless (timeString z) = false) ->
  w_reachable timeString mapf reducef files nR fs0 w -> Done (coord (w_mr w)) = true ->
  exists (fsq : FS) (L : list string) (Ls : list (list string)),
    sequential mapf reducef files fs0 = (fsq, inl tt) /\ fsq !! outName 0 = Some (concat_str L) /\
    length Ls = Z.to_nat nR /\
    (forall i l, Ls !! i = Some l -> w_fs w !! outName (Z.of_nat i) = Some (concat_str l)) /\
    concat Ls ≡ₚ L /\ L ≡ₚ result red (concat kss).
Proof. exact (concurrent_output timeString HKS mapf reducef red files kss nR fs0 w). Qed.
