(* ===== verification/MRRace.v ===== *)
(** * MRRace: runs of interleaved workers, and the applications

    A run with two executions of one map task at the same time and two killed
    workers, which satisfies the conditions of [concurrent_job_is_sequential];
    and a run without any failure, in which a slow worker replaces the output of
    a job that is done by an incomplete one.  Then what the jobs of the
    applications have computed when they are done. *)

From S2P Require Import Prelude GoStrings GoRunes MRCoordinator MRFacts MRWorker MRGroup MRNames MRHandlers MRJob MRApps MRTestApps MRCrash MRPrograms MRConcurrent MRConcurrentFacts MRConcurrentJob.
Local Open Scope Z_scope.
Local Open Scope list_scope.

#[local] Existing Instance merge_KeySort.

(** ** Checking the conditions of a run *)

Definition unattendedb (w : World) (i : Z) : bool :=
  forallb (fun r => negb (bool_decide (Type_ r = ReduceTask) && bool_decide (Id r = i))) (w_reports w) &&
  forallb (fun x => negb (bool_decide (Type_ x.1 = ReduceTask) && bool_decide (Id x.1 = i) && running x.2))
    (zip (handed (w_mr w)) (w_threads w)).

Lemma unattendedb_spec w i : unattendedb w i = true -> unattended w i.
Proof.
  intros [H1 H2]%andb_true_iff. rewrite forallb_forall in H1. rewrite forallb_forall in H2. split.
  - intros r Hr Hty Hid. apply list_elem_of_In, H1 in Hr. by rewrite !bool_decide_true in Hr.
  - intros k t p Hk Hp Hty Hid. specialize (H2 (t, p)). simpl in H2. rewrite !bool_decide_true // in H2.
    apply negb_true_iff, H2, list_elem_of_In, (list_elem_of_lookup_2 _ k). by rewrite lookup_zip_with Hk /= Hp.
Qed.

Definition orderlyb (w : World) (e : WEvent) : bool :=
  match e with
  | WGet now =>
      match HandleGetTaskRequest now (coord (w_mr w)) with
      | (Some t, _) => negb (bool_decide (Type_ t = ReduceTask)) || unattendedb w (Id t)
      | _ => true
      end
  | WReport t => bool_decide (timely (w_mr w) (RTaskDone t))
  | _ => true
  end.

Lemma orderlyb_spec w e : orderlyb w e = true -> orderly w e.
Proof.
  destruct e as [now|k|k|t]; simpl; try done; [|by intros H%bool_decide_eq_true].
  destruct (HandleGetTaskRequest _ _) as [[t|] c]; [|done]. intros H Hty. rewrite bool_decide_true // in H. by apply unattendedb_spec.
Qed.

Section checked.
Context (timeString : Z -> string) (mapf : string -> string -> outcome (list KeyValue)) (reducef : string -> list string -> outcome string).

Fixpoint checked_run (es : list WEvent) (w : World) : option World :=
  match es with
  | [] => Some w
  | e :: es => if orderlyb w e then w_step timeString mapf reducef e w ≫= checked_run es else None
  end.

Lemma checked_run_reach es w w' : checked_run es w = Some w' -> rtc (w_rel timeString mapf reducef) w w'.
Proof.
  revert w. induction es as [|e es IH]; intros w; simpl; [intros [= ->]; apply rtc_refl|].
  destruct (orderlyb w e) eqn:Ho; [|done]. destruct (w_step timeString mapf reducef e w) as [w1|] eqn:Hs; [|done]. simpl.
  intros Hr. eapply rtc_l; [exists e; split; [by apply orderlyb_spec|exact Hs]|by apply IH].
Qed.
End checked.

(** ** A job of nocrash.go *)

Definition stamp (z : Z) : string := ("time " +:+ pretty z)%string.

Lemma stamp_space z : spaceless (stamp z) = false.
Proof. done. Qed.

Definition map_report (i start : Z) (file : string) : Task := mkTask MapTask [file] i start Completed 0 1.
Definition reduce_report (start : Z) : Task := mkTask ReduceTask (partition_files 2 0) 0 start Completed 2 1.

Definition ops (k n : nat) : list WEvent := replicate n (WOp k).

(** Workers 0 and 2 execute the first map task at the same time; worker 1 is
    killed in the second map task and worker 4 in the reduce task, after it has
    published the output of its first input file. *)
Definition interleaved : list WEvent :=
  [WGet 0; WGet 1] ++ ops 0 5 ++ ops 1 3 ++ [WKill 1; WGet (20 * Second); WGet (20 * Second)] ++
  ops 2 4 ++ ops 0 2 ++ ops 3 6 ++ ops 2 5 ++ ops 0 2 ++ ops 3 3 ++
  [WReport (map_report 0 0 "pg.txt"); WReport (map_report 1 (20 * Second) "qh.txt"); WGet (30 * Second)] ++
  ops 4 10 ++ [WKill 4; WGet (50 * Second)] ++ ops 5 16 ++ [WReport (reduce_report (50 * Second))].

Definition start_world : World := w_init count_files 1 count_fs.

Definition interleaved_world : World :=
  default start_world (checked_run stamp nocrash_Map nocrash_Reduce interleaved start_world).

Lemma interleaved_reachable : w_reachable stamp nocrash_Map nocrash_Reduce count_files 1 count_fs interleaved_world.
Proof.
  apply (checked_run_reach _ _ _ interleaved).
  assert (match checked_run stamp nocrash_Map nocrash_Reduce interleaved start_world with Some _ => true | None => false end = true) as H
    by (vm_compute; reflexivity).
  unfold interleaved_world. change (w_init count_files 1 count_fs) with start_world. by destruct (checked_run _ _ _ _ _).
Qed.

Lemma concurrent_job_is_sequential_witness :
  Done (coord (w_mr interleaved_world)) = true /\
  exists (fsq : FS) (L : list string) (Ls : list (list string)),
    sequential nocrash_Map nocrash_Reduce count_files count_fs = (fsq, inl tt) /\
    fsq !! outName 0 = Some (concat_str L) /\ length Ls = 1%nat /\
    (forall i l, Ls !! i = Some l -> w_fs interleaved_world !! outName (Z.of_nat i) = Some (concat_str l)) /\
    concat Ls ≡ₚ L /\ L ≡ₚ result crash_red (concat crash_kss).
Proof.
  split; [vm_compute; reflexivity|].
  apply (concurrent_job_is_sequential stamp merge_KeySort nocrash_Map nocrash_Reduce crash_red count_files crash_kss 1 count_fs
    interleaved_world crash_setup crash_order_free stamp_space interleaved_reachable). vm_compute. reflexivity.
Defined.

(** ** A slow worker *)

(** Worker 2 gets the reduce task and does nothing for twenty seconds; worker 3
    gets it too, completes it and the job. *)
Definition slow_worker : list WEvent :=
  [WGet 0; WGet 1] ++ ops 0 9 ++ ops 1 9 ++ [WReport (map_report 0 0 "pg.txt"); WReport (map_report 1 1 "qh.txt");
   WGet (5 * Second); WGet (25 * Second)] ++ ops 3 16 ++ [WReport (reduce_report (25 * Second))].

(** Done, the output, and whether some worker has failed. *)
Definition observe (w : World) : bool * option string * bool :=
  (Done (coord (w_mr w)), w_fs w !! outName 0,
   existsb (fun p => match p with Halt _ => true | _ => false end) (w_threads w)).

(** C25. Without any failure, a slow worker spoils the output of a finished job:
    after the job is done and its output is complete, a worker that was given
    the reduce task first renames the result of its first input file over it,
    and the output misses the values of the second until that worker is through
    with its own second file. *)
Theorem slow_worker_spoils_output :
  let full := concat_str (newline <$> ["a pg.txt qh.txt"; "b 6 6"; "c 1 5"; "d xyzzy xyzzy"]%string) in
  let partial := concat_str (newline <$> ["a pg.txt"; "b 6"; "c 5"; "d xyzzy"]%string) in
  let after es := observe <$> w_run stamp nocrash_Map nocrash_Reduce es start_world in
  after slow_worker = Some (true, Some full, false) /\
  after (slow_worker ++ ops 2 7) = Some (true, Some partial, false) /\
  after (slow_worker ++ ops 2 14) = Some (true, Some full, false).
Proof. split; [|split]; vm_compute; reflexivity. Qed.

(** ** Applications

    What the finished word count and index of interleaved workers contain. *)

Local Open Scope string_scope.

Section jobs.
Context `{!Letters}.

(** The output files of the world [w] together hold the lines. *)
Definition outputs (w : World) (nR : Z) (lines : list string) : Prop :=
  exists Ls : list (list string), length Ls = Z.to_nat nR /\
    (forall i l, Ls !! i = Some l -> w_fs w !! outName (Z.of_nat i) = Some (concat_str l)) /\
    concat Ls ≡ₚ lines.

(** C27. A finished word-count job has counted words: its output files together
    hold one line per word of the input files, with the number of its
    occurrences in all of them.  The file operations of the workers interleave in
    any way and workers are killed at any point; a reduce task is given out
    again only when its worker was killed before it reported, and map tasks are not
    reported after the map phase. *)
Theorem wc_job_counts_words (timeString : Z -> string) (HKS : KeySort) files contents nR fs0 w :
  (0 < nR)%Z -> files <> [] -> Forall (fun f => private f = false) files -> inputs fs0 files contents ->
  Forall (fun w => String.length w + 2 < MaxScanTokenSize)%nat (contents ≫= words) ->
  (forall z, spaceless (timeString z) = false) ->
  w_reachable timeString wc_Map wc_Reduce files nR fs0 w -> Done (coord (w_mr w)) = true ->
  outputs w nR (count_lines (contents ≫= words)).
Proof.
  intros Hn Hf Hp Hi Hw Hsp Hr Hd.
  destruct (concurrent_output timeString HKS _ _ _ files _ nR fs0 w (wc_setup files contents nR fs0 Hn Hf Hp Hi Hw)
    wc_order_free Hsp Hr Hd) as (fsq & L & Ls & _ & _ & Hlen & HLs & HL & HL').
  exists Ls. split_and!; [done|done|]. by rewrite HL HL' wc_result.
Qed.

(** A finished indexing job has indexed its input: one line per word, with the
    number and the sorted names of the files that contain it, whatever the
    order in which maps are visited. *)
Lemma indexer_job_lists_documents (rangeKeys : gset string -> list string) (timeString : Z -> string) (HKS : KeySort)
    files contents nR fs0 w :
  (forall m, rangeKeys m ≡ₚ elements m) ->
  (0 < nR)%Z -> files <> [] -> Forall (fun f => private f = false) files -> inputs fs0 files contents ->
  Forall (fun f => word f /\ Forall (fun w => String.length w + String.length f + 1 < MaxScanTokenSize)%nat (contents ≫= words)) files ->
  (forall z, spaceless (timeString z) = false) ->
  w_reachable timeString (indexer_Map rangeKeys) indexer_Reduce files nR fs0 w -> Done (coord (w_mr w)) = true ->
  outputs w nR (index_lines files contents).
Proof.
  intros Hk Hn Hf Hp Hi Hw Hsp Hr Hd.
  destruct (concurrent_output timeString HKS _ _ _ files _ nR fs0 w (index_setup rangeKeys Hk files contents nR fs0 Hn Hf Hp Hi Hw)
    index_order_free Hsp Hr Hd) as (fsq & L & Ls & _ & _ & Hlen & HLs & HL & HL').
  exists Ls. split_and!; [done|done|]. rewrite HL HL'. by apply index_result; [|apply (Forall2_length _ _ _ Hi)].
Qed.
End jobs.

(** A run.  The two map tasks interleave; worker 2 is killed in the first reduce task,
    which worker 4 executes while worker 3 executes the second one. *)

Definition wc_map_report (i : Z) (file : string) : WEvent := WReport (mkTask MapTask [file] i i Completed 0 2).
Definition wc_reduce_report (i start : Z) : WEvent := WReport (mkTask ReduceTask (partition_files 2 i) i start Completed 2 2).

Definition wc_events : list WEvent :=
  ([WGet 0; WGet 1] ++ ops 0 7 ++ ops 1 5 ++ ops 0 7 ++ ops 1 6 ++ [wc_map_report 0 "pg-a.txt"; wc_map_report 1 "pg-b.txt"] ++
   [WGet 5; WGet 6] ++ ops 2 9 ++ [WKill 2; WGet (30 * Second)] ++ ops 3 4 ++ ops 4 18 ++ ops 3 4 ++
   [wc_reduce_report 1 6; wc_reduce_report 0 (30 * Second)])%list.

Definition wc_world : World :=
  default (w_init app_files 2 app_fs) (checked_run stamp wc_Map wc_Reduce wc_events (w_init app_files 2 app_fs)).

Lemma wc_world_reachable : w_reachable stamp wc_Map wc_Reduce app_files 2 app_fs wc_world.
Proof.
  apply (checked_run_reach _ _ _ wc_events). unfold wc_world.
  assert ((if checked_run stamp wc_Map wc_Reduce wc_events (w_init app_files 2 app_fs) is Some _ then true else false) = true) as H
    by (vm_compute; reflexivity).
  by destruct (checked_run stamp wc_Map wc_Reduce wc_events (w_init app_files 2 app_fs)).
Qed.

Lemma wc_job_counts_words_witness :
  Done (coord (w_mr wc_world)) = true /\ outputs wc_world 2 (count_lines (app_contents ≫= words)) /\
  w_fs wc_world !! outName 0 = Some (concat_str (newline <$> ["Let 1"; "be 3"; "it 1"; "not 1"; "or 1"; "to 2"])).
Proof.
  assert (Done (coord (w_mr wc_world)) = true) as Hd by (vm_compute; reflexivity).
  split; [exact Hd|]. split; [|vm_compute; reflexivity].
  apply (wc_job_counts_words stamp merge_KeySort app_files app_contents 2 app_fs);
    [done|done|exact app_public|exact app_inputs|exact wc_short|exact stamp_space|exact wc_world_reachable|exact Hd].
Defined.
