(* ===== verification/MRMain.v ===== *)
(** * MRMain: the processes of a MapReduce job

    The calls of src/src/mr/worker.go and rpc.go to the coordinator, and the
    programs main/mrcoordinator.go, main/mrworker.go and main/mrsequential.go.  net/rpc and plugin
    are parameters: whether the socket can be dialled and what the call answers,
    what the plugin file defines. *)

From S2P Require Import Prelude GoStrings MRCoordinator MRFacts MRWorker MRJob MRApps.
Local Open Scope Z_scope.
Local Open Scope string_scope.

(** ** RPCs *)

Definition coordinatorSock (uid : Z) : string := "/var/tmp/5840-mr-" +:+ Itoa uid.

(** [dialed] is whether the coordinator listens, [answer] the reply, if the
    call did not return an error.  [None] is the answer false. *)
Definition call {A} (dialed : bool) (answer : option A) : option A + stop :=
  if dialed then inl answer else inr (Exited "dialing:").

Record ExampleArgs := mkExampleArgs { X : Z }.
Record ExampleReply := mkExampleReply { Y : Z }.

Definition Example_ (args : ExampleArgs) : ExampleReply := mkExampleReply (wrap 64 (X args + 1)).

(** What is printed, by a coordinator that answers. *)
Definition CallExample : string :=
  match call true (Some (Example_ (mkExampleArgs 99))) with
  | inl (Some reply) => "reply.Y " +:+ pretty (Y reply)
  | _ => "call failed!"
  end.

Record GetTaskRequest := mkGetTaskRequest { gt_Worker : Z }.
Record GetTaskResponse := mkGetTaskResponse { gt_Task : option Task }.

(** A nil task and a failed call look the same to the worker. *)
Definition CallGetTask (dialed : bool) (answer : option GetTaskResponse) : option Task + stop :=
  match call dialed answer with
  | inl (Some reply) => inl (gt_Task reply)
  | inl None => inl None
  | inr e => inr e
  end.

(** [inl true] if the coordinator was told. *)
Definition notifyTaskDone (dialed : bool) (answer : option unit) : bool + stop :=
  match call dialed answer with
  | inl (Some _) => inl true
  | inl None => inl false
  | inr e => inr e
  end.

(** ** Plugins *)

(** A symbol of a plugin: one of the two functions, or something of another
    type, for which the type assertion panics. *)
Inductive symbol :=
| SMap (f : string -> string -> outcome (list KeyValue))
| SReduce (f : string -> list string -> outcome string)
| SOther.

Definition Plugin : Type := string -> option symbol.

Definition loadPlugin (plugin : option Plugin) (filename : string)
    : (string -> string -> outcome (list KeyValue)) * (string -> list string -> outcome string) + stop :=
  match plugin with
  | None => inr (Exited ("cannot load plugin " +:+ filename))
  | Some p =>
      match p "Map" with
      | None => inr (Exited ("cannot find Map in " +:+ filename))
      | Some (SMap mapf) =>
          match p "Reduce" with
          | None => inr (Exited ("cannot find Reduce in " +:+ filename))
          | Some (SReduce reducef) => inl (mapf, reducef)
          | Some _ => inr (Panicked "interface conversion")
          end
      | Some _ => inr (Panicked "interface conversion")
      end
  end.

(** ** The processes *)

Definition mrworker_main (args : list string) (open : string -> option Plugin)
    : (string -> string -> outcome (list KeyValue)) * (string -> list string -> outcome string) + stop :=
  match args with
  | [_; filename] => loadPlugin (open filename) filename
  | _ => inr (Exited "Usage: mrworker xxx.so")
  end.

(** main/mrsequential.go has the same [loadPlugin]. *)
Definition seq_loadPlugin := loadPlugin.

Definition mrsequential_main `{!KeySort} (args : list string) (open : string -> option Plugin) : io unit :=
  match args with
  | _ :: filename :: ((_ :: _) as files) =>
      match seq_loadPlugin (open filename) filename with
      | inl (mapf, reducef) => sequential mapf reducef files
      | inr e => fun fs => (fs, inr e)
      end
  | _ => log_Fatal "Usage: mrsequential xxx.so inputfiles..."
  end.

(** With a plugin that has both functions and at least one file, the program is
    [sequential], which the distributed job is compared with. *)
Lemma mrsequential_runs `{!KeySort} prog filename files open p mapf reducef fs :
  files <> [] -> open filename = Some p -> p "Map" = Some (SMap mapf) -> p "Reduce" = Some (SReduce reducef) ->
  mrsequential_main (prog :: filename :: files) open fs = sequential mapf reducef files fs.
Proof. intros Hf Ho Hm Hr. destruct files as [|f files]; [done|]. simpl. unfold seq_loadPlugin, loadPlugin. by rewrite Ho Hm Hr. Qed.

(** [polled i] is the coordinator when [Done] is called for the [i]th time, a second
    apart; the answer is the number of calls after which the process ends. *)
Fixpoint pollDone (polled : nat -> Coordinator) (fuel i : nat) : option nat :=
  match fuel with
  | O => None
  | Datatypes.S fuel => if Done (polled i) then Some i else pollDone polled fuel (i + 1)
  end.

(** The socket the coordinator listens on; [listening] is whether the system
    allows it. *)
Definition server (listening : bool) (uid : Z) : string + stop :=
  if listening then inl (coordinatorSock uid) else inr (Exited "listen error:").

Definition mrcoordinator_main (args : list string) (listening : bool) (uid : Z) : Coordinator * string + stop :=
  match args with
  | _ :: ((_ :: _) as files) =>
      match server listening uid with
      | inl sockname => inl (MakeCoordinator files 10, sockname)
      | inr e => inr e
      end
  | _ => inr (Exited "Usage: mrcoordinator inputfiles...")
  end.

(** The process ends at the first call of [Done] after the job is finished. *)
Lemma pollDone_first polled fuel i n :
  pollDone polled fuel i = Some n <->
  (i <= n < i + fuel)%nat /\ Done (polled n) = true /\ forall k, (i <= k < n)%nat -> Done (polled k) = false.
Proof.
  revert i. induction fuel as [|fuel IH]; intros i; simpl; [split; [done|lia]|]. destruct (Done (polled i)) eqn:Hd.
  - split.
    + intros [= <-]. split_and!; [lia|lia|done|lia].
    + intros (H1 & _ & H2). destruct (decide (i = n)) as [->|Hne]; [done|]. rewrite H2 in Hd; [lia|done].
  - rewrite IH. split.
    + intros (H1 & H2 & H3). split_and!; [lia|lia|done|]. intros k Hk. destruct (decide (k = i)) as [->|Hne]; [done|]. apply H3. lia.
    + intros (H1 & H2 & H3). destruct (decide (i = n)) as [->|Hne]; [congruence|]. split_and!; [lia|lia|done|]. intros k Hk. apply H3. lia.
Qed.

(** ** Idle workers *)

Section idle.
Context (timeString : Z -> string) `{!KeySort}.
Context (mapf : string -> string -> outcome (list KeyValue)) (reducef : string -> list string -> outcome string).

(** The loop of a worker that asks a coordinator which nobody else talks to:
    the time at which it returns, [None] if it gets a task or the fuel is used
    up. *)
Fixpoint idleLoop (fuel : nat) (timer now : Z) (c : Coordinator) (fs : FS) : option Z :=
  match fuel with
  | O => None
  | Datatypes.S fuel =>
      if bool_decide (timer <= now) then Some now else
      match CallGetTask true (Some (mkGetTaskResponse (HandleGetTaskRequest now c).1)) with
      | inl None =>
          match Worker timeString mapf reducef timer now None fs with
          | (_, _, Continue sleep timer) => idleLoop fuel timer (now + sleep) (HandleGetTaskRequest now c).2 fs
          | (_, _, Return) => Some now
          end
      | _ => None
      end
  end.

(** The tasks of the current phase. *)
Definition current (c : Coordinator) : list Task :=
  match c_phase c with duringMap => mapTasks c | duringReduce => reduceTasks c | finish => [] end.

(** In hands of others since [t0], or completed. *)
Definition taken (t0 : Z) (t : Task) : Prop := State t = Completed \/ (State t = InProgress /\ t0 <= StartTime t).

Lemma taken_unavailable t0 now t : taken t0 t -> now <= t0 + TaskTimeout -> available now t = false.
Proof.
  intros [Hc|[Hc Hs]] Hn; unfold available; rewrite Hc; [done|]. simpl. apply bool_decide_eq_false. lia.
Qed.

Lemma no_task t0 now c :
  c_phase c <> finish -> Forall (taken t0) (current c) -> now <= t0 + TaskTimeout ->
  (HandleGetTaskRequest now c).1 = None /\
  c_phase (HandleGetTaskRequest now c).2 = c_phase c /\ current (HandleGetTaskRequest now c).2 = current c.
Proof.
  intros Hf Ht Hn. unfold HandleGetTaskRequest, current in *. destruct (c_phase c) eqn:Hp; [| |done].
  all: match goal with |- context [findAvailableTask ?n ?ts] =>
    destruct (findAvailableTask_spec n ts) as [[-> _]|(l1 & t & l2 & E & _ & Ha & _)] end; [by rewrite /= Hp|].
  all: rewrite E in Ht; apply Forall_app in Ht as [_ [Ht _]%Forall_cons]; by rewrite (taken_unavailable t0) in Ha.
Qed.

Lemma idle_step fuel t0 timer now c fs :
  c_phase c <> finish -> Forall (taken t0) (current c) -> now <= t0 + TaskTimeout -> now < timer ->
  exists c', c_phase c' = c_phase c /\ current c' = current c /\
    idleLoop (Datatypes.S fuel) timer now c fs = idleLoop fuel timer (now + 2 * Second) c' fs.
Proof.
  intros Hf Ht Hn Hlt. destruct (no_task t0 now c Hf Ht Hn) as (H1 & H2 & H3). exists (HandleGetTaskRequest now c).2.
  split; [done|]. split; [done|]. cbn [idleLoop]. rewrite bool_decide_false; [lia|]. rewrite H1. unfold CallGetTask, call, Worker. simpl.
  rewrite bool_decide_false; [lia|]. done.
Qed.

(** C26. A worker that has had no task for ten seconds gives up, also if the job is
    not finished: if every task of the phase is completed or was given to others
    no earlier than the worker's timer was set, five questions go unanswered
    and the worker returns.  A task is given out again only later than that, so
    when the worker that holds it dies no worker is left to take it. *)
Theorem idle_worker_gives_up (t0 : Z) (c : Coordinator) (fs : FS) :
  c_phase c <> finish -> Forall (taken t0) (current c) ->
  idleLoop 6 (t0 + worker_timeout) t0 c fs = Some (t0 + worker_timeout) /\
  forall now, now <= t0 + worker_timeout -> (HandleGetTaskRequest now c).1 = None.
Proof.
  intros Hf Ht. split; [|intros now Hn; by apply (no_task t0)].
  assert (forall fuel now c', c_phase c' = c_phase c -> current c' = current c -> now <= t0 + TaskTimeout -> now < t0 + worker_timeout ->
    exists c'', c_phase c'' = c_phase c /\ current c'' = current c /\
      idleLoop (Datatypes.S fuel) (t0 + worker_timeout) now c' fs = idleLoop fuel (t0 + worker_timeout) (now + 2 * Second) c'' fs) as Hstep.
  { intros fuel now c' H1 H2 Hn Hlt. destruct (idle_step fuel t0 (t0 + worker_timeout) now c' fs) as (c'' & H3 & H4 & E);
      rewrite ?H1 ?H2 //. exists c''. split_and!; congruence. }
  unfold worker_timeout, TaskTimeout, Second in *.
  destruct (Hstep 5%nat t0 c) as (c1 & P1 & T1 & ->); [done|done|lia|lia|].
  destruct (Hstep 4%nat (t0 + 2 * 1000000000) c1) as (c2 & P2 & T2 & ->); [done|done|lia|lia|].
  destruct (Hstep 3%nat (t0 + 2 * 1000000000 + 2 * 1000000000) c2) as (c3 & P3 & T3 & ->); [done|done|lia|lia|].
  destruct (Hstep 2%nat (t0 + 2 * 1000000000 + 2 * 1000000000 + 2 * 1000000000) c3) as (c4 & P4 & T4 & ->); [done|done|lia|lia|].
  destruct (Hstep 1%nat (t0 + 2 * 1000000000 + 2 * 1000000000 + 2 * 1000000000 + 2 * 1000000000) c4) as (c5 & P5 & T5 & ->); [done|done|lia|lia|].
  cbn [idleLoop]. rewrite bool_decide_true; [lia|]. f_equal. lia.
Qed.
End idle.

(** ** Witness *)

#[local] Existing Instance merge_KeySort.

(** The only task has been given to another worker. *)
Definition leased : Coordinator := (HandleGetTaskRequest 0 (MakeCoordinator ["pg.txt"] 1)).2.

Lemma idle_worker_gives_up_witness :
  idleLoop pretty nocrash_Map nocrash_Reduce 6 (0 + worker_timeout) 0 leased ∅ = Some (0 + worker_timeout) /\
  forall now, now <= 0 + worker_timeout -> (HandleGetTaskRequest now leased).1 = None.
Proof.
  apply (idle_worker_gives_up pretty nocrash_Map nocrash_Reduce 0 leased ∅).
  - vm_compute. discriminate.
  - constructor; [|constructor]. right. split; [vm_compute; reflexivity|]. vm_compute. discriminate.
Defined.
