(* ===== verification/Bitset.v ===== *)
(** * Bitset: src/src/porcupine/bitset.go

    A bitset is a slice of 64-bit words.  [represents b X] is the abstraction:
    the bits of [b] are the elements of the finite set [X]; every operation
    implements the set operation of its name ([set], [clear], [get], [popcnt],
    [equals]). *)

From S2P Require Import Prelude.
Local Open Scope Z_scope.

Notation bitset := (list Z) (only parsing).

Definition newBitset (bits : Z) : bitset :=
  let extra := if bool_decide (Z.modulo bits 64 <> 0) then 1 else 0 in
  let chunks := Z.div bits 64 + extra in
  replicate (Z.to_nat chunks) 0.

(** A copy: slices are values here, the copy is what keeps [set] from changing
    the original. *)
Definition clone (b : bitset) : bitset := b.

Definition bitsetIndex (pos : Z) : Z * Z := (Z.div pos 64, Z.modulo pos 64).

Definition set (b : bitset) (pos : Z) : outcome bitset :=
  let '(major, minor) := bitsetIndex pos in
  w ← slice_get b major;
  slice_set b major (Z.lor w (Z.shiftl 1 minor)).

Definition clear (b : bitset) (pos : Z) : outcome bitset :=
  let '(major, minor) := bitsetIndex pos in
  w ← slice_get b major;
  slice_set b major (Z.ldiff w (Z.shiftl 1 minor)).

Definition get (b : bitset) (pos : Z) : outcome bool :=
  let '(major, minor) := bitsetIndex pos in
  w ← slice_get b major;
  Ret (negb (Z.land w (Z.shiftl 1 minor) =? 0)).

(** [bits.OnesCount64] *)
Definition OnesCount64 (v : Z) : Z := len (filter (fun i => Z.testbit v i = true) (seqZ 0 64)).

Definition popcnt (b : bitset) : Z := foldl (fun total v => total + OnesCount64 v) 0 b.

Definition hash (b : bitset) : Z := foldl (fun h v => Z.lxor h v) (popcnt b) b.

Fixpoint equals_loop (b b2 : bitset) : bool :=
  match b, b2 with
  | v :: b, v2 :: b2 => if bool_decide (v <> v2) then false else equals_loop b b2
  | _, _ => true
  end.

Definition equals (b b2 : bitset) : bool :=
  if bool_decide (len b <> len b2) then false else equals_loop b b2.

(** ** Words *)

(** The bit of [pos], false out of range. *)
Definition bit (b : bitset) (pos : Z) : bool :=
  match b !! Z.to_nat (pos / 64) with Some w => Z.testbit w (pos mod 64) | None => false end.

Definition word (w : Z) : Prop := 0 <= w < 2 ^ 64.

Lemma word_testbit w i : word w -> 64 <= i -> Z.testbit w i = false.
Proof.
  intros [H1 H2] Hi. destruct (decide (w = 0)) as [->|Hne]; [apply Z.bits_0|].
  apply Z.bits_above_log2; [lia|]. apply Z.lt_le_trans with 64; [|lia]. apply Z.log2_lt_pow2; lia.
Qed.

Lemma testbit_pow2 m i : 0 <= m -> 0 <= i -> Z.testbit (Z.shiftl 1 m) i = bool_decide (i = m).
Proof.
  intros Hm Hi. rewrite Z.shiftl_1_l Z.pow2_bits_eqb //. case_bool_decide as H; [subst; apply Z.eqb_refl|].
  apply Z.eqb_neq. congruence.
Qed.

Lemma word_bits w : 0 <= w -> (forall i, 64 <= i -> Z.testbit w i = false) -> word w.
Proof.
  intros Hw H. split; [done|]. destruct (decide (w = 0)) as [->|Hne]; [done|].
  apply Z.log2_lt_pow2; [lia|]. destruct (decide (Z.log2 w < 64)) as [|Hge]; [done|].
  exfalso. pose proof (Z.bit_log2 w ltac:(lia)) as Hb. rewrite H in Hb; [lia|done].
Qed.

Lemma word_set w m : word w -> 0 <= m < 64 -> word (Z.lor w (Z.shiftl 1 m)).
Proof.
  intros Hw Hm. apply word_bits.
  - apply Z.lor_nonneg. split; [apply Hw|]. apply Z.shiftl_nonneg. lia.
  - intros i Hi. rewrite Z.lor_spec word_testbit // testbit_pow2; [lia|lia|]. by rewrite bool_decide_false; [lia|].
Qed.

Lemma word_clear w m : word w -> 0 <= m < 64 -> word (Z.ldiff w (Z.shiftl 1 m)).
Proof.
  intros Hw Hm. apply word_bits.
  - apply Z.ldiff_nonneg. left. apply Hw.
  - intros i Hi. rewrite Z.ldiff_spec. by rewrite word_testbit.
Qed.

Lemma word_eq v w : word v -> word w -> (forall i, 0 <= i < 64 -> Z.testbit v i = Z.testbit w i) -> v = w.
Proof.
  intros Hv Hw H. apply Z.bits_inj'. intros i Hi. destruct (decide (i < 64)); [apply H; lia|].
  rewrite !word_testbit //; lia.
Qed.

(** ** The abstraction *)

Record represents (b : bitset) (X : gset Z) : Prop := {
  rep_words : Forall word b;
  rep_range : forall i, i ∈ X -> 0 <= i < 64 * len b;
  rep_bits : forall i, 0 <= i < 64 * len b -> bit b i = bool_decide (i ∈ X);
}.

Lemma index_range (b : bitset) pos : 0 <= pos < 64 * len b ->
  0 <= pos / 64 < len b /\ 0 <= pos mod 64 < 64 /\ exists w : Z, b !! Z.to_nat (pos / 64) = Some w.
Proof.
  intros Hp. pose proof (Z.mod_pos_bound pos 64 ltac:(lia)) as Hm.
  pose proof (Z.div_mod pos 64 ltac:(lia)) as Hd. assert (0 <= pos / 64 < len b) as Hq by lia.
  split; [done|]. split; [done|]. apply lookup_lt_is_Some_2. unfold len in Hq. lia.
Qed.

Lemma index_inj p q : 0 <= p -> 0 <= q -> Z.to_nat (p / 64) = Z.to_nat (q / 64) -> p mod 64 = q mod 64 -> p = q.
Proof.
  intros Hp Hq H1 H2. pose proof (Z.div_mod p 64 ltac:(lia)). pose proof (Z.div_mod q 64 ltac:(lia)).
  pose proof (Z.div_pos p 64 Hp ltac:(lia)). pose proof (Z.div_pos q 64 Hq ltac:(lia)). lia.
Qed.

(** Replacing the word of [pos] by one that differs only at [pos]. *)
Lemma bit_update (b : bitset) pos (w w' : Z) (v : bool) :
  0 <= pos < 64 * len b -> b !! Z.to_nat (pos / 64) = Some w ->
  (forall i, 0 <= i < 64 -> Z.testbit w' i = if bool_decide (i = pos mod 64) then v else Z.testbit w i) ->
  forall i, 0 <= i < 64 * len b ->
    bit (<[Z.to_nat (pos / 64) := w']> b) i = if bool_decide (i = pos) then v else bit b i.
Proof.
  intros Hp Hw Hw' i Hi. destruct (index_range b pos Hp) as (Hq & Hm & _).
  destruct (index_range b i Hi) as (Hq' & Hm' & _). unfold bit.
  destruct (decide (Z.to_nat (i / 64) = Z.to_nat (pos / 64))) as [He|Hne].
  - rewrite He list_lookup_insert_eq; [unfold len in *; lia|]. rewrite Hw' // Hw.
    destruct (decide (i = pos)) as [->|Hip]; [by rewrite !bool_decide_true|].
    rewrite !bool_decide_false //. intros Hmod. apply Hip. apply index_inj; [lia|lia|done|done].
  - rewrite list_lookup_insert_ne; [congruence|]. rewrite bool_decide_false; [congruence|done].
Qed.

Lemma newBitset_represents n : 0 <= n -> represents (newBitset n) ∅ /\ n <= 64 * len (newBitset n).
Proof.
  intros Hn. pose proof (Z.div_mod n 64 ltac:(lia)) as Hd. pose proof (Z.mod_pos_bound n 64 ltac:(lia)) as Hm.
  pose proof (Z.div_pos n 64 Hn ltac:(lia)) as Hq. split.
  - constructor.
    + apply Forall_replicate. split; [lia|]. by apply Z.pow_pos_nonneg.
    + intros i Hi. set_solver.
    + intros i _. rewrite bool_decide_false; [set_solver|]. unfold bit, newBitset. cbv zeta.
      match goal with |- context [replicate ?k 0 !! ?j] => destruct (replicate k 0 !! j) as [w|] eqn:E end; [|done].
      apply lookup_replicate in E as [-> _]. apply Z.bits_0.
  - unfold newBitset, len. rewrite length_replicate. case_bool_decide; lia.
Qed.

Lemma set_represents b X pos : represents b X -> 0 <= pos < 64 * len b ->
  exists b', set b pos = Ret b' /\ represents b' ({[pos]} ∪ X) /\ len b' = len b.
Proof.
  intros [Hw Hr Hb] Hp. destruct (index_range b pos Hp) as (Hq & Hm & w & Hlk).
  pose proof (Forall_lookup_1 _ _ _ _ Hw Hlk) as Hword. unfold set, bitsetIndex.
  assert (slice_get b (pos / 64) = Ret w) as -> by (apply slice_get_ret; split; [lia|done]).
  unfold slice_set. simpl. rewrite bool_decide_true //. eexists. split; [done|]. rewrite len_insert. split; [|done].
  constructor; rewrite ?len_insert.
  - apply Forall_insert; [done|]. by apply word_set.
  - intros i [->%elem_of_singleton|Hi]%elem_of_union; [done|auto].
  - intros i Hi. rewrite (bit_update b pos w _ true Hp Hlk) //.
    + intros j Hj. rewrite Z.lor_spec testbit_pow2; [lia|lia|]. case_bool_decide; [apply orb_true_r|apply orb_false_r].
    + destruct (decide (i = pos)) as [->|Hne].
      * rewrite !bool_decide_true //. set_solver.
      * rewrite bool_decide_false // Hb //. apply bool_decide_ext. set_solver.
Qed.

Lemma clear_represents b X pos : represents b X -> 0 <= pos < 64 * len b ->
  exists b', clear b pos = Ret b' /\ represents b' (X ∖ {[pos]}) /\ len b' = len b.
Proof.
  intros [Hw Hr Hb] Hp. destruct (index_range b pos Hp) as (Hq & Hm & w & Hlk).
  pose proof (Forall_lookup_1 _ _ _ _ Hw Hlk) as Hword. unfold clear, bitsetIndex.
  assert (slice_get b (pos / 64) = Ret w) as -> by (apply slice_get_ret; split; [lia|done]).
  unfold slice_set. simpl. rewrite bool_decide_true //. eexists. split; [done|]. rewrite len_insert. split; [|done].
  constructor; rewrite ?len_insert.
  - apply Forall_insert; [done|]. by apply word_clear.
  - intros i [Hi _]%elem_of_difference. auto.
  - intros i Hi. rewrite (bit_update b pos w _ false Hp Hlk) //.
    + intros j Hj. rewrite Z.ldiff_spec testbit_pow2; [lia|lia|]. case_bool_decide; [apply andb_false_r|apply andb_true_r].
    + destruct (decide (i = pos)) as [->|Hne].
      * rewrite bool_decide_true // bool_decide_false //. set_solver.
      * rewrite bool_decide_false // Hb //. apply bool_decide_ext. set_solver.
Qed.


Lemma land_bit w m : 0 <= m -> negb (Z.land w (Z.shiftl 1 m) =? 0) = Z.testbit w m.
Proof.
  intros Hm. destruct (Z.testbit w m) eqn:E.
  - apply negb_true_iff, Z.eqb_neq. intros H. assert (Z.testbit (Z.land w (Z.shiftl 1 m)) m = true) as Hb.
    { rewrite Z.land_spec E testbit_pow2 // bool_decide_true //. }
    by rewrite H Z.bits_0 in Hb.
  - apply negb_false_iff, Z.eqb_eq, Z.bits_inj'. intros i Hi. rewrite Z.bits_0 Z.land_spec testbit_pow2 //.
    case_bool_decide as H; [subst; by rewrite E|apply andb_false_r].
Qed.

Lemma get_represents b X pos : represents b X -> 0 <= pos < 64 * len b -> get b pos = Ret (bool_decide (pos ∈ X)).
Proof.
  intros [Hw Hr Hb] Hp. rewrite -Hb //. destruct (index_range b pos Hp) as (Hq & Hm & w & Hlk).
  unfold get, bitsetIndex. assert (slice_get b (pos / 64) = Ret w) as -> by (apply slice_get_ret; split; [lia|done]).
  simpl. unfold bit. rewrite Hlk land_bit //. lia.
Qed.

Lemma represents_eq b b2 X : represents b X -> represents b2 X -> len b = len b2 -> b = b2.
Proof.
  intros [Hw _ Hb] [Hw2 _ Hb2] Hlen. apply list_eq_same_length with (length b); [unfold len in Hlen; lia|done|].
  intros k v v2 Hk Hv Hv2. apply word_eq; [exact (Forall_lookup_1 _ _ _ _ Hw Hv)|exact (Forall_lookup_1 _ _ _ _ Hw2 Hv2)|].
  intros i Hi. assert (0 <= 64 * Z.of_nat k + i < 64 * len b) as Hr by (unfold len; lia).
  pose proof (Hb _ Hr) as E. rewrite -Hb2 in E; [by rewrite -Hlen|]. unfold bit in E.
  replace ((64 * Z.of_nat k + i) / 64) with (Z.of_nat k) in E by (apply Z.div_unique with i; lia).
  replace ((64 * Z.of_nat k + i) mod 64) with i in E by (apply Z.mod_unique with (Z.of_nat k); lia).
  by rewrite Nat2Z.id Hv Hv2 in E.
Qed.

Lemma equals_loop_eq b b2 : length b = length b2 -> equals_loop b b2 = true <-> b = b2.
Proof.
  revert b2. induction b as [|v b IH]; intros [|v2 b2] Hl; simpl in *; try done.
  case_bool_decide as Hv; [split; [done|congruence]|]. subst v2. rewrite IH; [lia|].
  split; [by intros ->|by intros [= ->]].
Qed.

Lemma equals_eq b b2 : equals b b2 = true <-> b = b2.
Proof.
  unfold equals. case_bool_decide as H; [split; [done|by intros ->]|].
  apply equals_loop_eq. unfold len in H. lia.
Qed.

Lemma equals_represents b b2 X X2 :
  represents b X -> represents b2 X2 -> len b = len b2 -> equals b b2 = true <-> X = X2.
Proof.
  intros H1 H2 Hl. rewrite equals_eq. split; [|intros ->; exact (represents_eq _ _ _ H1 H2 Hl)].
  intros ->. destruct H1 as [_ Hr Hb], H2 as [_ Hr2 Hb2].
  assert (forall i, 0 <= i < 64 * len b2 -> i ∈ X <-> i ∈ X2) as Hiff.
  { intros i Hi. pose proof (Hb i Hi) as E. rewrite Hb2 // in E.
    split; intros H; [by rewrite (bool_decide_true (i ∈ X)) // bool_decide_eq_true in E|].
    by rewrite (bool_decide_true (i ∈ X2)) // in E; symmetry in E; rewrite bool_decide_eq_true in E. }
  apply set_eq. intros i. split; intros Hi; apply Hiff; auto.
Qed.

(** ** Counting *)

Lemma filter_length_ext {A} (P Q : A -> Prop) `{forall x, Decision (P x), forall x, Decision (Q x)} (l : list A) :
  (forall x, x ∈ l -> P x <-> Q x) -> length (filter P l) = length (filter Q l).
Proof.
  induction l as [|x l IH]; intros Hiff; [done|]. rewrite !filter_cons.
  assert (length (filter P l) = length (filter Q l)) as E by (apply IH; intros; apply Hiff; by right).
  pose proof (Hiff x ltac:(left)). repeat case_decide; simpl; try tauto; lia.
Qed.

Lemma filter_fmap_length {A B} (f : A -> B) (P : B -> Prop) `{forall x, Decision (P x)} (l : list A) :
  length (filter P (f <$> l)) = length (filter (fun x => P (f x)) l).
Proof.
  induction l as [|x l IH]; [done|]. rewrite fmap_cons !filter_cons. case_decide; simpl; by rewrite IH.
Qed.

Lemma popcnt_bits (b : bitset) : popcnt b = len (filter (fun i => bit b i = true) (seqZ 0 (64 * len b))).
Proof.
  induction b as [|v b IH] using rev_ind; [done|]. unfold popcnt in *. rewrite foldl_app. cbn [foldl]. rewrite IH.
  assert (len (b ++ [v]) = len b + 1) as -> by (unfold len; rewrite length_app /=; lia).
  replace (64 * (len b + 1)) with (64 * len b + 64) by lia.
  rewrite seqZ_app; [unfold len; lia|lia|]. unfold len. rewrite filter_app length_app Nat2Z.inj_add. f_equal.
  - f_equal. apply filter_length_ext. intros i Hi%elem_of_seqZ. unfold bit. rewrite lookup_app_l //.
    destruct (index_range b i) as (Hq & _); [unfold len; lia|]. unfold len in Hq. lia.
  - unfold OnesCount64, len. f_equal.
    rewrite -(Z.add_0_r (0 + 64 * Z.of_nat (length b))) -fmap_add_seqZ filter_fmap_length.
    apply filter_length_ext. intros i Hi%elem_of_seqZ. unfold bit.
    replace ((0 + 64 * Z.of_nat (length b) + i) / 64) with (Z.of_nat (length b)) by (apply Z.div_unique with i; lia).
    replace ((0 + 64 * Z.of_nat (length b) + i) mod 64) with i by (apply Z.mod_unique with (Z.of_nat (length b)); lia).
    by rewrite Nat2Z.id list_lookup_middle.
Qed.

Lemma popcnt_represents b X : represents b X -> popcnt b = Z.of_nat (size X).
Proof.
  intros [_ Hr Hb]. rewrite popcnt_bits. unfold len. f_equal.
  rewrite -(size_list_to_set (C := gset Z)); [apply NoDup_filter, NoDup_seqZ|]. f_equal. apply set_eq. intros i.
  rewrite elem_of_list_to_set list_elem_of_filter elem_of_seqZ. split.
  - intros [Hbi Hi]. rewrite Hb in Hbi; [unfold len in *; lia|]. by apply bool_decide_eq_true in Hbi.
  - intros Hi. pose proof (Hr i Hi) as Hrange. rewrite Hb //. split; [by apply bool_decide_eq_true|unfold len in *; lia].
Qed.

(** C35. A bitset is a set of the integers below its capacity: a new bitset is empty,
    [set] adds, [clear] removes, [get] tests membership, [popcnt] counts, none
    of them indexes out of range, and two bitsets of the same length are
    [equals] exactly when their sets are equal. *)
Theorem bitset_implements_sets (n pos : Z) (b b2 : bitset) (X X2 : gset Z) :
  0 <= n -> represents b X -> represents b2 X2 -> len b = len b2 -> 0 <= pos < 64 * len b ->
  (represents (newBitset n) ∅ /\ n <= 64 * len (newBitset n)) /\
  (exists b', set b pos = Ret b' /\ represents b' ({[pos]} ∪ X)) /\
  (exists b', clear b pos = Ret b' /\ represents b' (X ∖ {[pos]})) /\
  get b pos = Ret (bool_decide (pos ∈ X)) /\
  popcnt b = Z.of_nat (size X) /\
  (equals b b2 = true <-> X = X2).
Proof.
  intros Hn H1 H2 Hl Hp. split_and!.
  - by apply newBitset_represents.
  - by apply newBitset_represents.
  - destruct (set_represents b X pos H1 Hp) as (b' & ? & ? & _). eauto.
  - destruct (clear_represents b X pos H1 Hp) as (b' & ? & ? & _). eauto.
  - by apply get_represents.
  - by apply popcnt_represents.
  - by apply equals_represents.
Qed.

Lemma bitset_implements_sets_witness :
  get (newBitset 100) 70 = Ret (bool_decide (70 ∈ (∅ : gset Z))) /\ popcnt (newBitset 100) = 0.
Proof.
  destruct (newBitset_represents 100 ltac:(lia)) as [Hr Hn].
  destruct (bitset_implements_sets 100 70 (newBitset 100) (newBitset 100) ∅ ∅ ltac:(lia) Hr Hr eq_refl)
    as (_ & _ & _ & H4 & H5 & _); [vm_compute; done|].
  split; [exact H4|exact H5].
Defined.
