(* ===== verification/Porcupine.v ===== *)
(** * Porcupine: the linearizability checker, src/src/porcupine/checker.go

    [checkSingle] searches for a linearization of one history.  The live entries
    are a doubly linked list in a heap of nodes from which [lift] removes a call
    and its return and to which [unlift] puts them back; a node made for entry
    [i] has address [i], the head node the address after the last entry.
    Dereferencing nil panics.  A loop is a step function iterated with fuel;
    [kill] is the flag as read by each iteration.  [longest] holds references
    to slices, indices into [seqs].

    Values are [interface{}] in the source: an entry holds an input or an
    output, and passing one to [Step] asserts its type.

    The types of src/src/porcupine/model.go come first. *)

From S2P Require Import Prelude Bitset.
Local Open Scope Z_scope.

Inductive entryKind := callEntry | returnEntry.

#[export] Instance entryKind_eq_dec : EqDecision entryKind.
Proof. solve_decision. Defined.

Inductive CheckResult := Unknown | Ok | Illegal.

(** [fmt.Sprintf("%v", x)] for values of a type. *)
Class GoFormat (A : Type) := format_v : A -> string.

Section checker.
Context {Inp Out St : Type}.

(** ** model.go *)

Record Operation := mkOperation {
  op_ClientId : Z;
  Input : Inp;
  Call : Z;
  Output : Out;
  Return_ : Z;
}.

Record Event := mkEvent {
  ev_ClientId : Z;
  ev_Kind : entryKind;
  ev_Value : Inp + Out;
  ev_Id : Z;
}.

(** Functions that may be nil are options. *)
Record Model := mkModel {
  Partition : option (list Operation -> list (list Operation));
  PartitionEvent : option (list Event -> list (list Event));
  Init : St;
  Step : St -> Inp -> Out -> bool * St;
  Equal : option (St -> St -> bool);
  m_DescribeOperation : option (Inp -> Out -> string);
  m_DescribeState : option (St -> string);
}.

Definition NoPartition (history : list Operation) : list (list Operation) := [history].
Definition NoPartitionEvent (history : list Event) : list (list Event) := [history].
Definition ShallowEqual `{EqDecision St} (state1 state2 : St) : bool := bool_decide (state1 = state2).

Definition DefaultDescribeOperation `{GoFormat Inp, GoFormat Out} (input : Inp) (output : Out) : string :=
  format_v input +:+ " -> " +:+ format_v output.
Definition DefaultDescribeState `{GoFormat St} (state : St) : string := format_v state.

Definition fillDefault `{EqDecision St, GoFormat Inp, GoFormat Out, GoFormat St} (model : Model) : Model :=
  mkModel (Some (default NoPartition (Partition model))) (Some (default NoPartitionEvent (PartitionEvent model)))
    (Init model) (Step model) (Some (default ShallowEqual (Equal model)))
    (Some (default DefaultDescribeOperation (m_DescribeOperation model)))
    (Some (default DefaultDescribeState (m_DescribeState model))).

(** ** Entries *)

Record entry := mkEntry { e_kind : entryKind; e_value : Inp + Out; e_id : Z; e_time : Z; e_clientId : Z }.

(** The order of [byTime]. *)
Definition Less (a b : entry) : bool :=
  if bool_decide (e_time a <> e_time b) then bool_decide (e_time a < e_time b)
  else bool_decide (e_kind a = callEntry) && bool_decide (e_kind b = returnEntry).

(** The entries before sorting; [id] counts the operations. *)
Fixpoint entriesFrom (id : Z) (history : list Operation) : list entry :=
  match history with
  | [] => []
  | elem :: history =>
      mkEntry callEntry (inl (Input elem)) id (Call elem) (op_ClientId elem) ::
      mkEntry returnEntry (inr (Output elem)) id (Return_ elem) (op_ClientId elem) ::
      entriesFrom (id + 1) history
  end.

(** [sort.Sort(byTime(entries))] is not stable. *)
Definition makeEntries (sortByTime : list entry -> list entry) (history : list Operation) : list entry :=
  sortByTime (entriesFrom 0 history).

Fixpoint renumberFrom (m : gmap Z Z) (id : Z) (events : list Event) : list Event :=
  match events with
  | [] => []
  | v :: events =>
      match m !! ev_Id v with
      | Some r => mkEvent (ev_ClientId v) (ev_Kind v) (ev_Value v) r :: renumberFrom m id events
      | None =>
          mkEvent (ev_ClientId v) (ev_Kind v) (ev_Value v) id ::
          renumberFrom (<[ev_Id v := id]> m) (id + 1) events
      end
  end.

Definition renumber (events : list Event) : list Event := renumberFrom ∅ 0 events.

Definition convertEntries (events : list Event) : list entry :=
  imap (fun i elem =>
    mkEntry (if bool_decide (ev_Kind elem = returnEntry) then returnEntry else callEntry)
      (ev_Value elem) (ev_Id elem) (Z.of_nat i) (ev_ClientId elem)) events.

(** ** The linked list *)

Record node := mkNode {
  n_value : option (Inp + Out);
  n_match : option nat;
  n_id : Z;
  n_next : option nat;
  n_prev : option nat;
}.

#[local] Notation heap := (gmap nat node).

Definition nil_error : string := "nil pointer dereference".

(** [*p] *)
Definition deref (h : heap) (p : option nat) : outcome node :=
  match p with
  | Some a => match h !! a with Some n => Ret n | None => Panic nil_error end
  | None => Panic nil_error
  end.

(** [p.next = q], [p.prev = q] *)
Definition set_next (h : heap) (p q : option nat) : outcome heap :=
  n ← deref h p;
  Ret (match p with Some a => <[a := mkNode (n_value n) (n_match n) (n_id n) q (n_prev n)]> h | None => h end).

Definition set_prev (h : heap) (p q : option nat) : outcome heap :=
  n ← deref h p;
  Ret (match p with Some a => <[a := mkNode (n_value n) (n_match n) (n_id n) (n_next n) q]> h | None => h end).

Definition insertBefore (h : heap) (n mark : option nat) : outcome heap :=
  match mark with
  | None => Ret h
  | Some _ =>
      m ← deref h mark;
      let beforeMark := n_prev m in
      h ← set_prev h mark n;
      h ← set_next h n mark;
      match beforeMark with
      | None => Ret h
      | Some _ => h ← set_prev h n beforeMark; set_next h beforeMark n
      end
  end.

Definition lift (h : heap) (entry : option nat) : outcome heap :=
  e ← deref h entry;
  h ← set_next h (n_prev e) (n_next e);
  h ← set_prev h (n_next e) (n_prev e);
  m ← deref h (n_match e);
  h ← set_next h (n_prev m) (n_next m);
  match n_next m with
  | None => Ret h
  | Some _ => set_prev h (n_next m) (n_prev m)
  end.

Definition unlift (h : heap) (entry : option nat) : outcome heap :=
  e ← deref h entry;
  let match_ := n_match e in
  m ← deref h match_;
  h ← set_next h (n_prev m) match_;
  h ← (match n_next m with None => Ret h | Some _ => set_prev h (n_next m) match_ end);
  h ← set_next h (n_prev e) entry;
  set_prev h (n_next e) entry.

(** The loop of [makeLinkedEntries] from the last entry to the first. *)
Definition linkEntry (ie : nat * entry) (st : outcome (heap * option nat * gmap Z nat)) :
    outcome (heap * option nat * gmap Z nat) :=
  s ← st;
  let '(h, root, match_) := s in
  let '(i, elem) := ie in
  match e_kind elem with
  | returnEntry =>
      let h := <[i := mkNode (Some (e_value elem)) None (e_id elem) None None]> h in
      h ← insertBefore h (Some i) root;
      Ret (h, Some i, <[e_id elem := i]> match_)
  | callEntry =>
      let h := <[i := mkNode (Some (e_value elem)) (match_ !! e_id elem) (e_id elem) None None]> h in
      h ← insertBefore h (Some i) root;
      Ret (h, Some i, match_)
  end.

Definition makeLinkedEntries (entries : list entry) : outcome (heap * option nat * gmap Z nat) :=
  foldr linkEntry (Ret (∅, None, ∅)) (imap pair entries).

(** [length(n)], with fuel for the nodes of the heap. *)
Fixpoint length_ (fuel : nat) (h : heap) (n : option nat) (l : Z) : outcome Z :=
  match fuel with
  | O => Ret l
  | Datatypes.S fuel =>
      match n with
      | None => Ret l
      | Some _ => e ← deref h n; length_ fuel h (n_next e) (l + 1)
      end
  end.

(** ** The search *)

Record cacheEntry := mkCacheEntry { ce_linearized : bitset; ce_state : St }.

Definition cacheContains (equal : St -> St -> bool) (cache : gmap Z (list cacheEntry)) (entry : cacheEntry) : bool :=
  existsb (fun elem => equals (ce_linearized entry) (ce_linearized elem) && equal (ce_state entry) (ce_state elem))
    (default [] (cache !! hash (ce_linearized entry))).

Record callsEntry := mkCallsEntry { ca_entry : option nat; ca_state : St }.

Record Search := mkSearch {
  c_heap : heap;
  c_entry : option nat;
  c_linearized : bitset;
  c_cache : gmap Z (list cacheEntry);
  c_calls : list callsEntry;
  c_longest : list (option nat);
  c_seqs : list (list Z);
  c_state : St;
}.

Definition set_entry (c : Search) (e : option nat) : Search :=
  mkSearch (c_heap c) e (c_linearized c) (c_cache c) (c_calls c) (c_longest c) (c_seqs c) (c_state c).

Definition asInput (v : option (Inp + Out)) : outcome Inp :=
  match v with Some (inl i) => Ret i | _ => Panic "interface conversion" end.
Definition asOutput (v : option (Inp + Out)) : outcome Out :=
  match v with Some (inr o) => Ret o | _ => Panic "interface conversion" end.

(** The ids of the calls of the stack. *)
Definition callIds (h : heap) (calls : list callsEntry) : outcome (list Z) :=
  mapM (fun v => e ← deref h (ca_entry v); Ret (n_id e)) calls.

(** The loop over [calls] that updates [longest]; the sequence is made when it
    is first needed. *)
Fixpoint updateLongest (h : heap) (calls todo : list callsEntry) (longest : list (option nat))
    (seq : option nat) (seqs : list (list Z)) : outcome (list (option nat) * list (list Z)) :=
  match todo with
  | [] => Ret (longest, seqs)
  | v :: todo =>
      e ← deref h (ca_entry v);
      old ← slice_get longest (n_id e);
      let shorter := match old with
                     | None => true
                     | Some p => match seqs !! p with Some s => bool_decide (len calls > len s) | None => true end
                     end in
      if shorter then
        '(seq, seqs) ← (match seq with
                        | Some p => Ret (p, seqs)
                        | None => ids ← callIds h calls; Ret (length seqs, seqs ++ [ids])
                        end : outcome (nat * list (list Z)));
        longest ← slice_set longest (n_id e) (Some seq);
        updateLongest h calls todo longest (Some seq) seqs
      else updateLongest h calls todo longest seq seqs
  end.

Definition Result : Type := bool * list (option nat) * list (list Z).

(** One iteration; [head] is the address of the head node. *)
Definition checkIter (model : Model) (equal : St -> St -> bool) (computePartial : bool) (n : Z) (head : nat)
    (killed : bool) (c : Search) : outcome (Search + Result) :=
  let h := c_heap c in
  headEntry ← deref h (Some head);
  match n_next headEntry with
  | None =>
      ids ← callIds h (c_calls c);
      let seq := length (c_seqs c) in
      Ret (inr (true, (fun _ => Some seq) <$> seqZ 0 n, c_seqs c ++ [ids]))
  | Some _ =>
      if killed then Ret (inr (false, c_longest c, c_seqs c)) else
      entry ← deref h (c_entry c);
      match n_match entry with
      | Some _ =>
          matching ← deref h (n_match entry);
          i ← asInput (n_value entry);
          o ← asOutput (n_value matching);
          let '(ok, newState) := Step model (c_state c) i o in
          if ok : bool then
            newLinearized ← set (clone (c_linearized c)) (n_id entry);
            let newCacheEntry := mkCacheEntry newLinearized newState in
            if negb (cacheContains equal (c_cache c) newCacheEntry) then
              let hsh := hash newLinearized in
              let cache := <[hsh := default [] (c_cache c !! hsh) ++ [newCacheEntry]]> (c_cache c) in
              let calls := c_calls c ++ [mkCallsEntry (c_entry c) (c_state c)] in
              linearized ← set (c_linearized c) (n_id entry);
              h ← lift h (c_entry c);
              headEntry ← deref h (Some head);
              Ret (inl (mkSearch h (n_next headEntry) linearized cache calls (c_longest c) (c_seqs c) newState))
            else Ret (inl (set_entry c (n_next entry)))
          else Ret (inl (set_entry c (n_next entry)))
      | None =>
          match last (c_calls c) with
          | None => Ret (inr (false, c_longest c, c_seqs c))
          | Some callsTop =>
              '(longest, seqs) ← (if computePartial
                                  then updateLongest h (c_calls c) (c_calls c) (c_longest c) None (c_seqs c)
                                  else Ret (c_longest c, c_seqs c));
              top ← deref h (ca_entry callsTop);
              linearized ← clear (c_linearized c) (n_id top);
              h ← unlift h (ca_entry callsTop);
              top ← deref h (ca_entry callsTop);
              Ret (inl (mkSearch h (n_next top) linearized (c_cache c)
                (take (length (c_calls c) - 1) (c_calls c)) longest seqs (ca_state callsTop)))
          end
      end
  end.

(** [None] is out of fuel. *)
Fixpoint checkLoop (model : Model) (equal : St -> St -> bool) (computePartial : bool) (n : Z) (head : nat)
    (kill : nat -> bool) (fuel : nat) (c : Search) : outcome (option Result) :=
  match fuel with
  | O => Ret None
  | Datatypes.S fuel =>
      r ← checkIter model equal computePartial n head (kill fuel) c;
      match r with
      | inl c => checkLoop model equal computePartial n head kill fuel c
      | inr res => Ret (Some res)
      end
  end.

Definition checkSingle (model : Model) (equal : St -> St -> bool) (history : list entry) (computePartial : bool)
    (kill : nat -> bool) (fuel : nat) : outcome (option Result) :=
  s ← makeLinkedEntries history;
  let '(h, entry, _) := s in
  l ← length_ (Datatypes.S (length history)) h entry 0;
  let n := Z.quot l 2 in
  let head := length history in
  let h := <[head := mkNode None None (-1) None None]> h in
  h ← insertBefore h (Some head) entry;
  checkLoop model equal computePartial n head kill fuel
    (mkSearch h entry (newBitset n) ∅ [] (replicate (Z.to_nat n) None) [] (Init model)).

End checker.
Arguments Operation : clear implicits.
Arguments Event : clear implicits.
Arguments Model : clear implicits.
Arguments entry : clear implicits.
Arguments node : clear implicits.
Arguments Search : clear implicits.
Arguments callsEntry : clear implicits.
Arguments cacheEntry : clear implicits.
Notation heap Inp Out := (gmap nat (node Inp Out)).
