(* ===== verification/PorcupineList.v ===== *)
(** * PorcupineList: the linked list of the checker

    [repr h l] holds when the nodes [l] form a doubly linked list in [h].
    Unlinking a node and linking it back restores the heap exactly, so [unlift]
    undoes [lift]. *)

From S2P Require Import Prelude Bitset Porcupine.

Section list.
Context {Inp Out : Type}.
Implicit Types h : heap Inp Out.
Implicit Types n : node Inp Out.

Definition first (l : list nat) (next : option nat) : option nat :=
  match l with [] => next | a :: _ => Some a end.

Definition final (prev : option nat) (l : list nat) : option nat :=
  match last l with Some a => Some a | None => prev end.

(** The nodes [l], linked, between [prev] and [next]. *)
Fixpoint seg h (prev : option nat) (l : list nat) (next : option nat) : Prop :=
  match l with
  | [] => True
  | a :: l => (exists n, h !! a = Some n /\ n_prev n = prev /\ n_next n = first l next) /\ seg h (Some a) l next
  end.

Definition repr h (l : list nat) : Prop := NoDup l /\ seg h None l None.

Lemma first_app l k next : first (l ++ k) next = first l (first k next).
Proof. by destruct l. Qed.

Lemma final_cons prev a l : final prev (a :: l) = final (Some a) l.
Proof. unfold final. rewrite last_cons. by destruct (last l). Qed.

Lemma seg_app h prev l k next :
  seg h prev (l ++ k) next <-> seg h prev l (first k next) /\ seg h (final prev l) k next.
Proof.
  revert prev. induction l as [|a l IH]; intros prev; simpl; [tauto|].
  rewrite IH final_cons first_app. tauto.
Qed.

Lemma seg_frame h h' prev l next : (forall a, a ∈ l -> h' !! a = h !! a) -> seg h prev l next -> seg h' prev l next.
Proof.
  revert prev. induction l as [|a l IH]; intros prev Hf; simpl; [done|]. intros [(n & Hn & H1 & H2) Hs]. split.
  - exists n. rewrite Hf; [by left|]. done.
  - apply IH; [|done]. intros b Hb. apply Hf. by right.
Qed.

(** The fields that never change. *)
Definition static h h' : Prop :=
  forall a, (fun n => (n_value n, n_match n, n_id n)) <$> h' !! a = (fun n => (n_value n, n_match n, n_id n)) <$> h !! a.

#[local] Instance static_trans : Transitive static.
Proof. intros h1 h2 h3 H1 H2 a. by rewrite H2 H1. Qed.

Definition with_next n q : node Inp Out := mkNode (n_value n) (n_match n) (n_id n) q (n_prev n).
Definition with_prev n p : node Inp Out := mkNode (n_value n) (n_match n) (n_id n) (n_next n) p.

Lemma set_next_ret h a n q : h !! a = Some n -> set_next h (Some a) q = Ret (<[a := with_next n q]> h).
Proof. intros H. unfold set_next, deref. by rewrite H. Qed.

Lemma set_prev_ret h a n p : h !! a = Some n -> set_prev h (Some a) p = Ret (<[a := with_prev n p]> h).
Proof. intros H. unfold set_prev, deref. by rewrite H. Qed.

Lemma static_insert h a n n' :
  h !! a = Some n -> (n_value n', n_match n', n_id n') = (n_value n, n_match n, n_id n) -> static h (<[a := n']> h).
Proof.
  intros Ha E b. destruct (decide (b = a)) as [->|Hne].
  - by rewrite lookup_insert_eq Ha /= E.
  - rewrite lookup_insert_ne //. congruence.
Qed.

(** Unlinking [x], between [p] and the first node of [B]. *)
Definition unlink h p (q : option nat) : outcome (heap Inp Out) :=
  h ← set_next h (Some p) q;
  match q with None => Ret h | Some _ => set_prev h q (Some p) end.

Definition link h p x (q : option nat) : outcome (heap Inp Out) :=
  h ← set_next h (Some p) (Some x);
  match q with None => Ret h | Some _ => set_prev h q (Some x) end.

(** Unlinking [x] and linking it back. *)
Lemma repr_unlink h A p x B :
  repr h (A ++ p :: x :: B) ->
  exists h', unlink h p (first B None) = Ret h' /\ repr h' (A ++ p :: B) /\
    (forall a, a ∉ A ++ p :: B -> h' !! a = h !! a) /\ static h h' /\
    link h' p x (first B None) = Ret h.
Proof.
  intros [Hnd Hs]. apply NoDup_app in Hnd as (HndA & HdA & Hnd2). apply NoDup_cons in Hnd2 as [Hpn Hnd3].
  apply NoDup_cons in Hnd3 as [Hxn HndB]. rewrite not_elem_of_cons in Hpn. destruct Hpn as [Hpx HpB].
  apply seg_app in Hs as [HsA HsB]. simpl in HsA, HsB.
  destruct HsB as [(np & Hp & Hpp & Hpn) [(nx & Hx & Hxp & Hxn') HsB]].
  assert (p ∉ A) as HpA by (intros H; apply (HdA p H); left).
  assert (NoDup (A ++ p :: B)) as Hnd'.
  { apply NoDup_app. split_and!; [done| |by constructor]. intros a Ha [->|Hb]%elem_of_cons; [done|].
    apply (HdA a Ha). right. by right. }
  set (h1 := <[p := with_next np (first B None)]> h).
  assert (set_next h (Some p) (first B None) = Ret h1) as E1 by by apply set_next_ret.
  assert (seg h1 None A (Some p)) as HsA1.
  { eapply seg_frame; [|exact HsA]. intros a Ha. apply lookup_insert_ne. by intros ->. }
  assert (<[p := with_next (with_next np (first B None)) (Some x)]> h1 = h) as Eback.
  { unfold h1. rewrite insert_insert_eq insert_id //. destruct np. simpl in *. by subst. }
  assert (h1 !! p = Some (with_next np (first B None))) as Hp1 by (unfold h1; by rewrite lookup_insert_eq).
  unfold unlink, link. rewrite E1. destruct B as [|q B]; simpl in *.
  - exists h1. split_and!; try done.
    + split; [done|]. apply seg_app. split; [done|]. simpl. split; [|done]. by exists (with_next np None).
    + intros a Ha. unfold h1. apply lookup_insert_ne. intros ->. apply Ha. apply elem_of_app. right. left.
    + apply (static_insert _ _ _ _ Hp); done.
    + by rewrite (set_next_ret _ _ _ _ Hp1) Eback.
  - destruct HsB as [(nq & Hq & Hqp & Hqn) HsB]. rewrite !not_elem_of_cons in HpB, Hxn.
    destruct HpB as [Hpq HpB], Hxn as [Hxq HxB]. apply NoDup_cons in HndB as [HqB HndB].
    assert (q ∉ A) as HqA by (intros H; apply (HdA q H); right; right; left).
    assert (h1 !! q = Some nq) as Hq1 by (unfold h1; by rewrite lookup_insert_ne).
    set (h2 := <[q := with_prev nq (Some p)]> h1). exists h2. rewrite (set_prev_ret _ _ _ _ Hq1).
    split_and!; [done| | | |].
    + split; [done|]. apply seg_app. split; [|simpl; split; [|split]].
      * eapply seg_frame; [|exact HsA1]. intros a Ha. apply lookup_insert_ne. by intros ->.
      * exists (with_next np (Some q)). split; [|done]. unfold h2. rewrite lookup_insert_ne; [congruence|done].
      * exists (with_prev nq (Some p)). split; [|done]. unfold h2. by rewrite lookup_insert_eq.
      * eapply seg_frame; [|exact HsB]. intros a Ha. unfold h2, h1. rewrite lookup_insert_ne; [by intros ->|]. apply lookup_insert_ne. by intros ->.
    + intros a Ha. unfold h2, h1. rewrite lookup_insert_ne; [|apply lookup_insert_ne]; intros ->; apply Ha, elem_of_app; right;
        [right; left|left].
    + trans h1; [apply (static_insert _ _ _ _ Hp); done|apply (static_insert _ _ _ _ Hq1); done].
    + assert (h2 !! p = Some (with_next np (Some q))) as Hp2 by (unfold h2; rewrite lookup_insert_ne; [congruence|done]).
      rewrite (set_next_ret _ _ _ _ Hp2). simpl.
      rewrite (set_prev_ret _ q (with_prev nq (Some p))).
      { rewrite lookup_insert_ne //. unfold h2. by rewrite lookup_insert_eq. }
      f_equal. rewrite insert_insert_ne; [congruence|]. etrans; [|exact Eback]. f_equal. unfold h2. rewrite insert_insert_eq.
      rewrite insert_id //. rewrite Hq1. f_equal. clear -Hqp. destruct nq. simpl in *. by subst.
Qed.

Lemma repr_lookup h A x B : repr h (A ++ x :: B) ->
  exists n, h !! x = Some n /\ n_prev n = final None A /\ n_next n = first B None.
Proof. intros [_ Hs]. apply seg_app in Hs as [_ Hs]. simpl in Hs. by destruct Hs as [Hn _]. Qed.

Lemma snoc_split (A : list nat) p B : exists A' p', A ++ p :: B = A' ++ [p'] /\ final None (A ++ p :: B) = Some p'.
Proof.
  assert (A ++ p :: B <> []) as Hne by by destruct A.
  destruct (exists_last Hne) as (A' & p' & E). exists A', p'. rewrite E. split; [done|]. unfold final. by rewrite last_snoc.
Qed.

(** [lift] removes a call and its return, [unlift] puts them back. *)
Lemma lift_spec h A p e B m C ne :
  repr h (A ++ p :: e :: B ++ m :: C) -> h !! e = Some ne -> n_match ne = Some m ->
  exists h', lift h (Some e) = Ret h' /\ repr h' (A ++ p :: B ++ C) /\ static h h' /\ unlift h' (Some e) = Ret h.
Proof.
  intros Hr Hne Hm.
  assert (exists q, first (B ++ m :: C) None = Some q) as [q Hq] by (destruct B; simpl; eauto).
  destruct (repr_lookup h (A ++ [p]) e (B ++ m :: C)) as (ne' & Hne' & Hep & Hen); [by rewrite -assoc|].
  rewrite Hne in Hne'. injection Hne' as <-. unfold final in Hep. rewrite last_snoc in Hep. rewrite Hq in Hen.
  destruct (repr_unlink h A p e (B ++ m :: C) Hr) as (h1 & E1 & Hr1 & Hf1 & Hst1 & Hback1). rewrite Hq in E1, Hback1.
  destruct (snoc_split A p B) as (A' & p' & EA & Hfin).
  assert (A ++ p :: B ++ m :: C = A' ++ p' :: m :: C) as EL.
  { change (A ++ p :: B ++ m :: C) with (A ++ (p :: B) ++ m :: C). by rewrite assoc EA -assoc. }
  assert (A ++ p :: B ++ C = A' ++ p' :: C) as EL'.
  { change (A ++ p :: B ++ C) with (A ++ (p :: B) ++ C). by rewrite assoc EA -assoc. }
  destruct (repr_lookup h1 (A ++ p :: B) m C) as (nm & Hnm & Hmp & Hmn); [by rewrite -assoc|].
  rewrite Hfin in Hmp. rewrite EL in Hr1.
  destruct (repr_unlink h1 A' p' m C Hr1) as (h2 & E2 & Hr2 & Hf2 & Hst2 & Hback2).
  pose proof Hr as [Hnd _]. assert (e ∉ A ++ p :: B ++ m :: C) as Hefresh.
  { apply NoDup_app in Hnd as (_ & Hd & [Hp [He _]%NoDup_cons]%NoDup_cons). intros Hin.
    apply elem_of_app in Hin as [Hin|Hin]; [apply (Hd e Hin); right; left|].
    apply elem_of_cons in Hin as [->|Hin]; [apply Hp; left|done]. }
  assert (h1 !! e = Some ne) as He1 by (rewrite Hf1 //).
  assert (h2 !! e = Some ne) as He2.
  { rewrite Hf2 //. rewrite -EL'. intros Hin. apply Hefresh.
    apply elem_of_app in Hin as [?|[->|[?|?]%elem_of_app]%elem_of_cons]; apply elem_of_app; [by left|right..];
      [left|right; apply elem_of_app; by left|right; apply elem_of_app; right; by right]. }
  assert (h2 !! m = Some nm) as Hm2.
  { rewrite Hf2 //. destruct Hr1 as [Hnd1 _]. change (A' ++ p' :: m :: C) with (A' ++ [p'] ++ m :: C) in Hnd1.
    rewrite assoc in Hnd1. apply NoDup_app in Hnd1 as (_ & Hd & [HmC _]%NoDup_cons).
    change (A' ++ p' :: C) with (A' ++ [p'] ++ C). rewrite assoc. intros [Hin|Hin]%elem_of_app; [|done].
    apply (Hd m Hin). left. }
  exists h2. split_and!.
  - unfold lift. cbn [deref]. rewrite Hne. cbn [mbind outcome_bind]. rewrite Hep Hen.
    unfold unlink in E1. destruct (set_next h (Some p) (Some q)) as [h0|]; [|done]. cbn [mbind outcome_bind] in E1 |- *.
    rewrite E1. cbn [mbind outcome_bind]. rewrite Hm. cbn [deref]. rewrite Hnm. cbn [mbind outcome_bind]. rewrite Hmp Hmn.
    unfold unlink in E2. destruct (set_next h1 (Some p') _) as [h0'|]; [|done]. cbn [mbind outcome_bind] in E2 |- *. done.
  - by rewrite EL'.
  - by trans h1.
  - unfold unlift. cbn [deref]. rewrite He2. cbn [mbind outcome_bind]. rewrite Hm. cbn [deref]. rewrite Hm2.
    cbn [mbind outcome_bind]. rewrite Hmp Hmn. unfold link in Hback2.
    destruct (set_next h2 (Some p') (Some m)) as [h0|]; [|done]. cbn [mbind outcome_bind] in Hback2 |- *.
    rewrite Hback2. cbn [mbind outcome_bind]. rewrite Hep Hen. unfold link in Hback1. done.
Qed.

End list.
