(* ===== verification/PorcupineSpec.v ===== *)
(** * PorcupineSpec: histories and linearizations

    A well-formed history has, for every operation, one call entry and one
    return entry after it.  A linearization is an order of the operations that
    the sequential model accepts and that keeps an operation before another
    when it returned before the other was called. *)

From S2P Require Import Prelude Bitset Porcupine.
Local Open Scope Z_scope.

Section spec.
Context {Inp Out St : Type}.
Context (step : St -> Inp -> Out -> bool * St) (es : list (entry Inp Out)) (n : Z).

Record wf_history : Prop := {
  wf_len : len es = 2 * n;
  wf_id : forall k e, es !! k = Some e -> 0 <= e_id e < n;
  wf_value : forall k e, es !! k = Some e ->
    match e_kind e with
    | callEntry => exists i, e_value e = inl i
    | returnEntry => exists o, e_value e = inr o
    end;
  wf_uniq : forall k k' e e', es !! k = Some e -> es !! k' = Some e' ->
    e_kind e = e_kind e' -> e_id e = e_id e' -> k = k';
  wf_return : forall k e, es !! k = Some e -> e_kind e = callEntry ->
    exists k' e', (k < k')%nat /\ es !! k' = Some e' /\ e_kind e' = returnEntry /\ e_id e' = e_id e;
  wf_call : forall i, 0 <= i < n -> exists k e, es !! k = Some e /\ e_kind e = callEntry /\ e_id e = i;
}.

(** The entry of operation [i] at position [k]. *)
Definition call_at (k : nat) (i : Z) : Prop :=
  exists e, es !! k = Some e /\ e_kind e = callEntry /\ e_id e = i.
Definition return_at (k : nat) (i : Z) : Prop :=
  exists e, es !! k = Some e /\ e_kind e = returnEntry /\ e_id e = i.

(** The input and output of operation [i]. *)
Definition op_io (i : Z) (inp : Inp) (out : Out) : Prop :=
  (exists k e, es !! k = Some e /\ e_kind e = callEntry /\ e_id e = i /\ e_value e = inl inp) /\
  (exists k e, es !! k = Some e /\ e_kind e = returnEntry /\ e_id e = i /\ e_value e = inr out).

(** [a] returned before [b] was called. *)
Definition precedes (a b : Z) : Prop :=
  exists ka kb, return_at ka a /\ call_at kb b /\ (ka < kb)%nat.

(** The model accepts the operations in this order. *)
Inductive legal : St -> list Z -> Prop :=
| legal_nil st : legal st []
| legal_cons st i inp out st' l :
    op_io i inp out -> step st inp out = (true, st') -> legal st' l -> legal st (i :: l).

Record linearization (st : St) (l : list Z) : Prop := {
  lz_perm : l ≡ₚ seqZ 0 n;
  lz_legal : legal st l;
  lz_order : forall i j a b, l !! i = Some a -> l !! j = Some b -> precedes a b -> (i < j)%nat;
}.

Definition linearizable (st : St) : Prop := exists l, linearization st l.

(** ** Linearizing one operation at a time *)

Definition idof (k : nat) : Z := default (-1) (e_id <$> es !! k).

(** The positions whose operation is not yet linearized. *)
Definition live (X : gset Z) : list nat := filter (fun k => idof k ∉ X) (seq 0 (length es)).

Definition is_call (k : nat) : Prop := exists i, call_at k i.

(** The call of [i] is live and no live return is before it. *)
Definition candidate (X : gset Z) (k : nat) (i : Z) : Prop :=
  call_at k i /\ exists l1 l2, live X = l1 ++ k :: l2 /\ Forall is_call l1.

Inductive lin : gset Z -> St -> list Z -> Prop :=
| lin_nil X st : live X = [] -> lin X st []
| lin_cons X st k i inp out st' l :
    candidate X k i -> op_io i inp out -> step st inp out = (true, st') ->
    lin ({[i]} ∪ X) st' l -> lin X st (i :: l).

Definition dead (X : gset Z) (st : St) : Prop := forall l, ~ lin X st l.

(** Linearizing only the operations [l], from [X] and [st] to [X'] and [st']. *)
Inductive path : gset Z -> St -> list Z -> gset Z -> St -> Prop :=
| path_nil X st : path X st [] X st
| path_cons X st k i inp out st' l X' st2 :
    candidate X k i -> op_io i inp out -> step st inp out = (true, st') ->
    path ({[i]} ∪ X) st' l X' st2 -> path X st (i :: l) X' st2.

(** Some operations in an order that the model accepts and that keeps the order
    of the history, with every operation that returned before one of them was
    called. *)
Record partial_linearization (st : St) (l : list Z) : Prop := {
  pl_NoDup : NoDup l;
  pl_range : forall a, a ∈ l -> 0 <= a < n;
  pl_legal : legal st l;
  pl_order : forall i j a b, l !! i = Some a -> l !! j = Some b -> precedes a b -> (i < j)%nat;
  pl_closed : forall a b, b ∈ l -> precedes a b -> a ∈ l;
}.

Hypothesis Hwf : wf_history.

Lemma elem_live X k : k ∈ live X <-> (exists e, es !! k = Some e /\ e_id e ∉ X).
Proof.
  unfold live. rewrite list_elem_of_filter elem_of_seq. unfold idof. split.
  - intros [Hid Hk]. destruct (lookup_lt_is_Some_2 es k) as [e He]; [lia|]. rewrite He in Hid. eauto.
  - intros (e & He & Hid). rewrite He. split; [done|]. apply lookup_lt_Some in He. lia.
Qed.

Lemma filter_sorted (P : nat -> Prop) `{forall k, Decision (P k)} l : StronglySorted lt l -> StronglySorted lt (filter P l).
Proof.
  induction 1 as [|k l Hs IH Hk]; [constructor|]. rewrite filter_cons. case_decide; [|done]. constructor; [done|].
  apply Forall_forall. intros x [_ Hx]%list_elem_of_filter. rewrite Forall_forall in Hk. auto.
Qed.

Lemma seq_sorted m l : StronglySorted lt (seq m l).
Proof.
  revert m. induction l as [|l IH]; intros m; simpl; constructor; [done|].
  apply Forall_forall. intros x Hx%elem_of_seq. lia.
Qed.

Lemma live_sorted X : StronglySorted lt (live X).
Proof. apply filter_sorted, seq_sorted. Qed.

Lemma live_NoDup X : NoDup (live X).
Proof. apply NoDup_filter, NoDup_seq. Qed.

(** The live positions before [k]. *)
Lemma live_before X l1 k l2 k' : live X = l1 ++ k :: l2 -> k' ∈ l1 <-> k' ∈ live X /\ (k' < k)%nat.
Proof.
  intros E. pose proof (live_sorted X) as Hs. rewrite E in Hs |- *. split.
  - intros Hk. split; [apply elem_of_app; by left|]. eapply StronglySorted_app_1_elem_of; [exact Hs|done|left].
  - intros [[?|[->|Hk]%elem_of_cons]%elem_of_app Hlt]; [done|lia|].
    apply StronglySorted_app_1_r, StronglySorted_cons in Hs as [Hs _]. rewrite Forall_forall in Hs.
    specialize (Hs k' Hk). simpl in Hs. lia.
Qed.

Lemma call_unique k k' i : call_at k i -> call_at k' i -> k = k'.
Proof. intros (e & He & Hk & Hi) (e' & He' & Hk' & Hi'). apply (wf_uniq Hwf k k' e e'); congruence. Qed.

Lemma return_unique k k' i : return_at k i -> return_at k' i -> k = k'.
Proof. intros (e & He & Hk & Hi) (e' & He' & Hk' & Hi'). apply (wf_uniq Hwf k k' e e'); congruence. Qed.

Lemma call_or_return k e : es !! k = Some e -> call_at k (e_id e) \/ return_at k (e_id e).
Proof. intros He. destruct (e_kind e) eqn:Hk; [left|right]; exists e; done. Qed.

Lemma call_not_return k i j : call_at k i -> return_at k j -> False.
Proof. intros (e & He & Hk & _) (e' & He' & Hk' & _). congruence. Qed.

Lemma call_live X k i : call_at k i -> i ∉ X -> k ∈ live X.
Proof. intros (e & He & _ & <-) HX. apply elem_live. eauto. Qed.

Lemma return_live X k i : return_at k i -> k ∈ live X <-> i ∉ X.
Proof.
  intros (e & He & _ & <-). rewrite elem_live. split; [intros (e' & He' & ?); congruence|eauto].
Qed.

Lemma live_empty X : live X = [] <-> forall i, 0 <= i < n -> i ∈ X.
Proof.
  split.
  - intros E i Hi. destruct (decide (i ∈ X)) as [|HX]; [done|]. destruct (wf_call Hwf i Hi) as (k & e & He & Hk & <-).
    assert (k ∈ live X) as Hin by (apply elem_live; eauto). rewrite E in Hin. by apply elem_of_nil in Hin.
  - intros H. destruct (live X) as [|k l] eqn:E; [done|]. assert (k ∈ live X) as Hin by (rewrite E; left).
    apply elem_live in Hin as (e & He & HX). destruct HX. apply H. exact (wf_id Hwf k e He).
Qed.

Lemma candidate_iff X k i :
  call_at k i -> i ∉ X -> candidate X k i <-> forall b, b ∉ X -> ~ precedes b i.
Proof.
  intros Hc HX. split.
  - intros (_ & l1 & l2 & E & Hl1) b Hb (kb & k' & Hret & Hc' & Hlt). rewrite (call_unique _ _ _ Hc' Hc) in Hlt.
    assert (kb ∈ l1) as Hin by (apply (live_before X l1 k l2); [done|]; split; [exact (proj2 (return_live X kb b Hret) Hb)|done]).
    rewrite Forall_forall in Hl1. destruct (Hl1 kb Hin) as [j Hj]. exact (call_not_return _ _ _ Hj Hret).
  - intros H. split; [done|]. destruct (list_elem_of_split _ _ (call_live X k i Hc HX)) as (l1 & l2 & E).
    exists l1, l2. split; [done|]. apply Forall_forall. intros k' Hk'.
    apply (live_before X l1 k l2 k' E) in Hk' as [Hl Hlt]. apply elem_live in Hl as (e & He & HeX).
    destruct (call_or_return k' e He) as [Hc'|Hr]; [by exists (e_id e)|].
    exfalso. apply (H (e_id e) HeX). exists k', k. done.
Qed.

Definition ordered (l : list Z) : Prop :=
  forall i j a b, l !! i = Some a -> l !! j = Some b -> precedes a b -> (i < j)%nat.

Lemma ordered_cons a l : ordered (a :: l) <-> ordered l /\ (forall b, b ∈ a :: l -> ~ precedes b a).
Proof.
  split.
  - intros H. split.
    + intros i j x y Hi Hj Hp. specialize (H (S i) (S j) x y Hi Hj Hp). lia.
    + intros b (i & Hi)%list_elem_of_lookup_1 Hp. specialize (H i 0%nat b a Hi eq_refl Hp). lia.
  - intros [H1 H2] [|i] [|j] x y Hi Hj Hp; simpl in *.
    + injection Hi as <-. injection Hj as <-. exfalso. apply (H2 a); [left|done].
    + lia.
    + injection Hj as <-. exfalso. apply (H2 x); [|done]. right. exact (list_elem_of_lookup_2 _ _ _ Hi).
    + specialize (H1 i j x y Hi Hj Hp). lia.
Qed.

Lemma lin_iff X st l :
  lin X st l <-> NoDup l /\ (forall a, a ∈ l <-> 0 <= a < n /\ a ∉ X) /\ legal st l /\ ordered l.
Proof.
  revert X st. induction l as [|i l IH]; intros X st.
  - split.
    + inversion 1 as [? ? HE|]; subst. split_and!; [constructor| |constructor|done].
      intros a. rewrite elem_of_nil. split; [done|]. intros [Ha HX]. apply HX. exact (proj1 (live_empty X) HE a Ha).
    + intros (_ & H & _ & _). constructor. apply live_empty. intros a Ha.
      destruct (decide (a ∈ X)); [done|]. exfalso. eapply not_elem_of_nil, H. eauto.
  - split.
    + inversion 1 as [|? ? k ? inp out st' ? Hc Hio Hs Hl]; subst. apply IH in Hl as (Hnd & Hin & Hleg & Hord).
      destruct Hc as [Hcall Hc]. assert (i ∉ X) as HiX.
      { destruct Hc as (l1 & l2 & E & _). assert (k ∈ live X) as Hk by (rewrite E; apply elem_of_app; right; left).
        apply elem_live in Hk as (e & He & HX). destruct Hcall as (e' & He' & _ & <-). congruence. }
      assert (0 <= i < n) as Hir by (destruct Hcall as (e & He & _ & <-); exact (wf_id Hwf k e He)).
      assert (i ∉ l) as Hil by (rewrite Hin; set_solver).
      split_and!.
      * by constructor.
      * intros a. rewrite elem_of_cons Hin. destruct (decide (a = i)) as [->|Hne]; set_solver.
      * eapply legal_cons; eauto.
      * apply ordered_cons. split; [done|]. intros b Hb.
        apply (proj1 (candidate_iff X k i Hcall HiX) (conj Hcall Hc)).
        apply elem_of_cons in Hb as [->|Hb]; [done|]. apply Hin in Hb. set_solver.
    + intros (Hnd & Hin & Hleg & Hord). inversion Hleg as [|? ? inp out st' ? Hio Hs Hl]; subst.
      apply NoDup_cons in Hnd as [Hil Hnd]. apply ordered_cons in Hord as [Hord Hfst].
      destruct (proj1 (Hin i) ltac:(left)) as [Hir HiX].
      destruct (wf_call Hwf i Hir) as (k & e & He & Hk & Hi). assert (call_at k i) as Hcall by by exists e.
      assert (forall a, 0 <= a < n -> a ∉ X -> a ∈ i :: l) as Hall by (intros; by apply Hin).
      eapply lin_cons; [|exact Hio|exact Hs|].
      * apply (candidate_iff X k i Hcall HiX). intros b Hb Hp. apply (Hfst b); [|done]. apply Hall; [|done].
        destruct Hp as (kb & _ & (eb & Heb & _ & <-) & _). exact (wf_id Hwf kb eb Heb).
      * apply IH. split_and!; [done| |done|done]. intros a. split.
        { intros Ha. destruct (proj1 (Hin a) ltac:(by right)) as [Har HaX]. split; [done|].
          rewrite elem_of_union elem_of_singleton. intros [->|?]; done. }
        { intros [Har HaX]. rewrite elem_of_union elem_of_singleton in HaX.
          destruct (proj1 (elem_of_cons _ _ _) (Hall a Har ltac:(tauto))) as [->|?]; [tauto|done]. }
Qed.

Lemma lin_linearization st l : 0 <= n -> lin ∅ st l <-> linearization st l.
Proof.
  intros Hn. rewrite lin_iff. split.
  - intros (Hnd & Hin & Hleg & Hord). constructor; [|done|done].
    apply NoDup_Permutation; [done|apply NoDup_seqZ|]. intros a. rewrite Hin elem_of_seqZ.
    split; [intros [? _]; lia|]. intros ?. split; [lia|]. set_solver.
  - intros [Hp Hleg Hord]. split_and!; [rewrite Hp; apply NoDup_seqZ| |done|done].
    intros a. rewrite Hp elem_of_seqZ. split; [intros ?; split; [lia|set_solver]|intros [? _]; lia].
Qed.

(** ** Partial linearizations *)

Lemma path_snoc X st l X' st' k i inp out st2 :
  path X st l X' st' -> candidate X' k i -> op_io i inp out -> step st' inp out = (true, st2) ->
  path X st (l ++ [i]) ({[i]} ∪ X') st2.
Proof.
  induction 1 as [|X st k' i' inp' out' st1 l X' st3 Hc Hio Hs _ IH]; intros Hc2 Hio2 Hs2; simpl.
  - eapply path_cons; eauto. constructor.
  - eapply path_cons; eauto.
Qed.

Lemma candidate_fresh X k i : candidate X k i -> i ∉ X /\ 0 <= i < n.
Proof.
  intros [(e & He & _ & <-) (l1 & l2 & E & _)].
  assert (k ∈ live X) as Hk by (rewrite E; apply elem_of_app; right; left).
  apply elem_live in Hk as (e' & He' & HX). rewrite He in He'. injection He' as <-. split; [done|exact (wf_id Hwf k e He)].
Qed.

(** [l] can be linearized one operation at a time after the operations [X]. *)
Lemma path_iff X st l :
  (exists X' st', path X st l X' st') <->
  NoDup l /\ (forall a, a ∈ l -> 0 <= a < n /\ a ∉ X) /\ legal st l /\ ordered l /\
  (forall a b, b ∈ l -> precedes a b -> a ∈ l \/ a ∈ X).
Proof.
  revert X st. induction l as [|i l IH]; intros X st.
  - split; [|intros _; exists X, st; constructor]. intros _. split_and!; [constructor|set_solver|constructor|done|set_solver].
  - split.
    + intros (X' & st2 & Hp). inversion Hp as [|? ? k ? inp out st' ? ? ? Hc Hio Hs Hl]; subst.
      destruct (proj1 (IH ({[i]} ∪ X) st') ltac:(eauto)) as (Hnd & Hin & Hleg & Hord & Hcl).
      destruct (candidate_fresh _ _ _ Hc) as [HiX Hir].
      pose proof (proj1 (candidate_iff X k i (proj1 Hc) HiX) Hc) as Hfirst.
      assert (i ∉ l) as Hil by (intros H%Hin; set_solver). split_and!.
      * by constructor.
      * intros a [->|Ha]%elem_of_cons; [done|]. destruct (Hin a Ha). set_solver.
      * eapply legal_cons; eauto.
      * apply ordered_cons. split; [done|]. intros b [->|Hb]%elem_of_cons; [by apply Hfirst|].
        apply Hfirst. destruct (Hin b Hb). set_solver.
      * intros a b [->|Hb]%elem_of_cons Hp'; [right; destruct (decide (a ∈ X)); [done|by destruct (Hfirst a)]|].
        destruct (Hcl a b Hb Hp'); set_solver.
    + intros (Hnd & Hin & Hleg & Hord & Hcl). inversion Hleg as [|? ? inp out st' ? Hio Hs Hl]; subst.
      apply NoDup_cons in Hnd as [Hil Hnd]. apply ordered_cons in Hord as [Hord Hfst].
      destruct (Hin i ltac:(left)) as [Hir HiX].
      destruct (wf_call Hwf i Hir) as (k & e & He & Hk & Hi). assert (call_at k i) as Hcall by by exists e.
      destruct (proj2 (IH ({[i]} ∪ X) st')) as (X' & st2 & Hp).
      { split_and!; [done| |done|done|].
        - intros a Ha. destruct (Hin a ltac:(by right)). split; [done|]. rewrite elem_of_union elem_of_singleton. intros [->|?]; done.
        - intros a b Hb Hp. destruct (Hcl a b ltac:(by right) Hp) as [[->|?]%elem_of_cons|?]; set_solver. }
      exists X', st2. eapply path_cons; [|exact Hio|exact Hs|exact Hp]. apply (candidate_iff X k i Hcall HiX).
      intros b Hb Hp'. destruct (Hcl b i ltac:(left) Hp') as [Hb'|?]; [|done]. exact (Hfst b Hb' Hp').
Qed.

Lemma path_partial st l : (exists X' st', path ∅ st l X' st') <-> partial_linearization st l.
Proof.
  rewrite path_iff. split.
  - intros (Hnd & Hin & Hleg & Hord & Hcl). constructor; [done| |done|done|].
    + intros a Ha. by apply Hin.
    + intros a b Hb Hp. destruct (Hcl a b Hb Hp); [done|set_solver].
  - intros [Hnd Hin Hleg Hord Hcl]. split_and!; [done| |done|done|].
    + intros a Ha. split; [by apply Hin|set_solver].
    + intros a b Hb Hp. left. by apply (Hcl a b).
Qed.

Lemma path_set X st l X' st' : path X st l X' st' -> X' = list_to_set l ∪ X.
Proof. induction 1 as [|X st k i inp out st1 l X' st2 _ _ _ _ ->]; set_solver. Qed.

End spec.
