(* ===== verification/PorcupineHeap.v ===== *)
(** * PorcupineHeap: the list that [makeLinkedEntries] builds *)

From S2P Require Import Prelude Bitset Porcupine PorcupineList PorcupineSpec.

Section heap.
Context {Inp Out : Type}.
Implicit Types h : heap Inp Out.
Implicit Types es : list (entry Inp Out).

(** The position of the first return entry of [id]. *)
Definition first_ret (id : Z) es : option nat :=
  fst <$> list_find (fun e => e_kind e = returnEntry /\ e_id e = id) es.

Lemma insertBefore_first h l i (nd : node Inp Out) :
  seg h None l None -> NoDup (i :: l) -> n_next nd = None -> n_prev nd = None ->
  exists h', insertBefore (<[i := nd]> h) (Some i) (first l None) = Ret h' /\
    seg h' None (i :: l) None /\ static (<[i := nd]> h) h'.
Proof.
  intros Hs Hnd Hnn Hnp. apply NoDup_cons in Hnd as [Hi Hnd]. unfold insertBefore.
  destruct l as [|a l]; simpl.
  - exists (<[i := nd]> h). split_and!; [done| |done|done]. exists nd. rewrite lookup_insert_eq. done.
  - destruct Hs as [(n & Hn & Hp & Hx) Hs]. rewrite not_elem_of_cons in Hi. destruct Hi as [Hia Hil].
    apply NoDup_cons in Hnd as [Hal Hnd].
    assert ((<[i := nd]> h) !! a = Some n) as Ha by (rewrite lookup_insert_ne; [congruence|done]).
    rewrite Ha. cbn [mbind outcome_bind]. rewrite (set_prev_ret _ _ _ _ Ha). cbn [mbind outcome_bind].
    set (h1 := <[a := with_prev n (Some i)]> (<[i := nd]> h)).
    assert (h1 !! i = Some nd) as Hi1 by (unfold h1; rewrite lookup_insert_ne; [congruence|by rewrite lookup_insert_eq]).
    rewrite (set_next_ret _ _ _ _ Hi1). cbn [mbind outcome_bind]. rewrite Hp. eexists. split; [done|]. split.
    + split; [|split].
      * exists (with_next nd (Some a)). by rewrite lookup_insert_eq.
      * exists (with_prev n (Some i)). rewrite lookup_insert_ne; [congruence|]. unfold h1. by rewrite lookup_insert_eq.
      * eapply seg_frame; [|exact Hs]. intros b Hb. rewrite lookup_insert_ne; [by intros ->|]. unfold h1.
        rewrite lookup_insert_ne; [by intros ->|]. apply lookup_insert_ne. by intros ->.
    + intros b. etrans; [apply (static_insert _ _ _ _ Hi1); done|]. apply (static_insert _ _ _ _ Ha). done.
Qed.

(** A node holds its entry; a call points to the return at [m]. *)
Definition holds (nd : node Inp Out) (e : entry Inp Out) (m : option nat) : Prop :=
  n_value nd = Some (e_value e) /\ n_id nd = e_id e /\
  n_match nd = match e_kind e with returnEntry => None | callEntry => m end.

Lemma static_holds h h' a nd e m :
  static h h' -> h !! a = Some nd -> holds nd e m -> exists nd', h' !! a = Some nd' /\ holds nd' e m.
Proof.
  intros Hst Ha (H1 & H2 & H3). specialize (Hst a). rewrite Ha in Hst. simpl in Hst.
  destruct (h' !! a) as [nd'|]; [|done]. simpl in Hst. injection Hst as E1 E2 E3. exists nd'. split; [done|].
  unfold holds. by rewrite E1 E2 E3.
Qed.

Lemma first_ret_cons id e es :
  first_ret id (e :: es) = if bool_decide (e_kind e = returnEntry /\ e_id e = id) then Some 0
                           else S <$> first_ret id es.
Proof.
  unfold first_ret. simpl. case_bool_decide as H; [by rewrite decide_True|]. rewrite decide_False //.
  by destruct (list_find _ es) as [[]|].
Qed.

Lemma link_spec es off :
  exists h mt, foldr linkEntry (Ret (∅, None, ∅)) (imap (fun i e => (off + i, e)) es) =
      Ret (h, first (seq off (length es)) None, mt) /\
    seg h None (seq off (length es)) None /\
    (forall k e, es !! k = Some e -> exists nd, h !! (off + k) = Some nd /\
       holds nd e ((fun j => off + S k + j) <$> first_ret (e_id e) (drop (S k) es))) /\
    (forall id, mt !! id = (fun j => off + j) <$> first_ret id es).
Proof.
  revert off. induction es as [|e es IH]; intros off.
  { exists ∅, ∅. split_and!; done. }
  destruct (IH (S off)) as (h & mt & E & Hs & Hh & Hm).
  assert (imap (fun i e => (off + i, e)) (e :: es) = (off, e) :: imap (fun i e => (S off + i, e)) es) as ->.
  { rewrite imap_cons. f_equal; [f_equal; lia|]. apply imap_ext. intros i x _. simpl. f_equal. lia. }
  cbn [foldr]. rewrite E. unfold linkEntry at 1. cbn [mbind outcome_bind].
  set (m := match e_kind e with returnEntry => None | callEntry => mt !! e_id e end).
  destruct (insertBefore_first h (seq (S off) (length es)) off (mkNode (Some (e_value e)) m (e_id e) None None))
    as (h' & E' & Hs' & Hst'); [done| |done|done|].
  { constructor; [|apply NoDup_seq]. rewrite elem_of_seq. lia. }
  set (mt' := match e_kind e with returnEntry => <[e_id e := off]> mt | callEntry => mt end).
  exists h', mt'. split_and!.
  - unfold m, mt' in *. destruct (e_kind e); simpl in E' |- *; by rewrite E'.
  - exact Hs'.
  - intros [|k] x Hk; simpl in Hk.
    + injection Hk as ->. rewrite Nat.add_0_r. eapply static_holds; [exact Hst'|by rewrite lookup_insert_eq|].
      split_and!; [done|done|]. simpl. unfold m. destruct (e_kind x); [|done]. rewrite Hm drop_0.
      destruct (first_ret (e_id x) es); simpl; [f_equal; lia|done].
    + destruct (Hh k x Hk) as (nd & Hnd & Hho). replace (off + S k) with (S off + k) by lia.
      eapply static_holds; [exact Hst'| |].
      * rewrite lookup_insert_ne; [lia|]. exact Hnd.
      * simpl. destruct Hho as (H1 & H2 & H3). split_and!; [done|done|]. rewrite H3. destruct (e_kind x); [|done].
        destruct (first_ret _ _); simpl; [f_equal; lia|done].
  - intros id. rewrite first_ret_cons. unfold mt'. destruct (e_kind e) eqn:Hk.
    + rewrite bool_decide_false; [by intros [? _]|]. rewrite Hm. destruct (first_ret id es); simpl; [f_equal; lia|done].
    + destruct (decide (e_id e = id)) as [<-|Hne].
      * rewrite lookup_insert_eq bool_decide_true //. simpl. f_equal. lia.
      * rewrite lookup_insert_ne // bool_decide_false; [by intros [_ ?]|]. rewrite Hm.
        destruct (first_ret id es); simpl; [f_equal; lia|done].
Qed.

Lemma seg_length h l fuel acc prev :
  seg h prev l None -> length l < fuel -> length_ fuel h (first l None) acc = Ret (acc + Z.of_nat (length l))%Z.
Proof.
  revert l acc prev. induction fuel as [|fuel IH]; intros l acc prev Hs Hf; [lia|].
  destruct l as [|a l]; simpl; [by rewrite Z.add_0_r|]. destruct Hs as [(n & Hn & _ & Hx) Hs].
  rewrite Hn. cbn [mbind outcome_bind]. rewrite Hx (IH l _ (Some a)); [done|simpl in Hf; lia|]. f_equal. lia.
Qed.

End heap.
