(* ===== verification/PorcupineCheck.v ===== *)
(** * PorcupineCheck: the checker decides linearizability

    The search is a depth-first search over the orders in which operations can
    be linearized, cut off by the cache.  [explore]: from any configuration the
    search either ends with a linearization or comes back to the first live
    return with every candidate refuted, and everything in the cache that is
    not in progress is refuted. *)

From S2P Require Import Prelude Bitset Porcupine PorcupineList PorcupineSpec PorcupineHeap.
Local Open Scope Z_scope.

Section check.
Context {Inp Out St : Type}.
Context (model : Model Inp Out St) (equal : St -> St -> bool) (computePartial : bool).
Context (es : list (entry Inp Out)) (n : Z).
Hypothesis Hwf : wf_history es n.

Notation head := (length es).
Notation live := (live es).
Notation lin := (lin (Step model) es).
Notation dead := (dead (Step model) es).

Context (h0 : heap Inp Out).
Hypothesis Hh0 : forall k e, es !! k = Some e ->
  exists nd, h0 !! k = Some nd /\ holds nd e ((fun j => 0 + S k + j)%nat <$> first_ret (e_id e) (drop (S k) es)).

Definition iter (c c' : Search Inp Out St) : Prop := checkIter model equal computePartial n head false c = Ret (inl c').

(** ** Nodes *)

Lemma match_of k e : es !! k = Some e -> e_kind e = callEntry ->
  exists k', (fun j => 0 + S k + j)%nat <$> first_ret (e_id e) (drop (S k) es) = Some k' /\
    (k < k')%nat /\ return_at es k' (e_id e).
Proof.
  intros He Hk. destruct (wf_return es n Hwf k e He Hk) as (k' & e' & Hlt & He' & Hk' & Hid).
  unfold first_ret. destruct (list_find _ (drop (S k) es)) as [[j x]|] eqn:E.
  - apply list_find_Some in E as (Hj & [Hx1 Hx2] & _). rewrite lookup_drop in Hj. exists (S k + j)%nat.
    split; [done|]. split; [lia|]. by exists x.
  - exfalso. apply list_find_None in E. rewrite Forall_lookup in E. apply (E (k' - S k)%nat e'); [|done].
    rewrite lookup_drop. by replace (S k + (k' - S k))%nat with k' by lia.
Qed.

Lemma node_call (h : heap Inp Out) k i : static h0 h -> call_at es k i ->
  exists nd k' inp, h !! k = Some nd /\ n_value nd = Some (inl inp) /\ n_id nd = i /\ n_match nd = Some k' /\
    return_at es k' i /\ (k < k')%nat /\ exists e, es !! k = Some e /\ e_value e = inl inp.
Proof.
  intros Hst (e & He & Hk & <-). destruct (Hh0 k e He) as (nd0 & Hnd0 & Hho).
  destruct (match_of k e He Hk) as (k' & E & Hlt & Hr). rewrite E in Hho.
  destruct (static_holds _ _ _ _ _ _ Hst Hnd0 Hho) as (nd & Hnd & H1 & H2 & H3).
  pose proof (wf_value es n Hwf k e He) as Hv. rewrite Hk in Hv, H3. destruct Hv as [inp Hv].
  exists nd, k', inp. rewrite H1 H2 H3 Hv. split_and!; try done. by exists e.
Qed.

Lemma node_return (h : heap Inp Out) k i : static h0 h -> return_at es k i ->
  exists nd out, h !! k = Some nd /\ n_value nd = Some (inr out) /\ n_match nd = None /\
    exists e, es !! k = Some e /\ e_value e = inr out.
Proof.
  intros Hst (e & He & Hk & <-). destruct (Hh0 k e He) as (nd0 & Hnd0 & Hho).
  destruct (static_holds _ _ _ _ _ _ Hst Hnd0 Hho) as (nd & Hnd & H1 & H2 & H3).
  pose proof (wf_value es n Hwf k e He) as Hv. rewrite Hk in Hv, H3. destruct Hv as [out Hv].
  exists nd, out. rewrite H1 H3 Hv. split_and!; try done. by exists e.
Qed.

(** ** Configurations *)

Record good (h : heap Inp Out) (b : bitset) (X : gset Z) (cs : list (callsEntry St)) (longest : list (option nat)) : Prop := {
  g_repr : repr h (head :: live X);
  g_static : static h0 h;
  g_bits : represents b X;
  g_cap : n <= 64 * len b;
  g_len : len b = len (newBitset n);
  g_X : forall i, i ∈ X -> 0 <= i < n;
  g_calls : Forall (fun v : callsEntry St => exists k, ca_entry v = Some k /\ is_call es k) cs;
  g_longest : len longest = n;
  g_size : size X = length cs;
  g_ids : forall i, i ∈ X -> exists v k, v ∈ cs /\ ca_entry v = Some k /\ call_at es k i;
}.

Lemma head_next (h : heap Inp Out) X : repr h (head :: live X) ->
  exists nd : node Inp Out, h !! head = Some nd /\ n_next nd = first (live X) None.
Proof. intros [_ [(nd & H1 & _ & H2) _]]. eauto. Qed.

(** Removing an operation from the live list removes its two entries. *)
Lemma live_remove X l1 k l2 k' i :
  live X = l1 ++ k :: l2 -> call_at es k i -> return_at es k' i -> (k < k')%nat ->
  exists l3 l4, l2 = l3 ++ k' :: l4 /\ live ({[i]} ∪ X) = l1 ++ l3 ++ l4.
Proof.
  intros E Hc Hr Hlt. assert (k ∈ live X) as Hk by (rewrite E; apply elem_of_app; right; left).
  assert (i ∉ X) as HiX.
  { apply elem_live in Hk as (e & He & HX). destruct Hc as (e' & He' & _ & <-). congruence. }
  assert (k' ∈ live X) as Hk' by (by apply (return_live es X k' i)).
  assert (k' ∈ l2) as Hin.
  { rewrite E in Hk'. apply elem_of_app in Hk' as [Hk'|[->|?]%elem_of_cons]; [|lia|done].
    apply (live_before es X l1 k l2 k' E) in Hk' as [_ ?]. lia. }
  destruct (list_elem_of_split _ _ Hin) as (l3 & l4 & ->). exists l3, l4. split; [done|].
  assert (live ({[i]} ∪ X) = filter (fun j => j ∉ [k; k']) (live X)) as ->.
  { unfold PorcupineSpec.live. rewrite list_filter_filter.
    assert (forall j, j ∈ seq 0 (length es) -> idof es j ∉ {[i]} ∪ X <-> j ∉ [k; k'] /\ idof es j ∉ X) as Hiff.
    { intros j Hj%elem_of_seq. destruct (lookup_lt_is_Some_2 es j) as [e He]; [lia|].
      unfold idof. rewrite He. cbn. rewrite not_elem_of_union not_elem_of_singleton !not_elem_of_cons.
      destruct (decide (e_id e = i)) as [Hi|Hi].
      - split; [naive_solver|]. intros [(H1 & H2 & _) _]. exfalso.
        destruct (call_or_return es j e He) as [Hj'|Hj']; rewrite Hi in Hj'.
        + apply H1. exact (call_unique es n Hwf _ _ _ Hj' Hc).
        + apply H2. exact (return_unique es n Hwf _ _ _ Hj' Hr).
      - split; [|naive_solver]. intros [_ HX]. split; [|done]. split_and!; [| |apply not_elem_of_nil].
        + intros ->. destruct Hc as (e' & He' & _ & Hi'). congruence.
        + intros ->. destruct Hr as (e' & He' & _ & Hi'). congruence. }
    revert Hiff. generalize (seq 0 (length es)). intros l. induction l as [|j l IH]; intros Hiff; [done|].
    rewrite !filter_cons IH; [intros; apply Hiff; by right|]. pose proof (Hiff j ltac:(left)) as Hj.
    repeat case_decide; try done; tauto. }
  assert (forall l : list nat, k ∉ l -> k' ∉ l -> filter (fun j => j ∉ [k; k']) l = l) as Hid.
  { intros l Ha Hb. induction l as [|j l IH]; [done|]. rewrite not_elem_of_cons in Ha. rewrite not_elem_of_cons in Hb.
    rewrite filter_cons decide_True.
    - rewrite !not_elem_of_cons. split_and!; [naive_solver..|apply not_elem_of_nil].
    - rewrite IH; naive_solver. }
  pose proof (live_NoDup es X) as Hnd. rewrite E in Hnd |- *. apply NoDup_app in Hnd as (_ & Hd & [Hkn Hnd]%NoDup_cons).
  apply NoDup_app in Hnd as (_ & Hd' & [Hkn' _]%NoDup_cons). rewrite not_elem_of_app not_elem_of_cons in Hkn.
  rewrite filter_app filter_cons_False; [set_solver|]. rewrite filter_app filter_cons_False; [set_solver|].
  assert (k ∉ l1) as H1 by (intros H; apply (Hd k H); left).
  assert (k' ∉ l1) as H2 by (intros H; apply (Hd k' H); right; apply elem_of_app; right; left).
  assert (k' ∉ l3) as H3 by (intros H; apply (Hd' k' H); left).
  destruct Hkn as (H4 & _ & H5). by rewrite !Hid.
Qed.

Lemma split_fresh X l1 k l2 i : live X = l1 ++ k :: l2 -> call_at es k i -> i ∉ X.
Proof.
  intros E (e' & He' & _ & <-). assert (k ∈ live X) as Hk by (rewrite E; apply elem_of_app; right; left).
  apply elem_live in Hk as (e & He & ?). congruence.
Qed.

(** ** Iterations *)

(** The configuration at live position [e]. *)
Definition at_entry h b cache cs longest seqs st e : Search Inp Out St :=
  mkSearch h e b cache cs longest seqs st.

Lemma entry_next (h : heap Inp Out) X l1 k l2 nd :
  repr h (head :: live X) -> live X = l1 ++ k :: l2 -> h !! k = Some nd -> n_next nd = first l2 None.
Proof.
  intros Hr E Hk. rewrite E in Hr. change (head :: l1 ++ k :: l2) with ((head :: l1) ++ k :: l2) in Hr.
  destruct (repr_lookup h (head :: l1) k l2 Hr) as (nd' & Hk' & _ & Hx). congruence.
Qed.

Lemma op_io_intro k k' i inp out e e' :
  call_at es k i -> return_at es k' i -> es !! k = Some e -> e_value e = inl inp ->
  es !! k' = Some e' -> e_value e' = inr out -> op_io es i inp out.
Proof.
  intros (x & Hx & Hxk & Hxi) (y & Hy & Hyk & Hyi) He Hv He' Hv'. rewrite He in Hx. rewrite He' in Hy. injection Hx as <-. injection Hy as <-.
  split; [by exists k, e|by exists k', e'].
Qed.

(** What an iteration does at a call. *)
Lemma iter_call h b X cs longest seqs st cache l1 k l2 i :
  good h b X cs longest -> live X = l1 ++ k :: l2 -> call_at es k i ->
  exists inp out, op_io es i inp out /\
    let c := at_entry h b cache cs longest seqs st (Some k) in
    let skip := iter c (at_entry h b cache cs longest seqs st (first l2 None)) in
    let '(ok, st') := Step model st inp out in
    if ok then
      exists b' h', represents b' ({[i]} ∪ X) /\ len b' = len b /\
        good h' b' ({[i]} ∪ X) (cs ++ [mkCallsEntry (Some k) st]) longest /\ unlift h' (Some k) = Ret h /\
        if cacheContains equal cache (mkCacheEntry b' st') then skip
        else iter c (at_entry h' b'
               (<[hash b' := default [] (cache !! hash b') ++ [mkCacheEntry b' st']]> cache)
               (cs ++ [mkCallsEntry (Some k) st]) longest seqs st' (first (live ({[i]} ∪ X)) None))
    else skip.
Proof.
  intros [Hr Hst Hb Hcap Hln HX Hcs Hlo Hsz Hids] E Hc.
  assert (i ∉ X) as HiX by exact (split_fresh X l1 k l2 i E Hc).
  destruct (node_call h k i Hst Hc) as (nd & k' & inp & Hk & Hv & Hid & Hm & Hret & Hlt & e & He & Hev).
  destruct (node_return h k' i Hst Hret) as (nd' & out & Hk' & Hv' & Hm' & e' & He' & Hev').
  exists inp, out. split; [eapply (op_io_intro k k'); eauto|]. cbv zeta.
  destruct (head_next h X Hr) as (hd & Hhd & Hhn).
  assert (0 <= i < n) as Hi by (destruct Hc as (x & Hx & _ & <-); exact (wf_id es n Hwf k x Hx)).
  assert (exists a, first (live X) None = Some a) as [a Ha] by (rewrite E; destruct l1; simpl; eauto).
  pose proof (entry_next h X l1 k l2 nd Hr E Hk) as Hnx.
  destruct (Step model st inp out) as [ok st'] eqn:Hs. unfold iter, checkIter, at_entry. simpl. rewrite Hhd.
  cbn [mbind outcome_bind]. rewrite Hhn Ha Hk. cbn [mbind outcome_bind]. rewrite Hm. simpl. rewrite Hk'.
  cbn [mbind outcome_bind]. rewrite Hv Hv'. cbn [mbind outcome_bind asInput asOutput]. rewrite Hs.
  destruct ok; [|unfold set_entry; simpl; by rewrite Hnx].
  destruct (set_represents b X i Hb) as (b' & Hset & Hb' & Hlen); [lia|].
  destruct (live_remove X l1 k l2 k' i E Hc Hret Hlt) as (l3 & l4 & -> & El).
  destruct (snoc_split [] head l1) as (A & p & EA & _). simpl in EA.
  assert (head :: live X = A ++ p :: k :: l3 ++ k' :: l4) as EL.
  { rewrite E. change (head :: l1 ++ k :: l3 ++ k' :: l4) with ((head :: l1) ++ k :: l3 ++ k' :: l4). rewrite EA -assoc. done. }
  assert (head :: live ({[i]} ∪ X) = A ++ p :: l3 ++ l4) as EL'.
  { rewrite El. change (head :: l1 ++ l3 ++ l4) with ((head :: l1) ++ l3 ++ l4). rewrite EA -assoc. done. }
  rewrite EL in Hr. destruct (lift_spec h A p k l3 k' l4 nd Hr Hk Hm) as (h' & Hlift & Hr' & Hst' & Hunl).
  rewrite -EL' in Hr'. exists b', h'. split; [done|]. split; [done|]. split_and!; [|done|].
  - constructor; try done.
    + intros j. rewrite (Hst' j). apply Hst.
    + lia.
    + lia.
    + intros j [->%elem_of_singleton|?]%elem_of_union; auto.
    + apply Forall_app. split; [done|]. constructor; [|done]. exists k. split; [done|]. by exists i.
    + rewrite size_union; [set_solver|]. rewrite size_singleton length_app Hsz. simpl. lia.
    + intros j [->%elem_of_singleton|(v & k2 & Hv2 & Hk2)%Hids]%elem_of_union.
      * exists (mkCallsEntry (Some k) st), k. split; [apply elem_of_app; right; left|done].
      * exists v, k2. split; [apply elem_of_app; by left|done].
  - unfold clone. rewrite Hid Hset. cbn [mbind outcome_bind].
    destruct (cacheContains equal cache _) eqn:Hcc; simpl; [unfold set_entry; simpl; by rewrite Hnx|].
    unfold lift in Hlift |- *. simpl in Hlift |- *. rewrite Hlift. cbn [mbind outcome_bind].
    destruct (head_next h' ({[i]} ∪ X) Hr') as (hd' & Hhd' & Hhn'). rewrite Hhd'. cbn [mbind outcome_bind]. by rewrite Hhn'.
Qed.

(** ** Partial linearizations *)

Lemma callIds_ret (h : heap Inp Out) (cs : list (callsEntry St)) :
  static h0 h -> Forall (fun v : callsEntry St => exists k, ca_entry v = Some k /\ is_call es k) cs ->
  exists ids, callIds h cs = Ret ids /\ length ids = length cs.
Proof.
  intros Hst Hcs. induction Hcs as [|v cs (k & Hk & i & Hc) _ (ids & IH & Hlen)]; [by exists []|].
  destruct (node_call h k i Hst Hc) as (nd & _ & _ & Hnd & _). exists (n_id nd :: ids).
  unfold callIds in *. simpl. rewrite Hk. simpl. rewrite Hnd. cbn [mbind outcome_bind]. simpl. rewrite IH Hlen. done.
Qed.

(** [longest] has a sequence of at least [m] operations for operation [i]. *)
Definition recorded (longest : list (option nat)) (seqs : list (list Z)) (i : Z) (m : nat) : Prop :=
  exists p s, longest !! Z.to_nat i = Some (Some p) /\ seqs !! p = Some s /\ (m <= length s)%nat.

Definition extends (longest : list (option nat)) seqs longest' seqs' : Prop :=
  forall i m, 0 <= i -> recorded longest seqs i m -> recorded longest' seqs' i m.

Lemma extends_refl longest seqs : extends longest seqs longest seqs.
Proof. done. Qed.

Lemma extends_trans lo1 sq1 lo2 sq2 lo3 sq3 : extends lo1 sq1 lo2 sq2 -> extends lo2 sq2 lo3 sq3 -> extends lo1 sq1 lo3 sq3.
Proof. intros H1 H2 i m Hi H. by apply H2, H1. Qed.

Lemma recorded_le longest seqs i m m' : (m' <= m)%nat -> recorded longest seqs i m -> recorded longest seqs i m'.
Proof. intros Hle (p & s & H1 & H2 & H3). exists p, s. split_and!; [done|done|lia]. Qed.

Lemma recorded_app longest seqs more i m : recorded longest seqs i m -> recorded longest (seqs ++ more) i m.
Proof. intros (p & s & H1 & H2 & H3). exists p, s. split_and!; [done|by apply lookup_app_l_Some|done]. Qed.

(** Pointing operation [i] to a sequence that is no shorter than its own. *)
Lemma extends_set longest seqs i p s :
  0 <= i -> seqs !! p = Some s -> (forall m, recorded longest seqs i m -> (m <= length s)%nat) ->
  extends longest seqs (<[Z.to_nat i := Some p]> longest) seqs.
Proof.
  intros Hi Hp Hle j m Hj Hr. pose proof Hr as (q & s' & H1 & H2 & H3). destruct (decide (j = i)) as [->|Hne].
  - exists p, s. split_and!; [|done|by apply Hle]. apply list_lookup_insert_eq. apply lookup_lt_Some in H1. lia.
  - exists q, s'. split_and!; [|done|done]. rewrite list_lookup_insert_ne; [lia|done].
Qed.

(** The loop over the calls records a sequence at least as long as the stack
    for each of them and loses none. *)
Lemma updateLongest_ret (h : heap Inp Out) (cs todo : list (callsEntry St)) longest seq seqs :
  static h0 h -> Forall (fun v : callsEntry St => exists k, ca_entry v = Some k /\ is_call es k) cs ->
  Forall (fun v : callsEntry St => exists k, ca_entry v = Some k /\ is_call es k) todo -> len longest = n ->
  (forall p, seq = Some p -> exists s, seqs !! p = Some s /\ length s = length cs) ->
  exists longest' seqs', updateLongest h cs todo longest seq seqs = Ret (longest', seqs') /\ len longest' = n /\
    extends longest seqs longest' seqs' /\
    forall v k i, v ∈ todo -> ca_entry v = Some k -> call_at es k i -> recorded longest' seqs' i (length cs).
Proof.
  intros Hst Hcs Htodo. revert longest seq seqs. induction Htodo as [|v todo (k & Hk & i & Hc) _ IH]; intros longest seq seqs Hl Hsq.
  { exists longest, seqs. split_and!; [done|done|done|]. intros v k i Hv. by apply elem_of_nil in Hv. }
  destruct (node_call h k i Hst Hc) as (nd & _ & _ & Hnd & _ & Hid & _). cbn [updateLongest]. rewrite Hk. simpl. rewrite Hnd.
  cbn [mbind outcome_bind]. rewrite Hid.
  assert (0 <= i < n) as Hi by (destruct Hc as (x & Hx & _ & <-); exact (wf_id es n Hwf k x Hx)).
  assert (forall lo sq lo' sq', extends lo sq lo' sq' -> recorded lo sq i (length cs) ->
    (forall v k i, v ∈ todo -> ca_entry v = Some k -> call_at es k i -> recorded lo' sq' i (length cs)) ->
    forall v' k i, v' ∈ v :: todo -> ca_entry v' = Some k -> call_at es k i -> recorded lo' sq' i (length cs)) as Hcons.
  { intros lo sq lo' sq' He Hr Ht v' k2 i2 [->|Hv]%elem_of_cons Hk2 Hc2; [|exact (Ht _ _ _ Hv Hk2 Hc2)]. rewrite Hk in Hk2. injection Hk2 as <-.
    assert (i2 = i) as -> by (destruct Hc as (x & Hx & _ & <-), Hc2 as (y & Hy & _ & <-); congruence). apply He; [lia|done]. }
  destruct (slice_get_in_range longest i) as [old Ho]; [lia|]. rewrite Ho. cbn [mbind outcome_bind].
  pose proof (proj1 (slice_get_nat longest i old (proj1 Hi)) Ho) as Hold.
  set (shorter := match old with None => true | Some p => _ end). destruct shorter eqn:Hsh; cycle 1.
  { destruct old as [p|]; [|done]. subst shorter. simpl in Hsh. destruct (seqs !! p) as [s|] eqn:Hp; [|done].
    apply bool_decide_eq_false in Hsh. destruct (IH longest seq seqs Hl Hsq) as (lo' & sq' & H1 & H2 & H3 & H4).
    exists lo', sq'. split_and!; [done|done|done|]. apply (Hcons longest seqs); [done| |done].
    exists p, s. split_and!; [done|done|unfold len in Hsh; lia]. }
  assert (exists p seqs1 s, (match seq with Some p => Ret (p, seqs) | None => ids ← callIds h cs; Ret (length seqs, seqs ++ [ids]) end)
    = Ret (p, seqs1) /\ seqs1 !! p = Some s /\ length s = length cs /\ exists more, seqs1 = seqs ++ more)
    as (p & seqs1 & s & E & Hp & Hs & more & Hmore).
  { destruct seq as [p|].
    - destruct (Hsq p eq_refl) as (s & H1 & H2). exists p, seqs, s. split_and!; [done|done|done|]. exists []. by rewrite app_nil_r.
    - destruct (callIds_ret h cs Hst Hcs) as (ids & Hids & Hlen). rewrite Hids. simpl. exists (length seqs), (seqs ++ [ids]), ids.
      split_and!; [done| |done|by eexists]. by rewrite lookup_app_r // Nat.sub_diag. }
  rewrite E. cbn [mbind outcome_bind]. unfold slice_set. rewrite bool_decide_true; [lia|]. cbn [mbind outcome_bind].
  assert (extends longest seqs (<[Z.to_nat i := Some p]> longest) seqs1) as Hext.
  { eapply extends_trans; [intros ? ? ?; apply (recorded_app _ _ more)|]. rewrite -Hmore. apply (extends_set _ _ _ _ s); [lia|done|].
    intros m (q & t & H1 & H2 & H3). rewrite Hold in H1. injection H1 as ->. subst shorter. simpl in Hsh.
    destruct (seqs !! q) as [t'|] eqn:Hq.
    - rewrite Hmore (lookup_app_l_Some _ _ _ _ Hq) in H2. injection H2 as <-. apply bool_decide_eq_true in Hsh. unfold len in Hsh. lia.
    - rewrite Hs. destruct seq as [p'|].
      + injection E as <- ->. congruence.
      + destruct (callIds h cs) as [ids|]; [|done]. injection E as <- <-. rewrite lookup_app_r in H2; [exact (lookup_ge_None_1 _ _ Hq)|].
        destruct (q - length seqs)%nat eqn:Eq; [|done]. injection H2 as <-. rewrite lookup_app_r // Nat.sub_diag in Hp. injection Hp as <-. lia. }
  destruct (IH (<[Z.to_nat i := Some p]> longest) (Some p) seqs1) as (lo' & sq' & H1 & H2 & H3 & H4).
  { by rewrite len_insert. }
  { intros q [= <-]. eauto. }
  exists lo', sq'. split_and!; [done|done|exact (extends_trans _ _ _ _ _ _ Hext H3)|].
  apply (Hcons (<[Z.to_nat i := Some p]> longest) seqs1); [done| |done].
  exists p, s. split_and!; [|done|lia]. apply list_lookup_insert_eq. unfold len in Hl. lia.
Qed.

(** What an iteration does at a return: it takes back the last call. *)
Lemma iter_return h b X h' b' i cs longest seqs st st' cache l1 k l2 r j :
  good h b X cs longest -> live X = l1 ++ k :: l2 -> call_at es k i ->
  good h' b' ({[i]} ∪ X) (cs ++ [mkCallsEntry (Some k) st]) longest -> len b' = len b -> unlift h' (Some k) = Ret h ->
  r ∈ live ({[i]} ∪ X) -> return_at es r j ->
  exists longest' seqs', len longest' = n /\ extends longest seqs longest' seqs' /\
    (computePartial = true -> forall j, j ∈ {[i]} ∪ X -> recorded longest' seqs' j (size ({[i]} ∪ X))) /\
    (if computePartial
     then updateLongest h' (cs ++ [mkCallsEntry (Some k) st]) (cs ++ [mkCallsEntry (Some k) st]) longest None seqs
     else Ret (longest, seqs)) = Ret (longest', seqs') /\
    iter (at_entry h' b' cache (cs ++ [mkCallsEntry (Some k) st]) longest seqs st' (Some r))
         (at_entry h b cache cs longest' seqs' st (first l2 None)).
Proof.
  intros [Hr Hst Hb Hcap Hln HX Hcs Hlo _ _] E Hc [Hr' Hst' Hb' Hcap' Hln' HX' Hcs' Hlo' Hsz' Hids'] Hlen Hunl Hrl Hret.
  destruct (head_next h' _ Hr') as (hd & Hhd & Hhn).
  assert (exists a, first (live ({[i]} ∪ X)) None = Some a) as [a Ha].
  { destruct (live ({[i]} ∪ X)); [by apply elem_of_nil in Hrl|simpl; eauto]. }
  destruct (node_return h' r j Hst' Hret) as (nr & _ & Hnr & _ & Hnm & _).
  destruct (node_call h' k i Hst' Hc) as (nk & _ & _ & Hnk & _ & Hid & _).
  destruct (node_call h k i Hst Hc) as (nk2 & _ & _ & Hnk2 & _ & _).
  pose proof (entry_next h X l1 k l2 nk2 Hr E Hnk2) as Hnx.
  assert (0 <= i < n) as Hi by (destruct Hc as (x & Hx & _ & <-); exact (wf_id es n Hwf k x Hx)).
  pose proof (split_fresh X l1 k l2 i E Hc) as HiX.
  assert (clear b' i = Ret b) as Hclear.
  { destruct (clear_represents b' _ i Hb') as (b2 & Hc2 & Hb2 & Hl2); [lia|]. rewrite Hc2. f_equal.
    apply (represents_eq b2 b X); [|done|lia]. replace (({[i]} ∪ X) ∖ {[i]}) with X in Hb2 by set_solver. done. }
  assert (exists longest' seqs', (if computePartial
    then updateLongest h' (cs ++ [mkCallsEntry (Some k) st]) (cs ++ [mkCallsEntry (Some k) st]) longest None seqs
    else Ret (longest, seqs)) = Ret (longest', seqs') /\ len longest' = n /\ extends longest seqs longest' seqs' /\
    (computePartial = true -> forall j, j ∈ {[i]} ∪ X -> recorded longest' seqs' j (size ({[i]} ∪ X))))
    as (longest' & seqs' & Hu & Hl' & Hext & Hrec).
  { destruct computePartial; [|exists longest, seqs; split_and!; [done|done|apply extends_refl|done]].
    destruct (updateLongest_ret h' _ _ longest None seqs Hst' Hcs' Hcs' Hlo') as (lo' & sq' & H1 & H2 & H3 & H4); [done|].
    exists lo', sq'. split_and!; [done|done|done|]. intros _ x (v & kv & Hv & Hkv & Hcv)%Hids'. rewrite Hsz'. exact (H4 _ _ _ Hv Hkv Hcv). }
  exists longest', seqs'. split_and!; [done|done|done|done|]. unfold iter, checkIter, at_entry. simpl. rewrite Hhd.
  cbn [mbind outcome_bind]. rewrite Hhn Ha Hnr. cbn [mbind outcome_bind]. rewrite Hnm last_snoc Hu.
  cbn [mbind outcome_bind]. simpl. rewrite Hnk. cbn [mbind outcome_bind]. rewrite Hid Hclear. cbn [mbind outcome_bind].
  rewrite Hunl. cbn [mbind outcome_bind]. rewrite Hnk2. cbn [mbind outcome_bind]. rewrite Hnx.
  rewrite length_app Nat.add_sub take_app_length. done.
Qed.

(** ** The search *)

Lemma op_io_unique i inp out inp' out' : op_io es i inp out -> op_io es i inp' out' -> inp = inp' /\ out = out'.
Proof.
  intros [(k1 & e1 & H1 & K1 & I1 & V1) (k2 & e2 & H2 & K2 & I2 & V2)] [(k3 & e3 & H3 & K3 & I3 & V3) (k4 & e4 & H4 & K4 & I4 & V4)].
  assert (k1 = k3) as -> by (apply (wf_uniq es n Hwf k1 k3 e1 e3); congruence).
  assert (k2 = k4) as -> by (apply (wf_uniq es n Hwf k2 k4 e2 e4); congruence).
  split; congruence.
Qed.

(** States that [equal] identifies accept the same operations. *)
Hypothesis equal_sim : forall s1 s2 i o s1', equal s1 s2 = true -> Step model s1 i o = (true, s1') ->
  exists s2', Step model s2 i o = (true, s2') /\ equal s1' s2' = true.

Lemma lin_equal X s1 s2 l : lin X s1 l -> equal s1 s2 = true -> lin X s2 l.
Proof.
  intros Hl. revert s2. induction Hl as [|X st k i inp out st' l Hc Hio Hs _ IH]; intros s2 He; [by constructor|].
  destruct (equal_sim _ _ _ _ _ He Hs) as (s2' & Hs2 & He2). eapply lin_cons; eauto.
Qed.

Lemma path_equal X s1 s2 l X' s1' : path (Step model) es X s1 l X' s1' -> equal s1 s2 = true ->
  exists s2', path (Step model) es X s2 l X' s2'.
Proof.
  intros Hp. revert s2. induction Hp as [|X st k i inp out st' l X' st2 Hc Hio Hs _ IH]; intros s2 He; [by exists s2; constructor|].
  destruct (equal_sim _ _ _ _ _ He Hs) as (s2' & Hs2 & He2). destruct (IH _ He2) as [s3 Hs3]. exists s3. eapply path_cons; eauto.
Qed.

(** Everything that can be linearized from [X] and [st] is recorded. *)
Definition covered longest seqs (X : gset Z) (st : St) : Prop :=
  computePartial = true -> forall l X' st' j, path (Step model) es X st l X' st' -> j ∈ X ∪ list_to_set l ->
    recorded longest seqs j (size X + length l).

(** The search from [X] and [st] is over and has not found a linearization. *)
Definition finished longest seqs (X : gset Z) (st : St) : Prop := dead X st /\ covered longest seqs X st.

Lemma path_range X st l X' st' j : (forall i, i ∈ X -> 0 <= i < n) -> path (Step model) es X st l X' st' ->
  j ∈ X ∪ list_to_set l -> 0 <= j < n.
Proof.
  intros HX Hp [Hj|Hj]%elem_of_union; [by apply HX|]. rewrite elem_of_list_to_set in Hj.
  destruct (proj1 (path_iff (Step model) es n Hwf X st l) ltac:(eauto)) as (_ & Hin & _). by apply Hin.
Qed.

Lemma finished_extends lo sq lo' sq' X st : (forall i, i ∈ X -> 0 <= i < n) -> extends lo sq lo' sq' ->
  finished lo sq X st -> finished lo' sq' X st.
Proof.
  intros HX He [Hd Hc]. split; [done|]. intros Hcp l X' st' j Hp Hj. apply He; [|exact (Hc Hcp _ _ _ _ Hp Hj)].
  pose proof (path_range X st l X' st' j HX Hp Hj). lia.
Qed.

Lemma finished_equal lo sq X s1 s2 : equal s1 s2 = true -> finished lo sq X s2 -> finished lo sq X s1.
Proof.
  intros He [Hd Hc]. split; [intros l Hl; exact (Hd l (lin_equal _ _ _ _ Hl He))|].
  intros Hcp l X' st' j Hp Hj. destruct (path_equal _ _ _ _ _ _ Hp He) as [s2' Hp2]. exact (Hc Hcp _ _ _ _ Hp2 Hj).
Qed.

(** Linearizing the call [k] next leads nowhere. *)
Definition refuted longest seqs (X : gset Z) (st : St) (k : nat) : Prop :=
  forall i inp out st', call_at es k i -> op_io es i inp out -> Step model st inp out = (true, st') ->
    finished longest seqs ({[i]} ∪ X) st'.

Lemma refuted_extends lo sq lo' sq' X st l : (forall i, i ∈ X -> 0 <= i < n) -> extends lo sq lo' sq' ->
  Forall (refuted lo sq X st) l -> Forall (refuted lo' sq' X st) l.
Proof.
  intros HX He Hl. eapply Forall_impl; [exact Hl|]. intros k Hk i inp out st' Hc Hio Hs. eapply finished_extends; [|exact He|exact (Hk _ _ _ _ Hc Hio Hs)].
  intros j [->%elem_of_singleton|?]%elem_of_union; [|by apply HX]. destruct Hc as (x & Hx & _ & <-). exact (wf_id es n Hwf k x Hx).
Qed.

(** The first live return. *)
Lemma split_first_return (l : list nat) :
  (forall k, k ∈ l -> is_call es k \/ exists j, return_at es k j) -> (exists r j, r ∈ l /\ return_at es r j) ->
  exists cand r tail j, l = cand ++ r :: tail /\ Forall (is_call es) cand /\ return_at es r j.
Proof.
  induction l as [|k l IH]; intros Hl (r & j & Hr & Hret); [by apply elem_of_nil in Hr|].
  destruct (Hl k ltac:(left)) as [Hc|[j' Hj']].
  - destruct IH as (cand & r' & tail & j' & -> & Hcand & Hr').
    + intros x Hx. apply Hl. by right.
    + exists r, j. apply elem_of_cons in Hr as [->|Hr]; [|done]. exfalso. destruct Hc as [i Hi].
      exact (call_not_return es _ _ _ Hi Hret).
    + exists (k :: cand), r', tail, j'. split_and!; [done|by constructor|done].
  - by exists [], k, l, j'.
Qed.

Lemma live_first_return X : live X <> [] ->
  exists cand r tail j, live X = cand ++ r :: tail /\ Forall (is_call es) cand /\ return_at es r j.
Proof.
  intros Hne. apply split_first_return.
  - intros k (e & He & _)%elem_live. destruct (call_or_return es k e He); [left|right]; by exists (e_id e).
  - destruct (live X) as [|k l] eqn:E; [done|]. assert (k ∈ live X) as Hk by (rewrite E; left). rewrite -E.
    pose proof Hk as Hk2. apply elem_live in Hk2 as (e & He & HX). destruct (call_or_return es k e He) as [Hc|Hr].
    + destruct Hc as (e' & He' & Hk' & Hid). destruct (wf_return es n Hwf k e' He' Hk') as (k' & x & _ & Hx & Hxk & Hxi).
      assert (return_at es k' (e_id e)) as Hret by (exists x; split_and!; congruence). exists k', (e_id e).
      split; [by apply (return_live es X k' (e_id e))|done].
    + by exists k, (e_id e).
Qed.

(** A candidate is among the entries before the first live return. *)
Lemma candidate_before X cand r tail j k i :
  live X = cand ++ r :: tail -> return_at es r j -> candidate es X k i -> k ∈ cand.
Proof.
  intros E Hr [Hc (la & lb & E' & Hla)].
  assert (k ∈ live X) as Hk by (rewrite E'; apply elem_of_app; right; left).
  assert (r ∈ live X) as Hrl by (rewrite E; apply elem_of_app; right; left).
  destruct (Nat.lt_trichotomy k r) as [Hlt|[->|Hlt]].
  - by apply (live_before es X cand r tail k E).
  - destruct (call_not_return es _ _ _ Hc Hr).
  - assert (r ∈ la) as Hrla by (by apply (live_before es X la k lb r E')).
    rewrite Forall_forall in Hla. destruct (Hla r Hrla) as [i' Hi']. destruct (call_not_return es _ _ _ Hi' Hr).
Qed.

Lemma refuted_dead lo sq X st cand r tail j :
  live X = cand ++ r :: tail -> return_at es r j -> Forall (refuted lo sq X st) cand -> dead X st.
Proof.
  intros E Hr Href l Hl. rewrite Forall_forall in Href.
  inversion Hl as [? ? HE|? ? k i inp out st' l' Hc Hio Hs Hl']; subst.
  { rewrite E in HE. by destruct cand. }
  exact (proj1 (Href k (candidate_before _ _ _ _ _ _ _ E Hr Hc) i inp out st' (proj1 Hc) Hio Hs) l' Hl').
Qed.

Lemma refuted_covered lo sq X st cand r tail j :
  live X = cand ++ r :: tail -> return_at es r j -> Forall (refuted lo sq X st) cand ->
  (computePartial = true -> forall j, j ∈ X -> recorded lo sq j (size X)) -> covered lo sq X st.
Proof.
  intros E Hr Href HX Hcp l X' st' a Hp Ha. rewrite Forall_forall in Href.
  inversion Hp as [|? ? k i inp out st1 l' ? ? Hc Hio Hs Hp']; subst.
  { rewrite Nat.add_0_r. apply HX; [done|set_solver]. }
  pose proof (proj2 (Href k (candidate_before _ _ _ _ _ _ _ E Hr Hc) i inp out st1 (proj1 Hc) Hio Hs) Hcp l' X' st' a Hp') as Hrec.
  destruct (candidate_fresh es n Hwf X k i Hc) as [HiX _].
  rewrite size_union in Hrec; [set_solver|]. rewrite size_singleton in Hrec. simpl. rewrite -Nat.add_succ_comm. apply Hrec. set_solver.
Qed.

Lemma refuted_finished lo sq X st cand r tail j :
  live X = cand ++ r :: tail -> return_at es r j -> Forall (refuted lo sq X st) cand ->
  (computePartial = true -> forall j, j ∈ X -> recorded lo sq j (size X)) -> finished lo sq X st.
Proof. intros E Hr Href HX. split; [exact (refuted_dead _ _ _ _ _ _ _ _ E Hr Href)|exact (refuted_covered _ _ _ _ _ _ _ _ E Hr Href HX)]. Qed.

(** Every cached configuration is in progress or finished. *)
Definition cache_ok (anc : gset Z -> St -> Prop) longest seqs (cache : gmap Z (list (cacheEntry St))) : Prop :=
  forall hs l ce, cache !! hs = Some l -> ce ∈ l ->
    exists Y, represents (ce_linearized ce) Y /\ len (ce_linearized ce) = len (newBitset n) /\ (forall i, i ∈ Y -> 0 <= i < n) /\
      (anc Y (ce_state ce) \/ finished longest seqs Y (ce_state ce)).

Lemma cache_ok_extends anc lo sq lo' sq' cache : extends lo sq lo' sq' -> cache_ok anc lo sq cache -> cache_ok anc lo' sq' cache.
Proof.
  intros He Hok hs l ce Hl Hce. destruct (Hok _ _ _ Hl Hce) as (Y & H1 & H2 & H3 & H4). exists Y. split_and!; [done|done|done|].
  destruct H4 as [?|Hf]; [by left|right]. exact (finished_extends _ _ _ _ _ _ H3 He Hf).
Qed.

Lemma cacheContains_inv cache b st : cacheContains equal cache (mkCacheEntry b st) = true ->
  exists l ce, cache !! hash b = Some l /\ ce ∈ l /\ equals b (ce_linearized ce) = true /\ equal st (ce_state ce) = true.
Proof.
  unfold cacheContains. simpl. intros (ce & Hin & [H1 H2]%andb_true_iff)%existsb_exists.
  destruct (cache !! hash b) as [l|] eqn:E; simpl in Hin; [|done]. exists l, ce. apply list_elem_of_In in Hin. done.
Qed.

Lemma cached_finished anc lo sq cache b X st :
  cache_ok anc lo sq cache -> (forall Y s, anc Y s -> Y <> X) -> represents b X -> len b = len (newBitset n) ->
  cacheContains equal cache (mkCacheEntry b st) = true -> finished lo sq X st.
Proof.
  intros Hok Hanc Hb Hlen (l & ce & Hl & Hce & Heq & Hst)%cacheContains_inv.
  destruct (Hok _ _ _ Hl Hce) as (Y & HY & HlY & _ & Hor). apply (equals_represents _ _ X Y Hb HY) in Heq as ->; [|lia].
  destruct Hor as [Ha|Hd]; [by destruct (Hanc _ _ Ha)|]. exact (finished_equal _ _ _ _ _ Hst Hd).
Qed.

Lemma cache_ok_add (anc : gset Z -> St -> Prop) lo sq cache b X st :
  cache_ok anc lo sq cache -> represents b X -> len b = len (newBitset n) -> (forall i, i ∈ X -> 0 <= i < n) ->
  cache_ok (fun Y s => anc Y s \/ (Y = X /\ s = st)) lo sq
    (<[hash b := default [] (cache !! hash b) ++ [mkCacheEntry b st]]> cache).
Proof.
  intros Hok Hb Hlen HX hs l ce Hl Hce. destruct (decide (hs = hash b)) as [->|Hne].
  - rewrite lookup_insert_eq in Hl. injection Hl as <-. apply elem_of_app in Hce as [Hce|Hce].
    + destruct (cache !! hash b) as [l|] eqn:E; simpl in Hce; [|by apply elem_of_nil in Hce].
      destruct (Hok _ _ _ E Hce) as (Y & H1 & H2 & H3 & H4). exists Y. split_and!; [done|done|done|tauto].
    + apply list_elem_of_singleton in Hce as ->. exists X. split_and!; [done|done|done|]. left. by right.
  - rewrite lookup_insert_ne in Hl; [congruence|]. destruct (Hok _ _ _ Hl Hce) as (Y & H1 & H2 & H3 & H4).
    exists Y. split_and!; [done|done|done|tauto].
Qed.

Lemma cache_ok_done (anc : gset Z -> St -> Prop) lo sq cache X st :
  cache_ok (fun Y s => anc Y s \/ (Y = X /\ s = st)) lo sq cache -> finished lo sq X st -> cache_ok anc lo sq cache.
Proof.
  intros Hok Hd hs l ce Hl Hce. destruct (Hok _ _ _ Hl Hce) as (Y & H1 & H2 & H3 & H4). exists Y. split_and!; [done|done|done|].
  destruct H4 as [[?|[-> ->]]|?]; auto.
Qed.

(** The search from a configuration ends with a linearization. *)
Definition succeeds (c : Search Inp Out St) : Prop :=
  exists c' lo sq, rtc iter c c' /\ checkIter model equal computePartial n head false c' = Ret (inr (true, lo, sq)).

Lemma succeeds_step c c' : rtc iter c c' -> succeeds c' -> succeeds c.
Proof. intros H (c2 & lo & sq & H1 & H2). exists c2, lo, sq. split; [exact (transitivity H H1)|done]. Qed.

Lemma empty_succeeds h b X cs longest seqs st cache e :
  good h b X cs longest -> live X = [] -> succeeds (at_entry h b cache cs longest seqs st e).
Proof.
  intros [Hr Hst _ _ _ _ Hcs _ _ _] E. destruct (head_next h X Hr) as (hd & Hhd & Hn). rewrite E in Hn.
  destruct (callIds_ret h cs Hst Hcs) as (ids & Hids & _). eexists _, _, _. split; [apply rtc_refl|].
  unfold checkIter, at_entry. simpl. rewrite Hhd. cbn [mbind outcome_bind]. rewrite Hn Hids. reflexivity.
Qed.

Lemma first_cut (l : list nat) r t : first (l ++ r :: t) None = first (l ++ [r]) None.
Proof. by destruct l. Qed.

Lemma good_longest h b X cs longest longest' : good h b X cs longest -> len longest' = n -> good h b X cs longest'.
Proof. intros [] ?. by constructor. Qed.

(** The outcome of the search over the candidates [cand], then the return [r]. *)
Definition explored (anc : gset Z -> St -> Prop) h b X cs lo0 sq0 st (r : nat) (tried : list nat) (c : Search Inp Out St) : Prop :=
  (succeeds c /\ exists l, lin X st l) \/
  (exists cache longest seqs, rtc iter c (at_entry h b cache cs longest seqs st (Some r)) /\
     len longest = n /\ extends lo0 sq0 longest seqs /\ cache_ok anc longest seqs cache /\
     Forall (refuted longest seqs X st) tried).

Lemma explored_step anc h b X cs lo0 sq0 lo1 sq1 st r tried c c' :
  rtc iter c c' -> extends lo0 sq0 lo1 sq1 -> explored anc h b X cs lo1 sq1 st r tried c' ->
  explored anc h b X cs lo0 sq0 st r tried c.
Proof.
  intros Hi He [[H1 H2]|(ca & lo & sq & H1 & H2 & H3 & H4)].
  - left. split; [|done]. exact (succeeds_step _ _ Hi H1).
  - right. exists ca, lo, sq. split; [exact (transitivity Hi H1)|]. split; [done|]. split; [|done].
    exact (extends_trans _ _ _ _ _ _ He H3).
Qed.

Definition searchable (m : nat) : Prop :=
  forall h b X cs longest seqs st cache anc l1 cand r tail j,
    (length (live X) < m)%nat -> good h b X cs longest ->
    live X = l1 ++ cand ++ r :: tail -> Forall (is_call es) l1 -> Forall (is_call es) cand -> return_at es r j ->
    (forall Y s, anc Y s -> Y ⊆ X) -> cache_ok anc longest seqs cache -> Forall (refuted longest seqs X st) l1 ->
    explored anc h b X cs longest seqs st r (l1 ++ cand)
      (at_entry h b cache cs longest seqs st (first (cand ++ [r]) None)).

(** Linearizing the candidate [k] and searching on. *)
Lemma explore_push m h b X h' b' cs longest seqs st st' cache anc l1 k i l2 inp out :
  searchable m -> (length (live ({[i]} ∪ X)) < m)%nat ->
  good h b X cs longest -> live X = l1 ++ k :: l2 -> call_at es k i -> Forall (is_call es) l1 ->
  op_io es i inp out -> Step model st inp out = (true, st') ->
  good h' b' ({[i]} ∪ X) (cs ++ [mkCallsEntry (Some k) st]) longest -> unlift h' (Some k) = Ret h ->
  (forall Y s, anc Y s -> Y ⊆ X) -> cache_ok (fun Y s => anc Y s \/ (Y = {[i]} ∪ X /\ s = st')) longest seqs cache ->
  let c := at_entry h' b' cache (cs ++ [mkCallsEntry (Some k) st]) longest seqs st' (first (live ({[i]} ∪ X)) None) in
  (succeeds c /\ exists l, lin X st l) \/
  (exists cache longest' seqs', rtc iter c (at_entry h b cache cs longest' seqs' st (first l2 None)) /\
     len longest' = n /\ extends longest seqs longest' seqs' /\ cache_ok anc longest' seqs' cache /\
     finished longest' seqs' ({[i]} ∪ X) st').
Proof.
  intros Hm Hlt Hg E Hc Hl1 Hio Hs Hg' Hunl Hanc Hok c.
  assert (forall l, lin ({[i]} ∪ X) st' l -> exists l', lin X st l') as Hlin.
  { intros l Hl. exists (i :: l). apply (lin_cons _ _ X st k i inp out st' l); [|done..]. split; [done|]. by exists l1, l2. }
  destruct (decide (live ({[i]} ∪ X) = [])) as [He|Hne].
  { left. split; [exact (empty_succeeds _ _ _ _ _ _ _ _ _ Hg' He)|]. apply (Hlin []). by constructor. }
  destruct (live_first_return _ Hne) as (cand & r & tail & j & E' & Hcand & Hret).
  destruct (Hm h' b' ({[i]} ∪ X) (cs ++ [mkCallsEntry (Some k) st]) longest seqs st' cache
    (fun Y s => anc Y s \/ (Y = {[i]} ∪ X /\ s = st')) [] cand r tail j)
    as [[Hsucc [l Hl]]|(cache' & longest' & seqs' & Hsteps & Hlen & Hext & Hok' & Href)]; try done.
  - intros Y s [HY%Hanc|[-> _]]; set_solver.
  - left. split; [|exact (Hlin _ Hl)]. by rewrite /c E' first_cut.
  - right. pose proof (good_longest _ _ _ _ _ _ Hg Hlen) as Hgl. pose proof (good_longest _ _ _ _ _ _ Hg' Hlen) as Hgl'.
    destruct (iter_return h b X h' b' i cs longest' seqs' st st' cache' l1 k l2 r j Hgl E Hc Hgl')
      as (longest2 & seqs2 & Hlen2 & Hext2 & Hrec2 & _ & Hit); [|done| |done|].
    + rewrite (g_len _ _ _ _ _ Hg) (g_len _ _ _ _ _ Hg'). done.
    + rewrite E'. apply elem_of_app. right. left.
    + assert (finished longest2 seqs2 ({[i]} ∪ X) st') as Hfin.
      { eapply refuted_finished; [exact E'|exact Hret| |exact Hrec2]. exact (refuted_extends _ _ _ _ _ _ _ (g_X _ _ _ _ _ Hg') Hext2 Href). }
      exists cache', longest2, seqs2. split_and!; [|done|exact (extends_trans _ _ _ _ _ _ Hext Hext2)| |done].
      * eapply rtc_r; [|exact Hit]. by rewrite /c E' first_cut.
      * exact (cache_ok_done _ _ _ _ _ _ (cache_ok_extends _ _ _ _ _ _ Hext2 Hok') Hfin).
Qed.

Lemma explore m : searchable m.
Proof.
  induction m as [|m IHm]; intros h b X cs longest seqs st cache anc l1 cand r tail j Hlt Hg E Hl1 Hcand Hret Hanc Hok Href; [lia|].
  revert l1 cache longest seqs Hg E Hl1 Hok Href. induction cand as [|k cand IH]; intros l1 cache longest seqs Hg E Hl1 Hok Href.
  { right. exists cache, longest, seqs.
    split_and!; [apply rtc_refl|exact (g_longest _ _ _ _ _ Hg)|apply extends_refl|done|by rewrite app_nil_r]. }
  apply Forall_cons in Hcand as [[i Hc] Hcand]. simpl in E.
  destruct (iter_call h b X cs longest seqs st cache l1 k (cand ++ r :: tail) i Hg E Hc) as (inp & out & Hio & Hit).
  cbv zeta in Hit. rewrite first_cut in Hit.
  assert (forall cache' longest' seqs', len longest' = n -> extends longest seqs longest' seqs' ->
    cache_ok anc longest' seqs' cache' -> refuted longest' seqs' X st k ->
    explored anc h b X cs longest' seqs' st r (l1 ++ k :: cand)
      (at_entry h b cache' cs longest' seqs' st (first (cand ++ [r]) None))) as Hnext.
  { intros cache' longest' seqs' Hlen' Hext' Hok' Hk. change (l1 ++ k :: cand) with (l1 ++ [k] ++ cand). rewrite assoc.
    apply IH; [done|exact (good_longest _ _ _ _ _ _ Hg Hlen')|by rewrite -assoc| |done|].
    - apply Forall_app. split; [done|]. constructor; [by exists i|done].
    - apply Forall_app. split; [exact (refuted_extends _ _ _ _ _ _ _ (g_X _ _ _ _ _ Hg) Hext' Href)|]. by constructor. }
  assert (forall i' inp' out', call_at es k i' -> op_io es i' inp' out' -> i' = i /\ inp' = inp /\ out' = out) as Huniq.
  { intros i' inp' out' Hc' Hio'. assert (i' = i) as ->.
    { destruct Hc as (e & He & _ & <-), Hc' as (e' & He' & _ & <-). congruence. }
    by destruct (op_io_unique _ _ _ _ _ Hio Hio') as [<- <-]. }
  assert (forall lo sq st', Step model st inp out = (true, st') -> finished lo sq ({[i]} ∪ X) st' -> refuted lo sq X st k) as Hrk.
  { intros lo sq st' Hs Hd i' inp' out' st2 Hc' Hio' Hs'. destruct (Huniq _ _ _ Hc' Hio') as (-> & -> & ->).
    rewrite Hs in Hs'. by injection Hs' as <-. }
  change (first ((k :: cand) ++ [r]) None) with (Some k). pose proof (split_fresh _ _ _ _ _ E Hc) as HiX.
  destruct (Step model st inp out) as [[] st'] eqn:Hs.
  - destruct Hit as (b' & h' & Hb' & Hlen' & Hg' & Hunl & Hit).
    assert (len b' = len (newBitset n)) as Hlb by (rewrite Hlen'; exact (g_len _ _ _ _ _ Hg)).
    destruct (cacheContains equal cache (mkCacheEntry b' st')) eqn:Hcc.
    + eapply explored_step; [exact (rtc_once _ _ Hit)|apply extends_refl|].
      apply Hnext; [exact (g_longest _ _ _ _ _ Hg)|apply extends_refl|done|]. apply (Hrk _ _ st'); [done|].
      eapply cached_finished; [exact Hok| |exact Hb'|exact Hlb|exact Hcc]. intros Y s HY%Hanc ->. set_solver.
    + destruct (explore_push m h b X h' b' cs longest seqs st st'
        (<[hash b' := default [] (cache !! hash b') ++ [mkCacheEntry b' st']]> cache) anc l1 k i (cand ++ r :: tail) inp out)
        as [[Hsucc Hl]|(cache' & longest' & seqs' & Hsteps & Hlen2 & Hext2 & Hok2 & Hd)]; try done.
      * destruct (node_call h k i (g_static _ _ _ _ _ Hg) Hc) as (_ & k' & _ & _ & _ & _ & _ & Hr' & Hlt' & _).
        destruct (live_remove X l1 k _ k' i E Hc Hr' Hlt') as (l3 & l4 & E3 & El). rewrite El.
        rewrite E E3 !length_app /= !length_app /= in Hlt. rewrite !length_app. lia.
      * apply cache_ok_add; [done|done|done|exact (g_X _ _ _ _ _ Hg')].
      * left. split; [exact (succeeds_step _ _ (rtc_once _ _ Hit) Hsucc)|done].
      * rewrite first_cut in Hsteps. eapply explored_step; [exact (rtc_l _ _ _ _ Hit Hsteps)|exact Hext2|].
        exact (Hnext cache' longest' seqs' Hlen2 Hext2 Hok2 (Hrk _ _ st' eq_refl Hd)).
  - eapply explored_step; [exact (rtc_once _ _ Hit)|apply extends_refl|].
    apply Hnext; [exact (g_longest _ _ _ _ _ Hg)|apply extends_refl|done|].
    intros i' inp' out' st2 Hc' Hio' Hs'. destruct (Huniq _ _ _ Hc' Hio') as (-> & -> & ->). congruence.
Qed.

End check.
