(* ===== verification/PorcupineTheorems.v ===== *)
(** * PorcupineTheorems: [checkSingle] decides linearizability

    Enough fuel always gives a result, and the result says whether the history
    has a linearization. *)

From S2P Require Import Prelude Bitset Porcupine PorcupineList PorcupineSpec PorcupineHeap PorcupineCheck.
Local Open Scope Z_scope.

Section decides.
Context {Inp Out St : Type}.
Implicit Types es : list (entry Inp Out).

Lemma loop_result (model : Model Inp Out St) equal computePartial es n c c' res :
  rtc (iter model equal computePartial es n) c c' ->
  checkIter model equal computePartial n (length es) false c' = Ret (inr res) ->
  exists k, forall fuel, (k <= fuel)%nat ->
    checkLoop model equal computePartial n (length es) (fun _ => false) fuel c = Ret (Some res).
Proof.
  intros Hr Hres. induction Hr as [c|c1 c2 c3 Hi _ IH].
  - exists 1%nat. intros [|fuel] Hf; [lia|]. simpl. by rewrite Hres.
  - destruct (IH Hres) as [k Hk]. exists (S k). intros [|fuel] Hf; [lia|]. simpl. unfold iter in Hi. rewrite Hi.
    cbn [mbind outcome_bind]. apply Hk. lia.
Qed.

Lemma live_all es n : wf_history es n -> live es ∅ = seq 0 (length es).
Proof.
  intros Hwf. unfold live. generalize (seq 0 (length es)). intros l.
  induction l as [|k l IH]; [done|]. rewrite filter_cons_True; [set_solver|]. by rewrite IH.
Qed.

(** The configuration from which the search starts. *)
Definition start (model : Model Inp Out St) es n (h0 : heap Inp Out) : Search Inp Out St :=
  at_entry h0 (newBitset n) ∅ [] (replicate (Z.to_nat n) None) [] (Init model) (first (live es ∅) None).

(** The links of the entries of [es] in the heap [h0]. *)
Definition linked es (h0 : heap Inp Out) : Prop :=
  forall k e, es !! k = Some e -> exists nd, h0 !! k = Some nd /\
    holds nd e ((fun j => 0 + S k + j)%nat <$> first_ret (e_id e) (drop (S k) es)).

Lemma checkSingle_start (model : Model Inp Out St) equal computePartial es n :
  wf_history es n ->
  exists h0, linked es h0 /\
    good es n h0 h0 (newBitset n) ∅ ([] : list (callsEntry St)) (replicate (Z.to_nat n) None) /\
    forall kill fuel, checkSingle model equal es computePartial kill fuel =
      checkLoop model equal computePartial n (length es) kill fuel (start model es n h0).
Proof.
  intros Hwf. pose proof (wf_len _ _ Hwf) as Hlen. assert (0 <= n) as Hn by (unfold len in Hlen; lia).
  destruct (link_spec es 0) as (h & mt & Hlink & Hseg & Hnodes & _).
  destruct (insertBefore_first h (seq 0 (length es)) (length es) (mkNode None None (-1) None None))
    as (h0 & Hins & Hseg0 & Hst0); [done| |done|done|].
  { constructor; [|apply NoDup_seq]. rewrite elem_of_seq. lia. }
  exists h0. split_and!.
  - intros k e He. destruct (Hnodes k e He) as (nd & Hnd & Hho). eapply static_holds; [exact Hst0| |exact Hho].
    rewrite lookup_insert_ne; [apply lookup_lt_Some in He; lia|]. exact Hnd.
  - destruct (newBitset_represents n Hn) as [Hb Hcap]. constructor; try done.
    + rewrite (live_all es n Hwf). split; [|done]. constructor; [|apply NoDup_seq]. rewrite elem_of_seq. lia.
    + unfold len. rewrite length_replicate. lia.
  - intros kill fuel. unfold checkSingle, makeLinkedEntries.
    change (imap pair es) with (imap (fun i e => (0 + i, e)%nat) es). rewrite Hlink. cbn [mbind outcome_bind].
    rewrite (seg_length h _ _ _ None Hseg); [rewrite length_seq; lia|]. cbn [mbind outcome_bind]. rewrite length_seq.
    assert (Z.quot (0 + Z.of_nat (length es)) 2 = n) as ->.
    { unfold len in Hlen. rewrite Z.add_0_l Hlen Z.mul_comm Z.quot_mul; lia. }
    rewrite Hins. cbn [mbind outcome_bind]. unfold start, at_entry. by rewrite (live_all es n Hwf).
Qed.

(** The search stops when the entry is a return and the stack is empty. *)
Lemma iter_stuck (model : Model Inp Out St) equal computePartial es n h0 cache lo sq X r j :
  wf_history es n -> linked es h0 -> good es n h0 h0 (newBitset n) X ([] : list (callsEntry St)) lo ->
  r ∈ live es X -> return_at es r j ->
  checkIter model equal computePartial n (length es) false
    (at_entry h0 (newBitset n) cache [] lo sq (Init model) (Some r)) = Ret (inr (false, lo, sq)).
Proof.
  intros Hwf Hh0 Hg Hr Hret.
  destruct (node_return es n Hwf h0 Hh0 h0 r j (g_static _ _ _ _ _ _ _ _ Hg) Hret) as (nr & out & Hnr & _ & Hnm & _).
  destruct (head_next es h0 X (g_repr _ _ _ _ _ _ _ _ Hg)) as (hd & Hhd & Hhn).
  unfold checkIter, at_entry. simpl. rewrite Hhd. cbn [mbind outcome_bind]. rewrite Hhn.
  destruct (live es X); [by apply elem_of_nil in Hr|]. simpl. rewrite Hnr. cbn [mbind outcome_bind]. by rewrite Hnm.
Qed.

(** The result of the search for a well-formed history: when it fails, every
    operation of a partial linearization has one at least as long in the
    result. *)
Lemma checkSingle_result (model : Model Inp Out St) equal computePartial es n :
  wf_history es n ->
  (forall s1 s2 i o s1', equal s1 s2 = true -> Step model s1 i o = (true, s1') ->
     exists s2', Step model s2 i o = (true, s2') /\ equal s1' s2' = true) ->
  exists ok lo sq k, (forall fuel, (k <= fuel)%nat ->
      checkSingle model equal es computePartial (fun _ => false) fuel = Ret (Some (ok, lo, sq))) /\
    (ok = true <-> linearizable (Step model) es n (Init model)) /\
    (ok = false -> covered model computePartial es lo sq ∅ (Init model)).
Proof.
  intros Hwf Hsim. assert (0 <= n) as Hn by (pose proof (wf_len _ _ Hwf) as Hlen; unfold len in Hlen; lia).
  destruct (checkSingle_start model equal computePartial es n Hwf) as (h0 & Hh0 & Hg & Hstart).
  assert (forall ok lo sq c', rtc (iter model equal computePartial es n) (start model es n h0) c' ->
    checkIter model equal computePartial n (length es) false c' = Ret (inr (ok, lo, sq)) ->
    (ok = true <-> linearizable (Step model) es n (Init model)) /\ (ok = false -> covered model computePartial es lo sq ∅ (Init model)) ->
    exists ok lo sq k, (forall fuel, (k <= fuel)%nat ->
      checkSingle model equal es computePartial (fun _ => false) fuel = Ret (Some (ok, lo, sq))) /\
    (ok = true <-> linearizable (Step model) es n (Init model)) /\
    (ok = false -> covered model computePartial es lo sq ∅ (Init model))) as Hfin.
  { intros ok lo sq c' Hr Hres Hiff. destruct (loop_result _ _ _ _ _ _ _ _ Hr Hres) as [k Hk].
    exists ok, lo, sq, k. split; [|done]. intros fuel Hf. rewrite Hstart. by apply Hk. }
  assert (forall l, lin (Step model) es ∅ (Init model) l -> linearizable (Step model) es n (Init model)) as Hlz.
  { intros l Hl. exists l. by apply (lin_linearization (Step model) es n Hwf). }
  destruct (decide (live es ∅ = [])) as [He|Hne].
  { destruct (empty_succeeds model equal computePartial es n Hwf h0 Hh0 h0 (newBitset n) ∅ [] _ [] (Init model) ∅ (first (live es ∅) None) Hg He)
      as (c' & lo & sq & Hr & Hres).
    apply (Hfin true lo sq c'); [done|done|]. split; [|done]. split; [|done]. intros _. apply (Hlz []). by constructor. }
  destruct (live_first_return es n Hwf ∅ Hne) as (cand & r & tail & j & E & Hcand & Hret).
  destruct (explore model equal computePartial es n Hwf h0 Hh0 Hsim (S (length (live es ∅))) h0 (newBitset n) ∅ []
    (replicate (Z.to_nat n) None) [] (Init model) ∅
    (fun _ _ => False) [] cand r tail j) as [[(c' & lo & sq & Hr & Hres) [l Hl]]|(ca & lo & sq & Hr & Hlo & _ & Hok & Href)]; try done.
  - apply (Hfin true lo sq c'); [|done|].
    + by rewrite /start E first_cut.
    + split; [|done]. split; [|done]. intros _. exact (Hlz l Hl).
  - destruct (refuted_finished model equal computePartial es n Hwf h0 Hh0 Hsim lo sq ∅ _ cand r tail j E Hret Href) as [Hdead Hcov]; [set_solver|].
    apply (Hfin false lo sq (at_entry h0 (newBitset n) ca [] lo sq (Init model) (Some r))).
    + by rewrite /start E first_cut.
    + eapply iter_stuck; [done|done|exact (good_longest _ _ _ _ _ _ _ _ _ Hg Hlo)| |exact Hret]. rewrite E. apply elem_of_app. right. left.
    + split; [|done]. split; [done|]. intros [l Hl]. apply (lin_linearization (Step model) es n Hwf) in Hl; [|done].
      exfalso. exact (Hdead l Hl).
Qed.

End decides.
