(* ===== verification/PorcupinePartial.v ===== *)
(** * PorcupinePartial: the partial linearizations the search reports

    With [computePartial] the search records, for each operation, the longest
    sequence it has linearized that contains the operation.  Whatever is
    recorded when the search ends, also when it is killed, is a partial
    linearization; when the search is not killed no partial linearization with
    the operation is longer. *)

From S2P Require Import Prelude Bitset Porcupine PorcupineList PorcupineSpec PorcupineHeap PorcupineCheck PorcupineTheorems.
Local Open Scope Z_scope.

Section partial.
Context {Inp Out St : Type}.
Context (model : Model Inp Out St) (equal : St -> St -> bool).
Context (es : list (entry Inp Out)) (n : Z).
Hypothesis Hwf : wf_history es n.
Context (h0 : heap Inp Out).
Hypothesis Hh0 : linked es h0.

Notation head := (length es).
Notation live := (live es).
Notation good := (good es n h0).
Notation partial := (partial_linearization (Step model) es n (Init model)).

(** The stack of calls: each was pushed by linearizing a candidate, and taking
    it back restores the list before. *)
Inductive stacked : heap Inp Out -> bitset -> gset Z -> list (callsEntry St) -> list Z -> St -> Prop :=
| stacked_nil : stacked h0 (newBitset n) ∅ [] [] (Init model)
| stacked_push h b X cs ids st h' b' k i l1 l2 inp out st' lo :
    stacked h b X cs ids st -> good h b X cs lo -> live X = l1 ++ k :: l2 -> Forall (is_call es) l1 ->
    call_at es k i -> op_io es i inp out -> Step model st inp out = (true, st') ->
    good h' b' ({[i]} ∪ X) (cs ++ [mkCallsEntry (Some k) st]) lo -> unlift h' (Some k) = Ret h ->
    stacked h' b' ({[i]} ∪ X) (cs ++ [mkCallsEntry (Some k) st]) (ids ++ [i]) st'.

Lemma stacked_path h b X cs ids st : stacked h b X cs ids st -> path (Step model) es ∅ (Init model) ids X st.
Proof.
  induction 1 as [|h b X cs ids st h' b' k i l1 l2 inp out st' lo _ IH _ E Hl1 Hc Hio Hs _ _]; [constructor|].
  eapply path_snoc; [exact IH| |exact Hio|exact Hs]. split; [exact Hc|]. by exists l1, l2.
Qed.

Lemma stacked_partial h b X cs ids st : stacked h b X cs ids st -> partial ids.
Proof. intros Hs%stacked_path. apply (path_partial (Step model) es n Hwf). eauto. Qed.

Lemma callIds_app (h : heap Inp Out) (cs1 cs2 : list (callsEntry St)) ids1 ids2 :
  callIds h cs1 = Ret ids1 -> callIds h cs2 = Ret ids2 -> callIds h (cs1 ++ cs2) = Ret (ids1 ++ ids2).
Proof.
  unfold callIds. revert ids1. induction cs1 as [|v cs1 IH]; intros ids1 H1 H2; [by injection H1 as <-|].
  simpl in H1 |- *. destruct (deref h (ca_entry v)) as [e|]; [|done]. simpl in H1 |- *.
  destruct (mapM _ cs1) as [l|]; [|done]. simpl in H1. injection H1 as <-. by rewrite (IH l eq_refl H2).
Qed.

Lemma stacked_ids h b X cs ids st h' : stacked h b X cs ids st -> static h0 h' -> callIds h' cs = Ret ids.
Proof.
  intros Hs Hst. induction Hs as [|h b X cs ids st h2 b' k i l1 l2 inp out st' lo _ IH _ _ _ Hc _ _ _ _]; [done|].
  apply callIds_app; [done|]. destruct (node_call es n Hwf h0 Hh0 h' k i Hst Hc) as (nd & _ & _ & Hnd & _ & Hid & _).
  unfold callIds. simpl. rewrite Hnd. simpl. by rewrite Hid.
Qed.

(** ** What is recorded *)

Definition sound (longest : list (option nat)) (seqs : list (list Z)) : Prop :=
  Forall partial seqs /\ forall i p, longest !! i = Some (Some p) -> exists s, seqs !! p = Some s /\ Z.of_nat i ∈ s.

Lemma sound_app longest seqs ids : partial ids -> sound longest seqs -> sound longest (seqs ++ [ids]).
Proof.
  intros Hp [H1 H2]. split; [apply Forall_app; split; [done|by constructor]|].
  intros i p Hi. destruct (H2 i p Hi) as (s & Hs & Hin). exists s. split; [by apply lookup_app_l_Some|done].
Qed.

Lemma sound_set longest seqs i p s : 0 <= i -> seqs !! p = Some s -> i ∈ s ->
  sound longest seqs -> sound (<[Z.to_nat i := Some p]> longest) seqs.
Proof.
  intros Hi Hp Hin [H1 H2]. split; [done|]. intros j q Hj. destruct (decide (j = Z.to_nat i)) as [->|Hne].
  - apply list_lookup_insert_Some in Hj as [(_ & [= <-] & _)|[? _]]; [|done]. exists s. split; [done|].
    by rewrite Z2Nat.id.
  - rewrite list_lookup_insert_ne in Hj; [congruence|]. by apply H2.
Qed.

Lemma updateLongest_sound (h : heap Inp Out) (cs todo : list (callsEntry St)) ids tids longest seq seqs longest' seqs' :
  callIds h cs = Ret ids -> partial ids -> callIds h todo = Ret tids -> tids ⊆ ids ->
  (forall p, seq = Some p -> seqs !! p = Some ids) -> sound longest seqs ->
  updateLongest h cs todo longest seq seqs = Ret (longest', seqs') -> sound longest' seqs'.
Proof.
  intros Hids Hp. revert tids longest seq seqs. induction todo as [|v todo IH]; intros tids longest seq seqs Ht Hsub Hsq Hs Hu.
  { by injection Hu as <- <-. }
  unfold callIds in Ht. cbn [updateLongest] in Hu. simpl in Ht. destruct (deref h (ca_entry v)) as [e|]; [|done]. simpl in Ht, Hu.
  destruct (mapM _ todo) as [tids'|] eqn:Hm; [|done]. simpl in Ht. injection Ht as <-.
  assert (n_id e ∈ ids) as Hin by (apply Hsub; left). assert (tids' ⊆ ids) as Hsub' by (intros x Hx; apply Hsub; by right).
  assert (0 <= n_id e) as He by (pose proof (pl_range _ _ _ _ _ Hp _ Hin); lia).
  destruct (slice_get longest (n_id e)) as [old|]; [|done]. cbn [mbind outcome_bind] in Hu.
  set (shorter := match old with None => true | Some p => _ end) in Hu. destruct shorter; [|exact (IH tids' _ _ _ Hm Hsub' Hsq Hs Hu)].
  assert (exists p seqs1, (match seq with Some p => Ret (p, seqs) | None => ids ← callIds h cs; Ret (length seqs, seqs ++ [ids]) end)
    = Ret (p, seqs1) /\ seqs1 !! p = Some ids /\ sound longest seqs1) as (p & seqs1 & E & Hq & Hs1).
  { destruct seq as [p|]; [exists p, seqs; auto|]. rewrite Hids. simpl. exists (length seqs), (seqs ++ [ids]).
    split_and!; [done|by rewrite lookup_app_r // Nat.sub_diag|by apply sound_app]. }
  rewrite E in Hu. cbn [mbind outcome_bind] in Hu. unfold slice_set in Hu.
  destruct (bool_decide _); [|done]. cbn [mbind outcome_bind] in Hu.
  eapply (IH tids'); [exact Hm|done| | |exact Hu].
  - intros q [= <-]. done.
  - by apply (sound_set _ _ _ _ ids).
Qed.

(** ** Iterations *)

Record search_ok (c : Search Inp Out St) (X : gset Z) (ids : list Z) (l1 l2 : list nat) : Prop := {
  so_stack : stacked (c_heap c) (c_linearized c) X (c_calls c) ids (c_state c);
  so_good : good (c_heap c) (c_linearized c) X (c_calls c) (c_longest c);
  so_live : live X = l1 ++ l2;
  so_calls : Forall (is_call es) l1;
  so_entry : c_entry c = first l2 None;
  so_sound : sound (c_longest c) (c_seqs c);
}.

(** A result: what is recorded is sound, and a search that succeeds records a
    linearization of all operations. *)
Definition sound_result (r : Result) : Prop :=
  let '(ok, longest, seqs) := r in
  sound longest seqs /\ (ok = true -> forall i, 0 <= i < n -> recorded longest seqs i (Z.to_nat n)).

Definition step_ok (r : outcome (Search Inp Out St + Result)) : Prop :=
  (exists c X ids l1 l2, r = Ret (inl c) /\ search_ok c X ids l1 l2) \/ (exists res, r = Ret (inr res) /\ sound_result res).

Lemma n_nonneg : 0 <= n.
Proof. pose proof (wf_len _ _ Hwf) as Hlen. unfold len in Hlen. lia. Qed.

Lemma stacked_all h b X cs ids st : stacked h b X cs ids st -> live X = [] -> ids ≡ₚ seqZ 0 n.
Proof.
  intros Hst E. pose proof (stacked_partial _ _ _ _ _ _ Hst) as Hp.
  apply NoDup_Permutation; [exact (pl_NoDup _ _ _ _ _ Hp)|apply NoDup_seqZ|]. intros a. rewrite elem_of_seqZ Z.add_0_l. split.
  - intros Ha. by apply (pl_range _ _ _ _ _ Hp).
  - intros Ha. pose proof (proj1 (live_empty es n Hwf X) E a Ha) as HaX.
    rewrite (path_set _ _ n Hwf _ _ _ _ _ (stacked_path _ _ _ _ _ _ Hst)) in HaX. set_solver.
Qed.

Lemma iter_success c X ids l1 l2 killed : search_ok c X ids l1 l2 -> live X = [] ->
  step_ok (checkIter model equal true n head killed c).
Proof.
  intros [Hst Hg _ _ _ Hso] E. destruct (head_next es _ X (g_repr _ _ _ _ _ _ _ _ Hg)) as (hd & Hhd & Hn). rewrite E in Hn.
  pose proof (stacked_all _ _ _ _ _ _ Hst E) as Hperm. pose proof (stacked_partial _ _ _ _ _ _ Hst) as Hp.
  right. eexists. split.
  { unfold checkIter. simpl. rewrite Hhd. cbn [mbind outcome_bind]. rewrite Hn.
    rewrite (stacked_ids _ _ _ _ _ _ _ Hst (g_static _ _ _ _ _ _ _ _ Hg)). reflexivity. }
  assert (forall i p, ((fun _ => Some (length (c_seqs c))) <$> seqZ 0 n) !! i = Some (Some p) ->
    p = length (c_seqs c) /\ Z.of_nat i < n) as Hlo.
  { intros i p Hi. apply list_lookup_fmap_Some in Hi as (z & [= ->] & Hz). apply lookup_seqZ in Hz. split; [done|lia]. }
  assert ((c_seqs c ++ [ids]) !! length (c_seqs c) = Some ids) as Hlast by by rewrite lookup_app_r // Nat.sub_diag.
  split; [split|].
  - apply Forall_app. split; [exact (proj1 Hso)|by constructor].
  - intros i p [-> Hi]%Hlo. exists ids. split; [done|]. rewrite Hperm elem_of_seqZ. lia.
  - intros _ i Hi. exists (length (c_seqs c)), ids. split_and!; [|done|rewrite Hperm length_seqZ; lia].
    apply list_lookup_fmap_Some. exists i. split; [done|]. apply lookup_seqZ. lia.
Qed.

(** At a call: the search goes on behind it or pushes it. *)
Lemma iter_at_call c X ids l1 k l2 i : search_ok c X ids l1 (k :: l2) -> call_at es k i ->
  step_ok (checkIter model equal true n head false c).
Proof.
  intros [Hst Hg E Hl1 He Hso] Hc. destruct c as [h e b cache cs lo sq st]. simpl in *. subst e.
  destruct (iter_call model equal true es n Hwf h0 Hh0 h b X cs lo sq st cache l1 k l2 i Hg E Hc) as (inp & out & Hio & Hit).
  cbv zeta in Hit.
  assert (iter model equal true es n (at_entry h b cache cs lo sq st (Some k)) (at_entry h b cache cs lo sq st (first l2 None)) ->
    step_ok (checkIter model equal true n head false (mkSearch h (Some k) b cache cs lo sq st))) as Hskip.
  { intros Hi. left. exists (at_entry h b cache cs lo sq st (first l2 None)), X, ids, (l1 ++ [k]), l2. split; [exact Hi|].
    constructor; simpl; try done; [by rewrite -assoc|]. apply Forall_app. split; [done|]. constructor; [by exists i|done]. }
  destruct (Step model st inp out) as [[] st'] eqn:Hs; [|by apply Hskip].
  destruct Hit as (b' & h' & Hb' & Hlen' & Hg' & Hunl & Hit).
  destruct (cacheContains equal cache (mkCacheEntry b' st')); [by apply Hskip|].
  left. eexists _, ({[i]} ∪ X), (ids ++ [i]), [], (live ({[i]} ∪ X)). split; [exact Hit|]. constructor; simpl; try done.
  exact (stacked_push _ _ _ _ _ _ _ _ _ _ _ _ _ _ _ _ Hst Hg E Hl1 Hc Hio Hs Hg' Hunl).
Qed.

(** At a return: the last call is taken back, or the search fails. *)
Lemma iter_at_return c X ids l1 k l2 j : search_ok c X ids l1 (k :: l2) -> return_at es k j ->
  step_ok (checkIter model equal true n head false c).
Proof.
  intros [Hst Hg E Hl1 He Hso] Hret. destruct c as [h e b cache cs lo sq st]. simpl in *. subst e.
  assert (k ∈ live X) as Hk by (rewrite E; apply elem_of_app; right; left).
  inversion Hst as [|h1 b1 X1 cs1 ids1 st1 h' b' k1 i m1 m2 inp out st' lo1 Hst1 Hg1 E1 Hm1 Hc1 Hio Hs Hg' Hunl]; subst.
  - right. exists (false, lo, sq). split; [|done]. exact (iter_stuck model equal true es n h0 cache lo sq ∅ k j Hwf Hh0 Hg Hk Hret).
  - destruct (iter_return model equal true es n Hwf h0 Hh0 h1 b1 X1 h b i cs1 lo sq st1 st cache m1 k1 m2 k j)
      as (lo' & sq' & Hlen & _ & _ & Hu & Hit); try done.
    + exact (good_longest _ _ _ _ _ _ _ _ _ Hg1 (g_longest _ _ _ _ _ _ _ _ Hg)).
    + by rewrite (g_len _ _ _ _ _ _ _ _ Hg) (g_len _ _ _ _ _ _ _ _ Hg1).
    + left. exists (at_entry h1 b1 cache cs1 lo' sq' st1 (first m2 None)), X1, ids1, (m1 ++ [k1]), m2. split; [exact Hit|].
      constructor; simpl; try done.
      * exact (good_longest _ _ _ _ _ _ _ _ _ Hg1 Hlen).
      * by rewrite -assoc.
      * apply Forall_app. split; [done|]. constructor; [by exists i|done].
      * pose proof (stacked_ids _ _ _ _ _ _ h Hst (g_static _ _ _ _ _ _ _ _ Hg)) as Hids.
        exact (updateLongest_sound h _ _ _ _ lo None sq lo' sq' Hids (stacked_partial _ _ _ _ _ _ Hst) Hids
          ltac:(done) ltac:(done) Hso Hu).
Qed.

Lemma iter_ok c X ids l1 l2 killed : search_ok c X ids l1 l2 -> step_ok (checkIter model equal true n head killed c).
Proof.
  intros Hok. destruct (decide (live X = [])) as [E|Hne]; [exact (iter_success _ _ _ _ _ _ Hok E)|].
  pose proof Hok as [Hst Hg E Hl1 He Hso]. destruct killed.
  { right. exists (false, c_longest c, c_seqs c). split; [|done].
    destruct (head_next es _ X (g_repr _ _ _ _ _ _ _ _ Hg)) as (hd & Hhd & Hn). unfold checkIter. simpl. rewrite Hhd.
    cbn [mbind outcome_bind]. rewrite Hn. by destruct (live X). }
  destruct (live_first_return es n Hwf X Hne) as (cand & r & tail & j & E' & _ & Hret).
  destruct l2 as [|k l2].
  { exfalso. rewrite app_nil_r in E. rewrite E in E'. rewrite E' Forall_app Forall_cons in Hl1. destruct Hl1 as (_ & [i Hi] & _).
    exact (call_not_return es _ _ _ Hi Hret). }
  assert (k ∈ live X) as (e & Hke & _)%elem_live by (rewrite E; apply elem_of_app; right; left).
  destruct (call_or_return es k e Hke) as [Hc|Hr]; [exact (iter_at_call _ _ _ _ _ _ _ Hok Hc)|exact (iter_at_return _ _ _ _ _ _ _ Hok Hr)].
Qed.

(** However it is killed, the search does not panic and records only partial
    linearizations. *)
Lemma loop_sound kill fuel c X ids l1 l2 : search_ok c X ids l1 l2 ->
  exists r, checkLoop model equal true n head kill fuel c = Ret r /\ forall res, r = Some res -> sound_result res.
Proof.
  revert c X ids l1 l2. induction fuel as [|fuel IH]; intros c X ids l1 l2 Hok; [by exists None|]. simpl.
  destruct (iter_ok c X ids l1 l2 (kill fuel) Hok) as [(c' & X' & ids' & l1' & l2' & -> & Hok')|(res & -> & Hres)]; simpl.
  - exact (IH _ _ _ _ _ Hok').
  - exists (Some res). split; [done|]. by intros ? [= <-].
Qed.

End partial.

Section results.
Context {Inp Out St : Type} (model : Model Inp Out St) (equal : St -> St -> bool) (es : list (entry Inp Out)) (n : Z).
Hypothesis Hwf : wf_history es n.

Lemma start_ok h0 : good es n h0 h0 (newBitset n) ∅ ([] : list (callsEntry St)) (replicate (Z.to_nat n) None) ->
  search_ok model es n h0 (start model es n h0) ∅ [] [] (live es ∅).
Proof.
  intros Hg. constructor; simpl; try done; [constructor|]. split; [constructor|].
  intros i p [[=] _]%lookup_replicate_1.
Qed.

(** However it is killed, the search returns without a panic, and what it
    recorded is sound. *)
Lemma checkSingle_sound kill fuel :
  exists r, checkSingle model equal es true kill fuel = Ret r /\ forall res, r = Some res -> sound_result model es n res.
Proof.
  destruct (checkSingle_start model equal true es n Hwf) as (h0 & Hh0 & Hg & ->).
  exact (loop_sound model equal es n Hwf h0 Hh0 kill fuel _ _ _ _ _ (start_ok h0 Hg)).
Qed.

(** [longest] has, for each operation, a longest partial linearization with it. *)
Definition longest_for (longest : list (option nat)) (seqs : list (list Z)) (i : Z) : Prop :=
  match longest !! Z.to_nat i with
  | Some (Some p) => exists s, seqs !! p = Some s /\ partial_linearization (Step model) es n (Init model) s /\ i ∈ s /\
      forall l, partial_linearization (Step model) es n (Init model) l -> i ∈ l -> (length l <= length s)%nat
  | _ => forall l, partial_linearization (Step model) es n (Init model) l -> i ∉ l
  end.

Lemma partial_short l : partial_linearization (Step model) es n (Init model) l -> (length l <= Z.to_nat n)%nat.
Proof.
  intros Hp. rewrite -(length_seqZ 0 n). apply submseteq_length, NoDup_submseteq; [exact (pl_NoDup _ _ _ _ _ Hp)|].
  intros a Ha. apply elem_of_seqZ. pose proof (pl_range _ _ _ _ _ Hp a Ha). lia.
Qed.

Lemma longest_for_intro longest seqs i : 0 <= i < n -> sound model es n longest seqs ->
  (forall l, partial_linearization (Step model) es n (Init model) l -> i ∈ l -> recorded longest seqs i (length l)) ->
  longest_for longest seqs i.
Proof.
  intros Hi [Hs1 Hs2] Hrec. unfold longest_for. destruct (longest !! Z.to_nat i) as [[p|]|] eqn:E.
  - destruct (Hs2 _ _ E) as (s & Hs & Hin). rewrite Z2Nat.id in Hin; [lia|]. exists s. rewrite Forall_lookup in Hs1.
    split_and!; [done|exact (Hs1 _ _ Hs)|done|]. intros l Hl Hil. destruct (Hrec l Hl Hil) as (p' & s' & H1 & H2 & H3). congruence.
  - intros l Hl Hil. destruct (Hrec l Hl Hil) as (p' & s' & H1 & _). congruence.
  - intros l Hl Hil. destruct (Hrec l Hl Hil) as (p' & s' & H1 & _). congruence.
Qed.

End results.

(** C31. A check with partial linearizations that is not killed terminates, and
    reports for every operation a longest partial linearization that contains
    it: operations of the history in an order that the model accepts and that
    keeps the real-time order, closed under the operations that must come
    before; for an operation without an entry there is none. *)
Theorem partials_are_longest {Inp Out St : Type} (model : Model Inp Out St) equal es n :
  wf_history es n ->
  (forall s1 s2 i o s1', equal s1 s2 = true -> Step model s1 i o = (true, s1') ->
     exists s2', Step model s2 i o = (true, s2') /\ equal s1' s2' = true) ->
  exists ok longest seqs k,
    (forall fuel, (k <= fuel)%nat ->
       checkSingle model equal es true (fun _ => false) fuel = Ret (Some (ok, longest, seqs))) /\
    forall i, 0 <= i < n -> longest_for model es n longest seqs i.
Proof.
  intros Hwf Hsim. destruct (checkSingle_result model equal true es n Hwf Hsim) as (ok & lo & sq & k & Hk & _ & Hcov).
  exists ok, lo, sq, k. split; [done|]. intros i Hi.
  destruct (checkSingle_sound model equal es n Hwf (fun _ => false) k) as (r & Hr & Hres).
  rewrite (Hk k) in Hr; [lia|]. injection Hr as <-. destruct (Hres _ eq_refl) as [Hs Hall].
  apply longest_for_intro; [done|done|]. intros l Hl Hil. destruct ok.
  - eapply recorded_le; [|by apply Hall]. by apply (partial_short model es n).
  - apply (path_partial (Step model) es n Hwf) in Hl as (X' & st' & Hp).
    apply (Hcov eq_refl eq_refl l X' st' i Hp). set_solver.
Qed.
