(* ===== verification/PorcupineParallel.v ===== *)
(** * PorcupineParallel: partitions, timeouts and the entry points

    The rest of src/src/porcupine/checker.go and porcupine.go.  [checkParallel]
    starts one goroutine per partition and receives their results in the order
    in which they arrive, or a timeout.  [arrive] is the scheduler: from the
    results of the goroutines it makes the sequence of arrivals.  The loop that
    receives blocks when nothing more arrives: [None]. *)

From S2P Require Import Prelude Bitset Porcupine.
Local Open Scope Z_scope.

(** [sort.Sort(byTime(entries))]: a permutation in which no entry is before a
    smaller one. *)
Class TimeSort (Inp Out : Type) := {
  sortByTime : list (entry Inp Out) -> list (entry Inp Out);
  sortByTime_perm l : sortByTime l ≡ₚ l;
  sortByTime_sorted l : StronglySorted (fun a b => Less b a = false) (sortByTime l);
}.

(** How a check ends. *)
Inductive Ending (A : Type) := Returns (a : A) | Blocks | OutOfFuel.
Arguments Returns {A} _.
Arguments Blocks {A}.
Arguments OutOfFuel {A}.

Definition ending_map {A B} (f : A -> B) (e : Ending A) : Ending B :=
  match e with Returns a => Returns (f a) | Blocks => Blocks | OutOfFuel => OutOfFuel end.

Inductive Arrival := ResultArrives (ok : bool) | TimeoutFires.

(** The select loop: whether all results were true, whether it timed out, and
    how many results were received. *)
Fixpoint receive (computeInfo : bool) (parts : Z) (arrivals : list Arrival) (ok : bool) (count : Z)
    : option (bool * bool * Z) :=
  match arrivals with
  | [] => None
  | ResultArrives result :: arrivals =>
      let count := count + 1 in
      let ok := ok && result in
      if negb ok && negb computeInfo then Some (ok, false, count)
      else if bool_decide (count >= parts) then Some (ok, false, count)
      else receive computeInfo parts arrivals ok count
  | TimeoutFires :: _ => Some (ok, true, count)
  end.

Section parallel.
Context {Inp Out St : Type} `{!MapOrder} `{!TimeSort Inp Out} `{EqDecision St, !GoFormat Inp, !GoFormat Out, !GoFormat St}.

Record linearizationInfo := mkLinearizationInfo {
  history : list (list (entry Inp Out));
  partialLinearizations : list (list (list Z));
}.

(** The distinct slices [longest] refers to. *)
Definition partialsOf (r : Result) : list (list Z) :=
  let '(_, longest, seqs) := r in
  let set := foldl (fun (m : gmap Z unit) v => match v with Some p => <[Z.of_nat p := tt]> m | None => m end) ∅ longest in
  omap (fun kv => seqs !! Z.to_nat kv.1) (range set).

(** [results] are the results of the goroutines, in the order of the
    partitions. *)
Definition checkParallel (hist : list (list (entry Inp Out))) (results : list Result) (computeInfo : bool)
    (arrivals : list Arrival) : Ending (CheckResult * linearizationInfo) :=
  match receive computeInfo (len hist) arrivals true 0 with
  | None => Blocks
  | Some (ok, timedOut, _) =>
      let info := if computeInfo then mkLinearizationInfo hist (partialsOf <$> results)
                  else mkLinearizationInfo [] [] in
      let result := if negb ok then Illegal else if timedOut : bool then Unknown else Ok in
      Returns (result, info)
  end.

Definition equalOf (model : Model Inp Out St) : St -> St -> bool := default ShallowEqual (Equal model).

(** The goroutines; [kill i] is the flag as goroutine [i] reads it.  [None] if
    one is out of fuel. *)
Fixpoint checkAll (model : Model Inp Out St) (i : nat) (parts : list (list (entry Inp Out))) (verbose : bool)
    (kill : nat -> nat -> bool) (fuel : nat) : outcome (option (list Result)) :=
  match parts with
  | [] => Ret (Some [])
  | p :: parts =>
      r ← checkSingle model (equalOf model) p verbose (kill i) fuel;
      rs ← checkAll model (i + 1) parts verbose kill fuel;
      Ret (match r, rs with Some r, Some rs => Some (r :: rs) | _, _ => None end)
  end.

Definition runCheck (model : Model Inp Out St) (parts : list (list (entry Inp Out))) (verbose : bool)
    (kill : nat -> nat -> bool) (fuel : nat) (arrive : list bool -> list Arrival)
    : outcome (Ending (CheckResult * linearizationInfo)) :=
  rs ← checkAll model 0 parts verbose kill fuel;
  Ret (match rs with
       | Some rs => checkParallel parts rs verbose (arrive ((fun r => r.1.1) <$> rs))
       | None => OutOfFuel
       end).

Definition checkEvents (model : Model Inp Out St) (hist : list (Event Inp Out)) (verbose : bool)
    (kill : nat -> nat -> bool) (fuel : nat) (arrive : list bool -> list Arrival)
    : outcome (Ending (CheckResult * linearizationInfo)) :=
  let model := fillDefault model in
  let partitions := default NoPartitionEvent (PartitionEvent model) hist in
  let l := (fun subhistory => convertEntries (renumber subhistory)) <$> partitions in
  runCheck model l verbose kill fuel arrive.

Definition checkOperations (model : Model Inp Out St) (hist : list (Operation Inp Out)) (verbose : bool)
    (kill : nat -> nat -> bool) (fuel : nat) (arrive : list bool -> list Arrival)
    : outcome (Ending (CheckResult * linearizationInfo)) :=
  let model := fillDefault model in
  let partitions := default NoPartition (Partition model) hist in
  let l := makeEntries sortByTime <$> partitions in
  runCheck model l verbose kill fuel arrive.

(** ** porcupine.go *)

Definition is_Ok (r : CheckResult * linearizationInfo) : bool :=
  match r.1 with Ok => true | _ => false end.

Definition CheckOperations model hist kill fuel arrive : outcome (Ending bool) :=
  r ← checkOperations model hist false kill fuel arrive; Ret (ending_map is_Ok r).

Definition CheckOperationsTimeout model hist kill fuel arrive : outcome (Ending CheckResult) :=
  r ← checkOperations model hist false kill fuel arrive; Ret (ending_map fst r).

Definition CheckOperationsVerbose model hist kill fuel arrive := checkOperations model hist true kill fuel arrive.

Definition CheckEvents model hist kill fuel arrive : outcome (Ending bool) :=
  r ← checkEvents model hist false kill fuel arrive; Ret (ending_map is_Ok r).

Definition CheckEventsTimeout model hist kill fuel arrive : outcome (Ending CheckResult) :=
  r ← checkEvents model hist false kill fuel arrive; Ret (ending_map fst r).

Definition CheckEventsVerbose model hist kill fuel arrive := checkEvents model hist true kill fuel arrive.

End parallel.
