(* ===== verification/PorcupineOps.v ===== *)
(** * PorcupineOps: from timed operations to entries

    [makeEntries] turns operations into a well-formed history whose order is
    real time: an operation precedes another in the history exactly when it
    returned strictly before the other was called. *)

From S2P Require Import Prelude Bitset Porcupine PorcupineSpec PorcupineParallel.
Local Open Scope Z_scope.

Section ops.
Context {Inp Out St : Type} `{!TimeSort Inp Out}.
Context (step : St -> Inp -> Out -> bool * St).
Implicit Types ops : list (Operation Inp Out).

(** The model accepts the operations in this order. *)
Inductive op_legal ops : St -> list Z -> Prop :=
| op_legal_nil st : op_legal ops st []
| op_legal_cons st i op st' l :
    0 <= i -> ops !! Z.to_nat i = Some op -> step st (Input op) (Output op) = (true, st') ->
    op_legal ops st' l -> op_legal ops st (i :: l).

(** [a] returned before [b] was called. *)
Definition before ops (a b : Z) : Prop :=
  exists opa opb, ops !! Z.to_nat a = Some opa /\ ops !! Z.to_nat b = Some opb /\ Return_ opa < Call opb.

Record op_linearization ops (st : St) (l : list Z) : Prop := {
  ol_perm : l ≡ₚ seqZ 0 (len ops);
  ol_legal : op_legal ops st l;
  ol_order : forall i j a b, l !! i = Some a -> l !! j = Some b -> before ops a b -> (i < j)%nat;
}.

Definition op_linearizable ops (st : St) : Prop := exists l, op_linearization ops st l.

(** Operations return after they are called. *)
Definition timed ops : Prop := Forall (fun op => Call op <= Return_ op) ops.

(** ** The entries *)

Definition callOf (i : Z) (op : Operation Inp Out) : entry Inp Out :=
  mkEntry callEntry (inl (Input op)) i (Call op) (op_ClientId op).
Definition returnOf (i : Z) (op : Operation Inp Out) : entry Inp Out :=
  mkEntry returnEntry (inr (Output op)) i (Return_ op) (op_ClientId op).

Lemma elem_entriesFrom ops id e :
  e ∈ entriesFrom id ops <->
  exists k op, ops !! k = Some op /\ (e = callOf (id + Z.of_nat k) op \/ e = returnOf (id + Z.of_nat k) op).
Proof.
  revert id. induction ops as [|o ops IH]; intros id; simpl.
  { rewrite elem_of_nil. split; [done|]. by intros (k & op & Hk & _). }
  rewrite !elem_of_cons IH. split.
  - intros [->|[->|(k & op & Hk & Hor)]].
    + exists 0%nat, o. split; [done|]. left. by rewrite Z.add_0_r.
    + exists 0%nat, o. split; [done|]. right. by rewrite Z.add_0_r.
    + exists (S k), op. split; [done|]. by replace (id + Z.of_nat (S k)) with (id + 1 + Z.of_nat k) by lia.
  - intros ([|k] & op & Hk & Hor); simpl in Hk.
    + injection Hk as ->. rewrite Z.add_0_r in Hor. destruct Hor as [->| ->]; auto.
    + right. right. exists k, op. split; [done|]. by replace (id + 1 + Z.of_nat k) with (id + Z.of_nat (S k)) by lia.
Qed.

Lemma entriesFrom_ids ops id e : e ∈ entriesFrom id ops -> id <= e_id e.
Proof. rewrite elem_entriesFrom. intros (k & op & _ & [->| ->]); simpl; lia. Qed.

Lemma entriesFrom_NoDup ops id : NoDup (entriesFrom id ops).
Proof.
  revert id. induction ops as [|o ops IH]; intros id; simpl; [constructor|]. constructor; [|constructor; [|apply IH]].
  - rewrite elem_of_cons. intros [?|?%entriesFrom_ids]; [done|]. simpl in *. lia.
  - intros ?%entriesFrom_ids. simpl in *. lia.
Qed.

Lemma entriesFrom_len ops id : len (entriesFrom id ops) = 2 * len ops.
Proof. revert id. induction ops as [|o ops IH]; intros id; [done|]. simpl. rewrite !len_cons IH. lia. Qed.

Section one.
Context (ops : list (Operation Inp Out)).
Hypothesis Htimed : timed ops.

Notation es := (makeEntries sortByTime ops).

Lemma es_elem e : e ∈ es <-> exists i op, 0 <= i /\ ops !! Z.to_nat i = Some op /\ (e = callOf i op \/ e = returnOf i op).
Proof.
  unfold makeEntries. rewrite (sortByTime_perm (entriesFrom 0 ops)) elem_entriesFrom. split.
  - intros (k & op & Hk & Hor). exists (Z.of_nat k), op. rewrite Nat2Z.id. split; [lia|done].
  - intros (i & op & Hi & Hop & Hor). exists (Z.to_nat i), op. split; [done|]. by rewrite Z2Nat.id.
Qed.

Lemma es_NoDup : NoDup es.
Proof. unfold makeEntries. rewrite sortByTime_perm. apply entriesFrom_NoDup. Qed.

Lemma es_sorted k k' e e' : es !! k = Some e -> es !! k' = Some e' -> (k < k')%nat -> Less e' e = false.
Proof.
  intros Hk Hk' Hlt. pose proof (sortByTime_sorted (entriesFrom 0 ops)) as Hs. fold es in Hs.
  rewrite -(take_drop_middle es k e Hk) in Hs. apply StronglySorted_app_1_r, StronglySorted_cons in Hs as [Hs _].
  rewrite Forall_forall in Hs. apply (Hs e'). apply list_elem_of_lookup_2 with (k' - S k)%nat.
  rewrite lookup_drop. by replace (S k + (k' - S k))%nat with k' by lia.
Qed.

Lemma es_call k i : call_at es k i <-> exists op, 0 <= i /\ ops !! Z.to_nat i = Some op /\ es !! k = Some (callOf i op).
Proof.
  split.
  - intros (e & He & Hk & Hi). assert (e ∈ es) as Hin by exact (list_elem_of_lookup_2 _ _ _ He).
    apply es_elem in Hin as (i' & op & Hi' & Hop & [->| ->]); simpl in *; [|done]. subst. eauto.
  - intros (op & Hi & Hop & Hk). by exists (callOf i op).
Qed.

Lemma es_return k i : return_at es k i <-> exists op, 0 <= i /\ ops !! Z.to_nat i = Some op /\ es !! k = Some (returnOf i op).
Proof.
  split.
  - intros (e & He & Hk & Hi). assert (e ∈ es) as Hin by exact (list_elem_of_lookup_2 _ _ _ He).
    apply es_elem in Hin as (i' & op & Hi' & Hop & [->| ->]); simpl in *; [done|]. subst. eauto.
  - intros (op & Hi & Hop & Hk). by exists (returnOf i op).
Qed.

Lemma es_has_call i op : 0 <= i -> ops !! Z.to_nat i = Some op -> exists k, es !! k = Some (callOf i op).
Proof. intros Hi Hop. apply list_elem_of_lookup_1, es_elem. exists i, op. auto. Qed.

Lemma es_has_return i op : 0 <= i -> ops !! Z.to_nat i = Some op -> exists k, es !! k = Some (returnOf i op).
Proof. intros Hi Hop. apply list_elem_of_lookup_1, es_elem. exists i, op. auto. Qed.

(** A call is before a return unless the return is earlier in time. *)
Lemma call_before_return kc kr i j a b :
  es !! kc = Some (callOf i a) -> es !! kr = Some (returnOf j b) -> (kc < kr)%nat <-> Call a <= Return_ b.
Proof.
  intros Hc Hr. split.
  - intros Hlt. pose proof (es_sorted _ _ _ _ Hc Hr Hlt) as HL. unfold Less in HL. simpl in HL.
    case_bool_decide as Hne; [apply bool_decide_eq_false in HL; lia|lia].
  - intros Hle. destruct (Nat.lt_trichotomy kc kr) as [?|[->|Hlt]]; [done|by rewrite Hc in Hr|].
    pose proof (es_sorted _ _ _ _ Hr Hc Hlt) as HL. unfold Less in HL. simpl in HL.
    case_bool_decide as Hne; [apply bool_decide_eq_false in HL; lia|done].
Qed.

Lemma makeEntries_wf : wf_history es (len ops).
Proof.
  assert (forall i op, 0 <= i -> ops !! Z.to_nat i = Some op -> 0 <= i < len ops) as Hrange.
  { intros i op Hi Hop%lookup_lt_Some. unfold len. lia. }
  constructor.
  - unfold makeEntries, len. rewrite (sortByTime_perm (entriesFrom 0 ops)). apply (entriesFrom_len ops 0).
  - intros k e He. assert (e ∈ es) as Hin by exact (list_elem_of_lookup_2 _ _ _ He).
    apply es_elem in Hin as (i & op & Hi & Hop & [->| ->]); simpl; eauto.
  - intros k e He. assert (e ∈ es) as Hin by exact (list_elem_of_lookup_2 _ _ _ He).
    apply es_elem in Hin as (i & op & Hi & Hop & [->| ->]); simpl; eauto.
  - intros k k' e e' He He' Hk Hid. assert (e = e') as ->.
    { assert (e ∈ es) as Hin by exact (list_elem_of_lookup_2 _ _ _ He).
      assert (e' ∈ es) as Hin' by exact (list_elem_of_lookup_2 _ _ _ He').
      apply es_elem in Hin as (i & op & Hi & Hop & Hor), Hin' as (i' & op' & Hi' & Hop' & Hor').
      destruct Hor as [->| ->], Hor' as [->| ->]; simpl in *; try done; subst i'; congruence. }
    exact (NoDup_lookup _ _ _ _ es_NoDup He He').
  - intros k e He Hk. assert (call_at es k (e_id e)) as Hc by by exists e.
    apply es_call in Hc as (op & Hi & Hop & Hko). destruct (es_has_return _ _ Hi Hop) as [k' Hk'].
    exists k', (returnOf (e_id e) op). split_and!; try done. apply (call_before_return _ _ _ _ _ _ Hko Hk').
    exact (Forall_lookup_1 _ _ _ _ Htimed Hop).
  - intros i Hi. destruct (lookup_lt_is_Some_2 ops (Z.to_nat i)) as [op Hop]; [unfold len in Hi; lia|].
    destruct (es_has_call i op) as [k Hk]; [lia|done|]. exists k, (callOf i op). done.
Qed.

Lemma precedes_before a b : precedes es a b -> before ops a b.
Proof.
  intros (ka & kb & Hr & Hc & Hlt). apply es_return in Hr as (opa & Ha & Hopa & Hka).
  apply es_call in Hc as (opb & Hb & Hopb & Hkb). exists opa, opb. split_and!; [done|done|].
  destruct (decide (Return_ opa < Call opb)) as [|Hge]; [done|]. exfalso.
  pose proof (proj2 (call_before_return _ _ _ _ _ _ Hkb Hka)). lia.
Qed.

Lemma before_precedes a b : 0 <= a -> 0 <= b -> before ops a b -> precedes es a b.
Proof.
  intros Ha Hb (opa & opb & Hopa & Hopb & Hlt). destruct (es_has_return a opa Ha Hopa) as [ka Hka].
  destruct (es_has_call b opb Hb Hopb) as [kb Hkb]. exists ka, kb. split_and!.
  - apply es_return. eauto.
  - apply es_call. eauto.
  - destruct (Nat.lt_trichotomy ka kb) as [?|[->|Hlt']]; [done|by rewrite Hka in Hkb|].
    apply (call_before_return _ _ _ _ _ _ Hkb Hka) in Hlt'. lia.
Qed.

Lemma op_io_iff i inp out :
  op_io es i inp out <-> exists op, 0 <= i /\ ops !! Z.to_nat i = Some op /\ Input op = inp /\ Output op = out.
Proof.
  split.
  - intros [(k & e & He & Hk & Hi & Hv) (k' & e' & He' & Hk' & Hi' & Hv')].
    assert (call_at es k i) as Hc by by exists e. assert (return_at es k' i) as Hr by by exists e'.
    apply es_call in Hc as (op & H0 & Hop & Hc). apply es_return in Hr as (op' & _ & Hop' & Hr).
    rewrite Hop in Hop'. injection Hop' as <-. rewrite Hc in He. rewrite Hr in He'. injection He as <-. injection He' as <-.
    simpl in *. injection Hv as <-. injection Hv' as <-. by exists op.
  - intros (op & Hi & Hop & <- & <-). destruct (es_has_call i op Hi Hop) as [k Hk].
    destruct (es_has_return i op Hi Hop) as [k' Hk']. split; [by exists k, (callOf i op)|by exists k', (returnOf i op)].
Qed.

Lemma legal_iff st l : legal step es st l <-> op_legal ops st l.
Proof.
  split.
  - induction 1 as [|st i inp out st' l Hio Hs _ IH]; [constructor|].
    apply op_io_iff in Hio as (op & Hi & Hop & <- & <-). eapply op_legal_cons; eauto.
  - induction 1 as [|st i op st' l Hi Hop Hs _ IH]; [constructor|].
    eapply legal_cons; [apply op_io_iff; by exists op|exact Hs|exact IH].
Qed.

Lemma makeEntries_linearizable st : linearizable step es (len ops) st <-> op_linearizable ops st.
Proof.
  split; intros [l [H1 H2 H3]]; exists l; constructor; try done; try (by apply legal_iff).
  - intros i j a b Hi Hj Hb. apply (H3 i j a b Hi Hj). apply before_precedes; [| |done].
    + apply list_elem_of_lookup_2 in Hi. rewrite H1 in Hi. apply elem_of_seqZ in Hi. lia.
    + apply list_elem_of_lookup_2 in Hj. rewrite H1 in Hj. apply elem_of_seqZ in Hj. lia.
  - intros i j a b Hi Hj Hp. apply (H3 i j a b Hi Hj). by apply precedes_before.
Qed.

End one.
End ops.
