(* ===== verification/PorcupineChecks.v ===== *)
(** * PorcupineChecks: what the entry points of the checker answer *)

From S2P Require Import Prelude Bitset Porcupine PorcupineSpec PorcupineTheorems PorcupineParallel PorcupineOps.
Local Open Scope Z_scope.

(** ** Receiving the results *)

Lemma receive_all (oks : list bool) parts count :
  oks <> [] -> count + len oks = parts ->
  exists c, receive false parts (ResultArrives <$> oks) true count = Some (forallb id oks, false, c).
Proof.
  revert count. induction oks as [|ok oks IH]; intros count Hne Hp; [done|]. rewrite len_cons in Hp. cbn.
  destruct ok; simpl; [|eauto]. destruct oks as [|ok' oks].
  - rewrite bool_decide_true; [rewrite len_nil in Hp; lia|]. eauto.
  - rewrite bool_decide_false; [rewrite len_cons in Hp; pose proof (len_nonneg oks); lia|].
    apply (IH (count + 1)); [done|lia].
Qed.

Lemma forallb_perm (l k : list bool) : l ≡ₚ k -> forallb id l = forallb id k.
Proof.
  induction 1 as [|x l k _ IH|x y l|l k m _ IH1 _ IH2]; simpl; [done|by rewrite IH|by rewrite !andb_assoc (andb_comm (id y))|congruence].
Qed.

(** A scheduler that delivers every result and has no timeout. *)
Definition fair (arrive : list bool -> list Arrival) : Prop := forall oks, arrive oks ≡ₚ ResultArrives <$> oks.

Section checks.
Context {Inp Out St : Type} `{!MapOrder} `{!TimeSort Inp Out} `{EqDecision St, !GoFormat Inp, !GoFormat Out, !GoFormat St}.
Implicit Types model : Model Inp Out St.

Definition equal_simulates model : Prop :=
  forall s1 s2 i o s1', equalOf model s1 s2 = true -> Step model s1 i o = (true, s1') ->
    exists s2', Step model s2 i o = (true, s2') /\ equalOf model s1' s2' = true.

Lemma checkAll_result model (parts : list (list (entry Inp Out))) verbose i :
  equal_simulates model -> Forall (fun es => exists n, wf_history es n) parts ->
  exists rs k, (forall fuel, (k <= fuel)%nat -> checkAll model i parts verbose (fun _ _ => false) fuel = Ret (Some rs)) /\
    Forall2 (fun es (r : Result) => forall n, wf_history es n -> (r.1.1 = true <-> linearizable (Step model) es n (Init model))) parts rs.
Proof.
  intros Hsim Hparts. revert i. induction Hparts as [|es parts [n Hn] _ IH]; intros i.
  { exists [], 0%nat. split; [done|constructor]. }
  destruct (IH (i + 1)%nat) as (rs & k & Hk & Hrs).
  destruct (checkSingle_result model (equalOf model) verbose es n Hn Hsim) as (ok & lo & sq & k' & Hk' & Hiff & _).
  exists ((ok, lo, sq) :: rs), (k + k')%nat. split.
  - intros fuel Hf. simpl. rewrite Hk'; [lia|]. cbn [mbind outcome_bind]. rewrite Hk; [lia|]. done.
  - constructor; [|done]. intros n' Hn'. simpl. assert (n' = n) as -> by (destruct Hn, Hn'; lia). done.
Qed.

Lemma fillDefault_equal model : equalOf (fillDefault model) = equalOf model.
Proof. done. Qed.

Definition partitions model (hist : list (Operation Inp Out)) : list (list (Operation Inp Out)) :=
  default NoPartition (Partition model) hist.

(** What the goroutines answer: together, whether every partition is
    linearizable. *)
Lemma goroutines_result model hist :
  equal_simulates model -> Forall timed (partitions model hist) ->
  exists rs k, let oks := (fun r : Result => r.1.1) <$> rs in
    (forall verbose arrive fuel, verbose = false -> (k <= fuel)%nat ->
       checkOperations model hist verbose (fun _ _ => false) fuel arrive =
       Ret (checkParallel (makeEntries sortByTime <$> partitions model hist) rs verbose (arrive oks))) /\
    length oks = length (partitions model hist) /\
    (forallb id oks = true <-> Forall (fun p => op_linearizable (Step model) p (Init model)) (partitions model hist)).
Proof.
  intros Hsim Htimed. set (parts := partitions model hist) in *.
  destruct (checkAll_result (fillDefault model) (makeEntries sortByTime <$> parts) false 0) as (rs & k & Hk & Hrs).
  { exact Hsim. }
  { apply Forall_fmap. eapply Forall_impl; [exact Htimed|]. intros p Hp. exists (len p). by apply makeEntries_wf. }
  apply Forall2_fmap_l in Hrs. pose proof (Forall2_length _ _ _ Hrs) as Hlen.
  exists rs, k. cbv zeta. split_and!.
  - intros verbose arrive fuel -> Hf. unfold checkOperations, runCheck. cbv zeta.
    change (default NoPartition (Partition (fillDefault model)) hist) with parts. by rewrite Hk.
  - rewrite length_fmap. lia.
  - rewrite forallb_forall Forall_lookup. split.
    + intros Hall j p Hj. pose proof (Forall2_lookup_l _ _ _ _ _ Hrs Hj) as (r & Hr & Hiff).
      pose proof (Forall_lookup_1 _ _ _ _ Htimed Hj) as Ht.
      apply (makeEntries_linearizable (Step model) p (Init model)), (Hiff (len p) (makeEntries_wf p Ht)), Hall.
      apply list_elem_of_In, list_elem_of_fmap. exists r. split; [done|]. exact (list_elem_of_lookup_2 _ _ _ Hr).
    + intros Hall b Hb%list_elem_of_In. apply list_elem_of_fmap in Hb as (r & -> & (j & Hj)%list_elem_of_lookup_1).
      destruct (Forall2_lookup_r _ _ _ _ _ Hrs Hj) as (p & Hpj & Hiff).
      pose proof (Forall_lookup_1 _ _ _ _ Htimed Hpj) as Ht.
      apply (Hiff (len p) (makeEntries_wf p Ht)), (makeEntries_linearizable (Step model) p (Init model)). exact (Hall j p Hpj).
Qed.

Lemma checkOperations_result model hist arrive :
  equal_simulates model -> fair arrive -> partitions model hist <> [] -> Forall timed (partitions model hist) ->
  exists ok k, (forall fuel, (k <= fuel)%nat ->
      CheckOperations model hist (fun _ _ => false) fuel arrive = Ret (Returns ok)) /\
    (ok = true <-> Forall (fun p => op_linearizable (Step model) p (Init model)) (partitions model hist)).
Proof.
  intros Hsim Hfair Hne Htimed. destruct (goroutines_result model hist Hsim Htimed) as (rs & k & Hk & Hlen & Hiff).
  set (oks := (fun r : Result => r.1.1) <$> rs) in *.
  destruct (Permutation_map_inv ResultArrives oks (Hfair oks)) as (oks' & E & Hp).
  assert (oks' <> []) as Hne'.
  { intros ->. apply Permutation_nil_r in Hp. rewrite Hp in Hlen. by destruct (partitions model hist). }
  destruct (receive_all oks' (len (makeEntries sortByTime <$> partitions model hist)) 0 Hne') as [c Hc].
  { unfold len. rewrite length_fmap -Hp Hlen. lia. }
  exists (forallb id oks), k. split; [|exact Hiff]. intros fuel Hf. unfold CheckOperations.
  rewrite (Hk false arrive fuel eq_refl Hf). cbn [mbind outcome_bind]. unfold checkParallel. rewrite E.
  change (map ResultArrives oks') with (ResultArrives <$> oks'). rewrite Hc -(forallb_perm _ _ Hp).
  by destruct (forallb id oks).
Qed.

(** ** Timeouts *)

Lemma receive_some (oks : list bool) parts count :
  count + len oks <= parts ->
  exists ok t c, receive false parts ((ResultArrives <$> oks) ++ [TimeoutFires]) true count = Some (ok, t, c) /\
    (ok = false -> forallb id oks = false) /\
    (ok = true -> t = false -> count + len oks = parts /\ forallb id oks = true).
Proof.
  revert count. induction oks as [|b oks IH]; intros count Hp.
  { exists true, true, count. split_and!; done. }
  rewrite len_cons in Hp. cbn. destruct b; simpl.
  - case_bool_decide as Hc.
    + pose proof (len_nonneg oks). assert (len oks = 0) as Hz by lia. destruct oks; [|rewrite len_cons in Hz; pose proof (len_nonneg oks); lia].
      exists true, false, (count + 1). split_and!; [done|done|]. intros _ _. rewrite len_cons len_nil. split; [lia|done].
    + destruct (IH (count + 1)) as (ok & t & c & Hr & H1 & H2); [lia|]. exists ok, t, c. split_and!; [done|done|].
      intros Hok Ht. destruct (H2 Hok Ht) as [H3 H4]. rewrite len_cons. split; [lia|done].
  - exists false, false, (count + 1). split_and!; done.
Qed.

(** Some of the results arrive, and then the timeout fires. *)
Definition times_out (arrive : list bool -> list Arrival) : Prop :=
  forall oks, exists some, some ⊆+ oks /\ arrive oks = (ResultArrives <$> some) ++ [TimeoutFires].

Lemma forallb_submseteq (l k : list bool) : l ⊆+ k -> forallb id k = true -> forallb id l = true.
Proof. intros [m Hm]%submseteq_Permutation. rewrite (forallb_perm _ _ Hm) forallb_app. by intros [? _]%andb_true_iff. Qed.

Lemma checkOperationsTimeout_result model hist arrive :
  equal_simulates model -> times_out arrive -> Forall timed (partitions model hist) ->
  exists r k, (forall fuel, (k <= fuel)%nat ->
      CheckOperationsTimeout model hist (fun _ _ => false) fuel arrive = Ret (Returns r)) /\
    (r = Illegal -> ~ Forall (fun p => op_linearizable (Step model) p (Init model)) (partitions model hist)) /\
    (r = Ok -> Forall (fun p => op_linearizable (Step model) p (Init model)) (partitions model hist)).
Proof.
  intros Hsim Hto Htimed. destruct (goroutines_result model hist Hsim Htimed) as (rs & k & Hk & Hlen & Hiff).
  set (oks := (fun r : Result => r.1.1) <$> rs) in *. destruct (Hto oks) as (got & Hsub & E).
  pose proof (submseteq_length _ _ Hsub) as Hgot.
  destruct (receive_some got (len (makeEntries sortByTime <$> partitions model hist)) 0) as (ok & t & c & Hr & Hbad & Hgood).
  { unfold len. rewrite length_fmap -Hlen. lia. }
  exists (if negb ok then Illegal else if t then Unknown else Ok), k. split_and!.
  - intros fuel Hf. unfold CheckOperationsTimeout. rewrite (Hk false arrive fuel eq_refl Hf).
    cbn [mbind outcome_bind]. unfold checkParallel. by rewrite E Hr.
  - intros Hi Hall. destruct ok; [by destruct t|]. apply Hiff, (forallb_submseteq _ _ Hsub) in Hall.
    rewrite (Hbad eq_refl) in Hall. done.
  - intros Ho. destruct ok, t; try done. destruct (Hgood eq_refl eq_refl) as [Hall Htrue]. apply Hiff.
    assert (got ≡ₚ oks) as Hp.
    { apply submseteq_length_Permutation; [done|]. unfold len in Hall. rewrite length_fmap -Hlen in Hall. lia. }
    by rewrite -(forallb_perm _ _ Hp).
Qed.

End checks.
