(* ===== verification/KvModel.v ===== *)
(** * KvModel: the key/value model of the tests, src/src/models/kv.go

    The tests check histories of the key/value service against [KvModel]: a
    history is partitioned by key and each partition is checked against a
    single register. *)

From S2P Require Import Prelude GoStrings Porcupine.
Local Open Scope Z_scope.

Record KvInput := mkKvInput {
  Op : Z;
  in_Key : string;
  in_Value : string;
}.

Record KvOutput := mkKvOutput { out_Value : string }.

#[export] Instance KvInput_eq_dec : EqDecision KvInput.
Proof. solve_decision. Defined.
#[export] Instance KvOutput_eq_dec : EqDecision KvOutput.
Proof. solve_decision. Defined.

(** [%v] prints a struct as its fields between braces. *)
#[export] Instance string_format : GoFormat string := fun s => s.
#[export] Instance KvInput_format : GoFormat KvInput :=
  fun i => "{" +:+ pretty (Op i) +:+ " " +:+ in_Key i +:+ " " +:+ in_Value i +:+ "}".
#[export] Instance KvOutput_format : GoFormat KvOutput := fun o => "{" +:+ out_Value o +:+ "}".

Notation KvOperation := (Operation KvInput KvOutput).

Definition op_key (v : KvOperation) : string := in_Key (Input v).

(** [m[key] = append(m[key], v)] for every operation. *)
Definition groupByKey (history : list KvOperation) : gmap string (list KvOperation) :=
  foldl (fun m v => <[op_key v := default [] (m !! op_key v) ++ [v]]> m) ∅ history.

(** The keys of a map are distinct, so the order in which the map is visited
    does not matter. *)
Definition KvPartition (history : list KvOperation) : list (list KvOperation) :=
  let m := groupByKey history in
  let keys := sort_Strings ((map_to_list m).*1) in
  (fun k => default [] (m !! k)) <$> keys.

Definition KvStep (st : string) (inp : KvInput) (out : KvOutput) : bool * string :=
  if bool_decide (Op inp = 0) then (bool_decide (out_Value out = st), st)
  else if bool_decide (Op inp = 1) then (true, in_Value inp)
  else (true, st +:+ in_Value inp).

Definition DescribeOperation (inp : KvInput) (out : KvOutput) : string :=
  if bool_decide (Op inp = 0) then "get('" +:+ in_Key inp +:+ "') -> '" +:+ out_Value out +:+ "'"
  else if bool_decide (Op inp = 1) then "put('" +:+ in_Key inp +:+ "', '" +:+ in_Value inp +:+ "')"
  else if bool_decide (Op inp = 2) then "append('" +:+ in_Key inp +:+ "', '" +:+ in_Value inp +:+ "')"
  else "<invalid>".

Definition KvModel : Model KvInput KvOutput string :=
  mkModel (Some KvPartition) None EmptyString KvStep None (Some DescribeOperation) None.

(** ** The store

    What the register of every key adds up to: a map with get, put and append. *)

Definition store_step (m : gmap string string) (inp : KvInput) (out : KvOutput) : bool * gmap string string :=
  let v := default EmptyString (m !! in_Key inp) in
  if bool_decide (Op inp = 0) then (bool_decide (out_Value out = v), m)
  else if bool_decide (Op inp = 1) then (true, <[in_Key inp := in_Value inp]> m)
  else (true, <[in_Key inp := v +:+ in_Value inp]> m).

(** ** Partitions *)

Lemma groupByKey_snoc history v :
  groupByKey (history ++ [v]) = <[op_key v := default [] (groupByKey history !! op_key v) ++ [v]]> (groupByKey history).
Proof. unfold groupByKey. by rewrite foldl_app. Qed.

Lemma groupByKey_lookup history k :
  default [] (groupByKey history !! k) = filter (fun v => op_key v = k) history /\
  (is_Some (groupByKey history !! k) <-> k ∈ op_key <$> history).
Proof.
  induction history as [|v history IH] using rev_ind.
  { split; [done|]. split; [intros [x Hx]; done|by intros ?%elem_of_nil]. }
  rewrite groupByKey_snoc filter_app fmap_app elem_of_app. destruct IH as [IH1 IH2].
  destruct (decide (op_key v = k)) as [<-|Hne].
  - rewrite lookup_insert_eq filter_cons_True //. split; [simpl; by rewrite IH1|]. split; [|by eauto].
    intros _. right. left.
  - rewrite lookup_insert_ne // filter_cons_False // app_nil_r. split; [done|]. rewrite IH2. split; [auto|].
    intros [?|Hk]; [done|]. cbn in Hk. by apply list_elem_of_singleton in Hk as ->.
Qed.

Lemma KvPartition_spec history :
  exists keys, KvPartition history = (fun k => filter (fun v => op_key v = k) history) <$> keys /\
    NoDup keys /\ forall k, k ∈ keys <-> k ∈ op_key <$> history.
Proof.
  unfold KvPartition. exists (sort_Strings ((map_to_list (groupByKey history)).*1)). split_and!.
  - apply list_fmap_ext. intros i k _. apply groupByKey_lookup.
  - unfold sort_Strings. rewrite merge_sort_Permutation. apply NoDup_fst_map_to_list.
  - intros k. unfold sort_Strings. rewrite merge_sort_Permutation list_elem_of_fmap.
    rewrite -(proj2 (groupByKey_lookup history k)). split.
    + intros ([k' l] & -> & Hl). apply elem_of_map_to_list in Hl. eauto.
    + intros [l Hl]. exists (k, l). split; [done|]. by apply elem_of_map_to_list.
Qed.
