(* ===== verification/KvLocality.v ===== *)
(** * KvLocality: checking every key is checking the store

    The comment in model.go asks that a history be linearizable if and only if
    each partition is.  For [KvModel] this holds: a history is linearizable
    with respect to the whole store exactly when the operations of every key
    are linearizable with respect to its register.  From linearizations of the
    keys, each operation gets a point between its call and its return; ordering
    all operations by their points linearizes the history. *)

From S2P Require Import Prelude Porcupine PorcupineParallel PorcupineOps KvModel.
Local Open Scope Z_scope.

(** ** Linearizations as lists of operations *)

Section lists.
Context {Inp Out St : Type} (step : St -> Inp -> Out -> bool * St).
Notation Operation := (Operation Inp Out).

Inductive run : St -> list Operation -> Prop :=
| run_nil st : run st []
| run_cons st op st' l : step st (Input op) (Output op) = (true, st') -> run st' l -> run st (op :: l).

(** No operation is after one that was called after it returned. *)
Definition real_time (l : list Operation) : Prop := StronglySorted (fun x y => Call x <= Return_ y) l.

Definition list_linearizable (ops : list Operation) (st : St) : Prop :=
  exists l, l ≡ₚ ops /\ run st l /\ real_time l.

Lemma real_time_lookup (l : list Operation) i j x y :
  real_time l -> l !! i = Some x -> l !! j = Some y -> (i < j)%nat -> Call x <= Return_ y.
Proof.
  intros Hs Hi Hj Hlt. unfold real_time in Hs. rewrite -(take_drop_middle l i x Hi) in Hs.
  apply StronglySorted_app_1_r, StronglySorted_cons in Hs as [Hs _]. rewrite Forall_forall in Hs. apply Hs.
  apply list_elem_of_lookup_2 with (j - S i)%nat. rewrite lookup_drop. by replace (S i + (j - S i))%nat with j by lia.
Qed.

Lemma real_time_intro (l : list Operation) :
  (forall i j x y, l !! i = Some x -> l !! j = Some y -> (i < j)%nat -> Call x <= Return_ y) -> real_time l.
Proof.
  induction l as [|x l IH]; intros H; [constructor|]. constructor.
  - apply IH. intros i j y z Hi Hj Hlt. apply (H (S i) (S j)); [done|done|lia].
  - apply Forall_lookup. intros j y Hj. apply (H 0%nat (S j)); [done|done|lia].
Qed.

(** The operations at the positions [idx]. *)
Lemma run_iff (ops : list Operation) st idx l :
  Forall (fun i => 0 <= i) idx -> Forall2 (fun i op => ops !! Z.to_nat i = Some op) idx l ->
  op_legal step ops st idx <-> run st l.
Proof.
  intros Hpos Hidx. revert st. induction Hidx as [|i op idx l Hi _ IH]; intros st.
  { split; constructor. }
  apply Forall_cons in Hpos as [Hi0 Hpos]. specialize (IH Hpos). split.
  - inversion 1 as [|? ? op' st' ? _ Hop' Hs Hl]; subst. assert (op' = op) as -> by congruence.
    econstructor; [exact Hs|]. by apply IH.
  - inversion 1 as [|? ? st' ? Hs Hl]; subst. econstructor; [done|exact Hi|exact Hs|]. by apply IH.
Qed.

Lemma op_list_linearizable (ops : list Operation) st :
  timed ops -> op_linearizable step ops st <-> list_linearizable ops st.
Proof.
  intros Ht.
  assert (forall i, i ∈ seqZ 0 (len ops) -> 0 <= i /\ exists op, ops !! Z.to_nat i = Some op) as Hrange.
  { intros i Hi%elem_of_seqZ. split; [lia|]. apply lookup_lt_is_Some_2. unfold len in Hi. lia. }
  destruct ops as [|o0 ops0] eqn:Eops.
  { split.
    - intros [l [Hp _ _]]. exists []. split_and!; [done|constructor|constructor].
    - intros _. exists []. constructor; [done|constructor|done]. }
  rewrite -Eops in Hrange Ht |- *. set (f := fun i : Z => default o0 (ops !! Z.to_nat i)).
  assert (forall idx, idx ≡ₚ seqZ 0 (len ops) -> Forall (fun i => 0 <= i) idx /\
    Forall2 (fun i op => ops !! Z.to_nat i = Some op) idx (f <$> idx)) as Hf.
  { intros idx Hp. split.
    - apply Forall_forall. intros i Hi. rewrite Hp in Hi. exact (proj1 (Hrange i Hi)).
    - apply Forall2_fmap_r, Forall_Forall2_diag, Forall_forall. intros i Hi. rewrite Hp in Hi.
      apply Hrange in Hi as (_ & op & Hop). unfold f. cbn. by rewrite Hop. }
  assert (f <$> seqZ 0 (len ops) = ops) as Hid.
  { apply list_eq. intros k. rewrite list_lookup_fmap. destruct (decide (k < length ops)%nat) as [Hk|Hk].
    - rewrite lookup_seqZ_lt; [unfold len; lia|]. simpl. unfold f. rewrite Z.add_0_l Nat2Z.id.
      destruct (lookup_lt_is_Some_2 ops k Hk) as [op ->]. done.
    - rewrite lookup_seqZ_ge; [unfold len; lia|]. simpl. symmetry. apply lookup_ge_None. lia. }
  split.
  - intros [idx [Hp Hl Ho]]. destruct (Hf idx Hp) as [Hpos Hidx]. exists (f <$> idx). split_and!.
    + by rewrite Hp Hid.
    + by apply (run_iff ops st idx).
    + apply real_time_intro. intros i j x y Hi Hj Hlt.
      destruct (decide (Return_ y < Call x)) as [Hlt'|]; [|lia]. exfalso.
      destruct (Forall2_lookup_r _ _ _ _ _ Hidx Hi) as (a & Ha & Hopa).
      destruct (Forall2_lookup_r _ _ _ _ _ Hidx Hj) as (b & Hb & Hopb).
      assert (j < i)%nat; [|lia]. apply (Ho j i b a Hb Ha). by exists y, x.
  - intros (l & Hp & Hr & Hs). rewrite -Hid in Hp. destruct (Permutation_map_inv f _ Hp) as (idx & -> & Hpi).
    symmetry in Hpi. destruct (Hf idx Hpi) as [Hpos Hidx]. change (map f idx) with (f <$> idx) in *.
    exists idx. constructor; [done|by apply (run_iff ops st idx (f <$> idx))|].
    intros i j a b Ha Hb (opa & opb & Hopa & Hopb & Hlt).
    assert ((f <$> idx) !! i = Some opa) as Hi by (rewrite list_lookup_fmap Ha /= /f Hopa; done).
    assert ((f <$> idx) !! j = Some opb) as Hj by (rewrite list_lookup_fmap Hb /= /f Hopb; done).
    destruct (Nat.lt_trichotomy i j) as [?|[->|Hji]]; [done| |].
    + assert (opb = opa) as -> by congruence.
      pose proof (Forall_lookup_1 _ _ _ _ Ht Hopa) as Hta. simpl in Hta. lia.
    + pose proof (real_time_lookup _ _ _ _ _ Hs Hj Hi Hji). lia.
Qed.
End lists.

(** ** Points *)

Notation KvOperation := (Operation KvInput KvOutput).

(** The largest call time so far, starting from [cur]. *)
Fixpoint annotate (cur : Z) (l : list KvOperation) : list (Z * KvOperation) :=
  match l with
  | [] => []
  | x :: l => let p := Z.max cur (Call x) in (p, x) :: annotate p l
  end.

Lemma annotate_snd cur l : (annotate cur l).*2 = l.
Proof. revert cur. induction l as [|x l IH]; intros cur; [done|]. cbn. by rewrite IH. Qed.

Definition point_le (a b : Z * KvOperation) : Prop := a.1 <= b.1.

#[local] Instance point_le_dec : RelDecision point_le.
Proof. intros a b. unfold point_le. apply _. Defined.

#[local] Instance point_le_total : Total point_le.
Proof. intros a b. unfold point_le. lia. Qed.

#[local] Instance point_le_trans : Transitive point_le.
Proof. intros a b c. unfold point_le. lia. Qed.

(** A point lies between the call and the return of its operation. *)
Definition in_interval (a : Z * KvOperation) : Prop := Call a.2 <= a.1 <= Return_ a.2.

Lemma annotate_interval cur l :
  real_time l -> timed l -> Forall (fun x => cur <= Return_ x) l -> Forall in_interval (annotate cur l).
Proof.
  revert cur. induction l as [|x l IH]; intros cur Hs Ht Hc; cbn; [constructor|].
  apply StronglySorted_cons in Hs as [Hx Hs]. apply Forall_cons in Ht as [Htx Ht]. apply Forall_cons in Hc as [Hcx Hc].
  constructor; [unfold in_interval; simpl; lia|]. apply IH; [done|done|].
  rewrite !Forall_forall in Hx Hc |- *. intros y Hy. specialize (Hx y Hy). specialize (Hc y Hy). simpl in *. lia.
Qed.

Lemma annotate_ge cur l : Forall (fun a => cur <= a.1) (annotate cur l).
Proof.
  revert cur. induction l as [|x l IH]; intros cur; cbn; constructor; [simpl; lia|].
  eapply Forall_impl; [apply IH|]. intros a Ha. simpl in *. lia.
Qed.

Lemma annotate_sorted cur l : Sorted point_le (annotate cur l).
Proof.
  apply StronglySorted_Sorted. revert cur. induction l as [|x l IH]; intros cur; cbn; constructor; [apply IH|].
  eapply Forall_impl; [apply annotate_ge|]. done.
Qed.

(** ** Merging the keys *)

Definition on_key (k : string) (a : Z * KvOperation) : Prop := op_key a.2 = k.

#[local] Instance on_key_dec k a : Decision (on_key k a).
Proof. unfold on_key. apply _. Defined.

Lemma list_merge_Permutation (l1 l2 : list (Z * KvOperation)) : list_merge point_le l1 l2 ≡ₚ l1 ++ l2.
Proof.
  revert l2. induction l1 as [|x1 l1 IH1]; intros l2; [by rewrite list_merge_nil_l|].
  induction l2 as [|x2 l2 IH2]; [by rewrite list_merge_nil_r app_nil_r|].
  rewrite list_merge_cons. case_decide.
  - by rewrite IH1.
  - rewrite IH2. exact (Permutation_middle (x1 :: l1) l2 x2).
Qed.

(** Merging keeps the order of the elements of one list. *)
Lemma list_merge_filter (P : Z * KvOperation -> Prop) `{forall a, Decision (P a)} (l1 l2 : list (Z * KvOperation)) :
  (Forall (fun a => ~ P a) l2 -> filter P (list_merge point_le l1 l2) = filter P l1) /\
  (Forall (fun a => ~ P a) l1 -> filter P (list_merge point_le l1 l2) = filter P l2).
Proof.
  revert l2. induction l1 as [|x1 l1 IH1]; intros l2.
  { rewrite list_merge_nil_l. split; [|done]. intros Hl. by rewrite (filter_none P l2). }
  induction l2 as [|x2 l2 IH2].
  { rewrite list_merge_nil_r. split; [done|]. intros Hl. by apply filter_none. }
  rewrite list_merge_cons. case_decide.
  - destruct (IH1 (x2 :: l2)) as [E1 E2]. split; intros Hl.
    + rewrite !filter_cons E1 //.
    + apply Forall_cons in Hl as [Hx Hl]. rewrite filter_cons_False // E2 //.
  - destruct IH2 as [E1 E2]. split; intros Hl.
    + apply Forall_cons in Hl as [Hx Hl]. rewrite filter_cons_False // E1 //.
    + rewrite !(filter_cons _ x2) E2 //.
Qed.

Definition merge_keys (cur : Z) (ls : string -> list KvOperation) (keys : list string) : list (Z * KvOperation) :=
  foldr (fun k acc => list_merge point_le (annotate cur (ls k)) acc) [] keys.

Lemma merge_keys_sorted cur ls keys : Sorted point_le (merge_keys cur ls keys).
Proof.
  induction keys as [|k keys IH]; [constructor|]. apply Sorted_list_merge; [apply _|apply annotate_sorted|exact IH].
Qed.

Lemma merge_keys_filter cur ls keys :
  NoDup keys -> (forall k, k ∈ keys -> Forall (fun x => op_key x = k) (ls k)) ->
  forall k, filter (on_key k) (merge_keys cur ls keys) = if bool_decide (k ∈ keys) then annotate cur (ls k) else [].
Proof.
  intros Hnd Hls k. induction Hnd as [|k0 keys Hk0 Hnd IH]; [done|].
  assert (forall k1, k1 ∈ k0 :: keys -> Forall (fun a => on_key k1 a) (annotate cur (ls k1))) as Hon.
  { intros k1 Hk1. specialize (Hls k1 Hk1). rewrite -(annotate_snd cur (ls k1)) in Hls. by apply Forall_fmap in Hls. }
  assert (forall a, a ∈ merge_keys cur ls keys -> op_key a.2 ∈ keys) as Hin.
  { clear IH. clear Hk0 Hnd k. induction keys as [|k keys IH]; intros a Ha; [by apply elem_of_nil in Ha|].
    cbn in Ha. rewrite list_merge_Permutation in Ha. apply elem_of_app in Ha as [Ha|Ha].
    - specialize (Hon k ltac:(set_solver)). rewrite Forall_forall in Hon. rewrite (Hon a Ha). left.
    - right. apply IH; [| |done]; intros k1 Hk1; [apply Hls|apply Hon]; set_solver. }
  cbn. destruct (decide (k = k0)) as [->|Hne].
  - rewrite bool_decide_true; [left|]. rewrite (proj1 (list_merge_filter (on_key k0) _ _)).
    + apply Forall_forall. intros a Ha Hk. apply Hk0. rewrite -Hk. by apply Hin.
    + apply filter_all. apply Hon. left.
  - rewrite (proj2 (list_merge_filter (on_key k) _ _)).
    + eapply Forall_impl; [apply (Hon k0); left|]. intros a Ha Hk. unfold on_key in *. congruence.
    + rewrite IH; [intros; apply Hls; by right|]. do 2 case_bool_decide; set_solver.
Qed.

Lemma merge_keys_elem cur ls keys a : a ∈ merge_keys cur ls keys <-> exists k, k ∈ keys /\ a ∈ annotate cur (ls k).
Proof.
  induction keys as [|k keys IH]; [set_solver|]. cbn. rewrite list_merge_Permutation elem_of_app IH. set_solver.
Qed.

(** ** The store is the product of its registers *)

Notation of_key k := (fun v : KvOperation => op_key v = k).
Notation value_of m k := (default EmptyString ((m : gmap string string) !! k)).

Lemma store_step_registers m inp out :
  (store_step m inp out).1 = (KvStep (value_of m (in_Key inp)) inp out).1 /\
  forall k, value_of (store_step m inp out).2 k =
    if bool_decide (k = in_Key inp) then (KvStep (value_of m (in_Key inp)) inp out).2 else value_of m k.
Proof.
  unfold store_step, KvStep. repeat case_bool_decide; simpl; split; try done; intros k; case_bool_decide as Hk; subst;
    rewrite ?lookup_insert_eq ?lookup_insert_ne; done || congruence.
Qed.

Lemma run_store m (l : list KvOperation) :
  run store_step m l <-> forall k, run KvStep (value_of m k) (filter (of_key k) l).
Proof.
  revert m. induction l as [|x l IH]; intros m; [split; [intros _ k|intros _]; constructor|].
  destruct (store_step_registers m (Input x) (Output x)) as [Hb Hv]. split.
  - inversion 1 as [|? ? m' ? Hs Hr]; subst. rewrite Hs in Hb Hv. simpl in Hb, Hv. intros k. specialize (Hv k).
    rewrite IH in Hr. specialize (Hr k). rewrite Hv in Hr. rewrite filter_cons. case_bool_decide as Hk.
    + rewrite decide_True; [by symmetry|]. subst k. econstructor; [|exact Hr]. rewrite Hb. apply surjective_pairing.
    + rewrite decide_False; [|done]. intros E. by apply Hk.
  - intros H. pose proof (H (op_key x)) as Hx. rewrite filter_cons_True // in Hx.
    inversion Hx as [|? ? st' ? Hs Hr]; subst. unfold op_key in Hs. rewrite Hs /= in Hb Hv.
    apply (run_cons _ _ _ (store_step m (Input x) (Output x)).2); [rewrite -Hb; apply surjective_pairing|].
    apply IH. intros k. rewrite Hv. case_bool_decide as Hk; [by subst k|].
    specialize (H k). by rewrite filter_cons_False in H; [apply not_eq_sym|].
Qed.

(** ** Histories by key *)

Lemma perm_by_key (l hist : list KvOperation) :
  (forall k, filter (of_key k) l ≡ₚ filter (of_key k) hist) -> l ≡ₚ hist.
Proof.
  revert l. induction hist as [|x hist IH]; intros l H.
  { destruct l as [|y l]; [done|]. specialize (H (op_key y)). rewrite filter_cons_True // in H.
    symmetry in H. by apply Permutation_nil_cons in H. }
  assert (x ∈ l) as Hx.
  { specialize (H (op_key x)). rewrite (filter_cons_True _ x) // in H.
    assert (x ∈ filter (of_key (op_key x)) l) as Hin by (rewrite H; left). by apply list_elem_of_filter in Hin as [_ ?]. }
  apply elem_of_Permutation in Hx as [l' Hl']. rewrite Hl'. constructor. apply IH. intros k. specialize (H k).
  rewrite Hl' !filter_cons in H. case_decide; [|done]. exact (Permutation_cons_inv H).
Qed.

Lemma finite_choice {A B} (P : A -> B -> Prop) (b0 : B) `{EqDecision A} (keys : list A) :
  (forall k, k ∈ keys -> exists b, P k b) -> exists f, forall k, k ∈ keys -> P k (f k).
Proof.
  induction keys as [|k keys IH]; intros H; [by exists (fun _ => b0); intros k Hk%elem_of_nil|].
  destruct IH as [f Hf]; [intros; apply H; by right|]. destruct (H k) as [b Hb]; [left|].
  exists (fun k' => if bool_decide (k' = k) then b else f k'). intros k' Hk'. case_bool_decide; [by subst|].
  apply Hf. by apply elem_of_cons in Hk' as [?|?].
Qed.

Lemma real_time_filter (P : KvOperation -> Prop) `{forall a, Decision (P a)} l : real_time l -> real_time (filter P l).
Proof.
  induction 1 as [|x l Hs IH Hx]; [constructor|]. rewrite filter_cons. case_decide; [|done]. constructor; [done|].
  apply Forall_forall. intros y [_ Hy]%list_elem_of_filter. rewrite Forall_forall in Hx. auto.
Qed.

(** Operations ordered by points in their intervals respect real time. *)
Lemma points_real_time (l : list (Z * KvOperation)) : Sorted point_le l -> Forall in_interval l -> real_time l.*2.
Proof.
  intros Hs%Sorted_StronglySorted Hl; [|apply _]. induction Hs as [|a l Hs IH Ha]; [constructor|].
  apply Forall_cons in Hl as [Hia Hl]. constructor; [by apply IH|]. apply Forall_fmap.
  rewrite !Forall_forall in Ha Hl |- *. intros b Hb. specialize (Ha b Hb). specialize (Hl b Hb).
  unfold in_interval, point_le in *. simpl. lia.
Qed.

Lemma earliest_return (hist : list KvOperation) : exists cur, Forall (fun x => cur <= Return_ x) hist.
Proof.
  induction hist as [|x hist [cur IH]]; [exists 0; constructor|]. exists (Z.min cur (Return_ x)).
  constructor; [lia|]. eapply Forall_impl; [exact IH|]. intros y Hy. simpl in *. lia.
Qed.

(** ** Locality *)

Lemma store_to_keys hist k :
  list_linearizable store_step hist ∅ -> list_linearizable KvStep (filter (of_key k) hist) EmptyString.
Proof.
  intros (l & Hp & Hr & Ht). exists (filter (of_key k) l). split_and!.
  - by rewrite Hp.
  - apply (proj1 (run_store ∅ l) Hr k).
  - by apply real_time_filter.
Qed.

Lemma filter_snd k (l : list (Z * KvOperation)) : filter (of_key k) l.*2 = (filter (on_key k) l).*2.
Proof.
  induction l as [|a l IH]; [done|]. rewrite fmap_cons !filter_cons IH. unfold on_key. by destruct (decide (op_key a.2 = k)).
Qed.

Section merge.
Context (hist : list KvOperation) (keys : list string) (ls : string -> list KvOperation).
Hypothesis Htimed : timed hist.
Hypothesis Hkeys : forall k, k ∈ keys <-> k ∈ op_key <$> hist.
Hypothesis Hnd : NoDup keys.
Hypothesis Hls : forall k, k ∈ keys ->
  ls k ≡ₚ filter (of_key k) hist /\ run KvStep EmptyString (ls k) /\ real_time (ls k).

Lemma ls_key k : k ∈ keys -> Forall (of_key k) (ls k).
Proof. intros Hk. apply Forall_forall. intros x. rewrite (proj1 (Hls k Hk)). by intros [? _]%list_elem_of_filter. Qed.

Lemma ls_sub k x : k ∈ keys -> x ∈ ls k -> x ∈ hist.
Proof. intros Hk. rewrite (proj1 (Hls k Hk)). by intros [_ ?]%list_elem_of_filter. Qed.

Lemma no_key k : k ∉ keys -> filter (of_key k) hist = [].
Proof.
  intros Hk. apply filter_none, Forall_forall. intros x Hx E. apply Hk, Hkeys, list_elem_of_fmap. by exists x.
Qed.

Lemma merged_on_key cur k : filter (of_key k) (merge_keys cur ls keys).*2 = if bool_decide (k ∈ keys) then ls k else [].
Proof.
  rewrite filter_snd.
  rewrite (merge_keys_filter cur ls keys Hnd ls_key k). case_bool_decide; [apply annotate_snd|done].
Qed.

Lemma merged_linearizable : list_linearizable store_step hist ∅.
Proof.
  destruct (earliest_return hist) as [cur Hcur]. exists (merge_keys cur ls keys).*2. split_and!.
  - apply perm_by_key. intros k. rewrite merged_on_key. case_bool_decide as Hk; [exact (proj1 (Hls k Hk))|].
    by rewrite no_key.
  - apply run_store. intros k. rewrite merged_on_key lookup_empty. case_bool_decide as Hk; [|constructor].
    exact (proj1 (proj2 (Hls k Hk))).
  - apply points_real_time; [apply merge_keys_sorted|]. apply Forall_forall. intros a (k & Hk & Ha)%merge_keys_elem.
    assert (Forall in_interval (annotate cur (ls k))) as Hi.
    { apply annotate_interval; [exact (proj2 (proj2 (Hls k Hk)))| |]; apply Forall_forall; intros x Hx%(ls_sub k x Hk).
      - exact (proj1 (Forall_forall _ _) Htimed x Hx).
      - exact (proj1 (Forall_forall _ _) Hcur x Hx). }
    exact (proj1 (Forall_forall _ _) Hi a Ha).
Qed.
End merge.

Lemma kv_locality hist :
  timed hist ->
  Forall (fun part => op_linearizable KvStep part EmptyString) (KvPartition hist) <->
  op_linearizable store_step hist ∅.
Proof.
  intros Ht. destruct (KvPartition_spec hist) as (keys & -> & Hnd & Hkeys).
  rewrite (op_list_linearizable store_step hist ∅ Ht) Forall_fmap Forall_forall.
  assert (forall k, timed (filter (of_key k) hist)) as Htk.
  { intros k. apply Forall_forall. intros x [_ Hx]%list_elem_of_filter. exact (proj1 (Forall_forall _ _) Ht x Hx). }
  split.
  - intros H. destruct (finite_choice (fun k l => l ≡ₚ filter (of_key k) hist /\ run KvStep EmptyString l /\ real_time l) [] keys)
      as [ls Hls].
    { intros k Hk. specialize (H k Hk). simpl in H. by rewrite op_list_linearizable in H. }
    exact (merged_linearizable hist keys ls Ht Hkeys Hnd Hls).
  - intros H k Hk. simpl. rewrite op_list_linearizable; [apply Htk|]. by apply store_to_keys.
Qed.
