(* ===== verification/PorcupineVerdicts.v ===== *)
(** * PorcupineVerdicts: what the linearizability checker answers

    The search of one partition decides linearizability; with the key/value
    model of the tests the checker decides linearizability with respect to the
    whole store, a timeout never makes it give a wrong definite answer, and a
    history without partitions makes it wait forever. *)

From S2P Require Import Prelude Bitset Porcupine PorcupineSpec PorcupineTheorems PorcupineParallel PorcupineOps PorcupineChecks KvModel KvLocality.
Local Open Scope Z_scope.

(** ** Sorting entries by time *)

Section merge_time.
Context {Inp Out : Type}.

Definition no_later (a b : entry Inp Out) : Prop := Less b a = false.

#[export] Instance no_later_dec : RelDecision no_later.
Proof. intros a b. unfold no_later. apply _. Defined.

Lemma no_later_iff a b :
  no_later a b <-> e_time a < e_time b \/ (e_time a = e_time b /\ (e_kind b = callEntry -> e_kind a = callEntry)).
Proof.
  unfold no_later, Less. destruct (e_kind a), (e_kind b); repeat case_bool_decide; simpl; split; intros; try lia; try done;
    try (right; split; [lia|done]).
  all: match goal with H : _ \/ _ |- _ => destruct H as [?|[? H]]; [lia|]; by specialize (H eq_refl) end.
Qed.

#[export] Instance no_later_total : Total no_later.
Proof.
  intros a b. rewrite !no_later_iff. destruct (Z.lt_trichotomy (e_time a) (e_time b)) as [?|[?|?]]; auto.
  destruct (e_kind a), (e_kind b); auto.
Qed.

#[export] Instance no_later_trans : Transitive no_later.
Proof. intros a b c. rewrite !no_later_iff. intros [?|[? H1]] [?|[? H2]]; [left; lia..|right; split; [lia|auto]]. Qed.

(** A merge sort is a [TimeSort]. *)
#[export] Program Instance merge_time : TimeSort Inp Out := {| sortByTime l := merge_sort no_later l |}.
Next Obligation. apply merge_sort_Permutation. Qed.
Next Obligation. apply StronglySorted_merge_sort; apply _. Qed.
End merge_time.

(** ** One partition *)

(** C34. [checkSingle] terminates on every well-formed history and answers true
    exactly if the history has a linearization: an order of its operations that
    the sequential model accepts and that keeps the real-time order.  This holds
    for every model whose [Equal] relates states that behave alike. *)
Theorem checkSingle_decides {Inp Out St : Type} (model : Model Inp Out St) equal computePartial es n :
  wf_history es n ->
  (forall s1 s2 i o s1', equal s1 s2 = true -> Step model s1 i o = (true, s1') ->
     exists s2', Step model s2 i o = (true, s2') /\ equal s1' s2' = true) ->
  exists ok longest seqs k,
    (forall fuel, (k <= fuel)%nat ->
       checkSingle model equal es computePartial (fun _ => false) fuel = Ret (Some (ok, longest, seqs))) /\
    (ok = true <-> linearizable (Step model) es n (Init model)).
Proof.
  intros Hwf Hsim. destruct (checkSingle_result model equal computePartial es n Hwf Hsim) as (ok & lo & sq & k & Hk & Hiff & _).
  by exists ok, lo, sq, k.
Qed.

Lemma ShallowEqual_simulates (model : Model KvInput KvOutput string) s1 s2 i o s1' :
  ShallowEqual s1 s2 = true -> Step model s1 i o = (true, s1') ->
  exists s2', Step model s2 i o = (true, s2') /\ ShallowEqual s1' s2' = true.
Proof. intros E%bool_decide_eq_true Hs. subst s2. exists s1'. split; [done|]. by apply bool_decide_eq_true. Qed.

(** A put and a get that overlap, the get seeing the put. *)
Definition put_get : list KvOperation :=
  [mkOperation 0 (mkKvInput 1 "x" "1") 0 (mkKvOutput "") 10;
   mkOperation 1 (mkKvInput 0 "x" "") 5 (mkKvOutput "1") 20].

Lemma put_get_timed : timed put_get.
Proof. repeat constructor; simpl; lia. Qed.

Lemma checkSingle_decides_witness :
  exists ok longest seqs k,
    (forall fuel, (k <= fuel)%nat ->
       checkSingle KvModel ShallowEqual (makeEntries sortByTime put_get) true (fun _ => false) fuel = Ret (Some (ok, longest, seqs))) /\
    (ok = true <-> linearizable KvStep (makeEntries sortByTime put_get) 2 EmptyString).
Proof.
  apply (checkSingle_decides KvModel ShallowEqual true (makeEntries sortByTime put_get) 2).
  - exact (makeEntries_wf put_get put_get_timed).
  - apply ShallowEqual_simulates.
Defined.

Example put_get_accepted :
  checkSingle KvModel ShallowEqual (makeEntries sortByTime put_get) false (fun _ => false) 20 = Ret (Some (true, [Some 0%nat; Some 0%nat], [[0; 1]])).
Proof. vm_compute. reflexivity. Qed.

(** ** Key/value histories *)

Lemma KvPartition_timed hist : timed hist -> Forall timed (KvPartition hist).
Proof.
  intros Ht. destruct (KvPartition_spec hist) as (keys & -> & _ & _). apply Forall_fmap, Forall_true. intros k.
  apply Forall_forall. intros x [_ Hx]%list_elem_of_filter. exact (proj1 (Forall_forall _ _) Ht x Hx).
Qed.

Lemma KvPartition_nonempty hist : hist <> [] -> KvPartition hist <> [].
Proof.
  intros Hne. destruct (KvPartition_spec hist) as (keys & -> & _ & Hk). destruct hist as [|x hist]; [done|].
  destruct keys as [|k keys]; [|done]. specialize (Hk (op_key x)). rewrite elem_of_nil in Hk.
  destruct Hk as [_ Hk]. destruct Hk. left.
Qed.

Section kv.
Context `{!MapOrder} `{!TimeSort KvInput KvOutput}.

Lemma KvModel_simulates : equal_simulates KvModel.
Proof. intros s1 s2 i o s1'. apply (ShallowEqual_simulates KvModel). Qed.

(** C33. Checking a non-empty key/value history without a timeout returns, and
    the answer is true exactly if the history is linearizable with respect to
    the whole store, although the checker looks at every key on its own. *)
Theorem kv_check_is_store_linearizability hist arrive :
  hist <> [] -> timed hist -> fair arrive ->
  exists ok k,
    (forall fuel, (k <= fuel)%nat -> CheckOperations KvModel hist (fun _ _ => false) fuel arrive = Ret (Returns ok)) /\
    (ok = true <-> op_linearizable store_step hist ∅).
Proof.
  intros Hne Ht Hfair.
  destruct (checkOperations_result KvModel hist arrive KvModel_simulates Hfair (KvPartition_nonempty hist Hne) (KvPartition_timed hist Ht))
    as (ok & k & Hk & Hiff).
  exists ok, k. split; [exact Hk|]. rewrite Hiff. exact (kv_locality hist Ht).
Qed.

(** With a timeout that fires after some of the results arrived, the check
    returns; it answers [Illegal] only if the history is not linearizable with
    respect to the store and [Ok] only if it is. *)
Lemma kv_timeout_is_never_wrong hist arrive :
  timed hist -> times_out arrive ->
  exists r k,
    (forall fuel, (k <= fuel)%nat -> CheckOperationsTimeout KvModel hist (fun _ _ => false) fuel arrive = Ret (Returns r)) /\
    (r = Illegal -> ~ op_linearizable store_step hist ∅) /\ (r = Ok -> op_linearizable store_step hist ∅).
Proof.
  intros Ht Hto.
  destruct (checkOperationsTimeout_result KvModel hist arrive KvModel_simulates Hto (KvPartition_timed hist Ht))
    as (r & k & Hk & Hbad & Hgood).
  exists r, k. rewrite -(kv_locality hist Ht). done.
Qed.

(** The check of an empty key/value history without a timeout never
    returns: there is no partition whose result could end the loop. *)
Lemma empty_history_blocks kill fuel arrive :
  fair arrive -> CheckOperations KvModel [] kill fuel arrive = Ret Blocks.
Proof.
  intros Hfair. specialize (Hfair []). apply Permutation_nil_r in Hfair.
  unfold CheckOperations, checkOperations, runCheck. cbv zeta.
  change (default NoPartition (Partition (fillDefault KvModel)) []) with ([] : list (list KvOperation)).
  cbn [fmap list_fmap checkAll mbind outcome_bind]. change ((fun r : Result => r.1.1) <$> []) with ([] : list bool).
  by rewrite Hfair.
Qed.
End kv.

(** ** Witnesses *)

Lemma in_order_fair : fair (fmap ResultArrives).
Proof. by intros oks. Qed.

Lemma kv_check_is_store_linearizability_witness :
  exists ok k,
    (forall fuel, (k <= fuel)%nat ->
       CheckOperations KvModel put_get (fun _ _ => false) fuel (fmap ResultArrives) = Ret (Returns ok)) /\
    (ok = true <-> op_linearizable store_step put_get ∅).
Proof.
  apply (kv_check_is_store_linearizability put_get (fmap ResultArrives)); [done|exact put_get_timed|exact in_order_fair].
Defined.

Lemma kv_timeout_is_never_wrong_witness :
  exists r k,
    (forall fuel, (k <= fuel)%nat ->
       CheckOperationsTimeout KvModel put_get (fun _ _ => false) fuel (fun oks => (ResultArrives <$> oks) ++ [TimeoutFires]) = Ret (Returns r)) /\
    (r = Illegal -> ~ op_linearizable store_step put_get ∅) /\ (r = Ok -> op_linearizable store_step put_get ∅).
Proof.
  apply (kv_timeout_is_never_wrong put_get (fun oks => (ResultArrives <$> oks) ++ [TimeoutFires])); [exact put_get_timed|].
  intros oks. by exists oks.
Defined.

Lemma empty_history_blocks_witness : CheckOperations KvModel [] (fun _ _ => false) 7 (fmap ResultArrives) = Ret Blocks.
Proof. apply (empty_history_blocks (fun _ _ => false) 7 (fmap ResultArrives)). exact in_order_fair. Defined.

(** A get that misses a put that returned before it was called. *)
Definition stale_get : list KvOperation :=
  [mkOperation 0 (mkKvInput 1 "x" "1") 0 (mkKvOutput "") 10;
   mkOperation 1 (mkKvInput 0 "x" "") 15 (mkKvOutput "") 20].

Example stale_get_rejected :
  CheckOperations KvModel stale_get (fun _ _ => false) 20 (fmap ResultArrives) = Ret (Returns false).
Proof. vm_compute. reflexivity. Qed.
