(* ===== verification/PorcupineViz.v ===== *)
(** * PorcupineViz: the data of the visualization, src/src/porcupine/visualization.go

    [computeVisualizationData] turns what a check reports into the data of the
    page: the operations of each partition, the partial linearizations with the
    state after each operation, and for every operation the largest of them
    that has it.  [sort.Slice] is any sort by decreasing length; it sorts the
    slices of the argument in place, which nothing reads again.  [Visualize]
    writes the data into the page. *)

From S2P Require Import Prelude Bitset Porcupine PorcupineParallel.
Local Open Scope Z_scope.

Record historyElement := mkHistoryElement {
  he_ClientId : Z;
  he_Start : Z;
  he_End : Z;
  he_Description : string;
}.

Record linearizationStep := mkLinearizationStep { Index : Z; StateDescription : string }.

Record partitionVisualizationData := mkPartitionVisualizationData {
  History : list historyElement;
  PartialLinearizations : list (list linearizationStep);
  Largest : gmap Z Z;
}.

(** [sort.Slice(partials, ...)]: a permutation in which no slice is before a
    longer one. *)
Class LengthSort := {
  sortByLength : list (list Z) -> list (list Z);
  sortByLength_perm l : sortByLength l ≡ₚ l;
  sortByLength_sorted l : StronglySorted (fun a b => ~ len b > len a) (sortByLength l);
}.

Section visualization.
Context {Inp Out St : Type} `{!LengthSort} `{EqDecision St, !GoFormat Inp, !GoFormat Out, !GoFormat St}.

(** The loop over the entries: the history and the maps [callValue] and
    [returnValue]. *)
Fixpoint historyLoop (describe : Inp -> Out -> string) (entries : list (entry Inp Out)) (history : list historyElement)
    (callValue returnValue : gmap Z (Inp + Out)) : outcome (list historyElement * gmap Z (Inp + Out) * gmap Z (Inp + Out)) :=
  match entries with
  | [] => Ret (history, callValue, returnValue)
  | elem :: entries =>
      h ← slice_get history (e_id elem);
      match e_kind elem with
      | callEntry =>
          history ← slice_set history (e_id elem)
            (mkHistoryElement (e_clientId elem) (e_time elem) (he_End h) (he_Description h));
          historyLoop describe entries history (<[e_id elem := e_value elem]> callValue) returnValue
      | returnEntry =>
          input ← asInput (callValue !! e_id elem);
          output ← asOutput (Some (e_value elem));
          history ← slice_set history (e_id elem)
            (mkHistoryElement (he_ClientId h) (he_Start h) (e_time elem) (describe input output));
          historyLoop describe entries history callValue (<[e_id elem := e_value elem]> returnValue)
      end
  end.

Definition not_ok : string := "valid partial linearization returned non-ok result from model step".

(** The loop over one partial linearization of length [size], the [i]th;
    reading a map without the key gives 0. *)
Fixpoint linearizeLoop (model : Model Inp Out St) (callValue returnValue : gmap Z (Inp + Out)) (i size : Z)
    (partial : list Z) (state : St) (largestSize largestIndex : gmap Z Z)
    : outcome (list linearizationStep * gmap Z Z * gmap Z Z) :=
  match partial with
  | [] => Ret ([], largestSize, largestIndex)
  | histId :: partial =>
      input ← asInput (callValue !! histId);
      output ← asOutput (returnValue !! histId);
      let '(ok, state) := Step model state input output in
      if negb ok then Panic not_ok else
      let stateDesc := default DefaultDescribeState (m_DescribeState model) state in
      let larger := bool_decide (default 0 (largestSize !! histId) < size) in
      '(steps, largestSize, largestIndex) ← linearizeLoop model callValue returnValue i size partial state
        (if larger then <[histId := size]> largestSize else largestSize)
        (if larger then <[histId := i]> largestIndex else largestIndex);
      Ret (mkLinearizationStep histId stateDesc :: steps, largestSize, largestIndex)
  end.

(** The loop over the partial linearizations. *)
Fixpoint partialsLoop (model : Model Inp Out St) (callValue returnValue : gmap Z (Inp + Out)) (i : Z)
    (partials : list (list Z)) (largestSize largestIndex : gmap Z Z)
    : outcome (list (list linearizationStep) * gmap Z Z) :=
  match partials with
  | [] => Ret ([], largestIndex)
  | partial :: partials =>
      '(steps, largestSize, largestIndex) ←
        linearizeLoop model callValue returnValue i (len partial) partial (Init model) largestSize largestIndex;
      '(linearizations, largestIndex) ← partialsLoop model callValue returnValue (i + 1) partials largestSize largestIndex;
      Ret (steps :: linearizations, largestIndex)
  end.

(** One partition. *)
Definition partitionData (model : Model Inp Out St) (entries : list (entry Inp Out)) (partials : list (list Z))
    : outcome partitionVisualizationData :=
  let n := Z.quot (len entries) 2 in
  '(history, callValue, returnValue) ←
    historyLoop (default DefaultDescribeOperation (m_DescribeOperation model)) entries
      (replicate (Z.to_nat n) (mkHistoryElement 0 0 0 EmptyString)) ∅ ∅;
  '(linearizations, largestIndex) ← partialsLoop model callValue returnValue 0 (sortByLength partials) ∅ ∅;
  Ret (mkPartitionVisualizationData history linearizations largestIndex).

Definition computeVisualizationData (model : Model Inp Out St) (info : linearizationInfo (Inp:=Inp) (Out:=Out))
    : outcome (list partitionVisualizationData) :=
  let model := fillDefault model in
  mapM (fun partition =>
      entries ← slice_get (history info) partition;
      partials ← slice_get (partialLinearizations info) partition;
      partitionData model entries partials)
    (seqZ 0 (len (history info))).

(** ** The page

    [marshal] is [json.Marshal], [before] and [after_] the text of the constant
    [html] around its only verb, [%s]; [write] is whether the writer takes the
    text.  The answer is what was written, or [None] for an error. *)

Definition Visualize (marshal : list partitionVisualizationData -> option string) (before after_ : string) (write : string -> bool)
    (model : Model Inp Out St) (info : linearizationInfo (Inp:=Inp) (Out:=Out)) : outcome (option string) :=
  data ← computeVisualizationData model info;
  Ret (match marshal data with
       | None => None
       | Some jsonData =>
           let page := (before +:+ jsonData +:+ after_)%string in
           if write page then Some page else None
       end).

(** [created] is whether [os.Create] succeeds. *)
Definition VisualizePath (marshal : list partitionVisualizationData -> option string) (before after_ : string) (write : string -> bool)
    (created : bool) (model : Model Inp Out St) (info : linearizationInfo (Inp:=Inp) (Out:=Out)) : outcome (option string) :=
  if created then Visualize marshal before after_ write model info else Ret None.

End visualization.
