(* ===== verification/PorcupineVizFacts.v ===== *)
(** * PorcupineVizFacts: the visualization shows what the check found

    On the report of any verbose check of a history, also one that timed out,
    [computeVisualizationData] does not panic; the data has the operations of
    every partition, its partial linearizations with the states they pass
    through, and for every operation the largest of them that has it. *)

From S2P Require Import Prelude Bitset Porcupine PorcupineSpec PorcupineParallel PorcupineOps PorcupineChecks PorcupinePartial KvModel PorcupineVerdicts PorcupineViz.
Local Open Scope Z_scope.

(** ** The history of a partition *)

Section history.
Context {Inp Out : Type} `{!TimeSort Inp Out} (describe : Inp -> Out -> string).
Context (ops : list (Operation Inp Out)) (Htimed : timed ops).
Notation es := (makeEntries sortByTime ops).

(** What the entries [pre] have filled in for operation [i]. *)
Definition filled (pre : list (entry Inp Out)) (i : Z) (op : Operation Inp Out) (h : historyElement) (cv rv : option (Inp + Out)) : Prop :=
  (callOf i op ∈ pre -> he_ClientId h = op_ClientId op /\ he_Start h = Call op /\ cv = Some (inl (Input op))) /\
  (returnOf i op ∈ pre -> he_End h = Return_ op /\ he_Description h = describe (Input op) (Output op) /\ rv = Some (inr (Output op))).

Definition history_inv (pre : list (entry Inp Out)) (history : list historyElement) (cv rv : gmap Z (Inp + Out)) : Prop :=
  length history = length ops /\
  forall i op, 0 <= i -> ops !! Z.to_nat i = Some op ->
    exists h, history !! Z.to_nat i = Some h /\ filled pre i op h (cv !! i) (rv !! i).

(** An entry of operation [i] changes only what is kept of [i]. *)
Lemma history_inv_set pre e history (cv rv cv' rv' : gmap Z (Inp + Out)) i h' :
  history_inv pre history cv rv -> 0 <= i -> e_id e = i ->
  (forall j, j <> i -> cv' !! j = cv !! j /\ rv' !! j = rv !! j) ->
  (forall op, ops !! Z.to_nat i = Some op -> filled (pre ++ [e]) i op h' (cv' !! i) (rv' !! i)) ->
  history_inv (pre ++ [e]) (<[Z.to_nat i := h']> history) cv' rv'.
Proof.
  intros [Hlen Hinv] Hi He Hother Hnew. split; [by rewrite length_insert|]. intros j op Hj Hop.
  destruct (decide (j = i)) as [->|Hne].
  - exists h'. split; [|by apply Hnew]. apply list_lookup_insert_eq. rewrite Hlen. exact (lookup_lt_Some _ _ _ Hop).
  - destruct (Hinv j op Hj Hop) as (h & Hh & H1 & H2). exists h. destruct (Hother j Hne) as [-> ->].
    split; [rewrite list_lookup_insert_ne; [lia|done]|].
    split; (intros [?|Hin]%elem_of_app; [auto|apply list_elem_of_singleton in Hin; by subst e]).
Qed.

Lemma historyLoop_inv rest : forall pre history (cv rv : gmap Z (Inp + Out)),
  es = pre ++ rest -> history_inv pre history cv rv ->
  exists history' cv' rv', historyLoop describe rest history cv rv = Ret (history', cv', rv') /\ history_inv es history' cv' rv'.
Proof.
  induction rest as [|e rest IH]; intros pre history cv rv Ees Hinv.
  { exists history, cv, rv. rewrite Ees app_nil_r. done. }
  assert (es !! length pre = Some e) as Hpos by (rewrite Ees lookup_app_r // Nat.sub_diag; done).
  assert (e ∈ es) as (i & op & Hi & Hop & He)%es_elem by exact (list_elem_of_lookup_2 _ _ _ Hpos).
  pose proof (lookup_lt_Some _ _ _ Hop) as Hlt. pose proof Hinv as [Hlen Hall]. destruct (Hall i op Hi Hop) as (h & Hh & Hf).
  assert (e_id e = i) as Hid by by destruct He as [->| ->]. cbn [historyLoop]. rewrite Hid (slice_get_some _ _ _ Hi Hh). cbn [mbind outcome_bind].
  destruct He as [->| ->]; simpl.
  - rewrite (slice_set_nat history); [lia|]. cbn [mbind outcome_bind]. apply (IH (pre ++ [callOf i op])); [by rewrite -assoc|].
    apply (history_inv_set _ _ _ cv rv); [done|done|done| |].
    + intros j Hj. rewrite lookup_insert_ne; [congruence|done].
    + intros op' Hop'. rewrite Hop in Hop'. injection Hop' as <-. rewrite lookup_insert_eq. split; [done|].
      intros [Hr|Hr]%elem_of_app; [exact (proj2 Hf Hr)|by apply list_elem_of_singleton in Hr].
  - assert (callOf i op ∈ pre) as Hc.
    { destruct (es_has_call ops i op Hi Hop) as [kc Hkc].
      pose proof (proj2 (call_before_return ops _ _ _ _ _ _ Hkc Hpos) (Forall_lookup_1 _ _ _ _ Htimed Hop)) as Hb.
      rewrite Ees lookup_app_l in Hkc; [lia|]. exact (list_elem_of_lookup_2 _ _ _ Hkc). }
    destruct (proj1 Hf Hc) as (Hcl & Hst & Hcv). rewrite Hcv. cbn [mbind outcome_bind asInput].
    rewrite (slice_set_nat history); [lia|]. cbn [mbind outcome_bind]. apply (IH (pre ++ [returnOf i op])); [by rewrite -assoc|].
    apply (history_inv_set _ _ _ cv rv); [done|done|done| |].
    + intros j Hj. rewrite lookup_insert_ne; [congruence|done].
    + intros op' Hop'. rewrite Hop in Hop'. injection Hop' as <-. rewrite lookup_insert_eq. split; [|done]. by intros _.
Qed.

Definition shown (op : Operation Inp Out) : historyElement :=
  mkHistoryElement (op_ClientId op) (Call op) (Return_ op) (describe (Input op) (Output op)).

Lemma historyLoop_ret h0 :
  exists cv rv, historyLoop describe es (replicate (length ops) h0) ∅ ∅ = Ret (shown <$> ops, cv, rv) /\
    forall i inp out, op_io es i inp out -> cv !! i = Some (inl inp) /\ rv !! i = Some (inr out).
Proof.
  destruct (historyLoop_inv es [] (replicate (length ops) h0) ∅ ∅) as (history & cv & rv & Hrun & Hlen & Hinv); [done| |].
  { split; [apply length_replicate|]. intros i op Hi Hop. exists h0. split; [|split; by intros ?%elem_of_nil].
    apply lookup_replicate_2. exact (lookup_lt_Some _ _ _ Hop). }
  assert (forall i op, 0 <= i -> ops !! Z.to_nat i = Some op ->
    history !! Z.to_nat i = Some (shown op) /\ cv !! i = Some (inl (Input op)) /\ rv !! i = Some (inr (Output op))) as Hall.
  { intros i op Hi Hop. destruct (Hinv i op Hi Hop) as ([c s e d] & Hh & H1 & H2).
    destruct H1 as (? & ? & ?); [apply es_elem; exists i, op; auto|].
    destruct H2 as (? & ? & ?); [apply es_elem; exists i, op; auto|]. simpl in *. subst. split_and!; done. }
  exists cv, rv. split.
  - rewrite Hrun. do 3 f_equal. apply list_eq_same_length with (n := length ops); [by rewrite length_fmap|done|].
    intros i x y Hi Hx Hy. apply list_lookup_fmap_Some in Hy as (op & -> & Hop).
    destruct (Hall (Z.of_nat i) op) as [Hh _]; [lia|by rewrite Nat2Z.id|]. rewrite Nat2Z.id in Hh. congruence.
  - intros i inp out (op & Hi & Hop & <- & <-)%op_io_iff. by apply Hall.
Qed.

End history.

(** ** Partial linearizations *)

(** The operations of a linearization. *)
Definition indices (l : list linearizationStep) : list Z := Index <$> l.

(** A linearization from state [st], when [io] says what an operation takes and
    returns: the model accepts every step, and each step describes the state
    after it. *)
Inductive passes {Inp Out St : Type} `{!GoFormat St} (model : Model Inp Out St) (io : Z -> Inp -> Out -> Prop)
    : St -> list linearizationStep -> Prop :=
| passes_nil st : passes model io st []
| passes_cons st h inp out st' l : io h inp out -> Step model st inp out = (true, st') -> passes model io st' l ->
    passes model io st (mkLinearizationStep h (default DefaultDescribeState (m_DescribeState model) st') :: l).

Lemma passes_impl {Inp Out St : Type} `{!GoFormat St} (model : Model Inp Out St) (io io' : Z -> Inp -> Out -> Prop) st l :
  (forall h inp out, io h inp out -> io' h inp out) -> passes model io st l -> passes model io' st l.
Proof. intros Himp. induction 1; econstructor; eauto. Qed.

Section partials.
Context {Inp Out St : Type} `{EqDecision St, !GoFormat Inp, !GoFormat Out, !GoFormat St}.
Context (model : Model Inp Out St) (es : list (entry Inp Out)) (cv rv : gmap Z (Inp + Out)).
Hypothesis Hio : forall i inp out, op_io es i inp out -> cv !! i = Some (inl inp) /\ rv !! i = Some (inr out).

(** The maps after a linearization of length [size], the [i]th. *)
Lemma linearizeLoop_ret i size l : forall st (ls li : gmap Z Z), legal (Step model) es st l ->
  exists steps ls' li', linearizeLoop model cv rv i size l st ls li = Ret (steps, ls', li') /\ indices steps = l /\ passes model (op_io es) st steps /\
    forall a, let larger := bool_decide (a ∈ l) && bool_decide (default 0 (ls !! a) < size) in
      ls' !! a = (if larger then Some size else ls !! a) /\ li' !! a = (if larger then Some i else li !! a).
Proof.
  induction l as [|h l IH]; intros st ls li Hleg; [exists [], ls, li; split_and!; try done; constructor|].
  inversion Hleg as [|? ? inp out st' ? Hop Hs Hl]; subst. destruct (Hio _ _ _ Hop) as [Hc Hr]. cbn [linearizeLoop].
  rewrite Hc Hr. cbn [mbind outcome_bind asInput asOutput]. rewrite Hs. cbn [negb].
  set (larger := bool_decide (default 0 (ls !! h) < size)).
  destruct (IH st' (if larger then <[h := size]> ls else ls) (if larger then <[h := i]> li else li) Hl) as (steps & ls' & li' & -> & Hidx & Hpass & Hmaps).
  cbn [mbind outcome_bind]. eexists _, ls', li'. split; [done|]. split; [unfold indices in *; by rewrite fmap_cons Hidx|].
  split; [by apply (passes_cons _ _ _ _ inp out)|]. intros a. cbv zeta.
  destruct (Hmaps a) as [-> ->]. rewrite (bool_decide_ext (a ∈ h :: l) (a = h \/ a ∈ l)); [apply elem_of_cons|].
  rewrite bool_decide_or. destruct (decide (a = h)) as [->|Hne].
  - rewrite (bool_decide_true (h = h)); [done|]. cbn [orb andb]. fold larger. destruct larger eqn:El.
    + rewrite !lookup_insert_eq. cbn [default]. rewrite (bool_decide_false (size < size)); [lia|]. by rewrite andb_false_r.
    + unfold larger in El. rewrite El. by rewrite andb_false_r.
  - rewrite (bool_decide_false (a = h)); [done|]. cbn [orb]. destruct larger; [|done]. assert (h <> a) by congruence. by rewrite !lookup_insert_ne.
Qed.

(** The largest of the linearizations [done_] for every operation. *)
Definition largest_of (done_ : list (list Z)) (ls li : gmap Z Z) : Prop :=
  forall a, match li !! a with
    | Some ix => 0 <= ix /\ exists l, done_ !! Z.to_nat ix = Some l /\ a ∈ l /\ ls !! a = Some (len l) /\
        forall l', l' ∈ done_ -> a ∈ l' -> len l' <= len l
    | None => ls !! a = None /\ forall l, l ∈ done_ -> a ∉ l
    end.

Lemma largest_of_snoc done_ l (ls li ls' li' : gmap Z Z) : largest_of done_ ls li ->
  (forall a, let larger := bool_decide (a ∈ l) && bool_decide (default 0 (ls !! a) < len l) in
     ls' !! a = (if larger then Some (len l) else ls !! a) /\ li' !! a = (if larger then Some (len done_) else li !! a)) ->
  largest_of (done_ ++ [l]) ls' li'.
Proof.
  intros Hold Hmaps a. destruct (Hmaps a) as [Hls Hli]. rewrite Hli Hls. specialize (Hold a).
  assert (forall l', l' ∈ done_ ++ [l] -> l' ∈ done_ \/ l' = l) as Hin.
  { intros l' [?|?%list_elem_of_singleton]%elem_of_app; auto. }
  destruct (bool_decide (a ∈ l)) eqn:Ea; cbn [andb]; [apply bool_decide_eq_true in Ea|apply bool_decide_eq_false in Ea].
  - assert (0 < len l) as Hpos by (destruct l; [by apply elem_of_nil in Ea|unfold len; simpl; lia]).
    destruct (bool_decide (default 0 (ls !! a) < len l)) eqn:Es; [apply bool_decide_eq_true in Es|apply bool_decide_eq_false in Es].
    + split; [unfold len; lia|]. exists l. split_and!; [|done|done|].
      * unfold len. by rewrite Nat2Z.id lookup_app_r // Nat.sub_diag.
      * intros l' [Hl'| ->]%Hin Ha; [|lia]. destruct (li !! a) as [ix|].
        { destruct Hold as (_ & l0 & _ & _ & Hs & Hmax). rewrite Hs in Es. simpl in Es. specialize (Hmax l' Hl' Ha). lia. }
        { by destruct (proj2 Hold l' Hl'). }
    + destruct (li !! a) as [ix|]; [|rewrite (proj1 Hold) in Es; simpl in Es; lia].
      destruct Hold as (Hix & l0 & Hl0 & Ha0 & Hs & Hmax). split; [done|]. exists l0. split_and!; [by apply lookup_app_l_Some|done|done|].
      rewrite Hs in Es. simpl in Es. intros l' [Hl'| ->]%Hin Ha; [by apply Hmax|lia].
  - destruct (li !! a) as [ix|].
    + destruct Hold as (Hix & l0 & Hl0 & Ha0 & Hs & Hmax). split; [done|]. exists l0. split_and!; [by apply lookup_app_l_Some|done|done|].
      intros l' [Hl'| ->]%Hin Ha; [by apply Hmax|done].
    + split; [exact (proj1 Hold)|]. intros l' [Hl'| ->]%Hin; [exact (proj2 Hold l' Hl')|done].
Qed.

Lemma partialsLoop_ret partials : forall done_ (ls li : gmap Z Z),
  Forall (legal (Step model) es (Init model)) partials -> largest_of done_ ls li ->
  exists lins ls' li', partialsLoop model cv rv (len done_) partials ls li = Ret (lins, li') /\
    indices <$> lins = partials /\ Forall (passes model (op_io es) (Init model)) lins /\ largest_of (done_ ++ partials) ls' li'.
Proof.
  induction partials as [|l partials IH]; intros done_ ls li Hleg Hold.
  { exists [], ls, li. rewrite app_nil_r. split_and!; [done|done|constructor|done]. }
  apply Forall_cons in Hleg as [Hl Hleg]. cbn [partialsLoop].
  destruct (linearizeLoop_ret (len done_) (len l) l (Init model) ls li Hl) as (steps & ls1 & li1 & -> & Hidx & Hpass & Hmaps).
  cbn [mbind outcome_bind]. pose proof (largest_of_snoc _ _ _ _ _ _ Hold Hmaps) as Hnew.
  destruct (IH (done_ ++ [l]) ls1 li1 Hleg Hnew) as (lins & ls2 & li2 & Hrun & Hfm & Hps & Hfin).
  replace (len (done_ ++ [l])) with (len done_ + 1) in Hrun by (unfold len; rewrite length_app; simpl; lia).
  rewrite Hrun. cbn [mbind outcome_bind]. exists (steps :: lins), ls2, li2. split; [done|]. split; [by rewrite fmap_cons Hidx Hfm|].
  split; [by constructor|]. by rewrite -assoc in Hfin.
Qed.

End partials.

(** ** Reports *)

Section reports.
Context {Inp Out St : Type} `{!MapOrder} `{!TimeSort Inp Out} `{!LengthSort} `{EqDecision St, !GoFormat Inp, !GoFormat Out, !GoFormat St}.
Implicit Types model : Model Inp Out St.

(** Operation [h] takes [inp] and returns [out]. *)
Definition does (ops : list (Operation Inp Out)) (h : Z) (inp : Inp) (out : Out) : Prop :=
  exists op, 0 <= h /\ ops !! Z.to_nat h = Some op /\ inp = Input op /\ out = Output op.

(** The data of a partition with operations [ops] for which the check reports
    the partial linearizations [partials]. *)
Record shows model (ops : list (Operation Inp Out)) (partials : list (list Z)) (d : partitionVisualizationData) : Prop := {
  sh_history : History d = shown (default DefaultDescribeOperation (m_DescribeOperation model)) <$> ops;
  sh_partials : indices <$> PartialLinearizations d ≡ₚ partials;
  sh_states : Forall (passes model (does ops) (Init model)) (PartialLinearizations d);
  sh_largest : forall a ix, Largest d !! a = Some ix -> 0 <= ix /\
    exists l, PartialLinearizations d !! Z.to_nat ix = Some l /\ a ∈ indices l /\
      forall l', l' ∈ partials -> a ∈ l' -> len l' <= len l;
  sh_none : forall a, Largest d !! a = None -> forall l, l ∈ partials -> a ∉ l;
}.

Lemma partitionData_ret model ops partials : timed ops ->
  Forall (legal (Step model) (makeEntries sortByTime ops) (Init model)) partials ->
  exists d, partitionData model (makeEntries sortByTime ops) partials = Ret d /\ shows model ops partials d.
Proof.
  intros Htimed Hleg. pose proof (wf_len _ _ (makeEntries_wf ops Htimed)) as Hlen. unfold partitionData.
  assert (Z.to_nat (Z.quot (len (makeEntries sortByTime ops)) 2) = length ops) as ->.
  { rewrite Hlen Z.mul_comm Z.quot_mul; [lia|]. unfold len. lia. }
  destruct (historyLoop_ret (default DefaultDescribeOperation (m_DescribeOperation model)) ops Htimed
    (mkHistoryElement 0 0 0 EmptyString)) as (cv & rv & -> & Hio). cbn [mbind outcome_bind].
  destruct (partialsLoop_ret model (makeEntries sortByTime ops) cv rv Hio (sortByLength partials) [] ∅ ∅)
    as (lins & ls & li & Hrun & Hidx & Hpass & Hlarge).
  { by rewrite sortByLength_perm. }
  { intros a. rewrite !lookup_empty. split; [done|]. by intros l ?%elem_of_nil. }
  change (len ([] : list (list Z))) with 0 in Hrun. rewrite Hrun. cbn [mbind outcome_bind]. eexists. split; [done|].
  simpl in Hlarge. constructor; simpl.
  - done.
  - rewrite Hidx. apply sortByLength_perm.
  - eapply Forall_impl; [exact Hpass|]. intros l. apply passes_impl. intros h inp out (op & Hh & Hop & <- & <-)%op_io_iff.
    by exists op.
  - intros a ix Hix. specialize (Hlarge a). rewrite Hix in Hlarge. destruct Hlarge as (Hge & l & Hl & Ha & _ & Hmax).
    split; [done|]. rewrite -Hidx in Hl. apply list_lookup_fmap_Some in Hl as (steps & -> & Hsteps). exists steps.
    split_and!; [done|done|]. intros l' Hl' Ha'. rewrite -(sortByLength_perm partials) in Hl'. specialize (Hmax l' Hl' Ha').
    unfold len, indices in Hmax. unfold len. by rewrite length_fmap in Hmax.
  - intros a Hix l Hl. specialize (Hlarge a). rewrite Hix in Hlarge. apply (proj2 Hlarge). by rewrite sortByLength_perm.
Qed.

(** What a goroutine reports for a partition are partial linearizations. *)
Lemma partialsOf_partial model es n (r : Result) : sound_result model es n r ->
  forall l, l ∈ partialsOf r -> partial_linearization (Step model) es n (Init model) l.
Proof.
  destruct r as [[ok lo] sq]. intros [[Hall _] _] l Hl. unfold partialsOf in Hl.
  apply list_elem_of_omap in Hl as ([p u] & _ & Hp). exact (Forall_lookup_1 _ _ _ _ Hall Hp).
Qed.

Lemma checkAll_sound model (parts : list (list (Operation Inp Out))) kill fuel i rs :
  Forall timed parts -> checkAll model i (makeEntries sortByTime <$> parts) true kill fuel = Ret (Some rs) ->
  Forall2 (fun ops r => sound_result model (makeEntries sortByTime ops) (len ops) r) parts rs.
Proof.
  intros Ht. revert i rs. induction Ht as [|ops parts Hops _ IH]; intros i rs Hrun; [by injection Hrun as <-|].
  rewrite fmap_cons in Hrun. cbn [checkAll] in Hrun.
  destruct (checkSingle_sound model (equalOf model) _ _ (makeEntries_wf ops Hops) (kill i) fuel) as (r & Hr & Hsound).
  rewrite Hr in Hrun. cbn [mbind outcome_bind] in Hrun.
  destruct (checkAll model (i + 1) (makeEntries sortByTime <$> parts) true kill fuel) as [rs'|] eqn:Hrs; [|done].
  cbn [mbind outcome_bind] in Hrun. destruct r as [r|], rs' as [rs'|]; try done. injection Hrun as <-.
  constructor; [by apply Hsound|exact (IH _ _ Hrs)].
Qed.

(** The report of a verbose check, whenever it is killed. *)
Lemma verbose_report model hist kill fuel arrive res info :
  Forall timed (partitions model hist) ->
  CheckOperationsVerbose model hist kill fuel arrive = Ret (Returns (res, info)) ->
  history info = makeEntries sortByTime <$> partitions model hist /\
  Forall2 (fun ops partials => forall l, l ∈ partials ->
      partial_linearization (Step model) (makeEntries sortByTime ops) (len ops) (Init model) l)
    (partitions model hist) (partialLinearizations info).
Proof.
  intros Ht Hrun. unfold CheckOperationsVerbose, checkOperations, runCheck in Hrun. cbv zeta in Hrun.
  change (default NoPartition (Partition (fillDefault model)) hist) with (partitions model hist) in Hrun.
  destruct (checkAll (fillDefault model) 0 _ true kill fuel) as [[rs|]|] eqn:Hrs; try done.
  cbn [mbind outcome_bind] in Hrun. unfold checkParallel in Hrun. destruct (receive _ _ _ _ _) as [[[ok timedOut] c]|]; [|done].
  injection Hrun as _ <-. split; [done|]. simpl. apply checkAll_sound in Hrs; [|done]. apply Forall2_fmap_r.
  eapply Forall2_impl; [exact Hrs|]. intros ops r Hr. exact (partialsOf_partial (fillDefault model) _ _ r Hr).
Qed.

(** A loop that fills a slice. *)
Lemma mapM_seqZ {A} (f : Z -> outcome A) (Q : Z -> A -> Prop) m a :
  (forall z, a <= z < a + Z.of_nat m -> exists y, f z = Ret y /\ Q z y) ->
  exists ys, mapM f (seqZ a (Z.of_nat m)) = Ret ys /\ length ys = m /\ forall k y, ys !! k = Some y -> Q (a + Z.of_nat k) y.
Proof.
  revert a. induction m as [|m IH]; intros a Hf; [by exists []|].
  destruct (Hf a) as (y & Hy & HQ); [lia|]. destruct (IH (Z.succ a)) as (ys & Hys & Hlen & HQs); [intros z Hz; apply Hf; lia|].
  exists (y :: ys). rewrite seqZ_cons; [lia|]. replace (Z.pred (Z.of_nat (S m))) with (Z.of_nat m) by lia.
  cbn [mapM]. rewrite Hy. cbn [mbind outcome_bind]. rewrite Hys. split_and!; [done|simpl; by rewrite Hlen|].
  intros [|k] x Hx; [injection Hx as <-; by rewrite Z.add_0_r|].
  replace (a + Z.of_nat (S k)) with (Z.succ a + Z.of_nat k) by lia. by apply HQs.
Qed.

Lemma data_ret model (parts : list (list (Operation Inp Out))) partials : Forall timed parts ->
  Forall2 (fun ops ps => forall l, l ∈ ps ->
    partial_linearization (Step model) (makeEntries sortByTime ops) (len ops) (Init model) l) parts partials ->
  exists data, computeVisualizationData model (mkLinearizationInfo (makeEntries sortByTime <$> parts) partials) = Ret data /\
    Forall2 (fun opsps d => shows (fillDefault model) opsps.1 opsps.2 d) (zip parts partials) data.
Proof.
  intros Ht Hp. pose proof (Forall2_length _ _ _ Hp) as Hlen. unfold computeVisualizationData. cbv zeta.
  simpl history. simpl partialLinearizations.
  destruct (mapM_seqZ (fun partition => entries ← slice_get (makeEntries sortByTime <$> parts) partition;
        ps ← slice_get partials partition; partitionData (fillDefault model) entries ps)
    (fun z d => exists ops ps, parts !! Z.to_nat z = Some ops /\ partials !! Z.to_nat z = Some ps /\ shows (fillDefault model) ops ps d)
    (length parts) 0) as (data & Hrun & Hld & Hall).
  { intros z Hz. destruct (lookup_lt_is_Some_2 parts (Z.to_nat z)) as [ops Hops]; [lia|].
    destruct (lookup_lt_is_Some_2 partials (Z.to_nat z)) as [ps Hps]; [lia|].
    rewrite (slice_get_some _ z (makeEntries sortByTime ops) (proj1 Hz)); [by rewrite list_lookup_fmap Hops|].
    cbn [mbind outcome_bind]. rewrite (slice_get_some partials z ps (proj1 Hz) Hps). cbn [mbind outcome_bind].
    destruct (partitionData_ret (fillDefault model) ops ps (Forall_lookup_1 _ _ _ _ Ht Hops)) as (d & Hd & Hsh); [|by exists d; eauto 10].
    apply Forall_forall. intros l Hl. destruct (Forall2_lookup_lr _ _ _ _ _ _ Hp Hops Hps l Hl) as [_ _ Hleg _ _]. exact Hleg. }
  exists data. split; [unfold len; by rewrite length_fmap|].
  apply Forall2_same_length_lookup_2; [rewrite length_zip; lia|]. intros k [ops ps] d Hz Hd.
  apply lookup_zip_Some in Hz as [Hops Hps]. destruct (Hall k d Hd) as (ops' & ps' & Ho & Hq & Hsh).
  rewrite Z.add_0_l Nat2Z.id in Ho, Hq. simpl. congruence.
Qed.

End reports.

(** C32. On the report of any verbose check of a history, also one that was
    killed by its timeout, [computeVisualizationData] returns: the model accepts
    every reported sequence, so the panic of the inner loop is not reached.  For
    every partition the data shows the operations, exactly the reported partial
    linearizations, with every step of them the description of the state that the
    model is in after it (from the initial state, through steps it accepts),
    and as the largest of an operation one of those with it that
    no other is longer than. *)
Theorem visualization_shows_report {Inp Out St : Type} `{!MapOrder} `{!TimeSort Inp Out} `{!LengthSort}
    `{EqDecision St, !GoFormat Inp, !GoFormat Out, !GoFormat St} (model : Model Inp Out St) hist kill fuel arrive res info :
  Forall timed (partitions model hist) ->
  CheckOperationsVerbose model hist kill fuel arrive = Ret (Returns (res, info)) ->
  exists data, computeVisualizationData model info = Ret data /\
    Forall2 (fun opsps d => shows (fillDefault model) opsps.1 opsps.2 d)
      (zip (partitions model hist) (partialLinearizations info)) data.
Proof.
  intros Ht Hrun. destruct (verbose_report model hist kill fuel arrive res info Ht Hrun) as [Hh Hp].
  destruct info as [h ps]. simpl in Hh, Hp. subst h. by apply data_ret.
Qed.

(** ** A stale read *)

Definition no_shorter (a b : list Z) : Prop := ~ len b > len a.

#[export] Instance no_shorter_dec : RelDecision no_shorter.
Proof. intros a b. unfold no_shorter. apply _. Defined.
#[export] Instance no_shorter_total : Total no_shorter.
Proof. intros a b. unfold no_shorter. lia. Qed.
#[export] Instance no_shorter_trans : Transitive no_shorter.
Proof. intros a b c. unfold no_shorter. lia. Qed.

(** A merge sort is a [LengthSort]. *)
#[export] Program Instance merge_length : LengthSort := {| sortByLength l := merge_sort no_shorter l |}.
Next Obligation. apply merge_sort_Permutation. Qed.
Next Obligation. apply (StronglySorted_merge_sort no_shorter). Qed.

Lemma stale_get_timed : timed stale_get.
Proof. repeat constructor; simpl; lia. Qed.

Example stale_get_shown :
  (r ← CheckOperationsVerbose KvModel stale_get (fun _ _ => false) 20 (fmap ResultArrives);
   match r with
   | Returns (_, info) => computeVisualizationData KvModel info
   | _ => Panic EmptyString
   end) =
  Ret [mkPartitionVisualizationData
    [mkHistoryElement 0 0 10 "put('x', '1')"; mkHistoryElement 1 15 20 "get('x') -> ''"]
    [[mkLinearizationStep 0 "1"]] {[0 := 0]}].
Proof. vm_compute. reflexivity. Qed.

Lemma partials_are_longest_witness :
  exists ok longest seqs k,
    (forall fuel, (k <= fuel)%nat ->
       checkSingle KvModel ShallowEqual (makeEntries sortByTime stale_get) true (fun _ => false) fuel = Ret (Some (ok, longest, seqs))) /\
    forall i, 0 <= i < 2 -> longest_for KvModel (makeEntries sortByTime stale_get) 2 longest seqs i.
Proof.
  apply (partials_are_longest KvModel ShallowEqual (makeEntries sortByTime stale_get) 2).
  - exact (makeEntries_wf stale_get stale_get_timed).
  - apply ShallowEqual_simulates.
Defined.

Lemma visualization_shows_report_witness :
  exists data, computeVisualizationData KvModel (mkLinearizationInfo [makeEntries sortByTime stale_get] [[[0]]]) = Ret data /\
    Forall2 (fun opsps d => shows (fillDefault KvModel) opsps.1 opsps.2 d) (zip (partitions KvModel stale_get) [[[0]]]) data.
Proof.
  apply (visualization_shows_report KvModel stale_get (fun _ _ => false) 20 (fmap ResultArrives) Illegal
    (mkLinearizationInfo [makeEntries sortByTime stale_get] [[[0]]])).
  - repeat constructor; simpl; lia.
  - vm_compute. reflexivity.
Defined.
