(* ===== verification/LabRpc.v ===== *)
(** * LabRpc: the simulated network, src/src/labrpc/labrpc.go

    Clients call methods of servers through a network that loses requests and
    replies, delays them, and disconnects or kills servers.  A [World] is the
    network, the servers (addressed by pointers, as the code compares
    pointers), the state of the services, and the requests under way.  Each
    request is a goroutine of [processReq] with the goroutine that runs the
    handler; [advance] is one step of the first, [EHandler] one of the second.
    The handlers of a server run at the same time: a handler is a sequence of
    sections of the services ([Body]), and other handlers run between two of
    its sections.  The random numbers, timers and the scheduler are the
    [Choice]s and the order of the steps.

    Parameter: a [Codec], what labgob promises about one value. *)

From S2P Require Import Prelude LabGob GoStrings.
From Stdlib Require Import Ascii.
Local Open Scope Z_scope.

(** The encoder writes the first component to the buffer; the second is
    whether the error is nil.  The decoder overwrites a value.  [shipped v] is
    what arrives of [v]: gob does not send the fields whose names start with a
    lower-case letter, so they have their zero values there. *)
Class Codec (Typ Val : Type) := {
  typeOf : Val -> Typ;
  zero : Typ -> Val;
  encodeVal : Val -> bytes * bool;
  decodeInto : Val -> bytes -> option Val;
  shipped : Val -> Val;
  decode_encoded v : (encodeVal v).2 = true -> decodeInto (zero (typeOf v)) (encodeVal v).1 = Some (shipped v);
}.

(** [s[:i]] and [s[i+1:]] for the last index [i] of the character. *)
Fixpoint cutLast (c : ascii) (s : string) : option (string * string) :=
  match s with
  | EmptyString => None
  | String d s =>
      match cutLast c s with
      | Some (a, b) => Some (String d a, b)
      | None => if Ascii.eqb d c then Some (EmptyString, s) else None
      end
  end.

(** [Raft.AppendEntries] into service and method. *)
Definition splitMethod (svcMeth : string) : option (string * string) := cutLast "." svcMeth.

Record replyMsg := mkReply { rep_ok : bool; rep_bytes : bytes }.

Definition failure : replyMsg := mkReply false [].

(** A method under way: it has computed its reply, or it runs a section that
    reads and writes the state of the services without interruption (it holds
    their lock) and goes on with what it has read. *)
Inductive Body {Val St : Type} :=
| BReturn (v : Val)
| BSection (f : St -> St) (k : St -> Body).
Arguments Body : clear implicits.

Section labrpc.
Context {Name Typ Val St : Type} `{Countable Name} `{!Codec Typ Val}.

Record reqMsg := mkReq {
  endname : Name;
  svcMeth : string;
  argsType : Typ;
  args : bytes;
}.

(** ** Services and servers *)

(** A method takes the arguments and the fresh reply; the receiver is part of the
    state of the services. *)
Record Method := mkMethod { replyType : Typ; func : Val -> Val -> Body Val St }.

Record Service := mkService { svc_name : string; methods : gmap string Method }.

(** A candidate method as reflection presents it. *)
Record Reflected := mkReflected {
  m_name : string; m_PkgPath : string; m_NumIn : Z; m_In2_isPtr : bool; m_NumOut : Z; m_method : Method }.

Definition suitable (m : Reflected) : bool :=
  negb (bool_decide (m_PkgPath m <> EmptyString) || bool_decide (m_NumIn m <> 3) || negb (m_In2_isPtr m) || bool_decide (m_NumOut m <> 0)).

Definition MakeService (name : string) (ms : list Reflected) : Service :=
  mkService name (foldl (fun acc m => if suitable m then <[m_name m := m_method m]> acc else acc) ∅ ms).

Record Server := mkServer { services : gmap string Service; srv_count : Z }.

Definition MakeServer : Server := mkServer ∅ 0.

Definition AddService (rs : Server) (svc : Service) : Server := mkServer (<[svc_name svc := svc]> (services rs)) (srv_count rs).

(** [service.dispatch] up to the call of the method, which runs afterwards. *)
Definition Service_dispatch (svc : Service) (methname : string) (req : reqMsg) : outcome (Body Val St) :=
  match methods svc !! methname with
  | Some m =>
      let a := default (zero (argsType req)) (decodeInto (zero (argsType req)) (args req)) in
      Ret (func m a (zero (replyType m)))
  | None => Panic "labrpc.Service.dispatch(): unknown method"
  end.

(** What [service.dispatch] makes of the reply the method filled in. *)
Definition Service_reply (v : Val) : replyMsg := mkReply true (encodeVal v).1.

Definition Server_dispatch (rs : Server) (req : reqMsg) : outcome (Server * Body Val St) :=
  let rs := mkServer (services rs) (wrap 64 (srv_count rs + 1)) in
  match splitMethod (svcMeth req) with
  | None => Panic "slice bounds out of range [:-1]"
  | Some (serviceName, methodName) =>
      match services rs !! serviceName with
      | Some svc => b ← Service_dispatch svc methodName req; Ret (rs, b)
      | None => Panic "labrpc.Server.dispatch(): unknown service"
      end
  end.

(** ** The network *)

(** A server name is missing from [servers] or nil; a connection is nil until
    [Connect]. *)
Record Network := mkNetwork {
  reliable : bool;
  longDelays : bool;
  longReordering : bool;
  ends : gset Name;
  enabled : gmap Name bool;
  servers : gmap Name (option nat);
  connections : gmap Name (option Name);
  done_ : bool;
  count : Z;
  net_bytes : Z;
}.

Definition MakeNetwork : Network := mkNetwork true false false ∅ ∅ ∅ ∅ false 0 0.

Definition set_reliable rn b := mkNetwork b (longDelays rn) (longReordering rn) (ends rn) (enabled rn) (servers rn) (connections rn) (done_ rn) (count rn) (net_bytes rn).
Definition set_longDelays rn b := mkNetwork (reliable rn) b (longReordering rn) (ends rn) (enabled rn) (servers rn) (connections rn) (done_ rn) (count rn) (net_bytes rn).
Definition set_longReordering rn b := mkNetwork (reliable rn) (longDelays rn) b (ends rn) (enabled rn) (servers rn) (connections rn) (done_ rn) (count rn) (net_bytes rn).
Definition set_enabled rn x := mkNetwork (reliable rn) (longDelays rn) (longReordering rn) (ends rn) x (servers rn) (connections rn) (done_ rn) (count rn) (net_bytes rn).
Definition set_servers rn x := mkNetwork (reliable rn) (longDelays rn) (longReordering rn) (ends rn) (enabled rn) x (connections rn) (done_ rn) (count rn) (net_bytes rn).
Definition set_connections rn x := mkNetwork (reliable rn) (longDelays rn) (longReordering rn) (ends rn) (enabled rn) (servers rn) x (done_ rn) (count rn) (net_bytes rn).
Definition add_bytes rn n := mkNetwork (reliable rn) (longDelays rn) (longReordering rn) (ends rn) (enabled rn) (servers rn) (connections rn) (done_ rn) (count rn) (wrap 64 (net_bytes rn + n)).

(** The goroutine of [MakeNetwork] accepts a request. *)
Definition accept (rn : Network) (req : reqMsg) : Network :=
  mkNetwork (reliable rn) (longDelays rn) (longReordering rn) (ends rn) (enabled rn) (servers rn) (connections rn) (done_ rn)
    (wrap 32 (count rn + 1)) (wrap 64 (net_bytes rn + len (args req))).

(** Closing a closed channel panics. *)
Definition Cleanup (rn : Network) : outcome Network :=
  if done_ rn then Panic "close of closed channel" else
  Ret (mkNetwork (reliable rn) (longDelays rn) (longReordering rn) (ends rn) (enabled rn) (servers rn) (connections rn) true
    (count rn) (net_bytes rn)).

Definition Reliable := set_reliable.
Definition LongReordering := set_longReordering.
Definition LongDelays := set_longDelays.

Definition MakeEnd (rn : Network) (e : Name) : outcome Network :=
  if bool_decide (e ∈ ends rn) then Panic "MakeEnd: already exists" else
  Ret (mkNetwork (reliable rn) (longDelays rn) (longReordering rn) ({[e]} ∪ ends rn)
    (<[e := false]> (enabled rn)) (servers rn) (<[e := None]> (connections rn)) (done_ rn) (count rn) (net_bytes rn)).

Definition AddServer (rn : Network) (n : Name) (rs : nat) : Network := set_servers rn (<[n := Some rs]> (servers rn)).
Definition DeleteServer (rn : Network) (n : Name) : Network := set_servers rn (<[n := None]> (servers rn)).
Definition Connect (rn : Network) (e n : Name) : Network := set_connections rn (<[e := Some n]> (connections rn)).
Definition Enable (rn : Network) (e : Name) (yes : bool) : Network := set_enabled rn (<[e := yes]> (enabled rn)).

Definition lookup_enabled (rn : Network) (e : Name) : bool := default false (enabled rn !! e).
Definition lookup_server (rn : Network) (n : Name) : option nat := default None (servers rn !! n).

(** [svr.GetCount()] of a nil server is a nil dereference. *)
Definition GetCount (rn : Network) (heap : list Server) (n : Name) : outcome Z :=
  match lookup_server rn n ≫= fun p => heap !! p with
  | Some rs => Ret (srv_count rs)
  | None => Panic "nil pointer dereference"
  end.

Definition GetTotalCount (rn : Network) : Z := count rn.
Definition GetTotalBytes (rn : Network) : Z := net_bytes rn.

Record EndInfo := mkInfo {
  i_enabled : bool; i_servername : option Name; i_server : option nat; i_reliable : bool; i_longreordering : bool }.

Definition readEndnameInfo (rn : Network) (e : Name) : EndInfo :=
  let servername := default None (connections rn !! e) in
  mkInfo (lookup_enabled rn e) servername (servername ≫= lookup_server rn) (reliable rn) (longReordering rn).

Definition isServerDead (rn : Network) (e n : Name) (server : nat) : bool :=
  bool_decide (lookup_enabled rn e = false) || bool_decide (lookup_server rn n <> Some server).

(** ** Requests *)

(** [ClientEnd.Call] up to the send, and after the reply. *)
Definition Call_request (e : Name) (meth : string) (v : Val) : outcome reqMsg :=
  let '(b, ok) := encodeVal v in
  if ok : bool then Ret (mkReq e meth (typeOf v) b) else Panic "encode".

Definition Call_result (rep : replyMsg) (reply : Val) : outcome (bool * Val) :=
  if rep_ok rep then
    match decodeInto reply (rep_bytes rep) with
    | Some v => Ret (true, v)
    | None => Panic "ClientEnd.Call(): decode reply"
    end
  else Ret (false, reply).

(** What [processReq] read about the end. *)
Record Route := mkRoute { r_name : Name; r_server : nat; r_reliable : bool; r_long : bool }.

(** The goroutine that runs the handler: not started, before [server.dispatch],
    in the method with [b] to run, after it. *)
Inductive HandlerState :=
| NotStarted
| Running (server : nat)
| Serving (b : Body Val St)
| Returned (rep : replyMsg).

(** The goroutine of [processReq]: before it reads about the end, before the
    handler is started, in the loop that waits for it, after the loop with
    [reply] if [replyOK], before a timer sends the reply, after the reply. *)
Inductive Phase :=
| Received
| Routed (t : Route)
| Waiting (t : Route)
| Answered (t : Route) (reply : option replyMsg)
| Delayed (rep : replyMsg)
| Replied (rep : replyMsg).

Record Req := mkRequest { req : reqMsg; handler : HandlerState; phase : Phase }.

(** Go on, lose the message, let the 100 ms timer fire, postpone the reply. *)
Inductive Choice := Proceed | Lose | Tick | Postpone.

(** One step of [processReq]; [None] if the code does not make that choice
    there. *)
Definition advance (rn : Network) (r : Req) (c : Choice) : option (Network * Req) :=
  let e := endname (req r) in
  let goto ph := Some (rn, mkRequest (req r) (handler r) ph) in
  let answer rep := Some (add_bytes rn (len (rep_bytes rep)), mkRequest (req r) (handler r) (Replied rep)) in
  match phase r, c with
  | Received, Proceed =>
      let info := readEndnameInfo rn e in
      match i_enabled info, i_servername info, i_server info with
      | true, Some servername, Some server => goto (Routed (mkRoute servername server (i_reliable info) (i_longreordering info)))
      | _, _, _ => goto (Delayed failure)
      end
  | Routed t, Lose => if r_reliable t then None else goto (Replied failure)
  | Routed t, Proceed => Some (rn, mkRequest (req r) (Running (r_server t)) (Waiting t))
  | Waiting t, Proceed => match handler r with Returned rep => goto (Answered t (Some rep)) | _ => None end
  | Waiting t, Tick => if isServerDead rn e (r_name t) (r_server t) then goto (Answered t None) else goto (Waiting t)
  | Answered t reply, c =>
      match reply, isServerDead rn e (r_name t) (r_server t), c with
      | None, _, Proceed | _, true, Proceed => goto (Replied failure)
      | Some rep, false, Lose => if r_reliable t then None else goto (Replied failure)
      | Some rep, false, Postpone => if r_long t then goto (Delayed rep) else None
      | Some rep, false, Proceed => answer rep
      | _, _, _ => None
      end
  | Delayed rep, Proceed => answer rep
  | _, _ => None
  end.

(** ** Worlds *)

(** [execs] records every request that was dispatched, with the server and the
    method's body; [turns] records every section that ran, with the request it
    belongs to (none for a goroutine of the services themselves) and the
    states before and after it. *)
Record Exec := mkExec { x_id : nat; x_server : Server; x_body : Body Val St }.

Record Turn := mkTurn { t_id : option nat; t_before : St; t_after : St }.

Record World := mkWorld {
  net : Network;
  heap : list Server;
  app : St;
  reqs : list Req;
  execs : list Exec;
  turns : list Turn;
}.

Inductive NetOp :=
| OpReliable (yes : bool) | OpLongDelays (yes : bool) | OpLongReordering (yes : bool)
| OpMakeEnd (e : Name) | OpAddServer (n : Name) (p : nat) | OpDeleteServer (n : Name)
| OpConnect (e n : Name) | OpEnable (e : Name) (yes : bool) | OpCleanup.

Definition apply_op (rn : Network) (op : NetOp) : outcome Network :=
  match op with
  | OpReliable yes => Ret (Reliable rn yes)
  | OpLongDelays yes => Ret (LongDelays rn yes)
  | OpLongReordering yes => Ret (LongReordering rn yes)
  | OpMakeEnd e => MakeEnd rn e
  | OpAddServer n p => Ret (AddServer rn n p)
  | OpDeleteServer n => Ret (DeleteServer rn n)
  | OpConnect e n => Ret (Connect rn e n)
  | OpEnable e yes => Ret (Enable rn e yes)
  | OpCleanup => Cleanup rn
  end.

(** What happens next: a call, a step of a request, a step of a handler (its
    dispatch, a section, its return), a section of a goroutine of the services, an
    operation of the tester. *)
Inductive Event :=
| ECall (e : Name) (meth : string) (v : Val)
| ECallClosed (e : Name) (meth : string) (v : Val)
| EAdvance (i : nat) (c : Choice)
| EHandler (i : nat)
| EService (f : St -> St)
| ENet (op : NetOp)
| EMakeServer
| EAddService (p : nat) (svc : Service).

Definition valid_op (hp : list Server) (op : NetOp) : bool :=
  match op with OpAddServer _ p => bool_decide (p < length hp)%nat | _ => true end.

(** [Ret None]: the event cannot happen now; [Panic]: the program ends. *)
Definition exec (w : World) (ev : Event) : outcome (option World) :=
  match ev with
  | ECall e meth v =>
      if bool_decide (e ∉ ends (net w)) then Ret None else
      rq ← Call_request e meth v;
      Ret (Some (mkWorld (accept (net w) rq) (heap w) (app w) (reqs w ++ [mkRequest rq NotStarted Received]) (execs w) (turns w)))
  | ECallClosed e meth v =>
      if bool_decide (e ∉ ends (net w)) || negb (done_ (net w)) then Ret None else
      rq ← Call_request e meth v;
      Ret (Some (mkWorld (net w) (heap w) (app w) (reqs w ++ [mkRequest rq NotStarted (Replied failure)]) (execs w) (turns w)))
  | EAdvance i c =>
      Ret (r ← reqs w !! i;
           '(rn, r) ← advance (net w) r c;
           Some (mkWorld rn (heap w) (app w) (<[i := r]> (reqs w)) (execs w) (turns w)))
  | EHandler i =>
      match reqs w !! i with
      | Some (mkRequest rq (Running p) ph) =>
          match heap w !! p with
          | Some rs =>
              '(rs', b) ← Server_dispatch rs rq;
              Ret (Some (mkWorld (net w) (<[p := rs']> (heap w)) (app w) (<[i := mkRequest rq (Serving b) ph]> (reqs w))
                (execs w ++ [mkExec i rs b]) (turns w)))
          | None => Ret None
          end
      | Some (mkRequest rq (Serving (BSection f k)) ph) =>
          Ret (Some (mkWorld (net w) (heap w) (f (app w)) (<[i := mkRequest rq (Serving (k (app w))) ph]> (reqs w))
            (execs w) (turns w ++ [mkTurn (Some i) (app w) (f (app w))])))
      | Some (mkRequest rq (Serving (BReturn v)) ph) =>
          Ret (Some (mkWorld (net w) (heap w) (app w) (<[i := mkRequest rq (Returned (Service_reply v)) ph]> (reqs w))
            (execs w) (turns w)))
      | _ => Ret None
      end
  | EService f =>
      Ret (Some (mkWorld (net w) (heap w) (f (app w)) (reqs w) (execs w) (turns w ++ [mkTurn None (app w) (f (app w))])))
  | ENet op =>
      if negb (valid_op (heap w) op) then Ret None else
      rn ← apply_op (net w) op; Ret (Some (mkWorld rn (heap w) (app w) (reqs w) (execs w) (turns w)))
  | EMakeServer => Ret (Some (mkWorld (net w) (heap w ++ [MakeServer]) (app w) (reqs w) (execs w) (turns w)))
  | EAddService p svc =>
      Ret (rs ← heap w !! p;
           Some (mkWorld (net w) (<[p := AddService rs svc]> (heap w)) (app w) (reqs w) (execs w) (turns w)))
  end.

Definition start (st : St) : World := mkWorld MakeNetwork [] st [] [] [].

Definition step (w w' : World) : Prop := exists ev, exec w ev = Ret (Some w').

Definition reachable (st : St) (w : World) : Prop := rtc step (start st) w.

End labrpc.
