(* ===== verification/LabRpcFacts.v ===== *)
(** * LabRpcFacts: what a call through the simulated network means

    A request is dispatched at most once; the sections of its handler run
    in their order, between those of other handlers; a call that returns true
    ran them all and delivers the reply; a killed server answers no call that
    was waiting for it; and every call can return once its handler does. *)

From S2P Require Import Prelude LabGob GoStrings LabRpc.
Local Open Scope Z_scope.

Section facts.
Context {Name Typ Val St : Type} `{Countable Name} `{!Codec Typ Val}.
Notation World := (World (Name := Name) (Typ := Typ) (Val := Val) (St := St)).
Notation Req := (Req (Name := Name) (Typ := Typ) (Val := Val) (St := St)).
Notation HandlerState := (HandlerState (Val := Val) (St := St)).
Notation Exec := (Exec (Typ := Typ) (Val := Val) (St := St)).
Notation Server := (Server (Typ := Typ) (Val := Val) (St := St)).
Notation Service := (Service (Typ := Typ) (Val := Val) (St := St)).
Notation Method := (Method (Typ := Typ) (Val := Val) (St := St)).
Notation Event := (Event (Name := Name) (Typ := Typ) (Val := Val) (St := St)).
Notation Network := (Network (Name := Name)).
Notation Turn := (Turn (St := St)).
Implicit Types (w : World) (r : Req) (x : Exec) (ts : list Turn) (xs : list Exec) (hp : list Server) (rn : Network).

(** The executions of request [i] and its sections. *)
Definition runs (i : nat) xs : list Exec := filter (fun x => x_id x = i) xs.

Definition turns_of (i : nat) ts : list Turn := filter (fun t => t_id t = Some i) ts.

(** [x] is an execution of [r]. *)
Definition exec_of r x : Prop := exists rs', Server_dispatch (x_server x) (req r) = Ret (rs', x_body x).

(** The sections [ts] are the first ones of [b], each on the state it found, and
    [b'] remains. *)
Inductive plays : Body Val St -> list Turn -> Body Val St -> Prop :=
| plays_nil b : plays b [] b
| plays_cons f k i st ts b : plays (k st) ts b -> plays (BSection f k) (mkTurn i st (f st) :: ts) b.

Lemma plays_snoc b ts f k i st : plays b ts (BSection f k) -> plays b (ts ++ [mkTurn i st (f st)]) (k st).
Proof.
  revert b. induction ts as [|t ts IH]; intros b Hp; inversion Hp; subst; simpl; [apply plays_cons, plays_nil|].
  by apply plays_cons, IH.
Qed.

(** The sections took the services from [st] to [st'], one after another. *)
Inductive replays (st : St) : list Turn -> St -> Prop :=
| replays_nil : replays st [] st
| replays_snoc ts t : replays st ts (t_before t) -> replays st (ts ++ [t]) (t_after t).

(** Request [r] was dispatched once, and [b] of its handler remains. *)
Definition served xs ts (i : nat) r (b : Body Val St) : Prop :=
  exists x, runs i xs = [x] /\ exec_of r x /\ plays (x_body x) (turns_of i ts) b.

(** Phases before a handler has returned. *)
Definition unanswered (ph : Phase (Name := Name)) : Prop :=
  match ph with
  | Waiting _ | Answered _ None => True
  | Replied rep => rep_ok rep = false
  | _ => False
  end.

Definition handler_ok (k : nat) xs ts (i : nat) r : Prop :=
  match handler r with
  | NotStarted => runs i xs = [] /\ turns_of i ts = [] /\
      match phase r with
      | Received => True
      | Routed t => (r_server t < k)%nat
      | Delayed rep | Replied rep => rep_ok rep = false
      | _ => False
      end
  | Running p => runs i xs = [] /\ turns_of i ts = [] /\ (p < k)%nat /\ unanswered (phase r)
  | Serving b => served xs ts i r b /\ unanswered (phase r)
  | Returned rep =>
      (exists u, served xs ts i r (BReturn u) /\ rep = Service_reply u) /\
      match phase r with
      | Waiting _ | Answered _ None => True
      | Answered _ (Some rep') | Delayed rep' => rep' = rep
      | Replied rep' => rep' = rep \/ rep_ok rep' = false
      | _ => False
      end
  end.

Record req_ok (k : nat) xs ts (i : nat) r : Prop := {
  ok_call : exists v, Call_request (endname (req r)) (svcMeth (req r)) v = Ret (req r);
  ok_handler : handler_ok k xs ts i r;
}.

Record inv (st : St) w : Prop := {
  inv_req : forall i r, reqs w !! i = Some r -> req_ok (length (heap w)) (execs w) (turns w) i r;
  inv_ids : forall x, x ∈ execs w -> (x_id x < length (reqs w))%nat;
  inv_turns : forall t i, t ∈ turns w -> t_id t = Some i -> exists x, x ∈ execs w /\ x_id x = i;
  inv_servers : forall n p, lookup_server (net w) n = Some p -> (p < length (heap w))%nat;
  inv_replays : replays st (turns w) (app w);
}.

Lemma handler_ok_mono k k' xs ts i r : (k <= k')%nat -> handler_ok k xs ts i r -> handler_ok k' xs ts i r.
Proof. unfold handler_ok. intros Hk. destruct (handler r); [destruct (phase r)|..]; intuition lia. Qed.

Lemma req_ok_mono k k' xs ts i r : (k <= k')%nat -> req_ok k xs ts i r -> req_ok k' xs ts i r.
Proof. intros Hk [Hc Hh]. split; [done|]. by apply (handler_ok_mono k). Qed.

(** Executions and sections of other requests do not matter. *)
Lemma req_ok_other k xs ts xs' ts' i r :
  runs i xs' = runs i xs -> turns_of i ts' = turns_of i ts -> req_ok k xs ts i r -> req_ok k xs' ts' i r.
Proof. intros Hx Ht [Hc Hh]. split; [done|]. unfold handler_ok, served in *. by rewrite Hx Ht. Qed.

Lemma runs_snoc_ne i xs x : x_id x <> i -> runs i (xs ++ [x]) = runs i xs.
Proof. intros Hne. unfold runs. by rewrite filter_app (filter_cons_False _ x) // filter_nil app_nil_r. Qed.

Lemma runs_snoc_eq i xs x : x_id x = i -> runs i (xs ++ [x]) = runs i xs ++ [x].
Proof. intros He. unfold runs. by rewrite filter_app (filter_cons_True _ x). Qed.

Lemma turns_snoc_ne i ts t : t_id t <> Some i -> turns_of i (ts ++ [t]) = turns_of i ts.
Proof. intros Hne. unfold turns_of. by rewrite filter_app (filter_cons_False _ t) // filter_nil app_nil_r. Qed.

Lemma turns_snoc_eq i ts t : t_id t = Some i -> turns_of i (ts ++ [t]) = turns_of i ts ++ [t].
Proof. intros He. unfold turns_of. by rewrite filter_app (filter_cons_True _ t). Qed.

(** ** The initial world and the steps *)

Lemma start_inv st : inv st (start st).
Proof.
  split; simpl; [by intros i r Hi|by intros x Hx%elem_of_nil|by intros t i Ht%elem_of_nil| |constructor].
  intros n p. unfold lookup_server, MakeNetwork. simpl. by rewrite lookup_empty.
Qed.

Lemma Call_request_fields e meth v rq :
  Call_request (Typ := Typ) e meth v = Ret rq -> endname (Name := Name) rq = e /\ svcMeth rq = meth.
Proof. unfold Call_request. destruct (encodeVal v) as [b [|]]; [intros [= <-]; done|done]. Qed.

Lemma new_runs st w : inv st w -> runs (length (reqs w)) (execs w) = [].
Proof.
  intros HI. unfold runs. apply filter_none, Forall_forall. intros x Hx E. pose proof (inv_ids _ _ HI x Hx). lia.
Qed.

Lemma new_turns st w : inv st w -> turns_of (length (reqs w)) (turns w) = [].
Proof.
  intros HI. unfold turns_of. apply filter_none, Forall_forall. intros t Ht E.
  destruct (inv_turns _ _ HI t _ Ht E) as (x & Hx & Hid). pose proof (inv_ids _ _ HI x Hx). lia.
Qed.

(** A request that no handler has run for joins the others. *)
Lemma new_request_inv st w rn rq ph v :
  inv st w -> Call_request (endname rq) (svcMeth rq) v = Ret rq -> servers rn = servers (net w) ->
  (ph = Received \/ ph = Replied failure) ->
  inv st (mkWorld rn (heap w) (app w) (reqs w ++ [mkRequest rq NotStarted ph]) (execs w) (turns w)).
Proof.
  intros HI Hc Hrn Hph. pose proof (new_runs st w HI) as Hnr. pose proof (new_turns st w HI) as Hnt.
  destruct HI as [Hr Hi Ht Hs Hp]. split; simpl; [| |done| |done].
  - intros i r [[_ Hr']|[-> Hr']]%lookup_snoc_Some; [by apply Hr|]. subst r. split; [by exists v|]. simpl.
    split_and!; [done|done|by destruct Hph as [->| ->]].
  - intros x Hx. rewrite length_app. specialize (Hi x Hx). lia.
  - intros n p. unfold lookup_server. rewrite Hrn. apply Hs.
Qed.

(** What a step of [processReq] can do. *)
Inductive advances rn r : Choice -> Network -> Phase (Name := Name) -> HandlerState -> Prop :=
| adv_route servername server :
    phase r = Received -> lookup_enabled rn (endname (req r)) = true -> lookup_server rn servername = Some server ->
    connections rn !! endname (req r) = Some (Some servername) ->
    advances rn r Proceed rn (Routed (mkRoute servername server (reliable rn) (longReordering rn))) (handler r)
| adv_unreachable : phase r = Received -> advances rn r Proceed rn (Delayed failure) (handler r)
| adv_drop t : phase r = Routed t -> r_reliable t = false -> advances rn r Lose rn (Replied failure) (handler r)
| adv_start t : phase r = Routed t -> advances rn r Proceed rn (Waiting t) (Running (r_server t))
| adv_answer t rep : phase r = Waiting t -> handler r = Returned rep -> advances rn r Proceed rn (Answered t (Some rep)) (handler r)
| adv_dead t : phase r = Waiting t -> isServerDead rn (endname (req r)) (r_name t) (r_server t) = true ->
    advances rn r Tick rn (Answered t None) (handler r)
| adv_wait t : phase r = Waiting t -> isServerDead rn (endname (req r)) (r_name t) (r_server t) = false ->
    advances rn r Tick rn (Waiting t) (handler r)
| adv_fail t o : phase r = Answered t o -> o = None \/ isServerDead rn (endname (req r)) (r_name t) (r_server t) = true ->
    advances rn r Proceed rn (Replied failure) (handler r)
| adv_lose t rep : phase r = Answered t (Some rep) -> r_reliable t = false -> advances rn r Lose rn (Replied failure) (handler r)
| adv_postpone t rep : phase r = Answered t (Some rep) -> isServerDead rn (endname (req r)) (r_name t) (r_server t) = false ->
    r_long t = true -> advances rn r Postpone rn (Delayed rep) (handler r)
| adv_reply t rep : phase r = Answered t (Some rep) -> isServerDead rn (endname (req r)) (r_name t) (r_server t) = false ->
    advances rn r Proceed (add_bytes rn (len (rep_bytes rep))) (Replied rep) (handler r)
| adv_delayed rep : phase r = Delayed rep -> advances rn r Proceed (add_bytes rn (len (rep_bytes rep))) (Replied rep) (handler r).

Lemma advance_spec rn r c rn' r' :
  advance rn r c = Some (rn', r') -> req r' = req r /\ advances rn r c rn' (phase r') (handler r').
Proof.
  unfold advance. intros E. split.
  { destruct (phase r), c; try done; repeat (case_match; try done); simplify_eq; done. }
  destruct (phase r) as [|t|t|t o|rep|rep] eqn:Hph, c; try done.
  - unfold readEndnameInfo in E. simpl in E. destruct (lookup_enabled rn _) eqn:He; [|injection E as <- <-; simpl; by apply adv_unreachable].
    destruct (connections rn !! endname (req r)) as [[n|]|] eqn:Hc; simpl in E; [|injection E as <- <-; simpl; by apply adv_unreachable..].
    destruct (lookup_server rn n) eqn:Hs; injection E as <- <-; simpl; [by apply adv_route|by apply adv_unreachable].
  - injection E as <- <-. simpl. by apply adv_start.
  - destruct (r_reliable t) eqn:Hr; [done|]. injection E as <- <-. simpl. by apply (adv_drop _ _ t).
  - destruct (handler r) eqn:Hh; [done|done|done|]. injection E as <- <-. simpl. rewrite -Hh. by apply adv_answer.
  - destruct (isServerDead _ _ _ _) eqn:Hd; injection E as <- <-; simpl; [by apply adv_dead|by apply adv_wait].
  - destruct o as [rep|], (isServerDead _ _ _ _) eqn:Hd; injection E as <- <-; simpl.
    + apply (adv_fail _ _ t (Some rep)); auto.
    + by apply (adv_reply _ _ t).
    + apply (adv_fail _ _ t None); auto.
    + apply (adv_fail _ _ t None); auto.
  - destruct o as [rep|], (isServerDead _ _ _ _) eqn:Hd; try done. destruct (r_reliable t) eqn:Hr; [done|].
    injection E as <- <-. simpl. by apply (adv_lose _ _ t rep).
  - by destruct o as [rep|], (isServerDead _ _ _ _).
  - destruct o as [rep|], (isServerDead _ _ _ _) eqn:Hd; try done. destruct (r_long t) eqn:Hr; [|done].
    injection E as <- <-. simpl. by apply (adv_postpone _ _ t rep).
  - injection E as <- <-. simpl. by apply adv_delayed.
Qed.

Lemma advances_servers rn r c rn' ph h : advances rn r c rn' ph h -> servers rn' = servers rn.
Proof. by destruct 1. Qed.

Lemma advances_ok k xs ts i rn r c rn' r' :
  req_ok k xs ts i r -> (forall n p, lookup_server rn n = Some p -> (p < k)%nat) ->
  req r' = req r -> advances rn r c rn' (phase r') (handler r') -> req_ok k xs ts i r'.
Proof.
  intros [Hc Hh] Hs Hq Ha. split; [by rewrite Hq|].
  assert (forall b, served xs ts i r b -> served xs ts i r' b) as Hex.
  { intros b (x & Hx & Hd & Hp). exists x. split_and!; [done| |done]. unfold exec_of. by rewrite Hq. }
  destruct r as [rq h ph], r' as [rq' h' ph']. simpl in *. subst rq'.
  unfold handler_ok, unanswered in *. simpl in *.
  destruct h as [|p|b|rep0]; inversion Ha; subst; simpl in *; subst; simpl in *; try done; naive_solver.
Qed.

Lemma apply_op_servers hp rn op rn' n p :
  apply_op rn op = Ret rn' -> lookup_server rn' n = Some p ->
  lookup_server rn n = Some p \/ op = OpAddServer n p.
Proof.
  intros E Hp. destruct op; simpl in E; try (injection E as <-; by left).
  - unfold MakeEnd in E. case_bool_decide; [done|]. injection E as <-. by left.
  - injection E as <-. unfold lookup_server in *. simpl in Hp. rewrite lookup_insert in Hp.
    destruct (decide (n0 = n)) as [->|]; [|by left]. simpl in Hp. right. congruence.
  - injection E as <-. unfold lookup_server in *. simpl in Hp. rewrite lookup_insert in Hp.
    destruct (decide (n0 = n)); [done|by left].
  - unfold Cleanup in E. destruct (done_ rn); [done|]. injection E as <-. by left.
Qed.

(** A step of the handler of request [i]: [r'] replaces it. *)
Lemma handler_inv st w i r r' hp' app' xs' ts' :
  inv st w -> reqs w !! i = Some r -> length hp' = length (heap w) ->
  req_ok (length (heap w)) (execs w ++ xs') (turns w ++ ts') i r' ->
  (forall x, x ∈ xs' -> x_id x = i) -> (forall t, t ∈ ts' -> t_id t = Some i) ->
  (ts' <> [] -> exists x, x ∈ execs w /\ x_id x = i) -> replays st (turns w ++ ts') app' ->
  inv st (mkWorld (net w) hp' app' (<[i := r']> (reqs w)) (execs w ++ xs') (turns w ++ ts')).
Proof.
  intros [Hr Hi Ht Hs Hp] Hreq Hlen Hok Hx' Ht' Hex Hrep. pose proof (lookup_lt_Some _ _ _ Hreq) as Hlt.
  split; simpl; rewrite ?length_insert ?Hlen; [| | |done|done].
  - intros j r0 Hj. destruct (decide (j = i)) as [->|Hne]; [rewrite list_lookup_insert_eq // in Hj; by injection Hj as <-|].
    rewrite list_lookup_insert_ne in Hj; [by apply not_eq_sym|]. apply (req_ok_other _ (execs w) (turns w)); [| |by apply Hr].
    + unfold runs. rewrite filter_app (filter_none _ xs') ?app_nil_r //. apply Forall_forall. intros x ->%Hx'. by apply not_eq_sym.
    + unfold turns_of. rewrite filter_app (filter_none _ ts') ?app_nil_r //. apply Forall_forall. intros t ->%Ht'. congruence.
  - intros x [Hx| ->%Hx']%elem_of_app; [by apply Hi|done].
  - intros t j [Hin|Hin]%elem_of_app Hid.
    + destruct (Ht t j Hin Hid) as (x & ? & ?). exists x. split; [by apply elem_of_app; left|done].
    + rewrite (Ht' t Hin) in Hid. injection Hid as <-. destruct Hex as (x & ? & ?); [by intros ->; apply elem_of_nil in Hin|].
      exists x. split; [by apply elem_of_app; left|done].
Qed.

Lemma dispatch_step_inv st w i p rs rs' b rq ph :
  inv st w -> reqs w !! i = Some (mkRequest rq (Running p) ph) -> heap w !! p = Some rs ->
  Server_dispatch rs rq = Ret (rs', b) ->
  inv st (mkWorld (net w) (<[p := rs']> (heap w)) (app w) (<[i := mkRequest rq (Serving b) ph]> (reqs w))
    (execs w ++ [mkExec i rs b]) (turns w)).
Proof.
  intros HI Hreq Hheap Hd. rewrite -(app_nil_r (turns w)).
  destruct (inv_req _ _ HI i _ Hreq) as [Hc (Hn & Hnt & Hpk & Hph)]. simpl in *.
  eapply handler_inv; [done|exact Hreq|by rewrite length_insert| |by intros x ->%list_elem_of_singleton|by intros t Ht%elem_of_nil|done|].
  - split; [done|]. split; [|done]. exists (mkExec i rs b). rewrite runs_snoc_eq // Hn app_nil_r Hnt.
    split_and!; [done|by exists rs'|apply plays_nil].
  - rewrite app_nil_r. apply HI.
Qed.

Lemma section_step_inv st w i f k rq ph :
  inv st w -> reqs w !! i = Some (mkRequest rq (Serving (BSection f k)) ph) ->
  inv st (mkWorld (net w) (heap w) (f (app w)) (<[i := mkRequest rq (Serving (k (app w))) ph]> (reqs w))
    (execs w) (turns w ++ [mkTurn (Some i) (app w) (f (app w))])).
Proof.
  intros HI Hreq. rewrite -(app_nil_r (execs w)).
  destruct (inv_req _ _ HI i _ Hreq) as [Hc ((x & Hx & Hd & Hpl) & Hph)]. simpl in *.
  eapply handler_inv; [done|exact Hreq|done| |by intros y Hy%elem_of_nil|by intros t ->%list_elem_of_singleton| |].
  - split; [done|]. split; [|done]. exists x. rewrite app_nil_r turns_snoc_eq //. split_and!; [done|done|by apply plays_snoc].
  - intros _. exists x. assert (x ∈ runs i (execs w)) as [? ?]%list_elem_of_filter by (rewrite Hx; by left). done.
  - exact (replays_snoc st (turns w) (mkTurn (Some i) (app w) (f (app w))) (inv_replays _ _ HI)).
Qed.

Lemma return_step_inv st w i v rq ph :
  inv st w -> reqs w !! i = Some (mkRequest rq (Serving (BReturn v)) ph) ->
  inv st (mkWorld (net w) (heap w) (app w) (<[i := mkRequest rq (Returned (Service_reply v)) ph]> (reqs w)) (execs w) (turns w)).
Proof.
  intros HI Hreq. rewrite -(app_nil_r (execs w)) -(app_nil_r (turns w)).
  destruct (inv_req _ _ HI i _ Hreq) as [Hc (Hsv & Hph)]. simpl in *.
  eapply handler_inv; [done|exact Hreq|done| |by intros y Hy%elem_of_nil|by intros t Ht%elem_of_nil|done|].
  - rewrite !app_nil_r. split; [done|]. split; [by exists v|]. by destruct ph as [|t|t|t [rep'|]|rep'|rep']; simpl in *; auto.
  - rewrite app_nil_r. apply HI.
Qed.

Lemma service_step_inv st w f :
  inv st w -> inv st (mkWorld (net w) (heap w) (f (app w)) (reqs w) (execs w) (turns w ++ [mkTurn None (app w) (f (app w))])).
Proof.
  intros [Hr Hi Ht Hs Hp]. split; simpl; [|done| |done|].
  - intros i r Hir. apply (req_ok_other _ (execs w) (turns w)); [done|by apply turns_snoc_ne|by apply Hr].
  - intros t i [Hin| ->%list_elem_of_singleton]%elem_of_app Hid; [by apply (Ht t)|done].
  - exact (replays_snoc st (turns w) (mkTurn None (app w) (f (app w))) Hp).
Qed.

Lemma exec_inv st w ev w' : inv st w -> exec w ev = Ret (Some w') -> inv st w'.
Proof.
  intros Hinv E. destruct ev as [e meth v|e meth v|i c|i|f|op| |p svc]; simpl in E.
  - case_bool_decide; [done|]. apply outcome_bind_ret in E as (rq & Hrq & [= <-]).
    destruct (Call_request_fields _ _ _ _ Hrq) as [<- <-]. by apply (new_request_inv st w _ rq Received v); auto.
  - destruct (bool_decide _ || _); [done|]. apply outcome_bind_ret in E as (rq & Hrq & [= <-]).
    destruct (Call_request_fields _ _ _ _ Hrq) as [<- <-]. by apply (new_request_inv st w _ rq (Replied failure) v); auto.
  - injection E as E. destruct (reqs w !! i) as [r|] eqn:Hr; [|done]. simpl in E.
    destruct (advance (net w) r c) as [[rn r']|] eqn:Ha; [|done]. injection E as <-.
    apply advance_spec in Ha as [Hq Ha]. destruct Hinv as [Hreq Hi Ht Hs Hp]. split; simpl; [| |done| |done].
    + intros j r0 Hj. destruct (decide (j = i)) as [->|Hne].
      * rewrite list_lookup_insert_eq in Hj; [exact (lookup_lt_Some _ _ _ Hr)|]. injection Hj as <-.
        exact (advances_ok _ _ _ _ _ r c rn r' (Hreq i r Hr) Hs Hq Ha).
      * rewrite list_lookup_insert_ne in Hj; [by apply not_eq_sym|]. by apply Hreq.
    + intros x Hx. rewrite length_insert. by apply Hi.
    + intros n p. unfold lookup_server. rewrite (advances_servers _ _ _ _ _ _ Ha). apply Hs.
  - destruct (reqs w !! i) as [[rq [|p|[v|f k]|] ph]|] eqn:Hr; try done.
    + destruct (heap w !! p) as [rs|] eqn:Hh; [|done]. apply outcome_bind_ret in E as ([rs' b] & Hd & [= <-]).
      exact (dispatch_step_inv st w i p rs rs' b rq ph Hinv Hr Hh Hd).
    + injection E as <-. by apply return_step_inv.
    + injection E as <-. by apply section_step_inv.
  - injection E as <-. by apply service_step_inv.
  - destruct (valid_op (heap w) op) eqn:Hv; [|done]. simpl in E. apply outcome_bind_ret in E as (rn & Ho & [= <-]).
    destruct Hinv as [Hreq Hi Ht Hs Hp]. split; simpl; [done|done|done| |done].
    intros n p Hn. destruct (apply_op_servers (heap w) _ _ _ n p Ho Hn) as [Hold| ->]; [by apply (Hs n)|].
    simpl in Hv. by apply bool_decide_eq_true in Hv.
  - injection E as <-. destruct Hinv as [Hreq Hi Ht Hs Hp]. split; simpl; [|done|done| |done].
    + intros i r Hr. rewrite length_app. apply (req_ok_mono (length (heap w))); [lia|]. by apply Hreq.
    + intros n p Hn. rewrite length_app. specialize (Hs n p Hn). lia.
  - injection E as E. destruct (heap w !! p) as [rs|]; [|done]. injection E as <-.
    destruct Hinv as [Hreq Hi Ht Hs Hp]. split; simpl; rewrite ?length_insert; done.
Qed.

Lemma rpc_reachable_inv st w : reachable st w -> inv st w.
Proof.
  revert w. apply rtc_ind_r; [apply start_inv|]. intros w1 w2 _ [ev Hev] IH. exact (exec_inv st w1 ev w2 IH Hev).
Qed.

(** ** At most once *)

Lemma runs_at_most_one st w i : inv st w -> (length (runs i (execs w)) <= 1)%nat.
Proof.
  intros [Hr Hi _ _ _]. destruct (reqs w !! i) as [r|] eqn:E.
  - destruct (Hr i r E) as [_ Hh]. unfold handler_ok, served in Hh. destruct (handler r).
    + destruct Hh as [-> _]. simpl. lia.
    + destruct Hh as [-> _]. simpl. lia.
    + destruct Hh as ((x & -> & _) & _). simpl. lia.
    + destruct Hh as ((u & (x & -> & _) & _) & _). simpl. lia.
  - unfold runs. rewrite filter_none; [|simpl; lia]. apply Forall_forall. intros x Hx <-. specialize (Hi x Hx).
    apply lookup_ge_None in E. lia.
Qed.

Lemma exec_plays st w x : inv st w -> x ∈ execs w ->
  exists r b, reqs w !! x_id x = Some r /\ exec_of r x /\ plays (x_body x) (turns_of (x_id x) (turns w)) b.
Proof.
  intros HI Hx. destruct (lookup_lt_is_Some_2 _ _ (inv_ids _ _ HI x Hx)) as [r Hr].
  assert (x ∈ runs (x_id x) (execs w)) as Hin by by apply list_elem_of_filter.
  destruct (inv_req _ _ HI _ _ Hr) as [_ Hh]. unfold handler_ok, served in Hh. destruct (handler r) as [|p|b|rep].
  - destruct Hh as [Hn _]. rewrite Hn in Hin. by apply elem_of_nil in Hin.
  - destruct Hh as [Hn _]. rewrite Hn in Hin. by apply elem_of_nil in Hin.
  - destruct Hh as ((y & Hy & Hd & Hp) & _). rewrite Hy in Hin. apply list_elem_of_singleton in Hin as <-. by exists r, b.
  - destruct Hh as ((u & (y & Hy & Hd & Hp) & _) & _). rewrite Hy in Hin. apply list_elem_of_singleton in Hin as <-.
    by exists r, (BReturn u).
Qed.

(** C29. However the network loses, delays and reorders messages and whatever
    happens to the servers, no request is dispatched twice.  What runs for a
    request is what its server dispatches it to: the sections that ran for it are the
    first ones of that method's body, in their order, each applied to the
    state it found; a section that is not one of the services' own goroutines
    belongs to a dispatched request.  The state of the services is what the
    sections of all of them, interleaved, make of the initial state. *)
Theorem rpc_executes_at_most_once st w :
  reachable st w ->
  (forall i, (length (runs i (execs w)) <= 1)%nat) /\
  (forall x, x ∈ execs w -> exists r b, reqs w !! x_id x = Some r /\ exec_of r x /\
    plays (x_body x) (turns_of (x_id x) (turns w)) b) /\
  (forall t i, t ∈ turns w -> t_id t = Some i -> exists x, x ∈ execs w /\ x_id x = i) /\
  replays st (turns w) (app w).
Proof.
  intros Hr%rpc_reachable_inv. split_and!; [|intros x Hx; by apply (exec_plays st)|exact (inv_turns _ _ Hr)|exact (inv_replays _ _ Hr)].
  intros i. exact (runs_at_most_one st w i Hr).
Qed.

Lemma dispatch_inv (rs : Server) rq rs' b :
  Server_dispatch (Name := Name) rs rq = Ret (rs', b) ->
  exists (sn mn : string) (svc : Service) (m : Method), splitMethod (svcMeth rq) = Some (sn, mn) /\ services rs !! sn = Some svc /\ methods svc !! mn = Some m /\
    b = func m (default (zero (argsType rq)) (decodeInto (zero (argsType rq)) (args rq))) (zero (replyType m)).
Proof.
  unfold Server_dispatch. destruct (splitMethod _) as [[sn mn]|]; [|done]. simpl.
  destruct (services rs !! sn) as [svc|] eqn:Hs; [|done]. intros E. apply outcome_bind_ret in E as (b1 & E & [= _ <-]).
  unfold Service_dispatch in E. destruct (methods svc !! mn) as [m|] eqn:Hm; [|done].
  injection E as <-. by exists sn, mn, svc, m.
Qed.

Lemma request_args e meth v rq :
  Call_request (Typ := Typ) (Name := Name) e meth v = Ret rq ->
  default (zero (argsType rq)) (decodeInto (zero (argsType rq)) (args rq)) = shipped v.
Proof.
  unfold Call_request. destruct (encodeVal v) as [b ok] eqn:E. destruct ok; [|done]. intros [= <-]. simpl.
  pose proof (decode_encoded v) as Hd. rewrite E in Hd. by rewrite Hd.
Qed.

(** C28. A call that returns true was dispatched exactly once, to the method it
    names of a service of the server, on what gob ships of the arguments the
    caller passed; all sections of the method ran, in their order, and
    the caller gets what gob ships of the reply the method ended with. *)
Theorem call_true_means_executed st w i r rep :
  reachable st w -> reqs w !! i = Some r -> phase r = Replied rep -> rep_ok rep = true ->
  exists x (sn mn : string) (svc : Service) (m : Method) (v u : Val),
    runs i (execs w) = [x] /\
    splitMethod (svcMeth (req r)) = Some (sn, mn) /\ services (x_server x) !! sn = Some svc /\ methods svc !! mn = Some m /\
    Call_request (endname (req r)) (svcMeth (req r)) v = Ret (req r) /\
    plays (func m (shipped v) (zero (replyType m))) (turns_of i (turns w)) (BReturn u) /\
    (typeOf u = replyType m -> (encodeVal u).2 = true -> Call_result rep (zero (replyType m)) = Ret (true, shipped u)).
Proof.
  intros Hr%rpc_reachable_inv Hi Hph Hok. destruct (inv_req _ _ Hr i r Hi) as [[v Hc] Hh]. unfold handler_ok in Hh. rewrite Hph in Hh.
  destruct (handler r) as [|p|b|rep']; simpl in Hh; [naive_solver congruence..|].
  destruct Hh as ((u & (x & Hx & (rs' & Hd) & Hp) & ->) & [->|?]); [|congruence].
  apply dispatch_inv in Hd as (sn & mn & svc & m & Hcut & Hsvc & Hm & Hb).
  rewrite (request_args _ _ _ _ Hc) in Hb. rewrite Hb in Hp. exists x, sn, mn, svc, m, v, u. split_and!; try done.
  intros Ht He. unfold Call_result. simpl. rewrite -Ht. by rewrite (decode_encoded u He).
Qed.

(** ** Killed servers *)

(** [processReq] has chosen the route and not yet decided on the reply. *)
Definition on_route (t : Route) (ph : Phase (Name := Name)) : Prop :=
  ph = Routed t \/ ph = Waiting t \/ exists o, ph = Answered t o.

(** A step in which the server is not added again under its name. *)
Definition step_without_adding (n : Name) (p : nat) w w' : Prop :=
  exists ev, ev <> ENet (OpAddServer n p) /\ exec w ev = Ret (Some w').

Definition failing (t : Route) w (i : nat) : Prop :=
  lookup_server (net w) (r_name t) <> Some (r_server t) /\
  exists r, reqs w !! i = Some r /\ (on_route t (phase r) \/ phase r = Replied failure).

Lemma dead_route rn e (t : Route (Name := Name)) :
  lookup_server rn (r_name t) <> Some (r_server t) -> isServerDead rn e (r_name t) (r_server t) = true.
Proof. intros Hne. unfold isServerDead. by rewrite (bool_decide_true (_ <> _)) // orb_true_r. Qed.

Lemma failing_advances t rn r c rn' ph h :
  lookup_server rn (r_name t) <> Some (r_server t) -> on_route t (phase r) \/ phase r = Replied failure ->
  advances rn r c rn' ph h -> on_route t ph \/ ph = Replied failure.
Proof.
  intros Hne Hr Ha. pose proof (dead_route rn (endname (req r)) t Hne) as Hdead. unfold on_route in *.
  destruct Ha; destruct Hr as [[Hr|[Hr|[o' Hr]]]|Hr];
    match goal with H1 : phase r = _, H2 : phase r = _ |- _ => rewrite H1 in H2; simplify_eq end; eauto 6.
  all: congruence.
Qed.

Lemma failing_exec t w i ev w' :
  failing t w i -> ev <> ENet (OpAddServer (r_name t) (r_server t)) -> exec w ev = Ret (Some w') -> failing t w' i.
Proof.
  intros (Hne & r & Hr & Hph) Hev E. pose proof (lookup_lt_Some _ _ _ Hr) as Hlt.
  destruct ev as [e meth v|e meth v|j c|j|f|op| |p svc]; simpl in E.
  - case_bool_decide; [done|]. apply outcome_bind_ret in E as (rq & _ & [= <-]). split; [done|].
    exists r. by rewrite lookup_app_l.
  - destruct (bool_decide _ || _); [done|]. apply outcome_bind_ret in E as (rq & _ & [= <-]). split; [done|].
    exists r. by rewrite lookup_app_l.
  - injection E as E. destruct (reqs w !! j) as [r0|] eqn:Hj; [|done]. simpl in E.
    destruct (advance (net w) r0 c) as [[rn r']|] eqn:Ha; [|done]. injection E as <-. apply advance_spec in Ha as [_ Ha].
    split; [simpl; unfold lookup_server; rewrite (advances_servers _ _ _ _ _ _ Ha); exact Hne|]. simpl.
    destruct (decide (i = j)) as [->|Hij].
    + assert (r0 = r) as -> by congruence. exists r'. rewrite list_lookup_insert_eq //. split; [done|].
      exact (failing_advances t _ _ _ _ _ _ Hne Hph Ha).
    + exists r. rewrite list_lookup_insert_ne //. by apply not_eq_sym.
  - destruct (reqs w !! j) as [[rq h ph]|] eqn:Hj; [|done]. assert (exists h' hp' app' xs' ts',
      w' = mkWorld (net w) hp' app' (<[j := mkRequest rq h' ph]> (reqs w)) xs' ts') as (h' & hp' & app' & xs' & ts' & ->).
    { destruct h as [|p|[v|f k]|]; try done; [destruct (heap w !! p) as [rs|]; [|done];
        apply outcome_bind_ret in E as ([rs' b] & _ & [= <-])|injection E as <-..]; by do 5 eexists. }
    split; [done|]. simpl. destruct (decide (i = j)) as [->|Hij].
    + rewrite Hj in Hr. injection Hr as <-. eexists. rewrite list_lookup_insert_eq //.
    + exists r. rewrite list_lookup_insert_ne //. by apply not_eq_sym.
  - injection E as <-. split; [done|]. by exists r.
  - destruct (valid_op (heap w) op); [|done]. simpl in E. apply outcome_bind_ret in E as (rn & Ho & [= <-]). split; [|by exists r].
    simpl. intros Hs. destruct (apply_op_servers (heap w) _ _ _ _ _ Ho Hs) as [?| ->]; done.
  - injection E as <-. split; [done|]. by exists r.
  - injection E as E. destruct (heap w !! p) as [rs|]; [|done]. injection E as <-. split; [done|]. by exists r.
Qed.

(** C30. Once a server is deleted or replaced, every call that was on its way to
    it and not yet answered returns false, even if the handler still runs. *)
Theorem killed_server_never_replies w w' i r t :
  reqs w !! i = Some r -> on_route t (phase r) -> lookup_server (net w) (r_name t) <> Some (r_server t) ->
  rtc (step_without_adding (r_name t) (r_server t)) w w' ->
  exists r', reqs w' !! i = Some r' /\ forall rep, phase r' = Replied rep -> rep_ok rep = false.
Proof.
  intros Hr Ht Hne Hsteps. assert (failing t w' i) as (_ & r' & Hr' & Hph).
  { assert (failing t w i) as Hf by (split; [done|]; exists r; auto). clear Hr Ht Hne.
    induction Hsteps as [w|w1 w2 w3 (ev & Hev & E) _ IH]; [done|]. apply IH. exact (failing_exec t w1 i ev w2 Hf Hev E). }
  exists r'. split; [done|]. intros rep Hrep. destruct Hph as [[Hq|[Hq|[o Hq]]]|Hq]; rewrite Hq in Hrep; try done.
  by injection Hrep as <-.
Qed.

(** ** Calls return *)

Fixpoint run w (evs : list Event) : outcome (option World) :=
  match evs with
  | [] => Ret (Some w)
  | ev :: evs => o ← exec w ev; match o with Some w => run w evs | None => Ret None end
  end.

(** Steps of the request itself and of its handler. *)
Definition own (i : nat) (ev : Event) : Prop := ev = EHandler i \/ exists c, ev = EAdvance i c.

Definition returns w (i : nat) : Prop :=
  exists evs w', Forall (own i) evs /\ run w evs = Ret (Some w') /\
    exists r' rep, reqs w' !! i = Some r' /\ phase r' = Replied rep.

Lemma step_returns w i ev w' : own i ev -> exec w ev = Ret (Some w') -> returns w' i -> returns w i.
Proof.
  intros Ho E (evs & w'' & Hf & Hr & Hd). exists (ev :: evs), w''. split_and!; [by constructor| |done].
  simpl. by rewrite E.
Qed.

Lemma advance_returns w i r c rn r' :
  reqs w !! i = Some r -> advance (net w) r c = Some (rn, r') ->
  returns (mkWorld rn (heap w) (app w) (<[i := r']> (reqs w)) (execs w) (turns w)) i -> returns w i.
Proof.
  intros Hr Ha. apply (step_returns w i (EAdvance i c)); [by right; exists c|]. simpl. rewrite Hr. simpl. by rewrite Ha.
Qed.

Lemma replied_returns w i r rep : reqs w !! i = Some r -> phase r = Replied rep -> returns w i.
Proof. intros Hr Hp. exists [], w. split_and!; [constructor|done|]. by exists r, rep. Qed.

Lemma last_step_returns w i r c rn r' rep :
  reqs w !! i = Some r -> advance (net w) r c = Some (rn, r') -> phase r' = Replied rep -> returns w i.
Proof.
  intros Hr Ha Hp. apply (advance_returns w i r c rn r' Hr Ha). apply (replied_returns _ _ r' rep); [|done]. simpl.
  apply list_lookup_insert_eq. exact (lookup_lt_Some _ _ _ Hr).
Qed.

Lemma answered_returns w i rq h t o : reqs w !! i = Some (mkRequest rq h (Answered t o)) -> returns w i.
Proof.
  intros Hr. destruct o as [rep|], (isServerDead (net w) (endname rq) (r_name t) (r_server t)) eqn:Hd.
  all: eapply (last_step_returns w i _ Proceed); [exact Hr|unfold advance; simpl; by rewrite ?Hd|reflexivity].
Qed.

Lemma waiting_returned_returns w i rq rep t :
  reqs w !! i = Some (mkRequest rq (Returned rep) (Waiting t)) -> returns w i.
Proof.
  intros Hr. eapply (advance_returns w i _ Proceed); [exact Hr|reflexivity|].
  apply (answered_returns _ _ rq (Returned rep) t (Some rep)). simpl. apply list_lookup_insert_eq. exact (lookup_lt_Some _ _ _ Hr).
Qed.

(** The sections of the handler run one by one. *)
Lemma waiting_serving_returns w i rq b t :
  reqs w !! i = Some (mkRequest rq (Serving b) (Waiting t)) -> returns w i.
Proof.
  revert w. induction b as [v|f k IH]; intros w Hr; pose proof (lookup_lt_Some _ _ _ Hr) as Hlt.
  - eapply (step_returns w i (EHandler i)); [by left|simpl; rewrite Hr; reflexivity|].
    apply (waiting_returned_returns _ _ rq (Service_reply v) t). simpl. by apply list_lookup_insert_eq.
  - eapply (step_returns w i (EHandler i)); [by left|simpl; rewrite Hr; reflexivity|].
    apply (IH (app w)). simpl. by apply list_lookup_insert_eq.
Qed.

(** Every server knows the method. *)
Definition answerable hp rq : Prop := forall p rs, hp !! p = Some rs -> is_ret (Server_dispatch (Name := Name) rs rq).

Lemma waiting_running_returns w i rq p t :
  reqs w !! i = Some (mkRequest rq (Running p) (Waiting t)) -> (p < length (heap w))%nat -> answerable (heap w) rq ->
  returns w i.
Proof.
  intros Hr Hp Ha. destruct (lookup_lt_is_Some_2 _ _ Hp) as [rs Hrs].
  destruct (proj1 (is_ret_spec _) (Ha p rs Hrs)) as [[rs' b] Hd].
  eapply (step_returns w i (EHandler i)); [by left|simpl; rewrite Hr Hrs Hd; reflexivity|].
  apply (waiting_serving_returns _ _ rq b t). simpl. apply list_lookup_insert_eq. exact (lookup_lt_Some _ _ _ Hr).
Qed.

Lemma routed_returns w i rq h t :
  reqs w !! i = Some (mkRequest rq h (Routed t)) -> (r_server t < length (heap w))%nat -> answerable (heap w) rq ->
  returns w i.
Proof.
  intros Hr Hp Ha. eapply (advance_returns w i _ Proceed); [exact Hr|reflexivity|].
  apply (waiting_running_returns _ _ rq (r_server t) t); [|done|done]. simpl. apply list_lookup_insert_eq.
  exact (lookup_lt_Some _ _ _ Hr).
Qed.

(** Every call can return: from every reachable state, steps of
    its own goroutines bring it to an answer, whatever was lost, disconnected
    or killed, if the servers know the method. *)
Lemma call_returns st w i r :
  reachable st w -> reqs w !! i = Some r -> answerable (heap w) (req r) -> returns w i.
Proof.
  intros Hw%rpc_reachable_inv Hr Ha. destruct (inv_req _ _ Hw i r Hr) as [_ Hh]. unfold handler_ok in Hh.
  destruct r as [rq h ph]. simpl in *. destruct ph as [|t|t|t o|rep|rep].
  - destruct (readEndnameInfo (net w) (endname rq)) as [en sn srv rel lo] eqn:Hi.
    destruct en, sn as [sn|], srv as [srv|].
    1: { eapply (advance_returns w i _ Proceed); [exact Hr|unfold advance; cbn [phase req handler]; rewrite Hi; reflexivity|].
         apply (routed_returns _ _ rq h (mkRoute sn srv rel lo)); [|simpl|done].
         - simpl. apply list_lookup_insert_eq. exact (lookup_lt_Some _ _ _ Hr).
         - apply (inv_servers _ _ Hw sn). unfold readEndnameInfo in Hi. simplify_eq.
           by destruct (connections (net w) !! endname rq) as [[|]|]; simplify_eq/=. }
    all: eapply (advance_returns w i _ Proceed);
      [exact Hr|unfold advance; cbn [phase req handler]; rewrite Hi; reflexivity|];
      eapply (last_step_returns _ i _ Proceed); [simpl; apply list_lookup_insert_eq, (lookup_lt_Some _ _ _ Hr)|reflexivity|reflexivity].
  - apply (routed_returns w i rq h t Hr); [|done]. by destruct h as [|p|b|rep]; naive_solver.
  - destruct h as [|p|b|rep]; [naive_solver| | |].
    + apply (waiting_running_returns w i rq p t Hr); [naive_solver|done].
    + exact (waiting_serving_returns w i rq b t Hr).
    + exact (waiting_returned_returns w i rq rep t Hr).
  - exact (answered_returns w i rq h t o Hr).
  - eapply (last_step_returns w i _ Proceed); [exact Hr|reflexivity|reflexivity].
  - exact (replied_returns w i _ rep Hr eq_refl).
Qed.
End facts.

(** ** A run

    A counter whose method reads and writes in two sections.  Two calls overlap:
    both read before either writes, so the state counts one of them.  Another
    call is under way when the server is deleted. *)

#[local] Program Instance int_codec : Codec unit Z := {|
  typeOf _ := tt;
  zero _ := 0;
  encodeVal v := (pos_bytes (encode v), true);
  decodeInto _ b := decode (bytes_pos b);
  shipped v := v;
|}.
Next Obligation. intros v _. simpl. by rewrite bytes_pos_bytes decode_encode. Qed.

Definition counter_service : Service (Typ := unit) (Val := Z) (St := Z) :=
  MakeService "Counter" [mkReflected "Add" "" 3 true 0 (mkMethod tt
    (fun a _ => BSection id (fun st => BSection (fun _ => st + a) (fun _ => BReturn (st + a)))))].

Definition demo_setup : list (Event (Name := string) (Typ := unit) (Val := Z) (St := Z)) :=
  [EMakeServer; EAddService 0 counter_service; ENet (OpMakeEnd "c"); ENet (OpConnect "c" "s"); ENet (OpAddServer "s" 0);
   ENet (OpEnable "c" true); ECall "c" "Counter.Add" 5].

Definition demo_answered := demo_setup ++
  [ECall "c" "Counter.Add" 7; EAdvance 0 Proceed; EAdvance 0 Proceed; EAdvance 1 Proceed; EAdvance 1 Proceed;
   EHandler 0; EHandler 1; EHandler 0; EHandler 1; EHandler 1; EHandler 0; EHandler 0; EAdvance 0 Proceed; EAdvance 0 Proceed].

Definition demo_killed := demo_setup ++ [EAdvance 0 Proceed; EAdvance 0 Proceed; ENet (OpDeleteServer "s")].

Definition world_of evs : World (Name := string) (Typ := unit) (Val := Z) (St := Z) :=
  match run (start 0) evs with Ret (Some w) => w | _ => start 0 end.

Definition demo_request evs := default (mkRequest (mkReq "c" "" tt []) NotStarted Received) (reqs (world_of evs) !! 0%nat).

Lemma world_of_reachable evs : reachable 0 (world_of evs).
Proof.
  unfold world_of. assert (forall w : World, reachable 0 w -> forall w', run w evs = Ret (Some w') -> reachable 0 w') as Hrun.
  { induction evs as [|ev evs IH]; intros w Hw w' E; simpl in E; [by injection E as <-|].
    destruct (exec w ev) as [[w1|]|] eqn:E1; [|done..]. apply (IH w1); [|done].
    eapply rtc_r; [exact Hw|]. by exists ev. }
  destruct (run (start 0) evs) as [[w|]|] eqn:E; [|apply rtc_refl..]. apply (Hrun (start 0)); [apply rtc_refl|done].
Qed.

Lemma rpc_executes_at_most_once_witness :
  map t_id (turns (world_of demo_answered)) = [Some 0; Some 1; Some 1; Some 0]%nat /\ app (world_of demo_answered) = 5 /\
  (forall i, (length (runs i (execs (world_of demo_answered))) <= 1)%nat) /\
  (forall x, x ∈ execs (world_of demo_answered) -> exists r b, reqs (world_of demo_answered) !! x_id x = Some r /\ exec_of r x /\
    plays (x_body x) (turns_of (x_id x) (turns (world_of demo_answered))) b) /\
  (forall t i, t ∈ turns (world_of demo_answered) -> t_id t = Some i ->
    exists x, x ∈ execs (world_of demo_answered) /\ x_id x = i) /\
  replays 0 (turns (world_of demo_answered)) (app (world_of demo_answered)).
Proof.
  split; [vm_compute; reflexivity|]. split; [vm_compute; reflexivity|].
  exact (rpc_executes_at_most_once 0 (world_of demo_answered) (world_of_reachable _)).
Defined.

Definition demo_reply : replyMsg := mkReply true (encodeVal 5).1.

Lemma call_true_means_executed_witness :
  exists x (sn mn : string) (svc : Service) (m : Method) (v u : Z),
    runs 0 (execs (world_of demo_answered)) = [x] /\
    splitMethod (svcMeth (req (demo_request demo_answered))) = Some (sn, mn) /\
    services (x_server x) !! sn = Some svc /\ methods svc !! mn = Some m /\
    Call_request (endname (req (demo_request demo_answered))) (svcMeth (req (demo_request demo_answered))) v =
      Ret (req (demo_request demo_answered)) /\
    plays (func m (shipped v) (zero (replyType m))) (turns_of 0 (turns (world_of demo_answered))) (BReturn u) /\
    (typeOf u = replyType m -> (encodeVal u).2 = true -> Call_result demo_reply (zero (replyType m)) = Ret (true, shipped u)).
Proof.
  apply (call_true_means_executed 0 (world_of demo_answered) 0 (demo_request demo_answered) demo_reply);
    [apply world_of_reachable|vm_compute; reflexivity..].
Defined.

Lemma killed_server_never_replies_witness :
  exists r', reqs (world_of demo_killed) !! 0%nat = Some r' /\ forall rep, phase r' = Replied rep -> rep_ok rep = false.
Proof.
  apply (killed_server_never_replies (world_of demo_killed) (world_of demo_killed) 0 (demo_request demo_killed) (mkRoute "s" 0 true false));
    [vm_compute; reflexivity| |vm_compute; discriminate|apply rtc_refl].
  right. left. vm_compute. reflexivity.
Defined.

Example killed_call_fails :
  (phase <$> reqs (world_of (demo_killed ++ [EHandler 0; EHandler 0; EHandler 0; EHandler 0; EAdvance 0 Proceed; EAdvance 0 Proceed])) !! 0%nat) = Some (Replied failure).
Proof. vm_compute. reflexivity. Qed.

Lemma demo_answerable : answerable (heap (world_of demo_killed)) (req (demo_request demo_killed)).
Proof.
  intros p rs Hp. assert (heap (world_of demo_killed) = [mkServer (services (AddService MakeServer counter_service)) 0]) as E by (vm_compute; reflexivity).
  rewrite E in Hp. apply list_lookup_singleton_Some in Hp as [-> <-]. exact I.
Qed.

Lemma call_returns_witness : returns (world_of demo_killed) 0.
Proof.
  apply (call_returns 0 (world_of demo_killed) 0 (demo_request demo_killed));
    [apply world_of_reachable|vm_compute; reflexivity|exact demo_answerable].
Defined.
