(* ===== verification/RaftTester.v ===== *)
(** * RaftTester: the checks of the Raft tests, src/src/raft/config.go

    The tester starts the peers on a simulated network, connects and
    disconnects them, reads what they apply and checks it.  This file has the
    part of [config] that decides a test: [connect] and [disconnect], the
    comparison of applied commands ([checkLogs], [applier], [nCommitted]), and
    the checks of terms and leaders.  [t.Fatalf] and [log.Fatalf] end the test:
    [Panic] with the message.  Starting and crashing peers is [ECrash] of
    RaftNet. *)

From S2P Require Import Prelude LabGob RaftLog Persister RaftNode RaftNet LabRpc.
Local Open Scope Z_scope.

(** End names are strings, server names are integers. *)
Notation NetName := (string + Z)%type.
Notation TestNetwork := (Network (Name := NetName)).

(** ** Connecting peers *)

Record Links := mkLinks {
  connected : list bool;            (* whether each server is on the net *)
  endnames : list (list string);    (* nil until the server is started *)
  links_net : TestNetwork;
}.

Definition enableEnd (l : Links) (i j : Z) (yes : bool) (net : TestNetwork) : outcome TestNetwork :=
  row ← slice_get (endnames l) i;
  e ← slice_get row j;
  Ret (Enable net (inl e) yes).

(** [n] is [cfg.n]. *)
Definition connect (n : nat) (l : Links) (i : Z) : outcome Links :=
  conn ← slice_set (connected l) i true;
  net ← for_range n (fun j net => c ← slice_get conn j; if c : bool then enableEnd l i j true net else Ret net) (links_net l);
  net ← for_range n (fun j net => c ← slice_get conn j; if c : bool then enableEnd l j i true net else Ret net) net;
  Ret (mkLinks conn (endnames l) net).

Definition disconnect (n : nat) (l : Links) (i : Z) : outcome Links :=
  conn ← slice_set (connected l) i false;
  net ← for_range n (fun j net => row ← slice_get (endnames l) i;
          if bool_decide (row <> []) then enableEnd l i j false net else Ret net) (links_net l);
  net ← for_range n (fun j net => row ← slice_get (endnames l) j;
          if bool_decide (row <> []) then enableEnd l j i false net else Ret net) net;
  Ret (mkLinks conn (endnames l) net).

(** ** Applied commands *)

Section checks.
Context {Cmd : Type} `{EqDecision Cmd}.
Notation Msg := (ApplyMsg Cmd).

Record Applied := mkApplied {
  logs : list (gmap Z (option Cmd));  (* copy of each server's committed entries *)
  maxIndex : Z;
  tester_lastApplied : list Z;
}.

Definition set_lastApplied (cfg : Applied) (l : list Z) : Applied := mkApplied (logs cfg) (maxIndex cfg) l.

Inductive ErrMsg := NoError | Mismatch (index server other : Z) | OutOfOrder (server index : Z) | SnapshotMismatch (server : Z).

#[export] Instance ErrMsg_eq_dec : EqDecision ErrMsg.
Proof. solve_decision. Defined.

Definition checkLogs (cfg : Applied) (i : Z) (m : Msg) : outcome (ErrMsg * bool * Applied) :=
  let v := am_Command m in
  err ← for_range (length (logs cfg)) (fun j err =>
          log ← slice_get (logs cfg) j;
          Ret (match log !! CommandIndex m with
               | Some old => if bool_decide (old <> v) then Mismatch (CommandIndex m) i j else err
               | None => err
               end)) NoError;
  log ← slice_get (logs cfg) i;
  let prevok := bool_decide (is_Some (log !! (CommandIndex m - 1))) in
  logs' ← slice_set (logs cfg) i (<[CommandIndex m := v]> log);
  Ret (err, prevok, mkApplied logs' (if bool_decide (CommandIndex m > maxIndex cfg) then CommandIndex m else maxIndex cfg) (tester_lastApplied cfg)).

(** [log.Fatalf] on an error message. *)
Definition fatal_if (err : ErrMsg) : outcome unit :=
  match err with
  | NoError => Ret tt
  | Mismatch _ _ _ => Panic "apply error: commit mismatch"
  | OutOfOrder _ _ => Panic "apply error: out of order"
  | SnapshotMismatch _ => Panic "apply error: snapshot doesn't match m.SnapshotIndex"
  end.

(** One message of the loop. *)
Definition applier (cfg : Applied) (i : Z) (m : Msg) : outcome Applied :=
  if am_CommandValid m then
    '(err, prevok, cfg) ← checkLogs cfg i m;
    let err := if bool_decide (CommandIndex m > 1) && negb prevok then OutOfOrder i (CommandIndex m) else err in
    fatal_if err;; Ret cfg
  else Ret cfg.

(** ** Snapshots of the tester *)

(** The values of the snapshot stream: an index and the applied commands. *)
Inductive SnapVal :=
| SnapInt (z : Z)
| SnapLog (xlog : list (option Cmd)).

Definition as_snap_int (v : SnapVal) : option Z := match v with SnapInt z => Some z | _ => None end.
Definition as_snap_log (v : SnapVal) : option (list (option Cmd)) := match v with SnapLog l => Some l | _ => None end.

Context `{!GobStream SnapVal} `{!GobStream (gobval Cmd)}.

(** A nil and an empty snapshot both end the test. *)
Definition ingestSnap (cfg : Applied) (i : Z) (snapshot : bytes) (index : Z) : outcome (ErrMsg * Applied) :=
  if bool_decide (snapshot = []) then Panic "nil snapshot" else
  let d := NewDecoder snapshot in
  let '(lastIncludedIndex, d) := Decode as_snap_int d in
  let '(xlog, d) := Decode as_snap_log d in
  match lastIncludedIndex, xlog with
  | Some lastIncludedIndex, Some xlog =>
      if bool_decide (index <> -1) && bool_decide (index <> lastIncludedIndex) then Ret (SnapshotMismatch i, cfg) else
      log ← for_range (length xlog) (fun j log => x ← slice_get xlog j; Ret (<[j := x]> log)) (∅ : gmap Z (option Cmd));
      logs' ← slice_set (logs cfg) i log;
      last' ← slice_set (tester_lastApplied cfg) i lastIncludedIndex;
      Ret (NoError, mkApplied logs' (maxIndex cfg) last')
  | _, _ => Panic "snapshot decode error"
  end.

Definition SnapShotInterval : Z := 10.

(** A missing entry of the map reads as nil. *)
Definition snapshotBytes (log : gmap Z (option Cmd)) (index : Z) : outcome bytes :=
  xlog ← for_range (Z.to_nat (index + 1)) (fun j xlog => Ret (xlog ++ [default None (log !! j)])) [];
  Ret (Bytes (Encode (Encode NewEncoder (SnapInt index)) (SnapLog xlog))).

(** One message of the loop, with the peer it is applied on. *)
Definition applierSnap (cfg : Applied) (rf : Raft Cmd) (i : Z) (m : Msg) : outcome (Applied * Raft Cmd) :=
  '(err, cfg, rf) ←
    (if SnapshotValid m then
       '(err, cfg) ← ingestSnap cfg i (am_Snapshot m) (SnapshotIndex m);
       Ret (err, cfg, rf)
     else if am_CommandValid m then
       last ← slice_get (tester_lastApplied cfg) i;
       '(err, cfg) ←
         (if bool_decide (CommandIndex m <> last + 1) then Ret (OutOfOrder i (CommandIndex m), cfg)
          else
            '(err, prevok, cfg) ← checkLogs cfg i m;
            Ret (if bool_decide (CommandIndex m > 1) && negb prevok then OutOfOrder i (CommandIndex m) else err, cfg));
       last' ← slice_set (tester_lastApplied cfg) i (CommandIndex m);
       let cfg := set_lastApplied cfg last' in
       if bool_decide (Z.rem (CommandIndex m + 1) SnapShotInterval = 0) then
         log ← slice_get (logs cfg) i;
         snap ← snapshotBytes log (CommandIndex m);
         rf ← Snapshot rf (CommandIndex m) snap;
         Ret (err, cfg, rf)
       else Ret (err, cfg, rf)
     else Ret (NoError, cfg, rf));
  fatal_if err;; Ret (cfg, rf).

(** [cfg.applyErr] stays empty: [log.Fatalf] ends the test before it is set. *)
Definition nCommitted (cfg : Applied) (index : Z) : outcome (Z * option Cmd) :=
  for_range (length (logs cfg)) (fun i '(count, cmd) =>
    log ← slice_get (logs cfg) i;
    match log !! index with
    | Some cmd1 =>
        if bool_decide (count > 0) && bool_decide (cmd <> cmd1) then Panic "committed values do not match"
        else Ret (count + 1, cmd1)
    | None => Ret (count, cmd)
    end) (0, None).
End checks.
Arguments Applied Cmd : clear implicits.

(** ** Terms and leaders *)

Section leaders.
Context {mo : MapOrder} (n : nat) (conn : list bool).

(** The answer of peer [i] when it is asked in iteration [t]. *)
Context (getState : nat -> Z -> Z * bool).

Definition collectLeaders (t : nat) : outcome (gmap Z (list Z)) :=
  for_range n (fun i (leaders : gmap Z (list Z)) =>
    c ← slice_get conn i;
    Ret (if c : bool then
           let '(term, leader) := getState t i in
           if leader : bool then <[term := default [] (leaders !! term) ++ [i]]> leaders else leaders
         else leaders)) ∅.

Definition lastTermWithLeader (leaders : gmap Z (list Z)) : outcome Z :=
  foldl (fun o '(term, ls) =>
    last ← o;
    if bool_decide (len ls > 1) then Panic "term has >1 leaders"
    else Ret (if bool_decide (term > last) then term else last)) (Ret (-1)) (range leaders).

Fixpoint checkOneLeader_from (fuel t : nat) : outcome Z :=
  match fuel with
  | O => Panic "expected one leader, got none"
  | S fuel =>
      leaders ← collectLeaders t;
      last ← lastTermWithLeader leaders;
      if bool_decide (leaders <> ∅) then slice_get (default [] (leaders !! last)) 0
      else checkOneLeader_from fuel (S t)
  end.

Definition checkOneLeader : outcome Z := checkOneLeader_from 10 0.

Definition checkTerms : outcome Z :=
  for_range n (fun i term =>
    c ← slice_get conn i;
    if c : bool then
      let xterm := (getState 0 i).1 in
      if bool_decide (term = -1) then Ret xterm
      else if bool_decide (term <> xterm) then Panic "servers disagree on term" else Ret term
    else Ret term) (-1).

Definition checkNoLeader : outcome unit :=
  for_range n (fun i _ =>
    c ← slice_get conn i;
    if (c : bool) && (getState 0 i).2 then Panic "expected no leader among connected servers" else Ret tt) tt.
End leaders.
