(* ===== verification/RaftTesterFacts.v ===== *)
(** * RaftTesterFacts: the checks of the Raft tests mean what they say

    A message travels exactly between connected servers; the comparison of
    applied commands finds exactly the disagreements; and the check for a
    single leader never finds two in one term on a cluster of Raft peers. *)

From S2P Require Import Prelude LabGob RaftLog Persister RaftNode RaftNet RaftElection LabRpc RaftTester.
Local Open Scope Z_scope.

(** ** Links *)

(** A loop that enables or disables some ends. *)
Lemma enable_loop (n : nat) (f : Z -> TestNetwork -> outcome TestNetwork) (upd : Z -> option NetName) (yes : bool) (net : TestNetwork) :
  (forall j (net : TestNetwork), 0 <= j < Z.of_nat n -> f j net = Ret (match upd j with Some e => Enable net e yes | None => net end)) ->
  exists net', for_range n f net = Ret net' /\
    forall e, ((exists j, 0 <= j < Z.of_nat n /\ upd j = Some e) -> lookup_enabled net' e = yes) /\
      ((forall j, 0 <= j < Z.of_nat n -> upd j <> Some e) -> lookup_enabled net' e = lookup_enabled net e).
Proof.
  intros Hf.
  destruct (for_range_inv (fun k net' => forall e, ((exists j, 0 <= j < k /\ upd j = Some e) -> lookup_enabled net' e = yes) /\
      ((forall j, 0 <= j < k -> upd j <> Some e) -> lookup_enabled net' e = lookup_enabled net e)) f n net) as (net' & Hr & Hi).
  - intros e. split; [intros (j & ? & _); lia|done].
  - intros j s Hj IH. rewrite (Hf j s Hj). eexists. split; [done|]. intros e. destruct (IH e) as [IH1 IH2].
    assert (forall x, lookup_enabled (Enable s x yes) e = if bool_decide (x = e) then yes else lookup_enabled s e) as He.
    { intros x. unfold lookup_enabled, Enable. simpl. case_bool_decide; [subst; by rewrite lookup_insert_eq|by rewrite lookup_insert_ne]. }
    split.
    + intros (k & Hk & Hu). destruct (decide (k = j)) as [->|Hne].
      * rewrite Hu He bool_decide_true //.
      * assert (lookup_enabled s e = yes) as Hs by (apply IH1; exists k; split; [lia|done]).
        destruct (upd j); [rewrite He; by case_bool_decide|done].
    + intros Hno. destruct (upd j) as [x|] eqn:Hu.
      * rewrite He bool_decide_false; [intros ->; apply (Hno j); [lia|done]|]. apply IH2. intros k Hk. apply Hno. lia.
      * apply IH2. intros k Hk. apply Hno. lia.
  - exists net'. by split.
Qed.

Definition is_connected (l : Links) (i : Z) : bool := default false (connected l !! Z.to_nat i).
Definition end_name (l : Links) (i j : Z) : option string := endnames l !! Z.to_nat i ≫= fun row => row !! Z.to_nat j.

(** Server [i] has its row of end names. *)
Definition started (n : nat) (l : Links) (i : Z) : Prop := exists row, endnames l !! Z.to_nat i = Some row /\ length row = n.

(** [n] servers; the started ones have end names of their own. *)
Record links_wf (n : nat) (l : Links) : Prop := {
  lw_connected : length (connected l) = n;
  lw_rows : length (endnames l) = n;
  lw_row : forall i row, endnames l !! i = Some row -> row = [] \/ length row = n;
  lw_started : forall i, 0 <= i < Z.of_nat n -> is_connected l i = true -> started n l i;
  lw_distinct : forall i j i' j' e, 0 <= i -> 0 <= j -> 0 <= i' -> 0 <= j' ->
    end_name l i j = Some e -> end_name l i' j' = Some e -> i = i' /\ j = j';
}.

(** The end from [i] to [j] is enabled exactly if both are connected. *)
Definition links_ok (n : nat) (l : Links) : Prop :=
  forall i j e, 0 <= i < Z.of_nat n -> 0 <= j < Z.of_nat n -> end_name l i j = Some e ->
    lookup_enabled (links_net l) (inl e) = is_connected l i && is_connected l j.

(** What enabling the end called [o] does, if there is one. *)
Definition enable_opt (net : TestNetwork) (yes : bool) (o : option string) : TestNetwork :=
  match o with Some e => Enable net (inl e) yes | None => net end.

Section links.
Context (n : nat) (l : Links).
Hypothesis Hwf : links_wf n l.

Lemma enableEnd_started i j yes net : 0 <= i < Z.of_nat n -> 0 <= j < Z.of_nat n -> started n l i ->
  enableEnd l i j yes net = Ret (enable_opt net yes (end_name l i j)).
Proof.
  intros Hi Hj (row & Hl & Hlen). destruct (lookup_lt_is_Some_2 row (Z.to_nat j)) as [e He]; [lia|].
  unfold end_name, enableEnd. rewrite Hl (proj2 (slice_get_ret (endnames l) i row)); [split; [lia|done]|]. simpl.
  rewrite He (proj2 (slice_get_ret row j e)); [split; [lia|done]|]. done.
Qed.

Lemma row_cases i : 0 <= i < Z.of_nat n ->
  exists row, slice_get (endnames l) i = Ret row /\
    ((row = [] /\ forall j, end_name l i j = None) \/ (row <> [] /\ started n l i)).
Proof.
  intros Hi. pose proof (lw_rows _ _ Hwf) as Hr. destruct (lookup_lt_is_Some_2 (endnames l) (Z.to_nat i)) as [row Hrow]; [lia|].
  exists row. split; [apply slice_get_ret; split; [lia|done]|]. destruct (lw_row _ _ Hwf _ _ Hrow) as [->|Hlen].
  - left. split; [done|]. intros j. unfold end_name. by rewrite Hrow.
  - right. split; [intros ->; simpl in Hlen; lia|]. by exists row.
Qed.

Lemma set_connected i b : 0 <= i < Z.of_nat n ->
  slice_set (connected l) i b = Ret (<[Z.to_nat i := b]> (connected l)).
Proof. intros Hi. unfold slice_set. rewrite bool_decide_true //. unfold len. rewrite (lw_connected _ _ Hwf). lia. Qed.

Lemma connected_get (c : list bool) j : length c = n -> 0 <= j < Z.of_nat n -> slice_get c j = Ret (default false (c !! Z.to_nat j)).
Proof.
  intros Hc Hj. destruct (lookup_lt_is_Some_2 c (Z.to_nat j)) as [b Hb]; [lia|]. rewrite Hb. apply slice_get_ret. split; [lia|done].
Qed.

Lemma connected_insert i j b : 0 <= i < Z.of_nat n -> 0 <= j ->
  default false (<[Z.to_nat i := b]> (connected l) !! Z.to_nat j) = if bool_decide (j = i) then b else is_connected l j.
Proof.
  intros Hi Hj. pose proof (lw_connected _ _ Hwf) as Hc. case_bool_decide as E.
  - subst j. rewrite list_lookup_insert_eq //. lia.
  - rewrite list_lookup_insert_ne //. lia.
Qed.

(** The two loops of [connect] and [disconnect]: over the ends of [i] and over
    the ends to [i], for the servers that satisfy [p]. *)
Lemma link_loops (p : Z -> bool) yes i net f1 f2 :
  0 <= i < Z.of_nat n ->
  (forall j net, 0 <= j < Z.of_nat n -> f1 j net = Ret (if p j then enable_opt net yes (end_name l i j) else net)) ->
  (forall j net, 0 <= j < Z.of_nat n -> f2 j net = Ret (if p j then enable_opt net yes (end_name l j i) else net)) ->
  exists net1 net2, for_range n f1 net = Ret net1 /\ for_range n f2 net1 = Ret net2 /\
    forall a b e, 0 <= a < Z.of_nat n -> 0 <= b < Z.of_nat n -> end_name l a b = Some e ->
      lookup_enabled net2 (inl e) =
        if bool_decide (a = i) && p b || bool_decide (b = i) && p a then yes else lookup_enabled net (inl e).
Proof.
  intros Hi Hf1 Hf2. pose (out j := if p j then inl (B := Z) <$> end_name l i j else None).
  pose (inc j := if p j then inl (B := Z) <$> end_name l j i else None).
  destruct (enable_loop n f1 out yes net) as (net1 & Hr1 & H1).
  { intros j net' Hj. rewrite (Hf1 j net' Hj). unfold out. destruct (p j); [|done]. by destruct (end_name l i j). }
  destruct (enable_loop n f2 inc yes net1) as (net2 & Hr2 & H2).
  { intros j net' Hj. rewrite (Hf2 j net' Hj). unfold inc. destruct (p j); [|done]. by destruct (end_name l j i). }
  exists net1, net2. split_and!; [done|done|]. intros a b e Ha Hb He.
  assert (forall x y, 0 <= x < Z.of_nat n -> 0 <= y < Z.of_nat n -> inl (B := Z) <$> end_name l x y = Some (inl e) <-> x = a /\ y = b) as Hinj.
  { intros x y Hx Hy. split; [|by intros [-> ->]; rewrite He]. intros E. destruct (end_name l x y) as [e'|] eqn:E'; [|done].
    injection E as ->. apply (lw_distinct _ _ Hwf x y a b e); [lia..|done|done]. }
  assert (forall j, 0 <= j < Z.of_nat n -> out j = Some (inl e) -> a = i /\ j = b /\ p b = true) as Hout.
  { intros j Hj. unfold out. destruct (p j) eqn:Ej; [|done]. intros [-> ->]%Hinj; done. }
  assert (forall j, 0 <= j < Z.of_nat n -> inc j = Some (inl e) -> b = i /\ j = a /\ p a = true) as Hinc.
  { intros j Hj. unfold inc. destruct (p j) eqn:Ej; [|done]. intros [-> ->]%Hinj; done. }
  destruct (bool_decide (b = i) && p a) eqn:Eb.
  { rewrite orb_true_r. apply andb_true_iff in Eb as [Eb%bool_decide_eq_true Ea]. apply H2. exists a. split; [done|].
    unfold inc. rewrite Ea. by apply Hinj. }
  rewrite orb_false_r (proj2 (H2 (inl e))).
  { intros j Hj (Ei & _ & Hd)%(Hinc j Hj). by rewrite bool_decide_true // Hd in Eb. }
  destruct (bool_decide (a = i) && p b) eqn:Ea.
  - apply andb_true_iff in Ea as [Ea%bool_decide_eq_true Ed]. apply H1. exists b. split; [done|].
    unfold out. rewrite Ed. by apply Hinj.
  - apply H1. intros j Hj (Ei & _ & Hd)%(Hout j Hj). by rewrite bool_decide_true // Hd in Ea.
Qed.

Lemma links_wf_net conn net : length conn = n ->
  (forall j, 0 <= j < Z.of_nat n -> default false (conn !! Z.to_nat j) = true -> started n l j) ->
  links_wf n (mkLinks conn (endnames l) net).
Proof. intros Hc Hs. destruct Hwf as [_ H2 H3 _ H4]. by constructor. Qed.

Lemma connect_total i : 0 <= i < Z.of_nat n -> started n l i -> links_ok n l ->
  exists l', connect n l i = Ret l' /\ links_wf n l' /\ links_ok n l' /\
    forall j, 0 <= j -> is_connected l' j = if bool_decide (j = i) then true else is_connected l j.
Proof.
  intros Hi Hst Hok. unfold connect. rewrite (set_connected i true Hi). cbn [mbind outcome_bind].
  set (conn := <[Z.to_nat i := true]> (connected l)).
  assert (length conn = n) as Hc by (unfold conn; rewrite length_insert; apply (lw_connected _ _ Hwf)).
  assert (forall j, 0 <= j < Z.of_nat n -> default false (conn !! Z.to_nat j) = true -> started n l j) as Hs.
  { intros j Hj. unfold conn. rewrite connected_insert; [done|lia|]. case_bool_decide; [by subst|]. by apply (lw_started _ _ Hwf). }
  destruct (link_loops (fun j => default false (conn !! Z.to_nat j)) true i (links_net l)
    (fun j net => c ← slice_get conn j; if c : bool then enableEnd l i j true net else Ret net)
    (fun j net => c ← slice_get conn j; if c : bool then enableEnd l j i true net else Ret net) Hi) as (net1 & net2 & -> & H2 & He).
  { intros j net Hj. rewrite (connected_get conn j Hc Hj). cbn [mbind outcome_bind]. case_match; [by apply enableEnd_started|done]. }
  { intros j net Hj. rewrite (connected_get conn j Hc Hj). cbn [mbind outcome_bind]. case_match; [apply enableEnd_started; auto|done]. }
  cbn [mbind outcome_bind]. rewrite H2. cbn [mbind outcome_bind]. eexists. split_and!; [done|by apply links_wf_net| |].
  - intros a b e Ha Hb Hab. cbn [links_net]. rewrite (He a b e Ha Hb Hab) (Hok a b e Ha Hb Hab).
    unfold is_connected. cbn [connected]. unfold conn. rewrite !connected_insert; [done|lia|done|lia|].
    unfold is_connected. repeat case_bool_decide; simpl; destruct (default false (connected l !! Z.to_nat a)), (default false (connected l !! Z.to_nat b)); done.
  - intros j Hj. unfold is_connected. cbn [connected]. unfold conn. by rewrite connected_insert.
Qed.

Lemma disconnect_total i : 0 <= i < Z.of_nat n -> links_ok n l ->
  exists l', disconnect n l i = Ret l' /\ links_wf n l' /\ links_ok n l' /\
    forall j, 0 <= j -> is_connected l' j = if bool_decide (j = i) then false else is_connected l j.
Proof.
  intros Hi Hok. unfold disconnect. rewrite (set_connected i false Hi). cbn [mbind outcome_bind].
  set (conn := <[Z.to_nat i := false]> (connected l)).
  destruct (link_loops (fun _ => true) false i (links_net l)
    (fun j net => row ← slice_get (endnames l) i; if bool_decide (row <> []) then enableEnd l i j false net else Ret net)
    (fun j net => row ← slice_get (endnames l) j; if bool_decide (row <> []) then enableEnd l j i false net else Ret net) Hi)
    as (net1 & net2 & -> & H2 & He).
  { intros j net Hj. destruct (row_cases i Hi) as (row & -> & [[-> Hno]|[Hne Hst]]); cbn [mbind outcome_bind].
    - by rewrite Hno. - rewrite bool_decide_true //. by apply enableEnd_started. }
  { intros j net Hj. destruct (row_cases j Hj) as (row & -> & [[-> Hno]|[Hne Hst]]); cbn [mbind outcome_bind].
    - by rewrite Hno. - rewrite bool_decide_true //. by apply enableEnd_started. }
  cbn [mbind outcome_bind]. rewrite H2. cbn [mbind outcome_bind]. eexists. split_and!; [done| | |].
  - apply links_wf_net; [unfold conn; rewrite length_insert; apply (lw_connected _ _ Hwf)|].
    intros j Hj. unfold conn. rewrite connected_insert; [done|lia|]. case_bool_decide; [done|]. by apply (lw_started _ _ Hwf).
  - intros a b e Ha Hb Hab. cbn [links_net]. rewrite (He a b e Ha Hb Hab) (Hok a b e Ha Hb Hab).
    unfold is_connected. cbn [connected]. unfold conn. rewrite !connected_insert; [done|lia|done|lia|].
    unfold is_connected. repeat case_bool_decide; simpl; destruct (default false (connected l !! Z.to_nat a)), (default false (connected l !! Z.to_nat b)); done.
  - intros j Hj. unfold is_connected. cbn [connected]. unfold conn. by rewrite connected_insert.
Qed.

Lemma connect_ends i l' : connect n l i = Ret l' -> endnames l' = endnames l.
Proof. unfold connect. intros E. by inv_ret. Qed.

Lemma disconnect_endnames i l' : disconnect n l i = Ret l' -> endnames l' = endnames l.
Proof. unfold disconnect. intros E. by inv_ret. Qed.
End links.

Inductive LinkOp := Connects (i : Z) | Disconnects (i : Z).

Definition link_op (n : nat) (l : Links) (op : LinkOp) : outcome Links :=
  match op with Connects i => connect n l i | Disconnects i => disconnect n l i end.

Fixpoint link_ops (n : nat) (l : Links) (ops : list LinkOp) : outcome Links :=
  match ops with
  | [] => Ret l
  | op :: ops => l ← link_op n l op; link_ops n l ops
  end.

Definition link_op_valid (n : nat) (l : Links) (op : LinkOp) : Prop :=
  match op with Connects i => 0 <= i < Z.of_nat n /\ started n l i | Disconnects i => 0 <= i < Z.of_nat n end.

(** Whether server [i] is connected after [ops], if it was [b] before. *)
Definition connected_after (ops : list LinkOp) (i : Z) (b : bool) : bool :=
  foldl (fun b op => match op with
                     | Connects k => if bool_decide (i = k) then true else b
                     | Disconnects k => if bool_decide (i = k) then false else b
                     end) b ops.

(** A request over a disabled end fails without reaching a server. *)
Lemma disabled_fails (Typ Val St : Type) (rn : TestNetwork) (r : Req (Name := NetName) (Typ := Typ) (Val := Val) (St := St)) :
  phase r = Received -> lookup_enabled rn (endname (req r)) = false ->
  advance rn r Proceed = Some (rn, mkRequest (req r) (handler r) (Delayed failure)).
Proof. intros Hp He. unfold advance. rewrite Hp. unfold readEndnameInfo. simpl. by rewrite He. Qed.

(** Connecting and disconnecting servers never fails, and in the end the
    servers are connected that the last operation on them connected.  Exactly
    the ends between two connected servers are enabled, and a request over any
    other end fails without reaching a server. *)
Lemma disconnected_servers_cannot_talk (n : nat) (l : Links) (ops : list LinkOp) :
  links_wf n l -> links_ok n l -> Forall (link_op_valid n l) ops ->
  exists l', link_ops n l ops = Ret l' /\ links_ok n l' /\
    (forall i, 0 <= i -> is_connected l' i = connected_after ops i (is_connected l i)) /\
    forall i j e (Typ Val St : Type) (r : Req (Name := NetName) (Typ := Typ) (Val := Val) (St := St)),
      0 <= i < Z.of_nat n -> 0 <= j < Z.of_nat n -> end_name l' i j = Some e ->
      is_connected l' i && is_connected l' j = false -> phase r = Received -> endname (req r) = inl e ->
      advance (links_net l') r Proceed = Some (links_net l', mkRequest (req r) (handler r) (Delayed failure)).
Proof.
  intros Hwf Hok. revert l Hwf Hok. induction ops as [|op ops IH]; intros l Hwf Hok Hops.
  - exists l. split_and!; [done|done|done|]. intros i j e Typ Val St r Hi Hj He Hc Hp Hr. apply disabled_fails; [done|].
    rewrite Hr. by rewrite (Hok i j e Hi Hj He).
  - apply Forall_cons in Hops as [Hop Hops]. assert (exists l1, link_op n l op = Ret l1 /\ links_wf n l1 /\ links_ok n l1 /\
      forall i, 0 <= i -> is_connected l1 i = connected_after [op] i (is_connected l i)) as (l1 & E & Hwf1 & Hok1 & Hc1).
    { destruct op as [i|i]; [exact (connect_total n l Hwf i (proj1 Hop) (proj2 Hop) Hok)|exact (disconnect_total n l Hwf i Hop Hok)]. }
    assert (endnames l1 = endnames l) as En by (destruct op as [i|i]; [by apply (connect_ends n l i)|by apply (disconnect_endnames n l i)]).
    destruct (IH l1 Hwf1 Hok1) as (l' & E' & Hok' & Hc' & Hrest).
    { eapply Forall_impl; [exact Hops|]. intros op'. unfold link_op_valid, started. by rewrite En. }
    exists l'. split_and!; [simpl; by rewrite E|done| |done]. intros i Hi. rewrite (Hc' i Hi) (Hc1 i Hi). done.
Qed.

(** ** Applied commands *)

Section applied.
Context {Cmd : Type} `{EqDecision Cmd}.
Notation Msg := (ApplyMsg Cmd).
Implicit Types (cfg : Applied Cmd) (m : Msg) (msgs : list (Z * Msg)).

(** No server has another command at the index of [m]. *)
Definition no_conflict cfg m : Prop :=
  forall j log old, logs cfg !! j = Some log -> log !! CommandIndex m = Some old -> old = am_Command m.

Lemma checkLogs_spec cfg i m :
  0 <= i < len (logs cfg) ->
  exists err log, logs cfg !! Z.to_nat i = Some log /\ (err = NoError <-> no_conflict cfg m) /\
    checkLogs cfg i m = Ret (err, bool_decide (is_Some (log !! (CommandIndex m - 1))),
      mkApplied (<[Z.to_nat i := <[CommandIndex m := am_Command m]> log]> (logs cfg))
        (if bool_decide (CommandIndex m > maxIndex cfg) then CommandIndex m else maxIndex cfg) (tester_lastApplied cfg)).
Proof.
  intros Hi. unfold len in Hi. unfold checkLogs.
  destruct (for_range_inv (fun k err => err = NoError <-> forall j log old, Z.of_nat j < k -> logs cfg !! j = Some log ->
      log !! CommandIndex m = Some old -> old = am_Command m)
    (fun j err => log ← slice_get (logs cfg) j;
       Ret (match log !! CommandIndex m with
            | Some old => if bool_decide (old <> am_Command m) then Mismatch (CommandIndex m) i j else err
            | None => err
            end)) (length (logs cfg)) NoError) as (err & -> & He).
  - split; [|done]. intros _ j log old Hj. lia.
  - intros k err Hk IH. destruct (lookup_lt_is_Some_2 (logs cfg) (Z.to_nat k)) as [log Hlog]; [lia|].
    assert (slice_get (logs cfg) k = Ret log) as -> by (apply slice_get_nat; [lia|done]). cbn [mbind outcome_bind].
    eexists. split; [done|]. destruct (log !! CommandIndex m) as [old|] eqn:Eo; [case_bool_decide as Hne|].
    + split; [done|]. intros Hall. exfalso. apply Hne. apply (Hall (Z.to_nat k) log old); [lia|done|done].
    + rewrite IH. split; intros Hall j log' old' Hj Hl Hl'.
      * destruct (decide (Z.of_nat j = k)) as [E|]; [|apply (Hall j log'); [lia|done|done]].
        subst k. rewrite Nat2Z.id in Hlog. congruence.
      * apply (Hall j log'); [lia|done|done].
    + rewrite IH. split; intros Hall j log' old' Hj Hl Hl'.
      * destruct (decide (Z.of_nat j = k)) as [E|]; [|apply (Hall j log'); [lia|done|done]].
        subst k. rewrite Nat2Z.id in Hlog. congruence.
      * apply (Hall j log'); [lia|done|done].
  - destruct (lookup_lt_is_Some_2 (logs cfg) (Z.to_nat i)) as [log Hlog]; [lia|]. exists err, log. split_and!; [done| |].
    + rewrite He. unfold no_conflict. split; intros Hall j log' old.
      * intros Hl. apply (Hall j log' old); [apply lookup_lt_Some in Hl; lia|done].
      * intros _. exact (Hall j log' old).
    + cbn [mbind outcome_bind]. assert (slice_get (logs cfg) i = Ret log) as -> by (apply slice_get_nat; [lia|done]).
      cbn [mbind outcome_bind]. unfold slice_set. rewrite (bool_decide_true (0 <= i < len (logs cfg))); [unfold len; lia|]. done.
Qed.

(** The messages the appliers have seen are what the logs hold. *)
Definition recorded (k : nat) msgs cfg : Prop :=
  length (logs cfg) = k /\
  forall i log idx v, logs cfg !! i = Some log ->
    log !! idx = Some v <-> exists m, (Z.of_nat i, m) ∈ msgs /\ am_CommandValid m = true /\ CommandIndex m = idx /\ am_Command m = v.

(** No applied command at this index differs, and the server applied the
    command before it. *)
Definition fits msgs (i : Z) m : Prop :=
  am_CommandValid m = true ->
  (forall j m', (j, m') ∈ msgs -> am_CommandValid m' = true -> CommandIndex m' = CommandIndex m -> am_Command m' = am_Command m) /\
  (CommandIndex m > 1 -> exists m', (i, m') ∈ msgs /\ am_CommandValid m' = true /\ CommandIndex m' = CommandIndex m - 1).

Lemma applier_spec k msgs cfg i m :
  recorded k msgs cfg -> Forall (fun im => 0 <= im.1 < Z.of_nat k) msgs -> 0 <= i < Z.of_nat k ->
  (fits msgs i m /\ exists cfg', applier cfg i m = Ret cfg' /\ recorded k (msgs ++ [(i, m)]) cfg') \/
  (~ fits msgs i m /\ exists e, applier cfg i m = Panic e).
Proof.
  intros [Hlen Hrec] Hin Hi. unfold applier. destruct (am_CommandValid m) eqn:Hv; cycle 1.
  { left. split; [by intros E; rewrite E in Hv|]. exists cfg. split; [done|]. split; [done|].
    intros a log idx v Hl. rewrite (Hrec a log idx v Hl). setoid_rewrite elem_of_app. setoid_rewrite list_elem_of_singleton. split.
    - intros (m' & Hm' & Hrest). exists m'. auto.
    - intros (m' & [Hm'|E] & Hv' & Hrest); [by exists m'|]. injection E as _ ->. congruence. }
  destruct (checkLogs_spec cfg i m) as (err & log & Hlog & Herr & ->); [unfold len; lia|]. cbn [mbind outcome_bind].
  assert (no_conflict cfg m <-> forall j m', (j, m') ∈ msgs -> am_CommandValid m' = true -> CommandIndex m' = CommandIndex m ->
    am_Command m' = am_Command m) as Hconf.
  { split.
    - intros Hnc j m' Hm' Hv' Hidx. pose proof (proj1 (Forall_forall _ _) Hin _ Hm') as Hj. simpl in Hj.
      destruct (lookup_lt_is_Some_2 (logs cfg) (Z.to_nat j)) as [lj Hlj]; [lia|]. apply (Hnc (Z.to_nat j) lj); [done|].
      apply (Hrec (Z.to_nat j) lj (CommandIndex m) (am_Command m') Hlj). exists m'. rewrite Z2Nat.id; [lia|]. done.
    - intros Hall j lj old Hlj (m' & Hm' & Hv' & Hidx & <-)%(Hrec j lj _ _ Hlj). by apply (Hall (Z.of_nat j)). }
  assert (bool_decide (is_Some (log !! (CommandIndex m - 1))) = true <->
    exists m', (i, m') ∈ msgs /\ am_CommandValid m' = true /\ CommandIndex m' = CommandIndex m - 1) as Hprev.
  { rewrite bool_decide_eq_true. split.
    - intros [v (m' & Hm' & Hv' & Hidx & _)%(Hrec _ _ _ _ Hlog)]. rewrite Z2Nat.id in Hm'; [lia|]. by exists m'.
    - intros (m' & Hm' & Hv' & Hidx). exists (am_Command m'). apply (Hrec _ _ _ _ Hlog). exists m'. rewrite Z2Nat.id; [lia|]. done. }
  destruct (bool_decide (CommandIndex m > 1) && negb (bool_decide (is_Some (log !! (CommandIndex m - 1))))) eqn:Eo.
  { right. split; [|by eauto]. intros [_ Ho]%(fun H => H Hv). apply andb_true_iff in Eo as [Hgt%bool_decide_eq_true Eo%negb_true_iff].
    rewrite (proj2 Hprev (Ho Hgt)) in Eo. done. }
  destruct (decide (err = NoError)) as [->|Hne].
  2: { right. split; [|destruct err; [done|by eauto..]]. intros [Hc _]%(fun H => H Hv). by apply Hne, Herr, Hconf. }
  left. assert (no_conflict cfg m) as Hc by by apply Herr. split.
  { intros _. split; [by apply Hconf|]. intros Hgt. apply Hprev. rewrite bool_decide_true // in Eo. by apply negb_false_iff in Eo. }
  eexists. split; [done|]. split; [simpl; by rewrite length_insert|]. intros a la idx v Hla. cbn [logs] in Hla.
  setoid_rewrite elem_of_app. setoid_rewrite list_elem_of_singleton.
  apply list_lookup_insert_Some in Hla as [(<- & <- & _)|(Hne & Hla)].
  - rewrite lookup_insert_Some (Hrec _ _ idx v Hlog). rewrite Z2Nat.id; [lia|]. split.
    + intros [[<- <-]|[Hne (m' & Hm' & Hrest)]]; [exists m; auto|exists m'; auto].
    + intros (m' & [Hm'|E'] & Hv' & Hidx & Hcmd); [|injection E' as ->; by left].
      destruct (decide (CommandIndex m = idx)) as [E|Hni]; [left|right; split; [exact Hni|by exists m']].
      split; [done|]. rewrite -Hcmd. symmetry. apply (proj1 Hconf Hc i); [done|done|congruence].
  - rewrite (Hrec _ _ idx v Hla). split.
    + intros (m' & Hm' & Hrest). exists m'. auto.
    + intros (m' & [Hm'|E] & Hrest); [by exists m'|]. injection E as Ha _. lia.
Qed.

(** A test: the messages all servers apply, in the order in which the
    appliers take [cfg.mu]. *)
Definition init_applied (n : nat) : Applied Cmd := mkApplied (replicate n ∅) 0 (replicate n 0).

Definition run_applier (n : nat) msgs : outcome (Applied Cmd) :=
  foldl (fun o '(i, m) => cfg ← o; applier cfg i m) (Ret (init_applied n)) msgs.

Definition well_applied msgs : Prop :=
  forall pre i m post, msgs = pre ++ (i, m) :: post -> fits pre i m.

Lemma well_applied_snoc msgs i m : well_applied (msgs ++ [(i, m)]) <-> well_applied msgs /\ fits msgs i m.
Proof.
  split.
  - intros Hw. split; [|by apply (Hw msgs i m [])]. intros pre j m' post ->. apply (Hw pre j m' (post ++ [(i, m)])).
    by rewrite -app_assoc.
  - intros [Hw Hf] pre j m' post E. destruct post as [|im post _] using rev_ind.
    + apply app_inj_tail in E as [-> E]. by injection E as -> ->.
    + rewrite app_comm_cons app_assoc in E. apply app_inj_tail in E as [-> _]. exact (Hw pre j m' post eq_refl).
Qed.

Lemma init_recorded n : recorded n [] (init_applied n).
Proof.
  split; [apply length_replicate|]. intros i log idx v [-> _]%lookup_replicate. rewrite lookup_empty. split; [done|].
  intros (m & Hm & _). by apply not_elem_of_nil in Hm.
Qed.

Lemma run_applier_spec n msgs :
  Forall (fun im => 0 <= im.1 < Z.of_nat n) msgs ->
  (well_applied msgs /\ exists cfg, run_applier n msgs = Ret cfg /\ recorded n msgs cfg) \/
  (~ well_applied msgs /\ exists e, run_applier n msgs = Panic e).
Proof.
  unfold run_applier. induction msgs as [|[i m] msgs IH] using rev_ind; intros Hin.
  - left. split; [|eexists; split; [done|apply init_recorded]]. intros pre i m post E. by destruct pre.
  - apply Forall_app in Hin as [Hin [Hi _]%Forall_cons]. simpl in Hi. rewrite foldl_app well_applied_snoc. simpl.
    destruct (IH Hin) as [(Hw & cfg & -> & Hrec)|(Hw & e & ->)].
    + destruct (applier_spec n msgs cfg i m Hrec Hin Hi) as [[Hf Hr]|[Hf Hr]]; [by left|]. right. split; [by intros [_ ?]|done].
    + right. split; [by intros [? _]|by exists e].
Qed.
Lemma well_applied_agree msgs i j m m' :
  well_applied msgs -> (i, m) ∈ msgs -> (j, m') ∈ msgs -> am_CommandValid m = true -> am_CommandValid m' = true ->
  CommandIndex m = CommandIndex m' -> am_Command m = am_Command m'.
Proof.
  induction msgs as [|[k mk] msgs IH] using rev_ind; [intros _ Hm; by apply not_elem_of_nil in Hm|].
  rewrite well_applied_snoc !elem_of_app !list_elem_of_singleton. intros [Hw Hf] Hm Hm' Hv Hv' Hidx.
  destruct Hm as [Hm|[= -> ->]], Hm' as [Hm'|[= -> ->]]; [by apply IH| | |done].
  - by apply (proj1 (Hf Hv') i).
  - symmetry. by apply (proj1 (Hf Hv) j).
Qed.

Definition applied_at msgs (idx : Z) (i : nat) : bool :=
  existsb (fun '(j, m) => bool_decide (j = Z.of_nat i) && am_CommandValid m && bool_decide (CommandIndex m = idx)) msgs.

(** The servers that applied a command at [idx]. *)
Definition appliers_of msgs (n : nat) (idx : Z) : list nat := filter (fun i => applied_at msgs idx i) (seq 0 n).

Lemma appliers_of_S msgs k idx : appliers_of msgs (S k) idx = appliers_of msgs k idx ++ (if applied_at msgs idx k then [k] else []).
Proof. unfold appliers_of. rewrite seq_S filter_app. simpl. rewrite filter_cons filter_nil. by destruct (applied_at msgs idx k). Qed.

Lemma applied_at_true msgs idx i :
  applied_at msgs idx i = true <-> exists m, (Z.of_nat i, m) ∈ msgs /\ am_CommandValid m = true /\ CommandIndex m = idx.
Proof.
  unfold applied_at. rewrite existsb_exists. setoid_rewrite <-list_elem_of_In. split.
  - intros ([j m] & Hm & [[->%bool_decide_eq_true Hv]%andb_true_iff Hi%bool_decide_eq_true]%andb_true_iff). by exists m.
  - intros (m & Hm & Hv & Hi). exists (Z.of_nat i, m). split; [done|]. rewrite Hv !bool_decide_true //.
Qed.

Lemma nCommitted_spec n msgs cfg idx :
  recorded n msgs cfg -> well_applied msgs ->
  exists cmd, nCommitted cfg idx = Ret (len (appliers_of msgs n idx), cmd) /\
    forall i m, 0 <= i < Z.of_nat n -> (i, m) ∈ msgs -> am_CommandValid m = true -> CommandIndex m = idx -> am_Command m = cmd.
Proof.
  intros [Hlen Hrec] Hw. unfold nCommitted. rewrite Hlen.
  match goal with |- context [for_range n ?f _] => destruct (for_range_inv (fun k '(count, cmd) => 0 <= k /\ count = len (appliers_of msgs (Z.to_nat k) idx) /\
    forall i m, 0 <= i < k -> (i, m) ∈ msgs -> am_CommandValid m = true -> CommandIndex m = idx -> am_Command m = cmd) f n (0, None)) as ([count cmd] & -> & _ & -> & Hc) end.
  - split_and!; [done|done|]. intros i m Hi. lia.
  - intros k [count cmd] Hk (_ & -> & Hc). destruct (lookup_lt_is_Some_2 (logs cfg) (Z.to_nat k)) as [log Hlog]; [lia|].
    assert (slice_get (logs cfg) k = Ret log) as -> by (apply slice_get_nat; [lia|done]). cbn [mbind outcome_bind].
    pose proof (fun v => Hrec _ _ idx v Hlog) as Hl. pose proof (applied_at_true msgs idx (Z.to_nat k)) as Ha.
    replace (Z.to_nat (k + 1)) with (S (Z.to_nat k)) by lia. rewrite appliers_of_S.
    destruct (log !! idx) as [v|] eqn:Ev.
    + destruct (proj1 (Hl v) eq_refl) as (m & Hm & Hv & Hidx & Hcmd). rewrite (proj2 Ha); [by exists m|].
      assert (bool_decide (len (appliers_of msgs (Z.to_nat k) idx) > 0) && bool_decide (cmd <> v) = false) as ->.
      { apply andb_false_iff. destruct (appliers_of msgs (Z.to_nat k) idx) as [|a l] eqn:Ea; [by left|]. right.
        apply bool_decide_eq_false. intros Hne. apply Hne.
        assert (a ∈ appliers_of msgs (Z.to_nat k) idx) as Hin by (rewrite Ea; left).
        unfold appliers_of in Hin. apply list_elem_of_filter in Hin as [(m' & Hm' & Hv' & Hi)%Is_true_true%applied_at_true Hseq%elem_of_seq].
        rewrite -(Hc (Z.of_nat a) m'); [lia|done..|]. rewrite -Hcmd. apply (well_applied_agree msgs (Z.of_nat a) (Z.of_nat (Z.to_nat k))); [done..|congruence]. }
      eexists. split; [done|]. cbn beta iota. split_and!; [lia|rewrite /len length_app; simpl; lia|].
      intros i m' Hi Hm' Hv' Hidx'. rewrite -Hcmd. apply (well_applied_agree msgs i (Z.of_nat (Z.to_nat k))); [done..|congruence].
    + assert (applied_at msgs idx (Z.to_nat k) = false) as ->.
      { apply not_true_is_false. intros (m & Hm & Hv & Hi)%Ha. enough (None = Some (am_Command m)) by done. apply Hl. by exists m. }
      eexists. split; [done|]. cbn beta iota. split_and!; [lia|by rewrite app_nil_r|].
      intros i m Hi Hm Hv Hidx. destruct (decide (i = k)) as [->|]; [|apply (Hc i m); [lia|done..]].
      enough (None = Some (am_Command m)) by done. apply Hl. exists m. rewrite Z2Nat.id; [lia|]. done.
  - exists cmd. rewrite Nat2Z.id. split; [done|exact Hc].
Qed.

(** C37. The appliers end a test exactly when two servers apply different
    commands at one index or a server leaves an index out.  Otherwise
    [nCommitted] never fails: it counts the servers that applied a command at
    the index and returns the command they all applied. *)
Theorem appliers_find_disagreements n msgs :
  Forall (fun im => 0 <= im.1 < Z.of_nat n) msgs ->
  (~ well_applied msgs <-> exists e, run_applier n msgs = Panic e) /\
  (well_applied msgs -> exists cfg, run_applier n msgs = Ret cfg /\
     forall idx, exists cmd, nCommitted cfg idx = Ret (len (appliers_of msgs n idx), cmd) /\
       forall i m, (i, m) ∈ msgs -> am_CommandValid m = true -> CommandIndex m = idx -> am_Command m = cmd).
Proof.
  intros Hin. destruct (run_applier_spec n msgs Hin) as [(Hw & cfg & E & Hrec)|(Hw & e & E)].
  - split; [rewrite E; naive_solver|]. intros _. exists cfg. split; [done|]. intros idx.
    destruct (nCommitted_spec n msgs cfg idx Hrec Hw) as (cmd & En & Hc). exists cmd. split; [done|].
    intros i m Hm. apply (Hc i m); [|done]. exact (proj1 (Forall_forall _ _) Hin _ Hm).
  - split; [rewrite E; naive_solver|done].
Qed.
End applied.

(** ** Witnesses *)

Definition two_links : Links := mkLinks [false; false] [["a"; "b"]; ["c"; "d"]]%string MakeNetwork.

Lemma two_links_wf : links_wf 2 two_links.
Proof.
  constructor; [done|done| | |].
  - intros [|[|i]] row E; simpl in E; try done; right; by injection E as <-.
  - intros i Hi. unfold is_connected. simpl. by destruct (Z.to_nat i) as [|[|?]].
  - intros i j i' j' e Hi Hj Hi' Hj'. unfold end_name. simpl.
    destruct (Z.to_nat i) as [|[|?]] eqn:Ei; simpl; try done; destruct (Z.to_nat j) as [|[|?]] eqn:Ej; simpl; try done; intros [= <-];
    destruct (Z.to_nat i') as [|[|?]] eqn:Ei'; simpl; try done; destruct (Z.to_nat j') as [|[|?]] eqn:Ej'; simpl; try done; intros _; lia.
Qed.

Lemma two_links_ok : links_ok 2 two_links.
Proof. intros i j e Hi Hj _. unfold is_connected. simpl. by destruct (Z.to_nat i) as [|[|?]]. Qed.

Lemma disconnected_servers_cannot_talk_witness :
  exists l', link_ops 2 two_links [Connects 0; Connects 1; Disconnects 1] = Ret l' /\ links_ok 2 l' /\
    is_connected l' 0 = true /\ is_connected l' 1 = false.
Proof.
  destruct (disconnected_servers_cannot_talk 2 two_links [Connects 0; Connects 1; Disconnects 1]) as (l' & E & Hok & Hc & _).
  - exact two_links_wf.
  - exact two_links_ok.
  - repeat constructor; try lia; eexists; split; reflexivity.
  - exists l'. split; [exact E|]. split; [exact Hok|]. rewrite !Hc; [lia|lia|]. split; reflexivity.
Defined.

Definition command (cmd idx : Z) : ApplyMsg Z := mkApplyMsg Z true (Some cmd) idx false [] 0 0.

Definition agreeing : list (Z * ApplyMsg Z) := [(0, command 5 1); (1, command 5 1); (0, command 6 2)].

Lemma appliers_find_disagreements_witness :
  (exists e, run_applier 2 (agreeing ++ [(1, command 7 2)]) = Panic e) /\ ~ well_applied (agreeing ++ [(1, command 7 2)]).
Proof.
  assert (exists e, run_applier 2 (agreeing ++ [(1, command 7 2)]) = Panic e) as H by (eexists; vm_compute; reflexivity).
  split; [exact H|]. apply (proj1 (appliers_find_disagreements 2 (agreeing ++ [(1, command 7 2)]) ltac:(repeat constructor; simpl; lia))). exact H.
Defined.

Example agreeing_counts : (cfg ← run_applier 2 agreeing; nCommitted cfg 1) = Ret (2, Some 5).
Proof. vm_compute. reflexivity. Qed.
