(* ===== verification/RaftTesterChecks.v ===== *)
(** * RaftTesterChecks: the single-leader check and the tester's snapshots

    On a cluster of Raft peers the single-leader check of the tests never finds
    two leaders in one term, and what it returns is a connected leader of the
    latest term with one.  A snapshot that [applierSnap] takes of a server's
    applied commands restores them on every server that installs it. *)

From S2P Require Import Prelude LabGob LabRpc RaftLog Persister RaftNode RaftNet RaftElection RaftTester RaftTesterFacts RaftScenarios.
Local Open Scope Z_scope.

(** ** Leaders *)

Section leader_facts.
Context {mo : MapOrder} (n : nat) (conn : list bool) (getState : nat -> Z -> Z * bool).
Hypothesis Hconn : length conn = n.

(** Server [x] is connected and says it leads term [T]. *)
Definition leads (t : nat) (T x : Z) : Prop :=
  0 <= x < Z.of_nat n /\ conn !! Z.to_nat x = Some true /\ getState t x = (T, true).

Lemma collectLeaders_spec t : exists leaders : gmap Z (list Z), collectLeaders n conn getState t = Ret leaders /\
  forall T, NoDup (default [] (leaders !! T)) /\ leaders !! T <> Some [] /\
    forall x, x ∈ default [] (leaders !! T) <-> leads t T x.
Proof.
  unfold collectLeaders.
  match goal with |- context [for_range n ?f ?a] => destruct (for_range_inv (fun k (leaders : gmap Z (list Z)) => forall T,
    NoDup (default [] (leaders !! T)) /\ leaders !! T <> Some [] /\
    forall x, x ∈ default [] (leaders !! T) <-> x < k /\ leads t T x) f n a) as (leaders & -> & Hl) end.
  - intros T. rewrite lookup_empty. split_and!; [constructor|done|]. intros x. simpl. rewrite elem_of_nil. unfold leads. lia.
  - intros k leaders Hk IH. destruct (lookup_lt_is_Some_2 conn (Z.to_nat k)) as [c Hc]; [lia|].
    assert (slice_get conn k = Ret c) as -> by (apply slice_get_nat; [lia|done]). cbn [mbind outcome_bind].
    eexists. split; [done|]. intros T. destruct (IH T) as (IHn & IHe & IHx).
    assert (forall x, (x < k + 1 /\ leads t T x) <-> (x < k /\ leads t T x) \/ (x = k /\ c = true /\ getState t k = (T, true))) as Hx.
    { intros x. destruct (decide (x = k)) as [->|].
      - unfold leads. rewrite Hc. naive_solver lia.
      - naive_solver lia. }
    destruct c; [destruct (getState t k) as [term [|]] eqn:Eg|].
    + destruct (decide (term = T)) as [->|Hne].
      * rewrite lookup_insert_eq. cbn [default from_option id]. split_and!.
        -- apply NoDup_app. split_and!; [done| |apply NoDup_singleton]. intros x Hin ->%list_elem_of_singleton.
           apply IHx in Hin. lia.
        -- by destruct (default [] (leaders !! T)).
        -- intros x. rewrite elem_of_app list_elem_of_singleton IHx Hx. naive_solver.
      * rewrite lookup_insert_ne //. split_and!; [done..|]. intros x. rewrite IHx Hx. naive_solver.
    + split_and!; [done..|]. intros x. rewrite IHx Hx. naive_solver.
    + split_and!; [done..|]. intros x. rewrite IHx Hx. naive_solver.
  - exists leaders. split; [done|]. intros T. destruct (Hl T) as (H1 & H2 & H3). split_and!; [done..|].
    intros x. rewrite H3. unfold leads. naive_solver lia.
Qed.

Lemma last_term_loop (l : list (Z * list Z)) (a : Z) :
  Forall (fun p => len p.2 <= 1) l ->
  exists b, foldl (fun o '(term, ls) => last ← o;
      if bool_decide (len ls > 1) then Panic "term has >1 leaders" else Ret (if bool_decide (term > last) then term else last)) (Ret a) l = Ret b /\
    a <= b /\ (b = a \/ b ∈ l.*1) /\ Forall (fun p => p.1 <= b) l.
Proof.
  revert a. induction l as [|[T ls] l IH]; intros a Hl.
  - exists a. split_and!; [done|lia|by left|constructor].
  - apply Forall_cons in Hl as [H1 Hl]. cbn [snd] in H1. cbn [foldl mbind outcome_bind].
    rewrite bool_decide_false; [lia|]. destruct (IH (if bool_decide (T > a) then T else a) Hl) as (b & -> & Hge & Hin & Hmax).
    exists b. rewrite fmap_cons elem_of_cons Forall_cons. cbn [fst]. case_bool_decide; split_and!; naive_solver lia.
Qed.

Lemma lastTermWithLeader_spec (leaders : gmap Z (list Z)) :
  (forall T ls, leaders !! T = Some ls -> 0 <= T /\ len ls <= 1) ->
  exists last, lastTermWithLeader leaders = Ret last /\ (leaders <> ∅ -> is_Some (leaders !! last)) /\
    forall T ls, leaders !! T = Some ls -> T <= last.
Proof.
  intros Hl. assert (forall T ls, (T, ls) ∈ range leaders <-> leaders !! T = Some ls) as Hr.
  { intros T ls. rewrite range_perm. apply elem_of_map_to_list. }
  destruct (last_term_loop (range leaders) (-1)) as (b & Hb & _ & Hin & Hmax).
  { apply Forall_forall. intros [T ls] Hin%Hr. apply (Hl T ls Hin). }
  rewrite Forall_forall in Hmax. exists b. split; [exact Hb|]. split.
  - intros (T & ls & HT)%map_choose. destruct Hin as [->|Hin].
    + pose proof (Hmax (T, ls) (proj2 (Hr T ls) HT)) as Hle. simpl in Hle. destruct (Hl T ls HT). lia.
    + apply list_elem_of_fmap in Hin as ([T' ls'] & -> & Hin%Hr). by exists ls'.
  - intros T ls HT. exact (Hmax (T, ls) (proj2 (Hr T ls) HT)).
Qed.

(** What the peers may answer: terms are not negative, and no two peers asked
    in one iteration lead the same term. *)
Definition one_leader_answers : Prop :=
  forall t T x, leads t T x -> 0 <= T /\ forall y, leads t T y -> x = y.

Lemma iteration_spec t : one_leader_answers ->
  exists leaders last, collectLeaders n conn getState t = Ret leaders /\ lastTermWithLeader leaders = Ret last /\
    (leaders = ∅ /\ (forall T x, ~ leads t T x) \/
     leaders <> ∅ /\ exists x, slice_get (default [] (leaders !! last)) 0 = Ret x /\ leads t last x /\
       forall T y, leads t T y -> y = x \/ T < last).
Proof.
  intros Hone. destruct (collectLeaders_spec t) as (leaders & -> & Hl).
  destruct (lastTermWithLeader_spec leaders) as (last & Hlast & Hin & Hmax).
  { intros T ls HT. destruct (Hl T) as (Hnd & Hne & Hx). rewrite HT in Hnd, Hne, Hx. simpl in *.
    destruct ls as [|x [|y ls]]; [done| |].
    - destruct (Hone t T x); [apply Hx; left|]. by unfold len.
    - apply NoDup_cons in Hnd as [Hni _]. destruct Hni. destruct (Hone t T x) as [_ Hu]; [apply Hx; left|].
      rewrite (Hu y); [apply Hx; right; left|]. left. }
  exists leaders, last. split_and!; [done|done|]. destruct (decide (leaders = ∅)) as [->|Hne].
  - left. split; [done|]. intros T x Hx%(proj2 (proj2 (Hl T))). rewrite lookup_empty in Hx. by apply not_elem_of_nil in Hx.
  - right. split; [done|]. destruct (Hin Hne) as [ls Hls]. destruct (Hl last) as (_ & Hls' & Hx). rewrite Hls in Hls', Hx. rewrite Hls. simpl in *.
    destruct ls as [|x ls]; [done|]. assert (leads t last x) as Hlx by (apply Hx; left). exists x. split_and!; [done|done|].
    intros T y Hy. destruct (leaders !! T) as [ys|] eqn:ET.
    + specialize (Hmax T ys ET). destruct (decide (T = last)) as [->|]; [left|right; lia].
      symmetry. by apply (Hone t last x).
    + destruct (Hl T) as (_ & _ & Hy'). rewrite ET in Hy'. apply Hy' in Hy. by apply not_elem_of_nil in Hy.
Qed.

Lemma checkOneLeader_from_spec fuel t : one_leader_answers ->
  (checkOneLeader_from n conn getState fuel t = Panic "expected one leader, got none" /\
     forall k T x, (t <= k < t + fuel)%nat -> ~ leads k T x) \/
  exists k T x, (t <= k < t + fuel)%nat /\ checkOneLeader_from n conn getState fuel t = Ret x /\ leads k T x /\
    forall T' y, leads k T' y -> y = x \/ T' < T.
Proof.
  intros Hone. revert t. induction fuel as [|fuel IH]; intros t; simpl.
  { left. split; [done|]. intros k T x Hk. lia. }
  destruct (iteration_spec t Hone) as (leaders & last & -> & Hlast & Hcase). cbn [mbind outcome_bind]. rewrite Hlast.
  cbn [mbind outcome_bind]. destruct Hcase as [[-> Hno]|(Hne & x & Hx & Hlx & Hbest)].
  - rewrite bool_decide_false; [by intros ?|]. destruct (IH (S t)) as [[-> Hnone]|(k & T & x & Hk & -> & Hrest)].
    + left. split; [done|]. intros k T x Hk. destruct (decide (k = t)) as [->|]; [apply Hno|apply Hnone; lia].
    + right. exists k, T, x. split; [lia|]. by split.
  - rewrite bool_decide_true //. right. exists t, last, x. split_and!; [lia|lia|done|done|done].
Qed.
End leader_facts.

Section leader_check.
Context {mo : MapOrder} {Cmd : Type} `{!GobStream (gobval Cmd)}.

(** [cfg.rafts[i].GetState()] in a state of the cluster. *)
Definition peerState (s : Cluster Cmd) (i : Z) : Z * bool :=
  match nodes s !! Z.to_nat i with Some rf => GetState rf | None => (0, false) end.

Lemma peer_leads (s : Cluster Cmd) i T : peerState s i = (T, true) -> is_leader s (Z.to_nat i) T.
Proof.
  unfold peerState, GetState. destruct (nodes s !! Z.to_nat i) as [rf|] eqn:E; [|done].
  intros [= HT Hr%bool_decide_eq_true]. exists rf. done.
Qed.

(** [checkOneLeader] on a running cluster: [polls t i] is the cluster when
    server [i] is asked in iteration [t], one after the other while the cluster
    runs on.  It never finds two leaders in a term.  It fails only if no
    connected server said it leads in any of the ten iterations; otherwise it
    returns a connected leader, and every other connected leader of that
    iteration has an earlier term. *)
Lemma checkOneLeader_finds_one (n : nat) (conn : list bool) (polls : nat -> Z -> Cluster Cmd) :
  length conn = n ->
  (forall t i, reachable n (polls t i)) ->
  (forall t i j, 0 <= i <= j -> rtc step_rel (polls t i) (polls t j)) ->
  let getState t i := peerState (polls t i) i in
  (checkOneLeader n conn getState = Panic "expected one leader, got none" /\
     forall t T x, (t < 10)%nat -> ~ leads n conn getState t T x) \/
  exists t T x, (t < 10)%nat /\ checkOneLeader n conn getState = Ret x /\ leads n conn getState t T x /\
    forall T' y, leads n conn getState t T' y -> y = x \/ T' < T.
Proof.
  intros Hc Hr Hrun getState.
  assert (one_leader_answers n conn getState) as Hone.
  { intros t T x (Hx & _ & Hlx%peer_leads). split.
    - destruct Hlx as (rf & Hrf & _ & <-). apply (reachable_terms n (polls t x) (Z.to_nat x)); [apply Hr|done].
    - intros y (Hy & _ & Hly%peer_leads). apply Z2Nat.inj; [lia|lia|]. destruct (decide (x <= y)).
      + apply (one_leader_per_term n (polls t x) (polls t y) _ _ T); [apply Hr|apply Hrun; lia|done|done].
      + symmetry. apply (one_leader_per_term n (polls t y) (polls t x) _ _ T); [apply Hr|apply Hrun; lia|done|done]. }
  destruct (checkOneLeader_from_spec n conn getState Hc 10 0 Hone) as [[E Hno]|(k & T & x & Hk & E & Hrest)].
  - left. split; [exact E|]. intros t T x Ht. apply Hno. lia.
  - right. exists k, T, x. split_and!; [lia|exact E|apply Hrest|apply Hrest].
Qed.
End leader_check.

(** ** Snapshots of the tester *)

Section snapshots.
Context {Cmd : Type} `{EqDecision Cmd} `{!GobStream (SnapVal (Cmd := Cmd))} `{!GobStream (gobval Cmd)}.
Implicit Types (log : gmap Z (option Cmd)).

(** The commands up to [k], with nil where there is none. *)
Definition prefix_log log (k : Z) : list (option Cmd) := (fun j => default None (log !! j)) <$> seqZ 0 (k + 1).

Lemma snapshotBytes_eq log k : 0 <= k -> snapshotBytes log k = Ret (stream_bytes [SnapInt k; SnapLog (prefix_log log k)]).
Proof.
  intros Hk. unfold snapshotBytes.
  match goal with |- context [for_range ?n ?f ?a] => destruct (for_range_inv (fun j xlog => 0 <= j /\
    xlog = (fun j => default None (log !! j)) <$> seqZ 0 j) f n a) as (xlog & -> & _ & ->) end.
  - done.
  - intros j xlog Hj [_ ->]. eexists. split; [done|]. split; [lia|]. rewrite seqZ_app; [lia|lia|]. by rewrite fmap_app.
  - by rewrite Z2Nat.id; [lia|].
Qed.

Lemma map_of_list_loop (xlog : list (option Cmd)) :
  exists log, for_range (length xlog) (fun j log => x ← slice_get xlog j; Ret (<[j := x]> log)) (∅ : gmap Z (option Cmd)) = Ret log /\
    forall x, log !! x = if bool_decide (0 <= x) then xlog !! Z.to_nat x else None.
Proof.
  match goal with |- context [for_range ?n ?f ?a] => destruct (for_range_inv (fun j log => forall x,
    log !! x = if bool_decide (0 <= x < j) then xlog !! Z.to_nat x else None) f n a) as (log & -> & Hl) end.
  - intros x. rewrite bool_decide_false //. lia.
  - intros j log Hj IH. destruct (lookup_lt_is_Some_2 xlog (Z.to_nat j)) as [c Hc]; [lia|].
    assert (slice_get xlog j = Ret c) as -> by (apply slice_get_nat; [lia|done]). cbn [mbind outcome_bind].
    eexists. split; [done|]. intros x. destruct (decide (x = j)) as [->|Hne].
    + rewrite lookup_insert_eq bool_decide_true //. lia.
    + rewrite lookup_insert_ne; [congruence|]. rewrite IH. repeat case_bool_decide; [done|lia|lia|done].
  - exists log. split; [done|]. intros x. rewrite Hl. repeat case_bool_decide; [done|lia| |done].
    symmetry. apply lookup_ge_None_2. lia.
Qed.

(** What [applierSnap] hands to [Snapshot] restores the server: any server
    that later receives that snapshot accepts it, and from then on has exactly
    the commands that had been applied up to its index, the last of which is
    its last applied one.  The other servers' logs and the peer are not touched. *)
Lemma tester_snapshot_restores (cfg : Applied Cmd) (rf : Raft Cmd) (i : Z) (k : Z) log :
  0 <= k -> 0 <= i < len (logs cfg) -> length (tester_lastApplied cfg) = length (logs cfg) ->
  exists snap, snapshotBytes log k = Ret snap /\
    exists cfg', applierSnap cfg rf i (mkApplyMsg Cmd false None 0 true snap 0 k) = Ret (cfg', rf) /\
      tester_lastApplied cfg' !! Z.to_nat i = Some k /\
      (forall j, j <> Z.to_nat i -> logs cfg' !! j = logs cfg !! j) /\
      exists log', logs cfg' !! Z.to_nat i = Some log' /\
        forall x, log' !! x = if bool_decide (0 <= x <= k) then Some (default None (log !! x)) else None.
Proof.
  intros Hk Hi Hlen. unfold len in Hi. rewrite (snapshotBytes_eq log k Hk). eexists. split; [done|].
  unfold applierSnap. cbn [SnapshotValid am_Snapshot SnapshotIndex]. unfold ingestSnap.
  rewrite bool_decide_false; [by apply stream_nonempty|]. unfold NewDecoder. rewrite stream_roundtrip. cbn [Decode as_snap_int as_snap_log].
  rewrite (bool_decide_false (k <> k)); [by intros ?|]. rewrite andb_false_r.
  destruct (map_of_list_loop (prefix_log log k)) as (log' & -> & Hl). cbn [mbind outcome_bind].
  assert (forall A (l : list A) x, length l = length (logs cfg) -> slice_set l i x = Ret (<[Z.to_nat i := x]> l)) as Hset.
  { intros A l x Hx. apply slice_set_ret. split; [unfold len; lia|done]. }
  rewrite !Hset //. cbn [mbind outcome_bind fatal_if]. eexists. split; [done|]. cbn [logs tester_lastApplied].
  split_and!.
  - apply list_lookup_insert_eq. lia.
  - intros j Hj. apply list_lookup_insert_ne. congruence.
  - exists log'. split; [apply list_lookup_insert_eq; lia|]. intros x. rewrite Hl. unfold prefix_log. rewrite list_lookup_fmap.
    case_bool_decide as Hx; [|rewrite bool_decide_false //; lia]. case_bool_decide.
    + rewrite lookup_seqZ_lt; [lia|]. simpl. do 3 f_equal. lia.
    + by rewrite lookup_seqZ_ge; [lia|].
Qed.
End snapshots.

(** ** Witnesses *)

Lemma checkOneLeader_finds_one_witness :
  checkOneLeader 3 [true; true; true] (fun _ i => peerState (after 3 elect0) i) = Ret 0.
Proof.
  destruct (checkOneLeader_finds_one 3 [true; true; true] (fun _ _ => after 3 elect0)) as [[E _]|(t & T & x & Ht & E & _)].
  - reflexivity.
  - intros t i. by_schedule.
  - intros t i j _. apply rtc_refl.
  - vm_compute in E. discriminate E.
  - vm_compute in E. injection E as <-. vm_compute. reflexivity.
Defined.

#[export] Instance SnapVal_eq_dec {Cmd} `{EqDecision Cmd} : EqDecision (SnapVal (Cmd := Cmd)).
Proof. solve_decision. Defined.

#[export] Program Instance SnapVal_countable {Cmd} `{Countable Cmd} : Countable (SnapVal (Cmd := Cmd)) :=
  inj_countable' (fun v => match v with SnapInt z => inl z | SnapLog l => inr l end)
    (fun s => match s with inl z => SnapInt z | inr l => SnapLog l end) _.
Next Obligation. by intros ? ? ? []. Qed.

Definition two_commands : gmap Z (option Z) := {[1 := Some 10; 2 := Some 20]}.

Lemma tester_snapshot_restores_witness :
  exists snap, snapshotBytes two_commands 2 = Ret snap /\
    exists cfg', applierSnap (init_applied 2) (Make 2 1 MakePersister) 1 (mkApplyMsg Z false None 0 true snap 0 2) = Ret (cfg', Make 2 1 MakePersister) /\
      (logs cfg' !! 1%nat ≫= fun log => log !! 2) = Some (Some 20).
Proof.
  destruct (tester_snapshot_restores (init_applied 2) (Make 2 1 MakePersister) 1 2 two_commands) as (snap & E & cfg' & E' & _ & _ & log' & Hlog & Hx);
    [lia|vm_compute; split; congruence|reflexivity|].
  exists snap. split; [exact E|]. exists cfg'. split; [exact E'|]. change 1%nat with (Z.to_nat 1). rewrite Hlog. simpl. rewrite Hx. reflexivity.
Defined.
