(* ===== verification/RaftTesterStart.v ===== *)
(** * RaftTesterStart: starting and crashing peers, src/src/raft/config.go

    [crash1] takes a server off the network and keeps what it persisted,
    [start1] makes a new instance from it.  While an instance runs,
    [cfg.saved[i]] is the very object the instance persists to; the copy that
    [crash1] makes separates the two.  The theorem shows that a crash and a
    restart are the step [ECrash] of RaftNet, the one the safety theorems of
    Raft are about, and that the old instance is cut off from the network. *)

From S2P Require Import Prelude LabGob LabRpc RaftLog Persister RaftNode RaftNet RaftNodeFacts RaftElection RaftTester RaftTesterFacts RaftTesterChecks RaftScenarios.
Local Open Scope Z_scope.

Section tester.
Context {Cmd : Type} `{EqDecision Cmd} `{!GobStream (SnapVal (Cmd := Cmd))} `{!GobStream (gobval Cmd)}.

Record TestConfig := mkTestConfig {
  cfg_links : Links;
  saved : list (option Persister);
  rafts : list (option (Raft Cmd));
  cfg_applied : Applied Cmd;
  old_rafts : list (Raft Cmd);     (* killed instances, no longer referenced by [cfg] *)
}.

Definition set_links st l := mkTestConfig l (saved st) (rafts st) (cfg_applied st) (old_rafts st).
Definition set_saved st v := mkTestConfig (cfg_links st) v (rafts st) (cfg_applied st) (old_rafts st).
Definition set_rafts st v := mkTestConfig (cfg_links st) (saved st) v (cfg_applied st) (old_rafts st).
Definition set_applied st v := mkTestConfig (cfg_links st) (saved st) (rafts st) v (old_rafts st).
Definition set_net (l : Links) net := mkLinks (connected l) (endnames l) net.

(** [*cfg.saved[i]]: the persister of the running instance, if there is one. *)
Definition saved_at st (i : Z) : outcome (option Persister) :=
  rf ← slice_get (rafts st) i;
  ps ← slice_get (saved st) i;
  Ret (match rf with Some rf => Some (persister rf) | None => ps end).

Definition crash1 (n : nat) st (i : Z) : outcome TestConfig :=
  l ← disconnect n (cfg_links st) i;
  let st := set_links st (set_net l (DeleteServer (links_net l) (inr i))) in
  ps ← saved_at st i;
  sv ← slice_set (saved st) i (Copy <$> ps);
  let st := set_saved st sv in
  rf ← slice_get (rafts st) i;
  rs ← slice_set (rafts st) i None;
  let st := mkTestConfig (cfg_links st) (saved st) rs (cfg_applied st)
              (match rf with Some rf => old_rafts st ++ [Kill rf] | None => old_rafts st end) in
  ps ← saved_at st i;
  match ps with
  | Some ps =>
      let raftlog := ReadRaftState ps in
      let snapshot := ReadSnapshot ps in
      sv ← slice_set (saved st) i (Some (Save MakePersister raftlog snapshot));
      Ret (set_saved st sv)
  | None => Ret st
  end.

(** [names j] is the [j]th result of [randstring]; [srv] is the new server
    object, which dispatches to the new instance. *)
Definition start1 (n : nat) st (i : Z) (names : nat -> string) (srv : nat) : outcome TestConfig :=
  st ← crash1 n st i;
  let l := cfg_links st in
  let row := names <$> seq 0 n in
  es ← slice_set (endnames l) i row;
  net ← for_range n (fun j net => e ← slice_get row j; net ← MakeEnd net (inl e); Ret (Connect net (inl e) (inr j))) (links_net l);
  let st := set_links st (mkLinks (connected l) es net) in
  last ← slice_set (tester_lastApplied (cfg_applied st)) i 0;
  let st := set_applied st (set_lastApplied (cfg_applied st) last) in
  ps ← saved_at st i;
  st ← match ps with
       | Some ps =>
           let ps := Copy ps in
           sv ← slice_set (saved st) i (Some ps);
           let st := set_saved st sv in
           let snapshot := ReadSnapshot ps in
           if bool_decide (len snapshot > 0) then
             '(err, a) ← ingestSnap (cfg_applied st) i snapshot (-1);
             fatal_if err;; Ret (set_applied st a)
           else Ret st
       | None => sv ← slice_set (saved st) i (Some MakePersister); Ret (set_saved st sv)
       end;
  ps ← slice_get (saved st) i;
  rs ← slice_set (rafts st) i (Some (Make n i (default MakePersister ps)));
  let st := set_rafts st rs in
  Ret (set_links st (set_net (cfg_links st) (AddServer (links_net (cfg_links st)) (inr i) srv))).

(** [cfg.logs[i]] is a nil map before it is set; reading it is reading an empty
    one.  The statistics of [begin] and [end] are left out. *)
Definition make_config (n : nat) (unreliable : bool) (names : Z -> nat -> string) (srv : Z -> nat) : outcome TestConfig :=
  let net := set_longDelays (Reliable MakeNetwork (negb unreliable)) true in
  let st := mkTestConfig (mkLinks (replicate n false) (replicate n []) net) (replicate n None) (replicate n None) (init_applied n) [] in
  st ← for_range n (fun i st =>
         logs' ← slice_set (logs (cfg_applied st)) i ∅;
         let st := set_applied st (mkApplied logs' (maxIndex (cfg_applied st)) (tester_lastApplied (cfg_applied st))) in
         start1 n st i (names i) (srv i)) st;
  l ← for_range n (fun i l => connect n l i) (cfg_links st);
  Ret (set_links st l).

(** ** Facts about the parts *)

Lemma enableEnd_ends l i j yes net net' : enableEnd l i j yes net = Ret net' -> ends net' = ends net.
Proof. unfold enableEnd. intros E. inv_ret. done. Qed.

Lemma loop_keeps_ends (n : nat) (f : Z -> TestNetwork -> outcome TestNetwork) net net' :
  (forall j net net', f j net = Ret net' -> ends net' = ends net) -> for_range n f net = Ret net' -> ends net' = ends net.
Proof.
  intros Hf E. apply (for_range_post (fun _ net1 => ends net1 = ends net) f n net net' E); [done|].
  intros j s s' _ <- Hs. by apply (Hf j).
Qed.

Lemma disconnect_ends n l i l' : disconnect n l i = Ret l' -> ends (links_net l') = ends (links_net l) /\ endnames l' = endnames l.
Proof.
  unfold disconnect. intros E. inv_ret. split; [|done]. cbn [links_net].
  apply loop_keeps_ends in Hm0, Hm1.
  - by rewrite Hm1 Hm0.
  - intros j net net' E. inv_ret. case_bool_decide; [by apply enableEnd_ends in Hk|by inv_ret].
  - intros j net net' E. inv_ret. case_bool_decide; [by apply enableEnd_ends in Hk|by inv_ret].
Qed.

Lemma connect_keeps n l i l' : connect n l i = Ret l' -> ends (links_net l') = ends (links_net l).
Proof.
  unfold connect. intros E. inv_ret. cbn [links_net]. apply loop_keeps_ends in Hm0, Hm1.
  - by rewrite Hm1 Hm0.
  - intros j net net' E. inv_ret. case_match; [by apply enableEnd_ends in Hk|by inv_ret].
  - intros j net net' E. inv_ret. case_match; [by apply enableEnd_ends in Hk|by inv_ret].
Qed.

(** The results of [randstring]: names not used before. *)
Definition fresh_names (n : nat) (net : TestNetwork) (names : nat -> string) : Prop :=
  (forall j, (j < n)%nat -> inl (names j) ∉ ends net) /\
  (forall j k, (j < n)%nat -> (k < n)%nat -> names j = names k -> j = k).

Lemma make_ends (n : nat) (names : nat -> string) (net : TestNetwork) : fresh_names n net names ->
  exists net', for_range n (fun j net => e ← slice_get (names <$> seq 0 n) j; net ← MakeEnd net (inl e); Ret (Connect net (inl e) (inr j))) net = Ret net' /\
    (forall e, e ∈ ends net' <-> e ∈ ends net \/ exists j, (j < n)%nat /\ e = inl (names j)) /\
    (forall j, (j < n)%nat -> lookup_enabled net' (inl (names j)) = false) /\
    (forall e, e ∈ ends net -> lookup_enabled net' e = lookup_enabled net e).
Proof.
  intros [Hf Hinj].
  match goal with |- context [for_range n ?f ?a] => destruct (for_range_inv (fun k net' =>
    (forall e, e ∈ ends net' <-> e ∈ ends net \/ exists j, Z.of_nat j < k /\ e = inl (names j)) /\
    (forall j, Z.of_nat j < k -> lookup_enabled net' (inl (names j)) = false) /\
    (forall e, e ∈ ends net -> lookup_enabled net' e = lookup_enabled net e)) f n a) as (net' & -> & He & Hn & Ho) end.
  - split_and!; [|intros j Hj; lia|done]. intros e. split; [by left|]. intros [?|(j & Hj & _)]; [done|lia].
  - intros k s Hk (He & Hn & Ho). assert (slice_get (names <$> seq 0 n) k = Ret (names (Z.to_nat k))) as ->.
    { apply slice_get_nat; [lia|]. rewrite list_lookup_fmap lookup_seq_lt //. lia. }
    cbn [mbind outcome_bind]. unfold MakeEnd. rewrite bool_decide_false.
    { intros [Hin|(j & Hj & [= E])]%He; [by apply (Hf (Z.to_nat k)); [lia|]|]. apply Hinj in E; lia. }
    cbn [mbind outcome_bind]. eexists. split; [done|]. cbn [ends Connect]. unfold lookup_enabled. cbn [enabled Connect set_connections ends]. split_and!.
    + intros e. rewrite elem_of_union elem_of_singleton He. split.
      * intros [->|[?|(j & Hj & ->)]]; [right; exists (Z.to_nat k); split; [lia|done]|by left|right; exists j; split; [lia|done]].
      * intros [?|(j & Hj & ->)]; [by right; left|]. destruct (decide (j = Z.to_nat k)) as [->|]; [by left|].
        right. right. exists j. split; [lia|done].
    + intros j Hj. destruct (decide (names j = names (Z.to_nat k))) as [->|Hne]; [by rewrite lookup_insert_eq|].
      rewrite lookup_insert_ne; [congruence|]. apply Hn. destruct (decide (j = Z.to_nat k)); [congruence|lia].
    + intros e Hin. rewrite lookup_insert_ne; [|by apply Ho]. intros <-. by apply (Hf (Z.to_nat k)); [lia|].
  - exists net'. split_and!; [done| | |done].
    + intros e. rewrite He. split; (intros [?|(j & Hj & ->)]; [by left|right; exists j; split; [lia|done]]).
    + intros j Hj. apply Hn. lia.
Qed.

(** ** Restarting *)

(** A snapshot the tester can read. *)
Definition loadable (b : bytes) : Prop :=
  b = [] \/ exists k xlog rest, stream_values b = SnapInt k :: SnapLog (Cmd := Cmd) xlog :: rest.

Record tester_ok (n : nat) st : Prop := {
  to_wf : links_wf n (cfg_links st);
  to_ok : links_ok n (cfg_links st);
  to_ends : forall i j e, end_name (cfg_links st) i j = Some e -> inl e ∈ ends (links_net (cfg_links st));
  to_saved : length (saved st) = n;
  to_rafts : length (rafts st) = n;
  to_logs : length (logs (cfg_applied st)) = n;
  to_last : length (tester_lastApplied (cfg_applied st)) = n;
  to_snap : forall i ps, saved_at st i = Ret (Some ps) -> loadable (ps_snapshot ps);
}.

Lemma ingestSnap_own (a : Applied Cmd) (n : nat) (i : Z) (b : bytes) :
  0 <= i < Z.of_nat n -> length (logs a) = n -> length (tester_lastApplied a) = n -> loadable b -> b <> [] ->
  exists a', ingestSnap a i b (-1) = Ret (NoError, a') /\ length (logs a') = n /\ length (tester_lastApplied a') = n.
Proof.
  intros Hi Hlen Hlast [->|(k & xlog & rest & E)] Hne; [done|]. unfold ingestSnap. rewrite bool_decide_false //.
  unfold NewDecoder. rewrite E. cbn [Decode as_snap_int as_snap_log]. rewrite (bool_decide_false (-1 <> -1)); [by intros ?|]. simpl andb. cbv iota.
  destruct (map_of_list_loop xlog) as (log & -> & _). cbn [mbind outcome_bind]. rewrite slice_set_nat; [lia|]. cbn [mbind outcome_bind].
  rewrite slice_set_nat; [lia|]. cbn [mbind outcome_bind]. eexists. split; [done|]. cbn [logs tester_lastApplied]. by rewrite !length_insert.
Qed.

Definition persisted_by (orf : option (Raft Cmd)) (ops : option Persister) : option Persister :=
  match orf with Some rf => Some (persister rf) | None => ops end.

Lemma Copy_id ps : Copy ps = ps.
Proof. by destruct ps. Qed.

Lemma saved_at_some st i orf ops : 0 <= i -> rafts st !! Z.to_nat i = Some orf -> saved st !! Z.to_nat i = Some ops ->
  saved_at st i = Ret (persisted_by orf ops).
Proof. intros H0 Hr Hs. unfold saved_at. rewrite (slice_get_some _ _ _ H0 Hr) (slice_get_some _ _ _ H0 Hs). done. Qed.

Lemma saved_at_inv st i o : saved_at st i = Ret o ->
  0 <= i /\ exists orf ops, rafts st !! Z.to_nat i = Some orf /\ saved st !! Z.to_nat i = Some ops /\ o = persisted_by orf ops.
Proof.
  unfold saved_at. intros (orf & [Hi Hr]%slice_get_ret & (ops & [_ Hs]%slice_get_ret & E)%outcome_bind_ret)%outcome_bind_ret.
  injection E as <-. split; [lia|]. by exists orf, ops.
Qed.

Section restart.
Context (n : nat) (st : TestConfig) (i : Z) (orf : option (Raft Cmd)) (ops : option Persister).
Hypothesis Hok : tester_ok n st.
Hypothesis Hi : 0 <= i < Z.of_nat n.
Hypothesis Hrf : rafts st !! Z.to_nat i = Some orf.
Hypothesis Hps : saved st !! Z.to_nat i = Some ops.
Notation cur := (persisted_by orf ops).

Lemma crash1_spec : exists st1, crash1 n st i = Ret st1 /\
  links_wf n (cfg_links st1) /\ links_ok n (cfg_links st1) /\
  endnames (cfg_links st1) = endnames (cfg_links st) /\ ends (links_net (cfg_links st1)) = ends (links_net (cfg_links st)) /\
  (forall j, 0 <= j -> is_connected (cfg_links st1) j = if bool_decide (j = i) then false else is_connected (cfg_links st) j) /\
  saved st1 = <[Z.to_nat i := cur]> (saved st) /\ rafts st1 = <[Z.to_nat i := None]> (rafts st) /\
  cfg_applied st1 = cfg_applied st /\ old_rafts st1 = old_rafts st ++ option_list (Kill <$> orf).
Proof.
  destruct Hok as [Hwf Hlo _ Hsv Hrs _ _ _]. unfold crash1.
  destruct (disconnect_total n (cfg_links st) Hwf i Hi Hlo) as (l & El & Hwf' & Hok' & Hc). rewrite El. cbn [mbind outcome_bind].
  apply disconnect_ends in El as [He Hn]. assert (0 <= i) as H0 by lia.
  rewrite (saved_at_some _ i orf ops); [done|done|done|]. unfold set_saved, set_links, set_net.
  cbn [mbind outcome_bind rafts saved cfg_links cfg_applied old_rafts].
  rewrite (slice_set_nat (saved st)); [lia|]. cbn [mbind outcome_bind rafts saved cfg_links cfg_applied old_rafts].
  rewrite (slice_get_some _ _ _ H0 Hrf). cbn [mbind outcome_bind]. rewrite (slice_set_nat (rafts st)); [lia|]. cbn [mbind outcome_bind].
  rewrite (saved_at_some _ i None (Copy <$> cur)); [done|by apply list_lookup_insert_eq; lia|by apply list_lookup_insert_eq; lia|].
  cbn [mbind outcome_bind persisted_by rafts saved cfg_links cfg_applied old_rafts].
  assert (match orf with Some rf => old_rafts st ++ [Kill rf] | None => old_rafts st end = old_rafts st ++ option_list (Kill <$> orf)) as ->
    by (destruct orf; [done|by rewrite app_nil_r]).
  destruct cur as [ps|] eqn:Ecur; cbn [fmap option_fmap option_map].
  - rewrite slice_set_nat; [rewrite length_insert; lia|]. cbn [mbind outcome_bind]. eexists. split; [done|].
    cbn [rafts saved cfg_links cfg_applied old_rafts connected endnames links_net]. split_and!; [by destruct Hwf'|done..| |done|done|done].
    rewrite list_insert_insert_eq. by destruct ps.
  - eexists. split; [done|]. cbn [rafts saved cfg_links cfg_applied old_rafts connected endnames links_net].
    split_and!; [by destruct Hwf'|done..].
Qed.

(** A new row of unused end names, all of them disabled. *)
Lemma new_row l names net net' :
  links_wf n l -> links_ok n l -> is_connected l i = false -> links_net l = net ->
  (forall a b e, end_name l a b = Some e -> inl e ∈ ends net) -> fresh_names n net names ->
  (forall j, (j < n)%nat -> lookup_enabled net' (inl (names j)) = false) ->
  (forall e, e ∈ ends net -> lookup_enabled net' e = lookup_enabled net e) ->
  let l' := mkLinks (connected l) (<[Z.to_nat i := names <$> seq 0 n]> (endnames l)) net' in
  links_wf n l' /\ links_ok n l' /\
  (forall a b e, end_name l' a b = Some e -> inl e ∈ ends net \/ exists j, (j < n)%nat /\ e = names j).
Proof.
  intros Hwf Hlo Hdis Hnet Hin [Hf Hinj] Hnew Hold l'. pose proof Hwf as [Hc Hr Hrow Hst Hd].
  assert (forall a b e, end_name l' a b = Some e -> (Z.to_nat a = Z.to_nat i /\ (Z.to_nat b < n)%nat /\ e = names (Z.to_nat b)) \/
    (Z.to_nat a <> Z.to_nat i /\ end_name l a b = Some e)) as Hname.
  { intros a b e. unfold end_name, l'. cbn [endnames]. destruct (decide (Z.to_nat a = Z.to_nat i)) as [E|E].
    - rewrite E list_lookup_insert_eq; [lia|]. cbn [mbind option_bind]. intros (j & -> & Hj)%list_lookup_fmap_Some.
      apply lookup_seq in Hj as [-> Hj]. left. split_and!; [done|lia|done].
    - rewrite list_lookup_insert_ne; [congruence|]. by right. }
  split_and!.
  - constructor; cbn [connected endnames l']; [done|by rewrite length_insert| | |].
    + intros j row [(<- & <- & _)|(_ & Hj)]%list_lookup_insert_Some; [|by apply (Hrow j)]. right. by rewrite length_fmap length_seq.
    + intros j Hj Hcon. destruct (Hst j Hj Hcon) as (row & Hrow' & Hlen). unfold started. cbn [endnames l'].
      destruct (decide (Z.to_nat j = Z.to_nat i)) as [E|E].
      * rewrite E list_lookup_insert_eq; [lia|]. eexists. split; [done|]. by rewrite length_fmap length_seq.
      * rewrite list_lookup_insert_ne; [congruence|]. by exists row.
    + intros a b a' b' e Ha Hb Ha' Hb' [(Ea & Eb & ->)|[Ea E1]]%Hname [(Ea' & Eb' & E)|[Ea' E2]]%Hname.
      * apply Hinj in E; [|done|done]. split; apply Z2Nat.inj; lia.
      * apply Hin in E2. by apply (Hf (Z.to_nat b)) in E2.
      * subst e. apply Hin in E1. by apply (Hf (Z.to_nat b')) in E1.
      * by apply (Hd a b a' b' e).
  - intros a b e Ha Hb [(Ea & Eb & ->)|[Ea E1]]%Hname; cbn [links_net l'].
    + rewrite Hnew //. assert (a = i) as -> by (apply Z2Nat.inj; lia). by rewrite /is_connected /= in Hdis |- *; rewrite Hdis.
    + rewrite (Hold _ (Hin _ _ _ E1)) -Hnet. by apply Hlo.
  - intros a b e [(_ & Hb & ->)|[_ E]]%Hname; [right; by exists (Z.to_nat b)|left; by apply (Hin a b)].
Qed.

(** The part of [start1] that reads the saved state. *)
Definition load_state st2 (o : option Persister) : outcome TestConfig :=
  match o with
  | Some ps =>
      let ps := Copy ps in
      sv ← slice_set (saved st2) i (Some ps);
      let st := set_saved st2 sv in
      let snapshot := ReadSnapshot ps in
      if bool_decide (len snapshot > 0) then
        '(err, a) ← ingestSnap (cfg_applied st) i snapshot (-1);
        fatal_if err;; Ret (set_applied st a)
      else Ret st
  | None => sv ← slice_set (saved st2) i (Some MakePersister); Ret (set_saved st2 sv)
  end.

Lemma load_state_spec st2 o : length (saved st2) = n -> length (logs (cfg_applied st2)) = n -> length (tester_lastApplied (cfg_applied st2)) = n ->
  (forall ps, o = Some ps -> loadable (ps_snapshot ps)) ->
  exists a', load_state st2 o = Ret (set_applied (set_saved st2 (<[Z.to_nat i := Some (default MakePersister o)]> (saved st2))) a') /\
    length (logs a') = n /\ length (tester_lastApplied a') = n.
Proof.
  intros Hs Hl Hlast Hload. destruct o as [ps|]; unfold load_state; cbn [default from_option id];
    (rewrite slice_set_nat; [lia|]); cbn [mbind outcome_bind].
  - rewrite Copy_id. case_bool_decide as Hlen; [|by exists (cfg_applied st2)].
    destruct (ingestSnap_own (cfg_applied st2) n i (ReadSnapshot ps)) as (a' & Ea & Ha); [done..|by apply Hload| |].
    { intros E. rewrite E in Hlen. by vm_compute in Hlen. }
    exists a'. cbn [cfg_applied set_saved]. by rewrite Ea.
  - by exists (cfg_applied st2).
Qed.

Lemma start1_spec names srv : fresh_names n (links_net (cfg_links st)) names ->
  exists st', start1 n st i names srv = Ret st' /\ tester_ok n st' /\
    (rafts st' = <[Z.to_nat i := Some (Make n i (default MakePersister cur))]> (rafts st) /\
     saved st' = <[Z.to_nat i := Some (default MakePersister cur)]> (saved st) /\ old_rafts st' = old_rafts st ++ option_list (Kill <$> orf)) /\
    (started n (cfg_links st') i /\ forall j, j <> Z.to_nat i -> endnames (cfg_links st') !! j = endnames (cfg_links st) !! j) /\
    (forall e, e ∈ ends (links_net (cfg_links st')) <-> e ∈ ends (links_net (cfg_links st)) \/ exists j, (j < n)%nat /\ e = inl (names j)) /\
    (forall j, 0 <= j -> is_connected (cfg_links st') j = if bool_decide (j = i) then false else is_connected (cfg_links st) j) /\
    (forall j e, 0 <= j < Z.of_nat n -> end_name (cfg_links st) i j = Some e -> lookup_enabled (links_net (cfg_links st')) (inl e) = false).
Proof.
  intros Hfresh. destruct crash1_spec as (st1 & Ec & Hwf1 & Hlo1 & Hes & Hends & Hcon & Hsv & Hrs & Hap & Hold).
  unfold start1. rewrite Ec. cbn [mbind outcome_bind]. assert (0 <= i) as H0 by lia. clear Ec.
  destruct Hok as [_ _ Hin Hls Hlr Hll Hlt Hsn].
  rewrite (slice_set_nat (endnames (cfg_links st1))); [rewrite (lw_rows _ _ Hwf1); lia|]. cbn [mbind outcome_bind].
  rewrite /fresh_names -Hends in Hfresh. destruct (make_ends n names (links_net (cfg_links st1)) Hfresh) as (net & -> & Hne & Hnew & Hkeep).
  cbn [mbind outcome_bind set_links cfg_applied]. rewrite (slice_set_nat (tester_lastApplied _)); [rewrite Hap; lia|]. cbn [mbind outcome_bind].
  match goal with |- context [saved_at ?st2 i] => set (st2' := st2) end.
  rewrite (saved_at_some st2' i None cur); [done|cbn; rewrite Hrs; apply list_lookup_insert_eq; lia|cbn; rewrite Hsv; apply list_lookup_insert_eq; lia|].
  cbn [mbind outcome_bind persisted_by].
  destruct (load_state_spec st2' cur) as (a' & El & Ha1 & Ha2).
  { cbn. by rewrite Hsv length_insert. } { cbn. by rewrite Hap. } { cbn. by rewrite length_insert Hap. }
  { intros ps Ecur. apply (Hsn i). rewrite -Ecur. by apply saved_at_some. }
  unfold load_state in El. rewrite El. clear El. cbn [mbind outcome_bind set_applied set_saved saved rafts].
  assert (saved st2' = <[Z.to_nat i := cur]> (saved st)) as -> by exact Hsv. assert (rafts st2' = <[Z.to_nat i := None]> (rafts st)) as -> by exact Hrs.
  rewrite list_insert_insert_eq.
  rewrite (slice_get_some (<[_ := _]> (saved st)) i (Some (default MakePersister cur)) H0); [apply list_lookup_insert_eq; lia|].
  cbn [mbind outcome_bind]. rewrite (slice_set_nat (<[_ := None]> _)); [rewrite length_insert; lia|]. cbn [mbind outcome_bind]. rewrite list_insert_insert_eq.
  destruct (new_row (cfg_links st1) names (links_net (cfg_links st1)) net) as (Hwf2 & Hlo2 & Hin2); [done|done| |done| |done|done|done|].
  { rewrite Hcon; [lia|]. by rewrite bool_decide_true. }
  { intros a b e. rewrite Hends. unfold end_name. rewrite Hes. apply Hin. }
  eexists. split; [done|]. cbn [cfg_links cfg_applied rafts saved old_rafts connected endnames links_net set_links set_rafts set_net st2'].
  split_and!; [|done|done|exact Hold| | |by rewrite -Hends| |].
  - constructor; cbn [cfg_links cfg_applied rafts saved]; [by destruct Hwf2|exact Hlo2| |by rewrite length_insert..|done|done|].
    + intros a b e [He|(j & Hj & ->)]%(Hin2 a b e); apply Hne; [by left|right; by exists j].
    + intros j ps (Hj & orfj & opsj & Hm & Hm0 & Eps)%saved_at_inv. cbn [rafts saved] in Hm, Hm0.
      destruct (decide (Z.to_nat j = Z.to_nat i)) as [Ej|Ej].
      * rewrite Ej list_lookup_insert_eq in Hm; [lia|]. injection Hm as <-. injection Eps as ->.
        destruct (Make_frame n i (default MakePersister cur)) as (_ & _ & -> & _). destruct cur as [ps|] eqn:Ecur; [|by left].
        apply (Hsn i). rewrite -Ecur. by apply saved_at_some.
      * rewrite list_lookup_insert_ne in Hm; [congruence|]. rewrite list_lookup_insert_ne in Hm0; [congruence|].
        apply (Hsn j). by rewrite (saved_at_some st j orfj opsj) // -Eps.
  - eexists. split; [apply list_lookup_insert_eq; rewrite (lw_rows _ _ Hwf1); lia|]. by rewrite length_fmap length_seq.
  - intros j Hj. rewrite list_lookup_insert_ne; [congruence|]. by rewrite Hes.
  - intros j Hj. exact (Hcon j Hj).
  - intros j e Hj He. assert (end_name (cfg_links st1) i j = Some e) as He1 by (unfold end_name; by rewrite Hes).
    transitivity (lookup_enabled net (inl e)); [done|]. rewrite Hkeep; [rewrite Hends; by apply (Hin i j)|].
    rewrite (Hlo1 i j e Hi Hj He1) Hcon; [lia|]. by rewrite bool_decide_true.
Qed.
End restart.

(** ** The tester and the cluster of RaftNet *)

(** The peers as RaftNet sees them: a crashed server is the instance that its
    saved state will make. *)
Definition view (n : nat) st : list (Raft Cmd) :=
  imap (fun j o => default (Make n (Z.of_nat j) (default MakePersister (saved st !! j ≫= id))) o) (rafts st).

Lemma view_lookup n st j orf ops : rafts st !! j = Some orf -> saved st !! j = Some ops ->
  view n st !! j = Some (default (Make n (Z.of_nat j) (default MakePersister ops)) orf).
Proof. intros Hr Hs. unfold view. rewrite list_lookup_imap Hr. simpl. by rewrite Hs. Qed.

(** Server [i] is remade, everything else is as it was. *)
Lemma view_update n st st' (i : Z) ps :
  length (saved st) = length (rafts st) -> 0 <= i < len (rafts st) ->
  (rafts st' = <[Z.to_nat i := None]> (rafts st) /\ (exists o, saved st' = <[Z.to_nat i := o]> (saved st) /\ default MakePersister o = ps) \/
   rafts st' = <[Z.to_nat i := Some (Make n i ps)]> (rafts st) /\ exists o, saved st' = <[Z.to_nat i := o]> (saved st)) ->
  view n st' = <[Z.to_nat i := Make n i ps]> (view n st).
Proof.
  intros Hlen Hi Hst. unfold len in Hi. apply list_eq. intros k. destruct (decide (k = Z.to_nat i)) as [->|Hne].
  - rewrite list_lookup_insert_eq; [unfold view; rewrite length_imap; lia|].
    destruct Hst as [(Hr & o & Hs & Ho)|(Hr & o & Hs)].
    + rewrite (view_lookup n st' (Z.to_nat i) None o); [rewrite Hr list_lookup_insert_eq //; lia|rewrite Hs list_lookup_insert_eq //; lia|].
      rewrite Z2Nat.id; [lia|]. by rewrite -Ho.
    + by rewrite (view_lookup n st' (Z.to_nat i) (Some (Make n i ps)) o); [rewrite Hr list_lookup_insert_eq //; lia|rewrite Hs list_lookup_insert_eq //; lia|].
  - rewrite list_lookup_insert_ne; [congruence|]. unfold view. rewrite !list_lookup_imap.
    assert (rafts st' !! k = rafts st !! k /\ saved st' !! k = saved st !! k) as [-> ->]; [|done].
    destruct Hst as [(-> & o & -> & _)|(-> & o & ->)]; by rewrite !list_lookup_insert_ne; [congruence..|].
Qed.

Lemma crash_step_view n (s : Cluster Cmd) (i : Z) orf ops :
  0 <= i -> reachable n s -> nodes s !! Z.to_nat i = Some (default (Make n i (default MakePersister ops)) orf) ->
  exists s', step (ECrash (Z.to_nat i)) s = Ret s' /\
    nodes s' = <[Z.to_nat i := Make n i (default MakePersister (persisted_by orf ops))]> (nodes s).
Proof.
  intros H0 (B & E & HI)%reachable_election_inv Hn. destruct (ei_node _ _ _ _ HI _ _ Hn) as [Hme Hpe _ _ _ _ _ _ _].
  unfold step, with_node. rewrite Hn. eexists. split; [done|]. cbn [nodes set_calls set_goroutines put_node set_nodes].
  rewrite Hme Hpe Z2Nat.id // Copy_id. do 2 f_equal. destruct orf as [rf|]; [done|]. cbn [default from_option id persisted_by].
  by destruct (Make_frame n i (default MakePersister ops)) as (_ & _ & -> & _).
Qed.

(** C36. Crashing and restarting a server are what RaftNet calls a crash: on the
    cluster that the tester represents, [crash1] and [start1] always succeed
    and both lead to the cluster after the step [ECrash].  The server is off
    the network, the ends of the killed instance stay disabled, and the
    tester's invariants hold again. *)
Theorem restarts_are_crash_steps (n : nat) st (s : Cluster Cmd) (i : Z) (names : nat -> string) (srv : nat) :
  tester_ok n st -> 0 <= i < Z.of_nat n -> fresh_names n (links_net (cfg_links st)) names ->
  reachable n s -> view n st = nodes s ->
  exists s', step (ECrash (Z.to_nat i)) s = Ret s' /\
    (exists st1, crash1 n st i = Ret st1 /\ tester_ok n st1 /\ view n st1 = nodes s' /\ is_connected (cfg_links st1) i = false) /\
    (exists st2, start1 n st i names srv = Ret st2 /\ tester_ok n st2 /\ view n st2 = nodes s' /\ is_connected (cfg_links st2) i = false /\
       (exists rf, rafts st2 !! Z.to_nat i = Some (Some rf)) /\
       forall j e, 0 <= j < Z.of_nat n -> end_name (cfg_links st) i j = Some e -> lookup_enabled (links_net (cfg_links st2)) (inl e) = false).
Proof.
  intros Hok Hi Hfresh Hr Hview. pose proof Hok as [_ _ Hin Hls Hlr Hll Hlt Hsn].
  destruct (lookup_lt_is_Some_2 (rafts st) (Z.to_nat i)) as [orf Hrf]; [lia|].
  destruct (lookup_lt_is_Some_2 (saved st) (Z.to_nat i)) as [ops Hps]; [lia|].
  destruct (crash_step_view n s i orf ops) as (s' & Hs & Hn'); [lia|done| |].
  { rewrite -Hview (view_lookup n st _ orf ops Hrf Hps) Z2Nat.id //. lia. }
  exists s'. split; [done|]. rewrite Hn' -Hview. split.
  - destruct (crash1_spec n st i orf ops Hok Hi Hrf Hps) as (st1 & E & Hwf1 & Hlo1 & Hes & Hends & Hcon & Hsv & Hrs & Hap & _).
    exists st1. split_and!; [done| | |by rewrite Hcon; [lia|]; rewrite bool_decide_true].
    + constructor; [done|done| |by rewrite Hsv length_insert|by rewrite Hrs length_insert|by rewrite Hap|by rewrite Hap|].
      * intros a b e. unfold end_name. rewrite Hes Hends. apply Hin.
      * intros j ps (Hj & orfj & opsj & Hm & Hm0 & Eps)%saved_at_inv. rewrite Hrs in Hm. rewrite Hsv in Hm0.
        destruct (decide (Z.to_nat j = Z.to_nat i)) as [Ej|Ej].
        -- rewrite Ej list_lookup_insert_eq in Hm; [lia|]. rewrite Ej list_lookup_insert_eq in Hm0; [lia|].
           injection Hm as <-. injection Hm0 as <-. apply (Hsn i). rewrite (saved_at_some st i orf ops); [lia|done|done|by rewrite Eps].
        -- rewrite list_lookup_insert_ne in Hm; [congruence|]. rewrite list_lookup_insert_ne in Hm0; [congruence|].
           apply (Hsn j). by rewrite (saved_at_some st j orfj opsj) // -Eps.
    + apply view_update; [lia|unfold len; lia|]. left. split; [done|]. by exists (persisted_by orf ops).
  - destruct (start1_spec n st i orf ops Hok Hi Hrf Hps names srv Hfresh) as (st2 & E & Hok2 & (Hrs & Hsv & _) & _ & _ & Hcon & Hdis).
    exists st2. split_and!; [done|done| |by rewrite Hcon; [lia|]; rewrite bool_decide_true| |done].
    + apply view_update; [lia|unfold len; lia|]. right. split; [done|]. eexists. exact Hsv.
    + eexists. rewrite Hrs. apply list_lookup_insert_eq. lia.
Qed.

(** ** A new test *)

(** All results of [randstring] in a test. *)
Definition distinct_names (n : nat) (names : Z -> nat -> string) : Prop :=
  forall i j i' j', 0 <= i < Z.of_nat n -> 0 <= i' < Z.of_nat n -> (j < n)%nat -> (j' < n)%nat ->
    names i j = names i' j' -> i = i' /\ j = j'.

(** The first [k] servers are started. *)
Record starting (n : nat) (names : Z -> nat -> string) (k : Z) st : Prop := {
  sg_ok : tester_ok n st;
  sg_started : forall i, 0 <= i < k -> started n (cfg_links st) i /\ rafts st !! Z.to_nat i = Some (Some (Make n i MakePersister));
  sg_fresh : forall i, k <= i < Z.of_nat n -> rafts st !! Z.to_nat i = Some None /\ saved st !! Z.to_nat i = Some None;
  sg_off : forall i, 0 <= i -> is_connected (cfg_links st) i = false;
  sg_ends : forall e, e ∈ ends (links_net (cfg_links st)) -> exists i j, 0 <= i < k /\ (j < n)%nat /\ e = inl (names i j);
}.

Lemma starting_init n names unreliable :
  starting n names 0 (mkTestConfig (mkLinks (replicate n false) (replicate n []) (set_longDelays (Reliable MakeNetwork (negb unreliable)) true))
    (replicate n None) (replicate n None) (init_applied n) []).
Proof.
  assert (forall i, default false (replicate n false !! i) = false) as Hoff.
  { intros i. destruct (replicate n false !! i) as [b|] eqn:E; [|done]. by apply lookup_replicate in E as [-> _]. }
  assert (forall i j, end_name (mkLinks (replicate n false) (replicate n []) (set_longDelays (Reliable MakeNetwork (negb unreliable)) true)) i j = None) as Hno.
  { intros i j. unfold end_name. cbn [endnames]. destruct (replicate n [] !! Z.to_nat i) as [row|] eqn:E; [|done]. by apply lookup_replicate in E as [-> _]. }
  constructor.
  - constructor; cbn [cfg_links saved rafts cfg_applied]; try by rewrite length_replicate.
    + constructor; cbn [connected endnames]; [by rewrite length_replicate..| | |].
      * intros i row [-> _]%lookup_replicate. by left.
      * intros i Hi. unfold is_connected. cbn [connected]. by rewrite Hoff.
      * intros i j i' j' e _ _ _ _. by rewrite Hno.
    + intros i j e _ _. by rewrite Hno.
    + intros i j e. by rewrite Hno.
    + intros i ps (_ & orf & ops & Hr & Hs & E)%saved_at_inv. cbn [rafts saved] in Hr, Hs.
      apply lookup_replicate in Hr as [-> _], Hs as [-> _]. done.
  - intros i Hi. lia.
  - intros i Hi. cbn [rafts saved]. split; apply lookup_replicate; split; done || lia.
  - intros i _. unfold is_connected. apply Hoff.
  - intros e He. by apply elem_of_empty in He.
Qed.

Lemma tester_ok_logs n st logs' :
  tester_ok n st -> length logs' = n -> tester_ok n (set_applied st (mkApplied logs' (maxIndex (cfg_applied st)) (tester_lastApplied (cfg_applied st)))).
Proof. intros [H1 H2 H3 H4 H5 H6 H7 H8] Hl. by constructor. Qed.

Lemma starting_step n names srv k st : distinct_names n names -> 0 <= k < Z.of_nat n -> starting n names k st ->
  exists st', (logs' ← slice_set (logs (cfg_applied st)) k ∅;
      let st := set_applied st (mkApplied logs' (maxIndex (cfg_applied st)) (tester_lastApplied (cfg_applied st))) in
      start1 n st k (names k) (srv k)) = Ret st' /\ starting n names (k + 1) st'.
Proof.
  intros Hd Hk [Hok Hst Hfr Hoff He]. rewrite slice_set_nat; [rewrite (to_logs _ _ Hok); lia|]. cbn [mbind outcome_bind].
  destruct (Hfr k) as [Hr Hs]; [lia|].
  apply (tester_ok_logs n st (<[Z.to_nat k := ∅]> (logs (cfg_applied st)))) in Hok; [|rewrite length_insert; apply Hok].
  revert Hok. generalize (mkApplied (<[Z.to_nat k := ∅]> (logs (cfg_applied st))) (maxIndex (cfg_applied st)) (tester_lastApplied (cfg_applied st))).
  intros a Hok. destruct (start1_spec n (set_applied st a) k None None Hok Hk Hr Hs (names k) (srv k)) as
    (st' & -> & Hok' & (Hrs & Hsv & _) & (Hnew & Hrows) & Hends & Hcon & _).
  { split.
    - intros j Hj (i & j' & Hi & Hj' & [= E])%He. apply Hd in E as [-> _]; lia.
    - intros j j' Hj Hj' E. by apply Hd in E as [_ ->]. }
  exists st'. split; [done|]. cbn [set_applied cfg_links rafts saved] in *. constructor; [done| | | |].
  - intros i Hi. destruct (decide (i = k)) as [->|Hne].
    + split; [done|]. rewrite Hrs. apply list_lookup_insert_eq. rewrite -(length_insert (rafts st) (Z.to_nat k) (Some (Make n k (default MakePersister (persisted_by None None))))) -Hrs (to_rafts _ _ Hok'). lia.
    + destruct (Hst i) as [(row & Hrow & Hlen) Hi']; [lia|]. assert (Z.to_nat i <> Z.to_nat k) as Hne' by lia. split.
      * exists row. by rewrite Hrows.
      * by rewrite Hrs list_lookup_insert_ne; [congruence|].
  - intros i Hi. assert (Z.to_nat i <> Z.to_nat k) as Hne by lia. rewrite Hrs Hsv !list_lookup_insert_ne; [congruence..|]. apply Hfr. lia.
  - intros i Hi. rewrite Hcon //. case_bool_decide; [done|]. by apply Hoff.
  - intros e [(i & j & Hi & Hj & ->)%He|(j & Hj & ->)]%Hends; [exists i, j; split; [lia|done]|exists k, j; split; [lia|done]].
Qed.

Lemma connect_all n l : links_wf n l -> links_ok n l -> (forall i, 0 <= i < Z.of_nat n -> started n l i) ->
  exists l', for_range n (fun i l => connect n l i) l = Ret l' /\ links_wf n l' /\ links_ok n l' /\
    endnames l' = endnames l /\ ends (links_net l') = ends (links_net l) /\ forall i, 0 <= i < Z.of_nat n -> is_connected l' i = true.
Proof.
  intros Hwf Hlo Hst.
  destruct (for_range_inv (fun k l' => links_wf n l' /\ links_ok n l' /\ endnames l' = endnames l /\ ends (links_net l') = ends (links_net l) /\
    forall i, 0 <= i < k -> is_connected l' i = true) (fun i l => connect n l i) n l) as (l' & -> & Hl'); [| |by exists l'].
  - split_and!; [done..|]. intros i Hi. lia.
  - intros k l1 Hk (Hw1 & Ho1 & Hn1 & He1 & Hc1).
    destruct (connect_total n l1 Hw1 k Hk) as (l2 & E & Hw2 & Ho2 & Hc2); [unfold started; rewrite Hn1; by apply Hst|done|].
    exists l2. split_and!; [done..|by rewrite (connect_ends _ _ _ _ E)|by rewrite (connect_keeps _ _ _ _ E)|].
    intros i Hi. rewrite Hc2; [lia|]. case_bool_decide; [done|]. apply Hc1. lia.
Qed.

Lemma make_config_total (n : nat) (unreliable : bool) (names : Z -> nat -> string) (srv : Z -> nat) :
  distinct_names n names ->
  exists st, make_config n unreliable names srv = Ret st /\ tester_ok n st /\ view n st = nodes (init n) /\
    (forall i, 0 <= i < Z.of_nat n -> is_connected (cfg_links st) i = true) /\
    (forall e, e ∈ ends (links_net (cfg_links st)) -> exists i j, 0 <= i < Z.of_nat n /\ (j < n)%nat /\ e = inl (names i j)).
Proof.
  intros Hd. unfold make_config.
  match goal with |- context [for_range n ?f ?a] => destruct (for_range_inv (fun k st => 0 <= k /\ starting n names k st) f n a) as (st & -> & _ & [Hok Hst _ _ Hends]) end.
  - split; [done|apply starting_init].
  - intros k st Hk [_ Hs]. destruct (starting_step n names srv k st Hd Hk Hs) as (st' & E & Hs'). exists st'. split; [exact E|]. split; [lia|done].
  - cbn [mbind outcome_bind]. pose proof Hok as [Hwf Hlo Hin Hls Hlr Hll Hlt Hsn].
    destruct (connect_all n (cfg_links st) Hwf Hlo) as (l & -> & Hwl & Hol & Hnl & Hel & Hcl); [intros i Hi; by apply Hst|].
    cbn [mbind outcome_bind]. eexists. split; [done|]. split_and!; [| |done|intros e; cbn [cfg_links set_links]; rewrite Hel; apply Hends].
    + constructor; try done. intros i j e. unfold end_name. cbn [cfg_links set_links]. rewrite Hnl Hel. apply Hin.
    + apply list_eq. intros k. unfold view. cbn [rafts saved set_links]. rewrite list_lookup_imap. simpl nodes. rewrite list_lookup_fmap.
      destruct (decide (k < n)%nat) as [Hk|Hk].
      * destruct (Hst (Z.of_nat k)) as [_ Hr]; [lia|]. rewrite Nat2Z.id in Hr. rewrite Hr lookup_seq_lt //.
      * rewrite (lookup_ge_None_2 (rafts st)); [lia|]. rewrite (lookup_ge_None_2 (seq 0 n)); [rewrite length_seq; lia|]. done.
Qed.

(** A new test: [make_config] succeeds if the random end names differ, and
    represents the initial cluster of RaftNet, with every server connected to
    every other. *)
Lemma new_test_is_initial_cluster (n : nat) (unreliable : bool) (names : Z -> nat -> string) (srv : Z -> nat) :
  distinct_names n names ->
  exists st, make_config n unreliable names srv = Ret st /\ tester_ok n st /\ view n st = nodes (init n) /\
    forall i, 0 <= i < Z.of_nat n -> is_connected (cfg_links st) i = true.
Proof. intros Hd. destruct (make_config_total n unreliable names srv Hd) as (st & E & Hok & Hv & Hc & _). by exists st. Qed.
End tester.
Arguments TestConfig Cmd : clear implicits.

(** ** Witnesses *)

Definition two_names (i : Z) (j : nat) : string :=
  match Z.to_nat i, j with 0, 0 => "a" | 0, _ => "b" | _, 0 => "c" | _, _ => "d" end%string%nat.

Lemma two_names_distinct : distinct_names 2 two_names.
Proof.
  intros i j i' j' Hi Hi' Hj Hj'. unfold two_names.
  destruct (Z.to_nat i) as [|[|?]] eqn:?, (Z.to_nat i') as [|[|?]] eqn:?, j as [|[|?]], j' as [|[|?]]; intros E; try done; try lia; split; lia.
Qed.

Lemma new_test_is_initial_cluster_witness :
  exists st : TestConfig Z, make_config 2 true two_names (fun _ => 0%nat) = Ret st /\ view 2 st = nodes (init 2) /\ is_connected (cfg_links st) 1 = true.
Proof.
  destruct (new_test_is_initial_cluster (Cmd := Z) 2 true two_names (fun _ => 0%nat) two_names_distinct) as (st & E & _ & Hv & Hc).
  exists st. split; [exact E|]. split; [exact Hv|]. apply Hc. lia.
Defined.

Definition new_names (j : nat) : string := match j with O => "e" | _ => "f" end.

Lemma new_names_distinct j k : (j < 2)%nat -> (k < 2)%nat -> new_names j = new_names k -> j = k.
Proof. intros Hj Hk. destruct j as [|[|?]], k as [|[|?]]; intros E; try done; lia. Qed.

Lemma new_names_fresh i j k : inl (B := Z) (new_names j) <> inl (two_names i k).
Proof. unfold two_names. by destruct j, (Z.to_nat i), k. Qed.

Lemma restarts_are_crash_steps_witness :
  exists (st st2 : TestConfig Z) (s' : Cluster Z), make_config 2 true two_names (fun _ => 0%nat) = Ret st /\
    step (ECrash 0) (init 2) = Ret s' /\ start1 2 st 0 new_names 0 = Ret st2 /\ view 2 st2 = nodes s'.
Proof.
  destruct (make_config_total (Cmd := Z) 2 true two_names (fun _ => 0%nat) two_names_distinct) as (st & E & Hok & Hv & _ & He).
  destruct (restarts_are_crash_steps 2 st (init 2) 0 new_names 0 Hok) as (s' & Hs & _ & st2 & E2 & _ & Hv2 & _).
  - lia.
  - split.
    + intros j Hj (i & k & _ & _ & Ek)%He. exact (new_names_fresh i j k Ek).
    + exact new_names_distinct.
  - apply rtc_refl.
  - exact Hv.
  - exists st, st2, s'. split; [exact E|]. split; [exact Hs|]. split; [exact E2|exact Hv2].
Defined.
