(* ===== verification/RaftTesterOne.v ===== *)
(** * RaftTesterOne: agreement, statistics and the end of a test, src/src/raft/config.go

    [one] submits a command and waits until enough servers have applied it,
    [wait] waits for an index.  Both poll while the cluster runs and the clock
    decides how often: the answers of the peers and the states of the tester
    that a call sees are its arguments. *)

From S2P Require Import Prelude LabGob LabRpc RaftLog Persister RaftNode RaftNet RaftTester RaftTesterFacts RaftTesterChecks RaftTesterStart.
Local Open Scope Z_scope.

Section agreement.
Context {Cmd : Type} `{EqDecision Cmd}.

(** ** wait *)

(** An [interface{}]: the int -1, or a command. *)
Inductive WaitResult := MovedOn | Decided (cmd : option Cmd).

(** [polled t] is what [nCommitted] reads at its [t]th call, [terms t] are the
    terms the peers answer after it.  The loop is left with the number of the
    next call, or because a peer has moved on. *)
Fixpoint wait_from (polled : nat -> Applied Cmd) (terms : nat -> list Z) (fuel t : nat) (index n startTerm : Z)
    : outcome (option nat) :=
  match fuel with
  | O => Ret (Some t)
  | S fuel =>
      '(nd, _) ← nCommitted (polled t) index;
      if bool_decide (nd >= n) then Ret (Some (S t))
      else if bool_decide (startTerm > -1) && existsb (fun t => bool_decide (t > startTerm)) (terms t) then Ret None
      else wait_from polled terms fuel (S t) index n startTerm
  end.

Definition wait (polled : nat -> Applied Cmd) (terms : nat -> list Z) (index n startTerm : Z) : outcome WaitResult :=
  r ← wait_from polled terms 30 0 index n startTerm;
  match r with
  | None => Ret MovedOn
  | Some t =>
      '(nd, cmd) ← nCommitted (polled t) index;
      if bool_decide (nd < n) then Panic "too few servers decided for index" else Ret (Decided cmd)
  end.

(** ** one *)

(** The loop over the servers, from the one after [starts]; [answers i] is what
    [Start] answers on server [i], [None] if the server is not connected or not
    running. *)
Fixpoint submitRound (answers : Z -> option (Z * bool)) (n fuel : nat) (starts : Z) : Z * Z :=
  match fuel with
  | O => (starts, -1)
  | S fuel =>
      let starts := Z.rem (starts + 1) (Z.of_nat n) in
      match answers starts with
      | Some (index1, true) => (starts, index1)
      | _ => submitRound answers n fuel starts
      end
  end.

(** The loop that polls for agreement. *)
Fixpoint pollAgreement (polled : list (Applied Cmd)) (index : Z) (cmd : option Cmd) (expectedServers : Z) : outcome bool :=
  match polled with
  | [] => Ret false
  | cfg :: polled =>
      '(nd, cmd1) ← nCommitted cfg index;
      if bool_decide (nd > 0) && bool_decide (nd >= expectedServers) && bool_decide (cmd1 = cmd) then Ret true
      else pollAgreement polled index cmd expectedServers
  end.

Definition no_agreement : string := "failed to reach agreement".

(** What happens in one iteration of the outer loop: the answers of the peers
    and the states polled within two seconds. *)
Record Round := mkRound { r_answers : Z -> option (Z * bool); r_polled : list (Applied Cmd) }.

(** [finished] is the flag after the loop. *)
Fixpoint one_from (n : nat) (rounds : list Round) (finished : bool) (starts : Z) (cmd : option Cmd) (expectedServers : Z)
    (retry : bool) : outcome Z :=
  match rounds with
  | [] => if finished then Ret (-1) else Panic no_agreement
  | r :: rounds =>
      let '(starts, index) := submitRound (r_answers r) n n starts in
      if bool_decide (index <> -1) then
        ok ← pollAgreement (r_polled r) index cmd expectedServers;
        if ok : bool then Ret index
        else if negb retry then Panic no_agreement
        else one_from n rounds finished starts cmd expectedServers retry
      else one_from n rounds finished starts cmd expectedServers retry
  end.

Definition one (n : nat) (rounds : list Round) (finished : bool) (cmd : option Cmd) (expectedServers : Z) (retry : bool) : outcome Z :=
  one_from n rounds finished 0 cmd expectedServers retry.

(** ** Sizes, statistics and the end of a test *)

Context `{!GobStream (SnapVal (Cmd := Cmd))} `{!GobStream (gobval Cmd)}.

Definition nil_persister : string := "nil pointer dereference".

Definition LogSize (n : nat) (st : TestConfig Cmd) : outcome Z :=
  for_range n (fun i logsize =>
    ps ← saved_at st i;
    match ps with
    | None => Panic nil_persister
    | Some ps => let n := RaftStateSize ps in Ret (if bool_decide (n > logsize) then n else logsize)
    end) 0.

Record Statistics := mkStatistics { t0 : Z; rpcs0 : Z; cmds0 : Z; bytes0 : Z; maxIndex0 : Z }.

Definition begin_ (now : Z) (net : TestNetwork) (a : Applied Cmd) : Statistics :=
  mkStatistics now (GetTotalCount net) 0 (GetTotalBytes net) (maxIndex a).

(** Times are in nanoseconds; [failed] is [cfg.t.Failed()]. *)
Definition checkTimeout (failed : bool) (start now : Z) : outcome unit :=
  if negb failed && bool_decide (now - start > 120 * 1000000000) then Panic "test took longer than 120 seconds" else Ret tt.

(** What is printed: the elapsed time, the numbers of peers, RPCs, bytes and
    agreements. *)
Definition end_ (failed : bool) (start now : Z) (n : nat) (s : Statistics) (net : TestNetwork) (a : Applied Cmd)
    : outcome (option (Z * Z * Z * Z * Z)) :=
  checkTimeout failed start now;;
  Ret (if failed then None
       else Some (now - t0 s, Z.of_nat n, GetTotalCount net - rpcs0 s, GetTotalBytes net - bytes0 s, maxIndex a - maxIndex0 s)).

(** Closing [endCh] a second time panics in [Cleanup]. *)
Definition cleanup (st : TestConfig Cmd) (failed : bool) (start now : Z) : outcome (bool * TestConfig Cmd) :=
  let finished := true in
  let st := set_rafts st (option_map Kill <$> rafts st) in
  net ← Cleanup (links_net (cfg_links st));
  checkTimeout failed start now;;
  Ret (finished, set_links st (set_net (cfg_links st) net)).
End agreement.

(** ** What one and wait report *)

Section facts.
Context {Cmd : Type} `{EqDecision Cmd} (n : nat).
Implicit Types (msgs : list (Z * ApplyMsg Cmd)) (p : Applied Cmd).

(** The tester has seen the messages [msgs] and no disagreement among them. *)
Definition observed p msgs : Prop := recorded n msgs p /\ well_applied msgs.

(** At least [expected] servers, and at least one, have applied [cmd] at
    [index], and no server has applied anything else there. *)
Definition agreed msgs (index : Z) (cmd : option Cmd) (expected : Z) : Prop :=
  0 < len (appliers_of msgs n index) /\ expected <= len (appliers_of msgs n index) /\
  forall i m, 0 <= i < Z.of_nat n -> (i, m) ∈ msgs -> am_CommandValid m = true -> CommandIndex m = index -> am_Command m = cmd.

Lemma nCommitted_agreed p msgs index cmd expected : observed p msgs ->
  exists nd cmd1, nCommitted p index = Ret (nd, cmd1) /\ nd = len (appliers_of msgs n index) /\
    (agreed msgs index cmd expected <-> nd > 0 /\ nd >= expected /\ cmd1 = cmd).
Proof.
  intros [Hrec Hw]. destruct (nCommitted_spec n msgs p index Hrec Hw) as (cmd1 & E & Hc).
  eexists _, cmd1. split; [exact E|]. split; [done|]. unfold agreed. split.
  - intros (H1 & H2 & H3). split_and!; [lia|lia|].
    destruct (appliers_of msgs n index) as [|a l] eqn:Ea; [unfold len in H1; simpl in H1; lia|].
    assert (a ∈ appliers_of msgs n index) as Ha by (rewrite Ea; left). apply list_elem_of_filter in Ha as [Ha Hs%elem_of_seq].
    apply Is_true_true, applied_at_true in Ha as (m & Hm & Hv & Hi).
    rewrite -(Hc (Z.of_nat a) m); [lia|done|done|done|]. apply (H3 (Z.of_nat a) m); [lia|done|done|done].
  - intros (H1 & H2 & <-). split_and!; [lia|lia|exact Hc].
Qed.

Lemma pollAgreement_spec polled index cmd expected :
  Forall (fun p => exists msgs, observed p msgs) polled ->
  exists ok, pollAgreement polled index cmd expected = Ret ok /\
    (ok = true <-> exists p msgs, p ∈ polled /\ observed p msgs /\ agreed msgs index cmd expected).
Proof.
  induction 1 as [|p polled [msgs Hobs] _ (ok & IH & Hok)].
  { exists false. split; [done|]. split; [done|]. intros (p & msgs & Hp & _). by apply not_elem_of_nil in Hp. }
  cbn [pollAgreement]. destruct (nCommitted_agreed p msgs index cmd expected Hobs) as (nd & cmd1 & E & _ & Hiff).
  rewrite E. cbn [mbind outcome_bind].
  destruct (bool_decide (nd > 0) && bool_decide (nd >= expected) && bool_decide (cmd1 = cmd)) eqn:Eb.
  - exists true. split; [done|]. split; [|done]. intros _. exists p, msgs. split_and!; [left|done|]. apply Hiff.
    apply andb_true_iff in Eb as [[H1%bool_decide_eq_true H2%bool_decide_eq_true]%andb_true_iff H3%bool_decide_eq_true]. done.
  - exists ok. split; [done|]. rewrite Hok. split.
    + intros (p' & msgs' & Hp & Hrest). exists p', msgs'. split; [by right|done].
    + intros (p' & msgs' & [->|Hp]%elem_of_cons & Hobs' & Hag); [exfalso|by exists p', msgs'].
      destruct (nCommitted_agreed p msgs' index cmd expected Hobs') as (nd' & cmd1' & E' & _ & Hiff').
      rewrite E in E'. injection E' as <- <-. apply Hiff' in Hag as (H1 & H2 & H3).
      rewrite !bool_decide_true in Eb; [done|done|done|]. done.
Qed.

(** The servers are tried from the one after [starts], round the cluster. *)
Lemma submitRound_spec (answers : Z -> option (Z * bool)) fuel starts :
  (0 < n)%nat -> 0 <= starts < Z.of_nat n ->
  let '(starts', index) := submitRound answers n fuel starts in
  0 <= starts' < Z.of_nat n /\
  ((index = -1 /\ forall j index1, 1 <= j <= Z.of_nat fuel -> answers (Z.rem (starts + j) (Z.of_nat n)) <> Some (index1, true)) \/
   answers starts' = Some (index, true)).
Proof.
  intros Hn. revert starts. induction fuel as [|fuel IH]; intros starts Hs; cbn [submitRound].
  { split; [done|]. left. split; [done|]. intros j index1 Hj. lia. }
  set (next := Z.rem (starts + 1) (Z.of_nat n)).
  assert (0 <= next < Z.of_nat n) as Hnext by (apply Z.rem_bound_pos; lia).
  assert ((exists index1, answers next = Some (index1, true)) \/ forall index1, answers next <> Some (index1, true)) as [[index1 E]|E].
  { destruct (answers next) as [[index1 []]|]; eauto. }
  - rewrite E. split; [done|]. by right.
  - assert (match answers next with Some (index1, true) => (next, index1) | _ => submitRound answers n fuel next end
      = submitRound answers n fuel next) as ->.
    { destruct (answers next) as [[index1 []]|]; [by destruct (E index1)|done|done]. }
    specialize (IH next Hnext). destruct (submitRound answers n fuel next) as [starts' index]. destruct IH as [Hb [[-> Hno]|Hyes]].
    + split; [done|]. left. split; [done|]. intros j index1 Hj. destruct (decide (j = 1)) as [->|Hne]; [apply E|].
      specialize (Hno (j - 1) index1 ltac:(lia)). assert (next = (starts + 1) `mod` Z.of_nat n) as Em by (apply Z.rem_mod_nonneg; lia).
      rewrite Z.rem_mod_nonneg in Hno; [lia..|]. rewrite Z.rem_mod_nonneg; [lia..|]. rewrite Em Zplus_mod_idemp_l in Hno. by replace (starts + 1 + (j - 1)) with (starts + j) in Hno by lia.
    + split; [done|]. by right.
Qed.

(** In this round some server accepts the command, and wherever it is accepted
    the tester sees agreement on it. *)
Definition agreeing_round (r : Round (Cmd := Cmd)) cmd expected : Prop :=
  (exists i index, 0 <= i < Z.of_nat n /\ r_answers r i = Some (index, true)) /\
  forall i index, 0 <= i < Z.of_nat n -> r_answers r i = Some (index, true) ->
    index <> -1 /\ exists p msgs, p ∈ r_polled r /\ observed p msgs /\ agreed msgs index cmd expected.

Lemma submitRound_accepts (answers : Z -> option (Z * bool)) starts i index :
  0 <= starts < Z.of_nat n -> 0 <= i < Z.of_nat n -> answers i = Some (index, true) ->
  exists starts' index', submitRound answers n n starts = (starts', index') /\ 0 <= starts' < Z.of_nat n /\ answers starts' = Some (index', true).
Proof.
  intros Hs Hi Ha. pose proof (submitRound_spec answers n starts ltac:(lia) Hs) as Hspec.
  destruct (submitRound answers n n starts) as [starts' index']. exists starts', index'. split; [done|].
  destruct Hspec as [Hb [[_ Hno]|Hyes]]; [|done]. exfalso.
  set (j := (i - starts - 1) `mod` Z.of_nat n + 1). assert (1 <= j <= Z.of_nat n) as Hj.
  { pose proof (Z.mod_pos_bound (i - starts - 1) (Z.of_nat n)). lia. }
  apply (Hno j index Hj). rewrite Z.rem_mod_nonneg; [lia..|]. rewrite -Ha. f_equal. unfold j.
  replace (starts + ((i - starts - 1) `mod` Z.of_nat n + 1)) with ((i - starts - 1) `mod` Z.of_nat n + (starts + 1)) by lia.
  rewrite Zplus_mod_idemp_l. replace (i - starts - 1 + (starts + 1)) with i by lia. by apply Z.mod_small.
Qed.

(** Where the command was accepted, and who has applied it. *)
Definition agreement (rounds : list (Round (Cmd := Cmd))) (index : Z) cmd expected : Prop :=
  exists r i p msgs, r ∈ rounds /\ 0 <= i < Z.of_nat n /\ r_answers r i = Some (index, true) /\
    p ∈ r_polled r /\ observed p msgs /\ agreed msgs index cmd expected.

Definition observed_round (r : Round (Cmd := Cmd)) : Prop := Forall (fun p => exists msgs, observed p msgs) (r_polled r).

Lemma one_from_spec rounds finished cmd expected retry starts :
  (0 < n)%nat -> 0 <= starts < Z.of_nat n -> Forall observed_round rounds ->
  (forall index, one_from n rounds finished starts cmd expected retry = Ret index ->
     (index = -1 /\ finished = true) \/ (index <> -1 /\ agreement rounds index cmd expected)) /\
  (retry = true -> Exists (fun r => agreeing_round r cmd expected) rounds ->
     exists index, one_from n rounds finished starts cmd expected retry = Ret index /\ index <> -1).
Proof.
  intros Hn Hs Hobs. revert starts Hs. induction Hobs as [|r rounds Hr _ IH]; intros starts Hs.
  { split; [|by intros _ ?%Exists_nil]. simpl. destruct finished; [|done]. intros index [= <-]. by left. }
  pose proof (submitRound_spec (r_answers r) n starts Hn Hs) as Hspec. cbn [one_from].
  destruct (submitRound (r_answers r) n n starts) as [starts' index] eqn:Et. destruct Hspec as [Hb Hacc].
  destruct (IH starts' Hb) as [IH1 IH2].
  assert (forall index0, agreement rounds index0 cmd expected -> agreement (r :: rounds) index0 cmd expected) as Hmore.
  { intros index0 (r0 & i & p & msgs & Hin & Hrest). exists r0, i, p, msgs. split; [by right|done]. }
  destruct (pollAgreement_spec (r_polled r) index cmd expected Hr) as (ok & -> & Hok). cbn [mbind outcome_bind].
  destruct (decide (index = -1)) as [->|Hne].
  - rewrite bool_decide_false; [by intros ?|]. split.
    + intros index0 E. destruct (IH1 index0 E) as [?|[? ?]]; [by left|right; auto].
    + intros Hretry [[(i & idx & Hi & Ha) Hall]|Hex]%Exists_cons; [|by apply IH2]. exfalso.
      destruct (submitRound_accepts (r_answers r) starts i idx Hs Hi Ha) as (s2 & i2 & E2 & Hb2 & Ha2). rewrite Et in E2.
      injection E2 as <- <-. by destruct (Hall _ _ Hb2 Ha2).
  - rewrite bool_decide_true //. destruct Hacc as [[-> _]|Ha]; [done|]. split.
    + destruct ok.
      * intros index0 [= <-]. right. split; [done|]. destruct (proj1 Hok eq_refl) as (p & msgs & Hp & Ho & Hag).
        exists r, starts', p, msgs. split_and!; [left|lia|lia|done|done|done|done].
      * destruct (negb retry); [done|]. intros index0 E. destruct (IH1 index0 E) as [?|[? ?]]; [by left|right; auto].
    + intros -> Hex. destruct ok; [by exists index|]. cbn [negb]. apply IH2; [done|].
      apply Exists_cons in Hex as [[_ Hall]|Hex]; [|done]. exfalso. destruct (Hall _ _ Hb Ha) as [_ Hag]. by apply Hok in Hag.
Qed.

(** C38. [one] returns an index only after a connected server accepted the
    command at that index and the tester saw at least [expectedServers] servers
    apply it there and none apply anything else; the only other value it returns
    is -1, when the test is over.  With [retry] it does not give up as long as
    there is one round in which a server accepts the command and the servers
    agree on it in time: whatever the other rounds do, it returns such an index. *)
Theorem one_reports_agreement rounds finished cmd expectedServers retry :
  (0 < n)%nat -> Forall observed_round rounds ->
  (forall index, one n rounds finished cmd expectedServers retry = Ret index ->
     (index = -1 /\ finished = true) \/ (index <> -1 /\ agreement rounds index cmd expectedServers)) /\
  (retry = true -> Exists (fun r => agreeing_round r cmd expectedServers) rounds ->
     exists index, one n rounds finished cmd expectedServers retry = Ret index /\ index <> -1).
Proof. intros Hn Hobs. apply one_from_spec; [done|lia|done]. Qed.

(** [wait] returns a command only if the tester saw at least [wanted] servers
    apply it at [index]; otherwise it fails, or a peer was seen in a later term
    than [startTerm]. *)
Lemma wait_reports_agreement polled terms index wanted startTerm :
  (forall t, exists msgs, observed (polled t) msgs) -> 0 < wanted ->
  match wait polled terms index wanted startTerm with
  | Ret (Decided cmd) => exists t msgs, observed (polled t) msgs /\ agreed msgs index cmd wanted
  | Ret MovedOn => startTerm > -1 /\ exists t T, T ∈ terms t /\ T > startTerm
  | Panic e => e = "too few servers decided for index"%string
  end.
Proof.
  intros Hobs Hw. unfold wait.
  assert (forall fuel t, exists r, wait_from polled terms fuel t index wanted startTerm = Ret r /\
    (r = None -> startTerm > -1 /\ exists t T, T ∈ terms t /\ T > startTerm)) as Hfrom.
  { induction fuel as [|fuel IH]; intros t; cbn [wait_from]; [by exists (Some t)|].
    destruct (Hobs t) as [msgs Ho]. destruct (nCommitted_agreed _ msgs index None wanted Ho) as (nd & c & -> & _). cbn [mbind outcome_bind].
    destruct (bool_decide (nd >= wanted)); [by exists (Some (S t))|].
    destruct (bool_decide (startTerm > -1) && existsb _ (terms t)) eqn:Eb; [|apply IH]. exists None. split; [done|]. intros _.
    apply andb_true_iff in Eb as [H1%bool_decide_eq_true (T & HT & H2%bool_decide_eq_true)%existsb_exists].
    split; [done|]. exists t, T. split; [by apply list_elem_of_In|done]. }
  destruct (Hfrom 30%nat 0%nat) as (r & -> & Hnone). cbn [mbind outcome_bind]. destruct r as [t|]; [|by apply Hnone].
  destruct (Hobs t) as [msgs Ho].
  destruct (nCommitted_spec n msgs (polled t) index (proj1 Ho) (proj2 Ho)) as (cmd & E & Hc). rewrite E. cbn [mbind outcome_bind].
  case_bool_decide; [done|]. exists t, msgs. split; [done|]. split_and!; [lia|lia|exact Hc].
Qed.
End facts.

(** Two servers apply 5 at index 1; the second accepts the command there. *)
Definition accepted_by_1 (i : Z) : option (Z * bool) := if bool_decide (i = 1) then Some (1, true) else Some (0, false).

Lemma one_reports_agreement_witness :
  exists cfg index, run_applier 2 agreeing = Ret cfg /\
    one 2 [mkRound (fun _ => None) []; mkRound accepted_by_1 [cfg]] false (Some 5) 2 true = Ret index /\ index <> -1.
Proof.
  assert (Forall (fun im => 0 <= im.1 < Z.of_nat 2) agreeing) as Hin by (repeat constructor; simpl; lia).
  destruct (run_applier_spec 2 agreeing Hin) as [(Hw & cfg & E & Hrec)|(_ & e & E)]; [|vm_compute in E; discriminate E].
  exists cfg. assert (observed 2 cfg agreeing) as Hobs by done.
  destruct (one_reports_agreement 2 [mkRound (fun _ => None) []; mkRound accepted_by_1 [cfg]] false (Some 5) 2 true) as [_ Hlive].
  - lia.
  - constructor; [constructor|]. constructor; [|constructor]. constructor; [by exists agreeing|constructor].
  - destruct Hlive as (index & Hone & Hne); [done| |by exists index].
    apply Exists_cons_tl, Exists_cons_hd. split; [exists 1, 1; split; [lia|done]|].
    intros i index Hi Ha. unfold accepted_by_1 in Ha. simpl in Ha. case_bool_decide; [|done]. injection Ha as <-. split; [done|].
    exists cfg, agreeing. split_and!; [left|done|]. split; [by vm_compute|]. split; [by vm_compute|].
    intros j m Hj Hm _ Hidx. unfold agreeing in Hm. repeat (apply elem_of_cons in Hm as [[= -> ->]|Hm]; [first [done|discriminate Hidx]|]).
    by apply elem_of_nil in Hm.
Defined.
