(* ===== verification/ServiceTester.v ===== *)
(** * ServiceTester: the tests of the replicated services

    src/src/kvraft/config.go starts key/value servers and clerks on the
    simulated network and partitions it; src/src/shardctrler/config.go is the
    same program for the shard controller.  [TestedServer] is what the tester
    uses of a server; [kv_tested] and [ctrler_tested] are the two services, each
    with its Raft peer. *)

From S2P Require Import Prelude LabGob LabRpc RaftLog Persister RaftNode RaftService KVStore KVServer ShardConfig ShardServer RaftTester.
Local Open Scope Z_scope.

(** [n] peers, the server's index and its persister make a server; it keeps
    writing to that persister. *)
Class TestedServer (Srv : Type) := {
  ts_start : nat -> Z -> Persister -> outcome Srv;
  ts_Kill : Srv -> Srv;
  ts_GetState : Srv -> Z * bool;
  ts_persister : Srv -> Persister;
}.

(** [rand.Intn(i + 1)] is [intn i]. *)
Definition random_handles {A} (intn : Z -> Z) (kvh : list A) : outcome (list A) :=
  for_range (length kvh) (fun i sa =>
    let j := intn i in
    x ← slice_get sa i; y ← slice_get sa j;
    sa ← slice_set sa i y; slice_set sa j x) kvh.

Section tester.
Context {Srv : Type} {ts : TestedServer Srv}.

Record ServiceTest := mkServiceTest {
  st_net : TestNetwork;
  servers_ : list (option Srv);
  st_saved : list (option Persister);
  st_endnames : list (list string);     (* names of each server's sending ClientEnds *)
  clerks : gmap nat (list string);      (* by the address of the clerk *)
  nextClientId : Z;
  killed_servers : list Srv;            (* no longer referenced by the tester *)
}.
Implicit Types cfg : ServiceTest.

Definition set_st_net cfg v := mkServiceTest v (servers_ cfg) (st_saved cfg) (st_endnames cfg) (clerks cfg) (nextClientId cfg) (killed_servers cfg).
Definition set_servers_ cfg v dead := mkServiceTest (st_net cfg) v (st_saved cfg) (st_endnames cfg) (clerks cfg) (nextClientId cfg) dead.
Definition set_st_saved cfg v := mkServiceTest (st_net cfg) (servers_ cfg) v (st_endnames cfg) (clerks cfg) (nextClientId cfg) (killed_servers cfg).
Definition set_st_endnames cfg v := mkServiceTest (st_net cfg) (servers_ cfg) (st_saved cfg) v (clerks cfg) (nextClientId cfg) (killed_servers cfg).
Definition set_clerks cfg v next := mkServiceTest (st_net cfg) (servers_ cfg) (st_saved cfg) (st_endnames cfg) v next (killed_servers cfg).

Definition enableName (names : list (list string)) (i j : Z) (yes : bool) (net : TestNetwork) : outcome TestNetwork :=
  row ← slice_get names i;
  e ← slice_get row j;
  Ret (Enable net (inl e) yes).

(** ** Links between servers *)

Definition connectUnlocked cfg (i : Z) (to : list Z) : outcome ServiceTest :=
  let names := st_endnames cfg in
  net ← for_range (length to) (fun j net => t ← slice_get to j; enableName names i t true net) (st_net cfg);
  net ← for_range (length to) (fun j net => t ← slice_get to j; enableName names t i true net) net;
  Ret (set_st_net cfg net).

(** The second guard looks at row [j], not at row [from[j]]. *)
Definition disconnectUnlocked cfg (i : Z) (from : list Z) : outcome ServiceTest :=
  let names := st_endnames cfg in
  net ← for_range (length from) (fun j net => row ← slice_get names i;
          if bool_decide (row <> []) then t ← slice_get from j; enableName names i t false net else Ret net) (st_net cfg);
  net ← for_range (length from) (fun j net => row ← slice_get names j;
          if bool_decide (row <> []) then t ← slice_get from j; enableName names t i false net else Ret net) net;
  Ret (set_st_net cfg net).

Definition All (n : nat) : list Z := seqZ 0 (Z.of_nat n).

Definition ConnectAll (n : nat) cfg : outcome ServiceTest :=
  for_range n (fun i cfg => connectUnlocked cfg i (All n)) cfg.

Definition partition cfg (p1 p2 : list Z) : outcome ServiceTest :=
  cfg ← for_range (length p1) (fun i cfg =>
          x ← slice_get p1 i; cfg ← disconnectUnlocked cfg x p2; connectUnlocked cfg x p1) cfg;
  for_range (length p2) (fun i cfg =>
    x ← slice_get p2 i; cfg ← disconnectUnlocked cfg x p1; connectUnlocked cfg x p2) cfg.

(** ** Clerks *)

Definition enable_clerk (names : list string) (to : list Z) (yes : bool) (net : TestNetwork) : outcome TestNetwork :=
  for_range (length to) (fun j net => t ← slice_get to j; s ← slice_get names t; Ret (Enable net (inl s) yes)) net.

Definition ConnectClientUnlocked cfg (ck : nat) (to : list Z) : outcome ServiceTest :=
  let endnames := default [] (clerks cfg !! ck) in
  net ← enable_clerk endnames to true (st_net cfg);
  Ret (set_st_net cfg net).

Definition DisconnectClientUnlocked cfg (ck : nat) (from : list Z) : outcome ServiceTest :=
  let endnames := default [] (clerks cfg !! ck) in
  net ← enable_clerk endnames from false (st_net cfg);
  Ret (set_st_net cfg net).

(** [names] are the results of [randstring]; the clerk is at the address [ck],
    and gets its ends in the returned order. *)
Definition makeClient (n : nat) cfg (ck : nat) (names : nat -> string) (intn : Z -> Z) (to : list Z) : outcome (list string * ServiceTest) :=
  let endnames := names <$> seq 0 n in
  net ← for_range n (fun j net => e ← slice_get endnames j; net ← MakeEnd net (inl e); Ret (Connect net (inl e) (inr j))) (st_net cfg);
  handles ← random_handles intn endnames;
  let cfg := set_clerks (set_st_net cfg net) (<[ck := endnames]> (clerks cfg)) (nextClientId cfg + 1) in
  cfg ← ConnectClientUnlocked cfg ck to;
  Ret (handles, cfg).

Definition deleteClient cfg (ck : nat) : ServiceTest := set_clerks cfg (delete ck (clerks cfg)) (nextClientId cfg).

(** ** Servers *)

(** [*cfg.saved[i]]: a running server writes to the same object. *)
Definition current_saved cfg (i : Z) : outcome (option Persister) :=
  kv ← slice_get (servers_ cfg) i;
  ps ← slice_get (st_saved cfg) i;
  Ret (match kv with Some kv => Some (ts_persister kv) | None => ps end).

Definition ShutdownServer (n : nat) cfg (i : Z) : outcome ServiceTest :=
  cfg ← disconnectUnlocked cfg i (All n);
  let cfg := set_st_net cfg (DeleteServer (st_net cfg) (inr i)) in
  ps ← current_saved cfg i;
  sv ← slice_set (st_saved cfg) i (Copy <$> ps);
  let cfg := set_st_saved cfg sv in
  kv ← slice_get (servers_ cfg) i;
  match kv with
  | Some kv =>
      srv ← slice_set (servers_ cfg) i None;
      Ret (set_servers_ cfg srv (killed_servers cfg ++ [ts_Kill kv]))
  | None => Ret cfg
  end.

(** [p] is the address of the new [labrpc.Server]. *)
Definition StartServer_ (n : nat) cfg (i : Z) (names : nat -> string) (p : nat) : outcome ServiceTest :=
  let row := names <$> seq 0 n in
  es ← slice_set (st_endnames cfg) i row;
  let cfg := set_st_endnames cfg es in
  net ← for_range n (fun j net => e ← slice_get row j; net ← MakeEnd net (inl e); Ret (Connect net (inl e) (inr j))) (st_net cfg);
  let cfg := set_st_net cfg net in
  ps ← current_saved cfg i;
  let ps := match ps with Some ps => Copy ps | None => MakePersister end in
  sv ← slice_set (st_saved cfg) i (Some ps);
  let cfg := set_st_saved cfg sv in
  kv ← ts_start n i ps;
  srv ← slice_set (servers_ cfg) i (Some kv);
  let cfg := set_servers_ cfg srv (killed_servers cfg) in
  Ret (set_st_net cfg (AddServer (st_net cfg) (inr i) p)).

(** [cfg.kvservers[i].rf] of a server that is shut down is a nil dereference. *)
Fixpoint Leader_from (srvs : list (option Srv)) (i : Z) : outcome (bool * Z) :=
  match srvs with
  | [] => Ret (false, 0)
  | None :: _ => Panic "nil pointer dereference"
  | Some kv :: srvs => if (ts_GetState kv).2 then Ret (true, i) else Leader_from srvs (i + 1)
  end.

Definition Leader cfg : outcome (bool * Z) := Leader_from (servers_ cfg) 0.

(** The shard controller's tester skips servers that are shut down. *)
Fixpoint ctrler_Leader_from (srvs : list (option Srv)) (i : Z) : bool * Z :=
  match srvs with
  | [] => (false, 0)
  | None :: srvs => ctrler_Leader_from srvs (i + 1)
  | Some kv :: srvs => if (ts_GetState kv).2 then (true, i) else ctrler_Leader_from srvs (i + 1)
  end.

Definition ctrler_Leader cfg : outcome (bool * Z) := Ret (ctrler_Leader_from (servers_ cfg) 0).

Definition make_partition (n : nat) (leader : outcome (bool * Z)) : outcome (list Z * list Z) :=
  '(_, l) ← leader;
  let p1 := replicate (n / 2 + 1) 0 in
  let p2 := replicate (n / 2) 0 in
  '(_, p1, p2) ← for_range n (fun i '(j, p1, p2) =>
      if bool_decide (i <> l) then
        if bool_decide (j < len p1) then p1 ← slice_set p1 j i; Ret (j + 1, p1, p2)
        else p2 ← slice_set p2 (j - len p1) i; Ret (j + 1, p1, p2)
      else Ret (j, p1, p2)) (0, p1, p2);
  p2 ← slice_set p2 (len p2 - 1) l;
  Ret (p1, p2).

Definition make_config_ (n : nat) (unreliable : bool) (names : Z -> nat -> string) (p : Z -> nat) : outcome ServiceTest :=
  let cfg := mkServiceTest MakeNetwork (replicate n None) (replicate n None) (replicate n []) ∅ (Z.of_nat n + 1000) [] in
  cfg ← for_range n (fun i cfg => StartServer_ n cfg i (names i) (p i)) cfg;
  cfg ← ConnectAll n cfg;
  Ret (set_st_net cfg (Reliable (st_net cfg) (negb unreliable))).
End tester.
Arguments ServiceTest Srv : clear implicits.

(** ** The two services *)

#[export] Instance kv_tested `{!GobStream (gobval KVStore.Op)} `{!GobStream kvgob} (maxraftstate : Z) : TestedServer (KVServer * Raft KVStore.Op) := {|
  ts_start n i ps := kv ← StartKVServer i maxraftstate (ReadSnapshot ps); Ret (kv, Make n i ps);
  ts_Kill '(kv, rf) := kv_Kill kv rf;
  ts_GetState '(_, rf) := GetState rf;
  ts_persister '(_, rf) := persister rf;
|}.

#[export] Instance ctrler_tested `{!GobStream (gobval ShardServer.Op)} : TestedServer (ShardCtrler * Raft ShardServer.Op) := {|
  ts_start n i ps := Ret (StartServer i, Make n i ps);
  ts_Kill '(sc, rf) := sc_Kill sc rf;
  ts_GetState '(_, rf) := GetState rf;
  ts_persister '(_, rf) := persister rf;
|}.
