(* ===== verification/ServiceTesterFacts.v ===== *)
(** * ServiceTesterFacts: partitions of the service tests

    [make_partition] splits an odd number of servers into a majority and a
    minority that holds the leader, and [partition] enables exactly the ends
    inside each part.  [random_handles] permutes the ends of a clerk. *)

From S2P Require Import Prelude LabGob LabRpc RaftLog Persister RaftNode RaftService RaftTester RaftTesterFacts RaftTesterStart ServiceTester.
Local Open Scope Z_scope.

Lemma random_handles_perm {A} (intn : Z -> Z) (kvh : list A) :
  (forall i, 0 <= i -> 0 <= intn i <= i) -> exists sa, random_handles intn kvh = Ret sa /\ sa ≡ₚ kvh.
Proof.
  intros Hr. unfold random_handles.
  match goal with |- context [for_range ?n ?f ?a] => destruct (for_range_inv (fun _ sa => sa ≡ₚ kvh) f n a) as (sa & -> & Hp) end; [done| |by exists sa].
  intros i sa Hi Hp. pose proof (Permutation_length Hp) as Hlen. specialize (Hr i ltac:(lia)).
  destruct (lookup_lt_is_Some_2 sa (Z.to_nat i)) as [x Hx]; [lia|]. destruct (lookup_lt_is_Some_2 sa (Z.to_nat (intn i))) as [y Hy]; [lia|].
  rewrite (proj2 (slice_get_nat sa i x ltac:(lia)) Hx) (proj2 (slice_get_nat sa (intn i) y ltac:(lia)) Hy). cbn [mbind outcome_bind].
  assert (slice_set sa i y = Ret (<[Z.to_nat i := y]> sa)) as -> by (apply slice_set_ret; split; [unfold len; lia|done]). cbn [mbind outcome_bind].
  eexists. split; [apply slice_set_ret; split; [unfold len; rewrite length_insert; lia|done]|]. rewrite -Hp.
  apply Permutation_insert_swap; done.
Qed.

(** ** Links *)

Definition name_of (names : list (list string)) (i j : Z) : option string := names !! Z.to_nat i ≫= fun row => row !! Z.to_nat j.

Section facts.
Context {Srv : Type} {ts : TestedServer Srv} (n : nat).
Implicit Types cfg : ServiceTest Srv.

(** [n] started servers with end names of their own. *)
Record names_wf (names : list (list string)) : Prop := {
  nw_rows : length names = n;
  nw_row : forall i row, names !! i = Some row -> length row = n;
  nw_distinct : forall i j i' j' e, 0 <= i -> 0 <= j -> 0 <= i' -> 0 <= j' ->
    name_of names i j = Some e -> name_of names i' j' = Some e -> i = i' /\ j = j';
}.

(** Whether the end from [x] to [y] is enabled. *)
Definition link (names : list (list string)) (net : TestNetwork) (x y : Z) : bool :=
  match name_of names x y with Some e => lookup_enabled net (inl e) | None => false end.

Definition server (x : Z) : Prop := 0 <= x < Z.of_nat n.

Lemma enableName_total names x y yes net : names_wf names -> server x -> server y ->
  exists e, name_of names x y = Some e /\ enableName names x y yes net = Ret (Enable net (inl e) yes).
Proof.
  intros Hwf Hx Hy. unfold server in *. pose proof (nw_rows _ Hwf) as Hr.
  destruct (lookup_lt_is_Some_2 names (Z.to_nat x)) as [row Hrow]; [lia|]. pose proof (nw_row _ Hwf _ _ Hrow) as Hlen.
  destruct (lookup_lt_is_Some_2 row (Z.to_nat y)) as [e He]; [lia|]. exists e. unfold name_of, enableName. rewrite Hrow.
  split; [done|]. rewrite (proj2 (slice_get_nat names x row ltac:(lia)) Hrow). cbn [mbind outcome_bind].
  by rewrite (proj2 (slice_get_nat row y e ltac:(lia)) He).
Qed.

(** A loop that sets the ends between [src j] and [dst j] for the elements [j] of [ids]. *)
Lemma enable_list names net (ids : list Z) (src dst : Z -> Z) yes f :
  names_wf names -> Forall (fun t => server (src t) /\ server (dst t)) ids ->
  (forall j net t, ids !! Z.to_nat j = Some t -> 0 <= j < len ids -> f j net = enableName names (src t) (dst t) yes net) ->
  exists net', for_range (length ids) f net = Ret net' /\
    forall x y, server x -> server y ->
      link names net' x y = if bool_decide ((x, y) ∈ (fun t => (src t, dst t)) <$> ids) then yes else link names net x y.
Proof.
  intros Hwf Hids Hf. rewrite Forall_forall in Hids.
  pose (upd j := ids !! Z.to_nat j ≫= fun t => inl (B := Z) <$> name_of names (src t) (dst t)).
  destruct (enable_loop (length ids) f upd yes net) as (net' & -> & He).
  { intros j net' Hj. destruct (lookup_lt_is_Some_2 ids (Z.to_nat j)) as [t Ht]; [lia|]. rewrite (Hf j net' t Ht Hj). unfold upd. rewrite Ht. cbn [mbind option_bind].
    destruct (Hids t) as [Hs Hd]; [by apply (list_elem_of_lookup_2 ids (Z.to_nat j) t)|].
    destruct (enableName_total names (src t) (dst t) yes net' Hwf Hs Hd) as (e & -> & ->). done. }
  exists net'. split; [done|]. intros x y Hx Hy. unfold link.
  destruct (enableName_total names x y yes net Hwf Hx Hy) as (e & En & _). rewrite En.
  case_bool_decide as Hin.
  - apply list_elem_of_fmap in Hin as (t & [= -> ->] & [j Hj]%list_elem_of_lookup). apply He. exists (Z.of_nat j).
    split; [apply lookup_lt_Some in Hj; lia|]. unfold upd. rewrite Nat2Z.id Hj. cbn [mbind option_bind]. by rewrite En.
  - apply He. intros j Hj Hu. apply Hin. unfold upd in Hu.
    destruct (ids !! Z.to_nat j) as [t|] eqn:Ht; [|done]. cbn [mbind option_bind] in Hu. destruct (name_of names (src t) (dst t)) as [e'|] eqn:E'; [|done].
    injection Hu as ->. destruct (Hids t) as [Hs Hd]; [by apply (list_elem_of_lookup_2 ids (Z.to_nat j) t)|]. unfold server in *.
    destruct (nw_distinct _ Hwf (src t) (dst t) x y e) as [<- <-]; [lia..|done|done|].
    apply list_elem_of_fmap. exists t. split; [done|]. by apply (list_elem_of_lookup_2 ids (Z.to_nat j) t).
Qed.

(** The pairs between [i] and the servers of [l]. *)
Definition touches (i : Z) (l : list Z) (x y : Z) : Prop := x = i /\ y ∈ l \/ y = i /\ x ∈ l.

#[local] Instance touches_dec i l x y : Decision (touches i l x y).
Proof. unfold touches. apply _. Defined.

Lemma touches_pairs i l x y : (x, y) ∈ (fun t => (i, t)) <$> l \/ (x, y) ∈ (fun t => (t, i)) <$> l <-> touches i l x y.
Proof. unfold touches. rewrite !list_elem_of_fmap. naive_solver. Qed.

(** Two loops that set the ends between [i] and the servers of [ids]. *)
Lemma two_loops names net i ids yes f1 f2 :
  names_wf names -> server i -> Forall server ids ->
  (forall j net t, ids !! Z.to_nat j = Some t -> 0 <= j < len ids -> f1 j net = enableName names i t yes net) ->
  (forall j net t, ids !! Z.to_nat j = Some t -> 0 <= j < len ids -> f2 j net = enableName names t i yes net) ->
  exists net1 net2, for_range (length ids) f1 net = Ret net1 /\ for_range (length ids) f2 net1 = Ret net2 /\
    forall x y, server x -> server y ->
      link names net2 x y = if bool_decide (touches i ids x y) then yes else link names net x y.
Proof.
  intros Hwf Hi Hids Hf1 Hf2.
  destruct (enable_list names net ids (fun _ => i) (fun t => t) yes f1) as (net1 & E1 & H1); [done|by eapply Forall_impl; [exact Hids|]|done|].
  destruct (enable_list names net1 ids (fun t => t) (fun _ => i) yes f2) as (net2 & E2 & H2); [done|by eapply Forall_impl; [exact Hids|]|done|].
  exists net1, net2. split_and!; [done|done|]. intros x y Hx Hy. rewrite (H2 x y Hx Hy) (H1 x y Hx Hy).
  pose proof (touches_pairs i ids x y) as Ht. repeat case_bool_decide; tauto.
Qed.

Lemma connectUnlocked_spec cfg i to : names_wf (st_endnames cfg) -> server i -> Forall server to ->
  exists net, connectUnlocked cfg i to = Ret (set_st_net cfg net) /\ forall x y, server x -> server y ->
    link (st_endnames cfg) net x y = if bool_decide (touches i to x y) then true else link (st_endnames cfg) (st_net cfg) x y.
Proof.
  intros Hwf Hi Hto. unfold connectUnlocked.
  pose (f1 j net := t ← slice_get to j; enableName (st_endnames cfg) i t true net).
  pose (f2 j net := t ← slice_get to j; enableName (st_endnames cfg) t i true net).
  destruct (two_loops (st_endnames cfg) (st_net cfg) i to true f1 f2) as (net1 & net2 & E1 & E2 & Hl); [done..| | |].
  - intros j net t Ht Hj. unfold f1. by rewrite (proj2 (slice_get_nat to j t ltac:(lia)) Ht).
  - intros j net t Ht Hj. unfold f2. by rewrite (proj2 (slice_get_nat to j t ltac:(lia)) Ht).
  - unfold f1 in E1. rewrite E1. cbn [mbind outcome_bind]. unfold f2 in E2. rewrite E2. by exists net2.
Qed.

Lemma disconnectUnlocked_spec cfg i from : names_wf (st_endnames cfg) -> server i -> Forall server from -> (length from <= n)%nat ->
  exists net, disconnectUnlocked cfg i from = Ret (set_st_net cfg net) /\ forall x y, server x -> server y ->
    link (st_endnames cfg) net x y = if bool_decide (touches i from x y) then false else link (st_endnames cfg) (st_net cfg) x y.
Proof.
  intros Hwf Hi Hfrom Hlen. unfold disconnectUnlocked.
  assert (forall x, server x -> exists row, slice_get (st_endnames cfg) x = Ret row /\ bool_decide (row <> []) = true) as Hrow.
  { intros x Hx. unfold server in Hx. destruct (lookup_lt_is_Some_2 (st_endnames cfg) (Z.to_nat x)) as [row Hr]; [rewrite (nw_rows _ Hwf); lia|].
    exists row. split; [by apply slice_get_nat; [lia|]|]. apply bool_decide_eq_true. intros ->. apply (nw_row _ Hwf) in Hr. simpl in Hr. lia. }
  pose (f1 j net := row ← slice_get (st_endnames cfg) i;
    if bool_decide (row <> []) then t ← slice_get from j; enableName (st_endnames cfg) i t false net else Ret net).
  pose (f2 j net := row ← slice_get (st_endnames cfg) j;
    if bool_decide (row <> []) then t ← slice_get from j; enableName (st_endnames cfg) t i false net else Ret net).
  destruct (two_loops (st_endnames cfg) (st_net cfg) i from false f1 f2) as (net1 & net2 & E1 & E2 & Hl); [done..| | |].
  - intros j net t Ht Hj. unfold f1. destruct (Hrow i Hi) as (row & -> & Hb). cbn [mbind outcome_bind]. rewrite Hb.
    by rewrite (proj2 (slice_get_nat from j t ltac:(lia)) Ht).
  - intros j net t Ht Hj. unfold f2. destruct (Hrow j) as (row & -> & Hb); [unfold server, len in *; lia|]. cbn [mbind outcome_bind]. rewrite Hb.
    by rewrite (proj2 (slice_get_nat from j t ltac:(lia)) Ht).
  - unfold f1 in E1. rewrite E1. cbn [mbind outcome_bind]. unfold f2 in E2. rewrite E2. by exists net2.
Qed.

(** One half of [partition]: every server of [p] is cut off from [q] and
    connected to the rest of [p]. *)
Lemma part_loop cfg p q : names_wf (st_endnames cfg) -> Forall server p -> Forall server q -> (length q <= n)%nat ->
  (forall x, x ∈ p -> x ∈ q -> False) ->
  exists net, for_range (length p) (fun i cfg => x ← slice_get p i; cfg ← disconnectUnlocked cfg x q; connectUnlocked cfg x p) cfg = Ret (set_st_net cfg net) /\
    forall x y, server x -> server y ->
      (x ∈ p -> y ∈ p -> link (st_endnames cfg) net x y = true) /\
      (x ∈ p /\ y ∈ q \/ x ∈ q /\ y ∈ p -> link (st_endnames cfg) net x y = false) /\
      (x ∉ p -> y ∉ p -> link (st_endnames cfg) net x y = link (st_endnames cfg) (st_net cfg) x y).
Proof.
  intros Hwf Hp Hq Hlen Hdis.
  match goal with |- context [for_range ?m ?f ?a] => destruct (for_range_inv (fun k cfg' => 0 <= k /\ exists net, cfg' = set_st_net cfg net /\
    forall x y, server x -> server y ->
      (x ∈ take (Z.to_nat k) p /\ y ∈ p \/ y ∈ take (Z.to_nat k) p /\ x ∈ p -> link (st_endnames cfg) net x y = true) /\
      (x ∈ take (Z.to_nat k) p /\ y ∈ q \/ x ∈ q /\ y ∈ take (Z.to_nat k) p -> link (st_endnames cfg) net x y = false) /\
      (x ∉ p -> y ∉ p -> link (st_endnames cfg) net x y = link (st_endnames cfg) (st_net cfg) x y)) f m a) as (cfg' & -> & _ & net & -> & Hl) end.
  - split; [done|]. exists (st_net cfg). split; [by destruct cfg|]. intros x y Hx Hy. rewrite take_0 !elem_of_nil. naive_solver.
  - intros k cfg1 Hk (_ & net & -> & Hl). destruct (lookup_lt_is_Some_2 p (Z.to_nat k)) as [t Ht]; [lia|].
    pose proof (list_elem_of_lookup_2 _ _ _ Ht) as Htp. assert (server t) as Hst by (rewrite Forall_forall in Hp; by apply Hp).
    rewrite (proj2 (slice_get_nat p k t ltac:(lia)) Ht). cbn [mbind outcome_bind].
    destruct (disconnectUnlocked_spec (set_st_net cfg net) t q) as (net1 & -> & H1); [done..|]. cbn [mbind outcome_bind].
    destruct (connectUnlocked_spec (set_st_net (set_st_net cfg net) net1) t p) as (net2 & -> & H2); [done..|].
    eexists. split; [done|]. split; [lia|]. exists net2. split; [done|]. intros x y Hx Hy. cbn [st_endnames st_net set_st_net] in H1, H2.
    replace (Z.to_nat (k + 1)) with (S (Z.to_nat k)) by lia. rewrite (take_S_r _ _ _ Ht) !elem_of_app !list_elem_of_singleton.
    rewrite (H2 x y Hx Hy) (H1 x y Hx Hy). specialize (Hl x y Hx Hy) as (Ht1 & Ht2 & Ht3).
    assert (forall z, z ∈ take (Z.to_nat k) p -> z ∈ p) as Hsub by (intros z Hz; rewrite -(take_drop (Z.to_nat k) p) elem_of_app; by left).
    pose proof (Hsub x) as Hsx. pose proof (Hsub y) as Hsy. pose proof (Hdis x) as Hdx. pose proof (Hdis y) as Hdy. clear Hsub H1 H2 Hp Hq.
    unfold touches. split_and!.
    + intros Hin. case_bool_decide as E1; [done|]. case_bool_decide as E2; naive_solver.
    + intros Hin. case_bool_decide as E1; [naive_solver|]. case_bool_decide as E2; naive_solver.
    + intros Hnx Hny. case_bool_decide as E1; [naive_solver|]. case_bool_decide as E2; naive_solver.
  - exists net. split; [done|]. intros x y Hx Hy. rewrite Nat2Z.id firstn_all in Hl. specialize (Hl x y Hx Hy). naive_solver.
Qed.

(** [partition] of disjoint parts enables the ends inside each part and
    disables those between them. *)
Lemma partition_spec cfg p1 p2 : names_wf (st_endnames cfg) -> Forall server p1 -> Forall server p2 ->
  (length p1 <= n)%nat -> (length p2 <= n)%nat -> (forall x, x ∈ p1 -> x ∈ p2 -> False) ->
  exists net, partition cfg p1 p2 = Ret (set_st_net cfg net) /\ forall x y, server x -> server y ->
    (x ∈ p1 /\ y ∈ p1 \/ x ∈ p2 /\ y ∈ p2 -> link (st_endnames cfg) net x y = true) /\
    (x ∈ p1 /\ y ∈ p2 \/ x ∈ p2 /\ y ∈ p1 -> link (st_endnames cfg) net x y = false).
Proof.
  intros Hwf H1 H2 Hl1 Hl2 Hdis. unfold partition.
  destruct (part_loop cfg p1 p2) as (net1 & -> & Hn1); [done..|]. cbn [mbind outcome_bind].
  destruct (part_loop (set_st_net cfg net1) p2 p1) as (net2 & -> & Hn2); [done..|by intros x ? ?; apply (Hdis x)|].
  exists net2. split; [done|]. intros x y Hx Hy. cbn [st_endnames st_net set_st_net] in Hn2.
  destruct (Hn1 x y Hx Hy) as (Ha & Hb & _). destruct (Hn2 x y Hx Hy) as (Hc & Hd & He).
  pose proof (Hdis x). pose proof (Hdis y). clear Hn1 Hn2. split; [|naive_solver].
  intros [[Hx1 Hy1]|[Hx2 Hy2]]; [|by apply Hc]. rewrite He; [by auto..|]. by apply Ha.
Qed.

(** ** Choosing the parts *)

(** The servers below [k] other than [l]. *)
Definition others (l k : Z) : list Z := filter (fun x => x <> l) (seqZ 0 k).

Lemma others_S l k : 0 <= k -> others l (k + 1) = others l k ++ (if bool_decide (k <> l) then [k] else []).
Proof.
  intros Hk. unfold others. rewrite seqZ_app; [lia|lia|]. rewrite filter_app. f_equal. simpl. rewrite filter_cons filter_nil.
  by case_bool_decide; case_decide.
Qed.

Lemma others_length l k : 0 <= l -> 0 <= k -> len (others l k) = if bool_decide (l < k) then k - 1 else k.
Proof.
  intros Hl Hk. revert k Hk. apply natlike_ind; [rewrite bool_decide_false //; lia|]. intros k Hk IH.
  rewrite -Z.add_1_r others_S // /len length_app. unfold len in IH. rewrite Nat2Z.inj_add IH. repeat case_bool_decide; simpl; lia.
Qed.

Lemma others_perm l k : 0 <= l < k -> others l k ++ [l] ≡ₚ seqZ 0 k.
Proof.
  intros Hl. apply NoDup_Permutation.
  - apply NoDup_app. split_and!; [apply NoDup_filter, NoDup_seqZ| |apply NoDup_singleton].
    intros x [Hne _]%list_elem_of_filter ->%list_elem_of_singleton. done.
  - apply NoDup_seqZ.
  - intros x. unfold others. rewrite elem_of_app list_elem_of_filter list_elem_of_singleton elem_of_seqZ.
    destruct (decide (x = l)) as [->|]; [|naive_solver]. split; [lia|by right].
Qed.

(** Filling the next slot of the two slices. *)
Lemma fill_slot (p1 p2 pre rest : list Z) (j x v : Z) :
  p1 ++ p2 = pre ++ v :: rest -> j = len pre ->
  exists p1' p2', (if bool_decide (j < len p1) then p1 ← slice_set p1 j x; Ret (j + 1, p1, p2)
                   else p2 ← slice_set p2 (j - len p1) x; Ret (j + 1, p1, p2)) = Ret (j + 1, p1', p2') /\
    length p1' = length p1 /\ length p2' = length p2 /\ p1' ++ p2' = pre ++ x :: rest.
Proof.
  intros E ->. pose proof (f_equal length E) as Hlen. rewrite !length_app /= in Hlen. unfold len.
  assert (<[length pre := x]> (p1 ++ p2) = pre ++ x :: rest) as Hins.
  { rewrite E -{1}(Nat.add_0_r (length pre)) insert_app_r. done. }
  case_bool_decide as Hj.
  - rewrite (slice_set_nat p1); [lia|]. cbn [mbind outcome_bind].
    eexists _, _. split; [done|]. rewrite Nat2Z.id length_insert. split_and!; [done|done|]. rewrite -insert_app_l //; lia.
  - rewrite (slice_set_nat p2); [lia|]. cbn [mbind outcome_bind].
    eexists _, _. split; [done|]. rewrite length_insert. split_and!; [done|done|]. rewrite -Hins insert_app_r_alt; [lia|].
    do 2 f_equal. lia.
Qed.

(** For an odd number of servers the two slices hold every server once, the
    leader in the last slot. *)
Lemma make_partition_spec (h : nat) (leader : outcome (bool * Z)) b l :
  n = (2 * h + 1)%nat -> (1 <= h)%nat -> leader = Ret (b, l) -> server l ->
  exists p1 p2, make_partition n leader = Ret (p1, p2) /\ length p1 = S h /\ length p2 = h /\ p1 ++ p2 = others l (Z.of_nat n) ++ [l].
Proof.
  intros Hn Hh -> Hl. unfold server in Hl. unfold make_partition. cbn [mbind outcome_bind].
  replace (n / 2)%nat with h by (subst n; rewrite Nat.mul_comm Nat.div_add_l; [lia|]; simpl; lia).
  match goal with |- context [for_range n ?f ?a] => destruct (for_range_inv (fun k '(j, p1, p2) => 0 <= k /\ j = len (others l k) /\ length p1 = S h /\ length p2 = h /\
    exists rest, p1 ++ p2 = others l k ++ rest) f n a) as ([[j p1] p2] & -> & _ & Hj & Hl1 & Hl2 & rest & Hp) end.
  - split_and!; [done|done|rewrite length_replicate; lia|by rewrite length_replicate|]. by eexists.
  - intros k [[j p1] p2] Hk (_ & Hj & Hl1 & Hl2 & rest & Hp). rewrite others_S; [lia|]. case_bool_decide as Hne.
    + pose proof (others_length l k) as Hol. pose proof (f_equal length Hp) as Hlen. rewrite !length_app in Hlen.
      assert (len (others l k) < Z.of_nat n) as Hlt by (rewrite Hol; [lia|lia|]; case_bool_decide; lia). unfold len in Hlt.
      destruct rest as [|v rest]; [simpl in Hlen; lia|].
      destruct (fill_slot p1 p2 (others l k) rest j k v Hp Hj) as (p1' & p2' & -> & Hl1' & Hl2' & Hp'). eexists. split; [done|]. cbn beta iota.
      split_and!; [lia|rewrite Hj /len length_app; simpl; lia|congruence|congruence|]. exists rest. by rewrite -app_assoc.
    + eexists. split; [done|]. cbn beta iota. rewrite app_nil_r. split_and!; [lia|done..|]. by exists rest.
  - cbn [mbind outcome_bind]. pose proof (others_length l (Z.of_nat n)) as Hol. pose proof (f_equal length Hp) as Hlen. rewrite !length_app in Hlen.
    unfold len in Hol. rewrite bool_decide_true in Hol; [lia|].
    destruct rest as [|v [|w rest]]; [simpl in Hlen; lia| |simpl in Hlen; lia].
    destruct (fill_slot p1 p2 (others l (Z.of_nat n)) [] (len (others l (Z.of_nat n))) l v Hp eq_refl) as (p1' & p2' & Ef & Hl1' & Hl2' & Hp').
    rewrite bool_decide_false in Ef; [unfold len; lia|]. replace (len p2 - 1) with (len (others l (Z.of_nat n)) - len p1) by (unfold len; lia).
    destruct (slice_set p2 (len (others l (Z.of_nat n)) - len p1) l) as [p2''|e]; [|discriminate Ef]. cbn [mbind outcome_bind] in *.
    injection Ef as <- <-. exists p1, p2''. split_and!; [done..|congruence|done].
Qed.

Lemma Leader_from_range (srvs : list (option Srv)) i b l : Leader_from srvs i = Ret (b, l) -> l = 0 \/ i <= l < i + Z.of_nat (length srvs).
Proof.
  revert i. induction srvs as [|[kv|] srvs IH]; intros i; simpl; [intros [= <- <-]; by left| |done].
  destruct (ts_GetState kv).2; [intros [= <- <-]; right; lia|]. intros [->|H]%IH; [by left|right; lia].
Qed.

(** The partition tests: with an odd number of running servers,
    [make_partition] succeeds and splits them into a majority and a minority
    that holds the leader; after [partition] two servers reach each other exactly
    if they are in the same part. *)
Lemma partition_isolates_leader (h : nat) cfg b l :
  n = (2 * h + 1)%nat -> (1 <= h)%nat -> names_wf (st_endnames cfg) -> length (servers_ cfg) = n -> Leader cfg = Ret (b, l) ->
  exists p1 p2 net, make_partition n (Leader cfg) = Ret (p1, p2) /\ p1 ++ p2 ≡ₚ All n /\ (length p2 < length p1)%nat /\ l ∈ p2 /\
    partition cfg p1 p2 = Ret (set_st_net cfg net) /\
    forall x y, server x -> server y -> link (st_endnames cfg) net x y = bool_decide (x ∈ p1 <-> y ∈ p1).
Proof.
  intros Hn Hh Hwf Hs HL. assert (server l) as Hl by (apply Leader_from_range in HL; unfold server; lia).
  destruct (make_partition_spec h (Leader cfg) b l Hn Hh HL Hl) as (p1 & p2 & Hm & Hl1 & Hl2 & Hp).
  assert (p1 ++ p2 ≡ₚ All n) as Hperm by (rewrite Hp; by apply others_perm).
  assert (forall x, server x <-> x ∈ p1 \/ x ∈ p2) as Hin.
  { intros x. rewrite -elem_of_app Hperm. unfold All, server. rewrite elem_of_seqZ. lia. }
  assert (NoDup (p1 ++ p2)) as Hnd by (rewrite Hperm; apply NoDup_seqZ). apply NoDup_app in Hnd as (_ & Hdis & _).
  destruct (partition_spec cfg p1 p2) as (net & Hpart & Hlink); [done|apply Forall_forall; intros x ?; apply Hin; by left|apply Forall_forall; intros x ?; apply Hin; by right|lia|lia|by intros x ? ?; apply (Hdis x)|].
  exists p1, p2, net. split_and!; [done|done|lia| |done|].
  - assert (last (p1 ++ p2) = Some l) as Hlast by (rewrite Hp; apply last_snoc).
    rewrite last_app in Hlast. destruct (last p2) as [z|] eqn:E; [|apply last_None in E; subst p2; simpl in Hl2; lia].
    injection Hlast as ->. by apply last_Some_elem_of.
  - intros x y Hx Hy. destruct (Hlink x y Hx Hy) as [Ht Hf]. pose proof (proj1 (Hin x) Hx). pose proof (proj1 (Hin y) Hy).
    pose proof (Hdis x). pose proof (Hdis y). case_bool_decide; [apply Ht|apply Hf]; tauto.
Qed.

(** ** Restarting a server *)

Lemma disconnectUnlocked_ends cfg i from net : disconnectUnlocked cfg i from = Ret (set_st_net cfg net) -> ends net = ends (st_net cfg).
Proof.
  unfold disconnectUnlocked. intros E. inv_ret.
  apply loop_keeps_ends in Hm, Hm0.
  - by rewrite Hm0 Hm.
  - intros j net1 net2 E. unfold enableName in E. inv_ret. case_bool_decide; by inv_ret.
  - intros j net1 net2 E. unfold enableName in E. inv_ret. case_bool_decide; by inv_ret.
Qed.

(** [ShutdownServer] cuts the server off and keeps what it persisted, from
    which [StartServer] makes the next one. *)
Lemma restart_server cfg i kv (names : nat -> string) p kv' :
  names_wf (st_endnames cfg) -> server i -> length (servers_ cfg) = n -> length (st_saved cfg) = n ->
  servers_ cfg !! Z.to_nat i = Some (Some kv) -> fresh_names n (st_net cfg) names -> ts_start n i (ts_persister kv) = Ret kv' ->
  exists cfg1 cfg2, ShutdownServer n cfg i = Ret cfg1 /\ StartServer_ n cfg1 i names p = Ret cfg2 /\
    (forall j, server j -> link (st_endnames cfg) (st_net cfg1) i j = false /\ link (st_endnames cfg) (st_net cfg1) j i = false) /\
    killed_servers cfg1 = killed_servers cfg ++ [ts_Kill kv] /\
    servers_ cfg2 = <[Z.to_nat i := Some kv']> (servers_ cfg) /\ st_saved cfg2 = <[Z.to_nat i := Some (ts_persister kv)]> (st_saved cfg).
Proof.
  intros Hwf Hi Hlr Hls Hkv Hfresh Hstart. unfold server in Hi. assert (0 <= i) as H0 by lia.
  destruct (disconnectUnlocked_spec cfg i (All n)) as (net & Ed & Hl); [done|done|apply Forall_forall; intros x Hx; by apply elem_of_seqZ in Hx|unfold All; rewrite length_seqZ; lia|].
  destruct (lookup_lt_is_Some_2 (st_saved cfg) (Z.to_nat i)) as [ops Hops]; [lia|].
  assert (ShutdownServer n cfg i = Ret (mkServiceTest (DeleteServer net (inr i)) (<[Z.to_nat i := None]> (servers_ cfg))
    (<[Z.to_nat i := Some (ts_persister kv)]> (st_saved cfg)) (st_endnames cfg) (clerks cfg) (nextClientId cfg) (killed_servers cfg ++ [ts_Kill kv]))) as Es.
  { unfold ShutdownServer. rewrite Ed. cbn [mbind outcome_bind]. unfold current_saved. cbn [servers_ st_saved set_st_net].
    rewrite (slice_get_some _ _ _ H0 Hkv) (slice_get_some _ _ _ H0 Hops). cbn [mbind outcome_bind].
    rewrite (slice_set_nat (st_saved cfg)); [lia|]. cbn [mbind outcome_bind servers_ st_saved set_st_net set_st_saved].
    rewrite ?(slice_get_some _ _ _ H0 Hkv). cbn [mbind outcome_bind]. rewrite (slice_set_nat (servers_ cfg)); [lia|].
    cbn. by destruct (ts_persister kv). }
  destruct (make_ends n names (DeleteServer net (inr i))) as (net2 & En & _).
  { destruct Hfresh as [Hf Hinj]. split; [|done]. intros j Hj. cbn [ends DeleteServer set_servers]. rewrite (disconnectUnlocked_ends _ _ _ _ Ed). by apply Hf. }
  eexists _, (mkServiceTest (AddServer net2 (inr i) p) _ _ _ _ _ _). split; [exact Es|]. split.
  - unfold StartServer_. cbn [st_endnames servers_ st_saved st_net]. rewrite slice_set_nat; [rewrite (nw_rows _ Hwf); lia|].
    cbn [mbind outcome_bind st_net set_st_endnames]. rewrite En. cbn [mbind outcome_bind]. unfold current_saved. cbn [servers_ st_saved set_st_net set_st_endnames].
    rewrite (slice_get_some (<[_ := None]> _) i None H0); [apply list_lookup_insert_eq; lia|].
    rewrite (slice_get_some (<[_ := _]> (st_saved cfg)) i (Some (ts_persister kv)) H0); [apply list_lookup_insert_eq; lia|]. cbn [mbind outcome_bind].
    assert (Copy (ts_persister kv) = ts_persister kv) as -> by by destruct (ts_persister kv).
    rewrite slice_set_nat; [rewrite length_insert; lia|]. cbn [mbind outcome_bind]. rewrite Hstart. cbn [mbind outcome_bind servers_ set_st_saved set_st_net set_st_endnames].
    rewrite slice_set_nat; [rewrite length_insert; lia|]. reflexivity.
  - cbn [servers_ st_saved killed_servers st_net]. rewrite !list_insert_insert_eq. split_and!; [|done..].
    intros j Hj. unfold server in Hj. assert (forall x y, touches i (All n) x y -> 0 <= x < Z.of_nat n -> 0 <= y < Z.of_nat n -> link (st_endnames cfg) (DeleteServer net (inr i)) x y = false) as Hoff.
    { intros x y Ht Hx Hy. transitivity (link (st_endnames cfg) net x y); [done|]. rewrite Hl // bool_decide_true //. }
    unfold touches, All in Hoff. setoid_rewrite elem_of_seqZ in Hoff. split; apply Hoff; lia.
Qed.
End facts.

(** ** Limits of the tester *)

(** The guard of the second loop of [disconnectUnlocked] looks at the wrong
    row: server 1 has no end names yet, and its row is read all the same. *)
Example disconnect_unstarted_panics {Srv} net (srvs : list (option Srv)) ps ck k dead :
  disconnectUnlocked (mkServiceTest net srvs ps [["a"; "b"]; []]%string ck k dead) 0 [1] = Panic index_error.
Proof. reflexivity. Qed.

(** With an even number of servers a slot stays 0: server 0 is in both parts. *)
Example even_partition_overlaps : make_partition 4 (Ret (true, 2)) = Ret ([0; 1; 3], [0; 2]).
Proof. reflexivity. Qed.

(** ** Witness *)

(** Three peers as servers, the second leads. *)
#[local] Instance toy_tested : TestedServer (Z * bool) := {|
  ts_start _ i _ := Ret (i, false); ts_Kill s := s; ts_GetState s := s; ts_persister _ := MakePersister |}.

Definition toy_config : ServiceTest (Z * bool) :=
  mkServiceTest MakeNetwork [Some (1, false); Some (1, true); Some (1, false)] [None; None; None]
    [["a"; "b"; "c"]; ["d"; "e"; "f"]; ["g"; "h"; "i"]]%string ∅ 1003 [].

Lemma toy_names_wf : names_wf 3 (st_endnames toy_config).
Proof.
  constructor; [done| |].
  - intros [|[|[|i]]] row E; simpl in E; try done; by injection E as <-.
  - intros i j i' j' e Hi Hj Hi' Hj'. unfold name_of. simpl.
    destruct (Z.to_nat i) as [|[|[|?]]] eqn:Ei; simpl; try done; destruct (Z.to_nat j) as [|[|[|?]]] eqn:Ej; simpl; try done; intros [= <-];
    destruct (Z.to_nat i') as [|[|[|?]]] eqn:Ei'; simpl; try done; destruct (Z.to_nat j') as [|[|[|?]]] eqn:Ej'; simpl; try done; intros _; lia.
Qed.

Lemma partition_isolates_leader_witness :
  exists net, make_partition 3 (Leader toy_config) = Ret ([0; 2], [1]) /\ partition toy_config [0; 2] [1] = Ret (set_st_net toy_config net) /\
    link (st_endnames toy_config) net 0 2 = true /\ link (st_endnames toy_config) net 1 2 = false.
Proof.
  destruct (partition_isolates_leader 3 1 toy_config true 1) as (p1 & p2 & net & Hm & _ & _ & _ & Hp & Hl).
  - reflexivity.
  - lia.
  - exact toy_names_wf.
  - reflexivity.
  - reflexivity.
  - vm_compute in Hm. injection Hm as <- <-. exists net. split; [reflexivity|]. split; [exact Hp|].
    rewrite !Hl; unfold server; try lia. split; reflexivity.
Defined.
