(* ===== verification/ServiceTesterEnd.v ===== *)
(** * ServiceTesterEnd: sizes, statistics and the end of a test

    The rest of src/src/kvraft/config.go: the functions that take the lock, the
    sizes the tests compare with [maxraftstate], the statistics, and [cleanup].
    [Module Ctrler] is src/src/shardctrler/config.go: the tester of ServiceTester
    for servers of the shard controller, with its own [Leader]; [Module
    Original] is src/src/shardctrler_original/config.go. *)

From S2P Require Import Prelude LabGob LabRpc RaftLog Persister RaftNode RaftService ShardConfig ShardServer ShardOriginal ShardOriginalServer RaftTester RaftTesterOne ServiceTester.
Local Open Scope Z_scope.

Section rest.
Context {Srv : Type} {ts : TestedServer Srv}.
Implicit Types cfg : ServiceTest Srv.

(** The functions of this name take the lock and call the unlocked ones. *)
Definition st_connect cfg (i : Z) (to : list Z) := connectUnlocked cfg i to.
Definition st_disconnect cfg (i : Z) (from : list Z) := disconnectUnlocked cfg i from.
Definition ConnectClient cfg (ck : nat) (to : list Z) := ConnectClientUnlocked cfg ck to.
Definition DisconnectClient cfg (ck : nat) (from : list Z) := DisconnectClientUnlocked cfg ck from.

(** The largest size over the servers; a nil persister is a nil dereference. *)
Definition maxSize (size : Persister -> Z) (n : nat) cfg : outcome Z :=
  for_range n (fun i largest =>
    ps ← current_saved cfg i;
    match ps with
    | None => Panic "nil pointer dereference"
    | Some ps => let n := size ps in Ret (if bool_decide (n > largest) then n else largest)
    end) 0.

Definition st_LogSize (n : nat) cfg : outcome Z := maxSize RaftStateSize n cfg.
Definition st_SnapshotSize (n : nat) cfg : outcome Z := maxSize SnapshotSize n cfg.

Definition st_checkTimeout (failed : bool) (start now : Z) : outcome unit :=
  if negb failed && bool_decide (now - start > 120 * 1000000000) then Panic "test took longer than 120 seconds" else Ret tt.

Definition st_cleanup cfg (failed : bool) (start now : Z) : outcome (ServiceTest Srv) :=
  let srvs := option_map ts_Kill <$> servers_ cfg in
  net ← Cleanup (st_net cfg);
  st_checkTimeout failed start now;;
  Ret (set_st_net (set_servers_ cfg srvs (killed_servers cfg)) net).

(** [t0], [rpcs0] and [ops] *)
Record Counters := mkCounters { c_t0 : Z; c_rpcs0 : Z; c_ops : Z }.

Definition st_begin (now : Z) cfg : Counters := mkCounters now (GetTotalCount (st_net cfg)) 0.

(** [atomic.AddInt32] *)
Definition st_op (c : Counters) : Counters := mkCounters (c_t0 c) (c_rpcs0 c) (wrap 32 (c_ops c + 1)).

(** The numbers that are printed: elapsed time, peers, RPCs and calls. *)
Definition st_end (failed : bool) (start now : Z) (n : nat) (c : Counters) cfg : outcome (option (Z * Z * Z * Z)) :=
  st_checkTimeout failed start now;;
  Ret (if failed then None else Some (now - c_t0 c, Z.of_nat n, GetTotalCount (st_net cfg) - c_rpcs0 c, c_ops c)).

(** The size is that of a server, or 0, and no server has a larger one. *)
Lemma maxSize_spec size n cfg m : maxSize size n cfg = Ret m ->
  (m = 0 \/ exists i ps, 0 <= i < Z.of_nat n /\ current_saved cfg i = Ret (Some ps) /\ size ps = m) /\
  forall i ps, 0 <= i < Z.of_nat n -> current_saved cfg i = Ret (Some ps) -> size ps <= m.
Proof.
  intros E.
  apply (for_range_post (fun k m => (m = 0 \/ exists i ps, 0 <= i < k /\ current_saved cfg i = Ret (Some ps) /\ size ps = m) /\
    forall i ps, 0 <= i < k -> current_saved cfg i = Ret (Some ps) -> size ps <= m) _ _ _ _ E).
  - split; [by left|]. intros i ps Hi. lia.
  - intros j m0 m1 Hj [Hor Hmax] Hs. apply outcome_bind_ret in Hs as (o & Ho & Hs). destruct o as [ps|]; [|done]. injection Hs as <-.
    assert (forall i ps', 0 <= i < j + 1 -> current_saved cfg i = Ret (Some ps') -> size ps' <= m0 \/ ps' = ps) as Hcase.
    { intros i ps' Hi Hps'. destruct (decide (i = j)) as [->|]; [right; congruence|left; apply (Hmax i); [lia|done]]. }
    case_bool_decide as Hlt.
    + split; [right; exists j, ps; split_and!; [lia|lia|done|done]|]. intros i ps' Hi Hps'. destruct (Hcase i ps' Hi Hps') as [?| ->]; lia.
    + split; [|intros i ps' Hi Hps'; destruct (Hcase i ps' Hi Hps') as [?| ->]; lia].
      destruct Hor as [->|(i & ps' & Hi & H1 & H2)]; [by left|right]. exists i, ps'. split_and!; [lia|lia|done|done].
Qed.
End rest.

Module Ctrler.
Section ctrler.
Context `{!GobStream (gobval ShardServer.Op)}.
Notation Srv := (ShardCtrler * Raft ShardServer.Op)%type.
Implicit Types cfg : ServiceTest Srv.

Definition sct_connect cfg (i : Z) (to : list Z) := connectUnlocked cfg i to.
Definition sct_disconnect cfg (i : Z) (from : list Z) := disconnectUnlocked cfg i from.
Definition sct_ConnectAll (n : nat) cfg := ConnectAll n cfg.
Definition sct_partition cfg (p1 p2 : list Z) := partition cfg p1 p2.
Definition sct_makeClient (n : nat) cfg (ck : nat) names intn (to : list Z) := makeClient n cfg ck names intn to.
Definition sct_deleteClient cfg (ck : nat) := deleteClient cfg ck.
Definition sct_ConnectClient cfg (ck : nat) (to : list Z) := ConnectClientUnlocked cfg ck to.
Definition sct_DisconnectClient cfg (ck : nat) (from : list Z) := DisconnectClientUnlocked cfg ck from.
Definition sct_ShutdownServer (n : nat) cfg (i : Z) := ShutdownServer n cfg i.
Definition sct_StartServer (n : nat) cfg (i : Z) names (p : nat) := StartServer_ n cfg i names p.
Definition sct_make_partition (n : nat) cfg := make_partition n (ctrler_Leader cfg).
Definition sct_make_config (n : nat) (unreliable : bool) names p : outcome (ServiceTest Srv) := make_config_ n unreliable names p.
Definition sct_LogSize (n : nat) cfg := maxSize RaftStateSize n cfg.
Definition sct_cleanup cfg (failed : bool) (start now : Z) := st_cleanup cfg failed start now.
End ctrler.
End Ctrler.

(** src/src/shardctrler_original/config.go is the text of
    shardctrler/config.go; it starts servers of the other package. *)
Module Original.
Section original.
Context `{!GobStream (gobval ShardServer.Op)}.
Notation Srv := (ShardCtrler * Raft ShardServer.Op)%type.
Implicit Types cfg : ServiceTest Srv.

#[local] Instance orig_tested : TestedServer Srv | 0 := {|
  ts_start n i ps := Ret (orig_StartServer i, Make n i ps);
  ts_Kill '(sc, rf) := orig_Kill sc rf;
  ts_GetState '(_, rf) := GetState rf;
  ts_persister '(_, rf) := persister rf;
|}.

Definition orig_connect cfg (i : Z) (to : list Z) := connectUnlocked cfg i to.
Definition orig_disconnect cfg (i : Z) (from : list Z) := disconnectUnlocked cfg i from.
Definition orig_ConnectAll (n : nat) cfg := ConnectAll n cfg.
Definition orig_partition cfg (p1 p2 : list Z) := partition cfg p1 p2.
Definition orig_makeClient (n : nat) cfg (ck : nat) names intn (to : list Z) := makeClient n cfg ck names intn to.
Definition orig_deleteClient cfg (ck : nat) := deleteClient cfg ck.
Definition orig_ConnectClient cfg (ck : nat) (to : list Z) := ConnectClientUnlocked cfg ck to.
Definition orig_DisconnectClient cfg (ck : nat) (from : list Z) := DisconnectClientUnlocked cfg ck from.
Definition orig_ShutdownServer (n : nat) cfg (i : Z) := ShutdownServer n cfg i.
Definition orig_StartTestServer (n : nat) cfg (i : Z) names (p : nat) := StartServer_ n cfg i names p.
Definition orig_Leader cfg := ctrler_Leader cfg.
Definition orig_make_partition (n : nat) cfg := make_partition n (orig_Leader cfg).
Definition orig_make_config (n : nat) (unreliable : bool) names p : outcome (ServiceTest Srv) := make_config_ n unreliable names p.
Definition orig_LogSize (n : nat) cfg := maxSize RaftStateSize n cfg.
Definition orig_cleanup cfg (failed : bool) (start now : Z) := st_cleanup cfg failed start now.

(** A server that the tester starts hangs on the first [Join] it applies. *)
Lemma tested_server_hangs (n : nat) (i : Z) ps srv fuel (msg : ApplyMsg Op) op :
  ts_start n i ps = Ret srv -> am_CommandValid msg = true -> 0 < CommandIndex msg -> am_Command msg = Some op -> OpType op = OpJoin ->
  orig_applyMessage fuel srv.1 srv.2 msg = Panic "out of fuel".
Proof.
  intros [= <-] Hv Hi Hc Ho.
  by apply (original_replica_hangs fuel (orig_StartServer i) (Make n i ps) msg op DefaultConfig); [..|left].
Qed.
End original.
End Original.
