(* ===== verification/ShardKVTester.v ===== *)
(** * ShardKVTester: the tests of the sharded service, src/src/shardkv/config.go

    Three controllers and three groups of [n] servers on one network, on which
    servers and ends have strings as names.  The servers of
    src/src/shardkv/server.go are a skeleton: a Raft peer and the parameters it
    was started with.  [rnd k] is the [k]th result of [randstring]; a [group] is
    shared by reference, so changing it changes the list of the configuration.
    A running server writes to the persister object it was started with. *)

From S2P Require Import Prelude LabGob LabRpc RaftLog Persister RaftNode RaftService ShardConfig ShardServer.
Local Open Scope Z_scope.

Notation KVNet := (Network (Name := string)).

(** [Op] is an empty struct. *)
Notation KVOp := unit.

Section tester.
Context `{!GobStream (gobval KVOp)} `{!GobStream (gobval ShardServer.Op)} (rnd : nat -> string).

(** ** server.go *)

(** [make_end] is the operation of the tester below. *)
Record ShardKV := mkShardKV {
  skv_me : Z;
  skv_rf : Raft KVOp;
  skv_gid : Z;
  skv_ctrlers : list string;
  skv_maxraftstate : Z;
}.

Definition ShardKV_Kill (kv : ShardKV) : ShardKV :=
  mkShardKV (skv_me kv) (Kill (skv_rf kv)) (skv_gid kv) (skv_ctrlers kv) (skv_maxraftstate kv).

Definition ShardKV_StartServer (servers : list string) (me : Z) (ps : Persister) (maxraftstate gid : Z) (ctrlers : list string) : ShardKV :=
  mkShardKV me (Make (length servers) me ps) gid ctrlers maxraftstate.

(** ** config.go *)

Record group := mkGroup {
  g_gid : Z;
  g_servers : list (option ShardKV);
  g_saved : list (option Persister);
  g_endnames : list (list string);
  mendnames : list (list string);
}.

Record ShardTest := mkShardTest {
  sk_net : KVNet;
  nctrlers : nat;
  ctrlerservers : list (option (ShardCtrler * Raft ShardServer.Op));
  mck : list string;                   (* the ends of the clerk of the controllers *)
  ngroups : nat;
  sk_n : nat;                          (* servers per group *)
  groups : list group;
  sk_clerks : gmap nat (list string);  (* by the address of the clerk *)
  sk_nextClientId : Z;
  sk_maxraftstate : Z;
  sk_rand : nat;                       (* calls of randstring so far *)
  sk_objects : nat;                    (* labrpc.Server objects made so far *)
}.
Implicit Types cfg : ShardTest.

Definition set_sk_net cfg net rand := mkShardTest net (nctrlers cfg) (ctrlerservers cfg) (mck cfg) (ngroups cfg) (sk_n cfg) (groups cfg) (sk_clerks cfg) (sk_nextClientId cfg) (sk_maxraftstate cfg) rand (sk_objects cfg).
Definition set_groups cfg v := mkShardTest (sk_net cfg) (nctrlers cfg) (ctrlerservers cfg) (mck cfg) (ngroups cfg) (sk_n cfg) v (sk_clerks cfg) (sk_nextClientId cfg) (sk_maxraftstate cfg) (sk_rand cfg) (sk_objects cfg).
Definition set_ctrlers cfg v := mkShardTest (sk_net cfg) (nctrlers cfg) v (mck cfg) (ngroups cfg) (sk_n cfg) (groups cfg) (sk_clerks cfg) (sk_nextClientId cfg) (sk_maxraftstate cfg) (sk_rand cfg) (sk_objects cfg).
Definition set_sk_clerks cfg v next := mkShardTest (sk_net cfg) (nctrlers cfg) (ctrlerservers cfg) (mck cfg) (ngroups cfg) (sk_n cfg) (groups cfg) v next (sk_maxraftstate cfg) (sk_rand cfg) (sk_objects cfg).
Definition set_mck cfg v := mkShardTest (sk_net cfg) (nctrlers cfg) (ctrlerservers cfg) v (ngroups cfg) (sk_n cfg) (groups cfg) (sk_clerks cfg) (sk_nextClientId cfg) (sk_maxraftstate cfg) (sk_rand cfg) (sk_objects cfg).

(** [labrpc.MakeServer] and [cfg.net.AddServer(name, srv)] *)
Definition addServer cfg (name : string) : ShardTest :=
  mkShardTest (AddServer (sk_net cfg) name (sk_objects cfg)) (nctrlers cfg) (ctrlerservers cfg) (mck cfg) (ngroups cfg) (sk_n cfg) (groups cfg) (sk_clerks cfg) (sk_nextClientId cfg) (sk_maxraftstate cfg) (sk_rand cfg) (S (sk_objects cfg)).

Definition ctrlername (i : Z) : string := "ctrler" +:+ pretty i.
Definition servername (gid i : Z) : string := "server-" +:+ pretty gid +:+ "-" +:+ pretty i.

(** The next [k] random strings. *)
Definition randstrings (rand k : nat) : list string := rnd <$> seq rand k.

(** New ends with the given names, the [j]th to server [dest j]. *)
Definition openEnds (names : list string) (dest : Z -> string) (net : KVNet) : outcome KVNet :=
  for_range (length names) (fun j net =>
    e ← slice_get names j;
    net ← MakeEnd net e;
    Ret (Enable (Connect net e (dest j)) e true)) net.

(** The closure handed to servers and clerks. *)
Definition make_end cfg (server : string) : outcome (string * ShardTest) :=
  let name := rnd (sk_rand cfg) in
  net ← MakeEnd (sk_net cfg) name;
  Ret (name, set_sk_net cfg (Enable (Connect net name server) name true) (S (sk_rand cfg))).

(** [endnames] has room for [cfg.n] names, the loop stores [cfg.nctrlers]. *)
Definition shard_makeClient cfg (ck : nat) : outcome ShardTest :=
  '(endnames, net, rand) ← for_range (nctrlers cfg) (fun j '(endnames, net, rand) =>
      endnames ← slice_set endnames j (rnd rand);
      net ← MakeEnd net (rnd rand);
      Ret (endnames, Enable (Connect net (rnd rand) (ctrlername j)) (rnd rand) true, S rand))
    (replicate (sk_n cfg) EmptyString, sk_net cfg, sk_rand cfg);
  Ret (set_sk_clerks (set_sk_net cfg net rand) (<[ck := endnames]> (sk_clerks cfg)) (sk_nextClientId cfg + 1)).

Definition shard_deleteClient cfg (ck : nat) : ShardTest := set_sk_clerks cfg (delete ck (sk_clerks cfg)) (sk_nextClientId cfg).

(** [*gg.saved[i]] *)
Definition group_saved (gg : group) (i : Z) : outcome (option Persister) :=
  kv ← slice_get (g_servers gg) i;
  ps ← slice_get (g_saved gg) i;
  Ret (match kv with Some kv => Some (persister (skv_rf kv)) | None => ps end).

Definition disableEnds (names : list string) (k : nat) (net : KVNet) : outcome KVNet :=
  for_range k (fun j net => name ← slice_get names j; Ret (Enable net name false)) net.

(** The killed instance is no longer referenced. *)
Definition shard_ShutdownServer cfg (gi i : Z) : outcome ShardTest :=
  gg ← slice_get (groups cfg) gi;
  net ← for_range (length (g_servers gg)) (fun j net =>
          row ← slice_get (g_endnames gg) i; name ← slice_get row j; Ret (Enable net name false)) (sk_net cfg);
  mrow ← slice_get (mendnames gg) i;
  net ← disableEnds mrow (length mrow) net;
  let net := DeleteServer net (servername (g_gid gg) i) in
  ps ← group_saved gg i;
  sv ← slice_set (g_saved gg) i (Copy <$> ps);
  srv ← slice_set (g_servers gg) i None;
  gs ← slice_set (groups cfg) gi (mkGroup (g_gid gg) srv sv (g_endnames gg) (mendnames gg));
  Ret (set_groups (set_sk_net cfg net (sk_rand cfg)) gs).

Definition ShutdownGroup cfg (gi : Z) : outcome ShardTest :=
  for_range (sk_n cfg) (fun i cfg => shard_ShutdownServer cfg gi i) cfg.

Definition shard_StartServer cfg (gi i : Z) : outcome ShardTest :=
  gg ← slice_get (groups cfg) gi;
  let n := sk_n cfg in
  let row := randstrings (sk_rand cfg) n in
  ens ← slice_set (g_endnames gg) i row;
  net ← openEnds row (servername (g_gid gg)) (sk_net cfg);
  let rand := (sk_rand cfg + n)%nat in
  let mrow := randstrings rand (nctrlers cfg) in
  mens ← slice_set (mendnames gg) i mrow;
  net ← openEnds mrow ctrlername net;
  ps ← group_saved gg i;
  let ps := match ps with Some ps => Copy ps | None => MakePersister end in
  sv ← slice_set (g_saved gg) i (Some ps);
  srv ← slice_set (g_servers gg) i (Some (ShardKV_StartServer row i ps (sk_maxraftstate cfg) (g_gid gg) mrow));
  gs ← slice_set (groups cfg) gi (mkGroup (g_gid gg) srv sv ens mens);
  Ret (addServer (set_groups (set_sk_net cfg net (rand + nctrlers cfg)%nat) gs) (servername (g_gid gg) i)).

Definition StartGroup cfg (gi : Z) : outcome ShardTest :=
  for_range (sk_n cfg) (fun i cfg => shard_StartServer cfg gi i) cfg.

Definition StartCtrlerserver cfg (i : Z) : outcome ShardTest :=
  let names := randstrings (sk_rand cfg) (nctrlers cfg) in
  net ← openEnds names ctrlername (sk_net cfg);
  let cfg := set_sk_net cfg net (sk_rand cfg + nctrlers cfg)%nat in
  cs ← slice_set (ctrlerservers cfg) i (Some (StartServer i, Make (length names) i MakePersister));
  Ret (addServer (set_ctrlers cfg cs) (ctrlername i)).

(** The ends of the new clerk. *)
Definition shardclerk cfg : outcome (list string * ShardTest) :=
  let names := randstrings (sk_rand cfg) (nctrlers cfg) in
  net ← openEnds names ctrlername (sk_net cfg);
  Ret (names, set_sk_net cfg net (sk_rand cfg + nctrlers cfg)%nat).

(** The argument of [cfg.mck.Join]. *)
Definition joinm cfg (gis : list Z) : outcome (gmap Z (list string)) :=
  foldl (fun m g =>
    m ← m;
    gg ← slice_get (groups cfg) g;
    Ret (<[g_gid gg := servername (g_gid gg) <$> seqZ 0 (Z.of_nat (sk_n cfg))]> m)) (Ret ∅) gis.

Definition join cfg (gi : Z) : outcome (gmap Z (list string)) := joinm cfg [gi].

(** The argument of [cfg.mck.Leave]. *)
Definition leavem cfg (gis : list Z) : outcome (list Z) :=
  foldl (fun gids g => gids ← gids; gg ← slice_get (groups cfg) g; Ret (gids ++ [g_gid gg])) (Ret []) gis.

Definition leave cfg (gi : Z) : outcome (list Z) := leavem cfg [gi].

(** A nil persister is a nil dereference. *)
Definition checklogs cfg : outcome unit :=
  for_range (ngroups cfg) (fun gi _ =>
    for_range (sk_n cfg) (fun i _ =>
      gg ← slice_get (groups cfg) gi;
      ps ← group_saved gg i;
      match ps with
      | None => Panic "nil pointer dereference"
      | Some ps =>
          let raft := RaftStateSize ps in
          let snap := len (ReadSnapshot ps) in
          if bool_decide (sk_maxraftstate cfg >= 0) && bool_decide (raft > 8 * sk_maxraftstate cfg)
          then Panic "persister.RaftStateSize() too large"
          else if bool_decide (sk_maxraftstate cfg < 0) && bool_decide (snap > 0)
          then Panic "maxraftstate is -1, but snapshot is non-empty!"
          else Ret tt
      end) tt) tt.

(** [over] is whether the test took too long and had not failed. *)
Definition shard_cleanup cfg (over : bool) : outcome ShardTest :=
  cfg ← for_range (ngroups cfg) (fun gi cfg => ShutdownGroup cfg gi) cfg;
  cs ← for_range (nctrlers cfg) (fun i cs =>
         c ← slice_get cs i;
         match c with
         | None => Panic "nil pointer dereference"
         | Some (sc, rf) => slice_set cs i (Some (sc_Kill sc rf))
         end) (ctrlerservers cfg);
  net ← Cleanup (sk_net cfg);
  if over then Panic "test took longer than 120 seconds"
  else Ret (set_ctrlers (set_sk_net cfg net (sk_rand cfg)) cs).

(** [mendnames] has room for [cfg.nctrlers] rows, one is stored per server. *)
Definition shard_make_config (n : nat) (unreliable : bool) (maxraftstate : Z) : outcome ShardTest :=
  let cfg := mkShardTest MakeNetwork 3 (replicate 3 None) [] 3 n [] ∅ 0 maxraftstate 0 0 in
  cfg ← for_range 3 (fun i cfg => StartCtrlerserver cfg i) cfg;
  '(ck, cfg) ← shardclerk cfg;
  let cfg := set_mck cfg ck in
  cfg ← for_range 3 (fun gi cfg =>
          let gg := mkGroup (100 + gi) (replicate n None) (replicate n None) (replicate n []) (replicate (nctrlers cfg) []) in
          let cfg := set_groups cfg (groups cfg ++ [gg]) in
          for_range n (fun i cfg => shard_StartServer cfg gi i) cfg) cfg;
  let cfg := set_sk_clerks cfg ∅ (Z.of_nat n + 1000) in
  Ret (set_sk_net cfg (Reliable (sk_net cfg) (negb unreliable)) (sk_rand cfg)).
End tester.
Arguments ShardTest : clear implicits.
