(* ===== verification/ShardKVTesterFacts.v ===== *)
(** * ShardKVTesterFacts: what the tester of the sharded service does

    A configuration can be made only with at most three servers per group and
    a client only with at least three; then every server is on the network with
    ends to its group and to the controllers.  Shutting a server down and
    starting it again restores what it had persisted. *)

From S2P Require Import Prelude LabGob LabRpc RaftLog Persister RaftNode RaftService ShardConfig ShardServer ShardKVTester.
Local Open Scope Z_scope.

Section facts.
Context `{!GobStream (gobval KVOp)} `{!GobStream (gobval ShardServer.Op)} (rnd : nat -> string) `{!Inj eq eq rnd}.
Implicit Types (net : KVNet) (cfg : ShardTest) (gg : group).

(** ** Ends *)

(** The names in use are random strings handed out before. *)
Definition fresh_net net (rand : nat) : Prop := forall e, e ∈ ends net -> exists k, (k < rand)%nat /\ e = rnd k.

Lemma fresh_not_used net rand k : fresh_net net rand -> (rand <= k)%nat -> rnd k ∉ ends net.
Proof. intros Hf Hk (j & Hj & E)%Hf. apply (inj rnd) in E. lia. Qed.

(** Requests over the end [e] go to [server]. *)
Definition leads_to net (e server : string) : Prop := enabled net !! e = Some true /\ connections net !! e = Some (Some server).

(** A new end, connected and enabled. *)
Definition opened net (e server : string) net' : Prop :=
  leads_to net' e server /\ servers net' = servers net /\ done_ net' = done_ net /\
  (forall x, x ∈ ends net' <-> x = e \/ x ∈ ends net) /\
  (forall x, x <> e -> enabled net' !! x = enabled net !! x /\ connections net' !! x = connections net !! x).

Lemma open_end net rand server : fresh_net net rand ->
  exists net', (net ← MakeEnd net (rnd rand); Ret (Enable (Connect net (rnd rand) server) (rnd rand) true)) = Ret net' /\
    fresh_net net' (S rand) /\ opened net (rnd rand) server net'.
Proof.
  intros Hf. unfold MakeEnd. rewrite bool_decide_false; [by apply (fresh_not_used net rand)|]. cbn [mbind outcome_bind].
  eexists. split; [done|]. split.
  - intros e. cbn. rewrite elem_of_union elem_of_singleton. intros [->|(k & Hk & ->)%Hf]; eauto.
  - split_and!; cbn; try done.
    + split; cbn; by rewrite lookup_insert_eq.
    + intros x. by rewrite elem_of_union elem_of_singleton.
    + intros x Hx. rewrite !lookup_insert_ne //; congruence.
Qed.

(** [k] new ends, the [j]th to [dest j]. *)
Lemma openEnds_spec net rand k (dest : Z -> string) : fresh_net net rand ->
  exists net', openEnds (randstrings rnd rand k) dest net = Ret net' /\ fresh_net net' (rand + k) /\
    servers net' = servers net /\ done_ net' = done_ net /\
    (forall e, e ∈ ends net -> e ∈ ends net') /\
    (forall j, (j < k)%nat -> rnd (rand + j)%nat ∈ ends net' /\ leads_to net' (rnd (rand + j)%nat) (dest (Z.of_nat j))) /\
    (forall e, e ∈ ends net -> enabled net' !! e = enabled net !! e /\ connections net' !! e = connections net !! e).
Proof.
  intros Hf. unfold openEnds, randstrings. rewrite length_fmap length_seq.
  match goal with |- context [for_range k ?f ?a] => destruct (for_range_inv (fun z net' => 0 <= z /\
    fresh_net net' (rand + Z.to_nat z) /\ (forall e, e ∈ ends net -> e ∈ ends net') /\ servers net' = servers net /\ done_ net' = done_ net /\
    (forall j, Z.of_nat j < z -> rnd (rand + j)%nat ∈ ends net' /\ leads_to net' (rnd (rand + j)%nat) (dest (Z.of_nat j))) /\
    (forall e, e ∈ ends net -> enabled net' !! e = enabled net !! e /\ connections net' !! e = connections net !! e)) f k a)
    as (net' & -> & _ & Hf' & Hsub & Hs & Hd & Hj & Hkeep) end.
  - split_and!; [done|by rewrite Nat.add_0_r|done|done|done|intros j Hj; lia|done].
  - intros z net1 Hz (_ & Hf1 & Hsub & Hs1 & Hd1 & Hj1 & Hk1).
    assert (slice_get (rnd <$> seq rand k) z = Ret (rnd (rand + Z.to_nat z)%nat)) as ->.
    { apply slice_get_nat; [lia|]. rewrite list_lookup_fmap lookup_seq_lt //. lia. }
    cbn [mbind outcome_bind]. destruct (open_end net1 _ (dest z) Hf1) as (net2 & Hnet2 & Hf2 & Hl & Hs2 & Hd2 & Hends & Hother).
    cbn [mbind outcome_bind] in Hnet2. rewrite Hnet2. exists net2. split; [done|].
    replace (Z.to_nat (z + 1)) with (S (Z.to_nat z)) by lia. rewrite Nat.add_succ_r.
    assert (forall e, e ∈ ends net1 -> e <> rnd (rand + Z.to_nat z)%nat) as Hne.
    { intros e He ->. by apply (fresh_not_used net1 _ _ Hf1 (le_n _)). }
    split_and!; [lia|done| |congruence|congruence| |].
    + intros e He. apply Hends. auto.
    + intros j Hj. destruct (decide (Z.of_nat j = z)) as [<-|Hjz].
      * rewrite Nat2Z.id in Hl, Hends. split; [apply Hends; by left|done].
      * destruct (Hj1 j) as [Hin [H1 H2]]; [lia|]. split; [apply Hends; by right|]. destruct (Hother _ (Hne _ Hin)) as [E1 E2].
        split; congruence.
    + intros e He. destruct (Hother e (Hne e (Hsub e He))) as [-> ->]. by apply Hk1.
  - exists net'. rewrite Nat2Z.id in Hf'. split_and!; [done|done|done|done|done| |done]. intros j Hlt. apply Hj. lia.
Qed.

(** ** Starting servers *)

(** The slices of a group of [n] servers. *)
Definition sized (n m : nat) gg : Prop :=
  length (g_servers gg) = n /\ length (g_saved gg) = n /\ length (g_endnames gg) = n /\ length (mendnames gg) = m.

(** What server [i] persisted, or would start from. *)
Definition kept gg (i : Z) : Persister :=
  match g_servers gg !! Z.to_nat i with
  | Some (Some kv) => persister (skv_rf kv)
  | _ => match g_saved gg !! Z.to_nat i with Some (Some ps) => ps | _ => MakePersister end
  end.

Lemma Copy_same ps : Copy ps = ps.
Proof. by destruct ps. Qed.

Lemma group_saved_kept gg n m i : sized n m gg -> 0 <= i < Z.of_nat n ->
  exists o, group_saved gg i = Ret o /\ match o with Some ps => Copy ps | None => MakePersister end = kept gg i /\
    (forall kv, g_servers gg !! Z.to_nat i = Some (Some kv) -> o = Some (kept gg i)).
Proof.
  intros (H1 & H2 & _) Hi. destruct (lookup_lt_is_Some_2 (g_servers gg) (Z.to_nat i)) as [kv Hkv]; [lia|].
  destruct (lookup_lt_is_Some_2 (g_saved gg) (Z.to_nat i)) as [ps Hps]; [lia|]. unfold group_saved, kept.
  rewrite (slice_get_some _ _ _ (proj1 Hi) Hkv). cbn [mbind outcome_bind]. rewrite (slice_get_some _ _ _ (proj1 Hi) Hps).
  cbn [mbind outcome_bind]. eexists. split; [done|]. rewrite Hkv Hps.
  split; [destruct kv; [apply Copy_same|destruct ps; [apply Copy_same|done]]|]. by intros kv' [= ->].
Qed.

(** Server [i] of [gg] after it was started with the names from [rand] on. *)
Definition started_group cfg gg (i : Z) : group :=
  let row := randstrings rnd (sk_rand cfg) (sk_n cfg) in
  let mrow := randstrings rnd (sk_rand cfg + sk_n cfg) (nctrlers cfg) in
  mkGroup (g_gid gg)
    (<[Z.to_nat i := Some (ShardKV_StartServer row i (kept gg i) (sk_maxraftstate cfg) (g_gid gg) mrow)]> (g_servers gg))
    (<[Z.to_nat i := Some (kept gg i)]> (g_saved gg)) (<[Z.to_nat i := row]> (g_endnames gg)) (<[Z.to_nat i := mrow]> (mendnames gg)).

Lemma shard_StartServer_spec cfg (gi i : Z) gg m :
  0 <= gi -> groups cfg !! Z.to_nat gi = Some gg -> sized (sk_n cfg) m gg -> 0 <= i < Z.of_nat (sk_n cfg) -> i < Z.of_nat m ->
  fresh_net (sk_net cfg) (sk_rand cfg) ->
  exists net, shard_StartServer rnd cfg gi i =
      Ret (addServer (set_groups (set_sk_net cfg net (sk_rand cfg + sk_n cfg + nctrlers cfg)) (<[Z.to_nat gi := started_group cfg gg i]> (groups cfg)))
        (servername (g_gid gg) i)) /\
    fresh_net net (sk_rand cfg + sk_n cfg + nctrlers cfg) /\ servers net = servers (sk_net cfg) /\ done_ net = done_ (sk_net cfg) /\
    (forall j, (j < sk_n cfg)%nat -> leads_to net (rnd (sk_rand cfg + j)%nat) (servername (g_gid gg) (Z.of_nat j))) /\
    (forall j, (j < nctrlers cfg)%nat -> leads_to net (rnd (sk_rand cfg + sk_n cfg + j)%nat) (ctrlername (Z.of_nat j))) /\
    (forall e, e ∈ ends (sk_net cfg) -> enabled net !! e = enabled (sk_net cfg) !! e /\ connections net !! e = connections (sk_net cfg) !! e) /\
    (forall e, e ∈ ends (sk_net cfg) \/ e ∈ randstrings rnd (sk_rand cfg) (sk_n cfg) \/
       e ∈ randstrings rnd (sk_rand cfg + sk_n cfg) (nctrlers cfg) -> e ∈ ends net).
Proof.
  intros Hgi Hgg Hsz Hi Him Hf. pose proof Hsz as (Hs1 & Hs2 & Hs3 & Hs4).
  pose proof (lookup_lt_Some _ _ _ Hgg) as Hlt. unfold shard_StartServer. rewrite (slice_get_some _ _ _ Hgi Hgg). cbn [mbind outcome_bind].
  rewrite (slice_set_nat (g_endnames gg)); [lia|]. cbn [mbind outcome_bind].
  destruct (openEnds_spec (sk_net cfg) (sk_rand cfg) (sk_n cfg) (servername (g_gid gg)) Hf) as (net1 & -> & Hf1 & Hv1 & Hd1 & Hsub1 & Hl1 & Hk1).
  cbn [mbind outcome_bind]. rewrite (slice_set_nat (mendnames gg)); [lia|]. cbn [mbind outcome_bind].
  destruct (openEnds_spec net1 _ (nctrlers cfg) ctrlername Hf1) as (net2 & -> & Hf2 & Hv2 & Hd2 & Hsub2 & Hl2 & Hk2). cbn [mbind outcome_bind].
  destruct (group_saved_kept gg (sk_n cfg) m i Hsz Hi) as (o & -> & Hkept & _). cbn [mbind outcome_bind]. rewrite Hkept.
  rewrite (slice_set_nat (g_saved gg)); [lia|]. cbn [mbind outcome_bind].
  rewrite (slice_set_nat (g_servers gg)); [lia|]. cbn [mbind outcome_bind].
  rewrite (slice_set_nat (groups cfg)); [lia|]. cbn [mbind outcome_bind]. exists net2. split; [done|].
  split_and!; [done|congruence|congruence| | | |].
  - intros j Hj. destruct (Hl1 j Hj) as [Hin [E1 E2]]. destruct (Hk2 _ Hin) as [E3 E4]. split; congruence.
  - intros j Hj. exact (proj2 (Hl2 j Hj)).
  - intros e He. destruct (Hk1 e He) as [<- <-]. by apply Hk2, Hsub1.
  - intros e [He|[He|He]]; [by apply Hsub2, Hsub1|apply Hsub2|];
      apply list_elem_of_fmap in He as (k & -> & Hk%elem_of_seq).
    + destruct (Hl1 (k - sk_rand cfg)%nat) as [Hin _]; [lia|]. by replace (sk_rand cfg + (k - sk_rand cfg))%nat with k in Hin by lia.
    + destruct (Hl2 (k - (sk_rand cfg + sk_n cfg))%nat) as [Hin _]; [lia|].
      by replace (sk_rand cfg + sk_n cfg + (k - (sk_rand cfg + sk_n cfg)))%nat with k in Hin by lia.
Qed.

(** The row for the controllers does not fit a server beyond [mendnames]. *)
Lemma shard_StartServer_ret cfg (gi i : Z) cfg' : shard_StartServer rnd cfg gi i = Ret cfg' ->
  exists gg gg', 0 <= gi /\ groups cfg !! Z.to_nat gi = Some gg /\ i < len (mendnames gg) /\
    groups cfg' = <[Z.to_nat gi := gg']> (groups cfg) /\ length (mendnames gg') = length (mendnames gg) /\ nctrlers cfg' = nctrlers cfg.
Proof.
  unfold shard_StartServer. intros E. apply outcome_bind_ret in E as (gg & [Hgi Hgg]%slice_get_ret & E). inv_ret.
  match goal with H : slice_set (mendnames gg) i _ = Ret _ |- _ => apply slice_set_ret in H as [Hi ->] end.
  match goal with H : slice_set (groups cfg) gi _ = Ret _ |- _ => apply slice_set_ret in H as [_ ->] end.
  eexists gg, _. split_and!; [done|done|lia|done|simpl; by rewrite length_insert|done].
Qed.

(** ** Making a configuration *)

(** The names of the servers of a group are those of ends. *)
Definition names_in net gg : Prop := forall row e, row ∈ g_endnames gg ++ mendnames gg -> e ∈ row -> e ∈ ends net.

Lemma names_in_mono net net' gg : (forall e, e ∈ ends net -> e ∈ ends net') -> names_in net gg -> names_in net' gg.
Proof. intros Hsub Hn row e Hrow He. exact (Hsub e (Hn row e Hrow He)). Qed.

Record made (n : nat) cfg : Prop := {
  md_n : sk_n cfg = n;
  md_nctrlers : nctrlers cfg = 3%nat;
  md_fresh : fresh_net (sk_net cfg) (sk_rand cfg);
  md_groups : Forall (sized n 3) (groups cfg);
  md_names : Forall (names_in (sk_net cfg)) (groups cfg);
}.

Lemma made_net n cfg net rand : made n cfg -> fresh_net net rand -> (forall e, e ∈ ends (sk_net cfg) -> e ∈ ends net) ->
  made n (set_sk_net cfg net rand).
Proof.
  intros [H1 H2 _ H4 H5] Hf Hsub. constructor; try done. simpl. eapply Forall_impl; [exact H5|]. intros gg. by apply names_in_mono.
Qed.

Lemma names_in_started cfg gg i net :
  (forall e, e ∈ ends (sk_net cfg) \/ e ∈ randstrings rnd (sk_rand cfg) (sk_n cfg) \/
     e ∈ randstrings rnd (sk_rand cfg + sk_n cfg) (nctrlers cfg) -> e ∈ ends net) ->
  names_in (sk_net cfg) gg -> names_in net (started_group cfg gg i).
Proof.
  intros Hin Hn row e Hrow He. apply Hin. simpl in Hrow.
  assert (row = randstrings rnd (sk_rand cfg) (sk_n cfg) \/ row = randstrings rnd (sk_rand cfg + sk_n cfg) (nctrlers cfg) \/
    row ∈ g_endnames gg ++ mendnames gg) as [->|[->|Hold]]; [|auto|auto|left; exact (Hn row e Hold He)].
  apply elem_of_app in Hrow as [(k & Hk)%list_elem_of_lookup_1|(k & Hk)%list_elem_of_lookup_1];
    apply list_lookup_insert_Some in Hk as [(_ & <- & _)|[_ Hk%list_elem_of_lookup_2]]; rewrite ?elem_of_app; auto.
Qed.

Lemma StartCtrlerserver_made n cfg i : made n cfg -> length (ctrlerservers cfg) = 3%nat -> 0 <= i < 3 ->
  exists cfg', StartCtrlerserver rnd cfg i = Ret cfg' /\ made n cfg' /\ length (ctrlerservers cfg') = 3%nat /\ groups cfg' = groups cfg.
Proof.
  intros Hm Hlen Hi. unfold StartCtrlerserver.
  destruct (openEnds_spec (sk_net cfg) (sk_rand cfg) (nctrlers cfg) ctrlername (md_fresh _ _ Hm)) as (net & -> & Hf & _ & _ & Hsub & _). cbn [mbind outcome_bind].
  rewrite (slice_set_nat (ctrlerservers _)); [simpl; lia|]. cbn [mbind outcome_bind]. eexists. split; [done|].
  split_and!; [|simpl; by rewrite length_insert|done]. destruct (made_net n cfg net _ Hm Hf Hsub). by constructor.
Qed.

Lemma shardclerk_made n cfg : made n cfg -> exists ck cfg', shardclerk rnd cfg = Ret (ck, cfg') /\ made n cfg' /\ groups cfg' = groups cfg.
Proof.
  intros Hm. unfold shardclerk.
  destruct (openEnds_spec (sk_net cfg) (sk_rand cfg) (nctrlers cfg) ctrlername (md_fresh _ _ Hm)) as (net & -> & Hf & _ & _ & Hsub & _). cbn [mbind outcome_bind].
  eexists _, _. split; [done|]. split; [by apply made_net|done].
Qed.

Lemma started_group_sized cfg gg i n : sized n 3 gg -> sized n 3 (started_group cfg gg i).
Proof. intros (H1 & H2 & H3 & H4). unfold sized, started_group. simpl. by rewrite !length_insert. Qed.

Lemma StartServer_made n cfg gi i : made n cfg -> 0 <= gi < len (groups cfg) -> 0 <= i < Z.of_nat n -> i < 3 ->
  exists cfg', shard_StartServer rnd cfg gi i = Ret cfg' /\ made n cfg' /\ length (groups cfg') = length (groups cfg).
Proof.
  intros Hm Hgi Hi H3. pose proof Hm as [Hn Hc Hf Hg Hnm]. destruct (lookup_lt_is_Some_2 (groups cfg) (Z.to_nat gi)) as [gg Hgg]; [unfold len in Hgi; lia|].
  pose proof (Forall_lookup_1 _ _ _ _ Hg Hgg) as Hsz.
  destruct (shard_StartServer_spec cfg gi i gg 3) as (net & -> & Hf' & _ & _ & _ & _ & _ & Hin); [lia|done|by rewrite Hn|by rewrite Hn|lia|done|].
  eexists. split; [done|]. split; [|simpl; by rewrite length_insert].
  constructor; [done|done|exact Hf'| |]; simpl; apply Forall_insert.
  - done.
  - by apply started_group_sized.
  - eapply Forall_impl; [exact Hnm|]. intros g'. apply names_in_mono. intros e He. apply Hin. by left.
  - apply names_in_started; [done|]. exact (Forall_lookup_1 _ _ _ _ Hnm Hgg).
Qed.

(** With at most three servers per group everything starts. *)
Lemma make_config_made n unreliable maxraftstate : (n <= 3)%nat ->
  exists cfg, shard_make_config rnd n unreliable maxraftstate = Ret cfg /\ made n cfg /\ length (groups cfg) = 3%nat.
Proof.
  intros Hn. unfold shard_make_config.
  match goal with |- context [for_range 3 ?f ?a] => destruct (for_range_inv (fun _ cfg => made n cfg /\ length (ctrlerservers cfg) = 3%nat /\ groups cfg = []) f 3 a)
    as (cfg1 & -> & Hm1 & _ & Hg1) end.
  { split_and!; [|done|done]. constructor; [done|done| |constructor|constructor]. intros e He. by apply not_elem_of_empty in He. }
  { intros i cfg Hi (Hm & Hl & Hg). destruct (StartCtrlerserver_made n cfg i Hm Hl Hi) as (cfg' & -> & Hm' & Hl' & Hg'). exists cfg'.
    split; [done|]. split_and!; [done|done|congruence]. }
  cbn [mbind outcome_bind]. destruct (shardclerk_made n cfg1 Hm1) as (ck & cfg2 & -> & Hm2 & Hg2). cbn [mbind outcome_bind].
  match goal with |- context [for_range 3 ?f ?a] => destruct (for_range_inv (fun gi cfg => made n cfg /\ len (groups cfg) = gi) f 3 a)
    as (cfg3 & -> & Hm3 & Hg3) end.
  { split; [destruct Hm2; by constructor|]. simpl. by rewrite Hg2 Hg1. }
  { intros gi cfg Hgi [Hm Hl].
    match goal with |- context [for_range n ?f ?a] => destruct (for_range_inv (fun _ cfg' => made n cfg' /\ len (groups cfg') = gi + 1) f n a)
      as (cfg' & -> & Hm' & Hl') end.
    - split; [|unfold len in *; simpl; rewrite length_app; simpl; lia]. destruct Hm as [H1 H2 H3 H4 H5].
      constructor; [done|done|done| |]; simpl; (apply Forall_app; split; [done|]; constructor; [|constructor]).
      + unfold sized. simpl. by rewrite !length_replicate H2.
      + intros row e Hrow He. assert (row = []) as ->; [|by apply not_elem_of_nil in He].
        apply elem_of_app in Hrow as [Hrow|Hrow]; by apply elem_of_replicate_inv in Hrow.
    - intros i cfg' Hi [Hm' Hl']. destruct (StartServer_made n cfg' gi i Hm') as (cfg2' & -> & Hm2' & Hl2'); [lia|done|lia|].
      exists cfg2'. split; [done|]. split; [done|]. unfold len in *. lia.
    - by exists cfg'. }
  cbn [mbind outcome_bind]. eexists. split; [done|]. unfold len in Hg3. split; [|simpl; lia]. destruct Hm3 as [H1 H2 H3 H4 H5]. by constructor.
Qed.

Lemma make_config_bound n unreliable maxraftstate cfg : shard_make_config rnd n unreliable maxraftstate = Ret cfg -> (n <= 3)%nat.
Proof.
  unfold shard_make_config. intros E. apply outcome_bind_ret in E as (cfg1 & E1 & E). apply outcome_bind_ret in E as ([ck cfg2] & E2 & E).
  apply outcome_bind_ret in E as (cfg3 & E3 & _).
  assert (nctrlers cfg1 = 3%nat /\ groups cfg1 = []) as [H1 H1g].
  { apply (for_range_post (fun _ cfg => nctrlers cfg = 3%nat /\ groups cfg = []) _ _ _ _ E1); [done|]. intros j c c' _ Hc Hs.
    unfold StartCtrlerserver in Hs. inv_ret. done. }
  unfold shardclerk in E2. apply outcome_bind_ret in E2 as (net & _ & E2). injection E2 as <- <-.
  set (I := fun cfg => nctrlers cfg = 3%nat /\ Forall (fun gg => length (mendnames gg) = 3%nat) (groups cfg)).
  enough (I cfg3 /\ (0 < 3 -> (n <= 3)%nat)) as [_ H] by (apply H; lia).
  apply (for_range_post (fun gi cfg => I cfg /\ (0 < gi -> (n <= 3)%nat)) _ _ _ _ E3).
  { split; [|lia]. unfold I. simpl. by rewrite H1g. }
  intros gi c c' Hgi [[Hc Hg] _] Hs.
  enough (I c' /\ Z.of_nat n <= 3) as [? ?] by (split; [done|lia]).
  apply (for_range_post (fun i cfg => I cfg /\ i <= 3) _ _ _ _ Hs).
  - split; [|lia]. split; [done|]. simpl. apply Forall_app. split; [done|]. constructor; [simpl; by rewrite Hc length_replicate|constructor].
  - intros i c1 c2 Hi [[Hc1 Hg1] _] Hst. apply shard_StartServer_ret in Hst as (gg & gg' & _ & Hgg & Hlt & Hgs & Hm & Hn).
    pose proof (Forall_lookup_1 _ _ _ _ Hg1 Hgg) as H3. simpl in H3. unfold len in Hlt. split; [|lia].
    split; [congruence|]. rewrite Hgs. apply Forall_insert; [done|congruence].
Qed.

(** ** Clients *)

Lemma makeClient_iff n cfg ck : made n cfg -> (exists cfg', shard_makeClient rnd cfg ck = Ret cfg') <-> (3 <= n)%nat.
Proof.
  intros [Hn Hc Hf _ _]. unfold shard_makeClient. rewrite Hn Hc. split.
  - intros (cfg' & E). apply outcome_bind_ret in E as ([[names net] rand] & E & _).
    enough (length names = n /\ 3 <= Z.of_nat n) by lia.
    apply (for_range_post (fun j '(names, _, _) => length names = n /\ j <= Z.of_nat n) _ _ _ _ E); [split; [apply length_replicate|lia]|].
    intros j [[names1 net1] rand1] [[names2 net2] rand2] Hj [Hl _] Hs. apply outcome_bind_ret in Hs as (l & Hset & Hs). inv_ret.
    apply slice_set_ret in Hset as [Hjn ->].
    rewrite length_insert. unfold len in Hjn. split; [done|lia].
  - intros H3.
    match goal with |- context [for_range 3 ?f ?a] => destruct (for_range_inv (fun _ '(names, net, rand) => length names = n /\ fresh_net net rand) f 3 a)
      as ([[names net] rand] & -> & _) end.
    + split; [apply length_replicate|done].
    + intros j [[names net] rand] Hj [Hl Hf']. rewrite (slice_set_nat names); [lia|]. cbn [mbind outcome_bind].
      destruct (open_end net rand (ctrlername j) Hf') as (net2 & E & Hf2 & _).
      destruct (MakeEnd net (rnd rand)) as [net1|]; [|done]. cbn [mbind outcome_bind] in E |- *. injection E as E.
      eexists. split; [done|]. simpl. rewrite length_insert E. done.
    + cbn [mbind outcome_bind]. by eexists.
Qed.

(** The tester of the sharded service works with exactly three servers per
    group.  [make_config] makes a configuration if and only if there are at most
    three: it stores one row of names per server in a slice with room for the
    three controllers.  In such a configuration a client can be made if and only
    if there are at least three: the names of the ends to the three controllers
    are stored in a slice with room for the servers of a group. *)
Lemma shardkv_tester_needs_three n unreliable maxraftstate :
  ((exists cfg, shard_make_config rnd n unreliable maxraftstate = Ret cfg) <-> (n <= 3)%nat) /\
  forall cfg ck, shard_make_config rnd n unreliable maxraftstate = Ret cfg ->
    (exists cfg', shard_makeClient rnd cfg ck = Ret cfg') <-> n = 3%nat.
Proof.
  split.
  - split; [intros [cfg E]; exact (make_config_bound _ _ _ _ E)|]. intros Hn.
    destruct (make_config_made n unreliable maxraftstate Hn) as (cfg & -> & _). by exists cfg.
  - intros cfg ck E. pose proof (make_config_bound _ _ _ _ E) as Hn.
    destruct (make_config_made n unreliable maxraftstate Hn) as (cfg' & E' & Hm & _). rewrite E in E'. injection E' as <-.
    rewrite (makeClient_iff n cfg ck Hm). lia.
Qed.
(** ** Shutting a server down *)

(** [net'] is [net] with the ends [names] disabled. *)
Definition disabled (names : list string) net net' : Prop :=
  ends net' = ends net /\ servers net' = servers net /\ connections net' = connections net /\
  forall e, enabled net' !! e = if bool_decide (e ∈ names) then Some false else enabled net !! e.

Lemma disable_loop names net (f : Z -> KVNet -> outcome KVNet) :
  (forall j name net, 0 <= j -> names !! Z.to_nat j = Some name -> f j net = Ret (Enable net name false)) ->
  exists net', for_range (length names) f net = Ret net' /\ disabled names net net'.
Proof.
  intros Hf.
  destruct (for_range_inv (fun j net' => 0 <= j /\ disabled (take (Z.to_nat j) names) net net') f (length names) net) as (net' & -> & _ & Hd).
  - split; [done|]. split_and!; [done..|]. intros e. rewrite bool_decide_false //. apply not_elem_of_nil.
  - intros j net1 Hj (_ & H1 & H2 & H3 & H4). destruct (lookup_lt_is_Some_2 names (Z.to_nat j)) as [name Hname]; [lia|].
    rewrite (Hf j name net1 (proj1 Hj) Hname). eexists. split; [done|]. split; [lia|]. split_and!; [done..|]. intros e. cbn.
    replace (Z.to_nat (j + 1)) with (S (Z.to_nat j)) by lia. rewrite (take_S_r _ _ _ Hname).
    destruct (decide (e = name)) as [->|Hne].
    + rewrite lookup_insert_eq bool_decide_true //. apply elem_of_app. right. left.
    + rewrite lookup_insert_ne; [congruence|]. rewrite H4.
      rewrite (bool_decide_ext (e ∈ take (Z.to_nat j) names ++ [name]) (e ∈ take (Z.to_nat j) names)); [|done].
      rewrite elem_of_app list_elem_of_singleton. naive_solver.
  - exists net'. split; [done|]. by rewrite Nat2Z.id firstn_all in Hd.
Qed.

(** A running server [kv], its ends to its group and to the controllers. *)
Record running n cfg (gi i : Z) gg (kv : ShardKV) (row mrow : list string) : Prop := {
  rn_gi : 0 <= gi;
  rn_i : 0 <= i < Z.of_nat n;
  rn_group : groups cfg !! Z.to_nat gi = Some gg;
  rn_server : g_servers gg !! Z.to_nat i = Some (Some kv);
  rn_row : g_endnames gg !! Z.to_nat i = Some row;
  rn_mrow : mendnames gg !! Z.to_nat i = Some mrow;
  rn_len : length row = n;
}.

Definition stopped_group gg (i : Z) : group :=
  mkGroup (g_gid gg) (<[Z.to_nat i := None]> (g_servers gg)) (<[Z.to_nat i := Some (kept gg i)]> (g_saved gg)) (g_endnames gg) (mendnames gg).

Lemma shard_ShutdownServer_spec n cfg gi i gg kv row mrow : made n cfg -> running n cfg gi i gg kv row mrow ->
  exists net, shard_ShutdownServer cfg gi i =
      Ret (set_groups (set_sk_net cfg (DeleteServer net (servername (g_gid gg) i)) (sk_rand cfg)) (<[Z.to_nat gi := stopped_group gg i]> (groups cfg))) /\
    disabled (row ++ mrow) (sk_net cfg) net.
Proof.
  intros [Hn Hc Hf Hg _] [Hgi Hi Hgg Hkv Hrow Hmrow Hlen]. pose proof (Forall_lookup_1 _ _ _ _ Hg Hgg) as Hsz. pose proof Hsz as (H1 & H2 & H3 & H4).
  pose proof (lookup_lt_Some _ _ _ Hgg) as Hlt. unfold shard_ShutdownServer. rewrite (slice_get_some _ _ _ Hgi Hgg). cbn [mbind outcome_bind].
  match goal with |- context [for_range (length (g_servers gg)) ?f ?a] => destruct (disable_loop row a f) as (net1 & Hrun & Hd1) end.
  { intros j name net Hj Hname. rewrite (slice_get_some _ _ _ (proj1 Hi) Hrow). cbn [mbind outcome_bind]. by rewrite (slice_get_some _ _ _ Hj Hname). }
  rewrite H1 -Hlen Hrun. cbn [mbind outcome_bind]. rewrite (slice_get_some _ _ _ (proj1 Hi) Hmrow). cbn [mbind outcome_bind]. unfold disableEnds.
  match goal with |- context [for_range (length mrow) ?f ?a] => destruct (disable_loop mrow a f) as (net2 & -> & Hd2) end.
  { intros j name net Hj Hname. by rewrite (slice_get_some _ _ _ Hj Hname). }
  cbn [mbind outcome_bind]. destruct (group_saved_kept gg n 3 i Hsz Hi) as (o & -> & _ & Ho). rewrite (Ho kv Hkv). cbn [mbind outcome_bind].
  rewrite (slice_set_nat (g_saved gg)); [lia|]. cbn [mbind outcome_bind]. rewrite (slice_set_nat (g_servers gg)); [lia|]. cbn [mbind outcome_bind].
  rewrite (slice_set_nat (groups cfg)); [lia|]. cbn [mbind outcome_bind]. exists net2. split; [by rewrite /= Copy_same|].
  destruct Hd1 as (E1 & E2 & E3 & E4), Hd2 as (F1 & F2 & F3 & F4). split_and!; [congruence..|]. intros e. rewrite F4 E4.
  rewrite (bool_decide_ext (e ∈ row ++ mrow) (e ∈ row \/ e ∈ mrow)); [apply elem_of_app|]. rewrite bool_decide_or.
  by destruct (bool_decide (e ∈ row)), (bool_decide (e ∈ mrow)).
Qed.

Lemma stopped_made n cfg gi i gg net : made n cfg -> groups cfg !! Z.to_nat gi = Some gg -> ends net = ends (sk_net cfg) ->
  made n (set_groups (set_sk_net cfg net (sk_rand cfg)) (<[Z.to_nat gi := stopped_group gg i]> (groups cfg))).
Proof.
  intros [Hn Hc Hf Hg Hnm] Hgg Hends.
  assert (Forall (names_in net) (groups cfg)) as Hnm' by (eapply Forall_impl; [exact Hnm|]; intros g'; apply names_in_mono; by rewrite Hends).
  constructor; [done|done|intros e; simpl; rewrite Hends; apply Hf| |]; simpl; (apply Forall_insert; [done|]).
  - destruct (Forall_lookup_1 _ _ _ _ Hg Hgg) as (H1 & H2 & H3 & H4). unfold sized. simpl. by rewrite !length_insert.
  - exact (Forall_lookup_1 _ _ _ _ Hnm' Hgg).
Qed.

(** C20. Shutting down a running server and starting it again: both succeed; from
    the shutdown on the network has no server of that name and none of the ends
    to the group and to the controllers that the old instance was given is
    enabled, also after the restart, which hands out new ones; the new instance
    runs a peer made from exactly what the old one had persisted. *)
Theorem shardkv_restart_restores n cfg gi i gg kv row mrow :
  made n cfg -> running n cfg gi i gg kv row mrow -> i < 3 ->
  exists cfg1 cfg2, shard_ShutdownServer cfg gi i = Ret cfg1 /\ shard_StartServer rnd cfg1 gi i = Ret cfg2 /\
    lookup_server (sk_net cfg1) (servername (g_gid gg) i) = None /\
    lookup_server (sk_net cfg2) (servername (g_gid gg) i) = Some (sk_objects cfg) /\
    (forall e, e ∈ row ++ mrow -> enabled (sk_net cfg1) !! e = Some false /\ enabled (sk_net cfg2) !! e = Some false) /\
    exists gg2 kv2, groups cfg2 !! Z.to_nat gi = Some gg2 /\ g_servers gg2 !! Z.to_nat i = Some (Some kv2) /\
      skv_rf kv2 = Make n i (persister (skv_rf kv)) /\ skv_gid kv2 = g_gid gg.
Proof.
  intros Hm Hr H3. destruct (shard_ShutdownServer_spec n cfg gi i gg kv row mrow Hm Hr) as (net & Hdown & Hd1 & Hd2 & Hd3 & Hd4).
  pose proof Hr as [Hgi Hi Hgg Hkv Hrow Hmrow Hlen]. set (net1 := DeleteServer net (servername (g_gid gg) i)) in *.
  set (cfg1 := set_groups _ _) in Hdown. assert (made n cfg1) as Hm1 by (by apply stopped_made).
  pose proof (lookup_lt_Some _ _ _ Hgg) as Hlt. destruct (Forall_lookup_1 _ _ _ _ (md_groups _ _ Hm) Hgg) as (S1 & S2 & S3 & S4).
  assert (groups cfg1 !! Z.to_nat gi = Some (stopped_group gg i)) as Hg1 by (apply list_lookup_insert_eq; done).
  destruct (shard_StartServer_spec cfg1 gi i (stopped_group gg i) 3) as (net2 & Hup & _ & Hs2 & _ & _ & _ & Hkeep & _).
  { done. } { done. } { rewrite (md_n _ _ Hm1). exact (Forall_lookup_1 _ _ _ _ (md_groups _ _ Hm1) Hg1). }
  { rewrite (md_n _ _ Hm1). done. } { lia. } { exact (md_fresh _ _ Hm1). }
  eexists cfg1, _. split; [exact Hdown|]. split; [exact Hup|]. split_and!.
  - unfold lookup_server. cbn. by rewrite lookup_insert_eq.
  - unfold lookup_server. cbn. by rewrite lookup_insert_eq.
  - intros e He. assert (enabled net !! e = Some false) as E by (by rewrite Hd4 bool_decide_true).
    assert (e ∈ ends (sk_net cfg)) as Hin.
    { pose proof (Forall_lookup_1 _ _ _ _ (md_names _ _ Hm) Hgg) as Hnm.
      apply elem_of_app in He as [He|He]; (eapply Hnm; [|exact He]); apply elem_of_app;
        [left; exact (list_elem_of_lookup_2 _ _ _ Hrow)|right; exact (list_elem_of_lookup_2 _ _ _ Hmrow)]. }
    destruct (Hkeep e) as [Hen _]; [simpl; by rewrite Hd1|]. split; [exact E|]. simpl. rewrite Hen. exact E.
  - eexists _, _. split; [simpl; apply list_lookup_insert_eq; rewrite length_insert; done|].
    split; [simpl; apply list_lookup_insert_eq; rewrite length_insert; lia|]. simpl. split; [|done].
    unfold randstrings. rewrite length_fmap length_seq (md_n _ _ Hm). f_equal. unfold kept. simpl.
    rewrite !list_lookup_insert_eq; [lia|lia|]. unfold kept. by rewrite Hkv.
Qed.

(** An end that the server made with [make_end], to talk to another group, is
    not among those that are disabled: the instance that was shut down can go
    on sending over it. *)
Lemma make_end_outlives_shutdown n cfg gi i gg kv row mrow server :
  made n cfg -> running n cfg gi i gg kv row mrow ->
  exists e cfg1 cfg2, make_end rnd cfg server = Ret (e, cfg1) /\ shard_ShutdownServer cfg1 gi i = Ret cfg2 /\
    leads_to (sk_net cfg2) e server.
Proof.
  intros Hm Hr. destruct (open_end (sk_net cfg) (sk_rand cfg) server (md_fresh _ _ Hm)) as (net1 & E & Hf1 & Hl & _ & _ & Hends & _).
  unfold make_end. destruct (MakeEnd (sk_net cfg) (rnd (sk_rand cfg))) as [net0|]; [|done]. cbn [mbind outcome_bind] in E |- *. injection E as E. rewrite E.
  assert (made n (set_sk_net cfg net1 (S (sk_rand cfg)))) as Hm1 by (apply made_net; [done|done|intros e He; apply Hends; by right]).
  assert (running n (set_sk_net cfg net1 (S (sk_rand cfg))) gi i gg kv row mrow) as Hr1 by (by destruct Hr).
  destruct (shard_ShutdownServer_spec _ _ _ _ _ _ _ _ Hm1 Hr1) as (net2 & Hdown & _ & _ & D3 & D4).
  eexists _, _, _. split; [done|]. split; [exact Hdown|]. destruct Hl as [L1 L2]. simpl in D3, D4. split; simpl; [|by rewrite D3].
  rewrite D4 bool_decide_false //. intros He. apply (fresh_not_used (sk_net cfg) (sk_rand cfg) (sk_rand cfg) (md_fresh _ _ Hm) (le_n _)).
  pose proof (Forall_lookup_1 _ _ _ _ (md_names _ _ Hm) (rn_group _ _ _ _ _ _ _ _ Hr)) as Hnm.
  destruct Hr as [_ _ _ _ Hrow Hmrow _].
  apply elem_of_app in He as [He|He]; (eapply Hnm; [|exact He]); apply elem_of_app; [left; exact (list_elem_of_lookup_2 _ _ _ Hrow)|right; exact (list_elem_of_lookup_2 _ _ _ Hmrow)].
Qed.
End facts.

(** ** Witnesses *)

#[export] Instance ctrler_OperationType_countable : Countable OperationType.
Proof.
  refine (inj_countable (fun t => match t with OpJoin => 0 | OpLeave => 1 | OpMove => 2 | OpQuery => 3 end)
    (fun z => if bool_decide (z = 0) then Some OpJoin else if bool_decide (z = 1) then Some OpLeave
              else if bool_decide (z = 2) then Some OpMove else Some OpQuery) _). by intros [].
Defined.

#[export] Instance ctrler_Op_eq_dec : EqDecision ShardServer.Op.
Proof. solve_decision. Defined.

#[export] Instance ctrler_Op_countable : Countable ShardServer.Op.
Proof.
  refine (inj_countable' (fun o => (Servers o, GIDs o, Shard o, GID o, op_Num o, OpType o, ClientId o, SeqId o))
    (fun '(a, b, c, d, e, f, g, h) => mkOp a b c d e f g h) _). by intros [].
Defined.

(** The names "0", "1", ... *)
Definition counted (k : nat) : string := pretty k.

#[export] Instance counted_inj : Inj eq eq counted.
Proof. unfold counted. apply _. Qed.

Lemma shardkv_tester_needs_three_witness :
  (exists cfg, shard_make_config counted 3 false 100 = Ret cfg /\ exists cfg', shard_makeClient counted cfg 0 = Ret cfg') /\
  ~ (exists cfg, shard_make_config counted 4 false 100 = Ret cfg).
Proof.
  split.
  - destruct (shardkv_tester_needs_three counted 3 false 100) as [[_ Hmake] Hclient].
    destruct (Hmake ltac:(lia)) as [cfg E]. exists cfg. split; [done|]. by apply (Hclient cfg 0%nat E).
  - destruct (shardkv_tester_needs_three counted 4 false 100) as [[Hbound _] _]. intros Hex. specialize (Hbound Hex). lia.
Defined.

(** One group with one server. *)
Definition one_server : ShardKV :=
  mkShardKV 0 (Make 1 0 MakePersister) 100 [] (-1).

Definition one_group : ShardTest :=
  mkShardTest (mkNetwork true false false {[counted 0]} {[counted 0 := true]} ∅ ∅ false 0 0) 3 [] [] 1 1
    [mkGroup 100 [Some one_server] [Some MakePersister] [[counted 0]] [[]; []; []]] ∅ 0 (-1) 1 0.

Lemma one_group_made : made counted 1 one_group.
Proof.
  constructor; [done|done| | |].
  - intros e He. simpl in He. apply elem_of_singleton in He as ->. exists 0%nat. split; [simpl; lia|done].
  - by repeat constructor.
  - constructor; [|constructor]. intros row e Hrow He. simpl in Hrow |- *. apply elem_of_singleton.
    repeat (apply elem_of_cons in Hrow as [->|Hrow]; [first [by apply list_elem_of_singleton in He|by apply elem_of_nil in He]|]).
    by apply elem_of_nil in Hrow.
Qed.

Lemma shardkv_restart_restores_witness :
  exists cfg1 cfg2 gg2 kv2, shard_ShutdownServer one_group 0 0 = Ret cfg1 /\ shard_StartServer counted cfg1 0 0 = Ret cfg2 /\
    groups cfg2 !! 0%nat = Some gg2 /\ g_servers gg2 !! 0%nat = Some (Some kv2) /\
    skv_rf kv2 = Make 1 0 (persister (skv_rf one_server)).
Proof.
  destruct (shardkv_restart_restores counted 1 one_group 0 0
    (mkGroup 100 [Some one_server] [Some MakePersister] [[counted 0]] [[]; []; []]) one_server [counted 0] [] one_group_made)
    as (cfg1 & cfg2 & E1 & E2 & _ & _ & _ & gg2 & kv2 & Hg & Hk & Hrf & _).
  - constructor; [lia|lia|done|done|done|done|done].
  - lia.
  - by exists cfg1, cfg2, gg2, kv2.
Defined.
