(* ===== verification/LabGobCheck.v ===== *)
(** * LabGobCheck: the warnings of src/src/labgob/labgob.go

    Before it encodes or decodes, labgob looks at the type of the value for
    fields that gob would leave out, and before it decodes it looks at the
    variable for values that gob would not overwrite.  A type is an index into
    a table, so that types can refer to themselves; [reflect] is the table of
    types and the tree of a value. *)

From S2P Require Import Prelude LabGob GoStrings GoRunes.
Local Open Scope Z_scope.

(** [unicode.IsUpper]; the tables beyond ASCII are open. *)
Class Uppers := {
  IsUpper : N -> bool;
  IsUpper_ascii r : (r < 0x80)%N -> IsUpper r = between 0x41 0x5A r;
}.

#[export] Program Instance ascii_uppers : Uppers := {| IsUpper := between 0x41 0x5A |}.
Next Obligation. done. Qed.

Record StructField := mkField { f_Name : string; f_Anonymous : bool; f_Type : nat }.

Inductive GoType :=
| TStruct (name : string) (fields : list StructField)
| TSlice (elem : nat)
| TArray (elem : nat)
| TPtr (elem : nat)
| TMap (key elem : nat)
| TOther.

(** What labgob prints. *)
Inductive Message :=
| LowerCase (field typ : string)
| NonDefault (what : string).

(** The variables of the package; [mu] protects them. *)
Record LabGobState := mkLabGobState {
  checked : gset nat;
  errorCount : Z;
  printed : list Message;
}.

Definition init_state : LabGobState := mkLabGobState ∅ 0 [].

Section check.
Context {up : Uppers} (types : list GoType).
Implicit Types st : LabGobState.

Definition exported (name : string) : bool := IsUpper (DecodeRune name).1.

(** The complaint about a field, if there is one. *)
Definition complain (tname fname : string) st : LabGobState :=
  if exported fname then st
  else mkLabGobState (checked st) (errorCount st + 1) (printed st ++ [LowerCase fname tname]).

(** [None] when the fuel runs out. *)
Fixpoint checkType (fuel : nat) (t : nat) st : option LabGobState :=
  match fuel with
  | O => None
  | S fuel =>
      if bool_decide (t ∈ checked st) then Some st else
      let st := mkLabGobState ({[t]} ∪ checked st) (errorCount st) (printed st) in
      match types !! t with
      | Some (TStruct name fields) =>
          foldl (fun o f => st ← o; checkType fuel (f_Type f) (complain name (f_Name f) st)) (Some st) fields
      | Some (TSlice elem) | Some (TArray elem) | Some (TPtr elem) => checkType fuel elem st
      | Some (TMap key elem) => st ← checkType fuel elem st; checkType fuel key st
      | Some TOther | None => Some st
      end
  end.

(** [reflect.TypeOf(nil)] is nil, and has no kind. *)
Definition checkValue (t : option nat) st : outcome LabGobState :=
  match t with
  | None => Panic "nil pointer dereference"
  | Some t => match checkType (S (length types)) t st with Some st => Ret st | None => Panic "out of fuel" end
  end.

(** ** Non-default values *)

Inductive Basic :=
| BBool (b : bool)
| BInt (z : Z)
| BUint (z : Z)
| BFloat32 (bits : Z)
| BFloat64 (bits : Z)
| BString (s : string).

(** [reflect.DeepEqual] with the zero value compares with [==]: -0 is zero. *)
Definition is_zero (b : Basic) : bool :=
  match b with
  | BBool b => negb b
  | BInt z | BUint z => bool_decide (z = 0)
  | BFloat32 bits => bool_decide (bits = 0) || bool_decide (bits = 2 ^ 31)
  | BFloat64 bits => bool_decide (bits = 0) || bool_decide (bits = 2 ^ 63)
  | BString s => bool_decide (s = EmptyString)
  end.

Inductive GoVal :=
| VStruct (fields : list (string * bool * GoVal))   (* name, embedded, value *)
| VPtr (p : option nat)
| VBasic (tname : string) (b : Basic)
| VOther.

(** How a [reflect.Value] was obtained: through an unexported field
    ([flagStickyRO]) or an unexported embedded one ([flagEmbedRO]). *)
Record Flags := mkFlags { stickyRO : bool; embedRO : bool }.

Definition field_flags (fl : Flags) (name : string) (embedded : bool) : Flags :=
  if exported name then mkFlags (stickyRO fl) false
  else if embedded then mkFlags (stickyRO fl) true
  else mkFlags true false.

Definition sub_name (name fname : string) : string :=
  if bool_decide (name <> EmptyString) then (name +:+ "." +:+ fname) else fname.

Context (heap : gmap nat GoVal).

(** [levels] is 4 - depth.  [value.Interface()] panics for a value obtained
    through an unexported field. *)
Fixpoint checkDefault1 (levels : nat) (value : GoVal) (fl : Flags) (name : string) st : outcome LabGobState :=
  match levels with
  | O => Ret st
  | S levels =>
      match value with
      | VStruct fields =>
          foldl (fun o '(fname, embedded, vv) =>
            st ← o; checkDefault1 levels vv (field_flags fl fname embedded) (sub_name name fname) st) (Ret st) fields
      | VPtr None => Ret st
      | VPtr (Some p) =>
          match heap !! p with
          | Some v => checkDefault1 levels v fl name st
          | None => Ret st
          end
      | VBasic tname b =>
          if stickyRO fl || embedRO fl then Panic "reflect.Value.Interface: cannot return value obtained from unexported field or method" else
          if is_zero b then Ret st else
          let st := if bool_decide (errorCount st < 1)
                    then mkLabGobState (checked st) (errorCount st)
                           (printed st ++ [NonDefault (if bool_decide (name = EmptyString) then tname else name)])
                    else st in
          Ret (mkLabGobState (checked st) (errorCount st + 1) (printed st))
      | VOther => Ret st
      end
  end.

Definition checkDefault (value : option GoVal) st : outcome LabGobState :=
  match value with
  | None => Ret st
  | Some v => checkDefault1 3 v (mkFlags false false) EmptyString st
  end.
End check.

(** ** The wrappers *)

Section wrappers.
Context {up : Uppers} (types : list GoType) {V : Type} `{!GobStream V}.

(** [enc.Encode(e)]: the checks, then gob. *)
Definition checkedEncode (t : option nat) (v : V) (st : LabGobState) (e : LabEncoder V) : outcome (LabGobState * LabEncoder V) :=
  st ← checkValue types t st;
  Ret (st, Encode e v).

(** [enc.EncodeValue(value)] *)
Definition EncodeValue (t : option nat) (v : V) (st : LabGobState) (e : LabEncoder V) : outcome (LabGobState * LabEncoder V) :=
  st ← checkValue types t st;
  Ret (st, Encode e v).

(** [dec.Decode(&x)], for a pointer to a variable that holds [old]. *)
Definition checkedDecode {A} (heap : gmap nat GoVal) (t : option nat) (old : option GoVal) (sel : V -> option A) (st : LabGobState)
    (d : LabDecoder V) : outcome (LabGobState * (option A * LabDecoder V)) :=
  st ← checkValue types t st;
  st ← checkDefault heap old st;
  Ret (st, Decode sel d).

(** gob's own table of registered types is not modelled. *)
Definition Register (t : option nat) (st : LabGobState) : outcome LabGobState := checkValue types t st.

Definition RegisterName (name : string) (t : option nat) (st : LabGobState) : outcome LabGobState := checkValue types t st.
End wrappers.
