(* ===== verification/LabGobFacts.v ===== *)
(** * LabGobFacts: what labgob warns about

    [checkType] visits each type reachable from the types it is given once and
    complains about exactly their lower-case fields.  [checkDefault] counts the
    non-default basic values in the first three levels of a variable, and
    panics if one of the basic values there is in an unexported field. *)

From S2P Require Import Prelude LabGob GoStrings GoRunes LabGobCheck.
Local Open Scope Z_scope.

Section types.
Context {up : Uppers} (types : list GoType).
Implicit Types st : LabGobState.

(** The visits that a type leads to, each with the complaint that precedes it. *)
Definition jobs (t : nat) : list (list Message * nat) :=
  match types !! t with
  | Some (TStruct name fields) =>
      (fun f => (if exported (f_Name f) then [] else [LowerCase (f_Name f) name], f_Type f)) <$> fields
  | Some (TSlice elem) | Some (TArray elem) | Some (TPtr elem) => [([], elem)]
  | Some (TMap key elem) => [([], elem); ([], key)]
  | Some TOther | None => []
  end.

(** The types that occur in [t]. *)
Definition succs (t : nat) : list nat := snd <$> jobs t.

(** The lower-case fields of [t]. *)
Definition lower_fields (t : nat) : list Message := jobs t ≫= fst.

Definition occurs (t u : nat) : Prop := u ∈ succs t.

(** [u] occurs in [t], in a type that occurs in [t], and so on. *)
Notation reaches := (rtc occurs).

Definition types_wf : Prop := forall t u, u ∈ succs t -> (u < length types)%nat.

Definition add_messages (ms : list Message) st : LabGobState :=
  mkLabGobState (checked st) (errorCount st + len ms) (printed st ++ ms).

Definition run_jobs (visit : nat -> LabGobState -> option LabGobState) (js : list (list Message * nat)) st : option LabGobState :=
  foldl (fun o j => st ← o; visit j.2 (add_messages j.1 st)) (Some st) js.

Lemma add_no_messages st : add_messages [] st = st.
Proof. destruct st. unfold add_messages. cbn. by rewrite Z.add_0_r app_nil_r. Qed.

Lemma checkType_jobs fuel t st :
  checkType types (S fuel) t st =
    if bool_decide (t ∈ checked st) then Some st
    else run_jobs (checkType types fuel) (jobs t) (mkLabGobState ({[t]} ∪ checked st) (errorCount st) (printed st)).
Proof.
  cbn [checkType]. case_bool_decide; [done|]. unfold run_jobs, jobs. destruct (types !! t) as [[name fields|e|e|e|k e|]|]; cbn [foldl mbind option_bind fst snd].
  - rewrite foldl_fmap. generalize (Some (mkLabGobState ({[t]} ∪ checked st) (errorCount st) (printed st))).
    induction fields as [|f fields IH]; intros o; [done|]. cbn [foldl]. rewrite IH. f_equal. destruct o as [st'|]; [|done].
    cbn [mbind option_bind fst snd]. f_equal. unfold complain. destruct (exported (f_Name f)); [by rewrite add_no_messages|done].
  - by rewrite add_no_messages.
  - by rewrite add_no_messages.
  - by rewrite add_no_messages.
  - rewrite add_no_messages. destruct (checkType types fuel e _); [|done]. cbn [mbind option_bind]. by rewrite add_no_messages.
  - done.
  - done.
Qed.

(** From [st] to [st'] the types [new] were visited, all reachable from
    [roots], with the complaints [own] besides their own. *)
Record visited (roots : list nat) (own : list Message) (new : list nat) st st' : Prop := {
  vi_nodup : NoDup new;
  vi_fresh : forall u, u ∈ new -> u ∉ checked st;
  vi_checked : checked st' = list_to_set new ∪ checked st;
  vi_reach : forall u, u ∈ new -> exists r, r ∈ roots /\ reaches r u;
  vi_roots : forall r, r ∈ roots -> r ∈ checked st';
  vi_closed : forall u v, u ∈ new -> v ∈ succs u -> v ∈ checked st';
  vi_messages : exists ms, printed st' = printed st ++ ms /\ ms ≡ₚ own ++ (new ≫= lower_fields) /\ errorCount st' = errorCount st + len ms;
}.

Lemma visited_none st : visited [] [] [] st st.
Proof.
  constructor; try by intros ? ?%not_elem_of_nil.
  - constructor.
  - set_solver.
  - by intros ? ? ?%not_elem_of_nil.
  - exists []. rewrite app_nil_r. unfold len. simpl. split_and!; [done|done|lia].
Qed.

Lemma visited_add roots own new ms st st' : visited roots own new (add_messages ms st) st' -> visited roots (ms ++ own) new st st'.
Proof.
  intros [H1 H2 H3 H4 H5 H6 (ms' & E1 & E2 & E3)]. constructor; try done. exists (ms ++ ms'). cbn in E1, E3.
  split_and!; [by rewrite E1 app_assoc|by rewrite E2 app_assoc|rewrite E3; unfold len; rewrite length_app; lia].
Qed.

Lemma visited_seq r1 o1 n1 r2 o2 n2 st st1 st2 :
  visited r1 o1 n1 st st1 -> visited r2 o2 n2 st1 st2 -> visited (r1 ++ r2) (o1 ++ o2) (n1 ++ n2) st st2.
Proof.
  intros [A1 A2 A3 A4 A5 A6 (m1 & A7 & A8 & A9)] [B1 B2 B3 B4 B5 B6 (m2 & B7 & B8 & B9)]. constructor.
  - apply NoDup_app. split_and!; [done| |done]. intros u Hu1 Hu2. apply (B2 u Hu2). rewrite A3. set_solver.
  - intros u [Hu|Hu]%elem_of_app; [by apply A2|]. specialize (B2 u Hu). rewrite A3 in B2. set_solver.
  - rewrite B3 A3 list_to_set_app_L. set_solver.
  - intros u [Hu|Hu]%elem_of_app; [destruct (A4 u Hu) as (r & Hr & Hru)|destruct (B4 u Hu) as (r & Hr & Hru)]; exists r; (split; [set_solver|done]).
  - intros r [Hr|Hr]%elem_of_app; [|by apply B5]. rewrite B3. specialize (A5 r Hr). set_solver.
  - intros u v [Hu|Hu]%elem_of_app Hv; [|by apply (B6 u)]. rewrite B3. specialize (A6 u v Hu Hv). set_solver.
  - exists (m1 ++ m2). split_and!; [by rewrite B7 A7 app_assoc|rewrite A8 B8 bind_app; solve_Permutation|rewrite B9 A9; unfold len; rewrite length_app; lia].
Qed.

Definition in_range st : Prop := forall u, u ∈ checked st -> (u < length types)%nat.

(** The fuel that is enough: more than the number of types not yet visited. *)
Definition enough (fuel : nat) st : Prop := (length types < fuel + size (checked st))%nat.

Definition visit_ok (fuel : nat) : Prop := forall t st, (t < length types)%nat -> in_range st -> enough fuel st ->
  exists new st', checkType types fuel t st = Some st' /\ visited [t] [] new st st' /\ in_range st'.

Lemma enough_mono fuel st st' : checked st ⊆ checked st' -> enough fuel st -> enough fuel st'.
Proof. intros Hs. unfold enough. pose proof (subseteq_size _ _ Hs). lia. Qed.

Lemma run_jobs_visits fuel js st : visit_ok fuel -> Forall (fun j => (j.2 < length types)%nat) js -> in_range st -> enough fuel st ->
  exists new st', run_jobs (checkType types fuel) js st = Some st' /\ visited (snd <$> js) (js ≫= fst) new st st' /\ in_range st'.
Proof.
  intros Hok. revert st. induction js as [|[ms u] js IH]; intros st Hjs Hr He.
  - exists [], st. split_and!; [done|apply visited_none|done].
  - apply Forall_cons in Hjs as [Hu Hjs]. cbn [snd] in Hu.
    destruct (Hok u (add_messages ms st) Hu Hr He) as (n1 & st1 & E1 & Hv1%visited_add & Hr1).
    rewrite app_nil_r in Hv1. destruct (IH st1 Hjs Hr1) as (n2 & st2 & E2 & Hv2 & Hr2).
    { apply (enough_mono fuel st); [rewrite (vi_checked _ _ _ _ _ Hv1); set_solver|done]. }
    exists (n1 ++ n2), st2. split_and!; [|exact (visited_seq _ _ _ _ _ _ _ _ _ Hv1 Hv2)|done].
    unfold run_jobs in *. cbn [foldl mbind option_bind fst snd]. by rewrite E1.
Qed.

(** Visiting [t] and then what occurs in it. *)
Lemma visited_cons t new st st' :
  t ∉ checked st -> visited (succs t) (lower_fields t) new (mkLabGobState ({[t]} ∪ checked st) (errorCount st) (printed st)) st' ->
  visited [t] [] (t :: new) st st'.
Proof.
  intros Hnt [H1 H2 H3 H4 H5 H6 H7]. cbn [checked printed errorCount] in *. constructor.
  - constructor; [|done]. intros Ht. apply (H2 t Ht). set_solver.
  - intros u [->|Hu]%elem_of_cons; [done|]. specialize (H2 u Hu). set_solver.
  - rewrite H3. set_solver.
  - intros u [->|Hu]%elem_of_cons; exists t; (split; [set_solver|]); [apply rtc_refl|]. destruct (H4 u Hu) as (r & Hr & Hru). by apply rtc_l with r.
  - intros r ->%list_elem_of_singleton. rewrite H3. set_solver.
  - intros u v [->|Hu]%elem_of_cons Hv; [by apply H5|by apply (H6 u)].
  - exact H7.
Qed.

Lemma checkType_visits fuel : types_wf -> visit_ok fuel.
Proof.
  intros Hwf. induction fuel as [|fuel IH]; intros t st Ht Hr He.
  - exfalso. unfold enough in He. assert (checked st ⊆ list_to_set (seq 0 (length types))) as Hsub.
    { intros u Hu. apply elem_of_list_to_set, elem_of_seq. specialize (Hr u Hu). lia. }
    apply subseteq_size in Hsub. rewrite size_list_to_set in Hsub; [apply NoDup_seq|]. rewrite length_seq in Hsub. lia.
  - rewrite checkType_jobs. case_bool_decide as Hin.
    + exists [], st. split_and!; [done| |done]. destruct (visited_none st) as [H1 H2 H3 _ _ H6 H7].
      constructor; try done; [by intros ? ?%not_elem_of_nil|]. by intros r ->%list_elem_of_singleton.
    + destruct (run_jobs_visits fuel (jobs t) (mkLabGobState ({[t]} ∪ checked st) (errorCount st) (printed st))) as (new & st' & E & Hv & Hr'); [done| | | |].
      * apply Forall_forall. intros j Hj. apply (Hwf t). apply list_elem_of_fmap. by exists j.
      * intros u [Eu%elem_of_singleton|Hu]%elem_of_union; [by subst|by apply Hr].
      * unfold enough in *. cbn [checked]. rewrite size_union; [set_solver|]. rewrite size_singleton. lia.
      * exists (t :: new), st'. split_and!; [done|by apply visited_cons|done].
Qed.

(** ** Sequences of checks *)

Definition run_checks (ts : list nat) : outcome LabGobState :=
  foldl (fun o t => st ← o; checkValue types (Some t) st) (Ret init_state) ts.

(** Between checks the visited types are exactly the reachable ones. *)
Record checks_inv (ts : list nat) st : Prop := {
  ci_range : in_range st;
  ci_checked : forall u, u ∈ checked st <-> exists t, t ∈ ts /\ reaches t u;
  ci_printed : printed st ≡ₚ elements (checked st) ≫= lower_fields;
  ci_count : errorCount st = len (printed st);
}.

Lemma checks_inv_step ts t st : types_wf -> (t < length types)%nat -> checks_inv ts st ->
  exists st', checkValue types (Some t) st = Ret st' /\ checks_inv (ts ++ [t]) st'.
Proof.
  intros Hwf Ht [Hr Hc Hp He]. destruct (checkType_visits (S (length types)) Hwf t st Ht Hr) as (new & st' & E & Hv & Hr').
  { unfold enough. lia. }
  exists st'. unfold checkValue. rewrite E. split; [done|]. destruct Hv as [V1 V2 V3 V4 V5 V6 (ms & V7 & V8 & V9)].
  assert (forall u v, u ∈ checked st' -> occurs u v -> v ∈ checked st') as Hclosed.
  { intros u v Hu Huv. rewrite V3 in Hu. apply elem_of_union in Hu as [Hu%elem_of_list_to_set|(t' & Ht' & Hreach)%Hc]; [by apply (V6 u)|].
    rewrite V3. apply elem_of_union_r, Hc. exists t'. split; [done|]. by apply rtc_r with u. }
  constructor; [done| | |].
  - intros u. split.
    + rewrite V3. intros [Hu%elem_of_list_to_set|(t' & Ht' & Hreach)%Hc]%elem_of_union.
      * destruct (V4 u Hu) as (r & Er%list_elem_of_singleton & Hru). subst r. exists t. split; [set_solver|done].
      * exists t'. split; [set_solver|done].
    + intros (t' & [Ht'|E'%list_elem_of_singleton]%elem_of_app & Hreach); [|subst t'].
      * rewrite V3. apply elem_of_union_r, Hc. by exists t'.
      * assert (t ∈ checked st') as Hin by (apply V5; set_solver). clear -Hin Hreach Hclosed.
        induction Hreach as [|a b c Hab _ IH]; [done|]. apply IH. by apply (Hclosed a).
  - rewrite V7 V8 Hp V3 elements_disj_union; [intros u Hu%elem_of_list_to_set; by apply V2|].
    rewrite bind_app elements_list_to_set //. solve_Permutation.
  - rewrite V9 V7 He. unfold len. rewrite length_app. lia.
Qed.

Lemma run_checks_inv ts : types_wf -> Forall (fun t => (t < length types)%nat) ts -> exists st, run_checks ts = Ret st /\ checks_inv ts st.
Proof.
  intros Hwf. unfold run_checks. induction ts as [|t ts IH] using rev_ind; intros Hts.
  - exists init_state. split; [done|]. constructor; [by intros u ?%elem_of_empty| |by cbn|done].
    intros u. cbn [checked init_state]. split; [by intros ?%elem_of_empty|]. by intros (t & ?%not_elem_of_nil & _).
  - apply Forall_app in Hts as [Hts [Ht _]%Forall_cons]. destruct (IH Hts) as (st & E & Hinv). rewrite foldl_app E. cbn [foldl mbind outcome_bind].
    by apply checks_inv_step.
Qed.

(** C39. labgob complains once about each lower-case field: after checks of any
    values, which always return although types may refer to themselves, it has
    visited exactly the types reachable from theirs, and has printed, and
    counted, one complaint for every lower-case field of those types. *)
Theorem labgob_reports_lowercase_once ts :
  types_wf -> Forall (fun t => (t < length types)%nat) ts ->
  exists st, run_checks ts = Ret st /\ (forall u, u ∈ checked st <-> exists t, t ∈ ts /\ reaches t u) /\
    printed st ≡ₚ elements (checked st) ≫= lower_fields /\ errorCount st = len (printed st).
Proof. intros Hwf Hts. destruct (run_checks_inv ts Hwf Hts) as (st & E & [_ Hc Hp He]). by exists st. Qed.
End types.

(** ** Variables that are not zero *)

Section defaults.
Context {up : Uppers} (heap : gmap nat GoVal).
Implicit Types st : LabGobState.

(** A basic value of a variable. *)
Record Leaf := mkLeaf { lf_what : string; lf_unexported : bool; lf_value : Basic }.

(** The basic values in the first [levels] levels, in the order of the fields. *)
Fixpoint leaves (levels : nat) (value : GoVal) (fl : Flags) (name : string) : list Leaf :=
  match levels with
  | O => []
  | S levels =>
      match value with
      | VStruct fields => fields ≫= fun '(fname, embedded, vv) => leaves levels vv (field_flags fl fname embedded) (sub_name name fname)
      | VPtr p => from_option (fun v => leaves levels v fl name) [] (p ≫= fun p => heap !! p)
      | VBasic tname b => [mkLeaf (if bool_decide (name = EmptyString) then tname else name) (stickyRO fl || embedRO fl) b]
      | VOther => []
      end
  end.

Definition check_leaf (l : Leaf) st : outcome LabGobState :=
  if lf_unexported l then Panic "reflect.Value.Interface: cannot return value obtained from unexported field or method" else
  if is_zero (lf_value l) then Ret st else
  Ret (mkLabGobState (checked st) (errorCount st + 1)
    (if bool_decide (errorCount st < 1) then printed st ++ [NonDefault (lf_what l)] else printed st)).

Definition check_leaves (ls : list Leaf) (o : outcome LabGobState) : outcome LabGobState :=
  foldl (fun o l => st ← o; check_leaf l st) o ls.

Lemma check_leaves_panic ls e : check_leaves ls (Panic e) = Panic e.
Proof. by induction ls. Qed.

Lemma checkDefault1_leaves levels value fl name st :
  checkDefault1 heap levels value fl name st = check_leaves (leaves levels value fl name) (Ret st).
Proof.
  revert value fl name st. induction levels as [|levels IH]; intros value fl name st; [done|].
  destruct value as [fields|[p|]|tname b|]; cbn [checkDefault1 leaves]; try done.
  - unfold check_leaves. generalize (Ret st). induction fields as [|[[fname emb] vv] fields IHf]; intros o; [done|].
    cbn [foldl mbind list_bind]. rewrite foldl_app IHf. f_equal. destruct o as [st'|e]; [apply IH|symmetry; apply check_leaves_panic].
  - cbn [mbind option_bind]. destruct (heap !! p) as [v|]; [apply IH|done].
  - unfold check_leaves, check_leaf. cbn [foldl mbind outcome_bind lf_unexported lf_value lf_what].
    destruct (stickyRO fl || embedRO fl); [done|]. destruct (is_zero b); [done|]. by case_bool_decide.
Qed.

Definition nondefault (ls : list Leaf) : list Leaf := filter (fun l => is_zero (lf_value l) = false) ls.

Lemma check_leaves_spec ls st : 0 <= errorCount st ->
  if existsb lf_unexported ls then exists e, check_leaves ls (Ret st) = Panic e
  else check_leaves ls (Ret st) = Ret (mkLabGobState (checked st) (errorCount st + len (nondefault ls))
    (printed st ++ if bool_decide (errorCount st < 1) then NonDefault ∘ lf_what <$> take 1 (nondefault ls) else [])).
Proof.
  revert st. induction ls as [|l ls IH]; intros st H0.
  - simpl. destruct st as [c k ps]. unfold len. simpl. by rewrite Z.add_0_r; case_bool_decide; rewrite app_nil_r.
  - cbn [existsb]. unfold check_leaves in *. cbn [foldl mbind outcome_bind]. unfold check_leaf at 2 4. unfold nondefault. rewrite filter_cons.
    destruct (lf_unexported l); cbn [orb]; [eexists; apply check_leaves_panic|].
    destruct (is_zero (lf_value l)) eqn:Ez; [exact (IH st H0)|]. cbn [decide].
    match goal with |- context [foldl _ (Ret ?s) ls] => specialize (IH s) end. cbn [errorCount checked printed] in IH.
    destruct (existsb lf_unexported ls); [apply IH; lia|]. rewrite IH; [lia|]. rewrite (bool_decide_false (errorCount st + 1 < 1)); [lia|]. f_equal. rewrite app_nil_r.
    unfold len, nondefault. rewrite length_cons. f_equal; [lia|]. case_bool_decide; [done|by rewrite app_nil_r].
Qed.

(** C40. Before it decodes into a variable, labgob panics exactly if one of the
    basic values in the first three levels of the variable is in an unexported
    field.  Otherwise it counts the values that are not zero, and warns about the
    first of them if nothing had been counted before; it leaves the checked types
    alone. *)
Theorem decode_warns_or_panics (value : GoVal) st : 0 <= errorCount st ->
  let ls := leaves 3 value (mkFlags false false) EmptyString in
  (existsb lf_unexported ls = true <-> exists e, checkDefault heap (Some value) st = Panic e) /\
  (existsb lf_unexported ls = false ->
     checkDefault heap (Some value) st = Ret (mkLabGobState (checked st) (errorCount st + len (nondefault ls))
       (printed st ++ if bool_decide (errorCount st < 1) then NonDefault ∘ lf_what <$> take 1 (nondefault ls) else []))).
Proof.
  intros H0 ls. unfold checkDefault. rewrite checkDefault1_leaves. fold ls. pose proof (check_leaves_spec ls st H0) as Hs.
  destruct (existsb lf_unexported ls); [by split|]. split; [|done]. rewrite Hs. split; [done|]. by intros [e ?].
Qed.
End defaults.

(** ** Witnesses *)

(** [type T struct { Next *T; count int; Tags []string }]; 0 is T, 1 is *T,
    2 is int, 3 is []string. *)
Definition list_types : list GoType :=
  [TStruct "T" [mkField "Next" false 1; mkField "count" false 2; mkField "Tags" false 3]; TPtr 0; TOther; TSlice 2].

Lemma list_types_wf : types_wf list_types.
Proof.
  intros [|[|[|[|t]]]] u; unfold succs, jobs; simpl; rewrite ?elem_of_cons ?elem_of_nil; intuition lia.
Qed.

Lemma labgob_reports_lowercase_once_witness :
  exists st, run_checks list_types [1%nat; 0%nat] = Ret st /\ printed st = [LowerCase "count" "T"] /\ errorCount st = len (printed st).
Proof.
  destruct (labgob_reports_lowercase_once list_types [1%nat; 0%nat]) as (st & E & _ & _ & He);
    [exact list_types_wf|repeat constructor|].
  exists st. split; [exact E|]. split; [|exact He]. vm_compute in E. injection E as <-. reflexivity.
Defined.

Definition used_reply : GoVal := VStruct [("Term", false, VBasic "int" (BInt 3)); ("Ok", false, VBasic "bool" (BBool true))]%string.
Definition hidden_reply : GoVal := VStruct [("term", false, VBasic "int" (BInt 0))]%string.

Lemma decode_warns_or_panics_witness :
  (exists e, checkDefault ∅ (Some hidden_reply) init_state = Panic e) /\
  checkDefault ∅ (Some used_reply) init_state = Ret (mkLabGobState ∅ 2 [NonDefault "Term"]).
Proof.
  split.
  - apply (decode_warns_or_panics ∅ hidden_reply init_state); [simpl; lia|reflexivity].
  - destruct (decode_warns_or_panics ∅ used_reply init_state ltac:(simpl; lia)) as [_ H]. rewrite H; [reflexivity|]. vm_compute. reflexivity.
Defined.
